(* ===== verification/_CoqProject ===== *)
-Q . S2P
Prelude.v
Text.v
Logger.v
SyncCoordinator.v
Json.v
Yaml.v
SchemaValidator.v
SchemaAccepts.v
ApiTools.v
SerializedCommand.v
Ipc.v
Plugin.v
Worker.v
ProcessManager.v
Proxy.v
System.v
Pipeline.v
PipelineDrain.v
DataBuffer.v
JobManager.v
PluginRegistry.v
Ownership.v
Visa.v
Instrument.v
Registry.v
RuntimeContext.v
RegistryWorkers.v
Daemon.v
CommandHandlers.v
Http.v
Cli.v
