(* ===== verification/Prelude.v ===== *)
(** * Instrument Script Server: a verification development

    The program (src/) lets Lua scripts drive laboratory instruments.  A server
    process keeps a registry of instruments; each instrument is a plugin that
    runs in a worker process of its own.  The server and a worker talk through
    two message queues in shared memory; commands and responses travel as JSON
    text in fixed-size messages.  Clients reach the server through HTTP requests
    or the command line; scripts run directly or as jobs.

    ** Parts, files and correspondence

    - [Prelude]: exceptions ([res]: a value, a thrown [what()], or undefined
      behaviour), machine integers with their wrap-around, sorted iteration of
      [std::map]/[std::set], decimal numerals, shared tactics and hints.
    - [Text]: [std::stoi], [find], [std::getline] and words, on lists of
      characters.
    - [Logger] (src/include/instrument-server/Logger.hpp): the logger's life, its
      level test and which messages reach its file and console.
    - [Json]: JSON values and the accessors of the JSON library the code uses
      ([value], [contains], [get<T>], [operator[]]).  [dump] and [parse] are the
      class [JsonText]: what the library documents about its text, with an
      executable instance.
    - [Yaml]: YAML documents as trees and the node accessors of the YAML library;
      its conversions of scalars are fields of [YamlApi].
    - [SchemaValidator] (src/src/SchemaValidator.cpp and the three validator
      tools): the checks, in a monad that records errors and may throw.
      [SchemaAccepts]: the documents they are meant to accept.
    - [ApiTools] (src/src/template_expander.cpp,
      instrument_configuration_generator.cpp): the tools that write API and
      configuration files.
    - [SyncCoordinator] (src/src/server/SyncCoordinator.cpp): barriers per token.
    - [SerializedCommand] (src/src/SerializedCommand.cpp): the JSON form of
      commands and responses.
    - [Ipc] (src/src/ipc/SharedQueue.cpp, IPCMessage.hpp): the two queues of an
      instrument; [boost::interprocess::message_queue] is the class
      [MessageQueue] (bounded, by priority and then by age), with an instance on
      lists; [use_all] is any interleaving of the two ends of a channel.
    - [Plugin] and [Worker] (src/src/workers/generic_worker_main.cpp,
      PluginInterface.h): the C structures of plugins, the start of a worker
      ([run]: the plugin is initialised with the fixed configuration of
      [worker_config], then the queue is opened), its message loop, and
      [worker_main]; the plugin is a parameter.
    - [ProcessManager] (src/src/ipc/ProcessManager.cpp): spawning, watching and
      killing workers; the system calls are the class [Posix].
    - [Proxy] (src/src/server/InstrumentWorkerProxy.cpp): the server's end of a
      worker.  [pact] interleaves the critical sections of clients, listener and
      [stop] and labels each step with what it does to futures and statistics;
      [cact] adds an environment that puts any response on the queue.
      [handle_worker_death] is no step, since nothing in src/ calls it.
    - [System]: a command's whole way from [execute] through the worker and back.
    - [Pipeline] and [PipelineDrain]: the proxy's own steps with the real queues
      and the real worker in place of the environment ([yact], with who takes the
      step), every thread interleaved at the granularity of queue operations; an
      abstract [Service], and the runs of worker and listener alone in which
      everything is answered.
    - [DataBuffer] (src/src/ipc/DataBufferManager.cpp and its C interface):
      named, reference-counted blocks of memory; [life] is what the calls on one
      buffer make of it.
    - [JobManager] (src/src/server/JobManager.cpp): the job queue; [jstep]
      interleaves requests (a submission draws its number before it takes the
      lock), worker thread and monitor threads.
    - [PluginRegistry] (src/src/plugin/PluginLoader.cpp, PluginRegistry.cpp):
      shared libraries and the protocols they serve.
    - [Ownership]: the move-only handle classes (PluginLoader, DataBuffer), their
      constructors, move operations and destructors on variables of a store, so
      that both sides of an assignment may be the same.
    - [Visa] (src/plugins/visa/visa_plugin.c, src/src/workers/visa_builtin.cpp):
      the plugins for VISA instruments, which implement the interface of
      [Plugin]; large readings go to [DataBuffer].  The VISA library is the class
      [VisaLib], cJSON the class [CJson].
    - [Instrument]: [Worker] with the VISA plugins of [Visa], which never start,
      and [Pipeline] with the built-in one in an open session, down to the bytes
      written to the instrument.
    - [Registry] (src/src/server/InstrumentRegistry.cpp, ApiRefResolver.cpp): the
      instruments, their API definitions and file references.
    - [RuntimeContext] (src/src/server/RuntimeContext.cpp): what scripts call;
      proved against the class [Workers], the view a script has of instruments and
      coordinators, where other threads may remove an instrument; the context's
      coordinator is a reference ([coord_ref]).
    - [RegistryWorkers]: the instance of [Workers] for the real registry in a
      [World] with the coordinators local to scripts and the other threads, and
      whole scripts.
    - [Daemon] (src/src/server/ServerDaemon.cpp and the life of HttpRpcServer):
      threads, PID file, start and stop; [mstep] interleaves several server
      processes of one machine on the PID file.
    - [CommandHandlers] (src/src/server/CommandHandlers.cpp): the fifteen request
      handlers on the state of the whole server.
    - [Http] (src/src/server/HttpRpcServer.cpp): reading a request from a socket,
      dispatching it, and answering; [accept_loop] serves one client after the
      other.
    - [Cli] (src/src/server/instrument_server_main.cpp): the command line, on the
      handlers.

    State is passed explicitly: each C++ object is a record with the members of
    the class, each method a function on it.  A method that holds a mutex for its
    whole body is one function; where a thread gives up a lock between two
    critical sections, each section is a function and a step relation
    interleaves them.  Code outside src/ (the JSON text layer, message queues,
    system calls, Lua, YAML, the dynamic linker, files, sockets, clocks) is a
    parameter, with what the code relies on stated as laws of a class; the
    classes have executable instances, on which the theorems are tried.

    ** What is proved

    - The command pipeline: under every interleaving of clients, listener, [stop],
      queues and worker the system refines a service that answers each command
      once, a future holds the plugin's answer to its own command, and worker and
      listener alone can always empty the queues, which settles the futures of
      every call that left [execute] normally and was not refused (C1-C3).  A
      worker with a VISA plugin never gets that far: it exits at once (C4);
      [instrument_hears_calls] says what an open session would be sent.
    - Barriers: the coordinator refines an abstract latch per token and completes
      a barrier exactly once (C5-C6).
    - The wire: commands and responses survive a round trip up to what the format
      cannot say, a channel is FIFO in both directions under every interleaving
      (C7-C9); the conversion for plugins bounds every string and the number of
      parameters and keeps their values (C10).  Workers answer every command once and in order.
    - Processes: the monitor reports exactly those that are overdue and do not
      run, waiting for an exit ends with an exact answer (C11-C12).
    - Futures: under every interleaving, whatever the worker sends, each promise is
      set at most once and none is lost, the statistics count exactly, and stopping
      settles all but the calls that had not yet filed theirs (C13-C14;
      [late_call_unsettled] is such a call); a response
      that does not fit a message ends the server (C15).
    - Buffers: reference counts refine their specification, and when exactly a
      buffer is listed and its memory there (C16-C17); the round trip and when the CSV export is safe.
    - Jobs: exclusion of measure jobs and others, finished jobs stay as they are,
      the queue holds the queued jobs in the order they were pushed (C18-C20); the
      runs in which cancelling goes wrong.
    - Plugins and instruments: registry invariants, and what creating an
      instrument leaves behind on every path (C21-C23).
    - Scripts: a parallel block sends exactly the shares, answers reach their rows
      unless an instrument was removed meanwhile, and the barriers of scripts hear
      no acknowledgement (C24-C26); names are parsed back; the monitor of a measure
      job uses a coordinator that is gone ([monitor_uses_dead_coordinator]).
    - The daemon and requests: when the PID file keeps two servers apart, how
      stopping ends (C27-C28), and requests do not depend on how the network splits
      them (C29).
    - Validators: each accepts exactly the documents of a description that is
      independent of the code: [matches] for placeholders, [separated] for lists, a
      grammar of gate orders (C30-C32).
    - Tools: an expanded API passes the check of its channel groups, expanding is
      idempotent, and when a generated configuration is valid (C33-C35).
    - VISA plugin: templates expand as a reference says and within their buffer,
      which must not be empty, strings of 127 characters are undefined, large readings are kept whole
      (C36-C38); over its life the plugin closes each session once.
    - The command line works on the empty state of its own process (C39).
    - Owning objects: each variable holds what the specification says, and a
      library or block is open exactly as long as a variable owns it, whatever is
      moved where, also to itself (C40).

    ** Bounds and fuel

    Loops over data are structural.  Loops over time (listeners, the monitor,
    [wait_for_exit], the worker) consume a list of clock readings or messages,
    one per iteration; [wait_for_exit] is proved to answer within timeout/100 + 2
    of them (C12).  Reading from a socket has as fuel the number of bytes there can be
    read, which is enough because a [recv] that returns nothing ends the loop
    (C29 needs the loops to finish).  Expanding a template has as fuel the
    template's length, since every round consumes a character (C36).  That the
    pipeline drains (C3) is proved with a weight each step lowers.  Counters
    are 64 or 32 bits wide and wrap; theorems that need a fresh number assume
    fewer operations than that.

    ** Not modelled

    WorkerProtocol.cpp, an older JSON form of commands and responses: the build
    leaves it out, and it uses members and variant alternatives that the types in
    SerializedCommand.hpp do not have, so the source gives it no meaning.  The
    calls of the logger inside the other parts (the logger itself is [Logger]),
    the Windows branches, the build scripts and the headers that only re-export,
    the text layer of YAML (anchors stand for copies), and the schema texts the
    build embeds.  The Lua program around the calls of a script is not modelled: a
    script is the sequence of calls it makes, a parallel block a state
    transformer. *)

From stdpp Require Export base tactics list gmap strings pretty sorting relations.
From Stdlib Require Export ZArith Ascii.
From Stdlib Require Import Lia.

(** ** Notations of the development *)

Declare Scope inst_scope.
Delimit Scope inst_scope with inst.

(** [std::string] is [string]; [s.empty()] is the boolean below. *)
Notation "'empty?' s" := (bool_decide (s = EmptyString))
  (at level 10, s at level 9) : inst_scope.

Open Scope inst_scope.

(** ** Exceptions

    A C++ computation that may throw returns a [res]: the value, the [what()]
    text of the exception, or [Undef] where the language gives the operation no
    meaning (undefined behaviour) or ends the process ([std::terminate]). *)

Inductive res (A : Type) : Type :=
| Ok (a : A)
| Exn (what : string)
| Undef.
Arguments Ok {A} a.
Arguments Exn {A} what.
Arguments Undef {A}.

#[export] Instance res_ret : MRet res := @Ok.
#[export] Instance res_bind : MBind res := λ A B f m,
  match m with Ok a => f a | Exn e => Exn e | Undef => Undef end.
#[export] Instance res_fmap : FMap res := λ A B f m,
  match m with Ok a => Ok (f a) | Exn e => Exn e | Undef => Undef end.

#[export] Instance res_eq_dec {A} `{EqDecision A} : EqDecision (res A).
Proof. solve_decision. Defined.

(** A [for] loop whose body may throw. *)
Fixpoint res_foldl {A B} (f : A → B → res A) (a : A) (l : list B) : res A :=
  match l with
  | [] => Ok a
  | b :: l => a' ← f a b; res_foldl f a' l
  end.

Fixpoint res_map {A B} (f : A → res B) (l : list A) : res (list B) :=
  match l with
  | [] => Ok []
  | a :: l => b ← f a; bs ← res_map f l; Ok (b :: bs)
  end.

Lemma res_foldl_Ok {A B} (f : A → B → res A) (g : A → B → A) a l :
  (∀ a b, b ∈ l → f a b = Ok (g a b)) → res_foldl f a l = Ok (foldl g a l).
Proof.
  revert a. induction l as [|b l IH]; intros a Hf; [done|]. cbn.
  rewrite Hf by set_solver. cbn. apply IH. set_solver.
Qed.

Lemma res_map_Ok {A B} (f : A → res B) (g : B → A) l :
  (∀ b, b ∈ l → f (g b) = Ok b) → res_map f (g <$> l) = Ok l.
Proof.
  induction l as [|b l IH]; intros Hf; [done|]. cbn.
  rewrite Hf by set_solver. cbn. rewrite IH by set_solver. done.
Qed.

Lemma res_map_total {A B} (f : A → res B) (g : A → B) l :
  (∀ a, a ∈ l → f a = Ok (g a)) → res_map f l = Ok (g <$> l).
Proof.
  induction l as [|a l IH]; intros Hf; [done|]. cbn.
  rewrite Hf by set_solver. cbn. rewrite IH by set_solver. done.
Qed.

(** A loop that throws in no round gives the results of all of them. *)
Lemma res_map_elem {A B} (f : A → res B) l bs b :
  res_map f l = Ok bs → b ∈ bs ↔ ∃ a, a ∈ l ∧ f a = Ok b.
Proof.
  revert bs. induction l as [|a l IH]; intros bs; cbn; [intros [= <-]; set_solver|].
  destruct (f a) as [b'|e|] eqn:Ha; [|done..]. cbn.
  destruct (res_map f l) as [bs'|e|]; [|done..]. intros [= <-].
  rewrite elem_of_cons, (IH bs' eq_refl). split.
  - intros [->|(a' & ? & ?)]; [exists a; set_solver|exists a'; set_solver].
  - intros (a' & [->|?]%elem_of_cons & Hb); [left; congruence|right; eauto].
Qed.

Lemma res_map_all {A B} (f : A → res B) l :
  (∃ bs, res_map f l = Ok bs) ↔ ∀ a, a ∈ l → ∃ b, f a = Ok b.
Proof.
  induction l as [|a l IH]; cbn; [split; [set_solver|by eexists]|]. split.
  - intros [bs H]. destruct (f a) as [b|e|] eqn:Ha; [|done..]. cbn in H.
    destruct (res_map f l) as [bs'|e|]; [|done..].
    intros a' [->|?]%elem_of_cons; [by eexists|apply IH; [by eexists|done]].
  - intros H. destruct (H a) as [b ->]; [set_solver|].
    destruct IH as [_ [bs ->]]; [set_solver|]. by eexists.
Qed.

(** A property that every round of a loop keeps holds after the loop. *)
Lemma foldl_inv {A B} (P : A → Prop) (f : A → B → A) l a :
  (∀ a b, P a → P (f a b)) → P a → P (foldl f a l).
Proof. intros Hf. revert a. induction l as [|b l IH]; intros a Ha; cbn; auto. Qed.

(** A loop that never throws is undefined if one of its rounds is. *)
Lemma res_map_Undef {A B} (f : A → res B) l x :
  (∀ a e, f a ≠ Exn e) → x ∈ l → f x = Undef → res_map f l = Undef.
Proof.
  intros Hf Hx Hu. induction l as [|y l IH]; [by apply elem_of_nil in Hx|]. cbn.
  apply elem_of_cons in Hx as [<-|Hx]; [by rewrite Hu|].
  destruct (f y) as [b|e|] eqn:Hy; cbn; [by rewrite IH|by apply Hf in Hy|done].
Qed.

(** ** Machine integers *)

Definition two32 : Z := 2 ^ 32.
Definition two63 : Z := 2 ^ 63.
Definition two64 : Z := 2 ^ 64.

(** Unsigned conversions wrap around, signed ones are two's complement. *)
Definition wrap32 (z : Z) : Z := z `mod` two32.
Definition wrap64 (z : Z) : Z := z `mod` two64.
Definition sint64 (z : Z) : Z := (z + two63) `mod` two64 - two63.
Definition sint32 (z : Z) : Z := (z + 2 ^ 31) `mod` two32 - 2 ^ 31.

Definition is_u64 (z : Z) : Prop := (0 ≤ z < two64)%Z.
Definition is_u32 (z : Z) : Prop := (0 ≤ z < two32)%Z.
Definition is_i64 (z : Z) : Prop := (- two63 ≤ z < two63)%Z.
Definition is_i32 (z : Z) : Prop := (- 2 ^ 31 ≤ z < 2 ^ 31)%Z.

#[export] Instance is_u64_dec z : Decision (is_u64 z).
Proof. unfold is_u64. apply _. Defined.
#[export] Instance is_u32_dec z : Decision (is_u32 z).
Proof. unfold is_u32. apply _. Defined.
#[export] Instance is_i64_dec z : Decision (is_i64 z).
Proof. unfold is_i64. apply _. Defined.
#[export] Instance is_i32_dec z : Decision (is_i32 z).
Proof. unfold is_i32. apply _. Defined.

Create HintDb widths.
Create Rewrite HintDb widths.
Create Rewrite HintDb containers.

Lemma wrap64_id z : is_u64 z → wrap64 z = z.
Proof. intros H. by apply Z.mod_small. Qed.

Lemma wrap64_bound z : is_u64 (wrap64 z).
Proof. unfold is_u64, wrap64, two64. apply Z.mod_pos_bound. lia. Qed.

Lemma wrap32_id z : is_u32 z → wrap32 z = z.
Proof. intros H. by apply Z.mod_small. Qed.

Lemma wrap32_bound z : is_u32 (wrap32 z).
Proof. unfold is_u32, wrap32, two32. apply Z.mod_pos_bound. lia. Qed.

Lemma sint64_id z : is_i64 z → sint64 z = z.
Proof.
  unfold is_i64, sint64, two63, two64. intros H.
  rewrite Z.mod_small; lia.
Qed.

Lemma sint32_id z : is_i32 z → sint32 z = z.
Proof.
  unfold is_i32, sint32, two32. intros H. rewrite Z.mod_small; lia.
Qed.

#[export] Hint Resolve wrap64_bound wrap32_bound : widths.
#[export] Hint Rewrite wrap64_id wrap32_id sint64_id sint32_id using done : widths.

(** ** Ordered associative containers

    [std::map<std::string, V>] is a [gmap string V], [std::set<std::string>]
    a [gset string]; iterating over either visits the keys in the
    lexicographic order of [std::string], which is [String.le]. *)

Definition sorted_elements (X : gset string) : list string :=
  merge_sort String.le (elements X).

Definition sorted_keys {V} (m : gmap string V) : list string :=
  sorted_elements (dom m).

Lemma sorted_elements_perm X : sorted_elements X ≡ₚ elements X.
Proof. apply merge_sort_Permutation. Qed.

Lemma elem_of_sorted_elements x X : x ∈ sorted_elements X ↔ x ∈ X.
Proof. rewrite sorted_elements_perm. apply elem_of_elements. Qed.

Lemma NoDup_sorted_elements X : NoDup (sorted_elements X).
Proof. rewrite sorted_elements_perm. apply NoDup_elements. Qed.

Lemma sorted_elements_sorted X : StronglySorted String.le (sorted_elements X).
Proof. apply StronglySorted_merge_sort; apply _. Qed.

Lemma sorted_elements_unique X l :
  NoDup l → (∀ x, x ∈ l ↔ x ∈ X) → StronglySorted String.le l → l = sorted_elements X.
Proof.
  intros Hnd Hin Hs. apply (StronglySorted_unique String.le); [done|apply sorted_elements_sorted|].
  apply NoDup_Permutation; [done|apply NoDup_sorted_elements|].
  intros x. by rewrite Hin, elem_of_sorted_elements.
Qed.

Lemma StronglySorted_filter {A} (R : relation A) (P : A → Prop) `{∀ x, Decision (P x)} l :
  StronglySorted R l → StronglySorted R (filter P l).
Proof.
  induction 1 as [|x l Hl IH Hx]; [constructor|]. rewrite filter_cons.
  case_decide; [|done]. constructor; [done|]. rewrite Forall_forall in *.
  intros y [_ Hy]%list_elem_of_filter. auto.
Qed.

Lemma elem_of_concat_fmap {A B} (f : A → list B) l x : x ∈ concat (f <$> l) ↔ ∃ a, a ∈ l ∧ x ∈ f a.
Proof.
  induction l as [|a l IH]; cbn; [set_solver|]. rewrite elem_of_app, IH. set_solver.
Qed.

Lemma filter_none {A} (P : A → Prop) `{∀ x, Decision (P x)} l :
  Forall (λ x, ¬ P x) l → filter P l = [].
Proof. induction 1 as [|x l Hx Hl IH]; [done|]. by rewrite filter_cons_False. Qed.

Lemma StronglySorted_of_fmap {A B} (R : relation B) (f : A → B) l :
  StronglySorted R (f <$> l) → StronglySorted (λ x y, R (f x) (f y)) l.
Proof.
  induction l as [|x l IH]; [constructor|].
  rewrite fmap_cons. intros [Hl Hx]%StronglySorted_inv.
  constructor; [auto|]. rewrite Forall_fmap in Hx. exact Hx.
Qed.

Lemma sorted_elements_nil X : sorted_elements X = [] ↔ X = ∅.
Proof.
  split.
  - intros H. apply set_eq. intros x. rewrite <-elem_of_sorted_elements, H. set_solver.
  - intros ->. done.
Qed.

Lemma elem_of_sorted_keys {V} x (m : gmap string V) :
  x ∈ sorted_keys m ↔ is_Some (m !! x).
Proof. unfold sorted_keys. by rewrite elem_of_sorted_elements, elem_of_dom. Qed.

Lemma sorted_keys_empty {V} (m : gmap string V) : sorted_keys m = [] ↔ m = ∅.
Proof.
  unfold sorted_keys. rewrite sorted_elements_nil. split.
  - apply dom_empty_inv_L.
  - intros ->. apply dom_empty_L.
Qed.

Lemma difference_singleton_subset (M X : gset string) i :
  M ∖ {[i]} ⊆ X ↔ M ⊆ {[i]} ∪ X.
Proof.
  split; intros H; [|set_solver]. intros y Hy. destruct (decide (y = i)); set_solver.
Qed.

(** The last key in iteration order is an upper bound of all keys. *)
Lemma sorted_last_max X x y :
  last (sorted_elements X) = Some y → x ∈ X → String.le x y.
Proof.
  intros Hl Hx. apply elem_of_sorted_elements in Hx.
  apply last_Some in Hl as [l Hl]. pose proof (sorted_elements_sorted X) as Hs.
  rewrite Hl in Hx, Hs. apply elem_of_app in Hx as [Hx|Hx].
  - eapply StronglySorted_app_1_elem_of; [exact Hs|done|set_solver].
  - assert (x = y) as -> by set_solver. reflexivity.
Qed.

#[export] Hint Resolve NoDup_sorted_elements sorted_elements_sorted : core.
#[export] Hint Rewrite @elem_of_sorted_keys elem_of_sorted_elements : containers.

(** ** Unordered iteration

    Iterating over a [std::unordered_map] visits every entry once, in an order
    the standard leaves open: any permutation of [map_to_list]. *)

Definition is_iteration {K V} `{Countable K} (kvs : list (K * V)) (m : gmap K V) : Prop :=
  kvs ≡ₚ map_to_list m.

(** ** Strings *)

Definition chars (s : string) : list ascii := String.list_ascii_of_string s.
Definition of_chars (l : list ascii) : string := String.string_of_list_ascii l.

Lemma of_chars_chars s : of_chars (chars s) = s.
Proof. apply String.string_of_list_ascii_of_string. Qed.

Lemma chars_of_chars l : chars (of_chars l) = l.
Proof. apply String.list_ascii_of_string_of_list_ascii. Qed.

Lemma chars_app s t : chars (s +:+ t) = chars s ++ chars t.
Proof.
  induction s as [|c s IH]; [done|].
  change (String c s +:+ t) with (String c (s +:+ t)). cbn. by f_equal.
Qed.

Lemma chars_inj s t : chars s = chars t → s = t.
Proof. intros H. by rewrite <-(of_chars_chars s), H, of_chars_chars. Qed.

(** A separator that does not occur in the first part splits a string in one
    way only. *)
Lemma separator_unique (c : ascii) (a1 a2 b1 b2 : list ascii) :
  c ∉ a1 → c ∉ a2 → a1 ++ c :: b1 = a2 ++ c :: b2 → a1 = a2 ∧ b1 = b2.
Proof.
  revert a2. induction a1 as [|x a1 IH]; intros [|y a2] H1 H2 H; cbn in *; simplify_eq.
  - done.
  - set_solver.
  - set_solver.
  - destruct (IH a2) as [-> ->]; [set_solver..|done|done].
Qed.

(** ** Decimal rendering ([operator<<], [std::to_string], [fmt::format]) *)

Definition dec (z : Z) : string := pretty z.

Definition is_digit (c : ascii) : Prop := ∃ n, c = pretty_N_char n ∧ (n < 10)%N.

Lemma pretty_N_go_digits x s :
  Forall is_digit (chars s) → Forall is_digit (chars (pretty_N_go x s)).
Proof.
  revert s. induction (N.lt_wf_0 x) as [x _ IH]; intros s Hs.
  destruct (decide (x = 0%N)) as [->|Hx]; [done|].
  rewrite pretty_N_go_step by lia. apply IH; [apply N.div_lt; lia|].
  cbn. constructor; [|done]. eexists; split; [done|]. apply N.mod_lt. lia.
Qed.

Lemma dec_digits z : (0 ≤ z)%Z → Forall is_digit (chars (dec z)).
Proof.
  intros Hz. destruct z as [|p|p]; [| |lia].
  - repeat constructor. by exists 0%N.
  - change (dec (Zpos p)) with (pretty_N_go (Npos p) EmptyString).
    apply pretty_N_go_digits. constructor.
Qed.

Lemma digit_not_sep c : is_digit c → c ≠ "-"%char ∧ c ≠ "_"%char ∧ c ≠ "."%char ∧ c ≠ ":"%char.
Proof.
  intros (n & -> & Hn).
  assert (n ∈ [0; 1; 2; 3; 4; 5; 6; 7; 8; 9]%N) as H.
  { rewrite !elem_of_cons. lia. }
  repeat (apply elem_of_cons in H as [->|H]; [done|]). by apply elem_of_nil in H.
Qed.

(** A 64-bit number has at most 20 digits and a sign. *)
Lemma pretty_N_go_length k x s :
  (x < 10 ^ N.of_nat k)%N → length (chars (pretty_N_go x s)) ≤ k + length (chars s).
Proof.
  revert x s. induction k as [|k IH]; intros x s Hx.
  { assert (x = 0%N) as -> by (cbn in Hx; lia). rewrite pretty_N_go_0. lia. }
  destruct (decide (x = 0%N)) as [->|Hne]; [rewrite pretty_N_go_0; lia|].
  rewrite pretty_N_go_step by lia.
  assert (x `div` 10 < 10 ^ N.of_nat k)%N as Hk.
  { apply N.Div0.div_lt_upper_bound. by rewrite <-N.pow_succ_r', <-Nat2N.inj_succ. }
  specialize (IH _ (String (pretty_N_char (x `mod` 10)) s) Hk).
  change (length (chars (String (pretty_N_char (x `mod` 10)) s))) with (S (length (chars s))) in IH. lia.
Qed.

Lemma dec_length z : (- two63 ≤ z < two64)%Z → length (chars (dec z)) ≤ 21.
Proof.
  intros Hz. unfold dec, pretty, pretty_Z.
  assert (∀ n, (n < 10 ^ 20)%N → length (chars (pretty n)) ≤ 20) as Hn.
  { intros n Hn. unfold pretty, pretty_N. case_decide; [cbn; lia|]. apply (pretty_N_go_length 20 n EmptyString). done. }
  destruct z as [|p|p]; cbn [chars].
  - cbn. lia.
  - etrans; [apply (Hn (Npos p))|lia]. unfold two63, two64 in Hz. lia.
  - change (chars (String "-" (pretty (Npos p)))) with ("-"%char :: chars (pretty (Npos p))). cbn [length].
    apply le_n_S, (Hn (Npos p)). unfold two63, two64 in Hz. lia.
Qed.

Lemma dec_no_sep z :
  (0 ≤ z)%Z → ("-"%char ∉ chars (dec z)) ∧ ("_"%char ∉ chars (dec z)).
Proof.
  intros Hz. pose proof (dec_digits z Hz) as H. rewrite Forall_forall in H.
  split; intros Hc%H%digit_not_sep; naive_solver.
Qed.

Lemma dec_inj x y : dec x = dec y → x = y.
Proof. apply pretty_Z_inj. Qed.

(** Identifiers of the form [<prefix><ms><sep><n>] are determined by the
    counter [n]: this is why job and buffer identifiers are unique. *)
Lemma stamped_id_inj (pre : string) (sep : ascii) ms1 ms2 n1 n2 :
  sep = "-"%char ∨ sep = "_"%char → (0 ≤ ms1)%Z → (0 ≤ ms2)%Z →
  (pre +:+ dec ms1 +:+ String sep (dec n1)) = (pre +:+ dec ms2 +:+ String sep (dec n2)) →
  ms1 = ms2 ∧ n1 = n2.
Proof.
  intros Hsep H1 H2 H. apply (f_equal chars) in H. rewrite !chars_app in H.
  apply app_inv_head in H. cbn in H.
  apply separator_unique in H as [Ha Hb].
  - split; apply dec_inj; by apply chars_inj.
  - destruct Hsep as [->| ->]; by apply dec_no_sep.
  - destruct Hsep as [->| ->]; by apply dec_no_sep.
Qed.

(** ** Tactics *)

(** Case analysis on every [match] and [if] of the goal and the hypotheses,
    with the equations kept and contradictions closed. *)
Ltac split_cases :=
  repeat (first [progress simplify_eq/= | case_match | case_bool_decide]).

(** Take a step hypothesis apart. *)
Ltac inv_step H := inversion H; subst; clear H; simplify_eq/=.

(** Boolean checks of the model as propositions. *)
Ltac unbool :=
  repeat match goal with
  | H : bool_decide _ = true |- _ => apply bool_decide_eq_true in H
  | H : _ && _ = true |- _ => apply andb_prop in H as [? ?]
  end.
