(* ===== verification/Text.v ===== *)
(** * Text

    The parts of the C++ library for strings and numbers that several components
    use: [std::stoi], [find], [std::getline], [tolower] and reading words from a
    stream, on texts as lists of characters. *)

From S2P Require Import Prelude.
From Stdlib Require Import Lia.

(** ** Numbers *)

Definition digit_value (c : ascii) : option Z :=
  let n := Z.of_N (N_of_ascii c) in
  if bool_decide (48 ≤ n ≤ 57)%Z then Some (n - 48)%Z else None.

Definition is_space (c : ascii) : bool :=
  let n := N_of_ascii c in bool_decide (n = 32%N) || (bool_decide (9 ≤ n)%N && bool_decide (n ≤ 13)%N).

(** The longest run of digits. *)
Fixpoint digits (acc : Z) (l : list ascii) : Z :=
  match l with
  | [] => acc
  | c :: l => match digit_value c with Some d => digits (acc * 10 + d) l | None => acc end
  end.

Fixpoint skip_spaces (l : list ascii) : list ascii :=
  match l with [] => [] | c :: l' => if is_space c then skip_spaces l' else l end.

(** [std::stoi] and its kin: leading white space, a sign, at least one digit;
    what follows the digits is ignored. *)
Definition string_to_integer (fits : Z → bool) (name s : string) : res Z :=
  let l := skip_spaces (chars s) in
  let '(neg, l) := match l with
                   | c :: l' => if bool_decide (c = "-"%char) then (true, l')
                                else if bool_decide (c = "+"%char) then (false, l') else (false, l)
                   | [] => (false, [])
                   end in
  match l with
  | c :: _ =>
      match digit_value c with
      | Some _ =>
          let v := digits 0 l in
          let v := if neg : bool then (- v)%Z else v in
          if fits v then Ok v else Exn (name +:+ ": out of range")
      | None => Exn (name +:+ ": invalid argument")
      end
  | [] => Exn (name +:+ ": invalid argument")
  end.

Definition stoi : string → res Z := string_to_integer (λ v, bool_decide (is_i32 v)) "stoi".
Definition stoll : string → res Z := string_to_integer (λ v, bool_decide (is_i64 v)) "stoll".

(** ** Finding *)

(** [s.find(c)] and the parts before and after. *)
Fixpoint split_at (c : ascii) (l : list ascii) : option (list ascii * list ascii) :=
  match l with
  | [] => None
  | x :: l => if bool_decide (x = c) then Some ([], l)
              else '(a, b) ← split_at c l; Some (x :: a, b)
  end.

(** Whether [l] starts with [p]. *)
Fixpoint starts_with (p l : list ascii) : bool :=
  match p, l with
  | [], _ => true
  | x :: p, y :: l => bool_decide (x = y) && starts_with p l
  | _ :: _, [] => false
  end.

(** [l.find(p)] *)
Fixpoint find (p l : list ascii) : option nat :=
  if starts_with p l then Some 0
  else match l with [] => None | _ :: l => S <$> find p l end.

(** ** Lines and words *)

Definition LF : ascii := ascii_of_nat 10.
Definition CR : ascii := ascii_of_nat 13.

(** What [std::getline] gives until it fails: a last line without its newline
    counts, an empty rest does not. *)
Fixpoint lines_from (cur : list ascii) (l : list ascii) : list (list ascii) :=
  match l with
  | [] => match cur with [] => [] | _ => [cur] end
  | c :: l => if bool_decide (c = LF) then cur :: lines_from [] l else lines_from (cur ++ [c]) l
  end.
Definition getlines (l : list ascii) : list (list ascii) := lines_from [] l.

(** [if (!line.empty() && line.back() == '\r') line.pop_back();] *)
Definition strip_cr (line : list ascii) : list ascii :=
  if bool_decide (last line = Some CR) then removelast line else line.

(** [tolower] in the "C" locale. *)
Definition lower (c : ascii) : ascii :=
  let n := N_of_ascii c in if bool_decide (65 ≤ n)%N && bool_decide (n ≤ 90)%N then ascii_of_N (n + 32) else c.

(** [ss >> w]: skip white space, then take up to the next. *)
Fixpoint take_word (l : list ascii) : list ascii * list ascii :=
  match l with
  | [] => ([], [])
  | c :: l' => if is_space c then ([], l) else let '(w, r) := take_word l' in (c :: w, r)
  end.
Definition next_word (l : list ascii) : list ascii * list ascii := take_word (skip_spaces l).

(** ** Facts *)

Lemma digit_char n : (n < 10)%N →
  digit_value (pretty_N_char n) = Some (Z.of_N n) ∧ is_space (pretty_N_char n) = false ∧
  pretty_N_char n ≠ "-"%char ∧ pretty_N_char n ≠ "+"%char.
Proof.
  intros Hn. assert (n ∈ [0; 1; 2; 3; 4; 5; 6; 7; 8; 9]%N) as H by (rewrite !elem_of_cons; lia).
  repeat (apply elem_of_cons in H as [->|H]; [by vm_compute|]). by apply elem_of_nil in H.
Qed.

Lemma digits_pretty x s t :
  digits 0 (chars (pretty_N_go x s) ++ t) = digits (Z.of_N x) (chars s ++ t).
Proof.
  revert s. induction (N.lt_wf_0 x) as [x _ IH]; intros s.
  destruct (decide (x = 0%N)) as [->|Hx]; [done|].
  rewrite pretty_N_go_step by lia. rewrite IH by (apply N.div_lt; lia). cbn.
  destruct (digit_char (x `mod` 10)) as [-> _]; [apply N.mod_lt; lia|].
  f_equal. rewrite N2Z.inj_div, N2Z.inj_mod. pose proof (Z.div_mod (Z.of_N x) 10). lia.
Qed.

(** A text that does not go on with a digit. *)
Definition no_digit (t : list ascii) : Prop :=
  match t with [] => True | c :: _ => digit_value c = None end.

Lemma digits_dec n t : (0 ≤ n)%Z → no_digit t → digits 0 (chars (dec n) ++ t) = n.
Proof.
  intros Hn Ht. assert (∀ acc, digits acc t = acc) as Hstop.
  { intros acc. destruct t as [|c t]; cbn in *; [done|]. by rewrite Ht. }
  destruct n as [|p|p]; [|change (dec (Zpos p)) with (pretty_N_go (Npos p) EmptyString)|lia].
  - cbn. apply Hstop.
  - rewrite digits_pretty. apply Hstop.
Qed.

Lemma dec_nonempty n : (0 ≤ n)%Z → ∃ c l, chars (dec n) = c :: l ∧ is_digit c.
Proof.
  intros Hn. pose proof (dec_digits n Hn) as Hd.
  destruct (chars (dec n)) as [|c l] eqn:E; [|apply Forall_cons in Hd as [? _]; by eauto].
  exfalso. pose proof (digits_dec n [] Hn I) as Hz. rewrite E in Hz. cbn in Hz. by subst.
Qed.

Lemma stoi_spaces_dec sp n t :
  Forall (λ c, is_space c = true) sp → is_i32 n → (0 ≤ n)%Z → no_digit t →
  stoi (of_chars (sp ++ chars (dec n) ++ t)) = Ok n.
Proof.
  intros Hsp Hi Hn Ht. unfold stoi, string_to_integer. rewrite chars_of_chars. pose proof (digits_dec n t Hn Ht) as Hd.
  destruct (dec_nonempty n Hn) as (c & l & E & k & -> & Hk).
  destruct (digit_char k Hk) as (H1 & H2 & H3 & H4). rewrite E in *. cbn [app] in *.
  assert (skip_spaces (sp ++ pretty_N_char k :: l ++ t) = pretty_N_char k :: l ++ t) as ->.
  { induction Hsp as [|x sp Hx _ IH]; cbn; [by rewrite H2|by rewrite Hx]. }
  rewrite !bool_decide_eq_false_2 by done. rewrite H1, Hd. by rewrite bool_decide_eq_true_2.
Qed.

Lemma stoi_dec_app n t : is_i32 n → (0 ≤ n)%Z → no_digit (chars t) → stoi (dec n +:+ t) = Ok n.
Proof.
  intros Hi Hn Ht. rewrite <-(of_chars_chars (dec n +:+ t)), chars_app.
  by apply (stoi_spaces_dec []).
Qed.

Lemma stoi_dec n : is_i32 n → (0 ≤ n)%Z → stoi (dec n) = Ok n.
Proof.
  intros Hi Hn. rewrite <-(of_chars_chars (dec n)), <-(app_nil_r (chars (dec n))).
  by apply (stoi_spaces_dec []).
Qed.

Lemma split_at_app c a b : c ∉ a → split_at c (a ++ c :: b) = Some (a, b).
Proof.
  induction a as [|x a IH]; intros Hc; cbn; [by rewrite bool_decide_eq_true_2|].
  apply not_elem_of_cons in Hc as [Hx Hc]. rewrite bool_decide_eq_false_2 by congruence.
  by rewrite IH.
Qed.

Lemma split_at_none c a : c ∉ a → split_at c a = None.
Proof.
  induction a as [|x a IH]; intros Hc; cbn; [done|]. apply not_elem_of_cons in Hc as [Hx Hc].
  rewrite bool_decide_eq_false_2 by congruence. by rewrite IH.
Qed.
