(* ===== verification/Logger.v ===== *)
(** * The logger

    Model of [InstrumentLogger] (src/include/instrument-server/Logger.hpp), the
    log of the server and of each worker, and of [parse_log_level]
    (src/src/server/instrument_server_main.cpp).  The logging library spdlog and
    the formatting library fmt are parameters: the class [Spdlog] says what the
    header relies on.  [sp_console] and [sp_file] are the lines that reach the
    sinks once the library's thread has caught up (with the blocking overflow
    policy no message is dropped).  Every member function holds [mutex_], so the
    calls of several threads are one sequence. *)

From S2P Require Import Prelude Text.
From Stdlib Require Import Lia.

(** [spdlog::level::level_enum] *)
Inductive log_level := trace | debug | info | warn | err | critical | off.

Definition level_rank (l : log_level) : nat :=
  match l with trace => 0 | debug => 1 | info => 2 | warn => 3 | err => 4 | critical => 5 | off => 6 end.

#[export] Instance log_level_eq_dec : EqDecision log_level.
Proof. solve_decision. Defined.

(** [should_log] of a logger and of a sink at level [t]. *)
Definition passes (t l : log_level) : bool := bool_decide (level_rank t ≤ level_rank l).

Definition parse_log_level (level : string) : log_level :=
  if bool_decide (level = "debug") then debug
  else if bool_decide (level = "warn") then warn
  else if bool_decide (level = "error") then err
  else if bool_decide (level = "trace") then trace
  else info.

(** An [async_logger] with its two sinks. *)
Record AsyncLogger := mkAsyncLogger {
  lg_level : log_level;
  lg_console_level : log_level;
  lg_file : string;
  lg_file_level : log_level;
  lg_flush_on : log_level
}.

Definition lines_if (b : bool) (text : string) : list string := if b then [text] else [].

(** The library: its thread pool, file sinks and registry of names. *)
Class Spdlog (L : Type) := {
  sp_init_thread_pool : L → L * res unit;
  sp_rotating_file_sink : L → string → L * res unit;
  sp_get : L → string → bool;
  sp_register_logger : L → string → L * res unit;
  sp_drop : L → string → L;
  sp_shutdown : L → L;
  sp_log : L → AsyncLogger → log_level → string → L;
  sp_flush : L → AsyncLogger → L;
  sp_console : L → list string;
  sp_file : L → string → list string;
  sp_log_console s lg l text :
    sp_console (sp_log s lg l text) =
    sp_console s ++ lines_if (passes (lg_level lg) l && passes (lg_console_level lg) l) text;
  sp_log_file s lg l text f :
    sp_file (sp_log s lg l text) f =
    sp_file s f ++ lines_if (bool_decide (f = lg_file lg) &&
                             (passes (lg_level lg) l && passes (lg_file_level lg) l)) text;
  (** nothing else writes lines *)
  sp_quiet s s' :
    s' = (sp_init_thread_pool s).1 ∨ (∃ f, s' = (sp_rotating_file_sink s f).1) ∨
    (∃ n, s' = (sp_register_logger s n).1 ∨ s' = sp_drop s n) ∨ s' = sp_shutdown s ∨
    (∃ lg, s' = sp_flush s lg) →
    sp_console s' = sp_console s ∧ ∀ f, sp_file s' f = sp_file s f
}.

(** [fmt::format(fmt::runtime(fmt_str), args...)], which throws on a bad format
    string. *)
Class Fmt (A : Type) := { fmt_format : string → list A → res string }.

(** [logger_], the library and the error stream. *)
Record InstrumentLogger (L : Type) := mkInstrumentLogger {
  logger_ : option AsyncLogger;
  lib : L;
  std_err : list string
}.
Arguments mkInstrumentLogger {L}. Arguments logger_ {L}. Arguments lib {L}. Arguments std_err {L}.

Section Logger.
Context `{SP : Spdlog L} `{FM : Fmt A}.
Implicit Types (g : InstrumentLogger L).

Definition put_level (lg : AsyncLogger) (level : log_level) : AsyncLogger :=
  mkAsyncLogger level (lg_console_level lg) (lg_file lg) (lg_file_level lg) (lg_flush_on lg).

(** The handler of [init]. *)
Definition init_failed g (what : string) : InstrumentLogger L :=
  match find (chars "already exists") (chars what) with
  | Some _ => g
  | None => mkInstrumentLogger (logger_ g) (lib g)
              (std_err g ++ ["Log initialization failed: " +:+ what])
  end.

Definition init g (log_file : string) (level : log_level) : InstrumentLogger L :=
  match logger_ g with
  | Some lg => mkInstrumentLogger (Some (put_level lg level)) (lib g) (std_err g)
  | None =>
      match sp_init_thread_pool (lib g) with
      | (s, Ok _) =>
          match sp_rotating_file_sink s log_file with
          | (s, Ok _) =>
              let lg := mkAsyncLogger level info log_file trace warn in
              if sp_get s "instrument" then mkInstrumentLogger (Some lg) s (std_err g)
              else
                match sp_register_logger s "instrument" with
                | (s, Exn e) => init_failed (mkInstrumentLogger (Some lg) s (std_err g)) e
                | (s, _) => mkInstrumentLogger (Some lg) s (std_err g)
                end
          | (s, Exn e) => init_failed (mkInstrumentLogger None s (std_err g)) e
          | (s, Undef) => mkInstrumentLogger None s (std_err g)
          end
      | (s, Exn e) => init_failed (mkInstrumentLogger None s (std_err g)) e
      | (s, Undef) => mkInstrumentLogger None s (std_err g)
      end
  end.

Definition shutdown g : InstrumentLogger L :=
  let s := match logger_ g with Some lg => sp_flush (lib g) lg | None => lib g end in
  mkInstrumentLogger None (sp_shutdown (sp_drop s "instrument")) (std_err g).

(** The message is formatted before the level is looked at. *)
Definition log g (level : log_level) (instr_name instr_id fmt_str : string) (args : list A)
  : InstrumentLogger L :=
  match logger_ g with
  | None => g
  | Some lg =>
      let s := match fmt_format fmt_str args with
               | Ok text => sp_log (lib g) lg level ("[" +:+ instr_name +:+ "] [" +:+ instr_id +:+ "] " +:+ text)
               | Exn e => sp_log (lib g) lg err ("[LOGGER] [ERROR] Format failed: " +:+ e)
               | Undef => lib g
               end in
      mkInstrumentLogger (logger_ g) s (std_err g)
  end.

Definition log_trace g := log g trace.
Definition log_debug g := log g debug.
Definition log_info g := log g info.
Definition log_warn g := log g warn.
Definition log_error g := log g err.

(** ** Sequences of calls *)

Inductive log_call :=
| Init (log_file : string) (level : log_level)
| Shutdown
| Log (level : log_level) (instr_name instr_id fmt_str : string) (args : list A).

Definition do_call g (c : log_call) : InstrumentLogger L :=
  match c with
  | Init f l => init g f l
  | Shutdown => shutdown g
  | Log l name id fmt args => log g l name id fmt args
  end.

(** What a reader of the header expects: the file of the first [init] and the
    level of the last one are in force until [shutdown]. *)
Definition in_force (o : option (string * log_level)) (c : log_call) : option (string * log_level) :=
  match c with
  | Init f l => Some (default f (fst <$> o), l)
  | Shutdown => None
  | Log _ _ _ _ _ => o
  end.

(** The line of a call and the level it counts as: a message whose format string
    is bad is an error, whatever its level. *)
Definition line_of (c : log_call) : option (log_level * string) :=
  match c with
  | Log l name id fmt args =>
      match fmt_format fmt args with
      | Ok text => Some (l, "[" +:+ name +:+ "] [" +:+ id +:+ "] " +:+ text)
      | Exn e => Some (err, "[LOGGER] [ERROR] Format failed: " +:+ e)
      | Undef => None
      end
  | _ => None
  end.

(** The lines of a sequence of calls that a sink with threshold [sink] takes. *)
Fixpoint expected (sink : string → log_level → bool) (o : option (string * log_level)) (cs : list log_call)
  : list string :=
  match cs with
  | [] => []
  | c :: cs =>
      match o, line_of c with
      | Some (f, t), Some (l, text) => lines_if (passes t l && sink f l) text
      | _, _ => []
      end ++ expected sink (in_force o c) cs
  end.

Definition state_of g : option (string * log_level) := (λ lg, (lg_file lg, lg_level lg)) <$> logger_ g.

(** Loggers made by [init]. *)
Definition well_made g : Prop :=
  match logger_ g with Some lg => lg_console_level lg = info ∧ lg_file_level lg = trace | None => True end.

(** The library grants its thread and the files. *)
Definition grants : Prop :=
  (∀ s, ∃ s', sp_init_thread_pool s = (s', Ok ())) ∧
  ∀ s f, ∃ s', sp_rotating_file_sink s f = (s', Ok ()).

(** Same lines in all sinks. *)
Definition same_lines (s s' : L) : Prop :=
  sp_console s' = sp_console s ∧ ∀ f, sp_file s' f = sp_file s f.

#[local] Instance same_lines_preorder : PreOrder same_lines.
Proof.
  split; [done|]. intros s1 s2 s3 [H1 H2] [H3 H4]. split; [congruence|]. intros f. by rewrite H4.
Qed.

Lemma init_lines g f l : same_lines (lib g) (lib (init g f l)).
Proof.
  unfold init, init_failed. destruct (logger_ g); [done|].
  pose proof (sp_quiet (lib g) _ (or_introl eq_refl)) as H1.
  destruct (sp_init_thread_pool (lib g)) as [s1 r1]. cbn [fst] in H1. fold (same_lines (lib g) s1) in H1.
  assert (same_lines s1 (sp_rotating_file_sink s1 f).1) as H2.
  { apply sp_quiet. right. left. by exists f. }
  destruct (sp_rotating_file_sink s1 f) as [s2 r2]. cbn [fst] in H2.
  assert (same_lines s2 (sp_register_logger s2 "instrument").1) as H3.
  { apply sp_quiet. do 2 right. left. eexists. by left. }
  destruct (sp_register_logger s2 "instrument") as [s3 r3]. cbn [fst] in H3.
  destruct r1, r2, r3, (sp_get s2 "instrument"); repeat case_match; cbn; simplify_eq/=;
    try done; (etrans; [exact H1|]); (exact H2 || by etrans).
Qed.

Lemma shutdown_lines g : same_lines (lib g) (lib (shutdown g)).
Proof.
  unfold shutdown. cbn [lib].
  assert (same_lines (lib g) (match logger_ g with Some lg => sp_flush (lib g) lg | None => lib g end)) as H.
  { destruct (logger_ g) as [lg|]; [|done]. apply sp_quiet. do 4 right. by exists lg. }
  etrans; [exact H|]. etrans; apply sp_quiet; [do 2 right; left; eexists; by right|by do 3 right; left].
Qed.

Lemma init_granted g f l :
  grants → ∃ s e, init g f l = mkInstrumentLogger
    (Some (match logger_ g with Some lg => put_level lg l | None => mkAsyncLogger l info f trace warn end)) s e.
Proof.
  intros [Hp Hf]. unfold init, init_failed. destruct (logger_ g); [by do 2 eexists|].
  destruct (Hp (lib g)) as [s1 ->]. destruct (Hf s1 f) as [s2 ->].
  destruct (sp_get s2 _); [by do 2 eexists|].
  destruct (sp_register_logger s2 _) as [s3 [| |]]; [by do 2 eexists| |by do 2 eexists].
  case_match; by do 2 eexists.
Qed.

Definition file_sink (f : string) : string → log_level → bool := λ f' _, bool_decide (f = f').
Definition console_sink : string → log_level → bool := λ _ l, passes info l.

(** The lines a single call adds. *)
Definition added (sink : string → log_level → bool) (o : option (string * log_level)) (c : log_call) : list string :=
  match o, line_of c with
  | Some (f, t), Some (l, text) => lines_if (passes t l && sink f l) text
  | _, _ => []
  end.

Lemma log_lines g c :
  well_made g → (∀ f l, c ≠ Init f l) → c ≠ Shutdown →
  sp_console (lib (do_call g c)) = sp_console (lib g) ++ added console_sink (state_of g) c ∧
  ∀ f, sp_file (lib (do_call g c)) f = sp_file (lib g) f ++ added (file_sink f) (state_of g) c.
Proof.
  intros Hw Hi Hs. destruct c as [f l| |l name id fmt args]; [by destruct (Hi f l)|done|].
  unfold well_made in Hw. cbn. unfold log, added, state_of. cbn.
  destruct (logger_ g) as [lg|]; cbn; [|by rewrite app_nil_r; split; [|intros f; rewrite app_nil_r]].
  destruct Hw as [Hc Hf].
  assert (∀ l, passes trace l = true) as Htrace by (intros l'; unfold passes; apply bool_decide_eq_true_2; cbn; lia).
  destruct (fmt_format fmt args) as [text|e|]; cbn;
    try (rewrite sp_log_console, Hc; split; [done|]; intros f; rewrite sp_log_file, Hf, Htrace;
         unfold file_sink; by rewrite andb_true_r, andb_comm).
  rewrite app_nil_r. split; [done|]. intros f. by rewrite app_nil_r.
Qed.

Lemma do_call_spec g c :
  grants → well_made g →
  well_made (do_call g c) ∧ state_of (do_call g c) = in_force (state_of g) c ∧
  sp_console (lib (do_call g c)) = sp_console (lib g) ++ added console_sink (state_of g) c ∧
  ∀ f, sp_file (lib (do_call g c)) f = sp_file (lib g) f ++ added (file_sink f) (state_of g) c.
Proof.
  intros Hg Hw. destruct c as [f l| |l name id fmt args].
  - destruct (init_lines g f l) as [H1 H2]. destruct (init_granted g f l Hg) as (s & e & E).
    assert (∀ sink, added sink (state_of g) (Init f l) = []) as Hn.
    { intros sink. unfold added. by destruct (state_of g) as [[]|]. }
    rewrite Hn. setoid_rewrite Hn. rewrite app_nil_r. split_and!; [| |done|].
    + unfold well_made in *. cbn [do_call]. rewrite E. cbn. by destruct (logger_ g).
    + unfold state_of. cbn [do_call]. rewrite E. cbn. by destruct (logger_ g).
    + intros f'. rewrite app_nil_r. apply H2.
  - destruct (shutdown_lines g) as [H1 H2].
    assert (∀ sink, added sink (state_of g) Shutdown = []) as Hn.
    { intros sink. unfold added. by destruct (state_of g) as [[]|]. }
    rewrite Hn. setoid_rewrite Hn. rewrite app_nil_r. split_and!; [done|done|done|].
    intros f'. rewrite app_nil_r. apply H2.
  - destruct (log_lines g (Log l name id fmt args) Hw) as [H1 H2]; [done|done|].
    split_and!; [| |done|done]; unfold well_made, state_of, in_force in *; cbn; unfold log;
      destruct (logger_ g) as [lg|] eqn:E; cbn; by rewrite ?E.
Qed.

(** ** Properties *)

(** The log holds what it should: for every sequence of calls on a library
    that grants threads and files, the console and each file get exactly the
    lines of the messages logged between [init] and [shutdown] at or above the
    level in force at that moment, in order, the console only those from [info]
    up; a message whose format string is bad becomes one error line instead,
    even if its own level is switched off. *)
Theorem log_sinks_exact g cs :
  grants → well_made g →
  sp_console (lib (foldl do_call g cs)) = sp_console (lib g) ++ expected console_sink (state_of g) cs ∧
  ∀ f, sp_file (lib (foldl do_call g cs)) f = sp_file (lib g) f ++ expected (file_sink f) (state_of g) cs.
Proof.
  intros Hg. revert g. induction cs as [|c cs IH]; intros g Hw; cbn [foldl expected].
  { rewrite app_nil_r. split; [done|]. intros f. by rewrite app_nil_r. }
  destruct (do_call_spec g c Hg Hw) as (Hw' & Hst & H1 & H2). destruct (IH _ Hw') as [H3 H4].
  rewrite Hst in H3, H4. rewrite H3, H1, <-app_assoc. split; [done|].
  intros f. by rewrite H4, H2, <-app_assoc.
Qed.

(** A library that does not open the file leaves the logger off: messages are
    dropped until a later [init] succeeds. *)
Lemma init_refused g f l s s' e :
  logger_ g = None → sp_init_thread_pool (lib g) = (s, Ok ()) →
  sp_rotating_file_sink s f = (s', Exn e) →
  logger_ (init g f l) = None ∧
  ∀ level name id fmt args, log (init g f l) level name id fmt args = init g f l.
Proof.
  intros Hn Hp Hf. unfold init, init_failed, log. rewrite Hn, Hp, Hf.
  destruct (find _ _); done.
Qed.

End Logger.

(** ** A concrete library: lines in memory *)

Module MemoryLog.

Record memlog := mkMemlog { ml_console : list string; ml_files : list (string * string) }.

Definition file_lines (m : memlog) (f : string) : list string :=
  snd <$> filter (λ kv, kv.1 = f) (ml_files m).

Definition mem_log (m : memlog) (lg : AsyncLogger) (l : log_level) (text : string) : memlog :=
  mkMemlog (ml_console m ++ lines_if (passes (lg_level lg) l && passes (lg_console_level lg) l) text)
    (ml_files m ++ if passes (lg_level lg) l && passes (lg_file_level lg) l then [(lg_file lg, text)] else []).

#[refine, export] Instance memory_spdlog : Spdlog memlog := {|
  sp_init_thread_pool m := (m, Ok ());
  sp_rotating_file_sink m _ := (m, Ok ());
  sp_get _ _ := false;
  sp_register_logger m _ := (m, Ok ());
  sp_drop m _ := m;
  sp_shutdown m := m;
  sp_log := mem_log;
  sp_flush m _ := m;
  sp_console := ml_console;
  sp_file := file_lines
|}.
Proof.
  - done.
  - intros s lg l text f. unfold file_lines. cbn. rewrite filter_app, fmap_app. f_equal.
    destruct (passes (lg_level lg) l && passes (lg_file_level lg) l); [|by rewrite andb_false_r].
    rewrite andb_true_r, filter_cons. cbn [fst]. case_bool_decide; subst; [by rewrite decide_True|].
    by rewrite decide_False by congruence.
  - intros s s' H. assert (s' = s) as -> by naive_solver. done.
Defined.

(** A format string is bad if it has a brace; arguments are ignored. *)
#[export] Instance plain_fmt : Fmt string := {|
  fmt_format f _ := if bool_decide ("{"%char ∈ chars f) then Exn "argument not found" else Ok f
|}.

Definition start : InstrumentLogger memlog := mkInstrumentLogger None (mkMemlog [] []) [].

Definition calls : list (log_call (A := string)) :=
  [Log err "DAC1" "1" "lost" []; Init "a.log" warn; Log info "DAC1" "2" "quiet" [];
   Log debug "DAC1" "3" "{" []; Init "b.log" debug; Log debug "DAC1" "4" "now" []; Shutdown;
   Log err "DAC1" "5" "lost" []].

Lemma log_sinks_exact_witness :
  sp_file (lib (foldl do_call start calls)) "a.log" =
    ["[LOGGER] [ERROR] Format failed: argument not found"; "[DAC1] [4] now"] ∧
  sp_console (lib (foldl do_call start calls)) = ["[LOGGER] [ERROR] Format failed: argument not found"].
Proof.
  destruct (log_sinks_exact start calls) as [H1 H2].
  - split; intros; eexists; reflexivity.
  - exact I.
  - rewrite H1, (H2 "a.log"). split; reflexivity.
Defined.

End MemoryLog.
