(* ===== verification/SyncCoordinator.v ===== *)
(** * Synchronisation barriers

    Model of [SyncCoordinator] (src/src/server/SyncCoordinator.cpp): barriers
    keyed by sync token, each with the instruments it waits for and the ones
    that acknowledged.  Every public method takes the coordinator's mutex for
    its whole body, so each is one atomic state transformer.

    [Latch] is the abstract contract: a set of instruments still missing per
    token.  The coordinator refines it. *)

From S2P Require Import Prelude.

(** [struct SyncBarrier] *)
Record SyncBarrier := mkSyncBarrier {
  expected_instruments : gset string;
  acked_instruments : gset string;
  created_at : Z
}.

(** [barriers_], the coordinator's only state. *)
Record SyncCoordinator := mkSyncCoordinator {
  barriers_ : gmap Z SyncBarrier
}.

#[export] Instance SyncBarrier_eq_dec : EqDecision SyncBarrier.
Proof. solve_decision. Defined.

Definition init_coordinator : SyncCoordinator := mkSyncCoordinator ∅.

Section Operations.
Implicit Types (c : SyncCoordinator) (sync_token : Z).

(** Assigning to [barriers_[sync_token]] replaces a barrier that is there. *)
Definition register_barrier (now : Z) c sync_token (instruments : list string)
  : SyncCoordinator :=
  let barrier := mkSyncBarrier (list_to_set instruments) ∅ now in
  mkSyncCoordinator (<[sync_token := barrier]> (barriers_ c)).

Definition handle_ack c sync_token (instrument_name : string)
  : SyncCoordinator * bool :=
  match barriers_ c !! sync_token with
  | None => (c, false)
  | Some barrier =>
      if negb (bool_decide (instrument_name ∈ expected_instruments barrier)) then (c, false)
      else
        let barrier' := mkSyncBarrier (expected_instruments barrier)
                          ({[instrument_name]} ∪ acked_instruments barrier)
                          (created_at barrier) in
        let complete :=
          bool_decide (acked_instruments barrier' = expected_instruments barrier') in
        if complete
        then (mkSyncCoordinator (delete sync_token (barriers_ c)), true)
        else (mkSyncCoordinator (<[sync_token := barrier']> (barriers_ c)), false)
  end.

(** The loop visits [expected_instruments], a [std::set], in order. *)
Definition get_waiting_instruments c sync_token : list string :=
  match barriers_ c !! sync_token with
  | None => []
  | Some barrier =>
      filter (λ inst, inst ∉ acked_instruments barrier)
        (sorted_elements (expected_instruments barrier))
  end.

Definition has_barrier c sync_token : bool :=
  bool_decide (is_Some (barriers_ c !! sync_token)).

Definition clear_barrier c sync_token : SyncCoordinator :=
  mkSyncCoordinator (delete sync_token (barriers_ c)).

Definition active_barrier_count c : nat := size (barriers_ c).
End Operations.

(** ** The contract: a latch per token *)

Module Latch.
(** Per token, the instruments whose acknowledgement is still missing. *)
Abbreviation state := (gmap Z (gset string)).

Definition register (s : state) (t : Z) (l : list string) : state :=
  <[t := list_to_set l]> s.

(** An acknowledgement counts once, from a missing instrument; the one that
    empties the latch reports completion and removes it. *)
Definition ack (s : state) (t : Z) (i : string) : state * bool :=
  match s !! t with
  | Some M =>
      if bool_decide (i ∈ M) then
        if bool_decide (M ∖ {[i]} = ∅) then (delete t s, true)
        else (<[t := M ∖ {[i]}]> s, false)
      else (s, false)
  | None => (s, false)
  end.

Definition clear (s : state) (t : Z) : state := delete t s.
End Latch.

(** Calls on a coordinator, and what they answer. *)
Inductive sync_call :=
| CRegister (now t : Z) (l : list string)
| CAck (t : Z) (i : string)
| CClear (t : Z).

Definition call_step (c : SyncCoordinator) (x : sync_call) : SyncCoordinator * bool :=
  match x with
  | CRegister now t l => (register_barrier now c t l, false)
  | CAck t i => handle_ack c t i
  | CClear t => (clear_barrier c t, false)
  end.

Definition latch_step (s : Latch.state) (x : sync_call) : Latch.state * bool :=
  match x with
  | CRegister _ t l => (Latch.register s t l, false)
  | CAck t i => Latch.ack s t i
  | CClear t => (Latch.clear s t, false)
  end.

Fixpoint run {S} (step : S → sync_call → S * bool) (s : S) (xs : list sync_call)
  : S * list bool :=
  match xs with
  | [] => (s, [])
  | x :: xs => let '(s', b) := step s x in
               let '(s'', bs) := run step s' xs in (s'', b :: bs)
  end.

(** ** Invariant *)

Definition missing (b : SyncBarrier) : gset string :=
  expected_instruments b ∖ acked_instruments b.

(** Only expected instruments are recorded, and a barrier that is still there
    is not complete (unless it never expected anyone). *)
Definition wf_barrier (b : SyncBarrier) : Prop :=
  acked_instruments b ⊆ expected_instruments b ∧
  (acked_instruments b = expected_instruments b → expected_instruments b = ∅).

Definition wf_coordinator (c : SyncCoordinator) : Prop :=
  map_Forall (λ _ b, wf_barrier b) (barriers_ c).

Definition abs (c : SyncCoordinator) : Latch.state := missing <$> barriers_ c.

Lemma wf_init : wf_coordinator init_coordinator.
Proof. apply map_Forall_empty. Qed.

Lemma wf_register now c t l :
  wf_coordinator c → wf_coordinator (register_barrier now c t l).
Proof.
  intros Hc. apply map_Forall_insert_2; [|done]. split; cbn; [set_solver|].
  intros H. by rewrite <-H.
Qed.

Lemma wf_clear c t : wf_coordinator c → wf_coordinator (clear_barrier c t).
Proof. intros Hc. by apply map_Forall_delete. Qed.

Lemma wf_handle_ack c t i : wf_coordinator c → wf_coordinator (handle_ack c t i).1.
Proof.
  intros Hc. unfold handle_ack. case_match eqn:Hb; [|done].
  destruct (Hc _ _ Hb) as [Hsub _]. repeat case_bool_decide; try done; cbn.
  - by apply map_Forall_delete.
  - apply map_Forall_insert_2; [|done]. split; cbn; [set_solver|]. intros H'. by destruct H0.
Qed.

Lemma wf_call_step c x : wf_coordinator c → wf_coordinator (call_step c x).1.
Proof.
  destruct x; cbn; auto using wf_register, wf_handle_ack, wf_clear.
Qed.

(** ** Refinement *)

(** One acknowledgement: on a well-formed barrier the test
    [acked_instruments == expected_instruments] says that nobody is missing. *)
Lemma ack_complete_iff E A i :
  A ⊆ E → i ∈ E → {[i]} ∪ A = E ↔ (E ∖ A) ∖ {[i]} = (∅ : gset string).
Proof.
  intros HA Hi. split; [set_solver|]. intros H. apply set_eq. intros x.
  destruct (decide (x = i)) as [->|Hx]; [set_solver|].
  destruct (decide (x ∈ A)); [set_solver|]. set_solver.
Qed.

Lemma handle_ack_refines c t i :
  wf_coordinator c →
  abs (handle_ack c t i).1 = (Latch.ack (abs c) t i).1 ∧
  (handle_ack c t i).2 = (Latch.ack (abs c) t i).2.
Proof.
  intros Hc. unfold handle_ack, Latch.ack, abs. rewrite lookup_fmap.
  destruct (barriers_ c !! t) as [[E A n]|] eqn:Hb; cbn; [|done].
  destruct (Hc _ _ Hb) as [Hsub Hopen]; cbn in *.
  assert (missing (mkSyncBarrier E A n) = E ∖ A) as -> by done.
  case_bool_decide as Hi; cbn.
  2: { rewrite bool_decide_eq_false_2 by set_solver. done. }
  pose proof (ack_complete_iff E A i Hsub Hi) as Hiff.
  destruct (decide (i ∈ A)) as [HiA|HiA].
  - (* a repeated acknowledgement changes nothing *)
    rewrite (bool_decide_eq_false_2 (i ∈ E ∖ A)) by set_solver.
    assert ({[i]} ∪ A = A) as -> by set_solver.
    rewrite bool_decide_eq_false_2 by set_solver. cbn. by rewrite insert_id.
  - rewrite (bool_decide_eq_true_2 (i ∈ E ∖ A)) by set_solver.
    case_bool_decide as Hcomp; cbn.
    + rewrite bool_decide_eq_true_2 by tauto. cbn. by rewrite fmap_delete.
    + rewrite bool_decide_eq_false_2 by tauto. cbn. rewrite fmap_insert. split; [|done].
      f_equal. unfold missing; cbn. set_solver.
Qed.

Lemma call_step_refines c x :
  wf_coordinator c →
  abs (call_step c x).1 = (latch_step (abs c) x).1 ∧
  (call_step c x).2 = (latch_step (abs c) x).2.
Proof.
  intros Hc. destruct x as [now t l|t i|t]; cbn.
  - split; [|done]. unfold abs, register_barrier; cbn. rewrite fmap_insert.
    unfold Latch.register. f_equal. unfold missing; cbn. set_solver.
  - by apply handle_ack_refines.
  - split; [|done]. unfold abs, clear_barrier; cbn. by rewrite fmap_delete.
Qed.

Lemma run_refines_from c xs :
  wf_coordinator c →
  abs (run call_step c xs).1 = (run latch_step (abs c) xs).1 ∧
  (run call_step c xs).2 = (run latch_step (abs c) xs).2.
Proof.
  revert c. induction xs as [|x xs IH]; intros c Hc; cbn; [done|].
  pose proof (call_step_refines c x Hc) as [Hs Hb].
  pose proof (wf_call_step c x Hc) as Hc'.
  destruct (call_step c x) as [c' b], (latch_step (abs c) x) as [s' b']; cbn in *; subst.
  specialize (IH c' Hc') as [IH1 IH2].
  destruct (run call_step c' xs), (run latch_step (abs c') xs); cbn in *. by subst.
Qed.

(** ** Life of one barrier among other traffic *)

Definition acks_of (t : Z) (xs : list sync_call) : gset string :=
  list_to_set (omap (λ x, match x with
                          | CAck t' i => if bool_decide (t' = t) then Some i else None
                          | _ => None
                          end) xs).

(** How often an acknowledgement of [t] was answered with [true]. *)
Fixpoint completions (t : Z) (xs : list sync_call) (bs : list bool) : nat :=
  match xs, bs with
  | CAck t' _ :: xs, b :: bs =>
      (if bool_decide (t' = t) && b then 1 else 0) + completions t xs bs
  | _ :: xs, _ :: bs => completions t xs bs
  | _, _ => 0
  end.

(** Calls that neither re-register nor clear [t]. *)
Definition leaves_alone (t : Z) (x : sync_call) : Prop :=
  match x with
  | CRegister _ t' _ => t' ≠ t
  | CAck _ _ => True
  | CClear t' => t' ≠ t
  end.

#[export] Instance leaves_alone_dec t x : Decision (leaves_alone t x).
Proof. destruct x; apply _. Defined.

#[export] Instance ack_of_dec t x : Decision (∃ i, x = CAck t i).
Proof.
  destruct x as [| t' i|]; [right; naive_solver| |right; naive_solver].
  destruct (decide (t' = t)) as [->|Hne]; [left; by exists i|right; naive_solver].
Defined.

Lemma acks_of_cons t x xs :
  acks_of t (x :: xs) =
    match x with
    | CAck t' i => if bool_decide (t' = t) then {[i]} ∪ acks_of t xs else acks_of t xs
    | _ => acks_of t xs
    end.
Proof. unfold acks_of. destruct x; cbn; try done. case_bool_decide; done. Qed.

(** A call that is about other tokens leaves the latch of [t] as it is. *)
Lemma latch_step_other s t x :
  leaves_alone t x → (∀ i, x ≠ CAck t i) → (latch_step s x).1 !! t = s !! t.
Proof.
  intros Hx Hne. destruct x as [n t' l|t' i|t']; cbn in *.
  - by apply lookup_insert_ne.
  - assert (t' ≠ t) by naive_solver.
    unfold Latch.ack. repeat case_match; cbn; try done.
    + by apply lookup_delete_ne.
    + by apply lookup_insert_ne.
  - by apply lookup_delete_ne.
Qed.

Lemma completions_other t x xs b bs :
  (∀ i, x ≠ CAck t i) → completions t (x :: xs) (b :: bs) = completions t xs bs.
Proof.
  destruct x as [| t' i|]; cbn; try done. intros H.
  rewrite bool_decide_eq_false_2 by naive_solver. done.
Qed.

Lemma latch_gone s t xs :
  Forall (leaves_alone t) xs → s !! t = None →
  completions t xs (run latch_step s xs).2 = 0 ∧ (run latch_step s xs).1 !! t = None.
Proof.
  revert s. induction xs as [|x xs IH]; intros s Hxs Hs; [done|].
  apply Forall_cons in Hxs as [Hx Hxs]. cbn.
  assert ((latch_step s x).1 !! t = None ∧ ∀ i, x = CAck t i → (latch_step s x).2 = false) as [Hs' Hb].
  { destruct (decide (∃ i, x = CAck t i)) as [[i ->]|Hne].
    - cbn. unfold Latch.ack. rewrite Hs. done.
    - split; [rewrite latch_step_other; naive_solver|naive_solver]. }
  destruct (latch_step s x) as [s' b] eqn:E; cbn in *. destruct (IH s' Hxs Hs') as [IH1 IH2].
  destruct (run latch_step s' xs) as [s'' bs]; cbn in *. split; [|done].
  destruct x; cbn; rewrite ?IH1; try done. case_bool_decide; cbn; [|done].
  subst. rewrite (Hb i) by done. done.
Qed.

Lemma latch_life s t M xs :
  M ≠ ∅ → Forall (leaves_alone t) xs → s !! t = Some M →
  completions t xs (run latch_step s xs).2 = (if bool_decide (M ⊆ acks_of t xs) then 1 else 0) ∧
  ((run latch_step s xs).1 !! t = if bool_decide (M ⊆ acks_of t xs) then None
                                  else Some (M ∖ acks_of t xs)).
Proof.
  revert s M. induction xs as [|x xs IH]; intros s M HM Hxs Hs.
  { cbn. rewrite bool_decide_eq_false_2 by set_solver. split; [done|]. rewrite Hs.
    f_equal. set_solver. }
  apply Forall_cons in Hxs as [Hx Hxs].
  destruct (decide (∃ i, x = CAck t i)) as [[i ->]|Hne].
  - rewrite acks_of_cons, (bool_decide_eq_true_2 (t = t)) by done. cbn [run latch_step].
    unfold Latch.ack. rewrite Hs.
    destruct (decide (i ∈ M)) as [Hi|Hi];
      [rewrite (bool_decide_eq_true_2 (i ∈ M)) by done
      |rewrite (bool_decide_eq_false_2 (i ∈ M)) by done].
    + case_bool_decide as Hlast.
      * (* the last missing instrument *)
        destruct (latch_gone (delete t s) t xs) as [H1 H2]; [done|apply lookup_delete_eq|].
        destruct (run latch_step (delete t s) xs) as [s'' bs]; cbn in *.
        rewrite (bool_decide_eq_true_2 (t = t)) by done.
        assert (M ⊆ {[i]} ∪ acks_of t xs) by (apply difference_singleton_subset; set_solver).
        rewrite !(bool_decide_eq_true_2 (M ⊆ _)) by done. cbn. by rewrite H1.
      * destruct (IH (<[t:=M ∖ {[i]}]> s) (M ∖ {[i]})) as [H1 H2];
          [done|done|apply lookup_insert_eq|].
        destruct (run latch_step _ xs) as [s'' bs]; cbn in *.
        rewrite (bool_decide_eq_true_2 (t = t)) by done. cbn. rewrite H1, H2.
        pose proof (difference_singleton_subset M (acks_of t xs) i) as Hiff.
        repeat case_bool_decide; try tauto. split; [done|]. f_equal. set_solver.
    + destruct (IH s M) as [H1 H2]; [done..|].
      destruct (run latch_step s xs) as [s'' bs]; cbn in *.
      rewrite (bool_decide_eq_true_2 (t = t)) by done. cbn. rewrite H1, H2.
      assert (M ⊆ {[i]} ∪ acks_of t xs ↔ M ⊆ acks_of t xs) by set_solver.
      repeat case_bool_decide; try tauto. split; [done|]. f_equal. set_solver.
  - assert (acks_of t (x :: xs) = acks_of t xs) as ->.
    { rewrite acks_of_cons. destruct x as [| t' i |]; try done.
      rewrite bool_decide_eq_false_2 by naive_solver. done. }
    cbn [run]. pose proof (latch_step_other s t x Hx ltac:(naive_solver)) as Hs'.
    destruct (latch_step s x) as [s' b]; cbn [fst snd] in *.
    destruct (IH s' M) as [H1 H2]; [done|done|congruence|].
    destruct (run latch_step s' xs) as [s'' bs]; cbn [fst snd] in *.
    rewrite completions_other by naive_solver. done.
Qed.

(** ** Properties *)

(** C5. The coordinator implements the latch: on every sequence of
    [register_barrier], [handle_ack] and [clear_barrier] calls it gives the
    answers of the abstract latch, in which an acknowledgement counts once and
    only from an expected instrument, and afterwards it holds exactly the
    latch's missing instruments. *)
Theorem sync_refines_latch (xs : list sync_call) :
  (run call_step init_coordinator xs).2 = (run latch_step ∅ xs).2 ∧
  abs (run call_step init_coordinator xs).1 = (run latch_step ∅ xs).1.
Proof.
  destruct (run_refines_from init_coordinator xs wf_init) as [H1 H2].
  unfold abs at 2 in H1. unfold abs at 1 in H2. cbn in *.
  rewrite fmap_empty in H1, H2. done.
Qed.

(** C6. A barrier registered for a non-empty list of instruments is reported
    complete exactly once if all of them acknowledge, and never otherwise,
    whatever happens on other tokens in between; it stays registered exactly
    until then. *)
Theorem barrier_completes_once now c t l xs :
  wf_coordinator c → l ≠ [] → Forall (leaves_alone t) xs →
  let r := run call_step (register_barrier now c t l) xs in
  let all_acked := bool_decide (list_to_set l ⊆ acks_of t xs) in
  completions t xs r.2 = (if all_acked then 1 else 0) ∧
  has_barrier r.1 t = negb all_acked.
Proof.
  intros Hc Hl Hxs r all_acked.
  destruct (run_refines_from _ xs (wf_register now c t l Hc)) as [H1 H2].
  assert (abs (register_barrier now c t l) !! t = Some (list_to_set l)) as Ht.
  { unfold abs, register_barrier; cbn. rewrite lookup_fmap, lookup_insert_eq; cbn.
    unfold missing; cbn. f_equal. set_solver. }
  assert (list_to_set l ≠ (∅ : gset string)) as Hne.
  { destruct l as [|a l]; [done|]. set_solver. }
  destruct (latch_life _ t _ xs Hne Hxs Ht) as [H3 H4].
  split; [unfold r; by rewrite H2, H3|].
  rewrite <-H1 in H4. unfold abs in H4. rewrite lookup_fmap in H4. unfold has_barrier, r.
  fold all_acked in H4. destruct all_acked; cbn.
  - apply fmap_None in H4. rewrite H4. done.
  - apply fmap_Some in H4 as (b & -> & _). done.
Qed.

Lemma barrier_completes_once_witness :
  let r := run call_step (register_barrier 0 init_coordinator 7 ["A"; "B"])
             [CAck 7 "A"; CAck 9 "B"; CAck 7 "A"; CRegister 1 8 ["C"]; CAck 7 "B"] in
  r.2 = [false; false; false; false; true] ∧ has_barrier r.1 7 = false.
Proof.
  split; [reflexivity|].
  apply (barrier_completes_once 0 init_coordinator 7 ["A"; "B"]
    [CAck 7 "A"; CAck 9 "B"; CAck 7 "A"; CRegister 1 8 ["C"]; CAck 7 "B"]).
  - apply wf_init.
  - discriminate.
  - apply (bool_decide_unpack _). vm_compute. exact I.
Defined.

(** [get_waiting_instruments] lists, without repetition and in the order
    of [std::set], exactly the expected instruments that have not acknowledged;
    on a registered barrier of a reachable coordinator the list is empty only
    if nobody was expected. *)
Theorem waiting_instruments_exact c t b :
  wf_coordinator c → barriers_ c !! t = Some b →
  NoDup (get_waiting_instruments c t) ∧
  StronglySorted String.le (get_waiting_instruments c t) ∧
  (∀ i, i ∈ get_waiting_instruments c t ↔
        i ∈ expected_instruments b ∧ i ∉ acked_instruments b) ∧
  (get_waiting_instruments c t = [] → expected_instruments b = ∅).
Proof.
  intros Hc Hb. unfold get_waiting_instruments. rewrite Hb.
  destruct (Hc _ _ Hb) as [Hsub Hopen].
  assert (∀ i, i ∈ filter (λ inst, inst ∉ acked_instruments b)
                (sorted_elements (expected_instruments b)) ↔
          i ∈ expected_instruments b ∧ i ∉ acked_instruments b) as Hin.
  { intros i. rewrite list_elem_of_filter, elem_of_sorted_elements. tauto. }
  split_and!.
  - apply NoDup_filter, NoDup_sorted_elements.
  - apply StronglySorted_filter, sorted_elements_sorted.
  - exact Hin.
  - intros Hnil. rewrite Hnil in Hin. apply Hopen, set_eq. intros i.
    specialize (Hin i). destruct (decide (i ∈ acked_instruments b)); set_solver.
Qed.

Lemma waiting_instruments_exact_witness :
  let c := (handle_ack (register_barrier 0 init_coordinator 7 ["B"; "A"; "C"]) 7 "B").1 in
  get_waiting_instruments c 7 = ["A"; "C"] ∧ NoDup (get_waiting_instruments c 7).
Proof.
  split; [reflexivity|].
  eapply (waiting_instruments_exact _ 7 (mkSyncBarrier {["B"; "A"; "C"]} {["B"]} 0)).
  - apply wf_handle_ack, wf_register, wf_init.
  - vm_compute. reflexivity.
Defined.
