(* ===== verification/Json.v ===== *)
(** * JSON values and the interface of the JSON library

    The data model of [nlohmann::json] (a third-party library) as the sources
    use it: the value type, the accessors with the exceptions they throw, and,
    as the class [JsonText], the two functions between values and text.  The
    class states what the server relies on; [SampleText] is one concrete
    implementation of it, for evaluating examples. *)

From S2P Require Import Prelude.
From Stdlib Require Import SpecFloat.

(** ** Doubles

    [double] is IEEE binary64, as [SpecFloat] specifies it. *)

Abbreviation double := spec_float.

Definition f64_prec : Z := 53.
Definition f64_emax : Z := 1024.

#[export] Instance spec_float_eq_dec : EqDecision spec_float.
Proof. solve_decision. Defined.

#[export] Instance spec_float_countable : Countable spec_float.
Proof.
  refine (inj_countable'
    (λ d, match d with
          | S754_zero s => inl (inl s)
          | S754_infinity s => inl (inr s)
          | S754_nan => inr (inl tt)
          | S754_finite s m e => inr (inr (s, m, e))
          end)
    (λ t : (bool + bool) + (unit + bool * positive * Z), match t with
          | inl (inl s) => S754_zero s
          | inl (inr s) => S754_infinity s
          | inr (inl _) => S754_nan
          | inr (inr (s, m, e)) => S754_finite s m e
          end) _).
  by intros [].
Defined.

Definition is_finite (d : double) : bool :=
  match d with S754_zero _ | S754_finite _ _ _ => true | _ => false end.

(** A bit pattern of a double: the invariant every C++ [double] satisfies. *)
Definition is_f64 (d : double) : bool := valid_binary f64_prec f64_emax d.

(** Conversion from an integer rounds to nearest; conversion to an integer
    truncates and is undefined when the value does not fit. *)
Definition double_of_int (z : Z) : double := binary_normalize f64_prec f64_emax z 0 false.

Definition truncate (d : double) : option Z :=
  match d with
  | S754_zero _ => Some 0%Z
  | S754_finite s m e =>
      let mag := Z.shiftl (Zpos m) e in Some (if s then - mag else mag)%Z
  | _ => None
  end.

Definition int_of_double (P : Z → Prop) `{∀ z, Decision (P z)} (d : double) : res Z :=
  match truncate d with
  | Some z => if bool_decide (P z) then Ok z else Undef
  | None => Undef
  end.

(** ** Values *)

(** [number_integer] and [number_unsigned] are one constructor: the library's
    [is_number_integer()] holds for both and its equality identifies them. *)
Unset Elimination Schemes.
Inductive json : Type :=
| JNull
| JBool (b : bool)
| JInt (z : Z)
| JFloat (d : double)
| JStr (s : string)
| JArr (l : list json)
| JObj (o : list (string * json)).
Set Elimination Schemes.

Fixpoint json_ind' (P : json → Prop)
  (Hnull : P JNull) (Hbool : ∀ b, P (JBool b)) (Hint : ∀ z, P (JInt z))
  (Hfloat : ∀ d, P (JFloat d)) (Hstr : ∀ s, P (JStr s))
  (Harr : ∀ l, Forall P l → P (JArr l))
  (Hobj : ∀ o, Forall (λ kv, P kv.2) o → P (JObj o)) (j : json) : P j :=
  let IH := json_ind' P Hnull Hbool Hint Hfloat Hstr Harr Hobj in
  match j with
  | JNull => Hnull
  | JBool b => Hbool b
  | JInt z => Hint z
  | JFloat d => Hfloat d
  | JStr s => Hstr s
  | JArr l => Harr l ((fix go l := match l return Forall P l with
                                   | [] => Forall_nil_2 _
                                   | x :: l => Forall_cons_2 _ _ _ (IH x) (go l)
                                   end) l)
  | JObj o => Hobj o ((fix go o := match o return Forall (λ kv, P kv.2) o with
                                   | [] => Forall_nil_2 _
                                   | kv :: o => Forall_cons_2 _ _ _ (IH kv.2) (go o)
                                   end) o)
  end.

(** *** Decidable equality and an enumeration, by the generic trees of stdpp *)

Abbreviation json_leaf := (bool + Z + (double + string))%type.

Fixpoint json_to_tree (j : json) : gen_tree json_leaf :=
  match j with
  | JNull => GenNode 0 []
  | JBool b => GenLeaf (inl (inl b))
  | JInt z => GenLeaf (inl (inr z))
  | JFloat d => GenLeaf (inr (inl d))
  | JStr s => GenLeaf (inr (inr s))
  | JArr l => GenNode 1 (json_to_tree <$> l)
  | JObj o => GenNode 2 ((λ kv, GenNode 3 [GenLeaf (inr (inr kv.1)); json_to_tree kv.2]) <$> o)
  end.

Fixpoint json_of_tree (t : gen_tree json_leaf) : json :=
  match t with
  | GenNode 1 ts => JArr (json_of_tree <$> ts)
  | GenNode 2 ts =>
      JObj ((λ t, match t with
                  | GenNode _ [GenLeaf (inr (inr k)); v] => (k, json_of_tree v)
                  | _ => (EmptyString, JNull)
                  end) <$> ts)
  | GenNode _ _ => JNull
  | GenLeaf (inl (inl b)) => JBool b
  | GenLeaf (inl (inr z)) => JInt z
  | GenLeaf (inr (inl d)) => JFloat d
  | GenLeaf (inr (inr s)) => JStr s
  end.

Lemma json_of_to_tree j : json_of_tree (json_to_tree j) = j.
Proof.
  induction j as [| | | | |l IH|o IH] using json_ind'; cbn; try done.
  - f_equal. induction IH; cbn; [done|]. by f_equal.
  - f_equal. induction IH as [|[k v] o Hv IH IHo]; cbn; [done|]. cbn in Hv. by rewrite Hv, IHo.
Qed.

#[export] Instance json_eq_dec : EqDecision json.
Proof.
  refine (λ x y, cast_if (decide (json_to_tree x = json_to_tree y)));
    [abstract by rewrite <-(json_of_to_tree x), e, json_of_to_tree | abstract congruence].
Defined.

#[export] Instance json_countable : Countable json :=
  inj_countable' json_to_tree json_of_tree json_of_to_tree.

(** ** Objects

    An object is a [std::map]: keys are unique and kept in order. *)

Fixpoint obj_get (k : string) (o : list (string * json)) : option json :=
  match o with
  | [] => None
  | (k', v) :: o => if bool_decide (k = k') then Some v else obj_get k o
  end.

(** [j[k] = v] *)
Fixpoint obj_set (k : string) (v : json) (o : list (string * json)) : list (string * json) :=
  match o with
  | [] => [(k, v)]
  | (k', v') :: o' =>
      if bool_decide (k = k') then (k, v) :: o'
      else if bool_decide (String.le k k') then (k, v) :: o
      else (k', v') :: obj_set k v o'
  end.

(** An object built by a sequence of assignments to the null value [json j]. *)
Definition mkobj (kvs : list (string * json)) : list (string * json) :=
  foldl (λ o kv, obj_set kv.1 kv.2 o) [] kvs.

Definition str_lt (s t : string) : Prop := String.le s t ∧ s ≠ t.
#[export] Instance str_lt_dec : RelDecision str_lt.
Proof. intros s t. unfold str_lt. apply _. Defined.

Definition obj_sorted (o : list (string * json)) : Prop := StronglySorted str_lt o.*1.

Lemma obj_get_set k v o : obj_get k (obj_set k v o) = Some v.
Proof.
  induction o as [|[k' v'] o IH]; cbn; [by rewrite bool_decide_eq_true_2|].
  case_bool_decide; cbn; [by rewrite bool_decide_eq_true_2|].
  case_bool_decide; cbn; [by rewrite bool_decide_eq_true_2|].
  by rewrite bool_decide_eq_false_2.
Qed.

Lemma obj_get_set_ne k k' v o : k ≠ k' → obj_get k (obj_set k' v o) = obj_get k o.
Proof.
  intros Hne. induction o as [|[k'' v''] o IH]; cbn; [by rewrite bool_decide_eq_false_2|].
  case_bool_decide; cbn; [subst; by rewrite bool_decide_eq_false_2|].
  case_bool_decide; cbn; [by rewrite (bool_decide_eq_false_2 (k = k'))|].
  case_bool_decide; [done|]. by rewrite IH.
Qed.

Lemma obj_get_set_dec k k' v o :
  obj_get k (obj_set k' v o) = if bool_decide (k = k') then Some v else obj_get k o.
Proof.
  case_bool_decide; [subst; apply obj_get_set|by apply obj_get_set_ne].
Qed.

Create Rewrite HintDb json.
#[export] Hint Rewrite obj_get_set_dec : json.

Lemma elem_of_obj_set_keys k k' v o : k' ∈ (obj_set k v o).*1 ↔ k' = k ∨ k' ∈ o.*1.
Proof.
  induction o as [|[k'' v''] o IH]; cbn; [set_solver|].
  repeat case_bool_decide; cbn; subst; set_solver.
Qed.

Lemma obj_set_sorted k v o : obj_sorted o → obj_sorted (obj_set k v o).
Proof.
  unfold obj_sorted. induction o as [|[k' v'] o IH]; cbn; [repeat constructor|].
  intros [Hs Hf]%StronglySorted_inv. rewrite Forall_forall in Hf.
  case_bool_decide; [subst; by constructor; [|apply Forall_forall]|].
  case_bool_decide as Hle; cbn.
  - constructor; [by constructor; [|apply Forall_forall]|]. apply Forall_forall.
    intros x [->|Hx]%elem_of_cons; [done|]. destruct (Hf x Hx) as [H1 H2]. split; [by trans k'|].
    intros ->. apply H2. by apply (anti_symm String.le).
  - constructor; [by apply IH|]. apply Forall_forall. intros x [->|Hx]%elem_of_obj_set_keys.
    + split; [|done]. by destruct (total String.le k k').
    + by apply Hf.
Qed.

Lemma mkobj_sorted kvs : obj_sorted (mkobj kvs).
Proof.
  unfold mkobj. assert (obj_sorted []) as H by constructor. revert H. generalize (@nil (string * json)).
  induction kvs as [|kv kvs IH]; intros o Ho; cbn; [done|]. by apply IH, obj_set_sorted.
Qed.

(** Sorted objects are determined by their entries: an object is a map. *)
Lemma obj_get_None k o : obj_get k o = None ↔ k ∉ o.*1.
Proof.
  induction o as [|[k' v'] o IH]; cbn; [set_solver|]. case_bool_decide; subst; [set_solver|].
  rewrite IH. set_solver.
Qed.

Lemma obj_get_elem k v o : obj_get k o = Some v → (k, v) ∈ o.
Proof.
  induction o as [|[k' v'] o IH]; cbn; [done|]. case_bool_decide; intros; simplify_eq; [left|right; auto].
Qed.

Lemma obj_sorted_NoDup o : obj_sorted o → NoDup o.*1.
Proof.
  unfold obj_sorted. induction 1 as [|k l Hl IH Hf]; constructor; [|done].
  intros Hk. rewrite Forall_forall in Hf. by destruct (Hf k Hk).
Qed.

Lemma elem_of_obj_get k v o : obj_sorted o → (k, v) ∈ o ↔ obj_get k o = Some v.
Proof.
  intros Hs%obj_sorted_NoDup. split; [|apply obj_get_elem].
  induction o as [|[k' v'] o IH]; cbn in *; [set_solver|].
  apply NoDup_cons in Hs as [Hk Hs].
  intros [?|Hin]%elem_of_cons; simplify_eq; [by rewrite bool_decide_eq_true_2|].
  rewrite bool_decide_eq_false_2; [by apply IH|]. intros ->. apply Hk.
  apply list_elem_of_fmap. by exists (k', v).
Qed.

#[export] Instance str_lt_trans : Transitive str_lt.
Proof.
  intros a b c [H1 H2] [H3 H4]. split; [by trans b|]. intros ->. apply H2.
  by apply (anti_symm String.le).
Qed.

Lemma obj_sorted_ext o1 o2 :
  obj_sorted o1 → obj_sorted o2 → (∀ k, obj_get k o1 = obj_get k o2) → o1 = o2.
Proof.
  intros H1 H2 Hget.
  apply (StronglySorted_unique_strong (λ x y, str_lt x.1 y.1)).
  - intros a b _ _ [Hab Hne] [Hba _]. exfalso. by apply Hne, (anti_symm String.le).
  - by apply StronglySorted_of_fmap in H1.
  - by apply StronglySorted_of_fmap in H2.
  - apply NoDup_Permutation; [by eapply NoDup_fmap_1, obj_sorted_NoDup..|].
    intros [k v]. by rewrite !elem_of_obj_get, Hget.
Qed.

(** *** Building objects entry by entry *)

Lemma mkobj_snoc kvs k v : mkobj (kvs ++ [(k, v)]) = obj_set k v (mkobj kvs).
Proof. unfold mkobj. by rewrite foldl_snoc. Qed.

Lemma Forall_obj_set (P : string * json → Prop) k v o :
  P (k, v) → Forall P o → Forall P (obj_set k v o).
Proof.
  intros Hkv. induction 1 as [|[k' v'] o Hk' Ho IH]; cbn; [by repeat constructor|].
  repeat case_bool_decide; repeat constructor; done.
Qed.

Lemma Forall_mkobj (P : string * json → Prop) kvs : Forall P kvs → Forall P (mkobj kvs).
Proof.
  induction kvs as [|[k v] kvs IH] using rev_ind; [constructor|].
  rewrite Forall_app, Forall_singleton, mkobj_snoc. intros [??]. by apply Forall_obj_set; [|apply IH].
Qed.

Lemma obj_get_mkobj kvs k :
  NoDup kvs.*1 → obj_get k (mkobj kvs) = (list_to_map kvs : gmap string json) !! k.
Proof.
  induction kvs as [|[k' v] kvs IH] using rev_ind; [done|].
  rewrite fmap_app, mkobj_snoc. intros (Hnd & Hk & _)%NoDup_app. cbn in Hk.
  rewrite obj_get_set_dec, IH, list_to_map_snoc by (done || set_solver).
  rewrite lookup_insert. repeat case_bool_decide; case_decide; congruence.
Qed.

(** The order in which distinct keys are assigned does not matter. *)
Lemma mkobj_perm kvs1 kvs2 :
  NoDup kvs1.*1 → kvs1 ≡ₚ kvs2 → mkobj kvs1 = mkobj kvs2.
Proof.
  intros Hnd Hp. apply obj_sorted_ext; [apply mkobj_sorted..|]. intros k.
  rewrite !obj_get_mkobj; [|by rewrite <-Hp|done].
  by rewrite (list_to_map_proper kvs1 kvs2).
Qed.

Lemma fmap_obj_sorted (f : json → json) o :
  obj_sorted o → obj_sorted ((λ kv, (kv.1, f kv.2)) <$> o).
Proof. unfold obj_sorted. rewrite <-list_fmap_compose. done. Qed.

Lemma obj_get_fmap (f : json → json) k o :
  obj_get k ((λ kv, (kv.1, f kv.2)) <$> o) = f <$> obj_get k o.
Proof.
  induction o as [|[k' v] o IH]; cbn; [done|]. by case_bool_decide.
Qed.

(** Loading an object into a map, skipping the values [f] does not accept. *)
Lemma foldl_obj_load {A} (f : json → option A) o (m : gmap string A) k :
  obj_sorted o →
  foldl (λ m kv, match f kv.2 with Some a => <[kv.1 := a]> m | None => m end) m o !! k =
  match obj_get k o with
  | Some v => match f v with Some a => Some a | None => m !! k end
  | None => m !! k
  end.
Proof.
  intros Hs%obj_sorted_NoDup. revert m. induction o as [|[k' v] o IH]; intros m; cbn in *; [done|].
  apply NoDup_cons in Hs as [Hk Hs]. rewrite IH by done. case_bool_decide as Heq.
  - subst k'. apply obj_get_None in Hk. rewrite Hk.
    destruct (f v); [apply lookup_insert_eq|done].
  - destruct (f v); rewrite ?lookup_insert_ne; done.
Qed.

(** ** Accessors *)

(** Texts of the library's exceptions; the server only ever tests whether one
    was thrown, and quotes the text in error messages. *)
Definition type_error (what : string) : string := "[json.exception.type_error] " +:+ what.

(** [j[key]] on a value that is not [const]: a missing key of an object, or any
    key of null, reads as null; other types throw. *)
Definition j_index (j : json) (k : string) : res json :=
  match j with
  | JObj o => Ok (default JNull (obj_get k o))
  | JNull => Ok JNull
  | _ => Exn (type_error "cannot use operator[]")
  end.

Definition contains (j : json) (k : string) : bool :=
  match j with JObj o => bool_decide (is_Some (obj_get k o)) | _ => false end.

Definition is_object (j : json) : bool := match j with JObj _ => true | _ => false end.
Definition is_array (j : json) : bool := match j with JArr _ => true | _ => false end.

Definition get_string (j : json) : res string :=
  match j with JStr s => Ok s | _ => Exn (type_error "type must be string") end.

Definition get_bool (j : json) : res bool :=
  match j with JBool b => Ok b | _ => Exn (type_error "type must be boolean") end.

(** [get<int64_t>], [get<uint64_t>]: an integer is converted to the width, a
    float is truncated. *)
Definition get_int64 (j : json) : res Z :=
  match j with
  | JInt z => Ok (sint64 z)
  | JFloat d => int_of_double is_i64 d
  | _ => Exn (type_error "type must be number")
  end.

Definition get_uint64 (j : json) : res Z :=
  match j with
  | JInt z => Ok (wrap64 z)
  | JFloat d => int_of_double is_u64 d
  | _ => Exn (type_error "type must be number")
  end.

(** [get<int>] also accepts a boolean. *)
Definition get_int (j : json) : res Z :=
  match j with
  | JInt z => Ok (sint32 z)
  | JFloat d => int_of_double is_i32 d
  | JBool b => Ok (if b then 1 else 0)%Z
  | _ => Exn (type_error "type must be number")
  end.

Definition get_double (j : json) : res double :=
  match j with
  | JFloat d => Ok d
  | JInt z => Ok (double_of_int z)
  | _ => Exn (type_error "type must be number")
  end.

Definition get_doubles (j : json) : res (list double) :=
  match j with
  | JArr l => res_map get_double l
  | _ => Exn (type_error "type must be array")
  end.

(** [j.value(key, default)] *)
Definition j_value {A} (get : json → res A) (j : json) (k : string) (dflt : A) : res A :=
  match j with
  | JObj o => match obj_get k o with Some v => get v | None => Ok dflt end
  | _ => Exn (type_error "cannot use value()")
  end.

Lemma get_doubles_arr l : get_doubles (JArr (JFloat <$> l)) = Ok l.
Proof. apply (res_map_Ok get_double JFloat). done. Qed.

(** ** Text *)

(** Well-formed UTF-8 (RFC 3629), which [dump()] insists on. *)
Definition in_range (lo hi c : N) : bool := bool_decide (lo ≤ c)%N && bool_decide (c ≤ hi)%N.

Fixpoint utf8_bytes (l : list N) : bool :=
  match l with
  | [] => true
  | a :: t =>
      if bool_decide (a < 128)%N then utf8_bytes t
      else if in_range 194 223 a then
        match t with b :: t => in_range 128 191 b && utf8_bytes t | _ => false end
      else if in_range 224 239 a then
        match t with
        | b :: c :: t =>
            in_range (if bool_decide (a = 224%N) then 160 else 128)
                     (if bool_decide (a = 237%N) then 159 else 191) b
            && in_range 128 191 c && utf8_bytes t
        | _ => false
        end
      else if in_range 240 244 a then
        match t with
        | b :: c :: d :: t =>
            in_range (if bool_decide (a = 240%N) then 144 else 128)
                     (if bool_decide (a = 244%N) then 143 else 191) b
            && in_range 128 191 c && in_range 128 191 d && utf8_bytes t
        | _ => false
        end
      else false
  end.

Definition utf8_ok (s : string) : bool := utf8_bytes (N_of_ascii <$> chars s).

#[global] Arguments utf8_ok : simpl never.

(** What a value in memory satisfies and [dump()] accepts. *)
Fixpoint json_ok (j : json) : bool :=
  match j with
  | JNull | JBool _ => true
  | JInt z => bool_decide (- two63 ≤ z < two64)%Z
  | JFloat d => is_f64 d
  | JStr s => utf8_ok s
  | JArr l => forallb json_ok l
  | JObj o => bool_decide (obj_sorted o) && forallb (λ kv, utf8_ok kv.1 && json_ok kv.2) o
  end.

(** Text cannot express a float that is not finite: it is written as null. *)
Fixpoint json_norm (j : json) : json :=
  match j with
  | JFloat d => if is_finite d then JFloat d else JNull
  | JArr l => JArr (json_norm <$> l)
  | JObj o => JObj ((λ kv, (kv.1, json_norm kv.2)) <$> o)
  | _ => j
  end.

(** The interface of the library's [dump] and [parse]. *)
Class JsonText := {
  dump : json → res string;
  parse : string → res json;
  (** reading back what was written *)
  parse_dump j : json_ok j = true → ∃ s, dump j = Ok s ∧ parse s = Ok (json_norm j);
  (** the text of an object, cut short, is not JSON *)
  parse_cut o s p : dump (JObj o) = Ok s → p `prefix_of` chars s → p ≠ chars s →
                    ∃ e, parse (of_chars p) = Exn e
}.

Section Text.
Context `{JsonText}.

Lemma json_norm_finite_floats l :
  forallb is_finite l = true → json_norm <$> (JFloat <$> l) = JFloat <$> l.
Proof.
  induction l as [|d l IH]; cbn; [done|]. intros [-> ?]%andb_prop. by rewrite IH.
Qed.

End Text.

(** ** A sample implementation

    Not the library's text format: any injective format closed by a brace
    satisfies the interface, and this one evaluates. *)

Module SampleText.

Fixpoint pos_text (p : positive) : list ascii :=
  match p with
  | 1 => ["A"%char]
  | 2 => ["B"%char]
  | 3 => ["C"%char]
  | p~0~0 => "0"%char :: pos_text p
  | p~0~1 => "1"%char :: pos_text p
  | p~1~0 => "2"%char :: pos_text p
  | p~1~1 => "3"%char :: pos_text p
  end%positive.

Fixpoint text_pos (l : list ascii) : option positive :=
  match l with
  | [] => None
  | c :: l =>
      if bool_decide (c = "A"%char) then if bool_decide (l = ["}"%char]) then Some 1%positive else None
      else if bool_decide (c = "B"%char) then if bool_decide (l = ["}"%char]) then Some 2%positive else None
      else if bool_decide (c = "C"%char) then if bool_decide (l = ["}"%char]) then Some 3%positive else None
      else if bool_decide (c = "0"%char) then (λ p, p~0~0)%positive <$> text_pos l
      else if bool_decide (c = "1"%char) then (λ p, p~0~1)%positive <$> text_pos l
      else if bool_decide (c = "2"%char) then (λ p, p~1~0)%positive <$> text_pos l
      else if bool_decide (c = "3"%char) then (λ p, p~1~1)%positive <$> text_pos l
      else None
  end.

Definition close (l : list ascii) : list ascii := l ++ ["}"%char].

Lemma text_pos_text : ∀ p, text_pos (close (pos_text p)) = Some p.
Proof.
  fix IH 1. intros [[p|p|]|[p|p|]|]; try reflexivity; cbn; fold (close (pos_text p)); by rewrite IH.
Qed.

Lemma text_pos_cut : ∀ p l, l `prefix_of` close (pos_text p) → l ≠ close (pos_text p) →
  text_pos l = None.
Proof.
  assert (∀ (c : ascii) l, l `prefix_of` [c; "}"%char] → l ≠ [c; "}"%char] → l = [] ∨ l = [c]) as Hshort.
  { intros c [|x [|y l]] Hp Hne; [by left|right|].
    - apply prefix_cons_inv_1 in Hp. by subst.
    - exfalso. apply Hne. pose proof (prefix_cons_inv_1 _ _ _ _ Hp) as ->.
      apply prefix_cons_inv_2 in Hp. pose proof (prefix_cons_inv_1 _ _ _ _ Hp) as ->.
      apply prefix_cons_inv_2, prefix_nil_inv in Hp. by subst. }
  fix IH 1. intros p l Hp Hne.
  destruct p as [[p|p|]|[p|p|]|]; cbn in Hp, Hne;
    try (destruct (Hshort _ _ Hp Hne) as [->| ->]; reflexivity);
    fold (close (pos_text p)) in Hp, Hne;
    (destruct l as [|x l]; [done|]; pose proof (prefix_cons_inv_1 _ _ _ _ Hp) as ->;
     apply prefix_cons_inv_2 in Hp; cbn; rewrite (IH p l); [done|done|congruence]).
Qed.

Definition sample_dump (j : json) : res string :=
  Ok (of_chars (close (pos_text (encode (json_norm j))))).

Definition sample_parse (s : string) : res json :=
  match text_pos (chars s) with
  | Some p => match decode p with Some j => Ok j | None => Exn "parse error" end
  | None => Exn "parse error"
  end.

#[refine] Instance sample_text : JsonText := {| dump := sample_dump; parse := sample_parse |}.
Proof.
  - intros j _. eexists. split; [done|]. unfold sample_parse.
    by rewrite chars_of_chars, text_pos_text, decode_encode.
  - intros o s p [= <-] Hp Hne. unfold sample_parse. rewrite chars_of_chars in Hp, Hne.
    rewrite chars_of_chars. rewrite (text_pos_cut _ _ Hp Hne). by eexists.
Defined.

End SampleText.
