(* ===== verification/Yaml.v ===== *)
(** * YAML documents

    Documents as yaml-cpp loads them, and the parts of [YAML::Node] the code
    uses: lookup of a key, type tests, iteration, [as<T>].  The conversions of
    scalars and the texts of exceptions belong to the library and are fields of
    [YamlApi]; [YamlLaws] says what the library documents about them.

    A node that is not there is [None].  On a [const] node the library then
    throws as soon as the node is used ([InvalidNode]); on a node that can be
    changed a lookup makes an undefined node instead.  Such a lookup adds an
    entry without a value to the map, which no later lookup, size or iteration
    shows: documents are not changed by reading them here. *)

From S2P Require Import Prelude Json.

Inductive yaml :=
| YNull
| YScalar (s : string)
| YSeq (l : list yaml)
| YMap (kvs : list (yaml * yaml)).

(** The conversions [as<T>] of the YAML library on scalars, and the [what()] of
    its exceptions. *)
Record YamlApi := mkYamlApi {
  as_int64 : string → option Z;
  as_int32 : string → option Z;
  as_double : string → option double;
  as_bool : string → option bool;
  as_string : yaml → res string;
  bad_conversion : yaml → string;
  bad_subscript : yaml → string → string;
  invalid_node : string
}.

(** A scalar is its own text; [as<int>] gives an [int]; no conversion is
    undefined behaviour. *)
Class YamlLaws (Y : YamlApi) : Prop := {
  as_string_scalar s : as_string Y (YScalar s) = Ok s;
  as_int32_width s z : as_int32 Y s = Some z → is_i32 z;
  as_string_defined y : as_string Y y ≠ Undef
}.

Abbreviation node := (option yaml).

(** ** Type tests ([IsDefined], [IsMap], [IsSequence], [IsScalar]) *)

Definition is_defined (n : node) : bool := match n with Some _ => true | None => false end.
Definition is_map (n : node) : bool := match n with Some (YMap _) => true | _ => false end.
Definition is_sequence (n : node) : bool := match n with Some (YSeq _) => true | _ => false end.
Definition is_scalar (n : node) : bool := match n with Some (YScalar _) => true | _ => false end.

(** ** Lookup *)

(** The value of the first pair whose key is the scalar [k]. *)
Fixpoint map_get (k : string) (kvs : list (yaml * yaml)) : node :=
  match kvs with
  | [] => None
  | (YScalar k', v) :: kvs => if bool_decide (k' = k) then Some v else map_get k kvs
  | _ :: kvs => map_get k kvs
  end.

Section Access.
Context (Y : YamlApi).

Definition value_at (y : yaml) (k : string) : res node :=
  match y with
  | YScalar _ => Exn (bad_subscript Y y k)
  | YMap kvs => Ok (map_get k kvs)
  | YNull | YSeq _ => Ok None
  end.

(** [operator[]] on a [const Node], and on a [Node]. *)
Definition at_const (n : node) (k : string) : res node :=
  match n with Some y => value_at y k | None => Exn (invalid_node Y) end.
Definition at_node (n : node) (k : string) : res node :=
  match n with Some y => value_at y k | None => Ok None end.

(** ** Iteration *)

(** [for (const auto &e : n)]: the elements of a sequence; on a map, every [e]
    is used as a node that is not there. *)
Definition elements_of (n : node) : list node :=
  match n with
  | Some (YSeq l) => Some <$> l
  | Some (YMap kvs) => (λ _, None) <$> kvs
  | _ => []
  end.

(** [it->first] and [it->second]: the pairs of a map; on a sequence, neither is
    there. *)
Definition pairs_of (n : node) : list (node * node) :=
  match n with
  | Some (YMap kvs) => (λ kv, (Some kv.1, Some kv.2)) <$> kvs
  | Some (YSeq l) => (λ _, (None, None)) <$> l
  | _ => []
  end.

Definition node_size (n : node) : nat :=
  match n with Some (YSeq l) => length l | Some (YMap kvs) => length kvs | _ => 0 end.

(** ** Conversion *)

Definition node_string (n : node) : res string :=
  match n with Some y => as_string Y y | None => Exn (invalid_node Y) end.

Definition node_int (n : node) : res Z :=
  match n with
  | Some (YScalar s) =>
      match as_int32 Y s with Some z => Ok z | None => Exn (bad_conversion Y (YScalar s)) end
  | Some y => Exn (bad_conversion Y y)
  | None => Exn (invalid_node Y)
  end.

Definition node_double (n : node) : res double :=
  match n with
  | Some (YScalar s) =>
      match as_double Y s with Some d => Ok d | None => Exn (bad_conversion Y (YScalar s)) end
  | Some y => Exn (bad_conversion Y y)
  | None => Exn (invalid_node Y)
  end.

Lemma node_string_scalar `{YamlLaws Y} n s : n = Some (YScalar s) → node_string n = Ok s.
Proof. intros ->. apply as_string_scalar. Qed.

Lemma node_int_width `{YamlLaws Y} n z : node_int n = Ok z → is_i32 z.
Proof.
  unfold node_int. intros Hz. split_cases. by eapply as_int32_width.
Qed.

End Access.

(** ** Storing ([node[k] = v]) *)

(** The value of the first pair with the key is replaced, or a pair is added. *)
Fixpoint map_put (k : string) (v : yaml) (kvs : list (yaml * yaml)) : list (yaml * yaml) :=
  match kvs with
  | [] => [(YScalar k, v)]
  | (YScalar k', v') :: kvs' =>
      if bool_decide (k' = k) then (YScalar k', v) :: kvs' else (YScalar k', v') :: map_put k v kvs'
  | kv :: kvs' => kv :: map_put k v kvs'
  end.

Lemma map_get_put k v k' kvs :
  map_get k' (map_put k v kvs) = if bool_decide (k' = k) then Some v else map_get k' kvs.
Proof.
  induction kvs as [|[[|s|l|m] w] kvs IH]; cbn; try done.
  - split_cases; congruence.
  - destruct (bool_decide (s = k)) eqn:Hs; cbn; [|rewrite IH];
      rewrite ?bool_decide_eq_true, ?bool_decide_eq_false in Hs; split_cases; congruence.
Qed.

Lemma map_put_same k v kvs : map_get k kvs = Some v → map_put k v kvs = kvs.
Proof.
  induction kvs as [|[[|s|l|m] w] kvs IH]; cbn; intros H; [done|by rewrite IH| |by rewrite IH..].
  destruct (bool_decide (s = k)); [by injection H as ->|by rewrite IH].
Qed.

Lemma map_put_put k v v' kvs : map_put k v (map_put k v' kvs) = map_put k v kvs.
Proof.
  induction kvs as [|[[|s|l|m] w] kvs IH]; cbn; [by rewrite bool_decide_true|by rewrite IH| |by rewrite IH..].
  destruct (bool_decide (s = k)) eqn:Hs; cbn; rewrite Hs; [done|by rewrite IH].
Qed.

Lemma map_put_ne k v kvs : map_put k v kvs ≠ [].
Proof. destruct kvs as [|[[] ?] ?]; cbn; [done|done| |done..]. by case_bool_decide. Qed.

(** A concrete library without numbers, for examples. *)
Definition plain_yaml : YamlApi := {|
  as_int64 _ := None;
  as_int32 s := if bool_decide (s = "1") then Some 1%Z else if bool_decide (s = "2") then Some 2%Z else None;
  as_double _ := None;
  as_bool _ := None;
  as_string y := match y with YScalar s => Ok s | _ => Exn "bad conversion" end;
  bad_conversion _ := "bad conversion";
  bad_subscript _ k := "operator[] call on a scalar (key: " +:+ k +:+ ")";
  invalid_node := "invalid node"
|}.

#[export] Instance plain_yaml_laws : YamlLaws plain_yaml.
Proof.
  split; [done| |by intros []]. intros s z. cbn. intros H. split_cases; split; lia.
Qed.
