(* ===== verification/SchemaValidator.v ===== *)
(** * Validators

    Model of [SchemaValidator] (src/src/SchemaValidator.cpp): the checks of
    instrument APIs, instrument configurations and quantum dot devices, which
    the three command line validators run.  A check writes errors into the
    result and may throw; the errors written before an exception stay. *)

From S2P Require Import Prelude Text Json Yaml.
From Stdlib Require Import Lia SpecFloat.

(** ** Results *)

Record ValidationError := mkError {
  ve_path : string;
  ve_message : string;
  ve_line : Z;
  ve_column : Z
}.

Record ValidationResult := mkResult {
  vr_valid : bool;
  vr_errors : list ValidationError;
  vr_warnings : list string
}.

Definition push_error (e : ValidationError) (r : ValidationResult) : ValidationResult :=
  mkResult false (vr_errors r ++ [e]) (vr_warnings r).

(** ** Checks *)

Definition check (A : Type) : Type := ValidationResult → ValidationResult * res A.

#[export] Instance check_ret : MRet check := λ A a r, (r, Ok a).
#[export] Instance check_bind : MBind check := λ A B f m r,
  match m r with
  | (r, Ok a) => f a r
  | (r, Exn e) => (r, Exn e)
  | (r, Undef) => (r, Undef)
  end.

(** A library call that may throw. *)
Definition lift {A} (x : res A) : check A := λ r, (r, x).

Fixpoint for_each {A} (f : A → check unit) (l : list A) : check unit :=
  match l with [] => mret tt | a :: l => f a;; for_each f l end.

Fixpoint for_fold {S A} (f : S → A → check S) (s : S) (l : list A) : check S :=
  match l with [] => mret s | a :: l => s ← f s a; for_fold f s l end.

Definition node_path (path : list string) : string :=
  foldl (λ out p, out +:+ "/" +:+ p) EmptyString path.

Definition add_error (path : list string) (msg : string) : check unit :=
  λ r, (push_error (mkError (node_path path) msg 0 0) r, Ok tt).

(** The [try] block of a validator: exceptions of the YAML library become an
    error. *)
Definition run_validator (m : check unit) : res ValidationResult :=
  match m (mkResult true [] []) with
  | (r, Ok _) => Ok r
  | (r, Exn what) => Ok (push_error (mkError EmptyString ("YAML parse error: " +:+ what) 0 0) r)
  | (_, Undef) => Undef
  end.

(** [for (int ch = lo; ch <= hi; ++ch)]: incrementing the largest [int] is
    undefined. *)
Definition int_range (lo hi : Z) : list Z := seqZ lo (hi - lo + 1).
Definition range_overflows (lo hi : Z) : bool := bool_decide (lo ≤ hi)%Z && bool_decide (hi = 2 ^ 31 - 1)%Z.

Section Validators.
Context (Y : YamlApi).

(** [for (const auto &key : keys) if (!n[key]) add_error(...)] *)
Definition require_fields (get : string → res node) (path : list string) (what : string)
  (keys : list string) : check unit :=
  for_each (λ key,
    v ← lift (get key);
    if is_defined v then mret tt else add_error path (what +:+ "'" +:+ key +:+ "'")) keys.

(** ** Instrument APIs *)

Definition field_string (n : node) (k : string) : res string :=
  v ← at_const Y n k; node_string Y v.

Definition expected_name (group_name : string) (ch : Z) (suffix : string) : string :=
  group_name +:+ dec ch +:+ "_" +:+ suffix.

Definition group_limit (group : node) (k : string) : res Z :=
  cp ← at_const Y group "channel_parameter"; v ← at_const Y cp k; node_int Y v.

(** The entry of one channel and one type. *)
Definition check_expected (io_names path : list string) (group_name : string) (ch : Z) (io_type : node)
  : check unit :=
  suffix ← lift (field_string io_type "suffix");
  if bool_decide (expected_name group_name ch suffix ∈ io_names) then mret tt
  else add_error (path ++ ["io"])
         ("Missing IO entry for channel group '" +:+ group_name +:+ "', channel " +:+ dec ch
          +:+ ", suffix '" +:+ suffix +:+ "' (expected name: '"
          +:+ expected_name group_name ch suffix +:+ "')").

(** The channels of one group. *)
Definition check_channels (io_names path : list string) (group : node) : check unit :=
  group_name ← lift (field_string group "name");
  min_ch ← lift (group_limit group "min");
  max_ch ← lift (group_limit group "max");
  io_types ← lift (at_const Y group "io_types");
  for_each (λ ch, for_each (check_expected io_names path group_name ch) (elements_of io_types))
    (int_range min_ch max_ch);;
  if range_overflows min_ch max_ch then lift Undef else mret tt.

Definition validate_io_against_channel_groups (io channel_groups : node) (path : list string) : check unit :=
  if negb (is_defined channel_groups) then mret tt
  else
    io_names ← lift (res_map (λ entry, field_string entry "name") (elements_of io));
    for_each (check_channels io_names path) (elements_of channel_groups).

Definition validate_io (io : node) : check unit :=
  if negb (is_sequence io) then add_error ["io"] "IO must be a sequence"
  else
    for_each (λ ie : nat * node,
      let path := ["io"; dec (Z.of_nat ie.1)] in
      if negb (is_map ie.2) then add_error path "IO entry must be a map"
      else require_fields (at_const Y ie.2) path "Missing required IO field " ["name"; "type"; "role"])
      (imap pair (elements_of io)).

Definition validate_channel_group (g : nat) (group : node) : check unit :=
  let path := ["channel_groups"; dec (Z.of_nat g)] in
  require_fields (at_const Y group) path "Missing required channel_group field "
    ["name"; "channel_parameter"; "io_types"];;
  cp ← lift (at_const Y group "channel_parameter");
  (if is_defined cp then
     require_fields (at_const Y cp) path "Missing required channel_parameter field "
       ["name"; "type"; "min"; "max"];;
     ty ← lift (at_const Y cp "type");
     if is_defined ty then
       t ← lift (node_string Y ty);
       if negb (bool_decide (t = "int")) then add_error path "channel_parameter type must be 'int'"
       else mret tt
     else mret tt
   else mret tt);;
  io_types ← lift (at_const Y group "io_types");
  if is_defined io_types then
    if negb (is_sequence io_types) then add_error path "io_types must be a sequence"
    else
      for_each (λ it : nat * node,
        require_fields (at_const Y it.2) (path ++ ["io_types"; dec (Z.of_nat it.1)])
          "Missing required io_type field " ["suffix"; "type"; "role"])
        (imap pair (elements_of io_types))
  else mret tt.

(** The first groups of the matches of [\{([^}]+)\}], from left to right: [cur]
    is what has been read since the last opening brace. *)
Fixpoint placeholders_from (cur : option (list ascii)) (l : list ascii) : list string :=
  match l with
  | [] => []
  | c :: l =>
      match cur with
      | None => placeholders_from (if bool_decide (c = "{"%char) then Some [] else None) l
      | Some w =>
          if bool_decide (c = "}"%char) then
            (if bool_decide (w = []) then [] else [of_chars (reverse w)]) ++ placeholders_from None l
          else placeholders_from (Some (c :: w)) l
      end
  end.
Definition placeholders (tmpl : string) : list string := placeholders_from None (chars tmpl).

(** The names a template may use: of parameters, by [name] or else by [io]. *)
Definition param_names (param : node) : res (list string) :=
  name ← at_const Y param "name";
  if is_scalar name then s ← node_string Y name; Ok [s]
  else
    io ← at_const Y param "io";
    if is_scalar io then s ← node_string Y io; Ok [s] else Ok [].

Definition check_placeholders (path : list string) (tmpl : string) (allowed : list string) (group_name : string)
  : check unit :=
  for_each (λ name,
    if bool_decide (name ∈ allowed) then mret tt
    else add_error path ("Template placeholder {" +:+ name
           +:+ "} does not match any parameter or channel_group name")) (placeholders tmpl);;
  if negb (empty? group_name) && negb (bool_decide (group_name ∈ placeholders tmpl)) then
    add_error path ("Template for command with channel_group must include {" +:+ group_name +:+ "} placeholder")
  else mret tt.

(** Looking up the command again in a map that lacks its name would add an entry
    to the map while it is being iterated over. *)
Definition validate_template (commands : node) (cmd_name : string) (tmpl_node params : node) : check unit :=
  let path := ["commands"; cmd_name] in
  tmpl ← lift (node_string Y tmpl_node);
  names ← lift (if is_sequence params then res_map param_names (elements_of params) else Ok []);
  cmd_fresh ← lift (at_node Y commands cmd_name);
  if negb (is_defined cmd_fresh) then lift Undef
  else
    group ← lift (at_node Y cmd_fresh "channel_group");
    if is_defined group then
      if negb (is_scalar group) then add_error path "channel_group must be a scalar string if defined"
      else
        group_name ← lift (node_string Y group);
        check_placeholders path tmpl (group_name :: concat names) group_name
    else check_placeholders path tmpl (concat names) EmptyString.

Definition validate_command (commands : node) (it : node * node) : check unit :=
  let cmd := it.2 in
  cmd_name ← lift (node_string Y it.1);
  let path := ["commands"; cmd_name] in
  require_fields (at_const Y cmd) path "Missing required command field " ["template"; "parameters"; "outputs"];;
  params ← lift (at_const Y cmd "parameters");
  if is_defined params && negb (is_sequence params) then add_error path "parameters must be a sequence"
  else
    outputs ← lift (at_const Y cmd "outputs");
    if is_defined outputs && negb (is_sequence outputs) then add_error path "outputs must be a sequence"
    else if negb (is_sequence outputs) then
      group ← lift (at_const Y cmd "channel_group");
      if is_defined group
      then add_error path "outputs must be a sequence of suffixes when channel_group is set"
      else add_error path "outputs must be a sequence of io names when channel_group is not set"
    else
      tmpl ← lift (at_const Y cmd "template");
      if is_scalar tmpl then validate_template commands cmd_name tmpl params else mret tt.

Definition check_instrument_api (root : yaml) : check unit :=
  let doc : node := Some root in
  require_fields (at_node Y doc) [] "Missing required field "
    ["api_version"; "instrument"; "protocol"; "io"; "commands"];;
  io ← lift (at_node Y doc "io");
  validate_io io;;
  groups ← lift (at_node Y doc "channel_groups");
  (if is_defined groups then
     if negb (is_sequence groups) then add_error ["channel_groups"] "channel_groups must be a sequence"
     else
       validate_io_against_channel_groups io groups [];;
       for_each (λ ig : nat * node, validate_channel_group ig.1 ig.2) (imap pair (elements_of groups))
   else mret tt);;
  commands ← lift (at_node Y doc "commands");
  if negb (is_map commands) then add_error ["commands"] "commands must be a map/object"
  else for_each (validate_command commands) (pairs_of commands).

(** [load] is [YAML::LoadFile]. *)
Definition validate_instrument_api (load : string → res yaml) (yaml_path : string) : res ValidationResult :=
  run_validator (root ← lift (load yaml_path); check_instrument_api root).

(** ** Quantum dot devices *)

(** [start] is past the last separator; an empty rest is left out. *)
Fixpoint split_from (cur : list ascii) (l : list ascii) : list string :=
  match l with
  | [] => if bool_decide (cur = []) then [] else [of_chars (reverse cur)]
  | c :: l => if bool_decide (c = ";"%char) then of_chars (reverse cur) :: split_from [] l
              else split_from (c :: cur) l
  end.
Definition split_semicolon (s : string) : list string := split_from [] (chars s).

Definition gates_of (global_gates : gmap string (list string)) (type : string) : list string :=
  default [] (global_gates !! type).

Definition parse_global (global : node) : check (gmap string (list string) * list string) :=
  for_fold (λ '(global_gates, all_global_gates) key,
    v ← lift (at_const Y global key);
    if negb (is_defined v) then
      add_error ["global"] ("Missing required global field '" +:+ key +:+ "'");;
      mret (global_gates, all_global_gates)
    else
      s ← lift (node_string Y v);
      mret (<[key := split_semicolon s]> global_gates, all_global_gates ++ split_semicolon s))
    (∅, []) ["ScreeningGates"; "PlungerGates"; "Ohmics"; "BarrierGates"; "ReservoirGates"].

Definition is_gate (global_gates : gmap string (list string)) (type gate : string) : bool :=
  bool_decide (gate ∈ gates_of global_gates type).

Definition entry_at (order : list string) (i : nat) : string := default EmptyString (order !! i).

(** Barriers at even positions, plungers at odd ones; both are counted. *)
Definition check_center (global_gates : gmap string (list string)) (path order : list string) : check (nat * nat) :=
  for_fold (λ '(plunger_count, barrier_count) i,
    if bool_decide (i `mod` 2 = 0) then
      (if is_gate global_gates "BarrierGates" (entry_at order i) then mret tt
       else add_error path ("Order entry " +:+ dec (Z.of_nat i) +:+ " should be a BarrierGate"));;
      mret (plunger_count, S barrier_count)
    else
      (if is_gate global_gates "PlungerGates" (entry_at order i) then mret tt
       else add_error path ("Order entry " +:+ dec (Z.of_nat i) +:+ " should be a PlungerGate"));;
      mret (S plunger_count, barrier_count))
    (0, 0) (seq 2 (length order - 4)).

Definition check_order (global_gates : gmap string (list string)) (path order : list string) : check unit :=
  let n := length order in
  if bool_decide (n < 3) then add_error path "Order must have at least 3 entries"
  else
    (if is_gate global_gates "Ohmics" (entry_at order 0) then mret tt
     else add_error path "First entry in Order must be an Ohmic");;
    (if is_gate global_gates "Ohmics" (entry_at order (n - 1)) then mret tt
     else add_error path "Last entry in Order must be an Ohmic");;
    (if is_gate global_gates "ReservoirGates" (entry_at order 1) then mret tt
     else add_error path "Second entry in Order must be a ReservoirGate");;
    (if is_gate global_gates "ReservoirGates" (entry_at order (n - 2)) then mret tt
     else add_error path "Second-to-last entry in Order must be a ReservoirGate");;
    '(plunger_count, barrier_count) ← check_center global_gates path order;
    if bool_decide (barrier_count = plunger_count + 1) then mret tt
    else add_error path "There must be exactly one more BarrierGate than PlungerGate in the Order".

(** The gates of a group, added to [used_gates]. *)
Definition check_group_gates (global_gates : gmap string (list string)) (path : list string) (group : node)
  (used_gates : list string) : check (list string) :=
  for_fold (λ used gate_type,
    v ← lift (at_const Y group gate_type);
    if is_scalar v then
      s ← lift (node_string Y v);
      for_each (λ gate,
        if is_gate global_gates gate_type gate then mret tt
        else add_error path ("Gate '" +:+ gate +:+ "' in " +:+ gate_type +:+ " not found in global " +:+ gate_type))
        (split_semicolon s);;
      mret (used ++ split_semicolon s)
    else mret used)
    used_gates ["ScreeningGates"; "ReservoirGates"; "PlungerGates"; "BarrierGates"].

Definition check_group (global_gates : gmap string (list string)) (used_gates : list string) (it : node * node)
  : check (list string) :=
  group_name ← lift (node_string Y it.1);
  let path := ["groups"; group_name] in
  require_fields (at_const Y it.2) path "Missing required group field "
    ["Name"; "NumDots"; "ScreeningGates"; "ReservoirGates"; "PlungerGates"; "BarrierGates"; "Order"];;
  used_gates ← check_group_gates global_gates path it.2 used_gates;
  v ← lift (at_const Y it.2 "Order");
  (if is_scalar v then
     s ← lift (node_string Y v);
     check_order global_gates path (split_semicolon s)
   else mret tt);;
  mret used_gates.

Definition check_groups (global_gates : gmap string (list string)) (groups : node) : check (list string) :=
  if negb (is_defined groups) then mret []
  else if negb (is_map groups) then add_error ["groups"] "groups must be a map/object";; mret []
  else for_fold (check_group global_gates) [] (pairs_of groups).

Definition check_unused (global_gates : gmap string (list string)) (used_gates : list string) : check unit :=
  for_each (λ type,
    if bool_decide (type = "Ohmics") then mret tt
    else for_each (λ gate,
      if bool_decide (gate ∈ used_gates) then mret tt
      else add_error ["global"] ("Global gate '" +:+ gate +:+ "' of type '" +:+ type
             +:+ "' is not used in any group")) (gates_of global_gates type))
    (sorted_keys global_gates).

Definition is_negative (d : double) : bool := SFltb d (S754_zero false).

Definition check_quantity (path : list string) (conn : node) (key : string) : check unit :=
  v ← lift (at_const Y conn key);
  if is_scalar v then
    d ← lift (node_double Y v);
    if is_negative d then add_error path (key +:+ " must be >= 0") else mret tt
  else mret tt.

Definition check_connection (it : node * node) : check unit :=
  conn_name ← lift (node_string Y it.1);
  let path := ["wiringDC"; conn_name] in
  require_fields (at_const Y it.2) path "Missing required wiringDC field " ["resistance"; "capacitance"];;
  check_quantity path it.2 "resistance";;
  check_quantity path it.2 "capacitance".

Definition check_wiring (all_global_gates : list string) (wiring : node) : check unit :=
  if negb (is_defined wiring) then mret tt
  else
    (if negb (is_map wiring) then add_error ["wiringDC"] "wiringDC must be a map/object"
     else if negb (bool_decide (node_size wiring = 0))
             && negb (bool_decide (node_size wiring = length all_global_gates)) then
       add_error ["wiringDC"] "wiringDC must be empty or contain an entry for every global gate"
     else mret tt);;
    for_each check_connection (pairs_of wiring).

Definition check_quantum_dot_device (root : yaml) : check unit :=
  let doc : node := Some root in
  require_fields (at_node Y doc) [] "Missing required field " ["global"; "groups"; "wiringDC"];;
  global ← lift (at_node Y doc "global");
  '(global_gates, all_global_gates) ← (if is_defined global then parse_global global else mret (∅, []));
  groups ← lift (at_node Y doc "groups");
  used_gates ← check_groups global_gates groups;
  check_unused global_gates used_gates;;
  wiring ← lift (at_node Y doc "wiringDC");
  check_wiring all_global_gates wiring.

Definition validate_quantum_dot_device (load : string → res yaml) (yaml_path : string) : res ValidationResult :=
  run_validator (root ← lift (load yaml_path); check_quantum_dot_device root).

(** ** Instrument configurations *)

Definition check_one_of (path : list string) (v : node) (allowed : list string) (msg : string) : check unit :=
  if is_scalar v then
    t ← lift (node_string Y v);
    if bool_decide (t ∈ allowed) then mret tt else add_error path msg
  else mret tt.

Definition check_number (path : list string) (v : node) (key : string) : check unit :=
  if is_defined v && negb (is_scalar v) then add_error path (key +:+ " must be a number") else mret tt.

Definition types_allowed : list string := ["int"; "float"; "string"; "bool"].
Definition roles_allowed : list string := ["input"; "output"; "inout"].

Definition check_io_entry (it : node * node) : check unit :=
  io_name ← lift (node_string Y it.1);
  let path := ["io_config"; io_name] in
  require_fields (at_const Y it.2) path "Missing required IO field " ["type"; "role"];;
  ty ← lift (at_const Y it.2 "type");
  check_one_of path ty types_allowed "type must be one of:  int, float, string, bool";;
  role ← lift (at_const Y it.2 "role");
  check_one_of path role roles_allowed "role must be one of: input, output, inout";;
  offset ← lift (at_const Y it.2 "offset");
  check_number path offset "offset";;
  scale ← lift (at_const Y it.2 "scale");
  check_number path scale "scale".

Definition check_instrument_configuration (root : yaml) : check unit :=
  let doc : node := Some root in
  require_fields (at_node Y doc) [] "Missing required field " ["name"; "api_ref"; "connection"; "io_config"];;
  connection ← lift (at_node Y doc "connection");
  (if is_defined connection then
     if negb (is_map connection) then add_error ["connection"] "connection must be an object"
     else
       ty ← lift (at_node Y connection "type");
       if is_defined ty then mret tt
       else add_error ["connection"] "Missing required field 'type' in connection"
   else mret tt);;
  io_config ← lift (at_node Y doc "io_config");
  if negb (is_map io_config) then add_error ["io_config"] "io_config must be an object"
  else for_each check_io_entry (pairs_of io_config).

Definition validate_instrument_configuration (load : string → res yaml) (yaml_path : string)
  : res ValidationResult :=
  run_validator (root ← lift (load yaml_path); check_instrument_configuration root).

(** ** The command line tools

    Output and exit code of the three [main] functions, which differ in the
    validator they call ([instrument_config_validator_main.cpp],
    [instrument_api_validator_main.cpp], [quantum_dot_config_validator_main.cpp]).
    [args] are the arguments after the program's name. *)
Definition validator_main (validate : string → res ValidationResult) (argv0 : string) (args : list string)
  : res (string * Z) :=
  match args with
  | [yaml_path] =>
      result ← validate yaml_path;
      Ok (if vr_valid result then ("Validation succeeded." +:+ String LF EmptyString, 0%Z)
          else (foldl (λ out err, out +:+ "  - " +:+ ve_path err +:+ ": " +:+ ve_message err
                         +:+ String LF EmptyString)
                  ("Validation failed:" +:+ String LF EmptyString) (vr_errors result), 2%Z))
  | _ => Ok ("Usage: " +:+ argv0 +:+ " <input.yaml>" +:+ String LF EmptyString, 1%Z)
  end.

(** [load] is [YAML::LoadFile]. *)
Definition api_validator_main (load : string → res yaml) : string → list string → res (string * Z) :=
  validator_main (validate_instrument_api load).
Definition config_validator_main (load : string → res yaml) : string → list string → res (string * Z) :=
  validator_main (validate_instrument_configuration load).
Definition device_validator_main (load : string → res yaml) : string → list string → res (string * Z) :=
  validator_main (validate_quantum_dot_device load).

End Validators.

(** ** What checks can do

    No check looks at the result it writes to: it appends errors to it and ends
    with a value or an exception, whatever was there before. *)

Definition log (es : list ValidationError) (r : ValidationResult) : ValidationResult :=
  mkResult (match es with [] => vr_valid r | _ => false end) (vr_errors r ++ es) (vr_warnings r).

Lemma log_nil r : log [] r = r.
Proof. destruct r as [v es ws]. unfold log. cbn. by rewrite app_nil_r. Qed.

Lemma log_log es1 es2 r : log es2 (log es1 r) = log (es1 ++ es2) r.
Proof. unfold log. cbn. rewrite app_assoc. by destruct es1, es2. Qed.

Lemma log_id es r : log es r = r → es = [].
Proof.
  intros H%(f_equal (λ r, length (vr_errors r))). cbn in H. rewrite length_app in H.
  destruct es; cbn in H; [done|lia].
Qed.

Class Logs {A} (m : check A) : Prop := logs : ∃ es x, ∀ r, m r = (log es r, x).

#[export] Instance logs_ret {A} (a : A) : Logs (mret a).
Proof. exists [], (Ok a). intros r. by rewrite log_nil. Qed.
#[export] Instance logs_lift {A} (x : res A) : Logs (lift x).
Proof. exists [], x. intros r. by rewrite log_nil. Qed.
#[export] Instance logs_add_error path msg : Logs (add_error path msg).
Proof. by exists [mkError (node_path path) msg 0 0], (Ok tt). Qed.

#[export] Instance logs_bind {A B} (m : check A) (f : A → check B) :
  Logs m → (∀ a, Logs (f a)) → Logs (m ≫= f).
Proof.
  intros (es & x & Hm) Hf. unfold mbind, check_bind. destruct x as [a|e|].
  - destruct (Hf a) as (es' & x & Hx). exists (es ++ es'), x. intros r. by rewrite Hm, Hx, log_log.
  - exists es, (Exn e). intros r. by rewrite Hm.
  - exists es, Undef. intros r. by rewrite Hm.
Qed.

#[export] Instance logs_if {A} (b : bool) (m m' : check A) : Logs m → Logs m' → Logs (if b then m else m').
Proof. by destruct b. Qed.

#[export] Instance logs_for_each {A} (f : A → check unit) l : (∀ a, Logs (f a)) → Logs (for_each f l).
Proof. intros Hf. induction l; cbn [for_each]; apply _. Qed.

#[export] Instance logs_for_fold {S A} (f : S → A → check S) s l : (∀ s a, Logs (f s a)) → Logs (for_fold f s l).
Proof. intros Hf. revert s. induction l; intros s; cbn [for_fold]; apply _. Qed.

#[export] Hint Extern 3 (Logs _) =>
  match goal with p : (_ * _)%type |- _ => destruct p; cbn beta iota end : typeclass_instances.

#[export] Hint Extern 2 (Logs (let _ := _ in _)) => cbv zeta : typeclass_instances.

(** Every check of the validators is such a check. *)
Ltac logs_unfold d := unfold d; apply _.

Section LogsInstances.
Context (Y : YamlApi).
#[export] Instance logs_require get path what keys : Logs (require_fields get path what keys).
Proof. logs_unfold require_fields. Qed.
#[export] Instance logs_expected names path g ch t : Logs (check_expected Y names path g ch t).
Proof. logs_unfold check_expected. Qed.
#[export] Instance logs_channels names path group : Logs (check_channels Y names path group).
Proof. logs_unfold check_channels. Qed.
#[export] Instance logs_io_groups io groups path : Logs (validate_io_against_channel_groups Y io groups path).
Proof. logs_unfold validate_io_against_channel_groups. Qed.
#[export] Instance logs_io io : Logs (validate_io Y io).
Proof. logs_unfold validate_io. Qed.
#[export] Instance logs_channel_group g group : Logs (validate_channel_group Y g group).
Proof. logs_unfold validate_channel_group. Qed.
#[export] Instance logs_placeholders path tmpl allowed g : Logs (check_placeholders path tmpl allowed g).
Proof. logs_unfold check_placeholders. Qed.
#[export] Instance logs_template cs name tmpl ps : Logs (validate_template Y cs name tmpl ps).
Proof. logs_unfold validate_template. Qed.
#[export] Instance logs_command cs it : Logs (validate_command Y cs it).
Proof. logs_unfold validate_command. Qed.
#[export] Instance logs_api root : Logs (check_instrument_api Y root).
Proof. logs_unfold check_instrument_api. Qed.
#[export] Instance logs_parse_global global : Logs (parse_global Y global).
Proof. logs_unfold parse_global. Qed.
#[export] Instance logs_center gg path order : Logs (check_center gg path order).
Proof. logs_unfold check_center. Qed.
#[export] Instance logs_order gg path order : Logs (check_order gg path order).
Proof. logs_unfold check_order. Qed.
#[export] Instance logs_group_gates gg path group used : Logs (check_group_gates Y gg path group used).
Proof. logs_unfold check_group_gates. Qed.
#[export] Instance logs_group gg used it : Logs (check_group Y gg used it).
Proof. logs_unfold check_group. Qed.
#[export] Instance logs_groups gg groups : Logs (check_groups Y gg groups).
Proof. logs_unfold check_groups. Qed.
#[export] Instance logs_unused gg used : Logs (check_unused gg used).
Proof. logs_unfold check_unused. Qed.
#[export] Instance logs_quantity path conn key : Logs (check_quantity Y path conn key).
Proof. logs_unfold check_quantity. Qed.
#[export] Instance logs_connection it : Logs (check_connection Y it).
Proof. logs_unfold check_connection. Qed.
#[export] Instance logs_wiring gates wiring : Logs (check_wiring Y gates wiring).
Proof. logs_unfold check_wiring. Qed.
#[export] Instance logs_device root : Logs (check_quantum_dot_device Y root).
Proof. logs_unfold check_quantum_dot_device. Qed.
#[export] Instance logs_one_of path v allowed msg : Logs (check_one_of Y path v allowed msg).
Proof. logs_unfold check_one_of. Qed.
#[export] Instance logs_number path v key : Logs (check_number path v key).
Proof. logs_unfold check_number. Qed.
#[export] Instance logs_io_entry it : Logs (check_io_entry Y it).
Proof. logs_unfold check_io_entry. Qed.
#[export] Instance logs_configuration root : Logs (check_instrument_configuration Y root).
Proof. logs_unfold check_instrument_configuration. Qed.
End LogsInstances.

(** ** Checks that pass *)

(** The check ends with [a] and writes nothing. *)
Definition passes {A} (m : check A) (a : A) : Prop := ∀ r, m r = (r, Ok a).

Lemma passes_ret {A} (a b : A) : passes (mret a) b ↔ a = b.
Proof. split; [intros H; by injection (H (mkResult true [] []))|by intros ->]. Qed.

Lemma passes_lift {A} (x : res A) a : passes (lift x) a ↔ x = Ok a.
Proof. split; [intros H; by injection (H (mkResult true [] []))|by intros -> r]. Qed.

Lemma passes_error path msg u : passes (add_error path msg) u ↔ False.
Proof. split; [|done]. intros H. by specialize (H (mkResult true [] [])). Qed.

Lemma passes_bind {A B} (m : check A) (f : A → check B) {Lm : Logs m} {Lf : ∀ a, Logs (f a)} b :
  passes (m ≫= f) b ↔ ∃ a, passes m a ∧ passes (f a) b.
Proof.
  split; [|intros (a & Hm & Hf) r; unfold mbind, check_bind; by rewrite Hm, Hf].
  intros H. destruct Lm as (es & x & Hm). unfold passes, mbind, check_bind in H.
  assert (∃ a, x = Ok a) as [a ->].
  { specialize (H (mkResult true [] [])). rewrite Hm in H. destruct x; [by eexists|done..]. }
  destruct (Lf a) as (es' & x & Hf).
  assert (∀ r, (log (es ++ es') r, x) = (r, Ok b)) as H'.
  { intros r. specialize (H r). rewrite Hm, Hf, log_log in H. done. }
  assert (x = Ok b) as -> by apply (f_equal snd (H' (mkResult true [] []))).
  pose proof (f_equal fst (H' (mkResult true [] []))) as [-> ->]%log_id%app_eq_nil.
  exists a. split; intros r; [by rewrite Hm, log_nil|by rewrite Hf, log_nil].
Qed.

Lemma passes_if {A} (b : bool) (m m' : check A) a :
  passes (if b then m else m') a ↔ (b = true → passes m a) ∧ (b = false → passes m' a).
Proof. destruct b; naive_solver. Qed.

Lemma passes_for_each {A} (f : A → check unit) {Lf : ∀ a, Logs (f a)} l u :
  passes (for_each f l) u ↔ Forall (λ a, passes (f a) tt) l.
Proof.
  destruct u. induction l as [|a l IH]; cbn [for_each]; [rewrite passes_ret; by rewrite Forall_nil|].
  rewrite passes_bind, Forall_cons, <-IH by apply _. split; [intros ([] & ? & ?)|intros []; exists tt]; done.
Qed.

(** A validator accepts a file when the check of it passes. *)
Definition accepts (x : res ValidationResult) : Prop := ∃ r, x = Ok r ∧ vr_valid r = true.

Lemma accepts_run (m : check unit) {Lm : Logs m} : accepts (run_validator m) ↔ passes m tt.
Proof.
  unfold accepts, run_validator, passes. destruct Lm as (es & x & Hm).
  rewrite Hm. split.
  - intros (r & Hr & Hv). destruct x as [[]|e|]; simplify_eq/=. destruct es; [|done].
    intros r. by rewrite Hm, log_nil.
  - intros H. specialize (H (mkResult true [] [])). rewrite Hm in H. destruct x as [[]|e|]; simplify_eq/=.
    eexists. split; [done|]. destruct es; [done|]. by injection H.
Qed.

(** A validator ends with a verdict, and the verdict is whether it has errors. *)
Lemma verdict_is_errors (m : check unit) {Lm : Logs m} r :
  run_validator m = Ok r → (vr_valid r = true ↔ vr_errors r = []).
Proof.
  unfold run_validator. destruct Lm as (es & x & Hm). rewrite Hm. unfold log. cbn.
  destruct x as [[]|e|]; intros ?; simplify_eq/=; [by destruct es|].
  split; [done|]. by destruct es.
Qed.

Lemma passes_seq {A} (m : check unit) (k : check A) {Lm : Logs m} {Lk : Logs k} a :
  passes (m;; k) a ↔ passes m tt ∧ passes k a.
Proof.
  rewrite passes_bind by apply _. split; [by intros ([] & ?)|]. intros []. by exists tt.
Qed.

Lemma passes_get {A B} (x : res A) v (f : A → check B) b :
  x = Ok v → passes (lift x ≫= f) b ↔ passes (f v) b.
Proof. by intros ->. Qed.

Lemma passes_got {A B} (x : res A) (f : A → check B) b :
  passes (lift x ≫= f) b → ∃ v, x = Ok v ∧ passes (f v) b.
Proof.
  intros H. destruct x as [v|e|]; [by exists v|by specialize (H (mkResult true [] []))..].
Qed.

Lemma passes_unless (b : bool) path msg u :
  passes (if b then mret tt else add_error path msg) u ↔ b = true.
Proof. destruct u, b; rewrite ?passes_ret, ?passes_error; naive_solver. Qed.

Lemma passes_when (b : bool) path msg u :
  passes (if b then add_error path msg else mret tt) u ↔ b = false.
Proof. destruct u, b; rewrite ?passes_ret, ?passes_error; naive_solver. Qed.

Lemma passes_require get path what keys u :
  passes (require_fields get path what keys) u ↔ Forall (λ key, ∃ v, get key = Ok (Some v)) keys.
Proof.
  unfold require_fields. rewrite passes_for_each by apply _. apply Forall_iff. intros key. split.
  - intros ([v|] & Hv & H)%passes_got; [by exists v|]. by apply passes_error in H.
  - intros [v Hv]. rewrite (passes_get _ _ _ _ Hv). by apply passes_ret.
Qed.

(** A tool exits with 0 exactly if its validator accepts the file. *)
Lemma exit_zero validate argv0 path :
  (∃ out, validator_main validate argv0 [path] = Ok (out, 0%Z)) ↔ accepts (validate path).
Proof.
  unfold validator_main, accepts. destruct (validate path) as [r|e|]; cbn.
  - destruct (vr_valid r) eqn:Hv; split.
    + intros _. by exists r.
    + intros _. by eexists.
    + by intros [? ?].
    + intros (r' & [= <-] & ?). congruence.
  - split; [by intros [? ?]|by intros (? & ? & _)].
  - split; [by intros [? ?]|by intros (? & ? & _)].
Qed.
