(* ===== verification/SchemaAccepts.v ===== *)
(** * What the validators accept

    Which files the validators of [SchemaValidator] accept, stated on the
    document alone ([api_spec], [config_ok], [device_spec]), and the proof that
    they accept exactly these.  What a template or a list of names means is
    given by the relations [matches] and [separated]. *)

From S2P Require Import Prelude Text Json Yaml SchemaValidator.
From Stdlib Require Import Lia.

(** ** Parts of documents *)

Definition field (y : yaml) (k : string) : node :=
  match y with YMap kvs => map_get k kvs | _ => None end.

Definition has (y : yaml) (k : string) : Prop := is_Some (field y k).
Definition one_of (v : node) (allowed : list string) : Prop := ∀ s, v = Some (YScalar s) → s ∈ allowed.
Definition scalar_if_there (v : node) : Prop := ∀ y, v = Some y → ∃ s, y = YScalar s.

(** ** Texts *)

(** Text in which no placeholder begins and that ends before an opening brace:
    other characters and empty pairs of braces. *)
Inductive skipped : list ascii → Prop :=
| skipped_nil : skipped []
| skipped_char c l : c ≠ "{"%char → skipped l → skipped (c :: l)
| skipped_braces l : skipped l → skipped ("{"%char :: "}"%char :: l).

(** The placeholders of a template from left to right: a placeholder is an
    opening brace, a name that is not empty and has no closing brace, and a
    closing brace. *)
Inductive matches : list ascii → list string → Prop :=
| matches_end pre tail :
    skipped pre → tail = [] ∨ (∃ w, tail = "{"%char :: w ∧ "}"%char ∉ w) → matches (pre ++ tail) []
| matches_next pre name rest names :
    skipped pre → name ≠ [] → ("}"%char ∉ name) → matches rest names →
    matches (pre ++ "{"%char :: name ++ "}"%char :: rest) (of_chars name :: names).

(** The names of a list: between semicolons; the last one may have one behind
    it. *)
Inductive separated : list ascii → list string → Prop :=
| separated_nil : separated [] []
| separated_last w : w ≠ [] → (";"%char ∉ w) → separated w [of_chars w]
| separated_next w rest l :
    (";"%char ∉ w) → separated rest l → separated (w ++ ";"%char :: rest) (of_chars w :: l).

Lemma placeholders_skip pre l : skipped pre → placeholders_from None (pre ++ l) = placeholders_from None l.
Proof.
  induction 1 as [|c pre Hc _ IH|pre _ IH]; [done| |]; cbn [app placeholders_from].
  - by rewrite bool_decide_false.
  - rewrite bool_decide_true by done. cbn. done.
Qed.

Lemma placeholders_unclosed w l : ("}"%char ∉ l) → placeholders_from (Some w) l = [].
Proof.
  revert w. induction l as [|c l IH]; intros w H; [done|]. cbn.
  rewrite bool_decide_false by set_solver. apply IH. set_solver.
Qed.

Lemma placeholders_name w name rest :
  ("}"%char ∉ name) → name ≠ [] ∨ w ≠ [] →
  placeholders_from (Some w) (name ++ "}"%char :: rest) =
  of_chars (reverse w ++ name) :: placeholders_from None rest.
Proof.
  revert w. induction name as [|c name IH]; intros w Hn Hne.
  - cbn [placeholders_from app]. rewrite bool_decide_true, bool_decide_false by (by destruct Hne || done).
    cbn. by rewrite app_nil_r.
  - cbn. rewrite bool_decide_false by set_solver. rewrite IH; [|set_solver|by right].
    by rewrite reverse_cons, <-app_assoc.
Qed.

Lemma matches_sound l names : matches l names → placeholders_from None l = names.
Proof.
  induction 1 as [pre tail Hpre Htail|pre name rest names Hpre Hne Hname _ IH]; rewrite placeholders_skip by done.
  - destruct Htail as [->|(w & -> & Hw)]; [done|]. cbn. by apply placeholders_unclosed.
  - cbn [placeholders_from]. rewrite bool_decide_true by done.
    rewrite placeholders_name by (done || by left). by rewrite IH.
Qed.

(** Up to the first brace that opens a name. *)
Lemma skipped_prefix l :
  ∃ pre tail, l = pre ++ tail ∧ skipped pre ∧
    (tail = [] ∨ ∃ w, tail = "{"%char :: w ∧ head w ≠ Some "}"%char).
Proof.
  remember (length l) as n eqn:Hn. revert l Hn. induction (lt_wf n) as [n _ IH]; intros l Hn.
  destruct l as [|c l]; [by exists [], []; split_and!; [|constructor|left]|].
  destruct (decide (c = "{"%char)) as [->|Hc].
  - destruct l as [|d l]; [exists [], ["{"%char]; split_and!; [done|constructor|right; by exists []]|].
    destruct (decide (d = "}"%char)) as [->|Hd].
    + destruct (IH (length l) ltac:(cbn in Hn; lia) l eq_refl) as (pre & tail & -> & Hpre & Ht).
      exists ("{"%char :: "}"%char :: pre), tail. split_and!; [done|by constructor|done].
    + exists [], ("{"%char :: d :: l). split_and!; [done|constructor|]. right. exists (d :: l).
      split; [done|]. cbn. congruence.
  - destruct (IH (length l) ltac:(cbn in Hn; lia) l eq_refl) as (pre & tail & -> & Hpre & Ht).
    exists (c :: pre), tail. split_and!; [done|by constructor|done].
Qed.

Lemma matches_total l : ∃ names, matches l names.
Proof.
  remember (length l) as n eqn:Hn. revert l Hn. induction (lt_wf n) as [n _ IH]; intros l Hn.
  destruct (skipped_prefix l) as (pre & tail & -> & Hpre & [->|(w & -> & Hw)]).
  { exists []. apply matches_end; [done|by left]. }
  destruct (decide ("}"%char ∈ w)) as [Hin|Hout]; [|exists []; apply matches_end; [done|right; by exists w]].
  apply list_elem_of_split_l in Hin as (name & rest & -> & Hname).
  destruct (IH (length rest)) with (l := rest) as [names Hnames]; [|done|].
  { subst n. rewrite !length_app. cbn. rewrite length_app. cbn. lia. }
  exists (of_chars name :: names). apply matches_next; try done. by intros ->.
Qed.

Lemma matches_exact tmpl names : matches (chars tmpl) names ↔ placeholders tmpl = names.
Proof.
  split; [apply matches_sound|]. intros <-. destruct (matches_total (chars tmpl)) as [names Hm].
  unfold placeholders. by rewrite (matches_sound _ _ Hm).
Qed.

Lemma split_name w l rest :
  (";"%char ∉ l) → split_from w (l ++ ";"%char :: rest) = of_chars (reverse w ++ l) :: split_from [] rest.
Proof.
  revert w. induction l as [|c l IH]; intros w H; cbn.
  - by rewrite app_nil_r.
  - rewrite bool_decide_false by set_solver. rewrite IH by set_solver. by rewrite reverse_cons, <-app_assoc.
Qed.

Lemma split_last w l :
  (";"%char ∉ l) → reverse w ++ l ≠ [] → split_from w l = [of_chars (reverse w ++ l)].
Proof.
  revert w. induction l as [|c l IH]; intros w H Hne; cbn.
  - rewrite app_nil_r in *. rewrite bool_decide_false; [done|]. by intros ->.
  - rewrite bool_decide_false by set_solver. rewrite IH.
    + by rewrite reverse_cons, <-app_assoc.
    + set_solver.
    + rewrite reverse_cons, <-app_assoc. by destruct (reverse w).
Qed.

Lemma separated_sound l names : separated l names → split_from [] l = names.
Proof.
  induction 1 as [|w Hne Hw|w rest names Hw _ IH]; [done| |].
  - by rewrite split_last.
  - by rewrite split_name, IH.
Qed.

Lemma separated_total l : ∃ names, separated l names.
Proof.
  remember (length l) as n eqn:Hn. revert l Hn. induction (lt_wf n) as [n _ IH]; intros l Hn.
  destruct (decide (";"%char ∈ l)) as [Hin|Hout].
  - apply list_elem_of_split_l in Hin as (w & rest & -> & Hw).
    destruct (IH (length rest)) with (l := rest) as [names Hnames]; [|done|].
    { subst n. rewrite length_app. cbn. lia. }
    exists (of_chars w :: names). by constructor.
  - destruct l as [|c l]; [exists []; constructor|]. exists [of_chars (c :: l)]. by constructor.
Qed.

Lemma separated_exact s names : separated (chars s) names ↔ split_semicolon s = names.
Proof.
  split; [apply separated_sound|]. intros <-. destruct (separated_total (chars s)) as [names Hm].
  unfold split_semicolon. by rewrite (separated_sound _ _ Hm).
Qed.

Section Accepted.
Context (Y : YamlApi) {L : YamlLaws Y}.

Lemma value_at_some y k v : value_at Y y k = Ok (Some v) ↔ field y k = Some v.
Proof. destruct y; cbn; split; congruence. Qed.

Lemma value_at_field y k : is_scalar (Some y) = false → value_at Y y k = Ok (field y k).
Proof. by destruct y. Qed.

Lemma require_field get y path what keys u :
  (∀ k, get k = value_at Y y k) → passes (require_fields get path what keys) u ↔ Forall (has y) keys.
Proof.
  intros Hget. rewrite passes_require. apply Forall_iff. intros k. rewrite Hget. unfold has, is_Some.
  by setoid_rewrite value_at_some.
Qed.

Lemma require_const y path what keys u :
  passes (require_fields (at_const Y (Some y)) path what keys) u ↔ Forall (has y) keys.
Proof. by apply require_field. Qed.

Lemma require_root y path what keys u :
  passes (require_fields (at_node Y (Some y)) path what keys) u ↔ Forall (has y) keys.
Proof. by apply require_field. Qed.

Lemma has_not_scalar y k : has y k → is_scalar (Some y) = false.
Proof. intros [v Hv]. by destruct y. Qed.

Lemma has_defined y k : has y k ↔ is_defined (field y k) = true.
Proof. unfold has, is_defined. by rewrite is_Some_alt; destruct (field y k). Qed.

Lemma passes_one_of path v allowed msg u : passes (check_one_of Y path v allowed msg) u ↔ one_of v allowed.
Proof.
  unfold check_one_of, one_of. destruct v as [[|s| |]|]; cbn [is_scalar]; destruct u;
    try (rewrite passes_ret; naive_solver).
  rewrite (passes_get _ _ _ _ (node_string_scalar Y _ s eq_refl)), passes_unless, bool_decide_eq_true. naive_solver.
Qed.

Lemma passes_number path v key u : passes (check_number path v key) u ↔ scalar_if_there v.
Proof.
  unfold check_number, scalar_if_there. rewrite passes_when.
  destruct v as [[]|]; cbn; naive_solver.
Qed.

(** *** Configurations *)

Record io_entry_ok (k v : yaml) : Prop := {
  ie_name : ∃ name, as_string Y k = Ok name;
  ie_has : has v "type" ∧ has v "role";
  ie_type : one_of (field v "type") ["int"; "float"; "string"; "bool"];
  ie_role : one_of (field v "role") ["input"; "output"; "inout"];
  ie_offset : scalar_if_there (field v "offset");
  ie_scale : scalar_if_there (field v "scale")
}.

Record config_ok (root : yaml) : Prop := {
  co_has : has root "name" ∧ has root "api_ref";
  co_connection : ∃ kvs, field root "connection" = Some (YMap kvs) ∧ is_Some (map_get "type" kvs);
  co_io_config : ∃ kvs, field root "io_config" = Some (YMap kvs) ∧ Forall (λ kv, io_entry_ok kv.1 kv.2) kvs
}.

Lemma io_entry_exact k v : passes (check_io_entry Y (Some k, Some v)) tt ↔ io_entry_ok k v.
Proof.
  unfold check_io_entry. cbn [fst snd node_string at_const].
  destruct (as_string Y k) as [name|e|] eqn:Hk;
    [|split; [intros (? & ? & _)%passes_got; congruence|intros [[? ?] ]; congruence]..].
  rewrite (passes_get _ _ _ _ eq_refl), passes_seq, require_const, !Forall_cons by apply _.
  destruct (is_scalar (Some v)) eqn:Hv.
  { destruct v as [|s| |]; [done| |done..].
    split; [by intros [([? ?] & _) _]|by intros [_ [[? ?] _] _ _ _ _]]. }
  rewrite (passes_get _ _ _ _ (value_at_field _ "type" Hv)), passes_seq, passes_one_of by apply _.
  rewrite (passes_get _ _ _ _ (value_at_field _ "role" Hv)), passes_seq, passes_one_of by apply _.
  rewrite (passes_get _ _ _ _ (value_at_field _ "offset" Hv)), passes_seq, passes_number by apply _.
  rewrite (passes_get _ _ _ _ (value_at_field _ "scale" Hv)), passes_number.
  split; [intros ((? & ? & _) & ? & ? & ? & ?)|intros [_ [? ?] ? ? ? ?]]; [split; eauto|].
  split_and!; done || constructor.
Qed.

Lemma configuration_exact root : passes (check_instrument_configuration Y root) tt ↔ config_ok root.
Proof.
  unfold check_instrument_configuration. cbn [at_node].
  rewrite passes_seq, require_root, !Forall_cons by apply _.
  destruct (is_scalar (Some root)) eqn:Hroot.
  { destruct root; [done| |done..]. split; [by intros [([? ?] & _) _]|by intros [[[? ?] _] _ _]]. }
  rewrite (passes_get _ _ _ _ (value_at_field _ "connection" Hroot)), passes_seq by apply _.
  rewrite (passes_get _ _ _ _ (value_at_field _ "io_config" Hroot)).
  split.
  - intros ((Hn & Ha & Hc & Hi & _) & H1 & H2).
    split; [done| |].
    + destruct Hc as [c Hc]. rewrite Hc in H1. cbn in H1. destruct c as [| | |kvs]; try by apply passes_error in H1.
      exists kvs. split; [done|]. cbn in H1. apply passes_got in H1 as (v & [= <-] & H1).
      apply passes_unless in H1. by apply has_defined with (y := YMap kvs).
    + destruct Hi as [i Hi]. rewrite Hi in H2. destruct i as [| | |kvs]; try by apply passes_error in H2.
      exists kvs. split; [done|]. cbn in H2. rewrite passes_for_each, Forall_fmap in H2 by apply _.
      eapply Forall_impl; [exact H2|]. intros [k v]. apply io_entry_exact.
  - intros [[Hn Ha] (c & Hc & Ht) (kvs & Hi & Hf)]. rewrite Hc, Hi. cbn. split_and!.
    + done.
    + done.
    + by eexists.
    + by eexists.
    + constructor.
    + destruct Ht as [t ->]. done.
    + rewrite passes_for_each, Forall_fmap by apply _. eapply Forall_impl; [exact Hf|].
      intros [k v]. apply io_entry_exact.
Qed.

(** *** Instrument APIs *)

Definition text_at (y : yaml) (k s : string) : Prop := ∃ v, field y k = Some v ∧ as_string Y v = Ok s.
Definition int_at (y : yaml) (k : string) (z : Z) : Prop :=
  ∃ s, field y k = Some (YScalar s) ∧ as_int32 Y s = Some z.

Lemma field_string_exact y k s : field_string Y (Some y) k = Ok s ↔ text_at y k s.
Proof.
  unfold field_string, text_at. cbn [at_const]. destruct y as [|t|l|kvs]; cbn;
    [..|destruct (map_get k kvs) as [v|]; cbn]; try (split; [done|intros (? & ? & ?); done]).
  split; [by eexists|intros (? & ? & ?); congruence].
Qed.

Lemma node_int_exact n z : node_int Y n = Ok z ↔ ∃ s, n = Some (YScalar s) ∧ as_int32 Y s = Some z.
Proof.
  destruct n as [[|s| |]|]; cbn; try (split; [done|intros (? & ? & ?); done]).
  destruct (as_int32 Y s) eqn:Hs; split; try done; [intros [= <-]; by eexists|..];
    intros (? & [= <-] & ?); congruence.
Qed.

Lemma group_limit_exact group k z :
  group_limit Y (Some group) k = Ok z ↔ ∃ cp, field group "channel_parameter" = Some cp ∧ int_at cp k z.
Proof.
  unfold group_limit, int_at. cbn [at_const]. split.
  - destruct (value_at Y group _) as [[cp|]|e|] eqn:H1; try done.
    apply value_at_some in H1. cbn. destruct (value_at Y cp k) as [v|e|] eqn:H2; [|done..]. cbn.
    intros (s & -> & Hs)%node_int_exact. apply value_at_some in H2. by eauto.
  - intros (cp & H1%value_at_some & s & H2%value_at_some & Hs). rewrite H1. cbn. rewrite H2. cbn. by rewrite Hs.
Qed.

Lemma elem_of_int_range lo hi ch : ch ∈ int_range lo hi ↔ (lo ≤ ch ≤ hi)%Z.
Proof. unfold int_range. rewrite elem_of_seqZ. lia. Qed.

(** All channels of a group have their entries among [names]. *)
Definition group_covered (names : list string) (group : yaml) : Prop :=
  ∃ name cp lo hi,
    text_at group "name" name ∧ field group "channel_parameter" = Some cp ∧
    int_at cp "min" lo ∧ int_at cp "max" hi ∧ range_overflows lo hi = false ∧
    ∀ ch t, (lo ≤ ch ≤ hi)%Z → t ∈ elements_of (field group "io_types") →
      ∃ suffix, field_string Y t "suffix" = Ok suffix ∧ expected_name name ch suffix ∈ names.

Lemma expected_exact names path name ch t u :
  passes (check_expected Y names path name ch t) u ↔
  ∃ suffix, field_string Y t "suffix" = Ok suffix ∧ expected_name name ch suffix ∈ names.
Proof.
  unfold check_expected. split.
  - intros (suffix & Hs & H)%passes_got. exists suffix. split; [done|].
    by apply passes_unless, bool_decide_eq_true in H.
  - intros (suffix & Hs & H). rewrite (passes_get _ _ _ _ Hs), passes_unless. by apply bool_decide_eq_true.
Qed.

Lemma channels_exact names path group u :
  passes (check_channels Y names path (Some group)) u ↔ group_covered names group.
Proof.
  unfold check_channels. cbn [at_const]. destruct u. split.
  - intros (name & Hname%field_string_exact & H)%passes_got.
    apply passes_got in H as (lo & (cp & Hcp & Hlo)%group_limit_exact & H).
    apply passes_got in H as (hi & (cp' & Hcp' & Hhi)%group_limit_exact & H). simplify_eq.
    rewrite (passes_get _ _ _ _ (value_at_field group "io_types" (has_not_scalar _ _ (mk_is_Some _ _ Hcp)))) in H.
    rewrite passes_seq, passes_for_each in H by apply _. destruct H as [H Hov].
    exists name, cp, lo, hi. split_and!; [done..| |].
    + destruct (range_overflows lo hi); [|done]. by apply passes_lift in Hov.
    + intros ch t Hch Ht. rewrite Forall_forall in H. apply elem_of_int_range, H in Hch.
      rewrite passes_for_each, Forall_forall in Hch by apply _. by eapply expected_exact, Hch.
  - intros (name & cp & lo & hi & Hname%field_string_exact & Hcp & Hlo & Hhi & Hov & H).
    rewrite (passes_get _ _ _ _ Hname).
    rewrite (passes_get _ _ _ _ (proj2 (group_limit_exact group "min" lo) (ex_intro _ cp (conj Hcp Hlo)))).
    rewrite (passes_get _ _ _ _ (proj2 (group_limit_exact group "max" hi) (ex_intro _ cp (conj Hcp Hhi)))).
    rewrite (passes_get _ _ _ _ (value_at_field group "io_types" (has_not_scalar _ _ (mk_is_Some _ _ Hcp)))).
    rewrite passes_seq, passes_for_each by apply _. rewrite Hov, passes_ret. split; [|done].
    apply Forall_forall. intros ch Hch%elem_of_int_range. rewrite passes_for_each by apply _.
    apply Forall_forall. intros t Ht. by apply expected_exact, H.
Qed.

Lemma io_groups_exact io gs path u :
  passes (validate_io_against_channel_groups Y io (Some (YSeq gs)) path) u ↔
  ∃ names, res_map (λ e, field_string Y e "name") (elements_of io) = Ok names ∧ Forall (group_covered names) gs.
Proof.
  unfold validate_io_against_channel_groups. cbn [is_defined]. split.
  - intros (names & Hn & H)%passes_got. exists names. split; [done|].
    cbn [elements_of] in H. rewrite passes_for_each, Forall_fmap in H by apply _.
    eapply Forall_impl; [exact H|]. intros g. by apply channels_exact.
  - intros (names & Hn & H). change (is_defined (Some (YSeq gs))) with true. cbn [negb].
    rewrite (passes_get _ _ _ _ Hn). cbn [elements_of]. rewrite passes_for_each, Forall_fmap by apply _.
    eapply Forall_impl; [exact H|]. intros g. by apply channels_exact.
Qed.

(** Checks of the elements of a sequence that name the element's index. *)
Lemma passes_indexed (f : nat * node → check unit) {Lf : ∀ a, Logs (f a)} (P : yaml → Prop) l u :
  (∀ i y, passes (f (i, Some y)) tt ↔ P y) → passes (for_each f (imap pair (Some <$> l))) u ↔ Forall P l.
Proof.
  intros Hf. rewrite passes_for_each by apply _. rewrite imap_fmap.
  assert (∀ k, Forall (λ a, passes (f a) tt) (imap (λ i y, (k + i, Some y)) l) ↔ Forall P l) as H; [|apply (H 0)].
  induction l as [|y l IH]; intros k; [by rewrite !Forall_nil|].
  rewrite imap_cons, !Forall_cons, Hf, <-(IH (S k)).
  erewrite (imap_ext (_ ∘ S)); [done|]. intros i x _. cbn. f_equal. lia.
Qed.

Definition io_ok (e : yaml) : Prop := has e "name" ∧ has e "type" ∧ has e "role".

Lemma io_exact io u : passes (validate_io Y io) u ↔ ∃ ios, io = Some (YSeq ios) ∧ Forall io_ok ios.
Proof.
  unfold validate_io. destruct io as [[| |ios|]|]; cbn [is_defined is_sequence negb andb];
    try (rewrite passes_error; split; [done|by intros (? & ? & _)]).
  cbn [elements_of]. rewrite (passes_indexed _ io_ok).
  - split; [intros H; by exists ios|intros (? & [= <-] & H); done].
  - intros i y. cbn [fst snd]. destruct y as [| | |kvs]; cbn [is_map negb];
      try (rewrite passes_error; split; [done|by intros [[? ?] _]]).
    rewrite require_const, !Forall_cons. unfold io_ok. split; [by intros (? & ? & ? & _)|].
    intros (? & ? & ?). split_and!; done || constructor.
Qed.

Record group_shape (group cp : yaml) (tys : list yaml) : Prop := {
  gs_name : has group "name";
  gs_parameter : field group "channel_parameter" = Some cp;
  gs_limits : has cp "name" ∧ has cp "min" ∧ has cp "max";
  gs_int : text_at cp "type" "int";
  gs_types : field group "io_types" = Some (YSeq tys);
  gs_types_ok : Forall (λ t, has t "suffix" ∧ has t "type" ∧ has t "role") tys
}.

Lemma parameter_exact cp path u :
  passes (require_fields (at_const Y (Some cp)) path "Missing required channel_parameter field "
            ["name"; "type"; "min"; "max"];;
          ty ← lift (at_const Y (Some cp) "type");
          if is_defined ty then
            t ← lift (node_string Y ty);
            if negb (bool_decide (t = "int")) then add_error path "channel_parameter type must be 'int'"
            else mret tt
          else mret tt) u ↔
  (has cp "name" ∧ has cp "min" ∧ has cp "max") ∧ text_at cp "type" "int".
Proof.
  rewrite passes_seq, require_const, !Forall_cons by apply _. split.
  - intros [(Hn & [ty Ht] & Hmin & Hmax & _) H]. split; [done|].
    cbn [at_const] in H. rewrite (passes_get _ _ _ _ (proj2 (value_at_some _ _ _) Ht)) in H. cbn in H.
    apply passes_got in H as (t & Hty & H). apply passes_when in H.
    case_bool_decide; [|done]. subst. by exists ty.
  - intros [(Hn & Hmin & Hmax) (ty & Ht & Hty)]. split; [split_and!; try done; by exists ty|].
    cbn [at_const]. rewrite (passes_get _ _ _ _ (proj2 (value_at_some _ _ _) Ht)). cbn.
    rewrite (passes_get _ _ _ _ Hty), passes_when. done.
Qed.

Lemma channel_group_exact g group u :
  passes (validate_channel_group Y g (Some group)) u ↔ ∃ cp tys, group_shape group cp tys.
Proof.
  unfold validate_channel_group. cbv zeta. rewrite passes_seq, require_const, !Forall_cons by apply _.
  destruct (is_scalar (Some group)) eqn:Hg.
  { destruct group; [done| |done..]. split; [by intros [([? ?] & _) _]|by intros (? & ? & [[? ?] ? ? ? ? ?])]. }
  cbn [at_const]. rewrite (passes_get _ _ _ _ (value_at_field _ "channel_parameter" Hg)), passes_seq by apply _.
  rewrite (passes_get _ _ _ _ (value_at_field _ "io_types" Hg)).
  destruct (field group "channel_parameter") as [cp|] eqn:Hcp.
  2: { split; [intros [(_ & [? ?] & _) _]; congruence|by intros (? & ? & [? ? ? ? ? ?]); congruence]. }
  change (is_defined (Some cp)) with true. cbv iota. rewrite parameter_exact.
  assert (∀ tys, passes (for_each (λ it : nat * node,
        require_fields (at_const Y it.2) (["channel_groups"; dec (Z.of_nat g)] ++ ["io_types"; dec (Z.of_nat it.1)])
          "Missing required io_type field " ["suffix"; "type"; "role"]) (imap pair (elements_of (Some (YSeq tys))))) u
      ↔ Forall (λ t, has t "suffix" ∧ has t "type" ∧ has t "role") tys) as Htys.
  { intros tys. cbn [elements_of]. apply passes_indexed; [apply _|]. intros i y. cbn [snd].
    rewrite require_const, !Forall_cons. intuition. }
  split.
  - intros [(Hn & _ & [tys Ht] & _) [[Hl Hint] H]]. rewrite Ht in H. cbn [is_defined] in H.
    destruct tys as [| |tys|]; try by apply passes_error in H.
    exists cp, tys. split; try done. by apply Htys.
  - intros (cp' & tys & [Hn ? Hl Hint Ht Hok]). simplify_eq. rewrite Ht.
    split_and!; first [done|apply Hl|by exists cp|by exists (YSeq tys)|by apply Htys|constructor].
Qed.

(** The placeholders of a template are names of parameters or the channel group,
    which must be among them. *)
Definition template_ok (tmpl : string) (names : list string) (group : node) : Prop :=
  match group with
  | None => Forall (.∈ names) (placeholders tmpl)
  | Some (YScalar g) =>
      Forall (.∈ g :: names) (placeholders tmpl) ∧ (g ≠ EmptyString → g ∈ placeholders tmpl)
  | Some _ => False
  end.

Lemma placeholders_exact path tmpl allowed g u :
  passes (check_placeholders path tmpl allowed g) u ↔
  Forall (.∈ allowed) (placeholders tmpl) ∧ (g ≠ EmptyString → g ∈ placeholders tmpl).
Proof.
  unfold check_placeholders. rewrite passes_seq, passes_for_each, passes_when by apply _. f_equiv.
  - apply Forall_iff. intros name. by rewrite passes_unless, bool_decide_eq_true.
  - rewrite andb_false_iff, !negb_false_iff, !bool_decide_eq_true.
    destruct (decide (g = EmptyString)); naive_solver.
Qed.

(** A command has its template, parameters and outputs; the channel group is the
    one of the first command of the same name. *)
Definition command_ok (cs : list (yaml * yaml)) (k cmd : yaml) : Prop :=
  ∃ cmd_name tmpl ps outs,
    as_string Y k = Ok cmd_name ∧ field cmd "template" = Some tmpl ∧
    field cmd "parameters" = Some (YSeq ps) ∧ field cmd "outputs" = Some (YSeq outs) ∧
    ∀ text, tmpl = YScalar text →
      ∃ names first, res_map (param_names Y) (Some <$> ps) = Ok names ∧
        map_get cmd_name cs = Some first ∧ is_scalar (Some first) = false ∧
        template_ok text (concat names) (field first "channel_group").

Lemma template_exact cs cmd_name text ps u :
  passes (validate_template Y (Some (YMap cs)) cmd_name (Some (YScalar text)) (Some (YSeq ps))) u ↔
  ∃ names first, res_map (param_names Y) (Some <$> ps) = Ok names ∧
    map_get cmd_name cs = Some first ∧ is_scalar (Some first) = false ∧
    template_ok text (concat names) (field first "channel_group").
Proof.
  unfold validate_template. cbv zeta. rewrite (passes_get _ _ _ _ (node_string_scalar Y _ text eq_refl)).
  cbn [is_sequence elements_of at_node value_at].
  destruct (res_map (param_names Y) (Some <$> ps)) as [names|e|];
    [|split; [by intros (? & ? & _)%passes_got|by intros (? & ? & ? & _)]..].
  rewrite (passes_get _ _ _ _ eq_refl), (passes_get _ _ _ _ eq_refl).
  destruct (map_get cmd_name cs) as [first|]; cbn [is_defined];
    [|split; [by intros ?%passes_lift|by intros (? & ? & _ & ? & _)]].
  change (is_defined (Some first)) with true. cbn [negb].
  destruct (is_scalar (Some first)) eqn:Hf.
  { destruct first; [done| |done..].
    split; [by intros (? & ? & _)%passes_got|by intros (? & ? & _ & [= <-] & ? & _)]. }
  rewrite (passes_get _ _ _ _ (value_at_field _ "channel_group" Hf)).
  transitivity (template_ok text (concat names) (field first "channel_group")).
  2: { split; [intros H; by exists names, first|by intros (? & ? & [= <-] & [= <-] & _ & H)]. }
  destruct (field first "channel_group") as [[|g| |]|]; cbn [template_ok is_defined is_scalar negb];
    [by rewrite passes_error| |by rewrite passes_error..|].
  - change (is_defined (Some (YScalar g))) with true. cbv iota.
    by rewrite (passes_get _ _ _ _ (node_string_scalar Y _ g eq_refl)), placeholders_exact.
  - change (is_defined None) with false. cbv iota. rewrite placeholders_exact. naive_solver.
Qed.

Lemma command_exact cs k cmd u :
  passes (validate_command Y (Some (YMap cs)) (Some k, Some cmd)) u ↔ command_ok cs k cmd.
Proof.
  unfold validate_command. cbv zeta. cbn [fst snd node_string at_const]. split.
  - intros (cmd_name & Hk & H)%passes_got. rewrite passes_seq, require_const, !Forall_cons in H by apply _.
    destruct H as [([tmpl Ht] & [ps Hp] & [outs Ho] & _) H].
    rewrite (passes_get _ _ _ _ (proj2 (value_at_some _ _ _) Hp)) in H.
    destruct ps as [| |ps|]; try by apply passes_error in H. cbn [is_defined is_sequence negb andb] in H.
    rewrite (passes_get _ _ _ _ (proj2 (value_at_some _ _ _) Ho)) in H.
    destruct outs as [| |outs|]; try by apply passes_error in H. cbn [is_defined is_sequence negb andb] in H.
    rewrite (passes_get _ _ _ _ (proj2 (value_at_some _ _ _) Ht)) in H.
    exists cmd_name, tmpl, ps, outs. split_and!; [done..|]. intros text ->. by apply template_exact in H.
  - intros (cmd_name & tmpl & ps & outs & Hk & Ht & Hp & Ho & Htmpl). rewrite (passes_get _ _ _ _ Hk).
    rewrite passes_seq, require_const, !Forall_cons by apply _. split.
    { split_and!; [by exists tmpl|by exists (YSeq ps)|by exists (YSeq outs)|constructor]. }
    rewrite (passes_get _ _ _ _ (proj2 (value_at_some _ _ _) Hp)). cbn [is_defined is_sequence negb andb].
    rewrite (passes_get _ _ _ _ (proj2 (value_at_some _ _ _) Ho)). cbn [is_defined is_sequence negb andb].
    rewrite (passes_get _ _ _ _ (proj2 (value_at_some _ _ _) Ht)).
    destruct tmpl as [|text| |]; cbn [is_scalar]; try (destruct u; by apply passes_ret).
    by apply template_exact, Htmpl.
Qed.

Record api_ok (root : yaml) : Prop := {
  ao_has : has root "api_version" ∧ has root "instrument" ∧ has root "protocol";
  ao_io : ∃ ios, field root "io" = Some (YSeq ios) ∧ Forall io_ok ios;
  ao_groups : ∀ groups, field root "channel_groups" = Some groups →
    ∃ gs names, groups = YSeq gs ∧
      res_map (λ e, field_string Y e "name") (elements_of (field root "io")) = Ok names ∧
      Forall (group_covered names) gs ∧ Forall (λ g, ∃ cp tys, group_shape g cp tys) gs;
  ao_commands : ∃ cs, field root "commands" = Some (YMap cs) ∧ Forall (λ kv, command_ok cs kv.1 kv.2) cs
}.

Lemma groups_exact io groups u :
  passes (if is_defined groups then
            if negb (is_sequence groups) then add_error ["channel_groups"] "channel_groups must be a sequence"
            else
              validate_io_against_channel_groups Y io groups [];;
              for_each (λ ig : nat * node, validate_channel_group Y ig.1 ig.2) (imap pair (elements_of groups))
          else mret tt) u ↔
  ∀ g, groups = Some g → ∃ gs names, g = YSeq gs ∧
    res_map (λ e, field_string Y e "name") (elements_of io) = Ok names ∧
    Forall (group_covered names) gs ∧ Forall (λ g, ∃ cp tys, group_shape g cp tys) gs.
Proof.
  destruct groups as [g|]; [|destruct u; change (is_defined None) with false; cbv iota; rewrite passes_ret; naive_solver].
  change (is_defined (Some g)) with true. cbv iota.
  transitivity (∃ gs names, g = YSeq gs ∧
    res_map (λ e, field_string Y e "name") (elements_of io) = Ok names ∧
    Forall (group_covered names) gs ∧ Forall (λ g, ∃ cp tys, group_shape g cp tys) gs);
    [|split; [intros H ? [= <-]; exact H|by intros H; apply H]].
  destruct g as [| |gs|]; cbn [is_defined is_sequence negb andb];
    try (rewrite passes_error; split; [done|by intros (? & ? & ? & _)]).
  rewrite passes_seq, io_groups_exact by apply _. cbn [elements_of].
  rewrite (passes_indexed _ (λ g, ∃ cp tys, group_shape g cp tys)).
  - split; [intros [(names & ? & ?) ?]; by exists gs, names|].
    intros (? & names & [= <-] & ? & ? & ?). split; [by exists names|done].
  - intros i y. apply channel_group_exact.
Qed.

Lemma api_exact root u : passes (check_instrument_api Y root) u ↔ api_ok root.
Proof.
  unfold check_instrument_api. cbn [at_node]. rewrite passes_seq, require_root, !Forall_cons by apply _.
  destruct (is_scalar (Some root)) eqn:Hr.
  { destruct root; [done| |done..]. split; [by intros [([? ?] & _) _]|by intros [[[? ?] _] _ _ _]]. }
  rewrite (passes_get _ _ _ _ (value_at_field _ "io" Hr)), passes_seq, io_exact by apply _.
  rewrite (passes_get _ _ _ _ (value_at_field _ "channel_groups" Hr)), passes_seq, groups_exact by apply _.
  rewrite (passes_get _ _ _ _ (value_at_field _ "commands" Hr)).
  assert (∀ cs, passes (for_each (validate_command Y (Some (YMap cs))) (pairs_of (Some (YMap cs)))) u ↔
                Forall (λ kv, command_ok cs kv.1 kv.2) cs) as Hcs.
  { intros cs. cbn [pairs_of]. rewrite passes_for_each, Forall_fmap by apply _.
    apply Forall_iff. intros [k v]. apply command_exact. }
  split.
  - intros [(Hv & Hi & Hp & _ & [cs Hc] & _) (Hio & Hg & H)]. rewrite Hc in H.
    destruct cs as [| | |cs]; try by apply passes_error in H.
    split; [done..|]. exists cs. split; [done|]. by apply Hcs.
  - intros [(Hv & Hi & Hp) Hio Hg (cs & Hc & H)]. rewrite Hc. split.
    + destruct Hio as (ios & Hios & _). split_and!; first [done|by exists (YMap cs)|by exists (YSeq ios)|constructor].
    + split_and!; [done..|]. by apply Hcs.
Qed.

(** *** Quantum dot devices *)

Lemma passes_fold_map {S A B} (f : S → B → check S) {Lf : ∀ s b, Logs (f s b)} (h : A → B)
  (ok : A → Prop) (g : S → A → S) l s s' :
  (∀ s a s', passes (f s (h a)) s' ↔ ok a ∧ s' = g s a) →
  passes (for_fold f s (h <$> l)) s' ↔ Forall ok l ∧ s' = foldl g s l.
Proof.
  intros Hf. revert s. induction l as [|a l IH]; intros s; cbn [for_fold foldl fmap list_fmap].
  { rewrite passes_ret, Forall_nil. naive_solver. }
  rewrite passes_bind by apply _. rewrite Forall_cons. split.
  - intros (t & [Ha ->]%Hf & [Hl ->]%IH). done.
  - intros [[Ha Hl] ->]. exists (g s a). split; [by apply Hf|]. by apply IH.
Qed.

Lemma passes_fold {S A} (f : S → A → check S) {Lf : ∀ s a, Logs (f s a)} (ok : A → Prop) (g : S → A → S) l s s' :
  (∀ s a s', passes (f s a) s' ↔ ok a ∧ s' = g s a) →
  passes (for_fold f s l) s' ↔ Forall ok l ∧ s' = foldl g s l.
Proof. intros Hf. rewrite <-(list_fmap_id l) at 1. by apply passes_fold_map. Qed.

(** Barriers and plungers in turn, barriers at both ends. *)
Inductive dot_center (B P : list string) : list string → Prop :=
| dot_one b : b ∈ B → dot_center B P [b]
| dot_more b p l : b ∈ B → p ∈ P → dot_center B P l → dot_center B P (b :: p :: l).

(** An ohmic and a reservoir gate at either end, the dots between them. *)
Inductive dot_order (G : string → list string) : list string → Prop :=
| dot_order_intro o1 r1 l r2 o2 :
    o1 ∈ G "Ohmics" → r1 ∈ G "ReservoirGates" → dot_center (G "BarrierGates") (G "PlungerGates") l →
    r2 ∈ G "ReservoirGates" → o2 ∈ G "Ohmics" → dot_order G (o1 :: r1 :: l ++ [r2; o2]).

Definition center_type (i : nat) : string := if bool_decide (i `mod` 2 = 0) then "BarrierGates" else "PlungerGates".
Definition center_count (pb : nat * nat) (i : nat) : nat * nat :=
  if bool_decide (i `mod` 2 = 0) then (pb.1, S pb.2) else (S pb.1, pb.2).

Lemma center_exact gg path order pb :
  passes (check_center gg path order) pb ↔
  Forall (λ i, entry_at order i ∈ gates_of gg (center_type i)) (seq 2 (length order - 4)) ∧
  pb = foldl center_count (0, 0) (seq 2 (length order - 4)).
Proof.
  unfold check_center. apply passes_fold; [intros [] ?; apply _|]. intros [p b] i s'.
  unfold center_type, center_count. case_bool_decide;
    rewrite passes_seq, passes_unless, passes_ret by apply _; unfold is_gate;
    rewrite bool_decide_eq_true; cbn; naive_solver.
Qed.

(** The middle part alternates exactly if every entry has the gate type of its
    position and the numbers of both differ by one. *)
Lemma center_alternates (G : string → list string) l k p b :
  k `mod` 2 = 0 →
  (let pb := foldl center_count (p, b) (seq k (length l)) in pb.2 + p = pb.1 + b + 1) ∧
  (∀ i x, l !! i = Some x → x ∈ G (center_type (k + i))) ↔
  dot_center (G "BarrierGates") (G "PlungerGates") l.
Proof.
  intros Hk. remember (length l) as n eqn:Hn. revert l k p b Hk Hn.
  induction (lt_wf n) as [n _ IH]; intros l k p b Hk Hn.
  assert (center_type k = "BarrierGates") as Hb by (unfold center_type; by rewrite bool_decide_true).
  assert (center_type (S k) = "PlungerGates") as Hp.
  { unfold center_type. rewrite bool_decide_false; [done|].
    rewrite <-Nat.add_1_r, Nat.Div0.add_mod, Hk. done. }
  destruct l as [|x [|y l]]; cbn in Hn; subst n.
  - split; [intros [H _]; cbn in H; lia|inversion 1].
  - split.
    + intros [_ H]. constructor. specialize (H 0 x eq_refl). by rewrite Nat.add_0_r, Hb in H.
    + inversion 1; subst. split.
      * cbn. unfold center_count. rewrite bool_decide_true by done. cbn. lia.
      * intros [|i] z Hz; [|done]. injection Hz as <-. by rewrite Nat.add_0_r, Hb.
  - assert (S (S k) `mod` 2 = 0) as Hk2.
    { replace (S (S k)) with (k + 1 * 2) by lia. by rewrite Nat.Div0.mod_add. }
    pose proof (IH (length l) ltac:(lia) l (S (S k)) (S p) (S b) Hk2 eq_refl) as IHl.
    cbn [seq foldl length].
    replace (center_count (center_count (p, b) k) (S k)) with (S p, S b).
    2: { unfold center_count. rewrite (bool_decide_true (k `mod` 2 = 0)) by done. rewrite bool_decide_false; [done|].
         intros E. unfold center_type in Hp. by rewrite bool_decide_true in Hp. }
    destruct (foldl center_count (S p, S b) (seq (S (S k)) (length l))) as [p' b'] eqn:E. cbn in IHl |- *.
    split.
    + intros [Hc H]. constructor.
      * specialize (H 0 x eq_refl). by rewrite Nat.add_0_r, Hb in H.
      * specialize (H 1 y eq_refl). by rewrite Nat.add_1_r, Hp in H.
      * apply IHl. split; [lia|]. intros i z Hz. specialize (H (S (S i)) z Hz).
        replace (k + S (S i)) with (S (S (k + i))) in H by lia. done.
    + inversion 1 as [|? ? ? Hx Hy Hl]; subst. apply IHl in Hl as [Hc Hl]. split; [lia|].
      intros [|[|i]] z Hz.
      * injection Hz as <-. by rewrite Nat.add_0_r, Hb.
      * injection Hz as <-. by rewrite Nat.add_1_r, Hp.
      * cbn in Hz. specialize (Hl i z Hz). by replace (k + S (S i)) with (S (S (k + i))) by lia.
Qed.

Lemma dot_center_ne B P l : dot_center B P l → l ≠ [].
Proof. by destruct 1. Qed.

(** The last two of at least four entries. *)
Lemma ends_of {A} (order : list A) : 5 ≤ length order →
  ∃ o1 r1 l r2 o2, order = o1 :: r1 :: l ++ [r2; o2].
Proof.
  destruct order as [|o1 [|r1 order]]; cbn; [lia..|]. intros H.
  destruct (exists_last (l := order)) as (l & o2 & ->); [by destruct order; cbn in *; [lia|]|].
  rewrite length_app in H. destruct (exists_last (l := l)) as (l' & r2 & ->); [destruct l; cbn in *; [lia|done]|].
  exists o1, r1, l', r2, o2. by rewrite <-app_assoc.
Qed.

Definition ends (o1 r1 : string) (l : list string) (r2 o2 : string) : list string := o1 :: r1 :: l ++ [r2; o2].

Lemma length_ends o1 r1 l r2 o2 : length (ends o1 r1 l r2 o2) = length l + 4.
Proof. cbn. rewrite length_app. cbn. lia. Qed.

Lemma entry_ends o1 r1 l r2 o2 i :
  entry_at (ends o1 r1 l r2 o2) (S (S i)) = default EmptyString ((l ++ [r2; o2]) !! i).
Proof. done. Qed.

Lemma entry_ends_last o1 r1 l r2 o2 : entry_at (ends o1 r1 l r2 o2) (length l + 3) = o2.
Proof.
  replace (length l + 3) with (S (S (length l + 1))) by lia.
  rewrite entry_ends, lookup_app_r by lia. by replace (length l + 1 - length l) with 1 by lia.
Qed.

Lemma entry_ends_before_last o1 r1 l r2 o2 : entry_at (ends o1 r1 l r2 o2) (length l + 2) = r2.
Proof.
  replace (length l + 2) with (S (S (length l + 0))) by lia.
  rewrite entry_ends, lookup_app_r by lia. by replace (length l + 0 - length l) with 0 by lia.
Qed.

Lemma entry_ends_center o1 r1 l r2 o2 i x : l !! i = Some x → entry_at (ends o1 r1 l r2 o2) (2 + i) = x.
Proof. intros Hi. cbn [Nat.add]. rewrite entry_ends. by rewrite (lookup_app_l_Some _ _ _ _ Hi). Qed.

Lemma center_ends_exact gg path o1 r1 l r2 o2 u :
  passes ('(plunger_count, barrier_count) ← check_center gg path (ends o1 r1 l r2 o2);
          if bool_decide (barrier_count = plunger_count + 1) then mret tt
          else add_error path "There must be exactly one more BarrierGate than PlungerGate in the Order") u ↔
  dot_center (gates_of gg "BarrierGates") (gates_of gg "PlungerGates") l.
Proof.
  rewrite passes_bind by apply _. rewrite <-(center_alternates (gates_of gg) l 2 0 0 eq_refl). cbv zeta.
  pose proof (center_exact gg path (ends o1 r1 l r2 o2)) as Hce.
  rewrite length_ends in Hce. replace (length l + 4 - 4) with (length l) in Hce by lia.
  assert (Forall (λ i, entry_at (ends o1 r1 l r2 o2) i ∈ gates_of gg (center_type i)) (seq 2 (length l)) ↔
          (∀ i x, l !! i = Some x → x ∈ gates_of gg (center_type (2 + i)))) as HF.
  { rewrite Forall_forall. split.
    - intros H i x Hi. rewrite <-(entry_ends_center o1 r1 l r2 o2 i x Hi). apply H, elem_of_seq.
      apply lookup_lt_Some in Hi. lia.
    - intros H j Hj%elem_of_seq. destruct (lookup_lt_is_Some_2 l (j - 2)) as [x Hx]; [lia|].
      replace j with (2 + (j - 2)) by lia. rewrite (entry_ends_center _ _ _ _ _ _ _ Hx). by apply H. }
  destruct (foldl center_count (0, 0) (seq 2 (length l))) as [p b]. cbn [fst snd]. split.
  - intros (pb & [Hl ->]%Hce & H). apply passes_unless, bool_decide_eq_true in H. split; [lia|by apply HF].
  - intros [Hc Hl%HF]. exists (p, b). split; [by apply Hce|]. apply passes_unless, bool_decide_eq_true. lia.
Qed.

Lemma short_order gg path order u : ¬ 5 ≤ length order → ¬ passes (check_order gg path order) u.
Proof.
  intros Hlen. unfold check_order. case_bool_decide; [by intros ?%passes_error|].
  rewrite !passes_seq by apply _. intros (_ & _ & _ & _ & H'). rewrite passes_bind in H' by apply _.
  destruct H' as ([p b] & [_ Hc]%center_exact & H'). apply passes_unless, bool_decide_eq_true in H'.
  replace (length order - 4) with 0 in Hc by lia. by simplify_eq/=.
Qed.

Lemma order_exact gg path order u :
  passes (check_order gg path order) u ↔ dot_order (gates_of gg) order.
Proof.
  destruct (decide (5 ≤ length order)) as [Hlen|Hlen].
  2: { split; [by intros ?%short_order|]. destruct 1 as [? ? l ? ? _ _ Hc%dot_center_ne].
       fold (ends o1 r1 l r2 o2) in Hlen. rewrite length_ends in Hlen. destruct l; cbn in Hlen; [done|lia]. }
  destruct (ends_of order Hlen) as (o1 & r1 & l & r2 & o2 & ->). clear Hlen.
  fold (ends o1 r1 l r2 o2). unfold check_order. cbv zeta. rewrite length_ends.
  rewrite bool_decide_false by lia. rewrite !passes_seq, !passes_unless by apply _.
  replace (length l + 4 - 1) with (length l + 3) by lia. replace (length l + 4 - 2) with (length l + 2) by lia.
  rewrite entry_ends_last, entry_ends_before_last. rewrite center_ends_exact. unfold is_gate.
  rewrite !bool_decide_eq_true. unfold ends at 1 2, entry_at. cbn [lookup list_lookup default]. split.
  - intros (? & ? & ? & ? & ?). by constructor.
  - intros Hd. remember (ends o1 r1 l r2 o2) as order eqn:E. destruct Hd as [o1' r1' l' r2' o2' ? ? ? ? ?].
    injection E as -> -> E. apply app_inj_2 in E as [-> [= -> ->]]; done.
Qed.

Definition group_gate_types : list string := ["ScreeningGates"; "ReservoirGates"; "PlungerGates"; "BarrierGates"].

(** The gates an entry lists. *)
Definition listed (y : yaml) (type : string) : list string :=
  match field y type with Some (YScalar s) => split_semicolon s | _ => [] end.

Record device_group_ok (G : string → list string) (k v : yaml) : Prop := {
  dg_name : ∃ name, as_string Y k = Ok name;
  dg_has : Forall (has v) (["Name"; "NumDots"] ++ group_gate_types ++ ["Order"]);
  dg_gates : ∀ type gate, type ∈ group_gate_types → gate ∈ listed v type → gate ∈ G type;
  dg_order : ∀ s, field v "Order" = Some (YScalar s) → dot_order G (split_semicolon s)
}.

Lemma group_gates_exact gg path v used used' :
  is_scalar (Some v) = false →
  passes (check_group_gates Y gg path (Some v) used) used' ↔
  (∀ type gate, type ∈ group_gate_types → gate ∈ listed v type → gate ∈ gates_of gg type) ∧
  used' = used ++ concat (listed v <$> group_gate_types).
Proof.
  intros Hv. unfold check_group_gates. fold group_gate_types.
  rewrite (passes_fold _ (λ type, Forall (.∈ gates_of gg type) (listed v type)) (λ u t, u ++ listed v t)).
  - rewrite Forall_forall. setoid_rewrite Forall_forall. f_equiv; [naive_solver|].
    cbn. by rewrite <-!app_assoc, app_nil_r.
  - intros s type s'. cbn [at_const]. rewrite (passes_get _ _ _ _ (value_at_field _ _ Hv)). unfold listed.
    destruct (field v type) as [[|t| |]|]; cbn [is_scalar];
      try (rewrite passes_ret, app_nil_r, Forall_nil; naive_solver).
    rewrite (passes_get _ _ _ _ (node_string_scalar Y _ t eq_refl)), passes_seq, passes_for_each, passes_ret by apply _.
    f_equiv; [|naive_solver]. apply Forall_iff. intros gate. rewrite passes_unless. apply bool_decide_eq_true.
Qed.

Lemma order_field_exact gg path v u :
  passes (if is_scalar v then s ← lift (node_string Y v); check_order gg path (split_semicolon s) else mret tt) u ↔
  ∀ s, v = Some (YScalar s) → dot_order (gates_of gg) (split_semicolon s).
Proof.
  destruct v as [[|s| |]|]; cbn [is_scalar]; try (destruct u; rewrite passes_ret; naive_solver).
  rewrite (passes_get _ _ _ _ (node_string_scalar Y _ s eq_refl)), order_exact. naive_solver.
Qed.

Lemma device_group_exact gg k v used used' :
  passes (check_group Y gg used (Some k, Some v)) used' ↔
  device_group_ok (gates_of gg) k v ∧ used' = used ++ concat (listed v <$> group_gate_types).
Proof.
  unfold check_group. cbv zeta. cbn [fst snd node_string at_const].
  destruct (as_string Y k) as [name|e|] eqn:Hk;
    [|split; [by intros (? & ? & _)%passes_got|by intros [[[? ?] ? ? ?] ?]; congruence]..].
  rewrite (passes_get _ _ _ _ eq_refl), passes_seq, require_const by apply _.
  destruct (is_scalar (Some v)) eqn:Hv.
  { destruct v; [done| |done..]. split; [intros [H _]|intros [[_ H _ _] _]];
      by apply Forall_cons in H as [[? ?] _]. }
  rewrite passes_bind by apply _. setoid_rewrite group_gates_exact; [|done].
  split.
  - intros [Hf (u & [Hg ->] & H)]. rewrite (passes_get _ _ _ _ (value_at_field _ "Order" Hv)) in H.
    rewrite passes_seq, order_field_exact, passes_ret in H by apply _. destruct H as [H ->].
    split; [|done]. by split; [exists name|..].
  - intros [[_ Hf Hg H] ->]. split; [done|]. eexists. split; [by split|].
    rewrite (passes_get _ _ _ _ (value_at_field _ "Order" Hv)), passes_seq, order_field_exact, passes_ret by apply _.
    done.
Qed.

(** What the global part declares. *)
Definition gate_types : list string := ["ScreeningGates"; "PlungerGates"; "Ohmics"; "BarrierGates"; "ReservoirGates"].

Definition declared (global : yaml) (type : string) : list string :=
  match field global type with
  | Some v => match as_string Y v with Ok s => split_semicolon s | _ => [] end
  | None => []
  end.

Lemma parse_global_exact global gg all :
  is_scalar (Some global) = false →
  passes (parse_global Y (Some global)) (gg, all) ↔
  (∀ type, type ∈ gate_types → ∃ s, text_at global type s) ∧
  gg = foldl (λ m t, <[t := declared global t]> m) ∅ gate_types ∧ all = concat (declared global <$> gate_types).
Proof.
  intros Hg. unfold parse_global. fold gate_types.
  rewrite (passes_fold _ (λ t, ∃ s, text_at global t s)
             (λ st t, (<[t := declared global t]> st.1, st.2 ++ declared global t))).
  - rewrite Forall_forall. f_equiv. cbn. rewrite app_nil_r, <-!app_assoc. split; [by intros [= -> ->]|by intros [-> ->]].
  - intros [m al] t s'. cbn [at_const fst snd]. rewrite (passes_get _ _ _ _ (value_at_field _ _ Hg)).
    unfold text_at, declared. destruct (field global t) as [v|]; cbn [is_defined negb].
    + cbn [node_string]. destruct (as_string Y v) as [s|e|] eqn:Hs.
      * rewrite (passes_get _ _ _ _ eq_refl), passes_ret. naive_solver.
      * split; [by intros (? & ? & _)%passes_got|]. intros [(? & ? & [= <-] & ?) _]. congruence.
      * split; [by intros (? & ? & _)%passes_got|]. intros [(? & ? & [= <-] & ?) _]. congruence.
    + rewrite passes_seq, passes_error by apply _. split; [by intros []|by intros [(? & ? & ? & _) _]].
Qed.

Lemma global_not_scalar global gg all :
  passes (parse_global Y (Some global)) (gg, all) → is_scalar (Some global) = false.
Proof.
  intros H. destruct global as [|s| |]; [done| |done..]. by specialize (H (mkResult true [] [])).
Qed.

(** The map of gates the validator builds. *)
Definition gates_map (global : yaml) : gmap string (list string) :=
  foldl (λ m t, <[t := declared global t]> m) ∅ gate_types.

Lemma gates_map_lookup global t :
  gates_map global !! t = if bool_decide (t ∈ gate_types) then Some (declared global t) else None.
Proof.
  unfold gates_map, gate_types. cbn [foldl]. rewrite !lookup_insert, lookup_empty.
  repeat case_decide; subst; case_bool_decide; set_solver.
Qed.

Lemma unused_exact global used u :
  passes (check_unused (gates_map global) used) u ↔
  ∀ type gate, type ∈ group_gate_types → gate ∈ declared global type → gate ∈ used.
Proof.
  unfold check_unused. rewrite passes_for_each, Forall_forall by apply _. split.
  - intros H type gate Ht Hgate. specialize (H type). rewrite elem_of_sorted_keys, gates_map_lookup in H.
    assert (type ∈ gate_types) as Ht' by set_solver. rewrite bool_decide_true in H by done.
    specialize (H (mk_is_Some _ _ eq_refl)). rewrite bool_decide_false in H by set_solver.
    rewrite passes_for_each, Forall_forall in H by apply _. specialize (H gate).
    unfold gates_of in H. rewrite gates_map_lookup, bool_decide_true in H by done.
    specialize (H Hgate). by apply passes_unless, bool_decide_eq_true in H.
  - intros H type. rewrite elem_of_sorted_keys, gates_map_lookup. case_bool_decide as Ht; [|by intros [? ?]]. intros _.
    case_bool_decide as Ho; [by apply passes_ret|]. rewrite passes_for_each, Forall_forall by apply _.
    intros gate. unfold gates_of. rewrite gates_map_lookup, bool_decide_true by done. intros Hgate.
    apply passes_unless, bool_decide_eq_true, (H type); [set_solver|done].
Qed.

Lemma gates_of_map global t : t ∈ gate_types → gates_of (gates_map global) t = declared global t.
Proof. intros Ht. unfold gates_of. by rewrite gates_map_lookup, bool_decide_true. Qed.

Lemma dot_order_ext G G' order : (∀ t, t ∈ gate_types → G t = G' t) → dot_order G order → dot_order G' order.
Proof.
  intros HG. destruct 1 as [o1 r1 l r2 o2 ? ? Hc ? ?].
  rewrite !HG in * by set_solver. by constructor.
Qed.

Lemma device_group_ext G G' k v :
  (∀ t, t ∈ gate_types → G t = G' t) → device_group_ok G k v → device_group_ok G' k v.
Proof.
  intros HG [Hn Hh Hg Ho]. split; [done|done| |].
  - intros t gate Ht. rewrite <-HG by set_solver. auto.
  - intros s Hs. eapply dot_order_ext; eauto.
Qed.

(** The gates the groups use. *)
Definition used_by (kvs : list (yaml * yaml)) (gate : string) : Prop :=
  ∃ kv type, kv ∈ kvs ∧ type ∈ group_gate_types ∧ gate ∈ listed kv.2 type.

Lemma elem_of_used kvs used gate :
  gate ∈ foldl (λ u kv, u ++ concat (listed kv.2 <$> group_gate_types)) used kvs ↔ gate ∈ used ∨ used_by kvs gate.
Proof.
  unfold used_by. revert used. induction kvs as [|kv kvs IH]; intros used; cbn [foldl].
  { split; [by left|]. intros [H|(? & ? & H & _)]; [done|by apply elem_of_nil in H]. }
  rewrite IH, elem_of_app, elem_of_concat_fmap. setoid_rewrite elem_of_cons. split.
  - intros [[H|(t & Ht & Hg)]|(kv' & t & Hkv & Ht & Hg)]; [by left|right..]; [by exists kv, t; eauto|by exists kv', t; eauto].
  - intros [H|(kv' & t & [->|Hkv] & Ht & Hg)]; [by left; left|left; right|right]; [by exists t|by exists kv', t].
Qed.

Lemma groups_map_exact gg kvs used :
  passes (check_groups Y gg (Some (YMap kvs))) used ↔
  Forall (λ kv, device_group_ok (gates_of gg) kv.1 kv.2) kvs ∧
  used = foldl (λ u kv, u ++ concat (listed kv.2 <$> group_gate_types)) [] kvs.
Proof.
  unfold check_groups. cbn [is_defined is_map negb pairs_of].
  apply passes_fold_map; [apply _|]. intros u [k v] u'. apply device_group_exact.
Qed.

Lemma groups_are_map gg groups used :
  passes (check_groups Y gg (Some groups)) used → ∃ kvs, groups = YMap kvs.
Proof.
  destruct groups as [| | |kvs]; [..|by exists kvs]; unfold check_groups; cbn [is_defined is_map negb];
    intros H; rewrite passes_seq in H by apply _; by destruct H as [[]%passes_error _].
Qed.

(** A resistance or capacitance that is a scalar is a number that is not
    negative. *)
Definition quantity_ok (n : node) : Prop :=
  ∀ s, n = Some (YScalar s) → ∃ d, as_double Y s = Some d ∧ is_negative d = false.

Record connection_ok (k v : yaml) : Prop := {
  cn_name : ∃ name, as_string Y k = Ok name;
  cn_has : has v "resistance" ∧ has v "capacitance";
  cn_resistance : quantity_ok (field v "resistance");
  cn_capacitance : quantity_ok (field v "capacitance")
}.

Lemma quantity_exact path v key u :
  is_scalar (Some v) = false → passes (check_quantity Y path (Some v) key) u ↔ quantity_ok (field v key).
Proof.
  intros Hv. unfold check_quantity, quantity_ok. cbn [at_const]. rewrite (passes_get _ _ _ _ (value_at_field _ _ Hv)).
  destruct (field v key) as [[|s| |]|]; cbn [is_scalar]; try (destruct u; rewrite passes_ret; naive_solver).
  cbn [node_double]. destruct (as_double Y s) as [d|] eqn:Hd.
  - rewrite (passes_get _ _ _ _ eq_refl), passes_when. naive_solver.
  - split; [by intros (? & ? & _)%passes_got|]. intros H. destruct (H s eq_refl) as (? & ? & _). congruence.
Qed.

Lemma connection_exact k v u : passes (check_connection Y (Some k, Some v)) u ↔ connection_ok k v.
Proof.
  unfold check_connection. cbv zeta. cbn [fst snd node_string].
  destruct (as_string Y k) as [name|e|] eqn:Hk;
    [|split; [by intros (? & ? & _)%passes_got|by intros [[? ?] ? ? ?]; congruence]..].
  rewrite (passes_get _ _ _ _ eq_refl), !passes_seq, require_const, !Forall_cons by apply _.
  destruct (is_scalar (Some v)) eqn:Hv.
  { destruct v; [done| |done..]. split; [by intros [([? ?] & _) _]|by intros [_ [[? ?] _] _ _]]. }
  rewrite !quantity_exact by done. split; [intros ((? & ? & _) & ? & ?); split; eauto|].
  intros [_ [? ?] ? ?]. split_and!; done || constructor.
Qed.

Record device_ok (root : yaml) : Prop := {
  do_global : ∃ global, field root "global" = Some global ∧
    (∀ type, type ∈ gate_types → ∃ s, text_at global type s) ∧
    ∃ groups, field root "groups" = Some (YMap groups) ∧
      Forall (λ kv, device_group_ok (declared global) kv.1 kv.2) groups ∧
      (∀ type gate, type ∈ group_gate_types → gate ∈ declared global type → used_by groups gate) ∧
    ∃ wiring, field root "wiringDC" = Some (YMap wiring) ∧
      (wiring = [] ∨ length wiring = length (concat (declared global <$> gate_types))) ∧
      Forall (λ kv, connection_ok kv.1 kv.2) wiring
}.

Lemma wiring_exact gates w u :
  passes (check_wiring Y gates (Some w)) u ↔
  ∃ kvs, w = YMap kvs ∧ (kvs = [] ∨ length kvs = length gates) ∧ Forall (λ kv, connection_ok kv.1 kv.2) kvs.
Proof.
  unfold check_wiring. cbn [is_defined negb]. rewrite passes_seq by apply _.
  destruct w as [| | |kvs]; cbn [is_map negb];
    try (rewrite passes_error; split; [by intros []|by intros (? & ? & _)]).
  rewrite passes_when. cbn [pairs_of node_size]. rewrite passes_for_each, Forall_fmap by apply _.
  rewrite andb_false_iff, !negb_false_iff, !bool_decide_eq_true, length_zero_iff_nil.
  assert (∀ kv, passes (check_connection Y (Some kv.1, Some kv.2)) tt ↔ connection_ok kv.1 kv.2) as Hc.
  { intros kv. apply connection_exact. }
  split.
  - intros [Hl Hf]. exists kvs. split_and!; [done..|]. eapply Forall_impl; [exact Hf|]. intros kv. apply Hc.
  - intros (? & [= <-] & Hl & Hf). split; [done|]. eapply Forall_impl; [exact Hf|]. intros kv. apply Hc.
Qed.

Lemma device_exact root u : passes (check_quantum_dot_device Y root) u ↔ device_ok root.
Proof.
  unfold check_quantum_dot_device. cbn [at_node]. rewrite passes_seq, require_root, !Forall_cons by apply _.
  destruct (is_scalar (Some root)) eqn:Hr.
  { destruct root; [done| |done..]. split; [by intros [([? ?] & _) _]|by intros [(? & ? & _)]]. }
  rewrite (passes_get _ _ _ _ (value_at_field _ "global" Hr)).
  split.
  - intros [([global Hg] & [groups Hgr] & [w Hw] & _) H]. rewrite Hg in H. cbn [is_defined] in H.
    rewrite passes_bind in H by apply _. destruct H as ([gg all] & Hp & H).
    pose proof (global_not_scalar _ _ _ Hp) as Hgs.
    apply parse_global_exact in Hp as (Htext & -> & ->); [|done]. fold (gates_map global) in H.
    rewrite (passes_get _ _ _ _ (value_at_field _ "groups" Hr)), passes_bind, Hgr in H by apply _.
    destruct H as (used & Hused & H).
    destruct (groups_are_map _ _ _ Hused) as [kvs ->].
    apply groups_map_exact in Hused as [Hgroups ->].
    rewrite passes_seq, unused_exact, (passes_get _ _ _ _ (value_at_field _ "wiringDC" Hr)), Hw, wiring_exact
      in H by apply _.
    destruct H as (Hun & wiring & -> & Hlen & Hconn).
    split. exists global. split_and!; [done..|]. exists kvs. split_and!; [done| | |by exists wiring].
    + eapply Forall_impl; [exact Hgroups|]. intros kv. apply device_group_ext. intros t. apply gates_of_map.
    + intros type gate Ht Hgate. by destruct (proj1 (elem_of_used _ _ _) (Hun type gate Ht Hgate)) as [?%elem_of_nil|].
  - intros [(global & Hg & Htext & kvs & Hgr & Hgroups & Hun & wiring & Hw & Hlen & Hconn)].
    split; [split_and!; first [by eexists|constructor]|]. rewrite Hg. cbn [is_defined].
    rewrite passes_bind by apply _. exists (gates_map global, concat (declared global <$> gate_types)). split.
    { apply parse_global_exact; [|by split_and!]. destruct (Htext "Ohmics") as (s & v & Hv & _); [set_solver|].
      apply (has_not_scalar global "Ohmics"). by exists v. }
    rewrite (passes_get _ _ _ _ (value_at_field _ "groups" Hr)), passes_bind, Hgr by apply _.
    eexists. split.
    { apply groups_map_exact. split; [|done]. eapply Forall_impl; [exact Hgroups|]. intros kv.
      apply device_group_ext. intros t Ht. by rewrite gates_of_map. }
    rewrite passes_seq, unused_exact, (passes_get _ _ _ _ (value_at_field _ "wiringDC" Hr)), Hw, wiring_exact by apply _.
    split; [|by exists wiring]. intros type gate Ht Hgate. apply elem_of_used. right. eauto.
Qed.

(** *** The specification of an API *)

(** The name under which a template may use a parameter: its [name], or else
    its [io]. *)
Definition named (param : yaml) (n : string) : Prop :=
  field param "name" = Some (YScalar n) ∨
  (∀ s, field param "name" ≠ Some (YScalar s)) ∧ field param "io" = Some (YScalar n).

(** Every channel of the group has an entry for every type of the group. *)
Record group_spec (ios : list yaml) (group : yaml) : Prop := {
  gsp_covered : ∃ name cp tys lo hi,
    text_at group "name" name ∧
    field group "channel_parameter" = Some cp ∧ has cp "name" ∧ text_at cp "type" "int" ∧
    int_at cp "min" lo ∧ int_at cp "max" hi ∧ (hi < lo ∨ hi ≠ 2 ^ 31 - 1)%Z ∧
    field group "io_types" = Some (YSeq tys) ∧
    Forall (λ t, has t "suffix" ∧ has t "type" ∧ has t "role") tys ∧
    ∀ ch t, (lo ≤ ch ≤ hi)%Z → t ∈ tys →
      ∃ suffix e, text_at t "suffix" suffix ∧ e ∈ ios ∧
        text_at e "name" (name +:+ dec ch +:+ "_" +:+ suffix)
}.

(** A command in the map [cs]; only a template that is a scalar is looked at,
    and the channel group is that of the first command of the same name. *)
Record command_spec (cs : list (yaml * yaml)) (k cmd : yaml) : Prop := {
  csp_parts : ∃ cmd_name tmpl ps outs,
    as_string Y k = Ok cmd_name ∧ field cmd "template" = Some tmpl ∧
    field cmd "parameters" = Some (YSeq ps) ∧ field cmd "outputs" = Some (YSeq outs) ∧
    ∀ text, tmpl = YScalar text →
      ∃ first uses, map_get cmd_name cs = Some first ∧ (∀ s, first ≠ YScalar s) ∧
        (∀ p s, p ∈ ps → p ≠ YScalar s) ∧ matches (chars text) uses ∧
        match field first "channel_group" with
        | None => ∀ n, n ∈ uses → ∃ p, p ∈ ps ∧ named p n
        | Some (YScalar g) =>
            (∀ n, n ∈ uses → n = g ∨ ∃ p, p ∈ ps ∧ named p n) ∧ (g ≠ EmptyString → g ∈ uses)
        | Some _ => False
        end
}.

Record api_spec (root : yaml) : Prop := {
  asp_has : has root "api_version" ∧ has root "instrument" ∧ has root "protocol";
  asp_io : ∃ ios, field root "io" = Some (YSeq ios) ∧
    Forall (λ e, has e "name" ∧ has e "type" ∧ has e "role") ios ∧
    ∀ groups, field root "channel_groups" = Some groups →
      ∃ gs, groups = YSeq gs ∧ (∀ e, e ∈ ios → ∃ s, text_at e "name" s) ∧ Forall (group_spec ios) gs;
  asp_commands : ∃ cs, field root "commands" = Some (YMap cs) ∧
    ∀ k cmd, (k, cmd) ∈ cs → command_spec cs k cmd
}.

Lemma param_names_spec p l :
  param_names Y (Some p) = Ok l → (∀ s, p ≠ YScalar s) ∧ ∀ n, n ∈ l ↔ named p n.
Proof.
  unfold param_names. cbn [at_const]. destruct p as [|s|ys|kvs]; cbn [value_at mbind res_bind]; [|done|..].
  1,2: cbn; intros [= <-]; split; [done|]; intros n; unfold named; cbn; set_solver.
  intros H. split; [done|]. intros n. unfold named. cbn [field].
  destruct (map_get "name" kvs) as [[|s|?|?]|]; cbn [is_scalar] in H;
    [|rewrite (node_string_scalar Y _ s eq_refl) in H; cbn in H; injection H as <-; set_solver| | |];
    (destruct (map_get "io" kvs) as [[|t|?|?]|]; cbn [is_scalar] in H;
     [|rewrite (node_string_scalar Y _ t eq_refl) in H; cbn in H| | |];
     injection H as <-; naive_solver set_solver).
Qed.

Lemma param_names_ok p : (∀ s, p ≠ YScalar s) → ∃ l, param_names Y (Some p) = Ok l.
Proof.
  intros Hp. unfold param_names. cbn [at_const]. rewrite !value_at_field by (destruct p as [|s| |]; [done|by destruct (Hp s)|done..]).
  cbn [mbind res_bind].
  destruct (field p "name") as [[|s|?|?]|]; cbn [is_scalar];
    [|rewrite (node_string_scalar Y _ s eq_refl); by eexists| | |];
    (destruct (field p "io") as [[|t|?|?]|]; cbn [is_scalar];
     [|rewrite (node_string_scalar Y _ t eq_refl)| | |]; by eexists).
Qed.

(** The names of the parameters of a command. *)
Lemma all_names ps names :
  res_map (param_names Y) (Some <$> ps) = Ok names →
  (∀ p s, p ∈ ps → p ≠ YScalar s) ∧ ∀ n, n ∈ concat names ↔ ∃ p, p ∈ ps ∧ named p n.
Proof.
  intros H. split.
  - intros p s Hp. destruct (proj1 (res_map_all _ _) (ex_intro _ _ H) (Some p)) as [l Hl];
      [apply list_elem_of_fmap; by exists p|]. by apply (param_names_spec p l Hl).
  - intros n. rewrite <-(map_id names). change (map (λ x, x) names) with ((λ x, x) <$> names).
    rewrite elem_of_concat_fmap. split.
    + intros (l & Hl & Hn). apply (res_map_elem _ _ _ _ H) in Hl as (o & Ho & Hl).
      apply list_elem_of_fmap in Ho as (p & -> & Hp). exists p. split; [done|]. by apply (param_names_spec p l Hl).
    + intros (p & Hp & Hn). destruct (proj1 (res_map_all _ _) (ex_intro _ _ H) (Some p)) as [l Hl];
        [apply list_elem_of_fmap; by exists p|]. exists l. split; [|by apply (param_names_spec p l Hl)].
      apply (res_map_elem _ _ _ _ H). exists (Some p). split; [|done]. apply list_elem_of_fmap. by exists p.
Qed.

Lemma is_scalar_false (y : yaml) : is_scalar (Some y) = false ↔ ∀ s, y ≠ YScalar s.
Proof. destruct y as [|s| |]; split; try done. intros H. by destruct (H s). Qed.

Lemma command_spec_exact cs k cmd : command_ok cs k cmd ↔ command_spec cs k cmd.
Proof.
  split.
  - intros (cmd_name & tmpl & ps & outs & Hk & Ht & Hp & Ho & Htext). split.
    exists cmd_name, tmpl, ps, outs. split_and!; [done..|]. intros text Htx.
    destruct (Htext text Htx) as (names & first & Hn & Hf & Hs & Hok).
    destruct (all_names _ _ Hn) as [Hps Hin]. exists first, (placeholders text).
    split_and!; [done|by apply is_scalar_false|done|by apply matches_exact|].
    unfold template_ok in Hok.
    destruct (field first "channel_group") as [[|g| |]|]; try done.
    + rewrite Forall_forall in Hok. destruct Hok as [Hall Hg]. split; [|done]. intros n Hu.
      apply Hall, elem_of_cons in Hu as [->|Hu]; [by left|right; by apply Hin].
    + rewrite Forall_forall in Hok. intros n Hu. by apply Hin, Hok.
  - intros [(cmd_name & tmpl & ps & outs & Hk & Ht & Hp & Ho & Htext)].
    exists cmd_name, tmpl, ps, outs. split_and!; [done..|]. intros text Htx.
    destruct (Htext text Htx) as (first & uses & Hf & Hs & Hps & Hm & Hok).
    apply matches_exact in Hm. subst uses.
    destruct (proj2 (res_map_all (param_names Y) (Some <$> ps))) as [names Hn].
    { intros o Hin. apply list_elem_of_fmap in Hin as (p & -> & Hin).
      apply param_names_ok. intros s. by apply Hps. }
    destruct (all_names _ _ Hn) as [_ Hin]. exists names, first.
    split_and!; [done|done|by apply is_scalar_false|]. unfold template_ok.
    destruct (field first "channel_group") as [[|g| |]|]; try done.
    + destruct Hok as [Hall Hg]. split; [|done]. apply Forall_forall. intros n Hu.
      apply elem_of_cons. destruct (Hall n Hu) as [->|He]; [by left|right; by apply Hin].
    + apply Forall_forall. intros n Hu. apply Hin. by apply Hok.
Qed.

Lemma range_overflows_false lo hi : range_overflows lo hi = false ↔ (hi < lo ∨ hi ≠ 2 ^ 31 - 1)%Z.
Proof. unfold range_overflows. rewrite andb_false_iff, !bool_decide_eq_false. lia. Qed.

Lemma group_spec_exact ios names group :
  res_map (λ e, field_string Y e "name") (Some <$> ios) = Ok names →
  group_covered names group ∧ (∃ cp tys, group_shape group cp tys) ↔ group_spec ios group.
Proof.
  intros Hn.
  assert (∀ x, x ∈ names ↔ ∃ e, e ∈ ios ∧ text_at e "name" x) as Hin.
  { intros x. rewrite (res_map_elem _ _ _ _ Hn). split.
    - intros (o & Ho & Hx). apply list_elem_of_fmap in Ho as (e & -> & He). exists e.
      split; [done|]. by apply field_string_exact.
    - intros (e & He & Hx). exists (Some e). split; [apply list_elem_of_fmap; by exists e|].
      by apply field_string_exact. }
  split.
  - intros [(name & cp & lo & hi & Hname & Hcp & Hlo & Hhi & Hov & H) (cp' & tys & [? Hcp' [? ?] Hint Hty Htys])].
    simplify_eq. split. exists name, cp, tys, lo, hi. rewrite range_overflows_false in Hov.
    split_and!; [done..|]. intros ch t Hch Ht. rewrite Hty in H.
    destruct (H ch (Some t) Hch) as (suffix & Hs & He); [apply list_elem_of_fmap; by exists t|].
    apply Hin in He as (e & He & Hx). exists suffix, e. split_and!; [by apply field_string_exact|done|done].
  - intros [(name & cp & tys & lo & hi & Hname & Hcp & Hcn & Hint & Hlo & Hhi & Hov & Hty & Htys & H)].
    rewrite <-range_overflows_false in Hov. split.
    + exists name, cp, lo, hi. split_and!; [done..|]. rewrite Hty. intros ch o Hch Ho.
      apply list_elem_of_fmap in Ho as (t & -> & Ht). destruct (H ch t Hch Ht) as (suffix & e & Hs & He & Hx).
      exists suffix. split; [by apply field_string_exact|]. apply Hin. by exists e.
    + exists cp, tys. split; try done.
      * destruct Hname as (v & Hv & _). by exists v.
      * destruct Hlo as (? & ? & _), Hhi as (? & ? & _). split_and!; [done|by eexists..].
Qed.

Lemma api_spec_exact root : api_ok root ↔ api_spec root.
Proof.
  split.
  - intros [Hh (ios & Hio & Hios) Hg (cs & Hcs & Hf)]. split; [done| |].
    + exists ios. split_and!; [done..|]. intros groups Hgr.
      destruct (Hg groups Hgr) as (gs & names & -> & Hn & Hc & Hsh). exists gs. rewrite Hio in Hn. split_and!; [done| |].
      * intros e He. destruct (proj1 (res_map_all _ _) (ex_intro _ _ Hn) (Some e)) as [x Hx];
          [apply list_elem_of_fmap; by exists e|]. exists x. by apply field_string_exact.
      * rewrite !Forall_forall in *. intros g Hin. apply (group_spec_exact ios names); [done|]. auto.
    + exists cs. split; [done|]. intros k cmd Hin. rewrite Forall_forall in Hf.
      apply command_spec_exact. by apply (Hf (k, cmd)).
  - intros [Hh (ios & Hio & Hios & Hg) (cs & Hcs & Hf)]. split; [done|by exists ios| |].
    + intros groups Hgr. destruct (Hg groups Hgr) as (gs & -> & Hnames & Hsp).
      destruct (proj2 (res_map_all (λ e, field_string Y e "name") (Some <$> ios))) as [names Hn].
      { intros o Ho. apply list_elem_of_fmap in Ho as (e & -> & He). destruct (Hnames e He) as [x Hx].
        exists x. by apply field_string_exact. }
      exists gs, names. rewrite Hio. rewrite Forall_forall in Hsp.
      split_and!; [done|done|..]; apply Forall_forall; intros g Hin;
        by apply (group_spec_exact ios names g Hn), Hsp.
    + exists cs. split; [done|]. apply Forall_forall. intros [k cmd] Hin. by apply command_spec_exact, Hf.
Qed.

(** *** The specification of a device *)

(** An entry lists a gate. *)
Definition lists (y : yaml) (type gate : string) : Prop :=
  ∃ s l, field y type = Some (YScalar s) ∧ separated (chars s) l ∧ gate ∈ l.

Record device_group_spec (G : string → list string) (k v : yaml) : Prop := {
  dgs_name : ∃ name, as_string Y k = Ok name;
  dgs_has : Forall (has v) ["Name"; "NumDots"; "ScreeningGates"; "ReservoirGates"; "PlungerGates";
                            "BarrierGates"; "Order"];
  dgs_gates : ∀ type gate,
    type ∈ ["ScreeningGates"; "ReservoirGates"; "PlungerGates"; "BarrierGates"] →
    lists v type gate → gate ∈ G type;
  dgs_order : ∀ s, field v "Order" = Some (YScalar s) → ∃ order, separated (chars s) order ∧ dot_order G order
}.

(** [G] are the gates declared of each type.  The wiring is empty or has as
    many entries as gates are declared, whatever the names of the entries. *)
Record device_spec (root : yaml) : Prop := {
  dsp_parts : ∃ global G groups wiring,
    field root "global" = Some global ∧
    (∀ type, type ∈ ["ScreeningGates"; "PlungerGates"; "Ohmics"; "BarrierGates"; "ReservoirGates"] →
       ∃ s, text_at global type s ∧ separated (chars s) (G type)) ∧
    field root "groups" = Some (YMap groups) ∧
    (∀ k v, (k, v) ∈ groups → device_group_spec G k v) ∧
    (∀ type gate, type ∈ ["ScreeningGates"; "ReservoirGates"; "PlungerGates"; "BarrierGates"] →
       gate ∈ G type → ∃ k v type', (k, v) ∈ groups ∧
         type' ∈ ["ScreeningGates"; "ReservoirGates"; "PlungerGates"; "BarrierGates"] ∧ lists v type' gate) ∧
    field root "wiringDC" = Some (YMap wiring) ∧
    (wiring = [] ∨
     length wiring = length (G "ScreeningGates") + length (G "PlungerGates") + length (G "Ohmics") +
                     length (G "BarrierGates") + length (G "ReservoirGates")) ∧
    (∀ k v, (k, v) ∈ wiring → connection_ok k v)
}.

Lemma lists_listed y type gate : lists y type gate ↔ gate ∈ listed y type.
Proof.
  unfold lists, listed. destruct (field y type) as [[|s| |]|];
    try (split; [by intros (? & ? & ? & _)|by intros ?%elem_of_nil]).
  split.
  - intros (? & l & [= <-] & <-%separated_exact & Hg). done.
  - intros Hg. exists s, (split_semicolon s). split_and!; [done|by apply separated_exact|done].
Qed.

Lemma device_group_spec_exact G k v : device_group_ok G k v ↔ device_group_spec G k v.
Proof.
  split.
  - intros [Hn Hh Hg Ho]. split; [done|done| |].
    + intros type gate Ht Hl. apply (Hg type gate Ht). by apply lists_listed.
    + intros s Hs. exists (split_semicolon s). split; [by apply separated_exact|by apply Ho].
  - intros [Hn Hh Hg Ho]. split; [done|done| |].
    + intros type gate Ht Hl. apply (Hg type gate Ht). by apply lists_listed.
    + intros s Hs. destruct (Ho s Hs) as (order & <-%separated_exact & Hd). done.
Qed.

Lemma declared_exact global type s l :
  text_at global type s → separated (chars s) l → declared global type = l.
Proof.
  intros (v & Hv & Hs) <-%separated_exact. unfold declared. by rewrite Hv, Hs.
Qed.

Lemma used_by_exact groups gate :
  used_by groups gate ↔
  ∃ k v type, (k, v) ∈ groups ∧
    type ∈ ["ScreeningGates"; "ReservoirGates"; "PlungerGates"; "BarrierGates"] ∧ lists v type gate.
Proof.
  unfold used_by. setoid_rewrite lists_listed. split.
  - intros ([k v] & type & ? & ? & ?). by exists k, v, type.
  - intros (k & v & type & ? & ? & ?). by exists (k, v), type.
Qed.

Lemma length_declared global :
  length (concat (declared global <$> gate_types)) =
  length (declared global "ScreeningGates") + length (declared global "PlungerGates") +
  length (declared global "Ohmics") + length (declared global "BarrierGates") +
  length (declared global "ReservoirGates").
Proof. cbn. rewrite !length_app. cbn. lia. Qed.

Lemma device_spec_exact root : device_ok root ↔ device_spec root.
Proof.
  split.
  - intros [(global & Hg & Ht & groups & Hgr & Hgs & Hun & wiring & Hw & Hlen & Hc)]. split.
    exists global, (declared global), groups, wiring. rewrite Forall_forall in Hgs, Hc.
    rewrite length_declared in Hlen. split_and!; [done| |done| | |done|done|].
    + intros type Hty. destruct (Ht type Hty) as [s Hs]. exists s. split; [done|].
      apply separated_exact. destruct Hs as (v & Hv & Hs). unfold declared. by rewrite Hv, Hs.
    + intros k v Hin. apply device_group_spec_exact. by apply (Hgs (k, v)).
    + intros type gate Hty Hgate. apply used_by_exact. by apply (Hun type).
    + intros k v Hin. by apply (Hc (k, v)).
  - intros [(global & G & groups & wiring & Hg & Ht & Hgr & Hgs & Hun & Hw & Hlen & Hc)].
    assert (∀ t, t ∈ gate_types → G t = declared global t) as HG.
    { intros t Hin. destruct (Ht t Hin) as (s & Hs & Hsep). symmetry. by eapply declared_exact. }
    split. exists global. split_and!; [done| |].
    { intros type Hty. destruct (Ht type Hty) as (s & Hs & _). by exists s. }
    exists groups. split_and!; [done| | |].
    + apply Forall_forall. intros [k v] Hin. apply (device_group_ext G); [done|].
      by apply device_group_spec_exact, Hgs.
    + intros type gate Hty. rewrite <-HG by set_solver. intros Hgate. apply used_by_exact. by apply (Hun type).
    + exists wiring. rewrite length_declared.
      rewrite <-(HG "ScreeningGates"), <-(HG "PlungerGates"), <-(HG "Ohmics"), <-(HG "BarrierGates"),
        <-(HG "ReservoirGates") by set_solver. split_and!; [done|done|].
      apply Forall_forall. intros [k v] Hin. by apply Hc.
Qed.

(** ** The verdicts *)

Lemma accepts_load (load : string → res yaml) path (f : yaml → check unit) {Lf : ∀ y, Logs (f y)} (ok : yaml → Prop) :
  (∀ root, passes (f root) tt ↔ ok root) →
  accepts (run_validator (root ← lift (load path); f root)) ↔ ∃ root, load path = Ok root ∧ ok root.
Proof.
  intros Hok. rewrite accepts_run by apply _. split.
  - intros (root & Hl & H%Hok)%passes_got. by exists root.
  - intros (root & Hl & H). rewrite (passes_get _ _ _ _ Hl). by apply Hok.
Qed.




End Accepted.

(** ** Examples *)

Definition obj (kvs : list (string * yaml)) : yaml := YMap ((λ kv, (YScalar kv.1, kv.2)) <$> kvs).
Definition text (s : string) : yaml := YScalar s.

Definition sample_api : yaml :=
  obj [("api_version", text "1.0"); ("instrument", YNull); ("protocol", obj [("type", text "VISA")]);
       ("io", YSeq [obj [("name", text "ch1_v"); ("type", text "float"); ("role", text "output")];
                    obj [("name", text "ch2_v"); ("type", text "float"); ("role", text "output")]]);
       ("channel_groups", YSeq [
          obj [("name", text "ch");
               ("channel_parameter", obj [("name", text "n"); ("type", text "int"); ("min", text "1"); ("max", text "2")]);
               ("io_types", YSeq [obj [("suffix", text "v"); ("type", text "float"); ("role", text "output")]])]]);
       ("commands", obj [
          ("READ", obj [("template", text "MEAS{ch}:{range}?"); ("channel_group", text "ch");
                        ("parameters", YSeq [obj [("name", text "range")]]); ("outputs", YSeq [text "v"])])])].

Definition sample_configuration : yaml :=
  obj [("name", text "DMM1"); ("api_ref", text "dmm.yaml"); ("connection", obj [("type", text "VISA")]);
       ("io_config", obj [("ch1_v", obj [("type", text "float"); ("role", text "output"); ("scale", text "1")])])].

Definition sample_device (order : string) : yaml :=
  obj [("global", obj [("ScreeningGates", text "S1"); ("PlungerGates", text "P1"); ("Ohmics", text "O1;O2");
                       ("BarrierGates", text "B1;B2"); ("ReservoirGates", text "R1;R2")]);
       ("groups", obj [("g1", obj [("Name", text "g1"); ("NumDots", text "1"); ("ScreeningGates", text "S1");
                                   ("ReservoirGates", text "R1;R2"); ("PlungerGates", text "P1");
                                   ("BarrierGates", text "B1;B2"); ("Order", text order)])]);
       ("wiringDC", YMap [])].

Definition only (y : yaml) (path : string) : res yaml := Ok y.




(** An order of three entries has "at least 3 entries" and is never accepted. *)
Example three_entries_rejected :
  (vr_errors <$> validate_quantum_dot_device plain_yaml (only (sample_device "O1;R1;O2")) "dot.yaml") =
  Ok [mkError "/groups/g1" "There must be exactly one more BarrierGate than PlungerGate in the Order" 0 0].
Proof. vm_compute. reflexivity. Qed.

(** A validator's output and exit code. *)
Example validator_main_ok :
  api_validator_main plain_yaml (only sample_api) "validate-instrument-api" ["api.yaml"] =
  Ok ("Validation succeeded." +:+ String LF EmptyString, 0%Z).
Proof. vm_compute. reflexivity. Qed.
