(* ===== verification/ApiTools.v ===== *)
(** * Tools for instrument APIs

    Model of the template expander (src/src/template_expander.cpp), which writes
    out the IO entries of channel groups, and of the configuration generator
    (src/src/instrument_configuration_generator.cpp).  Both end with an uncaught
    exception when the YAML library throws: [Exn].  Documents are trees: an alias
    in a file stands for a copy. *)

From S2P Require Import Prelude Text Json Yaml SchemaValidator SchemaAccepts.
From Stdlib Require Import Lia.

Section Tools.
Context (Y : YamlApi).

(** [root[key]] on a document that can be changed makes a map of it. *)
Definition as_map (root : yaml) (key : string) : res (list (yaml * yaml)) :=
  match root with
  | YMap kvs => Ok kvs
  | YNull => Ok []
  | YSeq l => Ok (imap (λ i y, (YScalar (dec (Z.of_nat i)), y)) l)
  | YScalar _ => Exn (bad_subscript Y root key)
  end.

Definition push_back (n e : yaml) : res yaml :=
  match n with
  | YNull => Ok (YSeq [e])
  | YSeq l => Ok (YSeq (l ++ [e]))
  | _ => Exn "appending to a non-sequence"
  end.

(** [if (n[key]) entry[key] = n[key].as<std::string>();] *)
Definition copy_optional (n : node) (key : string) (entry : list (yaml * yaml)) : res (list (yaml * yaml)) :=
  v ← at_const Y n key;
  if is_defined v then s ← node_string Y v; Ok (map_put key (YScalar s) entry) else Ok entry.

(** ** The template expander *)

Definition expanded_entry (group_name : string) (ch : Z) (io_type : node) : res yaml :=
  suffix ← field_string Y io_type "suffix";
  let e := map_put "name" (YScalar (expected_name group_name ch suffix)) [] in
  type ← field_string Y io_type "type";
  let e := map_put "type" (YScalar type) e in
  role ← field_string Y io_type "role";
  let e := map_put "role" (YScalar role) e in
  e ← copy_optional io_type "description" e;
  e ← copy_optional io_type "unit" e;
  Ok (YMap e).

Definition expand_channel (group_name : string) (io_types : node) (io : yaml) (ch : Z) : res yaml :=
  res_foldl (λ io io_type, e ← expanded_entry group_name ch io_type; push_back io e) io (elements_of io_types).

Definition expand_group (io : yaml) (group : node) : res yaml :=
  group_name ← field_string Y group "name";
  min_ch ← group_limit Y group "min";
  max_ch ← group_limit Y group "max";
  io_types ← at_const Y group "io_types";
  io ← res_foldl (expand_channel group_name io_types) io (int_range min_ch max_ch);
  if range_overflows min_ch max_ch then Undef else Ok io.

Definition expand_channel_groups (root : yaml) : res yaml :=
  kvs ← as_map root "io";
  let kvs := if is_defined (map_get "io" kvs) then kvs else map_put "io" (YSeq []) kvs in
  match map_get "channel_groups" kvs with
  | None => Ok (YMap kvs)
  | Some groups =>
      io ← res_foldl expand_group (default YNull (map_get "io" kvs)) (elements_of (Some groups));
      Ok (YMap (map_put "io" io kvs))
  end.

(** The entries whose names have not been seen. *)
Fixpoint unique_entries (seen : gset string) (l : list yaml) : res (list yaml) :=
  match l with
  | [] => Ok []
  | entry :: l =>
      name ← field_string Y (Some entry) "name";
      if bool_decide (name ∈ seen) then unique_entries seen l
      else rest ← unique_entries ({[name]} ∪ seen) l; Ok (entry :: rest)
  end.

Definition deduplicate_io (root : yaml) : res yaml :=
  kvs ← as_map root "io";
  match map_get "io" kvs with
  | Some (YSeq l) => unique_io ← unique_entries ∅ l; Ok (YMap (map_put "io" (YSeq unique_io) kvs))
  | _ => Ok (YMap kvs)
  end.

Definition expand_document (root : yaml) : res yaml := r ← expand_channel_groups root; deduplicate_io r.

(** Exit code and the document written to the second file. *)
Definition expander_main (load : string → res yaml) (args : list string) : res (Z * option (string * yaml)) :=
  match args with
  | [input; output] =>
      root ← load input;
      r ← expand_document root;
      Ok (0%Z, Some (output, r))
  | _ => Ok (1%Z, None)
  end.

(** ** The configuration generator *)

(** The entry of one IO, if it has a role of a configuration. *)
Definition generated_entry (io : node) : res (option (string * yaml)) :=
  role ← field_string Y io "role";
  if bool_decide (role = "input") || bool_decide (role = "output") || bool_decide (role = "inout") then
    name ← field_string Y io "name";
    type ← field_string Y io "type";
    let e := map_put "role" (YScalar role) (map_put "type" (YScalar type) []) in
    e ← copy_optional io "unit" e;
    Ok (Some (name, YMap (map_put "scale" (YScalar "1") (map_put "offset" (YScalar "0") e))))
  else Ok None.

(** [io_config[name] = io_entry], where [io_config] is null at first. *)
Definition store_entry (io_config : yaml) (e : option (string * yaml)) : yaml :=
  match e with
  | None => io_config
  | Some (name, entry) =>
      YMap (map_put name entry (match io_config with YMap kvs => kvs | _ => [] end))
  end.

Definition generate_instrument_configuration (load : string → res yaml) (api_yaml_path : string) : res yaml :=
  api ← load api_yaml_path;
  ios ← at_node Y (Some api) "io";
  io_config ← res_foldl (λ c io, e ← generated_entry io; Ok (store_entry c e)) YNull (elements_of ios);
  Ok (YMap [(YScalar "name", YScalar "INSTRUMENT_NAME"); (YScalar "api_ref", YScalar api_yaml_path);
            (YScalar "connection", YMap [(YScalar "type", YScalar "VISA");
                                         (YScalar "address", YScalar "TCPIP::192.168.0.1::INSTR::0")]);
            (YScalar "io_config", io_config)]).

Definition generator_main (load : string → res yaml) (args : list string) : res (Z * option (string * yaml)) :=
  match args with
  | [api_path; config_path] =>
      config ← generate_instrument_configuration load api_path;
      Ok (0%Z, Some (config_path, config))
  | _ => Ok (1%Z, None)
  end.

(** ** What expanding adds

    The entries of the groups do not depend on those that are there: expanding
    appends them. *)

Definition push_all (io : yaml) (es : list yaml) : res yaml := res_foldl push_back io es.

Definition channel_entries (group_name : string) (io_types : node) (ch : Z) : res (list yaml) :=
  res_map (expanded_entry group_name ch) (elements_of io_types).

Definition group_entries (group : node) : res (list yaml) :=
  group_name ← field_string Y group "name";
  min_ch ← group_limit Y group "min";
  max_ch ← group_limit Y group "max";
  io_types ← at_const Y group "io_types";
  es ← res_map (channel_entries group_name io_types) (int_range min_ch max_ch);
  if range_overflows min_ch max_ch then Undef else Ok (concat es).

Definition all_entries (groups : node) : res (list yaml) :=
  es ← res_map group_entries (elements_of groups); Ok (concat es).

Lemma push_all_app io es es' : push_all io (es ++ es') = (io' ← push_all io es; push_all io' es').
Proof.
  revert io. induction es as [|e es IH]; intros io; [done|]. cbn. destruct (push_back io e); cbn; [apply IH|done..].
Qed.

Lemma push_all_seq l es : push_all (YSeq l) es = Ok (YSeq (l ++ es)).
Proof.
  revert l. induction es as [|e es IH]; intros l; cbn; [by rewrite app_nil_r|].
  unfold push_all in IH. by rewrite IH, <-app_assoc.
Qed.

(** Pushing nothing changes nothing; pushing something gives a sequence that ends
    with it. *)
Lemma push_all_inv io es io' :
  push_all io es = Ok io' → (es = [] ∧ io' = io) ∨ ∃ l, io' = YSeq (l ++ es).
Proof.
  destruct es as [|e es]; cbn; [intros [= <-]; by left|]. intros H. right.
  destruct io as [|s|l|kvs]; cbn in H; [|done| |done];
    rewrite (push_all_seq _ es : res_foldl _ _ _ = _) in H; injection H as <-.
  - by exists [].
  - exists l. by rewrite <-app_assoc.
Qed.

Definition appends {A} (F : yaml → A → res yaml) (f : A → res (list yaml)) : Prop :=
  ∀ io a io', F io a = Ok io' ↔ ∃ es, f a = Ok es ∧ push_all io es = Ok io'.

Lemma appends_foldl {A} (F : yaml → A → res yaml) f io l io' :
  appends F f →
  res_foldl F io l = Ok io' ↔ ∃ ess, res_map f l = Ok ess ∧ push_all io (concat ess) = Ok io'.
Proof.
  intros HF. revert io. induction l as [|a l IH]; intros io; cbn.
  { split; [intros [= ->]; by exists []|intros (? & [= <-] & H); exact H]. }
  split.
  - destruct (F io a) as [io1|e|] eqn:Ha; cbn; [|done..]. intros (ess & Hl & Hp)%IH.
    apply HF in Ha as (es & -> & Hes). rewrite Hl. cbn. exists (es :: ess). split; [done|].
    cbn. by rewrite push_all_app, Hes.
  - intros (ess & H & Hp). destruct (f a) as [es|e|] eqn:Ha; cbn in H; [|done..].
    destruct (res_map f l) as [ess'|e|] eqn:Hl; cbn in H; [|done..]. injection H as <-. cbn in Hp.
    rewrite push_all_app in Hp. destruct (push_all io es) as [io1|e|] eqn:Hes; cbn in Hp; [|done..].
    rewrite (proj2 (HF io a io1)); [|by exists es]. cbn. apply IH. by exists ess'.
Qed.

Lemma concat_singletons {A} (l : list A) : concat (map (λ x, [x]) l) = l.
Proof. induction l as [|x l IH]; [done|]. cbn. by f_equal. Qed.

Lemma res_map_singletons {A B} (f : A → res B) l :
  res_map (λ a, b ← f a; Ok [b]) l = (bs ← res_map f l; Ok (map (λ b, [b]) bs)).
Proof.
  induction l as [|a l IH]; [done|]. cbn [res_map]. rewrite IH.
  by destruct (f a), (res_map f l).
Qed.

Lemma expand_channel_appends group_name io_types :
  appends (expand_channel group_name io_types) (channel_entries group_name io_types).
Proof.
  intros io ch io'. unfold expand_channel, channel_entries.
  rewrite (appends_foldl _ (λ t, e ← expanded_entry group_name ch t; Ok [e])).
  - rewrite res_map_singletons.
    destruct (res_map _ _) as [es|e|]; cbn; [|split; by intros (? & ? & _)..].
    split; intros (x & [= <-] & H); eexists; (split; [done|]); by rewrite ?concat_singletons in *.
  - intros io1 t io2. destruct (expanded_entry group_name ch t) as [e|e|]; cbn;
      [|split; [done|by intros (? & ? & _)]..].
    split; [intros H; exists [e]; split; [done|]; cbn; by rewrite H|].
    intros (? & [= <-] & H). cbn in H. destruct (push_back io1 e); cbn in H; [done|done..].
Qed.

Lemma expand_group_appends : appends expand_group group_entries.
Proof.
  intros io group io'. unfold expand_group, group_entries.
  destruct (field_string Y group "name") as [name|e|]; cbn; [|split; [done|by intros (? & ? & _)]..].
  destruct (group_limit Y group "min") as [lo|e|]; cbn; [|split; [done|by intros (? & ? & _)]..].
  destruct (group_limit Y group "max") as [hi|e|]; cbn; [|split; [done|by intros (? & ? & _)]..].
  destruct (at_const Y group "io_types") as [tys|e|]; cbn; [|split; [done|by intros (? & ? & _)]..].
  pose proof (appends_foldl _ _ io (int_range lo hi) io' (expand_channel_appends name tys)) as H.
  destruct (range_overflows lo hi).
  - split; [by destruct (res_foldl _ _ _)|]. intros (es & Hes & _). by destruct (res_map _ _).
  - transitivity (res_foldl (expand_channel name tys) io (int_range lo hi) = Ok io').
    { by destruct (res_foldl _ _ _). }
    rewrite H. destruct (res_map _ _) as [ess|e|]; cbn; [|split; by intros (? & ? & _)..].
    split; intros (x & [= <-] & Hp); by eexists.
Qed.

(** What the expander makes of a document. *)
Lemma expand_inv root r :
  expand_channel_groups root = Ok r →
  ∃ kvs io news io', as_map root "io" = Ok kvs ∧
    io = default (YSeq []) (map_get "io" kvs) ∧
    all_entries (map_get "channel_groups" kvs) = Ok news ∧ push_all io news = Ok io' ∧
    r = YMap (map_put "io" io' kvs).
Proof.
  unfold expand_channel_groups, all_entries. destruct (as_map root "io") as [kvs0|e|]; [|done..].
  unfold mbind at 1, res_bind at 1. cbv zeta.
  assert (∀ kvs io, map_get "io" kvs = Some io →
    match map_get "channel_groups" kvs with
    | Some groups =>
        io' ← res_foldl expand_group (default YNull (map_get "io" kvs)) (elements_of (Some groups));
        Ok (YMap (map_put "io" io' kvs))
    | None => Ok (YMap kvs)
    end = Ok r →
    ∃ news io', all_entries (map_get "channel_groups" kvs) = Ok news ∧ push_all io news = Ok io' ∧
      r = YMap (map_put "io" io' kvs)) as Hgo.
  { intros kvs io Hio. unfold all_entries. rewrite Hio. cbn [default]. destruct (map_get "channel_groups" kvs) as [groups|].
    - destruct (res_foldl _ _ _) as [io'|e|] eqn:Hf; cbn; [|done..]. intros [= <-].
      apply (appends_foldl _ _ _ _ _ expand_group_appends) in Hf as (ess & Hm & Hp).
      exists (concat ess), io'. cbn in Hm. rewrite Hm. done.
    - intros [= <-]. exists [], io. split_and!; [done..|]. by rewrite map_put_same. }
  destruct (map_get "io" kvs0) as [io|] eqn:Hio; cbn [is_defined]; intros H.
  - apply (Hgo _ _ Hio) in H as (news & io' & Hn & Hp & ->). exists kvs0, io, news, io'. by rewrite Hio.
  - apply (Hgo _ (YSeq [])) in H as (news & io' & Hn & Hp & ->); [|by rewrite map_get_put].
    exists kvs0, (YSeq []), news, io'. rewrite map_get_put in Hn. rewrite Hio, map_put_put. done.
Qed.

Lemma expand_again kvs io news io' :
  map_get "io" kvs = Some io → all_entries (map_get "channel_groups" kvs) = Ok news → push_all io news = Ok io' →
  expand_channel_groups (YMap kvs) = Ok (YMap (map_put "io" io' kvs)).
Proof.
  intros Hio Hn Hp. unfold expand_channel_groups, all_entries in *. cbn [as_map]. unfold mbind at 1, res_bind at 1.
  cbv zeta. rewrite Hio. cbn [is_defined]. rewrite Hio. change (default YNull (Some io)) with io.
  destruct (map_get "channel_groups" kvs) as [groups|].
  - destruct (res_map group_entries _) as [ess|e|] eqn:Hm; cbn in Hn; [|done..]. injection Hn as <-.
    rewrite (proj2 (appends_foldl _ _ io (elements_of (Some groups)) io' expand_group_appends)); [done|]. by exists ess.
  - cbn in Hn. injection Hn as <-. cbn in Hp. injection Hp as <-. by rewrite map_put_same.
Qed.

(** ** What deduplicating keeps *)

Definition named (e : yaml) (n : string) : Prop := field_string Y (Some e) "name" = Ok n.

Lemma unique_seen seen l :
  (∀ e, e ∈ l → ∃ n, named e n ∧ n ∈ seen) → unique_entries seen l = Ok [].
Proof.
  induction l as [|e l IH]; intros H; [done|]. cbn [unique_entries].
  destruct (H e) as (n & -> & Hn); [set_solver|]. cbn [mbind res_bind].
  rewrite bool_decide_true by done. apply IH. set_solver.
Qed.

(** The entries kept stay when entries of known names follow. *)
Lemma unique_again seen l u l2 :
  unique_entries seen l = Ok u →
  (∀ e, e ∈ l2 → ∃ n, named e n ∧ (n ∈ seen ∨ ∃ e', e' ∈ u ∧ named e' n)) →
  unique_entries seen (u ++ l2) = Ok u.
Proof.
  revert seen u. induction l as [|e l IH]; intros seen u H H2; cbn [unique_entries] in H.
  { injection H as <-. apply unique_seen. intros e He.
    destruct (H2 e He) as (n & ? & [?|(? & []%elem_of_nil & _)]). by exists n. }
  destruct (field_string Y (Some e) "name") as [n|w|] eqn:Hn; cbn in H; [|done..].
  case_bool_decide as Hs; [by eapply IH|].
  destruct (unique_entries ({[n]} ∪ seen) l) as [rest|w|] eqn:Hr; cbn in H; [|done..]. injection H as <-.
  cbn [unique_entries app]. rewrite Hn. cbn [mbind res_bind]. rewrite bool_decide_false by done. erewrite IH; [done|done|].
  intros e2 He2. destruct (H2 e2 He2) as (n2 & Hn2 & Hc). exists n2. split; [done|].
  destruct Hc as [Hc|(e' & [->|He']%elem_of_cons & He'n)]; [set_solver| |by eauto].
  left. unfold named in He'n. rewrite Hn in He'n. injection He'n as <-. set_solver.
Qed.

(** Every entry has a name, and the name is kept. *)
Lemma unique_names seen l u :
  unique_entries seen l = Ok u →
  (∀ e, e ∈ l → ∃ n, named e n ∧ (n ∈ seen ∨ ∃ e', e' ∈ u ∧ named e' n)) ∧ (∀ e, e ∈ u → e ∈ l).
Proof.
  revert seen u. induction l as [|e l IH]; intros seen u H; cbn [unique_entries] in H; [injection H as <-; set_solver|].
  destruct (field_string Y (Some e) "name") as [n|w|] eqn:Hn; cbn in H; [|done..].
  case_bool_decide as Hs.
  - apply IH in H as [H1 H2]. split; [|set_solver].
    intros e' [->|?]%elem_of_cons; [by exists n; eauto|auto].
  - destruct (unique_entries ({[n]} ∪ seen) l) as [rest|w|] eqn:Hr; cbn in H; [|done..]. injection H as <-.
    apply IH in Hr as [H1 H2]. split; [|set_solver].
    intros e' [->|He']%elem_of_cons; [exists n; split; [done|]; right; exists e; set_solver|].
    destruct (H1 e' He') as (n' & Hn' & Hc). exists n'. split; [done|].
    destruct Hc as [[->%elem_of_singleton|?]%elem_of_union|(e2 & ? & ?)];
      [right; exists e; set_solver|by left|right; exists e2; set_solver].
Qed.

(** The document a run of the expander leaves. *)
Lemma expand_document_inv root r :
  expand_document root = Ok r →
  ∃ kvs io news io', as_map root "io" = Ok kvs ∧
    default (YSeq []) (map_get "io" kvs) = io ∧
    all_entries (map_get "channel_groups" kvs) = Ok news ∧ push_all io news = Ok io' ∧
    ((∃ l u, io' = YSeq l ∧ unique_entries ∅ l = Ok u ∧ r = YMap (map_put "io" (YSeq u) kvs)) ∨
     (is_sequence (Some io') = false ∧ r = YMap (map_put "io" io' kvs))).
Proof.
  unfold expand_document. destruct (expand_channel_groups root) as [r1|e|] eqn:He; cbn; [|done..].
  apply expand_inv in He as (kvs & io & news & io' & Hk & -> & Hn & Hp & ->).
  unfold deduplicate_io. cbn. rewrite map_get_put, bool_decide_true by done. intros H.
  eexists kvs, _, news, io'. split_and!; [done..|].
  destruct io' as [|s|l|m]; [right; by injection H as <-| by right; injection H as <-| |by right; injection H as <-].
  left. destruct (unique_entries ∅ l) as [u|e|] eqn:Hu; cbn in H; [|done..]. injection H as <-.
  exists l, u. by rewrite map_put_put.
Qed.

(** C34. Expanding an expanded document changes nothing. *)
Theorem expander_idempotent root r : expand_document root = Ok r → expand_document r = Ok r.
Proof.
  intros (kvs & io & news & io' & _ & _ & Hn & Hp & [(l & u & -> & Hu & ->)|[Hs ->]])%expand_document_inv;
    unfold expand_document.
  - rewrite (expand_again _ (YSeq u) news (YSeq (u ++ news)));
      [|by rewrite map_get_put|by rewrite map_get_put|by rewrite push_all_seq].
    unfold mbind, res_bind, deduplicate_io. cbn [as_map]. unfold mbind, res_bind.
    rewrite map_get_put, bool_decide_true by done.
    rewrite (unique_again _ _ _ _ Hu); [by rewrite !map_put_put|].
    intros e He. destruct (unique_names _ _ _ Hu) as [Hnames _]. apply Hnames.
    apply push_all_inv in Hp as [[-> _]|[l' [= ->]]]; [by apply elem_of_nil in He|set_solver].
  - apply push_all_inv in Hp as [[-> ->]|[l' ->]]; [|done].
    rewrite (expand_again _ io [] io); [|by rewrite map_get_put|by rewrite map_get_put|done].
    unfold mbind, res_bind, deduplicate_io. cbn [as_map]. unfold mbind, res_bind.
    rewrite map_get_put, bool_decide_true, map_put_put by done. by destruct io.
Qed.

(** ** Expanded documents are complete *)

Section Laws.
Context {L : YamlLaws Y}.

Lemma copy_optional_other n k e e' k' :
  copy_optional n k e = Ok e' → k' ≠ k → map_get k' e' = map_get k' e.
Proof.
  unfold copy_optional. intros H Hk. destruct (at_const Y n k) as [v|w|]; cbn in H; [|done..].
  destruct (is_defined v); [|by injection H as <-].
  destruct (node_string Y v) as [s|w|]; cbn in H; [|done..]. injection H as <-.
  by rewrite map_get_put, bool_decide_false.
Qed.

Lemma named_text e n : named e n ↔ text_at Y e "name" n.
Proof. apply field_string_exact. Qed.

Lemma expanded_entry_named group_name ch t e :
  expanded_entry group_name ch t = Ok e →
  ∃ suffix, field_string Y t "suffix" = Ok suffix ∧ named e (expected_name group_name ch suffix).
Proof.
  unfold expanded_entry. intros H. destruct (field_string Y t "suffix") as [suffix|w|]; cbn [mbind res_bind] in H; [|done..].
  destruct (field_string Y t "type") as [type|w|]; cbn [mbind res_bind] in H; [|done..].
  destruct (field_string Y t "role") as [role|w|]; cbn [mbind res_bind] in H; [|done..].
  destruct (copy_optional t "description" _) as [e1|w|] eqn:H1; cbn [mbind res_bind] in H; [|done..].
  destruct (copy_optional t "unit" e1) as [e2|w|] eqn:H2; cbn [mbind res_bind] in H; [|done..]. injection H as <-.
  exists suffix. split; [done|]. apply named_text. eexists. split; [|apply as_string_scalar]. cbn [field].
  by rewrite (copy_optional_other _ _ _ _ _ H2), (copy_optional_other _ _ _ _ _ H1).
Qed.

Lemma group_entries_covered group es names :
  group_entries (Some group) = Ok es → (∀ e n, e ∈ es → named e n → n ∈ names) →
  group_covered Y names group.
Proof.
  unfold group_entries. intros H Hn.
  destruct (field_string Y (Some group) "name") as [name|w|] eqn:Hname; cbn [mbind res_bind] in H; [|done..].
  destruct (group_limit Y (Some group) "min") as [lo|w|] eqn:Hlo; cbn [mbind res_bind] in H; [|done..].
  destruct (group_limit Y (Some group) "max") as [hi|w|] eqn:Hhi; cbn [mbind res_bind] in H; [|done..].
  apply field_string_exact in Hname. apply group_limit_exact in Hlo as (cp & Hcp & Hlo).
  apply group_limit_exact in Hhi as (cp' & Hcp' & Hhi). rewrite Hcp in Hcp'. injection Hcp' as <-.
  cbn [at_const] in H. rewrite value_at_field in H
    by (eapply has_not_scalar; by exists cp). cbn [mbind res_bind] in H.
  destruct (res_map _ (int_range lo hi)) as [ess|w|] eqn:Hm; cbn [mbind res_bind] in H; [|done..].
  destruct (range_overflows lo hi) eqn:Hov; [done|]. injection H as <-.
  exists name, cp, lo, hi. split_and!; [done..|]. intros ch t Hch Ht.
  destruct (proj1 (res_map_all _ _) (ex_intro _ _ Hm) ch) as [ces Hces]; [by apply elem_of_int_range|].
  destruct (proj1 (res_map_all _ _) (ex_intro _ _ Hces) t Ht) as [e He].
  destruct (expanded_entry_named _ _ _ _ He) as (suffix & Hs & Hnamed). exists suffix. split; [done|].
  apply (Hn e); [|done]. rewrite <-(map_id ess). change (map (λ x, x) ess) with ((λ x, x) <$> ess).
  apply elem_of_concat_fmap. exists ces. split.
  - apply (res_map_elem _ _ _ _ Hm). exists ch. split; [by apply elem_of_int_range|done].
  - apply (res_map_elem _ _ _ _ Hces). by exists t.
Qed.

Lemma all_entries_group gs news g :
  all_entries (Some (YSeq gs)) = Ok news → g ∈ gs →
  ∃ es, group_entries (Some g) = Ok es ∧ ∀ e, e ∈ es → e ∈ news.
Proof.
  unfold all_entries. cbn [elements_of]. intros H Hg.
  destruct (res_map group_entries _) as [ess|w|] eqn:Hm; cbn in H; [|done..]. injection H as <-.
  destruct (proj1 (res_map_all _ _) (ex_intro _ _ Hm) (Some g)) as [es Hes]; [by apply list_elem_of_fmap_2|].
  exists es. split; [done|]. intros e He. rewrite <-(map_id ess). change (map (λ x, x) ess) with ((λ x, x) <$> ess).
  apply elem_of_concat_fmap. exists es. split; [|done]. apply (res_map_elem _ _ _ _ Hm).
  exists (Some g). split; [by apply list_elem_of_fmap_2|done].
Qed.

(** C33. In a document the expander has written, every channel of every channel
    group has its IO entries: the validator's check of IO entries against
    channel groups finds nothing. *)
Theorem expanded_io_complete root r gs path :
  expand_document root = Ok r → field r "channel_groups" = Some (YSeq gs) → is_sequence (field r "io") = true →
  passes (validate_io_against_channel_groups Y (field r "io") (field r "channel_groups") path) tt.
Proof.
  intros (kvs & io & news & io' & _ & _ & Hn & Hp & Hr)%expand_document_inv Hgs Hseq.
  assert (∀ v, map_get "io" (map_put "io" v kvs) = Some v) as Hio.
  { intros v. by rewrite map_get_put, bool_decide_true. }
  assert (∀ v, map_get "channel_groups" (map_put "io" v kvs) = map_get "channel_groups" kvs) as Hcg.
  { intros v. by rewrite map_get_put, bool_decide_false. }
  destruct Hr as [(l & u & -> & Hu & ->)|[Hs ->]]; cbn [field] in *; rewrite Hio in Hseq |- *; [|congruence].
  rewrite Hcg in Hgs |- *. rewrite Hgs in Hn |- *.
  apply io_groups_exact. destruct (unique_names _ _ _ Hu) as [Hnames Hsub].
  destruct (proj2 (res_map_all (λ e, field_string Y e "name") (elements_of (Some (YSeq u))))) as [names Hm].
  { cbn [elements_of]. intros e' (e & -> & He)%list_elem_of_fmap. destruct (Hnames e) as (n & Hn' & _); [auto|]. by exists n. }
  exists names. split; [done|]. apply Forall_forall. intros g Hg.
  destruct (all_entries_group _ _ _ Hn Hg) as (es & Hes & Hsub').
  apply (group_entries_covered _ _ _ Hes). intros e n He Hen. apply (res_map_elem _ _ _ _ Hm).
  assert (e ∈ l) as Hel.
  { apply push_all_inv in Hp as [[-> _]|[l' [= ->]]]; [by apply Hsub', elem_of_nil in He|]. set_solver. }
  destruct (Hnames e Hel) as (n' & Hn' & [?|(e' & He' & Hen')]); [set_solver|].
  unfold named in *. rewrite Hen in Hn'. injection Hn' as <-.
  exists (Some e'). split; [|done]. cbn [elements_of]. by apply list_elem_of_fmap_2.
Qed.

(** ** Generated configurations *)

Definition included (es : list (option (string * yaml))) : list (string * yaml) := omap id es.
Definition as_pairs (l : list (string * yaml)) : list (yaml * yaml) := (λ p, (YScalar p.1, p.2)) <$> l.
Definition config_of (l : list (string * yaml)) : yaml := match l with [] => YNull | _ => YMap (as_pairs l) end.

Lemma map_put_fresh k v l : k ∉ l.*1 → map_put k v (as_pairs l) = as_pairs (l ++ [(k, v)]).
Proof.
  induction l as [|[k' v'] l IH]; intros H; [done|]. cbn. rewrite bool_decide_false by set_solver.
  f_equal. apply IH. set_solver.
Qed.

Lemma store_fresh l k v : k ∉ l.*1 → store_entry (config_of l) (Some (k, v)) = config_of (l ++ [(k, v)]).
Proof.
  intros Hk. assert (config_of (l ++ [(k, v)]) = YMap (as_pairs (l ++ [(k, v)]))) as -> by by destruct l.
  rewrite <-map_put_fresh by done. by destruct l.
Qed.

Lemma store_all l es : NoDup (l ++ included es).*1 → foldl store_entry (config_of l) es = config_of (l ++ included es).
Proof.
  revert l. induction es as [|[[k v]|] es IH]; intros l Hnd; [by rewrite app_nil_r| |by apply IH].
  change (included (Some (k, v) :: es)) with ((k, v) :: included es) in *. cbn [foldl].
  rewrite store_fresh.
  - rewrite IH by (by rewrite <-app_assoc). by rewrite <-app_assoc.
  - rewrite fmap_app in Hnd. apply NoDup_app in Hnd as (_ & H & _). intros Hk. apply (H k Hk). cbn. set_solver.
Qed.

Lemma generate_fold c l c' :
  res_foldl (λ c io, e ← generated_entry io; Ok (store_entry c e)) c l = Ok c' →
  ∃ es, res_map generated_entry l = Ok es ∧ c' = foldl store_entry c es.
Proof.
  revert c. induction l as [|io l IH]; intros c H; cbn [res_foldl res_map] in *; [injection H as <-; by exists []|].
  destruct (generated_entry io) as [e|w|]; cbn [mbind res_bind] in *; [|done..].
  apply IH in H as (es & -> & ->). by exists (e :: es).
Qed.

(** An IO that gets an entry, and the entry it gets. *)
Definition configurable (io : yaml) : Prop := ∃ r, text_at Y io "role" r ∧ r ∈ roles_allowed.

Lemma generated_some io name v :
  generated_entry (Some io) = Ok (Some (name, v)) →
  configurable io ∧ named io name ∧ ∃ t, text_at Y io "type" t ∧
    ∀ k, as_string Y k = Ok name → (io_entry_ok Y k v ↔ t ∈ types_allowed).
Proof.
  unfold generated_entry. intros H.
  destruct (field_string Y (Some io) "role") as [r|w|] eqn:Hr; cbn [mbind res_bind] in H; [|done..].
  destruct (bool_decide (r = "input") || _ || _) eqn:Hb; [|done].
  assert (r ∈ roles_allowed) as Hroles.
  { unfold roles_allowed. rewrite !orb_true_iff, !bool_decide_eq_true in Hb. set_solver. }
  destruct (field_string Y (Some io) "name") as [n|w|] eqn:Hn; cbn [mbind res_bind] in H; [|done..].
  destruct (field_string Y (Some io) "type") as [t|w|] eqn:Ht; cbn [mbind res_bind] in H; [|done..].
  destruct (copy_optional _ "unit" _) as [e|w|] eqn:He; cbn [mbind res_bind] in H; [|done..]. injection H as <- <-.
  assert (∀ k', k' ≠ "unit" → map_get k' e = map_get k' (map_put "role" (YScalar r) (map_put "type" (YScalar t) []))) as He'.
  { intros k'. apply (copy_optional_other _ _ _ _ _ He). }
  split_and!; [exists r; split; [by apply field_string_exact|done]|done|].
  exists t. split; [by apply field_string_exact|]. intros k Hk.
  set (v := YMap _).
  assert (field v "type" = Some (YScalar t)) as Fty by (cbn [v field]; by rewrite !map_get_put, !bool_decide_false, He').
  assert (field v "role" = Some (YScalar r)) as Fr by (cbn [v field]; by rewrite !map_get_put, !bool_decide_false, He').
  assert (field v "offset" = Some (YScalar "0")) as Fo by (cbn [v field]; by rewrite !map_get_put).
  assert (field v "scale" = Some (YScalar "1")) as Fs by (cbn [v field]; by rewrite !map_get_put).
  split.
  - intros [_ _ Hty _ _ _]. by apply Hty.
  - intros Hty. split; [by exists n|by split; eexists|..].
    + rewrite Fty. by intros s [= <-].
    + rewrite Fr. by intros s [= <-].
    + rewrite Fo. intros y [= <-]. by eexists.
    + rewrite Fs. intros y [= <-]. by eexists.
Qed.

Lemma text_at_fun y k s s' : text_at Y y k s → text_at Y y k s' → s = s'.
Proof. intros (v & Hv & Hs) (v' & Hv' & Hs'). congruence. Qed.

Lemma generated_none io : generated_entry (Some io) = Ok None → ¬ configurable io.
Proof.
  unfold generated_entry. intros H (r & Hr%field_string_exact & Hroles). rewrite Hr in H. cbn [mbind res_bind] in H.
  destruct (bool_decide (r = "input") || _ || _) eqn:Hb.
  - destruct (field_string Y (Some io) "name"), (field_string Y (Some io) "type"); cbn [mbind res_bind] in H; try done.
    by destruct (copy_optional _ _ _).
  - rewrite !orb_false_iff, !bool_decide_eq_false in Hb. unfold roles_allowed in Hroles. set_solver.
Qed.

Lemma unique_NoDup seen l u :
  unique_entries seen l = Ok u →
  ∃ names, res_map (λ e, field_string Y (Some e) "name") u = Ok names ∧ NoDup names ∧ ∀ n, n ∈ names → n ∉ seen.
Proof.
  revert seen u. induction l as [|e l IH]; intros seen u H; cbn [unique_entries] in H.
  { injection H as <-. exists []. split_and!; [done|constructor|set_solver]. }
  destruct (field_string Y (Some e) "name") as [n|w|] eqn:Hn; cbn [mbind res_bind] in H; [|done..].
  case_bool_decide as Hs; [by eapply IH|].
  destruct (unique_entries ({[n]} ∪ seen) l) as [rest|w|] eqn:Hr; cbn [mbind res_bind] in H; [|done..]. injection H as <-.
  apply IH in Hr as (names & Hm & Hnd & Hd). exists (n :: names). cbn [res_map]. rewrite Hn, Hm. split_and!; [done| |].
  - constructor; [intros Hin%Hd; set_solver|done].
  - intros n' [->|Hin%Hd]%elem_of_cons; set_solver.
Qed.

Lemma included_names ios es names :
  res_map generated_entry (Some <$> ios) = Ok es → res_map (λ e, field_string Y (Some e) "name") ios = Ok names →
  (included es).*1 `sublist_of` names.
Proof.
  revert es names. induction ios as [|io ios IH]; intros es names He Hn; cbn [res_map fmap list_fmap] in *.
  { injection He as <-. injection Hn as <-. constructor. }
  change (list_fmap _ _ Some ios) with (Some <$> ios) in He.
  destruct (generated_entry (Some io)) as [e|w|] eqn:Hg; cbn [mbind res_bind] in He; [|done..].
  destruct (res_map generated_entry (Some <$> ios)) as [es'|w|]; cbn [mbind res_bind] in He; [|done..]. injection He as <-.
  destruct (field_string Y (Some io) "name") as [n|w|] eqn:Hname; cbn [mbind res_bind] in Hn; [|done..].
  destruct (res_map _ ios) as [names'|w|]; cbn [mbind res_bind] in Hn; [|done..]. injection Hn as <-.
  specialize (IH _ _ eq_refl eq_refl). destruct e as [[k v]|].
  - apply generated_some in Hg as (_ & Hk & _). unfold named in Hk. rewrite Hname in Hk. injection Hk as ->.
    by constructor.
  - by constructor.
Qed.

Lemma elem_of_included ios es k v :
  res_map generated_entry (Some <$> ios) = Ok es →
  (k, v) ∈ included es ↔ ∃ io, io ∈ ios ∧ generated_entry (Some io) = Ok (Some (k, v)).
Proof.
  intros Hm. unfold included. rewrite list_elem_of_omap. split.
  - intros (e & He & Hid). cbn in Hid. subst e. apply (res_map_elem _ _ _ _ Hm) in He as (n & (io & -> & Hio)%list_elem_of_fmap & Hg).
    by exists io.
  - intros (io & Hio & Hg). exists (Some (k, v)). split; [|done]. apply (res_map_elem _ _ _ _ Hm).
    exists (Some io). split; [by apply list_elem_of_fmap_2|done].
Qed.

(** A generated configuration is right if its IO entries are, and there is one. *)
Lemma config_of_ok path l :
  config_ok Y (YMap [(YScalar "name", YScalar "INSTRUMENT_NAME"); (YScalar "api_ref", YScalar path);
      (YScalar "connection", YMap [(YScalar "type", YScalar "VISA");
                                   (YScalar "address", YScalar "TCPIP::192.168.0.1::INSTR::0")]);
      (YScalar "io_config", config_of l)]) ↔
  l ≠ [] ∧ ∀ k v, (k, v) ∈ l → io_entry_ok Y (YScalar k) v.
Proof.
  split.
  - intros [_ _ (kvs & Hkvs & Hf)]. cbn in Hkvs. injection Hkvs as Hkvs.
    destruct l as [|p l]; [done|]. split; [done|]. assert (kvs = as_pairs (p :: l)) as -> by by injection Hkvs.
    intros k v Hkv. unfold as_pairs in Hf. rewrite Forall_fmap, Forall_forall in Hf. apply (Hf (k, v) Hkv).
  - intros [Hne Hl]. split; [by split; eexists|by eexists; split; [|eexists]|].
    exists (as_pairs l). split; [by destruct l|]. unfold as_pairs. rewrite Forall_fmap, Forall_forall.
    intros [k v] Hkv. by apply Hl.
Qed.

(** C35. The configuration generated from an expanded API passes the validator
    exactly if some IO has a role of a configuration and all that have one have a
    known type: an API without such an IO gives a configuration that is not
    valid. *)
Theorem generated_configuration_valid root api ios load path config :
  expand_document root = Ok api → load path = Ok api → field api "io" = Some (YSeq ios) →
  generate_instrument_configuration load path = Ok config →
  passes (check_instrument_configuration Y config) tt ↔
  (∃ io, io ∈ ios ∧ configurable io) ∧
  ∀ io t, io ∈ ios → configurable io → text_at Y io "type" t → t ∈ types_allowed.
Proof.
  intros (kvs & io & news & io' & _ & _ & _ & _ & Hr)%expand_document_inv Hload Hios Hgen.
  assert (∃ names, res_map (λ e, field_string Y (Some e) "name") ios = Ok names ∧ NoDup names) as (names & Hnames & Hnd).
  { destruct Hr as [(l & u & -> & Hu & ->)|[Hs ->]]; cbn [field] in Hios; rewrite map_get_put, bool_decide_true in Hios by done;
      injection Hios as ->; [|done]. destruct (unique_NoDup _ _ _ Hu) as (names & ? & ? & _). by exists names. }
  unfold generate_instrument_configuration in Hgen. rewrite Hload in Hgen. cbn [mbind res_bind at_node] in Hgen.
  rewrite value_at_field, Hios in Hgen by (eapply has_not_scalar; by exists (YSeq ios)). cbn [mbind res_bind elements_of] in Hgen.
  destruct (res_foldl _ _ _) as [c|w|] eqn:Hf; cbn [mbind res_bind] in Hgen; [|done..]. injection Hgen as <-.
  apply generate_fold in Hf as (es & Hes & ->).
  assert (NoDup (included es).*1) as Hnd' by (eapply sublist_NoDup; [exact Hnd|]; by eapply included_names).
  rewrite (store_all [] es Hnd' : foldl store_entry YNull es = _). cbn [app].
  rewrite configuration_exact, config_of_ok by exact L.
  assert (∀ io, io ∈ ios → ∃ e, generated_entry (Some io) = Ok e) as Hall.
  { intros i Hi. apply (proj1 (res_map_all _ _) (ex_intro _ _ Hes)). by apply list_elem_of_fmap_2. }
  assert (∀ io, io ∈ ios → configurable io → ∃ k v, (k, v) ∈ included es ∧ generated_entry (Some io) = Ok (Some (k, v))) as Hin.
  { intros i Hi Hc. destruct (Hall i Hi) as [[[k v]|] He]; [|by apply generated_none in He].
    exists k, v. split; [|done]. apply (elem_of_included _ _ _ _ Hes). by exists i. }
  split.
  - intros [Hne Hok]. split.
    + destruct (included es) as [|[k v] l] eqn:Hinc; [done|].
      destruct (proj1 (elem_of_included _ _ k v Hes)) as (i & Hi & Hg); [rewrite Hinc; set_solver|].
      exists i. split; [done|]. by apply generated_some in Hg as [? _].
    + intros i t Hi Hc Ht. destruct (Hin i Hi Hc) as (k & v & Hkv & Hg).
      apply generated_some in Hg as (_ & _ & t' & Ht' & Hiff). rewrite (text_at_fun _ _ _ _ Ht Ht').
      apply (proj1 (Hiff _ (as_string_scalar k))). by apply Hok.
  - intros [(i & Hi & Hc) Hty]. split.
    + destruct (Hin i Hi Hc) as (k & v & Hkv & _). intros E. rewrite E in Hkv. by apply elem_of_nil in Hkv.
    + intros k v (i' & Hi' & Hg)%(elem_of_included _ _ _ _ Hes).
      apply generated_some in Hg as (Hc' & _ & t & Ht & Hiff). apply (proj2 (Hiff _ (as_string_scalar k))). by eapply Hty.
Qed.

End Laws.
End Tools.

(** ** Examples *)

Definition sample_template : yaml :=
  obj [("io", YSeq [obj [("name", text "ch1_v"); ("type", text "float"); ("role", text "output")]]);
       ("channel_groups", YSeq [
          obj [("name", text "ch");
               ("channel_parameter", obj [("name", text "n"); ("type", text "int"); ("min", text "1"); ("max", text "2")]);
               ("io_types", YSeq [obj [("suffix", text "v"); ("type", text "float"); ("role", text "output")]])]])].

Definition sample_expanded : yaml :=
  obj [("io", YSeq [obj [("name", text "ch1_v"); ("type", text "float"); ("role", text "output")];
                    obj [("name", text "ch2_v"); ("type", text "float"); ("role", text "output")]]);
       ("channel_groups", YSeq [
          obj [("name", text "ch");
               ("channel_parameter", obj [("name", text "n"); ("type", text "int"); ("min", text "1"); ("max", text "2")]);
               ("io_types", YSeq [obj [("suffix", text "v"); ("type", text "float"); ("role", text "output")]])]])].

Lemma expander_idempotent_witness : expand_document plain_yaml sample_expanded = Ok sample_expanded.
Proof. apply (expander_idempotent plain_yaml sample_template). vm_compute. reflexivity. Defined.

Lemma expanded_io_complete_witness :
  passes (validate_io_against_channel_groups plain_yaml (field sample_expanded "io")
            (field sample_expanded "channel_groups") []) tt.
Proof.
  eapply (expanded_io_complete plain_yaml sample_template); [vm_compute; reflexivity|vm_compute; reflexivity|reflexivity].
Defined.

Definition sample_generated : res yaml :=
  generate_instrument_configuration plain_yaml (only sample_expanded) "dmm.yaml".

Lemma generated_configuration_valid_witness :
  ∃ config, sample_generated = Ok config ∧
    (∃ io, field sample_expanded "io" = Some (YSeq io) ∧
      ((∃ e, e ∈ io ∧ configurable plain_yaml e) ∧
       ∀ e t, e ∈ io → configurable plain_yaml e → text_at plain_yaml e "type" t → t ∈ types_allowed)).
Proof.
  eexists. split; [vm_compute; reflexivity|]. eexists. split; [vm_compute; reflexivity|].
  eapply (generated_configuration_valid plain_yaml sample_template sample_expanded _ (only sample_expanded) "dmm.yaml");
    [vm_compute; reflexivity|reflexivity|vm_compute; reflexivity|vm_compute; reflexivity|].
  intros r. vm_compute. reflexivity.
Defined.

(** An API whose IO is empty. *)
Example empty_io_config :
  (c ← generate_instrument_configuration plain_yaml (only (obj [("io", YSeq [])])) "x.yaml";
   r ← validate_instrument_configuration plain_yaml (only c) "c.yaml"; Ok (vr_errors r)) =
  Ok [mkError "/io_config" "io_config must be an object" 0 0].
Proof. vm_compute. reflexivity. Qed.
