(* ===== verification/SerializedCommand.v ===== *)
(** * Commands, responses and their wire format

    Model of src/include/instrument-server/SerializedCommand.hpp and
    src/src/SerializedCommand.cpp.  [serialize_*] builds a JSON value and dumps
    it, [deserialize_*] parses and reads it back; both are parametric in the
    JSON library ([JsonText]). *)

From S2P Require Import Prelude Json.

(** [using ParamValue = std::variant<double, int64_t, std::string, bool,
    std::vector<double>>] *)
Inductive ParamValue :=
| PDouble (d : double)
| PInt (i : Z)
| PString (s : string)
| PBool (b : bool)
| PArray (l : list double).

#[export] Instance ParamValue_eq_dec : EqDecision ParamValue.
Proof. solve_decision. Defined.

Record SerializedCommand := mkCommand {
  cmd_id : string;
  cmd_instrument_name : string;
  cmd_verb : string;
  cmd_params : gmap string ParamValue;
  cmd_expects_response : bool;
  cmd_timeout : Z;            (* milliseconds *)
  cmd_created_at : Z;
  cmd_sync_token : option Z;
  cmd_is_sync_barrier : bool
}.

Record CommandResponse := mkResponse {
  resp_command_id : string;
  resp_instrument_name : string;
  resp_success : bool;
  resp_error_code : Z;        (* int *)
  resp_error_message : string;
  resp_text_response : string;
  resp_return_value : option ParamValue;
  resp_has_large_data : bool;
  resp_buffer_id : string;
  resp_element_count : Z;     (* uint64_t *)
  resp_data_type : string
}.

#[export] Instance SerializedCommand_eq_dec : EqDecision SerializedCommand.
Proof. solve_decision. Defined.
#[export] Instance CommandResponse_eq_dec : EqDecision CommandResponse.
Proof. solve_decision. Defined.

(** The default member initialisers. *)
Definition default_command : SerializedCommand :=
  mkCommand EmptyString EmptyString EmptyString ∅ false 5000 0 None false.

Definition default_response : CommandResponse :=
  mkResponse EmptyString EmptyString false 0 EmptyString EmptyString None
    false EmptyString 0 EmptyString.

(** ** Commands *)

Definition param_json (v : ParamValue) : json :=
  match v with
  | PDouble d => JFloat d
  | PInt i => JInt i
  | PString s => JStr s
  | PBool b => JBool b
  | PArray l => JArr (JFloat <$> l)
  end.

(** [params_json] of [serialize_command], for one iteration order [kvs] of the
    unordered map. *)
Definition params_json (kvs : list (string * ParamValue)) : json :=
  JObj (mkobj ((λ kv, (kv.1, param_json kv.2)) <$> kvs)).

Definition command_fields (cmd : SerializedCommand) (kvs : list (string * ParamValue))
  : list (string * json) :=
  [("id", JStr (cmd_id cmd));
   ("instrument_name", JStr (cmd_instrument_name cmd));
   ("verb", JStr (cmd_verb cmd));
   ("expects_response", JBool (cmd_expects_response cmd));
   ("timeout_ms", JInt (cmd_timeout cmd))] ++
  match cmd_sync_token cmd with Some t => [("sync_token", JInt t)] | None => [] end ++
  [("params", params_json kvs)].

Definition command_json (cmd : SerializedCommand) : json :=
  JObj (mkobj (command_fields cmd (map_to_list (cmd_params cmd)))).

(** The branch of the loop over [j["params"].items()] that a value takes;
    [None] where no branch applies. *)
Definition param_of_json (v : json) : res (option ParamValue) :=
  match v with
  | JFloat d => Ok (Some (PDouble d))
  | JInt _ => i ← get_int64 v; Ok (Some (PInt i))
  | JStr s => Ok (Some (PString s))
  | JBool b => Ok (Some (PBool b))
  | JArr _ => l ← get_doubles v; Ok (Some (PArray l))
  | _ => Ok None
  end.

Definition load_param (m : gmap string ParamValue) (kv : string * json)
  : res (gmap string ParamValue) :=
  v ← param_of_json kv.2;
  Ok (match v with Some v => <[kv.1 := v]> m | None => m end).

Definition load_params (j : json) : res (gmap string ParamValue) :=
  if contains j "params" then
    p ← j_index j "params";
    match p with JObj o => res_foldl load_param ∅ o | _ => Ok ∅ end
  else Ok ∅.

(** [is_sync_barrier] is neither written nor read: it keeps its default. *)
Definition command_of_json (now : Z) (j : json) : res SerializedCommand :=
  jid ← j_index j "id"; id ← get_string jid;
  jname ← j_index j "instrument_name"; name ← get_string jname;
  jverb ← j_index j "verb"; verb ← get_string jverb;
  jexp ← j_index j "expects_response"; expects ← get_bool jexp;
  jtmo ← j_index j "timeout_ms"; tmo ← get_int64 jtmo;
  token ← (if contains j "sync_token"
           then jt ← j_index j "sync_token"; t ← get_uint64 jt; Ok (Some t)
           else Ok None);
  params ← load_params j;
  Ok (mkCommand id name verb params expects tmo now token false).

(** ** Responses *)

Definition return_fields (v : ParamValue) : list (string * json) :=
  [("return_value", param_json v);
   ("return_type", JStr match v with
                        | PDouble _ => "double"
                        | PInt _ => "int64"
                        | PString _ => "string"
                        | PBool _ => "bool"
                        | PArray _ => "array"
                        end)].

Definition response_json (resp : CommandResponse) : json :=
  JObj (mkobj (
    [("command_id", JStr (resp_command_id resp));
     ("instrument_name", JStr (resp_instrument_name resp));
     ("success", JBool (resp_success resp));
     ("error_code", JInt (resp_error_code resp));
     ("error_message", JStr (resp_error_message resp));
     ("text_response", JStr (resp_text_response resp))] ++
    match resp_return_value resp with Some v => return_fields v | None => [] end ++
    [("has_large_data", JBool (resp_has_large_data resp))] ++
    (if resp_has_large_data resp then
       [("buffer_id", JStr (resp_buffer_id resp));
        ("element_count", JInt (resp_element_count resp));
        ("data_type", JStr (resp_data_type resp))]
     else []))).

Definition return_of_json (j : json) : res (option ParamValue) :=
  if contains j "return_value" && contains j "return_type" then
    jt ← j_index j "return_type"; type ← get_string jt;
    v ← j_index j "return_value";
    if bool_decide (type = "double") then d ← get_double v; Ok (Some (PDouble d))
    else if bool_decide (type = "int64") then i ← get_int64 v; Ok (Some (PInt i))
    else if bool_decide (type = "string") then s ← get_string v; Ok (Some (PString s))
    else if bool_decide (type = "bool") then b ← get_bool v; Ok (Some (PBool b))
    else if bool_decide (type = "array") then l ← get_doubles v; Ok (Some (PArray l))
    else Ok None
  else Ok None.

(** The large-data fields: flag, buffer id, element count, data type. *)
Definition large_of_json (j : json) : res (bool * string * Z * string) :=
  if contains j "has_large_data" then
    jl ← j_index j "has_large_data"; large ← get_bool jl;
    if (large : bool) then
      jb ← j_index j "buffer_id"; bid ← get_string jb;
      je ← j_index j "element_count"; cnt ← get_uint64 je;
      jd ← j_index j "data_type"; dt ← get_string jd;
      Ok (true, bid, cnt, dt)
    else Ok (false, EmptyString, 0%Z, EmptyString)
  else Ok (false, EmptyString, 0%Z, EmptyString).

Definition response_of_json (j : json) : res CommandResponse :=
  jid ← j_index j "command_id"; id ← get_string jid;
  jname ← j_index j "instrument_name"; name ← get_string jname;
  jsucc ← j_index j "success"; success ← get_bool jsucc;
  jcode ← j_index j "error_code"; code ← get_int jcode;
  jmsg ← j_index j "error_message"; msg ← get_string jmsg;
  jtext ← j_index j "text_response"; text ← get_string jtext;
  ret ← return_of_json j;
  large ← large_of_json j;
  let '(flag, bid, cnt, dt) := large in
  Ok (mkResponse id name success code msg text ret flag bid cnt dt).

Section Wire.
Context `{JT : JsonText}.

Definition serialize_command (cmd : SerializedCommand) : res string := dump (command_json cmd).

Definition deserialize_command (now : Z) (text : string) : res SerializedCommand :=
  j ← parse text; command_of_json now j.

Definition serialize_response (resp : CommandResponse) : res string := dump (response_json resp).

Definition deserialize_response (text : string) : res CommandResponse :=
  j ← parse text; response_of_json j.

End Wire.

(** ** What can be sent *)

Definition param_ok (v : ParamValue) : bool :=
  match v with
  | PDouble d => is_f64 d
  | PInt i => bool_decide (is_i64 i)
  | PString s => utf8_ok s
  | PBool _ => true
  | PArray l => forallb (λ d, is_f64 d && is_finite d) l
  end.

(** Texts are UTF-8, numbers have their C++ widths, arrays are finite. *)
Definition command_ok (cmd : SerializedCommand) : bool :=
  utf8_ok (cmd_id cmd) && utf8_ok (cmd_instrument_name cmd) && utf8_ok (cmd_verb cmd) &&
  bool_decide (is_i64 (cmd_timeout cmd)) &&
  (if cmd_sync_token cmd is Some t then bool_decide (is_u64 t) else true) &&
  bool_decide (map_Forall (λ k v, utf8_ok k && param_ok v = true) (cmd_params cmd)).

Definition response_ok (r : CommandResponse) : bool :=
  utf8_ok (resp_command_id r) && utf8_ok (resp_instrument_name r) &&
  utf8_ok (resp_error_message r) && utf8_ok (resp_text_response r) &&
  bool_decide (is_i32 (resp_error_code r)) &&
  (if resp_return_value r is Some v then
     param_ok v && (if v is PDouble d then is_finite d else true) else true) &&
  (if resp_has_large_data r then
     utf8_ok (resp_buffer_id r) && bool_decide (is_u64 (resp_element_count r)) &&
     utf8_ok (resp_data_type r)
   else true).

(** What arrives at the other end. *)
Definition wire_param (v : ParamValue) : option ParamValue :=
  match v with PDouble d => if is_finite d then Some v else None | _ => Some v end.

Definition wire_command (now : Z) (cmd : SerializedCommand) : SerializedCommand :=
  mkCommand (cmd_id cmd) (cmd_instrument_name cmd) (cmd_verb cmd)
    (omap wire_param (cmd_params cmd)) (cmd_expects_response cmd) (cmd_timeout cmd)
    now (cmd_sync_token cmd) false.

Definition wire_response (r : CommandResponse) : CommandResponse :=
  if resp_has_large_data r then r
  else mkResponse (resp_command_id r) (resp_instrument_name r) (resp_success r)
         (resp_error_code r) (resp_error_message r) (resp_text_response r)
         (resp_return_value r) false EmptyString 0 EmptyString.

(** ** Lemmas *)

(** Look a literal key up in an object built by literal assignments. *)
Ltac obj_lookup :=
  unfold mkobj; cbn [foldl fst snd app];
  repeat first [rewrite obj_get_set | rewrite obj_get_set_ne by done].

Lemma command_lookups cmd kvs :
  let o := mkobj (command_fields cmd kvs) in
  obj_get "id" o = Some (JStr (cmd_id cmd)) ∧
  obj_get "instrument_name" o = Some (JStr (cmd_instrument_name cmd)) ∧
  obj_get "verb" o = Some (JStr (cmd_verb cmd)) ∧
  obj_get "expects_response" o = Some (JBool (cmd_expects_response cmd)) ∧
  obj_get "timeout_ms" o = Some (JInt (cmd_timeout cmd)) ∧
  obj_get "sync_token" o = JInt <$> cmd_sync_token cmd ∧
  obj_get "params" o = Some (params_json kvs).
Proof.
  cbn zeta. unfold command_fields. destruct (cmd_sync_token cmd); split_and!; obj_lookup; done.
Qed.

Lemma param_json_ok v : param_ok v = true → json_ok (param_json v) = true.
Proof.
  destruct v as [d|i|s|b|l]; cbn; try done.
  - rewrite !bool_decide_eq_true. unfold is_i64, two63, two64. lia.
  - induction l as [|d l IH]; cbn; [done|]. intros [[-> _]%andb_prop ?]%andb_prop. cbn. auto.
Qed.

Lemma param_json_back v :
  param_ok v = true → param_of_json (json_norm (param_json v)) = Ok (wire_param v).
Proof.
  destruct v as [d|i|s|b|l]; cbn; try done.
  - intros _. by destruct (is_finite d).
  - intros ?%bool_decide_eq_true. by rewrite sint64_id.
  - intros Hl. rewrite json_norm_finite_floats.
    + change (res_map get_double (JFloat <$> l)) with (get_doubles (JArr (JFloat <$> l))).
      by rewrite get_doubles_arr.
    + induction l as [|d l IH]; cbn in *; [done|].
      apply andb_prop in Hl as [[_ ->]%andb_prop ?]. cbn. auto.
Qed.

Lemma json_ok_mkobj kvs :
  Forall (λ kv, utf8_ok kv.1 && json_ok kv.2 = true) kvs → json_ok (JObj (mkobj kvs)) = true.
Proof.
  intros H%Forall_mkobj. cbn. rewrite bool_decide_eq_true_2 by apply mkobj_sorted. cbn.
  apply Is_true_true, forallb_True. eapply Forall_impl; [done|].
  intros kv Hkv. by apply Is_true_true.
Qed.

Lemma NoDup_param_keys (m : gmap string ParamValue) kvs :
  kvs ≡ₚ map_to_list m → NoDup ((λ kv, (kv.1, param_json kv.2)) <$> kvs).*1.
Proof.
  intros ->. rewrite <-list_fmap_compose. apply NoDup_fst_map_to_list.
Qed.

(** The iteration order of the unordered map is not observable. *)
Lemma params_json_order (m : gmap string ParamValue) kvs :
  is_iteration kvs m → params_json kvs = params_json (map_to_list m).
Proof.
  unfold is_iteration. intros Hp. unfold params_json. f_equal.
  apply mkobj_perm; [by eapply NoDup_param_keys|]. by rewrite Hp.
Qed.

Lemma params_json_get (m : gmap string ParamValue) k :
  obj_get k (mkobj ((λ kv, (kv.1, param_json kv.2)) <$> map_to_list m)) = param_json <$> m !! k.
Proof.
  rewrite obj_get_mkobj by by eapply NoDup_param_keys.
  change (λ kv : string * ParamValue, (kv.1, param_json kv.2)) with (prod_map (@id string) param_json).
  rewrite <-map_to_list_fmap, list_to_map_to_list. by rewrite lookup_fmap.
Qed.

Lemma command_json_ok cmd : command_ok cmd = true → json_ok (command_json cmd) = true.
Proof.
  unfold command_ok. intros H. repeat (apply andb_prop in H as [H ?]).
  assert (json_ok (params_json (map_to_list (cmd_params cmd))) = true) as Hparams.
  { apply json_ok_mkobj, Forall_fmap, Forall_forall. intros [k v] Hkv%elem_of_map_to_list.
    apply bool_decide_eq_true in H0. specialize (H0 k v Hkv). cbn in *.
    apply andb_prop in H0 as [-> ?]. by apply param_json_ok. }
  apply json_ok_mkobj. unfold command_fields.
  rewrite !Forall_app, !Forall_cons, Forall_nil. cbn [fst snd json_ok].
  split_and!; try (rewrite ?andb_true_iff; split; [reflexivity|done]); try done.
  - rewrite andb_true_iff; split; [reflexivity|].
    apply bool_decide_eq_true. apply bool_decide_eq_true in H2.
    unfold is_i64, two63, two64 in *. lia.
  - destruct (cmd_sync_token cmd); [|done]. apply Forall_singleton. cbn.
    apply bool_decide_eq_true. apply bool_decide_eq_true in H1. unfold is_u64, two63, two64 in *. lia.
Qed.

(** Loading the parameters of a dumped and re-read command. *)
Lemma load_params_back (m : gmap string ParamValue) o :
  map_Forall (λ k v, utf8_ok k && param_ok v = true) m →
  obj_get "params" o = Some (params_json (map_to_list m)) →
  load_params (json_norm (JObj o)) = Ok (omap wire_param m).
Proof.
  intros Hm Ho. unfold load_params. cbn.
  rewrite obj_get_fmap, Ho. cbn.
  set (po := mkobj _). set (norm := λ kv : string * json, (kv.1, json_norm kv.2)).
  assert (obj_sorted po) as Hs by apply mkobj_sorted.
  assert (∀ k v, obj_get k po = Some v →
            ∃ p, m !! k = Some p ∧ v = param_json p ∧ param_ok p = true) as Hpo.
  { intros k v Hv. unfold po in Hv. rewrite params_json_get in Hv.
    apply fmap_Some in Hv as (p & Hp & ->). exists p. split_and!; [done..|].
    specialize (Hm k p Hp). cbn in Hm. by apply andb_prop in Hm as [_ ?]. }
  rewrite (res_foldl_Ok load_param (λ m kv,
    match (match param_of_json kv.2 with Ok v => v | _ => None end) with
    | Some a => <[kv.1 := a]> m | None => m end)).
  2: { intros a [k v] ([k' v'] & [= -> ->] & Hin)%list_elem_of_fmap.
       apply elem_of_obj_get in Hin; [|done]. apply Hpo in Hin as (p & _ & -> & Hp).
       unfold load_param. cbn [fst snd]. by rewrite param_json_back. }
  f_equal. apply map_eq. intros k.
  rewrite (foldl_obj_load (λ v, match param_of_json v with Ok v => v | _ => None end))
    by by apply fmap_obj_sorted.
  rewrite lookup_empty, lookup_omap. unfold norm. rewrite obj_get_fmap.
  unfold po at 1. rewrite params_json_get. destruct (m !! k) as [p|] eqn:Hp; cbn; [|done].
  specialize (Hm k p Hp). cbn in Hm. apply andb_prop in Hm as [_ Hok].
  rewrite param_json_back by done. by destruct (wire_param p).
Qed.

Lemma command_of_json_back now cmd :
  command_ok cmd = true →
  command_of_json now (json_norm (command_json cmd)) = Ok (wire_command now cmd).
Proof.
  unfold command_ok. intros H. repeat (apply andb_prop in H as [H ?]).
  destruct (command_lookups cmd (map_to_list (cmd_params cmd)))
    as (Hid & Hname & Hverb & Hexp & Htmo & Htok & Hpar).
  apply bool_decide_eq_true in H0.
  pose proof (load_params_back _ _ H0 Hpar) as Hload.
  unfold command_of_json, command_json. rewrite Hload.
  generalize dependent (mkobj (command_fields cmd (map_to_list (cmd_params cmd)))).
  intros o Hid Hname Hverb Hexp Htmo Htok _ _. cbn.
  rewrite !obj_get_fmap, Hid, Hname, Hverb, Hexp, Htmo, Htok. cbn.
  apply bool_decide_eq_true in H2. rewrite sint64_id by done. unfold wire_command.
  destruct (cmd_sync_token cmd) as [t|]; cbn; [|done].
  apply bool_decide_eq_true in H1. by rewrite wrap64_id.
Qed.

(** *** Responses *)

Lemma response_json_ok r : response_ok r = true → json_ok (response_json r) = true.
Proof.
  unfold response_ok. intros H. repeat (apply andb_prop in H as [H ?]).
  apply json_ok_mkobj. rewrite !Forall_app, !Forall_cons, Forall_nil. cbn [fst snd json_ok].
  split_and!; try (rewrite ?andb_true_iff; split; [reflexivity|done]); try done.
  - rewrite andb_true_iff; split; [reflexivity|]. apply bool_decide_eq_true.
    apply bool_decide_eq_true in H2. unfold is_i32, two63, two64 in *. lia.
  - destruct (resp_return_value r) as [v|]; [|done]. apply andb_prop in H1 as [Hv _].
    unfold return_fields. rewrite !Forall_cons, Forall_nil. cbn [fst snd].
    split_and!; [|destruct v; reflexivity|done].
    rewrite andb_true_iff; split; [reflexivity|by apply param_json_ok].
  - destruct (resp_has_large_data r); [|done]. repeat (apply andb_prop in H0 as [H0 ?]).
    rewrite !Forall_cons, Forall_nil. cbn [fst snd json_ok].
    split_and!; try (rewrite ?andb_true_iff; split; [reflexivity|done]); [|done].
    rewrite andb_true_iff; split; [reflexivity|]. unbool. apply bool_decide_eq_true.
    unfold is_u64, two63, two64 in *. lia.
Qed.

Definition response_object (r : CommandResponse) : list (string * json) :=
  match response_json r with JObj o => o | _ => [] end.

Lemma response_lookups r :
  let o := response_object r in
  obj_get "command_id" o = Some (JStr (resp_command_id r)) ∧
  obj_get "instrument_name" o = Some (JStr (resp_instrument_name r)) ∧
  obj_get "success" o = Some (JBool (resp_success r)) ∧
  obj_get "error_code" o = Some (JInt (resp_error_code r)) ∧
  obj_get "error_message" o = Some (JStr (resp_error_message r)) ∧
  obj_get "text_response" o = Some (JStr (resp_text_response r)) ∧
  obj_get "return_value" o = param_json <$> resp_return_value r ∧
  (∀ v, resp_return_value r = Some v →
     (∃ t, (return_fields v) !! 1 = Some ("return_type", JStr t) ∧
           obj_get "return_type" o = Some (JStr t))) ∧
  obj_get "has_large_data" o = Some (JBool (resp_has_large_data r)) ∧
  (resp_has_large_data r = true →
     obj_get "buffer_id" o = Some (JStr (resp_buffer_id r)) ∧
     obj_get "element_count" o = Some (JInt (resp_element_count r)) ∧
     obj_get "data_type" o = Some (JStr (resp_data_type r))).
Proof.
  cbn zeta. unfold response_object, response_json.
  destruct (resp_return_value r) as [[]|], (resp_has_large_data r); unfold return_fields;
    split_and!; try (obj_lookup; done);
    try (intros v [= <-]; eexists; split; [reflexivity|obj_lookup; done]); try discriminate;
    try (intros _; split_and!; obj_lookup; done).
Qed.

Lemma response_of_json_back r :
  response_ok r = true →
  response_of_json (json_norm (response_json r)) = Ok (wire_response r).
Proof.
  unfold response_ok. intros H.
  destruct (response_lookups r) as (Hid & Hname & Hs & Hc & Hm & Ht & Hv & Hty & Hl & Hlarge).
  assert (response_json r = JObj (response_object r)) as -> by done.
  generalize dependent (response_object r). intros o Hid Hname Hs Hc Hm Ht Hv Hty Hl Hlarge.
  assert (return_of_json (json_norm (JObj o)) = Ok (resp_return_value r)) as Hret.
  { unfold return_of_json. cbn. rewrite !obj_get_fmap, Hv.
    destruct (resp_return_value r) as [v|]; cbn; [|done].
    destruct (Hty v eq_refl) as (t & Htt & ->). cbn. unbool.
    pose proof (param_json_back v) as Hback.
    destruct v as [d|i|s|b|l]; cbn in Htt; simplify_eq; cbn in *; unbool; try done.
    - destruct (is_finite d); done.
    - by rewrite sint64_id.
    - destruct (res_map get_double _); specialize (Hback ltac:(done)); cbn in *; by simplify_eq. }
  assert (large_of_json (json_norm (JObj o)) =
            Ok (if resp_has_large_data r
                then (true, resp_buffer_id r, resp_element_count r, resp_data_type r)
                else (false, EmptyString, 0%Z, EmptyString))) as Hlg.
  { unfold large_of_json. cbn. rewrite !obj_get_fmap, Hl. cbn.
    destruct (resp_has_large_data r); [|done].
    destruct Hlarge as (-> & -> & ->); [done|]. cbn. unbool. by rewrite wrap64_id. }
  unfold response_of_json. rewrite Hret, Hlg. cbn.
  rewrite !obj_get_fmap, Hid, Hname, Hs, Hc, Hm, Ht. cbn. unbool. rewrite sint32_id by done.
  unfold wire_response. destruct r; cbn. by destruct resp_has_large_data0.
Qed.

(** ** Properties *)

Section Properties.
Context `{JT : JsonText}.

(** What a text written by one end means to the other. *)
Lemma command_received now cmd text :
  command_ok cmd = true → serialize_command cmd = Ok text →
  deserialize_command now text = Ok (wire_command now cmd).
Proof.
  intros Hok Hs. destruct (parse_dump _ (command_json_ok _ Hok)) as (s & Hs' & Hp).
  unfold serialize_command in Hs. rewrite Hs' in Hs. simplify_eq.
  unfold deserialize_command. rewrite Hp. cbn. by apply command_of_json_back.
Qed.

Lemma response_received r text :
  response_ok r = true → serialize_response r = Ok text →
  deserialize_response text = Ok (wire_response r).
Proof.
  intros Hok Hs. destruct (parse_dump _ (response_json_ok _ Hok)) as (s & Hs' & Hp).
  unfold serialize_response in Hs. rewrite Hs' in Hs. simplify_eq.
  unfold deserialize_response. rewrite Hp. cbn. by apply response_of_json_back.
Qed.

(** A text cut short is not understood. *)
Lemma command_cut now cmd text p :
  serialize_command cmd = Ok text → p `prefix_of` chars text → p ≠ chars text →
  ∃ e, deserialize_command now (of_chars p) = Exn e.
Proof.
  intros Hs Hp Hne. destruct (parse_cut _ _ _ Hs Hp Hne) as [e He].
  exists e. unfold deserialize_command. by rewrite He.
Qed.

Lemma response_cut r text p :
  serialize_response r = Ok text → p `prefix_of` chars text → p ≠ chars text →
  ∃ e, deserialize_response (of_chars p) = Exn e.
Proof.
  intros Hs Hp Hne. destruct (parse_cut _ _ _ Hs Hp Hne) as [e He].
  exists e. unfold deserialize_response. by rewrite He.
Qed.

(** C7. A command whose texts are UTF-8 and whose numbers are of their C++
    widths survives the wire: serialising it succeeds, and deserialising the
    text gives back its id, instrument, verb, flags, timeout, sync token and
    every parameter with its type, except that non-finite double parameters
    disappear, the creation time is the receiver's and the barrier flag is
    reset. *)
Theorem command_roundtrip now cmd :
  command_ok cmd = true →
  ∃ s, serialize_command cmd = Ok s ∧ deserialize_command now s = Ok (wire_command now cmd).
Proof.
  intros Hok. destruct (parse_dump _ (command_json_ok _ Hok)) as (s & Hs & _).
  exists s. split; [done|]. by apply command_received.
Qed.

(** C8. A response whose texts are UTF-8 and whose numbers are of their C++
    widths, with a finite return value, survives the wire unchanged; only the
    buffer fields are reset to their defaults when the response carries no
    large data. *)
Theorem response_roundtrip r :
  response_ok r = true →
  ∃ s, serialize_response r = Ok s ∧ deserialize_response s = Ok (wire_response r).
Proof.
  intros Hok. destruct (parse_dump _ (response_json_ok _ Hok)) as (s & Hs & _).
  exists s. split; [done|]. by apply response_received.
Qed.

(** The text of a command does not depend on the order in which the
    unordered parameter map is iterated. *)
Theorem command_text_order_independent cmd kvs :
  is_iteration kvs (cmd_params cmd) →
  dump (JObj (mkobj (command_fields cmd kvs))) = serialize_command cmd.
Proof.
  intros Hit. unfold serialize_command, command_json. do 3 f_equal.
  unfold command_fields. by rewrite (params_json_order _ _ Hit).
Qed.

(** No text deserialises to a command with the barrier flag set. *)
Lemma deserialize_no_barrier now text cmd :
  deserialize_command now text = Ok cmd → cmd_is_sync_barrier cmd = false.
Proof.
  unfold deserialize_command, command_of_json. intros H.
  repeat (match type of H with
          | mbind _ ?m = _ => destruct m; cbn [mbind res_bind] in H; try discriminate H
          end). by injection H as <-.
Qed.

End Properties.

(** ** Sample values *)

Definition sample_command : SerializedCommand :=
  mkCommand "DAC1-7" "DAC1" "SET"
    (<["voltage" := PDouble (double_of_int 5)]> (<["channel" := PInt 2]>
      {["label" := PString "gate"; "on" := PBool true; "ramp" := PArray [double_of_int 1]]}))
    true 5000 17 (Some 3%Z) true.

Definition sample_response : CommandResponse :=
  mkResponse "DAC1-7" "DAC1" true 0 EmptyString "5.0" (Some (PDouble (double_of_int 5)))
    true "buffer_1_1" 1024 "float32".

Lemma command_roundtrip_witness :
  ∃ s, serialize_command (JT := SampleText.sample_text) sample_command = Ok s ∧
       deserialize_command (JT := SampleText.sample_text) 99 s =
         Ok (wire_command 99 sample_command).
Proof. apply (command_roundtrip (JT := SampleText.sample_text)). vm_compute. reflexivity. Defined.

Lemma response_roundtrip_witness :
  ∃ s, serialize_response (JT := SampleText.sample_text) sample_response = Ok s ∧
       deserialize_response (JT := SampleText.sample_text) s = Ok sample_response.
Proof.
  apply (response_roundtrip (JT := SampleText.sample_text) sample_response).
  vm_compute. reflexivity.
Defined.

Lemma command_text_order_independent_witness :
  dump (JsonText := SampleText.sample_text)
    (JObj (mkobj (command_fields sample_command (reverse (map_to_list (cmd_params sample_command))))))
  = serialize_command (JT := SampleText.sample_text) sample_command.
Proof.
  apply (command_text_order_independent (JT := SampleText.sample_text)).
  unfold is_iteration. apply reverse_Permutation.
Defined.
