(* ===== verification/Ipc.v ===== *)
(** * Inter-process messages and queues

    Model of src/include/instrument-server/ipc/IPCMessage.hpp and of
    [SharedQueue] (src/src/ipc/SharedQueue.cpp).  The queues themselves are
    [boost::interprocess::message_queue], a third-party library: the class
    [MessageQueue] states the documented behaviour the server relies on, and
    [ListQueue] is a concrete instance of it. *)

From S2P Require Import Prelude.

(** ** Messages *)

Definition IPC_MAX_PAYLOAD : nat := 4096.
#[global] Arguments IPC_MAX_PAYLOAD : simpl never.

(** [enum class Type : uint32_t] *)
Inductive MsgType := COMMAND | RESPONSE | HEARTBEAT | SHUTDOWN | SYNC_ACK | SYNC_CONTINUE.

#[export] Instance MsgType_eq_dec : EqDecision MsgType.
Proof. solve_decision. Defined.

(** [payload] is the whole array; [payload_size] says how much of it counts. *)
Record IPCMessage := mkIPCMessage {
  msg_type : MsgType;
  msg_id : Z;
  msg_sync_token : Z;
  msg_payload_size : nat;
  msg_payload : list ascii
}.

#[export] Instance IPCMessage_eq_dec : EqDecision IPCMessage.
Proof. solve_decision. Defined.

(** The constructor: a COMMAND with a zeroed payload. *)
Definition zero_payload : list ascii := replicate IPC_MAX_PAYLOAD "000"%char.
Definition new_message : IPCMessage := mkIPCMessage COMMAND 0 0 0 zero_payload.

(** [msg.payload_size = std::min(payload.size(), sizeof(msg.payload));
    memcpy(msg.payload, payload.data(), msg.payload_size)] *)
Definition set_payload (m : IPCMessage) (payload : string) : IPCMessage :=
  let n := min (length (chars payload)) IPC_MAX_PAYLOAD in
  mkIPCMessage (msg_type m) (msg_id m) (msg_sync_token m) n
    (take n (chars payload) ++ drop n (msg_payload m)).

(** [std::string payload(msg.payload, msg.payload_size)] *)
Definition payload_of (m : IPCMessage) : string :=
  of_chars (take (msg_payload_size m) (msg_payload m)).

Lemma payload_of_set m s : payload_of (set_payload m s) = of_chars (take IPC_MAX_PAYLOAD (chars s)).
Proof.
  unfold payload_of, set_payload; cbn. f_equal.
  rewrite take_app_le by (rewrite length_take; lia).
  rewrite take_take, Nat.min_id.
  destruct (decide (length (chars s) ≤ IPC_MAX_PAYLOAD)) as [Hle|Hgt].
  - rewrite Nat.min_l by done. rewrite (take_ge (chars s)) by done.
    symmetry. by apply take_ge.
  - by rewrite Nat.min_r by lia.
Qed.

(** A text that fits arrives whole; a longer one arrives cut. *)
Lemma payload_fits m s :
  length (chars s) ≤ IPC_MAX_PAYLOAD → payload_of (set_payload m s) = s.
Proof. intros H. by rewrite payload_of_set, take_ge, of_chars_chars. Qed.

Lemma payload_cut m s :
  IPC_MAX_PAYLOAD < length (chars s) →
  ∃ p, payload_of (set_payload m s) = of_chars p ∧ p `prefix_of` chars s ∧ p ≠ chars s.
Proof.
  intros H. exists (take IPC_MAX_PAYLOAD (chars s)). rewrite payload_of_set.
  split_and!; [done|apply prefix_take|]. intros Heq%(f_equal length).
  rewrite length_take in Heq. lia.
Qed.

(** ** The queue library *)

Inductive send_outcome := Sent | SendTimedOut | SendThrew.
Inductive recv_outcome := Received (m : IPCMessage) (size : nat) | RecvTimedOut | RecvThrew.

(** [sizeof(IPCMessage)] on a 64-bit target. *)
Definition sizeof_IPCMessage : nat := 4128.

(** A message in a queue, with the priority and the size it was sent with. *)
Record entry := mkEntry { e_priority : N; e_size : nat; e_msg : IPCMessage }.

#[export] Instance entry_eq_dec : EqDecision entry.
Proof. solve_decision. Defined.

(** The place of a new entry: behind those of its priority or a higher one. *)
Fixpoint enqueue (e : entry) (l : list entry) : list entry :=
  match l with
  | [] => [e]
  | e' :: l' => if bool_decide (e_priority e ≤ e_priority e')%N then e' :: enqueue e l' else e :: l
  end.

(** Documented behaviour of [message_queue]: bounded in the number and the size
    of messages; the entry with the highest priority is received first, and
    among those the oldest; a message or a buffer of the wrong size throws; a
    timed call times out only if the queue stays full (empty) for the whole
    wait, that is, if it is full (empty) at the point where the call takes
    effect. *)
Class MessageQueue (Q : Type) := {
  mq_create : nat → nat → Q;              (* max messages, max message size *)
  mq_max_msg : Q → nat;
  mq_max_msg_size : Q → nat;
  mq_entries : Q → list entry;            (* next to be received first *)
  mq_timed_send : Q → IPCMessage → nat → N → send_outcome * Q;   (* size, priority *)
  mq_timed_receive : Q → nat → recv_outcome * Q;                 (* buffer size *)
  mq_create_spec n sz :
    mq_max_msg (mq_create n sz) = n ∧ mq_max_msg_size (mq_create n sz) = sz ∧
    mq_entries (mq_create n sz) = [];
  mq_send_spec q m sz prio :
    let r := mq_timed_send q m sz prio in
    mq_max_msg r.2 = mq_max_msg q ∧ mq_max_msg_size r.2 = mq_max_msg_size q ∧
    (if bool_decide (mq_max_msg_size q < sz) then r.1 = SendThrew ∧ mq_entries r.2 = mq_entries q
     else if bool_decide (length (mq_entries q) < mq_max_msg q)
     then r.1 = Sent ∧ mq_entries r.2 = enqueue (mkEntry prio sz m) (mq_entries q)
     else r.1 = SendTimedOut ∧ mq_entries r.2 = mq_entries q);
  mq_receive_spec q buf :
    let r := mq_timed_receive q buf in
    mq_max_msg r.2 = mq_max_msg q ∧ mq_max_msg_size r.2 = mq_max_msg_size q ∧
    (if bool_decide (buf < mq_max_msg_size q) then r.1 = RecvThrew ∧ mq_entries r.2 = mq_entries q
     else match mq_entries q with
          | e :: es => r.1 = Received (e_msg e) (e_size e) ∧ mq_entries r.2 = es
          | [] => r.1 = RecvTimedOut ∧ mq_entries r.2 = []
          end)
}.

(** ** Shared memory

    Queues are kernel objects with names.  Removing a name leaves the object to
    the processes that have it open, so handles hold the object. *)

Record Shm (Q : Type) := mkShm {
  shm_objects : gmap positive Q;
  shm_names : gmap string positive;
  shm_next : positive
}.
Arguments mkShm {Q}. Arguments shm_objects {Q}. Arguments shm_names {Q}. Arguments shm_next {Q}.

(** Object numbers are handed out in increasing order. *)
Definition shm_wf {Q} (shm : Shm Q) : Prop :=
  set_Forall (λ o, (o < shm_next shm)%positive) (dom (shm_objects shm)).
#[export] Instance shm_wf_dec {Q} (shm : Shm Q) : Decision (shm_wf shm).
Proof. unfold shm_wf. apply _. Defined.

Definition empty_shm {Q} : Shm Q := mkShm ∅ ∅ 1.

(** The [SharedQueue] object of one process. *)
Record SharedQueue := mkSharedQueue {
  request_queue_ : option positive;
  response_queue_ : option positive;
  request_queue_name_ : string;
  response_queue_name_ : string;
  is_server_ : bool
}.

Definition make_queue_name (instrument_name suffix : string) : string :=
  "instrument_" +:+ instrument_name +:+ "_" +:+ suffix.

#[global] Arguments make_queue_name : simpl never.

Section Queues.
Context `{MQ : MessageQueue Q}.
Implicit Types (shm : Shm Q) (h : SharedQueue) (m : IPCMessage).

Definition mq_remove shm (name : string) : Shm Q :=
  mkShm (shm_objects shm) (delete name (shm_names shm)) (shm_next shm).

(** [message_queue(create_only, name, 100, sizeof(IPCMessage))] throws if the
    name exists; [os_ok] says whether the system grants the memory. *)
Definition mq_create_only (os_ok : bool) shm (name : string) : Shm Q * res positive :=
  if os_ok && bool_decide (shm_names shm !! name = None) then
    (mkShm (<[shm_next shm := mq_create 100 sizeof_IPCMessage]> (shm_objects shm))
       (<[name := shm_next shm]> (shm_names shm)) (Pos.succ (shm_next shm)),
     Ok (shm_next shm))
  else (shm, Exn "boost::interprocess_exception").

(** [message_queue(open_only, name)] throws if there is no such name. *)
Definition mq_open_only shm (name : string) : res positive :=
  match shm_names shm !! name with
  | Some o => Ok o
  | None => Exn "boost::interprocess_exception"
  end.

Definition create_server_queue (os_ok : bool * bool) shm (instrument_name : string)
  : Shm Q * res SharedQueue :=
  let req_name := make_queue_name instrument_name "req" in
  let resp_name := make_queue_name instrument_name "resp" in
  let shm := mq_remove (mq_remove shm req_name) resp_name in
  match mq_create_only os_ok.1 shm req_name with
  | (shm, Ok req) =>
      match mq_create_only os_ok.2 shm resp_name with
      | (shm, Ok resp) => (shm, Ok (mkSharedQueue (Some req) (Some resp) req_name resp_name true))
      | (shm, Exn e) => (shm, Exn e)
      | (shm, Undef) => (shm, Undef)
      end
  | (shm, Exn e) => (shm, Exn e)
  | (shm, Undef) => (shm, Undef)
  end.

Definition create_worker_queue shm (instrument_name : string) : res SharedQueue :=
  let req_name := make_queue_name instrument_name "req" in
  let resp_name := make_queue_name instrument_name "resp" in
  req ← mq_open_only shm req_name;
  resp ← mq_open_only shm resp_name;
  Ok (mkSharedQueue (Some req) (Some resp) req_name resp_name false).

Definition is_valid h : bool :=
  bool_decide (is_Some (request_queue_ h)) && bool_decide (is_Some (response_queue_ h)).

(** Server sends on the request queue, worker on the response queue. *)
Definition send_target h : option positive :=
  if is_server_ h then request_queue_ h else response_queue_ h.
Definition recv_source h : option positive :=
  if is_server_ h then response_queue_ h else request_queue_ h.

Definition send shm h m : Shm Q * bool :=
  if negb (is_valid h) then (shm, false)
  else
    match o ← send_target h; q ← shm_objects shm !! o; Some (o, q) with
    | Some (o, q) =>
        let '(out, q') := mq_timed_send q m sizeof_IPCMessage 0 in
        let shm' := mkShm (<[o := q']> (shm_objects shm)) (shm_names shm) (shm_next shm) in
        match out with
        | Sent => (shm', true)
        | SendTimedOut => (shm', false)
        | SendThrew => (shm', false)
        end
    | None => (shm, false)
    end.

Definition receive shm h : Shm Q * option IPCMessage :=
  if negb (is_valid h) then (shm, None)
  else
    match o ← recv_source h; q ← shm_objects shm !! o; Some (o, q) with
    | Some (o, q) =>
        let '(out, q') := mq_timed_receive q sizeof_IPCMessage in
        let shm' := mkShm (<[o := q']> (shm_objects shm)) (shm_names shm) (shm_next shm) in
        match out with
        | RecvTimedOut => (shm', None)
        | RecvThrew => (shm', None)
        | Received m size =>
            if negb (bool_decide (size = sizeof_IPCMessage)) then (shm', None) else (shm', Some m)
        end
    | None => (shm, None)
    end.

Definition cleanup shm (instrument_name : string) : Shm Q :=
  mq_remove (mq_remove shm (make_queue_name instrument_name "req"))
    (make_queue_name instrument_name "resp").

(** ** Views *)

(** The messages in the queue object behind a handle. *)
Definition contents shm (o : option positive) : list IPCMessage :=
  match (o ≫= (shm_objects shm !!.)) with Some q => e_msg <$> mq_entries q | None => [] end.

(** A queue as [create_server_queue] makes it, in which every message was sent
    by [send]. *)
Definition queue_ok (q : Q) : Prop :=
  mq_max_msg q = 100 ∧ mq_max_msg_size q = sizeof_IPCMessage ∧
  Forall (λ e, e_priority e = 0%N ∧ e_size e = sizeof_IPCMessage) (mq_entries q).

(** Both queues of a handle exist and are distinct. *)
Definition connected shm h : Prop :=
  ∃ req resp qr qs,
    request_queue_ h = Some req ∧ response_queue_ h = Some resp ∧ req ≠ resp ∧
    shm_objects shm !! req = Some qr ∧ shm_objects shm !! resp = Some qs ∧
    queue_ok qr ∧ queue_ok qs.

(** The two ends of one channel. *)
Definition peer h : SharedQueue :=
  mkSharedQueue (request_queue_ h) (response_queue_ h) (request_queue_name_ h)
    (response_queue_name_ h) (negb (is_server_ h)).

End Queues.

(** ** A concrete queue *)

Module ListQueue.

Record listq := mkListQ { lq_max : nat; lq_size : nat; lq_entries : list entry }.

#[refine, global] Instance list_queue : MessageQueue listq := {|
  mq_create n sz := mkListQ n sz [];
  mq_max_msg := lq_max;
  mq_max_msg_size := lq_size;
  mq_entries := lq_entries;
  mq_timed_send q m sz prio :=
    if bool_decide (lq_size q < sz) then (SendThrew, q)
    else if bool_decide (length (lq_entries q) < lq_max q)
    then (Sent, mkListQ (lq_max q) (lq_size q) (enqueue (mkEntry prio sz m) (lq_entries q)))
    else (SendTimedOut, q);
  mq_timed_receive q buf :=
    if bool_decide (buf < lq_size q) then (RecvThrew, q)
    else match lq_entries q with
         | e :: es => (Received (e_msg e) (e_size e), mkListQ (lq_max q) (lq_size q) es)
         | [] => (RecvTimedOut, q)
         end
|}.
Proof.
  - done.
  - intros q m sz prio. repeat case_bool_decide; done.
  - intros q buf. case_bool_decide; [done|]. by destruct (lq_entries q) eqn:E.
Defined.

End ListQueue.

(** ** Queue names *)

Definition suffix_ok (s : string) : Prop := s = "req" ∨ s = "resp".

Lemma make_queue_name_inj i j s t :
  suffix_ok s → suffix_ok t → make_queue_name i s = make_queue_name j t → i = j ∧ s = t.
Proof.
  intros Hs Ht H. apply (f_equal chars) in H. unfold make_queue_name in H.
  rewrite !chars_app in H. apply app_inv_head in H.
  destruct Hs as [->| ->], Ht as [->| ->]; cbn in H.
  - apply app_inv_tail in H. by apply chars_inj in H.
  - exfalso. apply (f_equal last) in H. rewrite !last_app in H. cbn in H. done.
  - exfalso. apply (f_equal last) in H. rewrite !last_app in H. cbn in H. done.
  - apply app_inv_tail in H. by apply chars_inj in H.
Qed.

Lemma req_name_ne_resp_name i j : make_queue_name i "req" ≠ make_queue_name j "resp".
Proof.
  intros H. apply make_queue_name_inj in H as [_ H]; [done|by left|by right].
Qed.

(** ** Behaviour of a connected channel *)

Section Channel.
Context `{MQ : MessageQueue Q}.
Implicit Types (shm : Shm Q) (h : SharedQueue) (m : IPCMessage).

Lemma connected_valid shm h : connected shm h → is_valid h = true.
Proof.
  intros (req & resp & ? & ? & H1 & H2 & _). unfold is_valid. by rewrite H1, H2.
Qed.

Lemma connected_peer shm h : connected shm h → connected shm (peer h).
Proof. done. Qed.

Lemma peer_recv_source h : recv_source (peer h) = send_target h.
Proof. unfold recv_source, send_target, peer; cbn. by destruct (is_server_ h). Qed.

Lemma peer_send_target h : send_target (peer h) = recv_source h.
Proof. unfold recv_source, send_target, peer; cbn. by destruct (is_server_ h). Qed.

(** The queue a handle writes to and the one it reads from are two different
    objects. *)
Lemma connected_ends shm h :
  connected shm h →
  ∃ o o' q q', send_target h = Some o ∧ recv_source h = Some o' ∧ o ≠ o' ∧
    shm_objects shm !! o = Some q ∧ shm_objects shm !! o' = Some q' ∧ queue_ok q ∧ queue_ok q'.
Proof.
  intros (req & resp & qr & qs & H1 & H2 & Hne & ? & ? & ? & ?).
  unfold send_target, recv_source. destruct (is_server_ h).
  - exists req, resp, qr, qs. done.
  - exists resp, req, qs, qr. done.
Qed.

Lemma connected_update shm h o q q' :
  connected shm h → shm_objects shm !! o = Some q → queue_ok q' →
  connected (mkShm (<[o := q']> (shm_objects shm)) (shm_names shm) (shm_next shm)) h.
Proof.
  intros (req & resp & qr & qs & H1 & H2 & Hne & Hr & Hs & Hcr & Hcs) Ho Hc.
  exists req, resp, (if decide (o = req) then q' else qr), (if decide (o = resp) then q' else qs).
  cbn. rewrite !lookup_insert. split_and!; try done; repeat case_decide; simplify_eq; done.
Qed.

Lemma contents_update shm o q' o' :
  contents (mkShm (<[o := q']> (shm_objects shm)) (shm_names shm) (shm_next shm)) (Some o') =
  if decide (o = o') then e_msg <$> mq_entries q' else contents shm (Some o').
Proof. unfold contents; cbn. rewrite lookup_insert. by case_decide. Qed.

(** Where all entries have one priority a new one goes to the end. *)
Lemma enqueue_last e l :
  Forall (λ e', e_priority e' = e_priority e) l → enqueue e l = l ++ [e].
Proof.
  induction 1 as [|e' l He Hl IH]; cbn; [done|]. by rewrite bool_decide_eq_true_2, IH by lia.
Qed.

(** What [send] and [receive] do to a queue that only they use. *)
Lemma queue_send q m :
  queue_ok q →
  let r := mq_timed_send q m sizeof_IPCMessage 0 in
  queue_ok r.2 ∧
  r.1 = (if bool_decide (length (mq_entries q) < 100) then Sent else SendTimedOut) ∧
  (e_msg <$> mq_entries r.2) =
    (e_msg <$> mq_entries q) ++ (if bool_decide (length (mq_entries q) < 100) then [m] else []).
Proof.
  intros (Hn & Hsz & Hall). cbn zeta.
  destruct (mq_send_spec q m sizeof_IPCMessage 0) as (H1 & H2 & H3).
  rewrite Hsz, Hn, bool_decide_eq_false_2 in H3 by lia.
  rewrite enqueue_last in H3 by (eapply Forall_impl; [exact Hall|]; by intros e [-> _]).
  unfold queue_ok. rewrite H1, H2. case_bool_decide; destruct H3 as [-> ->].
  - split_and!; [done|done| |done|by rewrite fmap_app]. apply Forall_app. by repeat constructor.
  - by rewrite app_nil_r.
Qed.

Lemma queue_receive q :
  queue_ok q →
  let r := mq_timed_receive q sizeof_IPCMessage in
  queue_ok r.2 ∧
  r.1 = match mq_entries q with e :: _ => Received (e_msg e) sizeof_IPCMessage | [] => RecvTimedOut end ∧
  mq_entries r.2 = tail (mq_entries q).
Proof.
  intros (Hn & Hsz & Hall). cbn zeta.
  destruct (mq_receive_spec q sizeof_IPCMessage) as (H1 & H2 & H3).
  rewrite Hsz, bool_decide_eq_false_2 in H3 by lia. unfold queue_ok. rewrite H1, H2.
  destruct (mq_entries q) as [|e es]; destruct H3 as [-> ->]; [done|].
  apply Forall_cons in Hall as [[_ ->] Hes]. done.
Qed.

Lemma send_spec shm h m :
  connected shm h →
  let r := send shm h m in
  connected r.1 h ∧ contents r.1 (recv_source h) = contents shm (recv_source h) ∧
  r.2 = bool_decide (length (contents shm (send_target h)) < 100) ∧
  contents r.1 (send_target h) =
    contents shm (send_target h) ++ (if r.2 then [m] else []).
Proof.
  intros Hc. destruct (connected_ends _ _ Hc) as (o & o' & q & q' & Ht & Hs & Hne & Ho & Ho' & Hq & _).
  cbn zeta. unfold send. rewrite (connected_valid _ _ Hc), Ht, Hs. cbn. rewrite Ho. cbn.
  destruct (queue_send q m Hq) as (Hok & Hout & Hm).
  assert (contents shm (Some o) = e_msg <$> mq_entries q) as Hcont by (unfold contents; cbn; by rewrite Ho).
  rewrite Hcont, length_fmap.
  destruct (mq_timed_send q m sizeof_IPCMessage 0) as [out q'']; cbn in *. subst out.
  case_bool_decide; cbn; rewrite !contents_update, !decide_False, decide_True by done;
    (split_and!; [by eapply connected_update|done..]).
Qed.

Lemma receive_spec shm h :
  connected shm h →
  let r := receive shm h in
  connected r.1 h ∧ contents r.1 (send_target h) = contents shm (send_target h) ∧
  r.2 = head (contents shm (recv_source h)) ∧
  contents r.1 (recv_source h) = tail (contents shm (recv_source h)).
Proof.
  intros Hc. destruct (connected_ends _ _ Hc) as (o & o' & q & q' & Ht & Hs & Hne & Ho & Ho' & _ & Hq).
  cbn zeta. unfold receive. rewrite (connected_valid _ _ Hc), Ht, Hs. cbn. rewrite Ho'. cbn.
  destruct (queue_receive q' Hq) as (Hok & Hout & Hm).
  assert (contents shm (Some o') = e_msg <$> mq_entries q') as -> by (unfold contents; cbn; by rewrite Ho').
  destruct (mq_timed_receive q' sizeof_IPCMessage) as [out q'']; cbn in *. subst out.
  destruct (mq_entries q') as [|e es]; cbn in Hm;
    rewrite ?(bool_decide_eq_true_2 (sizeof_IPCMessage = _)) by done; cbn;
    rewrite !contents_update, !decide_False, decide_True by done;
    (split_and!; [by eapply connected_update|done|done|]); by rewrite Hm.
Qed.

(** Messages sent one after the other. *)
Fixpoint send_all shm h (ms : list IPCMessage) : Shm Q * list bool :=
  match ms with
  | [] => (shm, [])
  | m :: ms => let '(shm, ok) := send shm h m in
               let '(shm, oks) := send_all shm h ms in (shm, ok :: oks)
  end.

Lemma send_all_spec shm h ms :
  connected shm h → length (contents shm (send_target h)) + length ms ≤ 100 →
  let r := send_all shm h ms in
  connected r.1 h ∧ r.2 = replicate (length ms) true ∧
  contents r.1 (send_target h) = contents shm (send_target h) ++ ms ∧
  contents r.1 (recv_source h) = contents shm (recv_source h).
Proof.
  revert shm. induction ms as [|m ms IH]; intros shm Hc Hlen; cbn.
  { by rewrite app_nil_r. }
  destruct (send_spec shm h m Hc) as (Hc1 & Hr & Hok & Hs).
  destruct (send shm h m) as [shm1 ok]; cbn in *.
  rewrite bool_decide_eq_true_2 in Hok by lia. subst ok.
  destruct (IH shm1 Hc1) as (Hc2 & Hok2 & Hs2 & Hr2).
  { rewrite Hs, length_app. cbn. lia. }
  destruct (send_all shm1 h ms) as [shm2 oks]; cbn in *. rewrite Hok2, Hs2, Hr2, Hs, <-app_assoc. done.
Qed.

(** *** Traffic in both directions

    The two ends of a channel use it in any order; [true] is the end [h]. *)

Inductive chan_op := OpSend (m : IPCMessage) | OpReceive.
Inductive chan_event := Accepted (m : IPCMessage) | Refused (m : IPCMessage) | Got (m : IPCMessage) | Nothing.

Definition chan_end h (e : bool) : SharedQueue := if e then h else peer h.

Definition use_channel shm h (e : bool) (op : chan_op) : Shm Q * chan_event :=
  match op with
  | OpSend m => let '(shm, ok) := send shm (chan_end h e) m in (shm, if ok then Accepted m else Refused m)
  | OpReceive => let '(shm, om) := receive shm (chan_end h e) in
                 (shm, match om with Some m => Got m | None => Nothing end)
  end.

Fixpoint use_all shm h (ops : list (bool * chan_op)) : Shm Q * list (bool * chan_event) :=
  match ops with
  | [] => (shm, [])
  | (e, op) :: ops =>
      let '(shm, ev) := use_channel shm h e op in
      let '(shm, evs) := use_all shm h ops in (shm, (e, ev) :: evs)
  end.

(** What end [e] got into the channel, and what it took out of it. *)
Definition accepted_by (e : bool) (evs : list (bool * chan_event)) : list IPCMessage :=
  omap (λ x, match x.2 with Accepted m => if bool_decide (x.1 = e) then Some m else None | _ => None end) evs.
Definition got_by (e : bool) (evs : list (bool * chan_event)) : list IPCMessage :=
  omap (λ x, match x.2 with Got m => if bool_decide (x.1 = e) then Some m else None | _ => None end) evs.
Definition sent_by (e : bool) (ops : list (bool * chan_op)) : list IPCMessage :=
  omap (λ x, match x.2 with OpSend m => if bool_decide (x.1 = e) then Some m else None | _ => None end) ops.

(** The queue the messages of end [e] wait in. *)
Definition line shm h (e : bool) : list IPCMessage := contents shm (send_target (chan_end h e)).

Lemma use_channel_spec shm h e op :
  connected shm h →
  let r := use_channel shm h e op in
  connected r.1 h ∧ (∀ d, line shm h d ++ accepted_by d [(e, r.2)] = got_by (negb d) [(e, r.2)] ++ line r.1 h d) ∧
  (∀ d, length (line shm h d) + length (sent_by d [(e, op)]) ≤ 100 →
     accepted_by d [(e, r.2)] = sent_by d [(e, op)]).
Proof.
  intros Hc. assert (connected shm (chan_end h e)) as Hce by by destruct e.
  assert (∀ shm', connected shm' (chan_end h e) → connected shm' h) as Hback by by destruct e.
  assert (∀ d shm', line shm' h d = contents shm'
    (if bool_decide (d = e) then send_target (chan_end h e) else recv_source (chan_end h e))) as Hline.
  { intros d shm'. unfold line, chan_end. case_bool_decide; subst; [done|].
    destruct d, e; try done; cbn [negb]; by rewrite ?peer_recv_source, ?peer_send_target. }
  unfold accepted_by, got_by, sent_by, use_channel. cbn zeta.
  generalize dependent (chan_end h e). intros he Hce Hback Hline.
  destruct op as [m|].
  - destruct (send_spec shm he m Hce) as (H1 & H2 & H3 & H4).
    destruct (send shm he m) as [shm' ok]. cbn [fst snd] in *. split_and!; [by apply Hback| |].
    + intros d. rewrite !Hline. destruct ok; cbn; case_bool_decide as Hd; subst;
        repeat (case_bool_decide; try congruence); rewrite ?H2, ?H4; by rewrite ?app_nil_r.
    + intros d. rewrite Hline. destruct (decide (e = d)) as [->|Hne].
      * cbn. rewrite !bool_decide_eq_true_2 by done. cbn. intros Hlt.
        rewrite bool_decide_eq_true_2 in H3 by lia. by subst ok.
      * intros _. destruct ok; cbn; by rewrite ?bool_decide_eq_false_2.
  - destruct (receive_spec shm he Hce) as (H1 & H2 & H3 & H4).
    destruct (receive shm he) as [shm' om]. cbn [fst snd] in *. subst om.
    split_and!; [by apply Hback| |by destruct (head _)].
    intros d. rewrite !Hline. destruct (contents shm (recv_source he)) as [|m ms] eqn:E; cbn in *.
    + case_bool_decide; by rewrite ?app_nil_r, ?H2, ?H4, ?E.
    + rewrite app_nil_r. destruct (decide (d = e)) as [->|Hne].
      * rewrite bool_decide_eq_true_2, bool_decide_eq_false_2 by (done || by destruct e). by rewrite H2.
      * rewrite bool_decide_eq_false_2, bool_decide_eq_true_2 by (done || by destruct d, e). by rewrite H4.
Qed.

Lemma omap_cons_app {A B} (f : A → option B) x l : omap f (x :: l) = omap f [x] ++ omap f l.
Proof. cbn. by destruct (f x). Qed.

Lemma use_all_spec shm h ops :
  connected shm h →
  let r := use_all shm h ops in
  connected r.1 h ∧
  ∀ e, line shm h e ++ accepted_by e r.2 = got_by (negb e) r.2 ++ line r.1 h e ∧
       (length (line shm h e) + length (sent_by e ops) ≤ 100 → accepted_by e r.2 = sent_by e ops).
Proof.
  revert shm. induction ops as [|[e op] ops IH]; intros shm Hc; cbn zeta.
  { split; [done|]. intros e. cbn. by rewrite app_nil_r. }
  cbn [use_all]. destruct (use_channel_spec shm h e op Hc) as (H1 & H2 & H3).
  destruct (use_channel shm h e op) as [shm1 ev]. cbn [fst snd] in *.
  destruct (IH shm1 H1) as [H4 H5]. destruct (use_all shm1 h ops) as [shm2 evs]. cbn [fst snd] in *.
  split; [done|]. intros d. specialize (H2 d). destruct (H5 d) as [H6 H7].
  unfold accepted_by, got_by, sent_by in *.
  rewrite (omap_cons_app _ (e, ev) evs), (omap_cons_app _ (e, ev) evs), (omap_cons_app _ (e, op) ops).
  split; [by rewrite app_assoc, H2, <-app_assoc, H6, app_assoc|].
  rewrite length_app. intros Hlen. pose proof (f_equal length H2) as Hl. rewrite !length_app in Hl.
  specialize (H3 d). rewrite H3 in * by lia. f_equal. apply H7. lia.
Qed.

Lemma create_server_queue_ok shm name :
  shm_wf shm →
  let r := create_server_queue (true, true) shm name in
  ∃ h, r.2 = Ok h ∧ is_server_ h = true ∧ connected r.1 h ∧
       contents r.1 (request_queue_ h) = [] ∧ contents r.1 (response_queue_ h) = [] ∧
       create_worker_queue r.1 name = Ok (peer h).
Proof.
  intros Hfresh. cbn zeta. unfold create_server_queue, mq_create_only, mq_remove; cbn.
  pose proof (req_name_ne_resp_name name name) as Hne.
  rewrite (bool_decide_eq_true_2 (_ = None)) by by rewrite lookup_delete_ne, lookup_delete_eq.
  cbn. rewrite (bool_decide_eq_true_2 (_ = None)) by by rewrite lookup_insert_ne, lookup_delete_eq.
  cbn. eexists. split; [done|]. cbn. split; [done|].
  pose proof (mq_create_spec 100 sizeof_IPCMessage) as (Hcap & Hsize & Hempty).
  assert (queue_ok (mq_create 100 sizeof_IPCMessage)) as Hok by (unfold queue_ok; by rewrite Hempty).
  assert (shm_next shm ≠ Pos.succ (shm_next shm)) as Hn by lia.
  split_and!.
  - exists (shm_next shm), (Pos.succ (shm_next shm)),
      (mq_create 100 sizeof_IPCMessage), (mq_create 100 sizeof_IPCMessage). cbn.
    split_and!; try done.
    + by rewrite lookup_insert_ne, lookup_insert_eq by done.
    + by rewrite lookup_insert_eq.
  - unfold contents; cbn. by rewrite lookup_insert_ne, lookup_insert_eq; cbn; [rewrite Hempty|done].
  - unfold contents; cbn. rewrite lookup_insert_eq. cbn. by rewrite Hempty.
  - unfold create_worker_queue, mq_open_only; cbn.
    rewrite lookup_insert_eq.
    rewrite (lookup_insert_ne _ _ (make_queue_name name "req")), lookup_insert_eq by congruence.
    done.
Qed.

(** ** Properties *)

(** C9. A channel is first in first out in both directions and loses nothing:
    however the two ends of a channel interleave [send] and [receive], what
    waited at the start followed by what one end got accepted is what the other
    end received, in that order, followed by what still waits; and an end that
    never has more than 100 messages to place is never refused. *)
Theorem channel_fifo shm h ops :
  connected shm h →
  let r := use_all shm h ops in
  connected r.1 h ∧
  ∀ e, line shm h e ++ accepted_by e r.2 = got_by (negb e) r.2 ++ line r.1 h e ∧
       (length (line shm h e) + length (sent_by e ops) ≤ 100 → accepted_by e r.2 = sent_by e ops).
Proof. apply use_all_spec. Qed.

(** Creating the server's queues connects the two processes: with the
    system granting the memory, whatever queues were left over under these
    names, the server gets a handle to two fresh empty queues and the worker
    that opens them by name gets the other end of the same channel.  Queues of
    different instruments have different names, so other instruments' channels
    are not affected. *)
Theorem channel_established shm name other o :
  shm_wf shm →
  other ≠ name → is_Some (shm_objects shm !! o) →
  let r := create_server_queue (true, true) shm name in
  (∃ h, r.2 = Ok h ∧ is_server_ h = true ∧ connected r.1 h ∧
        contents r.1 (request_queue_ h) = [] ∧ contents r.1 (response_queue_ h) = [] ∧
        create_worker_queue r.1 name = Ok (peer h)) ∧
  create_worker_queue r.1 other = create_worker_queue shm other ∧
  contents r.1 (Some o) = contents shm (Some o).
Proof.
  intros Hfresh Hne Ho. cbn zeta. split; [by apply create_server_queue_ok|].
  assert (∀ s t, suffix_ok s → suffix_ok t → make_queue_name name s ≠ make_queue_name other t) as Hnames.
  { intros s t Hs Ht H. apply make_queue_name_inj in H as [? _]; [|done..]. congruence. }
  pose proof (Hfresh o (proj2 (elem_of_dom _ _) Ho)) as Hlt. cbn in Hlt.
  unfold create_server_queue, mq_create_only, mq_remove; cbn.
  pose proof (req_name_ne_resp_name name name) as Hrr.
  rewrite (bool_decide_eq_true_2 (_ = None)) by by rewrite lookup_delete_ne, lookup_delete_eq.
  cbn. rewrite (bool_decide_eq_true_2 (_ = None)) by by rewrite lookup_insert_ne, lookup_delete_eq.
  cbn. split.
  - unfold create_worker_queue, mq_open_only; cbn.
    by rewrite !lookup_insert_ne, !lookup_delete_ne by (apply Hnames; unfold suffix_ok; auto).
  - unfold contents; cbn. by rewrite !lookup_insert_ne by lia.
Qed.

End Channel.

Definition two_messages : list IPCMessage :=
  [mkIPCMessage COMMAND 1 0 0 []; mkIPCMessage SHUTDOWN 0 0 0 []].

Lemma channel_fifo_witness :
  let shm := (create_server_queue (Q := ListQueue.listq) (true, true) empty_shm "DAC1").1 in
  let h := mkSharedQueue (Some 1%positive) (Some 2%positive)
             "instrument_DAC1_req" "instrument_DAC1_resp" true in
  let r := use_all shm h [(true, OpSend (mkIPCMessage COMMAND 1 0 0 [])); (false, OpReceive);
                          (true, OpSend (mkIPCMessage SHUTDOWN 0 0 0 [])); (false, OpReceive)] in
  accepted_by true r.2 = two_messages ∧ got_by false r.2 = two_messages.
Proof.
  cbn zeta. match goal with |- context [use_all ?shm ?h ?ops] =>
    destruct (channel_fifo (MQ := ListQueue.list_queue) shm h ops) as [_ H] end.
  - do 4 eexists. split_and!; try reflexivity; [discriminate|..]; (split_and!; [reflexivity..|constructor]).
  - destruct (H true) as [H1 H2]. rewrite H2 in H1 |- * by (vm_compute; lia). split; [reflexivity|].
    vm_compute in H1 |- *. by simplify_eq.
Defined.

Lemma channel_established_witness :
  let shm := (create_server_queue (Q := ListQueue.listq) (true, true) empty_shm "A").1 in
  create_worker_queue (create_server_queue (Q := ListQueue.listq) (true, true) shm "B").1 "A" =
  create_worker_queue shm "A".
Proof.
  apply (channel_established (MQ := ListQueue.list_queue)
    (create_server_queue (Q := ListQueue.listq) (true, true) empty_shm "A").1 "B" "A" 1).
  - apply (bool_decide_unpack _). vm_compute. exact I.
  - discriminate.
  - by eexists.
Defined.
