(* ===== verification/Plugin.v ===== *)
(** * The plugin interface and its C data

    Model of the structures of
    src/include/instrument-server/plugin/PluginInterface.h and of the two
    conversions of src/src/workers/generic_worker_main.cpp between the server's
    commands and responses and the plugin's. *)

From S2P Require Import Prelude Json SerializedCommand.

Definition INSTRUMENT_PLUGIN_API_VERSION : Z := 1.
Definition PLUGIN_MAX_STRING_LEN : nat := 128.
Definition PLUGIN_MAX_PARAMS : nat := 16.
Definition PLUGIN_MAX_PAYLOAD : nat := 4096.

(** ** C strings

    A [char] array that was zeroed and then filled by [strncpy] with its size
    less one is modelled by the text it holds: what precedes the first NUL of
    the source, cut to the room there is. *)

Fixpoint until_nul (l : list ascii) : list ascii :=
  match l with
  | [] => []
  | c :: l => if bool_decide (c = "000"%char) then [] else c :: until_nul l
  end.

Definition strncpy (n : nat) (s : string) : string := of_chars (take n (until_nul (chars s))).

Lemma strncpy_length n s : length (chars (strncpy n s)) ≤ n.
Proof. unfold strncpy. rewrite chars_of_chars, length_take. lia. Qed.

Lemma until_nul_id l : "000"%char ∉ l → until_nul l = l.
Proof.
  induction l as [|c l IH]; cbn; [done|]. intros [Hc Hl]%not_elem_of_cons.
  rewrite bool_decide_eq_false_2 by congruence. by rewrite IH.
Qed.

Lemma strncpy_id n s :
  length (chars s) ≤ n → ("000"%char ∉ chars s) → strncpy n s = s.
Proof.
  intros Hn Hs. unfold strncpy. by rewrite until_nul_id, take_ge, of_chars_chars.
Qed.

(** ** Values *)

(** [PluginParamType] and [PluginParamValue]: the tag with the union member it
    selects. *)
Inductive PluginParamValue :=
| PARAM_TYPE_NONE
| PARAM_TYPE_INT32 (i32_val : Z)
| PARAM_TYPE_INT64 (i64_val : Z)
| PARAM_TYPE_UINT32 (u32_val : Z)
| PARAM_TYPE_UINT64 (u64_val : Z)
| PARAM_TYPE_FLOAT (f_val : double)
| PARAM_TYPE_DOUBLE (d_val : double)
| PARAM_TYPE_BOOL (b_val : bool)
| PARAM_TYPE_STRING (str_val : string)
| PARAM_TYPE_BINARY (binary : list Z)
| PARAM_TYPE_ARRAY_DOUBLE (array_double : list double)
| PARAM_TYPE_ARRAY_INT32 (array_int32 : list Z).

Record PluginParam := mkPluginParam {
  param_name : string;
  param_value : PluginParamValue
}.

(** [params] holds the first [param_count] entries of the array. *)
Record PluginCommand := mkPluginCommand {
  pcmd_id : string;
  pcmd_instrument_name : string;
  pcmd_verb : string;
  pcmd_params : list PluginParam;
  pcmd_timeout_ms : Z;
  pcmd_expects_response : bool
}.

Record PluginConfig := mkPluginConfig {
  pc_instrument_name : string;
  pc_connection_json : string;
  pc_api_definition_json : string
}.

Record PluginResponse := mkPluginResponse {
  presp_command_id : string;
  presp_instrument_name : string;
  presp_success : bool;
  presp_return_value : PluginParamValue;
  presp_text_response : string;
  presp_error_code : Z;
  presp_error_message : string;
  presp_has_large_data : bool;
  presp_data_buffer_id : string;
  presp_data_element_count : Z;
  presp_data_type : Z
}.

(** [PluginResponse plugin_resp = {}] *)
Definition zero_response : PluginResponse :=
  mkPluginResponse EmptyString EmptyString false PARAM_TYPE_NONE EmptyString 0 EmptyString
    false EmptyString 0 0.

(** ** To the plugin *)

(** A [std::vector<double>] has no branch: the value stays as zeroed. *)
Definition to_plugin_value (v : ParamValue) : PluginParamValue :=
  match v with
  | PDouble d => PARAM_TYPE_DOUBLE d
  | PInt i => PARAM_TYPE_INT64 i
  | PString s => PARAM_TYPE_STRING (strncpy (PLUGIN_MAX_STRING_LEN - 1) s)
  | PBool b => PARAM_TYPE_BOOL b
  | PArray _ => PARAM_TYPE_NONE
  end.

Definition to_plugin_param (kv : string * ParamValue) : PluginParam :=
  mkPluginParam (strncpy (PLUGIN_MAX_STRING_LEN - 1) kv.1) (to_plugin_value kv.2).

(** The loop over the unordered map stops at [PLUGIN_MAX_PARAMS]; [kvs] is the
    order it visits.  [timeout_ms] is not assigned. *)
Definition to_plugin_command (kvs : list (string * ParamValue)) (cmd : SerializedCommand)
  : PluginCommand :=
  mkPluginCommand
    (strncpy (PLUGIN_MAX_STRING_LEN - 1) (cmd_id cmd))
    (strncpy (PLUGIN_MAX_STRING_LEN - 1) (cmd_instrument_name cmd))
    (strncpy (PLUGIN_MAX_STRING_LEN - 1) (cmd_verb cmd))
    (to_plugin_param <$> take PLUGIN_MAX_PARAMS kvs)
    0 (cmd_expects_response cmd).

(** ** From the plugin *)

Definition from_plugin_value (v : PluginParamValue) : option ParamValue :=
  match v with
  | PARAM_TYPE_DOUBLE d => Some (PDouble d)
  | PARAM_TYPE_INT64 i => Some (PInt i)
  | PARAM_TYPE_STRING s => Some (PString s)
  | PARAM_TYPE_BOOL b => Some (PBool b)
  | _ => None
  end.

Definition plugin_data_type_name (t : Z) : string :=
  if bool_decide (t = 0%Z) then "float32"
  else if bool_decide (t = 1%Z) then "float64"
  else if bool_decide (t = 2%Z) then "int32"
  else if bool_decide (t = 3%Z) then "int64"
  else "unknown".

Definition from_plugin_response (p : PluginResponse) : CommandResponse :=
  mkResponse (presp_command_id p) (presp_instrument_name p) (presp_success p)
    (presp_error_code p) (presp_error_message p) (presp_text_response p)
    (if presp_success p then from_plugin_value (presp_return_value p) else None)
    (presp_has_large_data p)
    (if presp_has_large_data p then presp_data_buffer_id p else EmptyString)
    (if presp_has_large_data p then presp_data_element_count p else 0)
    (if presp_has_large_data p then plugin_data_type_name (presp_data_type p) else EmptyString).

(** ** Properties *)

(** [t] is what a [char] array of 128 zero bytes holds after [s] was copied into
    it with room for the terminating zero: the longest beginning of [s] that has
    no zero byte and at most 127 characters. *)
Definition held (s t : string) : Prop :=
  chars t `prefix_of` chars s ∧ ("000"%char ∉ chars t) ∧ length (chars t) < PLUGIN_MAX_STRING_LEN ∧
  (length (chars t) < PLUGIN_MAX_STRING_LEN - 1 →
     t = s ∨ ∃ rest, chars s = chars t ++ "000"%char :: rest).

(** A value of the server and the tagged union it becomes. *)
Definition value_held (v : ParamValue) (q : PluginParamValue) : Prop :=
  match v, q with
  | PDouble d, PARAM_TYPE_DOUBLE d' => d' = d
  | PInt i, PARAM_TYPE_INT64 i' => i' = i
  | PString s, PARAM_TYPE_STRING t => held s t
  | PBool b, PARAM_TYPE_BOOL b' => b' = b
  | PArray _, PARAM_TYPE_NONE => True
  | _, _ => False
  end.

Definition param_held (kv : string * ParamValue) (q : PluginParam) : Prop :=
  held kv.1 (param_name q) ∧ value_held kv.2 (param_value q).

Lemma until_nul_split l :
  until_nul l = l ∨ ∃ rest, l = until_nul l ++ "000"%char :: rest.
Proof.
  induction l as [|c l IH]; cbn; [by left|]. case_bool_decide as Hc; [subst; right; by exists l|].
  destruct IH as [->|[rest Hr]]; [by left|right]. exists rest. cbn. by rewrite <-Hr.
Qed.

Lemma until_nul_none l : "000"%char ∉ until_nul l.
Proof. induction l as [|c l IH]; cbn; [set_solver|]. case_bool_decide; set_solver. Qed.

Lemma strncpy_held s : held s (strncpy (PLUGIN_MAX_STRING_LEN - 1) s).
Proof.
  unfold held, strncpy. rewrite !chars_of_chars, length_take.
  destruct (until_nul_split (chars s)) as [E|[rest E]]; split_and!.
  - rewrite E. apply prefix_take.
  - intros H%subseteq_take. by apply until_nul_none in H.
  - unfold PLUGIN_MAX_STRING_LEN. lia.
  - intros Hlt. left. rewrite take_ge by lia. by rewrite E, of_chars_chars.
  - etrans; [apply prefix_take|]. rewrite E at 2. by apply prefix_app_r.
  - intros H%subseteq_take. by apply until_nul_none in H.
  - unfold PLUGIN_MAX_STRING_LEN. lia.
  - intros Hlt. right. exists rest. rewrite take_ge by lia. done.
Qed.

Lemma to_plugin_param_held kv : param_held kv (to_plugin_param kv).
Proof.
  split; [apply strncpy_held|]. destruct kv as [k [d|i|s|b|l]]; cbn; try done. apply strncpy_held.
Qed.

(** C10. What reaches a plugin stays inside the C structures and means what the
    command says: id, instrument, verb, the names of parameters and the string
    values are cut to 127 bytes with a terminating zero left, there are at most
    16 parameters, the first ones the loop over the map visits, each with its
    type and value (an array of numbers has none), and a command with at most 16
    parameters delivers every one of them, whatever the iteration order. *)
Theorem plugin_command_bounds kvs cmd :
  is_iteration kvs (cmd_params cmd) →
  let p := to_plugin_command kvs cmd in
  held (cmd_id cmd) (pcmd_id p) ∧ held (cmd_instrument_name cmd) (pcmd_instrument_name p) ∧
  held (cmd_verb cmd) (pcmd_verb p) ∧ pcmd_expects_response p = cmd_expects_response cmd ∧
  length (pcmd_params p) = min PLUGIN_MAX_PARAMS (size (cmd_params cmd)) ∧
  Forall2 param_held (take PLUGIN_MAX_PARAMS kvs) (pcmd_params p) ∧
  (size (cmd_params cmd) ≤ PLUGIN_MAX_PARAMS →
   ∀ k v, cmd_params cmd !! k = Some v → ∃ q, q ∈ pcmd_params p ∧ param_held (k, v) q).
Proof.
  intros Hit. unfold is_iteration in Hit.
  assert (length kvs = size (cmd_params cmd)) as Hlen by (by rewrite Hit, length_map_to_list).
  cbn zeta. unfold to_plugin_command. cbn [pcmd_params pcmd_verb pcmd_id pcmd_instrument_name].
  split_and!; try apply strncpy_held; [done| | |].
  - by rewrite length_fmap, length_take, Hlen.
  - apply Forall2_fmap_r, Forall_Forall2_diag, Forall_true. apply to_plugin_param_held.
  - intros Hsize k v Hkv. exists (to_plugin_param (k, v)). split; [|apply to_plugin_param_held].
    rewrite take_ge by lia. apply list_elem_of_fmap. exists (k, v). split; [done|].
    rewrite Hit. by apply elem_of_map_to_list.
Qed.

Lemma plugin_command_bounds_witness :
  length (pcmd_params (to_plugin_command (map_to_list (cmd_params sample_command)) sample_command)) = 5 ∧
  Forall2 param_held (take PLUGIN_MAX_PARAMS (map_to_list (cmd_params sample_command)))
    (pcmd_params (to_plugin_command (map_to_list (cmd_params sample_command)) sample_command)).
Proof.
  destruct (plugin_command_bounds (map_to_list (cmd_params sample_command)) sample_command)
    as (_ & _ & _ & _ & Hlen & Hall & _); [unfold is_iteration; reflexivity|].
  split; [rewrite Hlen; vm_compute; reflexivity|exact Hall].
Defined.
