(* ===== verification/Worker.v ===== *)
(** * The worker process

    Model of [class Instrument] of src/src/workers/generic_worker_main.cpp: the
    loop that receives messages from the server, runs commands in the plugin
    and answers.  The plugin is a shared library loaded at run time and hence a
    parameter: [execute_command] is [PluginLoader::execute_command], from the
    plugin's state and the zeroed response to the return code, the filled
    response and the new state.  [iter] is the iteration order of
    [std::unordered_map]. *)

From S2P Require Import Prelude Json SerializedCommand Ipc Plugin.

Definition HEARTBEAT_INTERVAL : Z := 500.  (* milliseconds *)

(** The members of [Instrument] that change, and the flag [g_running]. *)
Record Worker (P : Type) := mkWorker {
  instrument_name_ : string;
  waiting_sync_token_ : option Z;
  g_running : bool;
  last_heartbeat_ : Z;
  plugin_ : P
}.
Arguments mkWorker {P}. Arguments instrument_name_ {P}. Arguments waiting_sync_token_ {P}.
Arguments g_running {P}. Arguments last_heartbeat_ {P}. Arguments plugin_ {P}.

(** How a process's loop ended, or that it is still going. *)
Inductive loop_status := StillRunning | LoopExited | Crashed (what : string) | LoopUndef.

Section Worker.
Context `{JT : JsonText}.
Context {P : Type}.
Context (execute_command : P → PluginCommand → PluginResponse → Z * PluginResponse * P).
Context (iter : gmap string ParamValue → list (string * ParamValue)).
Implicit Types (w : Worker P) (msg : IPCMessage).

Definition set_waiting w (t : option Z) : Worker P :=
  mkWorker (instrument_name_ w) t (g_running w) (last_heartbeat_ w) (plugin_ w).
Definition set_plugin w (p : P) : Worker P :=
  mkWorker (instrument_name_ w) (waiting_sync_token_ w) (g_running w) (last_heartbeat_ w) p.

(** The synthetic answer to [__BARRIER_NOP__]; the plugin is not called. *)
Definition nop_response (cmd : SerializedCommand) : PluginResponse :=
  mkPluginResponse
    (strncpy (PLUGIN_MAX_STRING_LEN - 1) (cmd_id cmd))
    (strncpy (PLUGIN_MAX_STRING_LEN - 1) (cmd_instrument_name cmd))
    true PARAM_TYPE_NONE
    (strncpy (PLUGIN_MAX_PAYLOAD - 1) "BARRIER_NOP")
    0 EmptyString false EmptyString 0 0.

(** Run a command in the plugin, or answer the no-op. *)
Definition execute (p : P) (cmd : SerializedCommand) : PluginResponse * P :=
  if bool_decide (cmd_verb cmd = "__BARRIER_NOP__") then (nop_response cmd, p)
  else let '(_, r, p') := execute_command p (to_plugin_command (iter (cmd_params cmd)) cmd)
                            zero_response in (r, p').

Definition deserialize_command_from_msg (now : Z) msg : res SerializedCommand :=
  deserialize_command now (payload_of msg).

Definition send_command_response msg (cmd : SerializedCommand) (r : PluginResponse)
  : res IPCMessage :=
  resp_payload ← serialize_response (from_plugin_response r);
  Ok (set_payload (mkIPCMessage RESPONSE (msg_id msg) (default 0%Z (cmd_sync_token cmd)) 0
                     zero_payload) resp_payload).

Definition send_sync_ack msg (sync_token : Z) : IPCMessage :=
  mkIPCMessage SYNC_ACK (msg_id msg) sync_token 0 zero_payload.

(** The messages are those handed to [ipc_queue_->send], in order; its result
    is ignored by the code. *)
Definition handle_command (now : Z) w msg : res (Worker P * list IPCMessage) :=
  cmd ← deserialize_command_from_msg now msg;
  let '(r, p') := execute (plugin_ w) cmd in
  let w := set_plugin w p' in
  resp_msg ← send_command_response msg cmd r;
  match cmd_sync_token cmd with
  | None => Ok (w, [resp_msg])
  | Some t =>
      Ok (if cmd_is_sync_barrier cmd then set_waiting w (Some t) else w,
          [resp_msg; send_sync_ack msg t])
  end.

Definition handle_shutdown w : Worker P :=
  mkWorker (instrument_name_ w) (waiting_sync_token_ w) false (last_heartbeat_ w) (plugin_ w).

Definition handle_sync_continue w msg : Worker P :=
  match waiting_sync_token_ w with
  | Some t => if bool_decide (msg_sync_token msg = t) then set_waiting w None else w
  | None => w
  end.

Definition process_message (now : Z) w msg : res (Worker P * list IPCMessage) :=
  match msg_type msg with
  | SHUTDOWN => Ok (handle_shutdown w, [])
  | SYNC_CONTINUE => Ok (handle_sync_continue w msg, [])
  | COMMAND =>
      match waiting_sync_token_ w with
      | None => handle_command now w msg
      | Some _ => Ok (w, [])
      end
  | _ => Ok (w, [])
  end.

Definition heartbeat : IPCMessage := mkIPCMessage HEARTBEAT 0 0 0 zero_payload.

Definition send_heartbeat_if_needed (now : Z) w : Worker P * list IPCMessage :=
  if bool_decide (HEARTBEAT_INTERVAL ≤ now - last_heartbeat_ w)%Z then
    (mkWorker (instrument_name_ w) (waiting_sync_token_ w) (g_running w) now (plugin_ w),
     [heartbeat])
  else (w, []).

(** [main_loop], for the times it reads and the outcomes of [receive] (a
    message, or none before the timeout). *)
Fixpoint main_loop w (inputs : list (Z * option IPCMessage))
  : Worker P * list IPCMessage * loop_status :=
  if negb (g_running w) then (w, [], LoopExited)
  else
    match inputs with
    | [] => (w, [], StillRunning)
    | (now, in_msg) :: inputs =>
        let '(w1, hb) := send_heartbeat_if_needed now w in
        match in_msg with
        | None => let '(w', out, st) := main_loop w1 inputs in (w', hb ++ out, st)
        | Some msg =>
            match process_message now w1 msg with
            | Ok (w2, sent) =>
                let '(w', out, st) := main_loop w2 inputs in (w', hb ++ sent ++ out, st)
            | Exn e => (w1, hb, Crashed e)
            | Undef => (w1, hb, LoopUndef)
            end
        end
    end.

(** *** Start and end of the process *)

(** [PluginLoader::initialize] and [PluginLoader::shutdown] of the plugin. *)
Context (initialize : P → PluginConfig → Z * P).
Context (shutdown : P → P).

(** The configuration the worker hands to every plugin. *)
Definition worker_config (instrument_name : string) : PluginConfig :=
  mkPluginConfig (strncpy (PLUGIN_MAX_STRING_LEN - 1) instrument_name)
    (strncpy (PLUGIN_MAX_STRING_LEN - 1) "{}") EmptyString.

(** Whether the plugin is ready, and its state. *)
Definition load_and_init_plugin (instrument_name : string) (loaded : bool) (p : P) : P * bool :=
  if negb loaded then (p, false)
  else
    let '(init_result, p) := initialize p (worker_config instrument_name) in
    (p, bool_decide (init_result = 0%Z)).

(** [queue] is what [create_worker_queue] gives; with a queue that is not valid
    the plugin is shut down again, an exception leaves [run]. *)
Definition connect_ipc_queue (queue : res SharedQueue) (p : P) : P * res bool :=
  match queue with
  | Ok h => if is_valid h then (p, Ok true) else (shutdown p, Ok false)
  | Exn e => (p, Exn e)
  | Undef => (p, Undef)
  end.

(** [run] in the [try] block of [main]: the plugin's state, the messages sent and
    the exit code, [None] while the process runs.  [now] is the time when the
    worker is made. *)
Definition run (instrument_name : string) (loaded : bool) (queue : res SharedQueue) (now : Z) (p : P)
  (inputs : list (Z * option IPCMessage)) : P * list IPCMessage * option Z :=
  let '(p, ready) := load_and_init_plugin instrument_name loaded p in
  if negb ready then (p, [], Some 1%Z)
  else
    match connect_ipc_queue queue p with
    | (p, Ok true) =>
        match main_loop (mkWorker instrument_name None true now p) inputs with
        | (w, out, LoopExited) => (shutdown (plugin_ w), out, Some 0%Z)
        | (w, out, Crashed _) => (plugin_ w, out, Some 1%Z)
        | (w, out, _) => (plugin_ w, out, None)
        end
    | (p, Ok false) | (p, Exn _) => (p, [], Some 1%Z)
    | (p, Undef) => (p, [], None)
    end.

(** [main]: too few arguments, or the file of the log and what the worker made
    with the arguments does ([go] is [run] for these). *)
Definition worker_main (argv : list string) (go : string → string → option Z)
  : option string * option Z :=
  match argv with
  | _ :: instrument_name :: plugin_path :: _ =>
      (Some ("worker_" +:+ instrument_name +:+ ".log"), go instrument_name plugin_path)
  | _ => (None, Some 1%Z)
  end.

(** ** Lemmas *)

Lemma handle_command_waiting now w msg w' out :
  handle_command now w msg = Ok (w', out) → waiting_sync_token_ w' = waiting_sync_token_ w.
Proof.
  unfold handle_command, deserialize_command_from_msg. intros H.
  destruct (deserialize_command now (payload_of msg)) as [cmd| |] eqn:Hd; try discriminate.
  cbn in H. destruct (execute (plugin_ w) cmd) as [r p'].
  destruct (send_command_response msg cmd r); try discriminate. cbn in H.
  rewrite (deserialize_no_barrier _ _ _ Hd) in H. by destruct (cmd_sync_token cmd); simplify_eq.
Qed.

Lemma process_message_waiting now w msg w' out :
  waiting_sync_token_ w = None → process_message now w msg = Ok (w', out) →
  waiting_sync_token_ w' = None.
Proof.
  unfold process_message, handle_sync_continue. intros Hw H. rewrite Hw in H.
  destruct (msg_type msg); simplify_eq/=; try done.
  apply handle_command_waiting in H. congruence.
Qed.

Lemma heartbeat_waiting now w :
  waiting_sync_token_ (send_heartbeat_if_needed now w).1 = waiting_sync_token_ w ∧
  g_running (send_heartbeat_if_needed now w).1 = g_running w.
Proof. unfold send_heartbeat_if_needed. by case_bool_decide. Qed.

(** The answer to one command: one response with the command's number, then an
    acknowledgement if the command carries a token. *)
Lemma handle_command_out now w msg w' out :
  handle_command now w msg = Ok (w', out) →
  ∃ resp acks, out = resp :: acks ∧ msg_type resp = RESPONSE ∧ msg_id resp = msg_id msg ∧
    Forall (λ a, msg_type a = SYNC_ACK ∧ msg_id a = msg_id msg) acks ∧
    g_running w' = g_running w.
Proof.
  unfold handle_command, deserialize_command_from_msg. intros H.
  destruct (deserialize_command now (payload_of msg)) as [cmd| |]; try discriminate.
  cbn in H. destruct (execute (plugin_ w) cmd) as [r p']. unfold send_command_response in H.
  destruct (serialize_response _) as [text| |]; try discriminate. cbn in H.
  destruct (cmd_sync_token cmd) as [t|], (cmd_is_sync_barrier cmd); simplify_eq;
    (do 2 eexists; split_and!; [done..| |done]); repeat constructor.
Qed.

(** ** Properties *)

Definition ids_of (t : MsgType) (ms : list IPCMessage) : list Z :=
  msg_id <$> filter (λ m, msg_type m = t) ms.

Lemma ids_of_app t l1 l2 : ids_of t (l1 ++ l2) = ids_of t l1 ++ ids_of t l2.
Proof. unfold ids_of. by rewrite filter_app, fmap_app. Qed.

(** The messages a loop takes off its queue before it ends. *)
Fixpoint consumed w (inputs : list (Z * option IPCMessage)) : list IPCMessage :=
  if negb (g_running w) then []
  else
    match inputs with
    | [] => []
    | (now, in_msg) :: inputs =>
        let '(w1, _) := send_heartbeat_if_needed now w in
        match in_msg with
        | None => consumed w1 inputs
        | Some msg =>
            match process_message now w1 msg with
            | Ok (w2, _) => msg :: consumed w2 inputs
            | _ => []
            end
        end
    end.

(** What one processed message adds to the responses. *)
Lemma process_message_ids now w msg w' sent :
  waiting_sync_token_ w = None → process_message now w msg = Ok (w', sent) →
  ids_of RESPONSE sent = ids_of COMMAND [msg].
Proof.
  unfold process_message. intros -> Hp. unfold ids_of. rewrite (filter_cons _ msg).
  destruct (msg_type msg) eqn:Ht; simplify_eq; rewrite ?decide_False by done; try done.
  apply handle_command_out in Hp as (resp & acks & -> & Hr & Hid & Hacks & _).
  rewrite decide_True by done. rewrite filter_cons, decide_True by done. cbn.
  rewrite Hid, filter_none; [done|]. eapply Forall_impl; [exact Hacks|].
  intros a [Ha _]. by rewrite Ha.
Qed.

Lemma heartbeat_ids now w : ids_of RESPONSE (send_heartbeat_if_needed now w).2 = [].
Proof. unfold send_heartbeat_if_needed. by case_bool_decide. Qed.

(** A worker that starts unblocked is never blocked: in every state of its
    main loop [waiting_sync_token_] is empty, whatever it receives, because no
    message on the wire carries the barrier flag. *)
Theorem worker_never_waits w inputs :
  waiting_sync_token_ w = None →
  waiting_sync_token_ (main_loop w inputs).1.1 = None.
Proof.
  revert w. induction inputs as [|[now [msg|]] inputs IH]; intros w Hw; cbn;
    (destruct (g_running w); [|done]); cbn; [done|..];
    pose proof (heartbeat_waiting now w) as [Hhb _];
    destruct (send_heartbeat_if_needed now w) as [w1 hb]; cbn in Hhb; rewrite Hw in Hhb.
  - destruct (process_message now w1 msg) as [[w2 sent]| |] eqn:Hp; try done.
    specialize (IH w2 (process_message_waiting _ _ _ _ _ Hhb Hp)).
    by destruct (main_loop w2 inputs) as [[w' out] st].
  - specialize (IH w1 Hhb). by destruct (main_loop w1 inputs) as [[w' out] st].
Qed.

(** A worker answers every command it takes off its queue, once and in
    order: the numbers of the RESPONSE messages it sends are the numbers of the
    COMMAND messages it processed. *)
Theorem worker_answers_in_order w inputs :
  waiting_sync_token_ w = None →
  ids_of RESPONSE (main_loop w inputs).1.2 = ids_of COMMAND (consumed w inputs).
Proof.
  revert w. induction inputs as [|[now om] inputs IH]; intros w Hw;
    cbn [main_loop consumed]; (destruct (g_running w); [|done]); cbn [negb]; [done|].
  pose proof (heartbeat_waiting now w) as [Hhb _]. pose proof (heartbeat_ids now w) as Hnone.
  destruct (send_heartbeat_if_needed now w) as [w1 hb]; cbn [fst snd] in *. rewrite Hw in Hhb.
  destruct om as [msg|].
  - destruct (process_message now w1 msg) as [[w2 sent]| |] eqn:Hp; try done.
    specialize (IH w2 (process_message_waiting _ _ _ _ _ Hhb Hp)).
    destruct (main_loop w2 inputs) as [[w' out] st]; cbn [fst snd] in *.
    change (msg :: consumed w2 inputs) with ([msg] ++ consumed w2 inputs).
    by rewrite !ids_of_app, Hnone, IH, (process_message_ids _ _ _ _ _ Hhb Hp).
  - specialize (IH w1 Hhb). destruct (main_loop w1 inputs) as [[w' out] st]; cbn [fst snd] in *.
    by rewrite ids_of_app, Hnone.
Qed.

(** The whole life of a worker whose plugin initialises: it serves its loop, and
    shuts the plugin down if it leaves the loop. *)
Lemma run_serves name h now p p' inputs :
  initialize p (worker_config name) = (0%Z, p') → is_valid h = true →
  let '(w, out, st) := main_loop (mkWorker name None true now p') inputs in
  run name true (Ok h) now p inputs =
    match st with
    | LoopExited => (shutdown (plugin_ w), out, Some 0%Z)
    | Crashed _ => (plugin_ w, out, Some 1%Z)
    | _ => (plugin_ w, out, None)
    end.
Proof.
  intros Hi Hv. destruct (main_loop _ _) as [[w out] st] eqn:E.
  unfold run, load_and_init_plugin, connect_ipc_queue. rewrite Hi, Hv. cbn [negb].
  rewrite bool_decide_eq_true_2 by done. cbn [negb]. rewrite E. by destruct st.
Qed.

(** A plugin that refuses the worker's configuration never gets a command. *)
Lemma run_refused name loaded queue now p code p' inputs :
  initialize p (worker_config name) = (code, p') → code ≠ 0%Z →
  run name loaded queue now p inputs = (if loaded then p' else p, [], Some 1%Z).
Proof.
  intros Hi Hc. unfold run, load_and_init_plugin. destruct loaded; cbn [negb]; [|done].
  rewrite Hi. by rewrite bool_decide_eq_false_2.
Qed.

End Worker.

(** ** Concrete runs *)

(** A plugin that counts its commands and answers each with success. *)
Definition counting_plugin (n : nat) (c : PluginCommand) (r : PluginResponse)
  : Z * PluginResponse * nat :=
  (0%Z, mkPluginResponse (pcmd_id c) (pcmd_instrument_name c) true PARAM_TYPE_NONE "done" 0
          EmptyString false EmptyString 0 0, S n).

Definition sample_worker : Worker nat := mkWorker "DAC1" None true 0 0.

(** A barrier command, an idle poll after 600 ms, and the shutdown. *)
Definition sample_inputs : list (Z * option IPCMessage) :=
  let JT := SampleText.sample_text in
  match serialize_command sample_command with
  | Ok text =>
      [(0%Z, Some (set_payload (mkIPCMessage COMMAND 7 0 0 zero_payload) text));
       (600%Z, None); (601%Z, Some (mkIPCMessage SHUTDOWN 0 0 0 zero_payload))]
  | _ => []
  end.

Definition sample_run : Worker nat * list IPCMessage * loop_status :=
  main_loop (JT := SampleText.sample_text) counting_plugin map_to_list sample_worker sample_inputs.

Example sample_run_ends :
  cmd_is_sync_barrier sample_command = true ∧ sample_run.2 = LoopExited ∧
  msg_type <$> sample_run.1.2 = [RESPONSE; SYNC_ACK; HEARTBEAT].
Proof. vm_compute. done. Qed.

Lemma worker_never_waits_witness : waiting_sync_token_ sample_run.1.1 = None.
Proof.
  apply (worker_never_waits (JT := SampleText.sample_text) counting_plugin map_to_list
           sample_worker sample_inputs).
  reflexivity.
Defined.

Lemma worker_answers_in_order_witness : ids_of RESPONSE sample_run.1.2 = [7%Z].
Proof.
  unfold sample_run.
  rewrite (worker_answers_in_order (JT := SampleText.sample_text) counting_plugin map_to_list
             sample_worker sample_inputs); [vm_compute; reflexivity|reflexivity].
Defined.
