(* ===== verification/ProcessManager.v ===== *)
(** * Worker processes

    Model of [ProcessManager] (src/src/ipc/ProcessManager.cpp, the POSIX
    branches).  The operating system is a parameter: the class [Posix] states
    what POSIX documents of [posix_spawnp], [kill] and [waitpid] for the
    children of the calling process, and [ListPosix] is an instance of it.
    Times are nanoseconds of [steady_clock]. *)

From S2P Require Import Prelude.
From Stdlib Require Import Lia.

(** ** The operating system *)

(** A child that ended stays until its parent waits for it. *)
Inductive child := Running | Zombie.

#[export] Instance child_eq_dec : EqDecision child.
Proof. solve_decision. Defined.

Class Posix (W : Type) := {
  children : W → gmap Z child;
  posix_spawnp : W → list string → W * option Z;
  posix_kill : W → Z → bool → W * bool;
  waitpid_nohang : W → Z → W * Z;
  proc_exit : W → Z → W;
  spawn_law w argv :
    match posix_spawnp w argv with
    | (w', Some pid) => (0 < pid)%Z ∧ children w !! pid = None ∧
                        children w' = <[pid := Running]> (children w)
    | (w', None) => children w' = children w
    end;
  kill_law w pid force : (0 < pid)%Z →
    let '(w', ok) := posix_kill w pid force in
    (∀ q, q ≠ pid → children w' !! q = children w !! q) ∧
    match children w !! pid with
    | Some Running => ok = true ∧ is_Some (children w' !! pid)
    | c => children w' !! pid = c
    end;
  waitpid_law w pid : (0 < pid)%Z →
    let '(w', r) := waitpid_nohang w pid in
    match children w !! pid with
    | Some Running => r = 0%Z ∧ children w' = children w
    | Some Zombie => r = pid ∧ children w' = delete pid (children w)
    | None => r = (-1)%Z ∧ children w' = children w
    end;
  exit_law w pid :
    children (proc_exit w pid) =
      match children w !! pid with
      | Some Running => <[pid := Zombie]> (children w)
      | _ => children w
      end
}.

(** A system that hands out increasing process numbers and ends a process at
    once when it is killed. *)
Module ListPosix.

Record world := mkWorld { procs : gmap Z child; next_pid : Z }.

Definition fresh (w : world) : Z := Z.max 1 (set_fold Z.max 0%Z (set_map Z.succ (dom (procs w)) : gset Z)).

Lemma fold_max_bound (l : list Z) z : (z ∈ l → z ≤ foldr Z.max 0 l)%Z.
Proof. induction 1; cbn; lia. Qed.

Lemma fresh_fresh w : procs w !! fresh w = None.
Proof.
  destruct (procs w !! fresh w) as [c|] eqn:H; [|done]. exfalso.
  assert (Z.succ (fresh w) ∈ (set_map Z.succ (dom (procs w)) : gset Z)) as Hin.
  { apply elem_of_map. exists (fresh w). split; [done|]. by apply elem_of_dom. }
  apply elem_of_elements in Hin. apply fold_max_bound in Hin.
  unfold fresh, set_fold in *; cbn in *. lia.
Qed.

Definition spawn (w : world) (argv : list string) : world * option Z :=
  (mkWorld (<[fresh w := Running]> (procs w)) (fresh w), Some (fresh w)).

Definition kill (w : world) (pid : Z) (force : bool) : world * bool :=
  (mkWorld (alter (λ _, Zombie) pid (procs w)) (next_pid w),
   bool_decide (is_Some (procs w !! pid))).

Definition waitpid (w : world) (pid : Z) : world * Z :=
  match procs w !! pid with
  | Some Running => (w, 0%Z)
  | Some Zombie => (mkWorld (delete pid (procs w)) (next_pid w), pid)
  | None => (w, (-1)%Z)
  end.

Definition exits (w : world) (pid : Z) : world :=
  match procs w !! pid with
  | Some Running => mkWorld (<[pid := Zombie]> (procs w)) (next_pid w)
  | _ => w
  end.

Program Definition list_posix : Posix world := {|
  children := procs; posix_spawnp := spawn; posix_kill := kill;
  waitpid_nohang := waitpid; proc_exit := exits
|}.
Next Obligation.
  intros w argv. cbn. split_and!; [unfold fresh; lia|apply fresh_fresh|done].
Qed.
Next Obligation.
  intros w pid force _. cbn. split; [intros q Hq; by rewrite lookup_alter_ne|].
  rewrite lookup_alter_eq. destruct (procs w !! pid) as [[]|]; cbn; [|done..].
  done.
Qed.
Next Obligation. intros w pid _. unfold waitpid. by destruct (procs w !! pid) as [[]|] eqn:?. Qed.
Next Obligation. intros w pid. unfold exits. by destruct (procs w !! pid) as [[]|] eqn:?. Qed.

Definition empty : world := mkWorld ∅ 0.

End ListPosix.

(** ** The manager *)

(** [handle] is the process number on POSIX. *)
Record ProcessInfo := mkProcessInfo {
  info_pid : Z;
  info_handle : Z;
  info_instrument_name : string;
  info_plugin_path : string;
  info_started_at : Z;
  info_is_alive : bool;
  info_last_heartbeat : Z   (* uint64_t *)
}.

Record ProcessManager := mkProcessManager {
  processes_ : gmap Z ProcessInfo;
  monitor_running_ : bool;
  heartbeat_timeout_ : Z;   (* milliseconds *)
  dead_callback_ : bool     (* whether a callback is set *)
}.

Definition new_manager : ProcessManager := mkProcessManager ∅ false 10000 false.

Definition with_processes (pm : ProcessManager) (ps : gmap Z ProcessInfo) : ProcessManager :=
  mkProcessManager ps (monitor_running_ pm) (heartbeat_timeout_ pm) (dead_callback_ pm).

Definition set_alive (b : bool) (i : ProcessInfo) : ProcessInfo :=
  mkProcessInfo (info_pid i) (info_handle i) (info_instrument_name i) (info_plugin_path i)
    (info_started_at i) b (info_last_heartbeat i).
Definition set_heartbeat (t : Z) (i : ProcessInfo) : ProcessInfo :=
  mkProcessInfo (info_pid i) (info_handle i) (info_instrument_name i) (info_plugin_path i)
    (info_started_at i) (info_is_alive i) t.

Section ProcessManager.
Context `{OS : Posix W}.
Implicit Types (w : W) (pm : ProcessManager) (pid : Z).

Definition spawn_process_impl w (args : list string) : W * Z :=
  match posix_spawnp w args with
  | (w, Some pid) => (w, pid)
  | (w, None) => (w, 0%Z)
  end.

Definition kill_process_impl w (handle : Z) (force : bool) : W * bool := posix_kill w handle force.

Definition is_alive_impl w (handle : Z) : W * bool :=
  let '(w, result) := waitpid_nohang w handle in (w, bool_decide (result = 0%Z)).

(** [now] is the clock when the entry is made. *)
Definition spawn_worker (now : Z) w pm (instrument_name plugin_path worker_executable : string)
  : W * ProcessManager * Z :=
  let '(w, pid) := spawn_process_impl w [worker_executable; instrument_name; plugin_path] in
  if bool_decide (pid = 0%Z) then (w, pm, 0%Z)
  else
    let info := mkProcessInfo pid pid instrument_name plugin_path now true (wrap64 now) in
    (w, with_processes pm (<[pid := info]> (processes_ pm)), pid).

Definition is_alive w pm pid : W * bool :=
  match processes_ pm !! pid with
  | None => (w, false)
  | Some info => is_alive_impl w (info_handle info)
  end.

Definition kill_process w pm pid (force : bool) : W * ProcessManager * bool :=
  match processes_ pm !! pid with
  | None => (w, pm, false)
  | Some info =>
      let '(w, result) := kill_process_impl w (info_handle info) force in
      (w, if result then with_processes pm (<[pid := set_alive false info]> (processes_ pm)) else pm,
       result)
  end.

(** The polling loop.  Each element of [reads] is the clock at the loop's
    condition and the processes that end before the poll that follows; [None]
    when the loop still runs. *)
Fixpoint wait_loop w pm pid (deadline : Z) (reads : list (Z * list Z)) : W * option bool :=
  match reads with
  | [] => (w, None)
  | (now, exits) :: reads =>
      if bool_decide (now < deadline)%Z then
        let w := foldl proc_exit w exits in
        let '(w, alive) := is_alive w pm pid in
        if alive then wait_loop w pm pid deadline reads else (w, Some true)
      else (w, Some false)
  end.

(** [timeout] in milliseconds, [start] the clock at the call. *)
Definition wait_for_exit w pm pid (timeout start : Z) (reads : list (Z * list Z)) : W * option bool :=
  wait_loop w pm pid (start + timeout * 1000000) reads.

Definition get_process_info pm pid : option ProcessInfo := processes_ pm !! pid.

Definition list_processes pm : list Z := (map_to_list (processes_ pm)).*1.

(** [pids] is the iteration order of the map; for each process the clock and
    the events its wait sees. *)
Fixpoint cleanup_loop w pm (todo : list (Z * (Z * list (Z * list Z)))) : W * ProcessManager :=
  match todo with
  | [] => (w, pm)
  | (pid, (start, reads)) :: todo =>
      let '(w, pm, _) := kill_process w pm pid true in
      let '(w, _) := wait_for_exit w pm pid 2000 start reads in
      cleanup_loop w pm todo
  end.
Definition cleanup_all w pm (todo : list (Z * (Z * list (Z * list Z)))) : W * ProcessManager :=
  let '(w, pm) := cleanup_loop w pm todo in (w, with_processes pm ∅).

Definition start_heartbeat_monitor pm (interval : Z) (callback : bool) : ProcessManager :=
  if monitor_running_ pm then pm
  else mkProcessManager (processes_ pm) true (interval * 2) callback.

Definition stop_heartbeat_monitor pm : ProcessManager :=
  if negb (monitor_running_ pm) then pm
  else mkProcessManager (processes_ pm) false (heartbeat_timeout_ pm) (dead_callback_ pm).

Definition update_heartbeat (now : Z) pm pid : ProcessManager :=
  match processes_ pm !! pid with
  | None => pm
  | Some info => with_processes pm (<[pid := set_heartbeat (wrap64 now) info]> (processes_ pm))
  end.

(** [now - info->last_heartbeat.load()] is unsigned; [std::chrono::nanoseconds]
    makes it signed again. *)
Definition missed_heartbeat (timeout now last : Z) : bool :=
  bool_decide (timeout * 1000000 < sint64 (wrap64 (wrap64 now - last)))%Z.

(** One pass over the processes in the order [pids]: the processes found dead. *)
Fixpoint monitor_scan (now : Z) w pm (pids : list Z) : W * ProcessManager * list Z :=
  match pids with
  | [] => (w, pm, [])
  | pid :: pids =>
      match processes_ pm !! pid with
      | Some info =>
          if missed_heartbeat (heartbeat_timeout_ pm) now (info_last_heartbeat info) then
            let '(w, alive) := is_alive_impl w (info_handle info) in
            if alive then monitor_scan now w pm pids
            else
              let pm := with_processes pm (<[pid := set_alive false info]> (processes_ pm)) in
              let '(w, pm, dead) := monitor_scan now w pm pids in (w, pm, pid :: dead)
          else monitor_scan now w pm pids
      | None => monitor_scan now w pm pids
      end
  end.

(** One round of [heartbeat_monitor_loop]: the processes passed to the
    callback, if there is one. *)
Definition heartbeat_monitor_round (now : Z) w pm (pids : list Z) : W * ProcessManager * list Z :=
  let '(w, pm, dead) := monitor_scan now w pm pids in
  (w, pm, if dead_callback_ pm then dead else []).

(** ** Invariant: entries are filed under the process they describe *)

Definition pm_wf pm : Prop :=
  map_Forall (λ pid i, (0 < pid)%Z ∧ info_pid i = pid ∧ info_handle i = pid) (processes_ pm).

#[export] Instance pm_wf_dec pm : Decision (pm_wf pm).
Proof. unfold pm_wf. apply _. Defined.

Lemma pm_wf_new : pm_wf new_manager.
Proof. apply map_Forall_empty. Qed.

Lemma pm_wf_insert pm pid i :
  pm_wf pm → (0 < pid)%Z → info_pid i = pid → info_handle i = pid →
  pm_wf (with_processes pm (<[pid := i]> (processes_ pm))).
Proof. intros ????. by apply map_Forall_insert_2. Qed.

(** Changing a field other than the process keeps the invariant. *)
Lemma pm_wf_update pm pid i i' :
  pm_wf pm → processes_ pm !! pid = Some i → info_pid i' = info_pid i →
  info_handle i' = info_handle i → pm_wf (with_processes pm (<[pid := i']> (processes_ pm))).
Proof.
  intros Hwf Hi Hp Hh. destruct (Hwf _ _ Hi) as (? & ? & ?). apply pm_wf_insert; done || congruence.
Qed.
#[local] Hint Resolve pm_wf_update : core.

Lemma spawn_worker_wf now w pm n p x :
  pm_wf pm → pm_wf (spawn_worker now w pm n p x).1.2.
Proof.
  intros Hwf. unfold spawn_worker, spawn_process_impl.
  pose proof (spawn_law w [x; n; p]) as Hl.
  destruct (posix_spawnp w [x; n; p]) as [w' [pid|]]; cbn; case_bool_decide; try done.
  destruct Hl as (? & _). by apply pm_wf_insert.
Qed.

Lemma kill_process_wf w pm pid f : pm_wf pm → pm_wf (kill_process w pm pid f).1.2.
Proof.
  intros Hwf. unfold kill_process. destruct (processes_ pm !! pid) eqn:?; [|done].
  destruct (kill_process_impl _ _ _) as [? []]; cbn; eauto.
Qed.

Lemma update_heartbeat_wf now pm pid : pm_wf pm → pm_wf (update_heartbeat now pm pid).
Proof. unfold update_heartbeat. destruct (processes_ pm !! pid) eqn:?; eauto. Qed.

Lemma monitor_scan_wf now w pm pids : pm_wf pm → pm_wf (monitor_scan now w pm pids).1.2.
Proof.
  revert w pm. induction pids as [|pid pids IH]; intros w pm Hwf; [done|]. cbn.
  destruct (processes_ pm !! pid) as [info|] eqn:Hi; [|auto].
  destruct (missed_heartbeat _ _ _); [|auto].
  destruct (is_alive_impl w (info_handle info)) as [w' []]; [auto|].
  specialize (IH w' (with_processes pm (<[pid := set_alive false info]> (processes_ pm)))).
  destruct (monitor_scan _ _ _ pids) as [[? ?] ?]. cbn in *. eauto.
Qed.

(** ** Behaviour of a poll *)

Definition is_running w pid : bool := bool_decide (children w !! pid = Some Running).

(** A poll answers whether the process runs, and afterwards a process that had
    ended is gone. *)
Lemma is_alive_impl_spec w pid :
  (0 < pid)%Z →
  let '(w', b) := is_alive_impl w pid in
  b = is_running w pid ∧
  children w' = if b then children w else delete pid (children w).
Proof.
  intros Hp. unfold is_alive_impl, is_running. pose proof (waitpid_law w pid Hp) as Hl.
  destruct (waitpid_nohang w pid) as [w' r].
  destruct (children w !! pid) as [[]|] eqn:Hc; destruct Hl as [-> ->]; cbn.
  - by rewrite bool_decide_eq_true_2.
  - rewrite !bool_decide_eq_false_2 by (done || lia). done.
  - rewrite bool_decide_eq_false_2 by done. split; [done|]. by rewrite delete_id.
Qed.

Lemma is_alive_spec w pm pid :
  pm_wf pm →
  let '(w', b) := is_alive w pm pid in
  b = bool_decide (is_Some (processes_ pm !! pid)) && is_running w pid ∧
  (∀ q, children w' !! q = children w !! q ∨
        q = pid ∧ children w !! q = Some Zombie ∧ children w' !! q = None).
Proof.
  intros Hwf. unfold is_alive. destruct (processes_ pm !! pid) as [info|] eqn:Hi.
  - destruct (Hwf _ _ Hi) as (Hp & _ & ->). pose proof (is_alive_impl_spec w pid Hp) as Hs.
    destruct (is_alive_impl w pid) as [w' b]. destruct Hs as [-> Hc]. split; [done|].
    intros q. rewrite Hc. unfold is_running. case_bool_decide as Hr; [by left|].
    destruct (decide (q = pid)) as [->|]; [|left; by rewrite lookup_delete_ne].
    destruct (children w !! pid) as [[]|] eqn:?; rewrite lookup_delete_eq; naive_solver.
  - split; [done|]. by left.
Qed.

Lemma exits_not_running w exits pid :
  is_running w pid = false → is_running (foldl proc_exit w exits) pid = false.
Proof.
  revert w. induction exits as [|e exits IH]; intros w H; [done|]. cbn. apply IH.
  unfold is_running in *. rewrite exit_law. apply bool_decide_eq_false in H.
  apply bool_decide_eq_false. destruct (children w !! e) as [[]|]; try done.
  destruct (decide (e = pid)) as [->|]; [by rewrite lookup_insert_eq|by rewrite lookup_insert_ne].
Qed.

(** Conditions that agree on a list select the same elements. *)
Lemma filter_agree {A} (P Q : A → Prop) `{!∀ x, Decision (P x), !∀ x, Decision (Q x)} (l : list A) :
  (∀ x, x ∈ l → P x ↔ Q x) → filter P l = filter Q l.
Proof.
  induction l as [|x l IH]; intros Hx; [done|]. rewrite !filter_cons.
  rewrite IH by (intros; apply Hx; by right). pose proof (Hx x (list_elem_of_here _ _)).
  destruct (decide (P x)), (decide (Q x)); naive_solver.
Qed.

(** A round whose clock reads [now] finds the process late. *)
Definition late (now : Z) pm pid : bool :=
  match processes_ pm !! pid with
  | Some i => missed_heartbeat (heartbeat_timeout_ pm) now (info_last_heartbeat i)
  | None => false
  end.

Lemma late_insert_ne now pm p pid i :
  p ≠ pid → late now (with_processes pm (<[p := i]> (processes_ pm))) pid = late now pm pid.
Proof. intros Hne. unfold late. cbn. by rewrite lookup_insert_ne. Qed.

Lemma late_known now pm pid : late now pm pid = true → is_Some (processes_ pm !! pid).
Proof. unfold late. by destruct (processes_ pm !! pid). Qed.

(** A scan reports, in the order of the scan, the late processes that do not
    run, and marks their entries. *)
Lemma monitor_scan_exact now w pm pids :
  pm_wf pm → NoDup pids →
  let '(_, pm', dead) := monitor_scan now w pm pids in
  dead = filter (λ pid, late now pm pid = true ∧ is_running w pid = false) pids ∧
  dead_callback_ pm' = dead_callback_ pm ∧
  ∀ q, processes_ pm' !! q =
         (if bool_decide (q ∈ dead) then set_alive false else id) <$> processes_ pm !! q.
Proof.
  revert w pm. induction pids as [|p pids IH]; intros w pm Hwf Hnd; cbn [monitor_scan].
  { split_and!; [done..|]. intros q. by destruct (processes_ pm !! q). }
  apply NoDup_cons in Hnd as [Hp Hnd]. rewrite filter_cons.
  assert (late now pm p = match processes_ pm !! p with
          | Some i => missed_heartbeat (heartbeat_timeout_ pm) now (info_last_heartbeat i)
          | None => false end) as Hlate by done.
  destruct (processes_ pm !! p) as [info|] eqn:Hi; last first.
  { rewrite decide_False by (intros [? _]; congruence). by apply IH. }
  destruct (missed_heartbeat _ _ (info_last_heartbeat info)) eqn:Hm; last first.
  { rewrite decide_False by (intros [? _]; congruence). by apply IH. }
  destruct (Hwf _ _ Hi) as (Hpos & _ & ->). pose proof (is_alive_impl_spec w p Hpos) as Hs.
  destruct (is_alive_impl w p) as [w' []]; destruct Hs as [Hr Hc].
  - rewrite decide_False by (intros [_ ?]; congruence). specialize (IH w' pm Hwf Hnd).
    unfold is_running in *. by rewrite Hc in IH.
  - rewrite decide_True by done.
    specialize (IH w' (with_processes pm (<[p := set_alive false info]> (processes_ pm)))
                  ltac:(eauto) Hnd).
    destruct (monitor_scan _ _ _ pids) as [[? pm'] dead]. destruct IH as (Hd & Hcb & Hq).
    assert (dead = filter (λ pid, late now pm pid = true ∧ is_running w pid = false) pids) as Hd'.
    { rewrite Hd. apply filter_agree. intros q Hqin. assert (p ≠ q) by set_solver.
      unfold is_running. by rewrite late_insert_ne, Hc, lookup_delete_ne. }
    split_and!; [by f_equal|done|]. intros q. rewrite Hq. cbn.
    destruct (decide (p = q)) as [<-|Hne].
    + rewrite lookup_insert_eq, Hi, (bool_decide_eq_true_2 (p ∈ p :: dead)) by set_solver. cbn.
      by case_bool_decide.
    + rewrite lookup_insert_ne by done. f_equal. rewrite (bool_decide_ext (q ∈ p :: dead) (q ∈ dead))
        by set_solver. done.
Qed.

(** A process runs after some ended if it ran and is none of them. *)
Lemma is_running_exits w exits pid :
  is_running (foldl proc_exit w exits) pid = is_running w pid && bool_decide (pid ∉ exits).
Proof.
  revert w. induction exits as [|e exits IH]; intros w; cbn.
  { rewrite bool_decide_eq_true_2 by set_solver. by rewrite andb_true_r. }
  rewrite IH. unfold is_running. rewrite exit_law. destruct (decide (e = pid)) as [->|Hne].
  - rewrite (bool_decide_eq_false_2 (pid ∉ pid :: exits)) by set_solver. rewrite andb_false_r.
    destruct (children w !! pid) as [[]|] eqn:E; rewrite ?lookup_insert_eq, ?E; done.
  - rewrite (bool_decide_ext (pid ∉ e :: exits) (pid ∉ exits)) by set_solver. f_equal.
    destruct (children w !! e) as [[]|]; rewrite ?lookup_insert_ne by done; done.
Qed.

(** The process is in the manager's table, ran when the wait began, and none
    of the endings up to the poll after reading [i] is its own. *)
Definition seen_alive w pm pid (reads : list (Z * list Z)) (i : nat) : Prop :=
  is_Some (processes_ pm !! pid) ∧ is_running w pid = true ∧ pid ∉ concat (take (S i) reads.*2).

(** The reading at which the loop answers, and what it answers. *)
Lemma wait_loop_exact w pm pid deadline reads :
  pm_wf pm →
  (∃ i now exits, reads !! i = Some (now, exits) ∧ (deadline ≤ now)%Z) →
  ∃ i now exits, reads !! i = Some (now, exits) ∧
    (∀ j now' exits', j < i → reads !! j = Some (now', exits') →
       (now' < deadline)%Z ∧ seen_alive w pm pid reads j) ∧
    (((deadline ≤ now)%Z ∧ (wait_loop w pm pid deadline reads).2 = Some false) ∨
     ((now < deadline)%Z ∧ ¬ seen_alive w pm pid reads i ∧
      (wait_loop w pm pid deadline reads).2 = Some true)).
Proof.
  intros Hwf. revert w. induction reads as [|[now exits] reads IH]; intros w (k & n & e & Hk & Hn).
  { by rewrite lookup_nil in Hk. }
  cbn [wait_loop]. destruct (decide (now < deadline)%Z) as [Hlt|Hge]; last first.
  { exists 0, now, exits. rewrite bool_decide_eq_false_2 by done.
    split_and!; [done|lia|]. left. split; [lia|done]. }
  rewrite bool_decide_eq_true_2 by done.
  pose proof (is_alive_spec (foldl proc_exit w exits) pm pid Hwf) as Hs.
  destruct (is_alive (foldl proc_exit w exits) pm pid) as [w' b]. destruct Hs as [Hb Hc].
  rewrite is_running_exits in Hb.
  assert (b = true ↔ seen_alive w pm pid ((now, exits) :: reads) 0) as Hseen.
  { unfold seen_alive. cbn. rewrite take_0. cbn. rewrite app_nil_r, Hb, !andb_true_iff.
    rewrite !bool_decide_eq_true. done. }
  destruct b; last first.
  { exists 0, now, exits. split_and!; [done|lia|]. right. split_and!; [done| |done].
    rewrite <- Hseen. discriminate. }
  destruct k as [|k]; [cbn in Hk; simplify_eq; lia|].
  destruct (IH w' ltac:(by exists k, n, e)) as (i & n' & e' & Hi & Hbefore & Hans).
  assert (is_running w' pid = is_running (foldl proc_exit w exits) pid) as Hrun.
  { unfold is_running. by destruct (Hc pid) as [->|(_ & -> & ->)]. }
  assert (∀ j, seen_alive w' pm pid reads j ↔ seen_alive w pm pid ((now, exits) :: reads) (S j)) as Hshift.
  { intros j. destruct Hseen as [Hseen _]. destruct (Hseen eq_refl) as (? & ? & Hx).
    unfold seen_alive. rewrite Hrun, is_running_exits. cbn in *. rewrite app_nil_r in Hx.
    rewrite (bool_decide_eq_true_2 (pid ∉ exits)) by done. rewrite andb_true_r.
    rewrite elem_of_app. naive_solver. }
  exists (S i), n', e'. rewrite <- Hshift. split_and!; [done| |done].
  intros [|j] n2 e2 Hj Hl; cbn in Hl; [simplify_eq; split; [done|by apply Hseen]|].
  rewrite <- Hshift. apply (Hbefore j n2 e2); [lia|done].
Qed.

(** ** Properties *)

(** A poll of the process manager is exact and final: it says a process is
    alive just if the manager knows it and it runs; it changes nothing but to
    collect the polled process once it ended, and once a poll said no, every
    later poll says no, whichever processes end in between. *)
Theorem is_alive_exact w pm pid exits :
  pm_wf pm →
  let '(w', b) := is_alive w pm pid in
  b = bool_decide (is_Some (processes_ pm !! pid)) && is_running w pid ∧
  (∀ q, is_running w' q = is_running w q) ∧
  (b = false → (is_alive (foldl proc_exit w' exits) pm pid).2 = false).
Proof.
  intros Hwf. pose proof (is_alive_spec w pm pid Hwf) as Hs.
  destruct (is_alive w pm pid) as [w' b]. destruct Hs as [-> Hc].
  assert (∀ q, is_running w' q = is_running w q) as Hr.
  { intros q. unfold is_running. destruct (Hc q) as [->|(_ & -> & ->)]; done. }
  split_and!; [done|done|]. intros Hb.
  pose proof (is_alive_spec (foldl proc_exit w' exits) pm pid Hwf) as Hs2.
  destruct (is_alive (foldl proc_exit w' exits) pm pid) as [w2 b2]. destruct Hs2 as [-> _]. cbn.
  destruct (bool_decide (is_Some _)); [|done]. apply exits_not_running. by rewrite Hr.
Qed.

(** The unsigned subtraction of the monitor is safe: for clock values below
    2^63 a process counts as overdue just if its last heartbeat is more than the
    timeout old, also when the heartbeat arrived after the monitor read the
    clock and the difference wrapped around. *)
Theorem missed_heartbeat_exact timeout now last :
  (0 ≤ now < two63)%Z → (0 ≤ last < two63)%Z →
  missed_heartbeat timeout now last = bool_decide (timeout * 1000000 < now - last)%Z.
Proof.
  intros Hn Hl. unfold missed_heartbeat.
  assert (sint64 (wrap64 (wrap64 now - last)) = now - last)%Z as ->; [|done].
  rewrite (wrap64_id now) by (unfold is_u64, two63, two64 in *; lia).
  unfold sint64, wrap64, two63, two64 in *.
  rewrite Z.add_mod_idemp_l, Z.mod_small; lia.
Qed.

(** C11. A round of the heartbeat monitor with a callback reports exactly the
    processes that are more than the timeout late, in nanoseconds of the clock,
    and that do not run: a process that runs is never reported, however late
    its heartbeat.  Each is reported once in a round, and the round marks the
    entries of the reported processes as not alive and changes no other
    entry. *)
Theorem monitor_reports_exactly_dead now w pm pids pid :
  pm_wf pm → pids ≡ₚ (map_to_list (processes_ pm)).*1 → dead_callback_ pm = true →
  (0 ≤ now < two63)%Z →
  map_Forall (λ _ i, (0 ≤ info_last_heartbeat i < two63)%Z) (processes_ pm) →
  let '(_, pm', reported) := heartbeat_monitor_round now w pm pids in
  (pid ∈ reported ↔
     ∃ i, processes_ pm !! pid = Some i ∧
          (heartbeat_timeout_ pm * 1000000 < now - info_last_heartbeat i)%Z ∧
          children w !! pid ≠ Some Running) ∧
  NoDup reported ∧
  processes_ pm' !! pid =
    (if bool_decide (pid ∈ reported) then set_alive false else id) <$> processes_ pm !! pid.
Proof.
  intros Hwf Hp Hcb Hnow Hheard. unfold heartbeat_monitor_round.
  assert (NoDup pids) as Hnd by (rewrite Hp; apply NoDup_fst_map_to_list).
  pose proof (monitor_scan_exact now w pm pids Hwf Hnd) as Hs.
  destruct (monitor_scan now w pm pids) as [[w' pm'] dead]. destruct Hs as (-> & Hd & Hq).
  rewrite Hd, Hcb. split_and!; [|by apply NoDup_filter|done].
  rewrite list_elem_of_filter, Hp. unfold late, is_running. rewrite bool_decide_eq_false.
  split.
  - intros [[Hl Hr] _]. destruct (processes_ pm !! pid) as [i|] eqn:Hi; [|done].
    rewrite missed_heartbeat_exact in Hl by (done || by apply (Hheard _ _ Hi)).
    apply bool_decide_eq_true in Hl. by exists i.
  - intros (i & Hi & Hl & Hr). rewrite Hi, missed_heartbeat_exact by (done || by apply (Hheard _ _ Hi)).
    rewrite bool_decide_eq_true. split; [done|].
    apply list_elem_of_fmap. exists (pid, i). split; [done|]. by apply elem_of_map_to_list.
Qed.

(** C12. [wait_for_exit] ends, and its answer is exact.  With clock readings at
    least 100 ms apart (the sleep of the loop) some reading [i], at most the
    one numbered [timeout / 100 + 1], decides: every earlier reading is before
    the deadline and the poll after it finds a process of the table that has
    not ended.  The answer is [false] if reading [i] is not before the
    deadline, and [true] if it is and the poll finds that the process ended or
    that the table has no such process, which then may well run. *)
Theorem wait_for_exit_terminates w pm pid timeout start reads :
  pm_wf pm → (0 ≤ timeout)%Z →
  (∀ i now exits, reads !! i = Some (now, exits) → start + Z.of_nat i * 100000000 ≤ now)%Z →
  (timeout / 100 + 1 < Z.of_nat (length reads))%Z →
  ∃ i now exits, reads !! i = Some (now, exits) ∧ (Z.of_nat i ≤ timeout / 100 + 1)%Z ∧
    (∀ j now' exits', j < i → reads !! j = Some (now', exits') →
       (now' < start + timeout * 1000000)%Z ∧ seen_alive w pm pid reads j) ∧
    (((start + timeout * 1000000 ≤ now)%Z ∧
      (wait_for_exit w pm pid timeout start reads).2 = Some false) ∨
     ((now < start + timeout * 1000000)%Z ∧ ¬ seen_alive w pm pid reads i ∧
      (wait_for_exit w pm pid timeout start reads).2 = Some true)).
Proof.
  unfold wait_for_exit. intros Hwf Ht Hreads Hlen. set (k := Z.to_nat (timeout / 100 + 1)).
  pose proof (Z.div_mod timeout 100 ltac:(lia)) as Hdm.
  pose proof (Z.mod_pos_bound timeout 100 ltac:(lia)). pose proof (Z.div_pos timeout 100 Ht ltac:(lia)).
  destruct (lookup_lt_is_Some_2 reads k) as [[n e] Hk]; [unfold k; lia|].
  assert (start + timeout * 1000000 ≤ n)%Z as Hn.
  { specialize (Hreads k n e Hk). unfold k in Hreads. lia. }
  destruct (wait_loop_exact w pm pid (start + timeout * 1000000) reads Hwf
              ltac:(by exists k, n, e)) as (i & now & exits & Hi & Hbefore & Hans).
  exists i, now, exits. split_and!; [done| |done|done].
  destruct (decide (i ≤ k)) as [|Hgt]; [unfold k in *; lia|].
  destruct (Hbefore k n e ltac:(lia) Hk) as [? _]. lia.
Qed.

End ProcessManager.

(** Two workers, the first of which has ended. *)
Definition sample_manager : ListPosix.world * ProcessManager :=
  let os := ListPosix.list_posix in
  let '(w, pm, p1) := spawn_worker 0 ListPosix.empty new_manager "DAC1" "dac.so" "instrument-worker" in
  let '(w, pm, p2) := spawn_worker 0 w pm "DMM1" "dmm.so" "instrument-worker" in
  (proc_exit (Posix := os) w p1, start_heartbeat_monitor pm 1000 true).

Lemma is_alive_exact_witness :
  let '(w, pm) := sample_manager in
  (is_alive (OS := ListPosix.list_posix) w pm 1).2 = false ∧
  (is_alive (OS := ListPosix.list_posix) w pm 2).2 = true.
Proof.
  cbn zeta. destruct sample_manager as [w pm] eqn:E.
  pose proof (is_alive_exact (OS := ListPosix.list_posix) sample_manager.1 sample_manager.2 1 []
    ltac:(apply (bool_decide_unpack _); vm_compute; exact I)) as H.
  rewrite E in H. cbn [fst snd] in H.
  split; [|by injection E as <- <-].
  destruct (is_alive w pm 1) as [w' b]. destruct H as [-> _]. cbn.
  by injection E as <- <-.
Defined.

Lemma monitor_reports_exactly_dead_witness :
  let '(w, pm) := sample_manager in
  1%Z ∈ (heartbeat_monitor_round (OS := ListPosix.list_posix) 3000000000 w pm [1; 2]%Z).2 ∧
  2%Z ∉ (heartbeat_monitor_round (OS := ListPosix.list_posix) 3000000000 w pm [1; 2]%Z).2.
Proof.
  split; [|vm_compute; intros H; apply list_elem_of_singleton in H; discriminate].
  apply (monitor_reports_exactly_dead (OS := ListPosix.list_posix) 3000000000
           sample_manager.1 sample_manager.2 [1; 2]%Z 1).
  - apply (bool_decide_unpack _). vm_compute. exact I.
  - vm_compute. apply perm_swap.
  - reflexivity.
  - unfold two63. lia.
  - apply (bool_decide_unpack _). vm_compute. exact I.
  - by eexists.
Defined.

(** A worker that ends before the second poll is waited for; nobody waits for
    a process that is not in the table. *)
Lemma wait_for_exit_terminates_witness :
  let '(w, pm) := sample_manager in
  let reads := [(0, []); (100000000, [2]); (200000000, []); (300000000, [])]%Z in
  (∃ i now exits, reads !! i = Some (now, exits) ∧
     ((200000000 ≤ now)%Z ∨ ¬ seen_alive (OS := ListPosix.list_posix) w pm 2 reads i)) ∧
  (wait_for_exit (OS := ListPosix.list_posix) w pm 2 200 0 reads).2 = Some true ∧
  (wait_for_exit (OS := ListPosix.list_posix) w pm 9 200 0 reads).2 = Some true.
Proof.
  cbn zeta. split; [|split; reflexivity].
  destruct (wait_for_exit_terminates (OS := ListPosix.list_posix)
    sample_manager.1 sample_manager.2 2 200 0
    [(0, []); (100000000, [2]); (200000000, []); (300000000, [])]%Z)
    as (i & now & exits & Hi & _ & _ & Hans).
  - apply (bool_decide_unpack _). vm_compute. exact I.
  - lia.
  - intros [|[|[|[|i]]]] n e H; cbn in H; simplify_eq; lia.
  - vm_compute. reflexivity.
  - exists i, now, exits. split; [exact Hi|]. destruct Hans as [[H _]|(_ & H & _)]; [left; lia|by right].
Defined.

Lemma missed_heartbeat_exact_witness : missed_heartbeat 2000 5 7 = false.
Proof. rewrite (missed_heartbeat_exact 2000 5 7); [reflexivity|unfold two63; lia..]. Defined.
