(* ===== verification/Proxy.v ===== *)
(** * The proxy of a worker process

    Model of [InstrumentWorkerProxy] (src/src/server/InstrumentWorkerProxy.cpp).
    A [std::promise] and its [std::future] share a state, kept here in the list
    [futures] in the order of creation; the position in the list is the
    future.  [execute] runs in client threads while the response listener
    fulfils promises in its own thread and [stop] in another: the parts of each
    that other threads cannot interrupt are separate functions, and [pact]
    interleaves them. *)

From S2P Require Import Prelude Json SerializedCommand Ipc SyncCoordinator ProcessManager.
From Stdlib Require Import Lia.

(** The state behind a promise: not set, set, or its promise was destroyed. *)
Inductive fut := Waiting | Ready (r : CommandResponse) | Broken.

#[export] Instance fut_eq_dec : EqDecision fut.
Proof. solve_decision. Defined.

(** [std::promise::set_value] throws when the state is already set. *)
Definition set_value (fs : list fut) (i : nat) (r : CommandResponse) : res (list fut) :=
  match fs !! i with
  | Some Waiting => Ok (<[i := Ready r]> fs)
  | _ => Exn "std::future_error"
  end.

(** [set_value] in a [try] block that ignores the exception. *)
Definition set_value_quietly (fs : list fut) (i : nat) (r : CommandResponse) : list fut :=
  match set_value fs i r with Ok fs => fs | _ => fs end.

Record Stats := mkStats {
  commands_sent : Z;
  commands_completed : Z;
  commands_failed : Z;
  commands_timeout : Z
}.

Record Proxy := mkProxy {
  instrument_name_ : string;
  plugin_path_ : string;
  ipc_queue_ : option SharedQueue;
  worker_pid_ : Z;
  pending_responses_ : gmap Z nat;
  running_ : bool;
  stats_ : Stats;
  next_message_id_ : Z;
  futures : list fut
}.

Definition new_proxy (name plugin : string) : Proxy :=
  mkProxy name plugin None 0 ∅ false (mkStats 0 0 0 0) 1 [].

Definition with_pending (p : Proxy) (m : gmap Z nat) (fs : list fut) : Proxy :=
  mkProxy (instrument_name_ p) (plugin_path_ p) (ipc_queue_ p) (worker_pid_ p) m (running_ p)
    (stats_ p) (next_message_id_ p) fs.
Definition with_stats (p : Proxy) (s : Stats) : Proxy :=
  mkProxy (instrument_name_ p) (plugin_path_ p) (ipc_queue_ p) (worker_pid_ p)
    (pending_responses_ p) (running_ p) s (next_message_id_ p) (futures p).
Definition with_running (p : Proxy) (b : bool) : Proxy :=
  mkProxy (instrument_name_ p) (plugin_path_ p) (ipc_queue_ p) (worker_pid_ p)
    (pending_responses_ p) b (stats_ p) (next_message_id_ p) (futures p).
Definition with_queue (p : Proxy) (q : option SharedQueue) : Proxy :=
  mkProxy (instrument_name_ p) (plugin_path_ p) q (worker_pid_ p)
    (pending_responses_ p) (running_ p) (stats_ p) (next_message_id_ p) (futures p).
Definition with_pid (p : Proxy) (pid : Z) : Proxy :=
  mkProxy (instrument_name_ p) (plugin_path_ p) (ipc_queue_ p) pid
    (pending_responses_ p) (running_ p) (stats_ p) (next_message_id_ p) (futures p).

Definition count_sent (s : Stats) : Stats :=
  mkStats (wrap64 (commands_sent s + 1)) (commands_completed s) (commands_failed s) (commands_timeout s).
Definition count_timeout (s : Stats) : Stats :=
  mkStats (commands_sent s) (commands_completed s) (commands_failed s) (wrap64 (commands_timeout s + 1)).
Definition count_answer (ok : bool) (s : Stats) : Stats :=
  if ok then mkStats (commands_sent s) (wrap64 (commands_completed s + 1)) (commands_failed s) (commands_timeout s)
  else mkStats (commands_sent s) (commands_completed s) (wrap64 (commands_failed s + 1)) (commands_timeout s).

(** What the proxies of a server share: the system's queues and processes, the
    process manager and the coordinator they were constructed with. *)
Record Server (Q W : Type) := mkServer {
  sv_shm : Shm Q;
  sv_os : W;
  sv_pm : ProcessManager;
  sync_coordinator_ : SyncCoordinator
}.
Arguments mkServer {Q W}. Arguments sv_shm {Q W}. Arguments sv_os {Q W}.
Arguments sv_pm {Q W}. Arguments sync_coordinator_ {Q W}.

Section Proxy.
Context `{JT : JsonText}.
Context `{MQ : MessageQueue Q}.
Context `{OS : Posix W}.
Implicit Types (sv : Server Q W) (p : Proxy) (msg : IPCMessage) (cmd : SerializedCommand).

Definition with_shm sv (shm : Shm Q) : Server Q W :=
  mkServer shm (sv_os sv) (sv_pm sv) (sync_coordinator_ sv).
Definition with_coord sv (c : SyncCoordinator) : Server Q W :=
  mkServer (sv_shm sv) (sv_os sv) (sv_pm sv) c.
Definition with_procs sv (w : W) (pm : ProcessManager) : Server Q W :=
  mkServer (sv_shm sv) w pm (sync_coordinator_ sv).

(** ** Executing a command *)

(** Take the next number, an atomic increment outside the lock.  The promise is
    still in the hands of the calling thread. *)
Definition execute_number p cmd : Proxy * (Z * SerializedCommand * nat) :=
  let msg_id := next_message_id_ p in
  let cmd := mkCommand (instrument_name_ p +:+ "-" +:+ dec msg_id) (cmd_instrument_name cmd)
               (cmd_verb cmd) (cmd_params cmd) (cmd_expects_response cmd) (cmd_timeout cmd)
               (cmd_created_at cmd) (cmd_sync_token cmd) (cmd_is_sync_barrier cmd) in
  (mkProxy (instrument_name_ p) (plugin_path_ p) (ipc_queue_ p) (worker_pid_ p)
     (pending_responses_ p) (running_ p) (stats_ p) (wrap64 (msg_id + 1)) (futures p ++ [Waiting]),
   (msg_id, cmd, length (futures p))).

(** File the promise under the number, with the lock held.  A promise already
    filed there is destroyed by the move assignment. *)
Definition execute_file p (msg_id : Z) (future : nat) : Proxy :=
  with_pending p (<[msg_id := future]> (pending_responses_ p))
    match pending_responses_ p !! msg_id with
    | Some i => <[i := Broken]> (futures p)
    | None => futures p
    end.

(** Both at once. *)
Definition execute_register p cmd : Proxy * (Z * SerializedCommand * nat) :=
  let '(p, (msg_id, cmd, future)) := execute_number p cmd in
  (execute_file p msg_id future, (msg_id, cmd, future)).

(** The message of a command. *)
Definition command_message (msg_id : Z) cmd : res IPCMessage :=
  payload ← serialize_command cmd;
  Ok (set_payload (mkIPCMessage COMMAND msg_id (default 0%Z (cmd_sync_token cmd)) 0 zero_payload)
        payload).

(** Serialize and send; [ipc_queue_] is dereferenced without a check. *)
Definition execute_send sv p (msg_id : Z) cmd : Server Q W * res bool :=
  match command_message msg_id cmd with
  | Ok msg =>
      match ipc_queue_ p with
      | Some h => let '(shm, sent) := send (sv_shm sv) h msg in (with_shm sv shm, Ok sent)
      | None => (sv, Undef)
      end
  | Exn e => (sv, Exn e)
  | Undef => (sv, Undef)
  end.

Definition error_response (id name text : string) : CommandResponse :=
  mkResponse id name false 0 text EmptyString None false EmptyString 0 EmptyString.

(** Count the command, or fulfil its promise with the error. *)
Definition execute_finish p (msg_id : Z) cmd (sent : bool) : res Proxy :=
  if sent then Ok (with_stats p (count_sent (stats_ p)))
  else
    match pending_responses_ p !! msg_id with
    | Some i =>
        fs ← set_value (futures p) i (error_response (cmd_id cmd) (instrument_name_ p) "IPC send timeout");
        Ok (with_pending p (delete msg_id (pending_responses_ p)) fs)
    | None => Ok p
    end.

(** The whole call without interruption: the future, or the exception. *)
Definition execute sv p cmd : Server Q W * Proxy * res nat :=
  let '(p, (msg_id, cmd, future)) := execute_register p cmd in
  match execute_send sv p msg_id cmd with
  | (sv, Ok sent) =>
      match execute_finish p msg_id cmd sent with
      | Ok p => (sv, p, Ok future)
      | Exn e => (sv, p, Exn e)
      | Undef => (sv, p, Undef)
      end
  | (sv, Exn e) => (sv, p, Exn e)
  | (sv, Undef) => (sv, p, Undef)
  end.

(** The end of [execute_sync]: [p] is the proxy when the wait is over.  The
    command was moved into [execute]; [moved_id] is what its [id] holds then. *)
Definition execute_sync_result p (future : nat) (moved_id : string) : Proxy * res CommandResponse :=
  match futures p !! future with
  | Some (Ready r) => (p, Ok r)
  | Some Broken => (p, Exn "std::future_error")
  | _ => (with_stats p (count_timeout (stats_ p)),
          Ok (error_response moved_id (instrument_name_ p) "Command timeout"))
  end.

(** ** The response listener *)

Definition handle_response_message p msg : res Proxy :=
  resp ← deserialize_response (payload_of msg);
  match pending_responses_ p !! msg_id msg with
  | Some i =>
      let fs := set_value_quietly (futures p) i resp in
      Ok (with_stats (with_pending p (delete (msg_id msg) (pending_responses_ p)) fs)
            (count_answer (resp_success resp) (stats_ p)))
  | None => Ok p
  end.

Definition send_sync_continue sv p (sync_token : Z) : Server Q W :=
  match ipc_queue_ p with
  | None => sv
  | Some h =>
      if negb (is_valid h) then sv
      else with_shm sv (send (sv_shm sv) h
             (mkIPCMessage SYNC_CONTINUE 0 sync_token 0 zero_payload)).1
  end.

Definition handle_sync_ack_message sv p msg : Server Q W :=
  let '(c, barrier_complete) :=
    handle_ack (sync_coordinator_ sv) (msg_sync_token msg) (instrument_name_ p) in
  let sv := with_coord sv c in
  if barrier_complete then send_sync_continue sv p (msg_sync_token msg) else sv.

Definition handle_ipc_message (now : Z) sv p msg : res (Server Q W * Proxy) :=
  match msg_type msg with
  | HEARTBEAT => Ok (with_procs sv (sv_os sv) (update_heartbeat now (sv_pm sv) (worker_pid_ p)), p)
  | RESPONSE => p ← handle_response_message p msg; Ok (sv, p)
  | SYNC_ACK => Ok (handle_sync_ack_message sv p msg, p)
  | _ => Ok (sv, p)
  end.

(** An iteration of the listener past its test of [running_]: [None] when it
    leaves the loop.  An exception ends the server ([std::terminate]). *)
Definition listener_iteration (now : Z) sv p : res (option (Server Q W * Proxy)) :=
  match ipc_queue_ p with
  | None => Ok None
  | Some h =>
      if negb (is_valid h) then Ok None
      else
        let '(shm, msg_opt) := receive (sv_shm sv) h in
        let sv := with_shm sv shm in
        match msg_opt with
        | None => Ok (Some (sv, p))
        | Some msg => r ← handle_ipc_message now sv p msg; Ok (Some r)
        end
  end.

(** The loop, for a number of iterations with the times given. *)
Fixpoint response_listener_loop sv p (times : list Z) : res (Server Q W * Proxy) :=
  match times with
  | [] => Ok (sv, p)
  | now :: times =>
      if negb (running_ p) then Ok (sv, p)
      else
        r ← listener_iteration now sv p;
        match r with
        | None => Ok (sv, p)
        | Some (sv, p) => response_listener_loop sv p times
        end
  end.

(** ** Starting and stopping *)

Definition proxy_is_alive sv p : Server Q W * bool :=
  if bool_decide (worker_pid_ p = 0%Z) then (sv, false)
  else let '(w, b) := is_alive (sv_os sv) (sv_pm sv) (worker_pid_ p) in
       (with_procs sv w (sv_pm sv), b).

Definition get_stats p : Stats := stats_ p.

Definition send_shutdown_message sv p : Server Q W :=
  match ipc_queue_ p with
  | Some h =>
      if is_valid h
      then with_shm sv (send (sv_shm sv) h (mkIPCMessage SHUTDOWN 0 0 0 zero_payload)).1 else sv
  | None => sv
  end.

(** [start] and [reads] are the clock of [wait_for_exit]. *)
Definition stop_worker_process sv p (start : Z) (reads : list (Z * list Z)) : Server Q W :=
  if bool_decide (worker_pid_ p = 0%Z) then sv
  else
    match wait_for_exit (sv_os sv) (sv_pm sv) (worker_pid_ p) 1000 start reads with
    | (w, Some false) =>
        let '(w, pm, _) := kill_process w (sv_pm sv) (worker_pid_ p) true in with_procs sv w pm
    | (w, _) => with_procs sv w (sv_pm sv)
    end.

Definition cleanup_pending_promises p : Proxy :=
  let r := error_response EmptyString (instrument_name_ p) "Worker stopped" in
  with_pending p ∅ (foldl (λ fs kv, set_value_quietly fs kv.2 r) (futures p)
                      (map_to_list (pending_responses_ p))).

Definition cleanup_ipc sv p : Server Q W * Proxy :=
  (with_shm sv (cleanup (sv_shm sv) (instrument_name_ p)), with_queue p None).

(** How the wait for the listener thread ends.  [std::thread::join] waits as
    long as the thread runs and does not throw for a thread that is still
    running, so the loop has one round: the 500 ms only decide whether the
    thread is detached before the first [join]. *)
Inductive join_outcome := NothingToJoin | Detached | Joined.

Definition join_response_thread_with_timeout (joinable : bool) (start now : Z) : join_outcome :=
  if negb joinable then NothingToJoin
  else if bool_decide (500 < now - start)%Z then Detached
  else Joined.

(** The whole call without interruption; the join leaves the state alone. *)
Definition stop sv p (start : Z) (reads : list (Z * list Z)) : Server Q W * Proxy :=
  if negb (running_ p) then (sv, p)
  else
    let p := with_running p false in
    let sv := send_shutdown_message sv p in
    let sv := stop_worker_process sv p start reads in
    cleanup_ipc sv (cleanup_pending_promises p).

(** What [start] meets: whether the system grants the queues and the listener
    thread, the clock at the spawn, what happens in the 500 ms wait, and the clock of a [stop]. *)
Record start_env := mkStartEnv {
  se_os_ok : bool * bool;
  se_thread : bool;
  se_now : Z;
  se_during : Server Q W → Server Q W;
  se_stop_start : Z;
  se_stop_reads : list (Z * list Z)
}.

(** The listener thread is joinable while [running_] is set; assigning to a
    joinable [std::thread] terminates the process ([Undef]). *)
Definition start (env : start_env) sv p : Server Q W * Proxy * res bool :=
  match create_server_queue (se_os_ok env) (sv_shm sv) (instrument_name_ p) with
  | (shm, Ok h) =>
      let sv := with_shm sv shm in
      let p := with_queue p (Some h) in
      let '(w, pm, pid) := spawn_worker (se_now env) (sv_os sv) (sv_pm sv) (instrument_name_ p)
                             (plugin_path_ p) "instrument-worker" in
      let sv := with_procs sv w pm in
      let p := with_pid p pid in
      if bool_decide (pid = 0%Z) then (sv, p, Ok false)
      else if running_ p then (sv, p, Undef)
      else
        let p := with_running p true in
        if negb (se_thread env) then (sv, p, Exn "std::system_error")
        else
        let sv := se_during env sv in
        let '(sv, alive) := proxy_is_alive sv p in
        if alive then (sv, p, Ok true)
        else let '(sv, p) := stop sv p (se_stop_start env) (se_stop_reads env) in (sv, p, Ok false)
  | (shm, _) => (with_shm sv shm, p, Ok false)
  end.

(** No code calls this function. *)
Definition handle_worker_death p : res Proxy :=
  let r := error_response EmptyString (instrument_name_ p) "Worker process died" in
  fs ← res_foldl (λ fs kv, set_value fs kv.2 r) (futures p) (map_to_list (pending_responses_ p));
  Ok (with_pending p ∅ fs).

(** ** Concurrent executions *)

(** Where a client thread is in [execute]. *)
Inductive client :=
| Numbered (msg_id : Z) (cmd : SerializedCommand)
| Registered (msg_id : Z) (cmd : SerializedCommand)
| SendDone (msg_id : Z) (cmd : SerializedCommand) (sent : bool).

(** How far the thread that runs [stop] is. *)
Inductive stop_phase := NotStopping | Signalled | ShutdownSent | Joining | PromisesFailed | Stopped.

Record Conc := mkConc {
  c_sv : Server Q W;
  c_px : Proxy;
  c_clients : gmap nat client;   (* by the future the call will return *)
  c_listener : bool;             (* the listener thread runs *)
  c_stop : stop_phase
}.

(** What a step does that the statistics could count: who set which futures. *)
Inductive settler := ByListener | ByCaller | ByStop.
Inductive event :=
| E_quiet
| E_sent
| E_timeout
| E_settled (who : settler) (l : list (nat * CommandResponse)).

#[export] Instance settler_eq_dec : EqDecision settler.
Proof. solve_decision. Defined.
#[export] Instance event_eq_dec : EqDecision event.
Proof. solve_decision. Defined.

(** The futures that are set in [fs'] and were not in [fs]. *)
Definition newly (fs fs' : list fut) : list (nat * CommandResponse) :=
  omap (λ i, match fs !! i, fs' !! i with Some Waiting, Some (Ready r) => Some (i, r) | _, _ => None end)
    (seq 0 (length fs)).

(** One uninterrupted piece of some thread of the proxy. *)
Inductive pact : event → Conc → Conc → Prop :=
| C_number sv p cs l st cmd p' id cmd' f :
    execute_number p cmd = (p', (id, cmd', f)) →
    pact E_quiet (mkConc sv p cs l st) (mkConc sv p' (<[f := Numbered id cmd']> cs) l st)
| C_file sv p cs l st f id cmd :
    cs !! f = Some (Numbered id cmd) →
    pact E_quiet (mkConc sv p cs l st)
      (mkConc sv (execute_file p id f) (<[f := Registered id cmd]> cs) l st)
| C_send sv p cs l st f id cmd sv' b :
    cs !! f = Some (Registered id cmd) → execute_send sv p id cmd = (sv', Ok b) →
    pact E_quiet (mkConc sv p cs l st) (mkConc sv' p (<[f := SendDone id cmd b]> cs) l st)
| C_send_throws sv p cs l st f id cmd sv' e :
    cs !! f = Some (Registered id cmd) → execute_send sv p id cmd = (sv', Exn e) →
    pact E_quiet (mkConc sv p cs l st) (mkConc sv' p (delete f cs) l st)
| C_finish sv p cs l st f id cmd b p' :
    cs !! f = Some (SendDone id cmd b) → execute_finish p id cmd b = Ok p' →
    pact (if b then E_sent else E_settled ByCaller (newly (futures p) (futures p')))
      (mkConc sv p cs l st) (mkConc sv p' (delete f cs) l st)
| C_wait_over sv p cs l st f moved_id p' r :
    cs !! f = None → f < length (futures p) → execute_sync_result p f moved_id = (p', r) →
    pact (if bool_decide (futures p !! f = Some Waiting) then E_timeout else E_quiet)
      (mkConc sv p cs l st) (mkConc sv p' cs l st)
| C_listen sv p cs st now sv' p' :
    listener_iteration now sv p = Ok (Some (sv', p')) →
    pact (E_settled ByListener (newly (futures p) (futures p')))
      (mkConc sv p cs true st) (mkConc sv' p' cs true st)
| C_listener_exit sv p cs st now :
    running_ p = false ∨ listener_iteration now sv p = Ok None →
    pact E_quiet (mkConc sv p cs true st) (mkConc sv p cs false st)
| C_stop_signal sv p cs l :
    running_ p = true →
    pact E_quiet (mkConc sv p cs l NotStopping) (mkConc sv (with_running p false) cs l Signalled)
| C_stop_shutdown sv p cs l :
    pact E_quiet (mkConc sv p cs l Signalled) (mkConc (send_shutdown_message sv p) p cs l ShutdownSent)
| C_stop_worker sv p cs l t reads :
    pact E_quiet (mkConc sv p cs l ShutdownSent)
      (mkConc (stop_worker_process sv p t reads) p cs l Joining)
| C_stop_promises sv p cs l t now :
    (l = true → join_response_thread_with_timeout true t now = Detached) →
    pact (E_settled ByStop (newly (futures p) (futures (cleanup_pending_promises p))))
      (mkConc sv p cs l Joining) (mkConc sv (cleanup_pending_promises p) cs l PromisesFailed)
| C_stop_ipc sv p cs l sv' p' :
    cleanup_ipc sv p = (sv', p') →
    pact E_quiet (mkConc sv p cs l PromisesFailed) (mkConc sv' p' cs l Stopped).

Definition pstep (s s' : Conc) : Prop := ∃ e, pact e s s'.

(** A step of the proxy, or a change of the environment (the worker, other
    proxies, the system). *)
Inductive cact : event → Conc → Conc → Prop :=
| C_own e s s' : pact e s s' → cact e s s'
| C_environment sv p cs l st sv' :
    cact E_quiet (mkConc sv p cs l st) (mkConc sv' p cs l st).

Definition cstep (s s' : Conc) : Prop := ∃ e, cact e s s'.

(** A run with its events. *)
Inductive ctrace (s0 : Conc) : list event → Conc → Prop :=
| T_start : ctrace s0 [] s0
| T_step tr e s s' : ctrace s0 tr s → cact e s s' → ctrace s0 (tr ++ [e]) s'.

(** A proxy after a successful [start]. *)
Definition started (s : Conc) : Prop :=
  ∃ sv name plugin h pid,
    s = mkConc sv (with_running (with_pid (with_queue (new_proxy name plugin) (Some h)) pid) true)
          ∅ true NotStopping.

(** ** The promise invariant *)

Definition succeeded (f : fut) : bool := match f with Ready r => resp_success r | _ => false end.
Definition tally (P : fut → bool) (fs : list fut) : Z := Z.of_nat (length (filter (λ f, P f = true) fs)).

(** The calls whose promise is not filed yet. *)
Definition unfiled (cs : gmap nat client) : gset nat :=
  dom (omap (λ c, match c with Numbered _ _ => Some () | _ => None end) cs).

(** Every unset future has its promise filed under its number, unless the
    calling thread still holds it ([un]); filed promises are unset. *)
Record px_inv (un : gset nat) p : Prop := {
  inv_next : next_message_id_ p = (1 + Z.of_nat (length (futures p)))%Z;
  inv_pending m i : pending_responses_ p !! m = Some i →
    futures p !! i = Some Waiting ∧ m = (1 + Z.of_nat i)%Z ∧ i ∉ un;
  inv_waiting i : futures p !! i = Some Waiting →
    i ∈ un ∨ pending_responses_ p !! (1 + Z.of_nat i)%Z = Some i;
  inv_held i : i ∈ un → futures p !! i = Some Waiting;
  inv_broken i : futures p !! i ≠ Some Broken;
  inv_completed : commands_completed (stats_ p) = tally succeeded (futures p)
}.

(** The clients hold the promises of the futures they are filed under. *)
Definition numbered_ok (f : nat) (c : client) : Prop :=
  match c with Numbered id _ | Registered id _ | SendDone id _ _ => id = (1 + Z.of_nat f)%Z end.

Record conc_inv (c : Conc) : Prop := {
  ci_px : px_inv (unfiled (c_clients c)) (c_px c);
  ci_clients : map_Forall numbered_ok (c_clients c);
  ci_known : map_Forall (λ f _, f < length (futures (c_px c))) (c_clients c)
}.

End Proxy.
Arguments Conc : clear implicits.
Arguments start_env : clear implicits.
Arguments mkStartEnv {Q W}.

(** ** Lemmas on futures *)

Lemma tally_app P fs gs : tally P (fs ++ gs) = (tally P fs + tally P gs)%Z.
Proof. unfold tally. rewrite filter_app, length_app. lia. Qed.

Lemma tally_length P fs : (tally P fs ≤ Z.of_nat (length fs))%Z.
Proof. unfold tally. pose proof (length_filter (λ f, P f = true) fs). lia. Qed.

Lemma tally_set P fs i r :
  P Waiting = false → fs !! i = Some Waiting →
  tally P (<[i := Ready r]> fs) = (tally P fs + if P (Ready r) then 1 else 0)%Z.
Proof.
  intros HP Hi. rewrite insert_take_drop by by eapply lookup_lt_Some.
  rewrite <-(take_drop_middle fs i Waiting Hi) at 3. rewrite !tally_app.
  enough (tally P (Ready r :: drop (S i) fs) =
          tally P (Waiting :: drop (S i) fs) + if P (Ready r) then 1 else 0)%Z by lia.
  unfold tally. rewrite !filter_cons, HP. rewrite (decide_False (P := false = true)) by done.
  destruct (P (Ready r)); case_decide; try done; cbn; lia.
Qed.

(** Setting a waiting future fulfils it and nothing else. *)
Lemma set_value_waiting fs i r :
  fs !! i = Some Waiting →
  set_value fs i r = Ok (<[i := Ready r]> fs) ∧ set_value_quietly fs i r = <[i := Ready r]> fs.
Proof. intros H. unfold set_value_quietly, set_value. by rewrite H. Qed.

Lemma set_values_spec (kvs : list (Z * nat)) fs r :
  NoDup kvs.*2 → (∀ i, i ∈ kvs.*2 → fs !! i = Some Waiting) → resp_success r = false →
  ∃ fs', res_foldl (λ fs kv, set_value fs kv.2 r) fs kvs = Ok fs' ∧
    foldl (λ fs kv, set_value_quietly fs kv.2 r) fs kvs = fs' ∧ length fs' = length fs ∧
    (∀ j, fs' !! j = if bool_decide (j ∈ kvs.*2) then Some (Ready r) else fs !! j) ∧
    tally succeeded fs' = tally succeeded fs.
Proof.
  revert fs. induction kvs as [|[m i] kvs IH]; intros fs Hnd Hw Hr.
  { by exists fs. }
  apply NoDup_cons in Hnd as [Hi Hnd].
  assert (fs !! i = Some Waiting) as Hfi by (apply Hw; left).
  destruct (set_value_waiting fs i r Hfi) as [E1 E2].
  destruct (IH (<[i := Ready r]> fs) Hnd) as (fs' & H1 & H2 & H3 & H4 & H5); [|done|].
  { intros j Hj. rewrite list_lookup_insert_ne by set_solver. apply Hw. by right. }
  exists fs'. cbn [res_foldl foldl snd]. rewrite E1, E2. split_and!; [done|done| | |].
  - by rewrite H3, length_insert.
  - intros j. rewrite H4. rewrite fmap_cons. cbn [snd]. destruct (decide (j = i)) as [->|Hne].
    + rewrite bool_decide_eq_false_2, bool_decide_eq_true_2 by (done || left).
      rewrite list_lookup_insert_eq; [done|by eapply lookup_lt_Some].
    + rewrite list_lookup_insert_ne by done.
      by rewrite (bool_decide_ext (j ∈ kvs.*2) (j ∈ i :: kvs.*2)) by set_solver.
  - rewrite H5, tally_set by done. cbn. rewrite Hr. lia.
Qed.

(** A future never changes once set; the list only grows. *)
Definition extends (fs fs' : list fut) : Prop :=
  ∀ i r, fs !! i = Some (Ready r) → fs' !! i = Some (Ready r).

#[export] Instance extends_preorder : PreOrder extends.
Proof. split; [by intros fs i r|]. intros f g h H1 H2 i r H. auto. Qed.

Section Invariant.
Context `{JT : JsonText} `{MQ : MessageQueue Q} `{OS : Posix W}.
Implicit Types (sv : Server Q W) (p : Proxy).

(** The invariant speaks of these fields only. *)
Lemma px_inv_ext un p p' :
  next_message_id_ p' = next_message_id_ p → pending_responses_ p' = pending_responses_ p →
  futures p' = futures p → commands_completed (stats_ p') = commands_completed (stats_ p) →
  px_inv un p → px_inv un p'.
Proof. intros H1 H2 H3 H4 []. split; rewrite ?H1, ?H2, ?H3, ?H4; auto. Qed.

Lemma number_inv un p cmd :
  px_inv un p → (Z.of_nat (length (futures p)) + 2 < two64)%Z →
  px_inv ({[length (futures p)]} ∪ un) (execute_number p cmd).1.
Proof.
  intros [Hn Hp Hw Hh Hb Hc] Hlen. split; cbn.
  - rewrite length_app, wrap64_id; [cbn; lia|]. unfold is_u64. lia.
  - intros m i (Hi & -> & Hu)%Hp. split_and!; [by apply lookup_app_l_Some|done|].
    apply lookup_lt_Some in Hi. intros [->%elem_of_singleton|?]%elem_of_union; [lia|done].
  - intros i [Hi|[Hge Hi]]%lookup_app_Some; [destruct (Hw i Hi); set_solver|].
    apply list_lookup_singleton_Some in Hi as [Hi _]. left. apply elem_of_union_l, elem_of_singleton. lia.
  - intros i [->%elem_of_singleton|Hi]%elem_of_union; [by rewrite lookup_app_r, Nat.sub_diag|].
    by apply lookup_app_l_Some, Hh.
  - intros i [Hi|[_ Hi]]%lookup_app_Some; [by eapply Hb|].
    by apply list_lookup_singleton_Some in Hi as [_ ?].
  - rewrite tally_app. change (tally succeeded [Waiting]) with 0%Z. lia.
Qed.

(** A number is filed once. *)
Lemma file_fresh un p f :
  px_inv un p → f ∈ un → pending_responses_ p !! (1 + Z.of_nat f)%Z = None.
Proof.
  intros Hi Hf. destruct (pending_responses_ p !! _) as [i|] eqn:E; [|done].
  destruct (inv_pending _ _ Hi _ _ E) as (_ & Hm & Hu). assert (i = f) as -> by lia. done.
Qed.

Lemma file_inv un p f :
  px_inv un p → f ∈ un →
  px_inv (un ∖ {[f]}) (execute_file p (1 + Z.of_nat f) f) ∧
  futures (execute_file p (1 + Z.of_nat f) f) = futures p.
Proof.
  intros Hi Hf. pose proof (file_fresh _ _ _ Hi Hf) as Hnone. destruct Hi as [Hn Hp Hw Hh Hb Hc].
  unfold execute_file. rewrite Hnone. split; [|done]. split; cbn; try done.
  - intros m i. rewrite lookup_insert. case_decide as Hm.
    + intros [= <-]. split_and!; [by apply Hh|done|set_solver].
    + intros (? & -> & ?)%Hp. split_and!; [done|done|set_solver].
  - intros i Hi. destruct (decide (i = f)) as [->|Hne]; [right; apply lookup_insert_eq|].
    destruct (Hw i Hi); [left; set_solver|right]. rewrite lookup_insert_ne by lia. done.
  - intros i Hi. apply Hh. set_solver.
Qed.

Lemma register_inv p cmd :
  px_inv ∅ p → (Z.of_nat (length (futures p)) + 2 < two64)%Z →
  px_inv ∅ (execute_register p cmd).1 ∧
  futures (execute_register p cmd).1 = futures p ++ [Waiting].
Proof.
  intros Hi Hlen. pose proof (number_inv _ _ cmd Hi Hlen) as H1.
  destruct (file_inv _ _ (length (futures p)) H1) as [H2 H3]; [set_solver|].
  unfold execute_register. cbn [execute_number fst snd] in *. rewrite (inv_next _ _ Hi).
  replace (_ ∖ _) with (∅ : gset nat) in H2 by set_solver. rewrite (inv_next _ _ Hi) in H2, H3. done.
Qed.

(** Fulfilling the promise filed under [m]. *)
Lemma resolve_inv un p m i r s' :
  px_inv un p → pending_responses_ p !! m = Some i →
  commands_completed s' =
    (commands_completed (stats_ p) + if resp_success r then 1 else 0)%Z →
  let p' := with_stats (with_pending p (delete m (pending_responses_ p)) (<[i := Ready r]> (futures p))) s' in
  px_inv un p' ∧ extends (futures p) (futures p').
Proof.
  intros [Hn Hp Hw Hh Hb Hc] Hm Hs. cbn zeta. destruct (Hp _ _ Hm) as (Hi & -> & Hu).
  pose proof (lookup_lt_Some _ _ _ Hi) as Hlt. split.
  2: { intros j x Hj. cbn. rewrite list_lookup_insert_ne by congruence. done. }
  split; cbn.
  - by rewrite length_insert.
  - intros m' j [Hne Hj]%lookup_delete_Some. destruct (Hp _ _ Hj) as (? & -> & ?). split_and!; [|done..].
    rewrite list_lookup_insert_ne; [done|lia].
  - intros j Hj. apply list_lookup_insert_Some in Hj as [(_ & ? & _)|[Hne Hj]]; [done|].
    rewrite lookup_delete_ne by lia. auto.
  - intros j Hj. rewrite list_lookup_insert_ne by congruence. auto.
  - intros j Hj. apply list_lookup_insert_Some in Hj as [(_ & ? & _)|[_ Hj]]; [done|by eapply Hb].
  - rewrite tally_set by done. cbn. lia.
Qed.

(** Failing every filed promise. *)
Lemma fail_all_spec un p r :
  px_inv un p → resp_success r = false →
  ∃ fs', res_foldl (λ fs kv, set_value fs kv.2 r) (futures p) (map_to_list (pending_responses_ p)) = Ok fs' ∧
    foldl (λ fs kv, set_value_quietly fs kv.2 r) (futures p) (map_to_list (pending_responses_ p)) = fs' ∧
    px_inv un (with_pending p ∅ fs') ∧ length fs' = length (futures p) ∧
    ∀ j, fs' !! j = if bool_decide (futures p !! j = Some Waiting ∧ j ∉ un) then Some (Ready r)
                    else futures p !! j.
Proof.
  intros [Hn Hp Hw Hh Hb Hc] Hr.
  assert (∀ i, i ∈ (map_to_list (pending_responses_ p)).*2 ↔ futures p !! i = Some Waiting ∧ i ∉ un) as Hin.
  { intros i. rewrite list_elem_of_fmap. split.
    - intros ([m j] & -> & Hj%elem_of_map_to_list). by apply Hp in Hj as (? & _ & ?).
    - intros [[?|Hi]%Hw Hu]; [done|]. exists ((1 + Z.of_nat i)%Z, i). by rewrite elem_of_map_to_list. }
  destruct (set_values_spec (map_to_list (pending_responses_ p)) (futures p) r)
    as (fs' & H1 & H2 & H3 & H4 & H5).
  - apply NoDup_fmap_2_strong; [|apply NoDup_map_to_list].
    intros [m i] [m' i'] Hx%elem_of_map_to_list Hy%elem_of_map_to_list Heq. cbn in Heq. subst.
    apply Hp in Hx as (_ & -> & _). apply Hp in Hy as (_ & -> & _). done.
  - intros i Hi. by apply Hin.
  - done.
  - assert (∀ j, fs' !! j = if bool_decide (futures p !! j = Some Waiting ∧ j ∉ un) then Some (Ready r)
                    else futures p !! j) as Hall.
    { intros j. rewrite H4. by rewrite (bool_decide_ext _ _ (Hin j)). }
    exists fs'. split_and!; [done|done| |done|done]. split; cbn; [lia|set_solver| | | |congruence].
    + intros i Hi. rewrite Hall in Hi. case_bool_decide as Hd; [done|]. left.
      destruct (decide (i ∈ un)); [done|]. by destruct Hd.
    + intros i Hi. rewrite Hall, bool_decide_eq_false_2 by naive_solver. auto.
    + intros i Hi. rewrite Hall in Hi. case_bool_decide; [done|]. by eapply Hb.
Qed.

Lemma finish_inv un p id cmd b :
  px_inv un p → ∃ p', execute_finish p id cmd b = Ok p' ∧ px_inv un p' ∧ extends (futures p) (futures p').
Proof.
  intros Hinv. unfold execute_finish. destruct b.
  { eexists. split_and!; [done| |done]. by eapply px_inv_ext; [..|exact Hinv]. }
  destruct (pending_responses_ p !! id) as [i|] eqn:E; [|by exists p].
  destruct (inv_pending _ p Hinv _ _ E) as [Hi _].
  destruct (set_value_waiting (futures p) i
    (error_response (cmd_id cmd) (instrument_name_ p) "IPC send timeout") Hi) as [-> _]. cbn.
  eexists. split; [done|].
  destruct (resolve_inv un p id i (error_response (cmd_id cmd) (instrument_name_ p) "IPC send timeout")
    (stats_ p) Hinv E) as [H1 H2]; [cbn; lia|]. split; [|done].
  by eapply px_inv_ext; [..|exact H1].
Qed.

Lemma response_inv un p msg p' :
  px_inv un p → (Z.of_nat (length (futures p)) + 2 < two64)%Z →
  handle_response_message p msg = Ok p' → px_inv un p' ∧ extends (futures p) (futures p').
Proof.
  intros Hinv Hlen. unfold handle_response_message.
  destruct (deserialize_response (payload_of msg)) as [r| |]; cbn; try done.
  destruct (pending_responses_ p !! msg_id msg) as [i|] eqn:E; intros H; simplify_eq; [|done].
  destruct (inv_pending _ p Hinv _ _ E) as [Hi _].
  destruct (set_value_waiting (futures p) i r Hi) as [_ ->].
  pose proof (inv_completed _ p Hinv) as Hc. pose proof (tally_length succeeded (futures p)).
  assert (0 ≤ tally succeeded (futures p))%Z by (unfold tally; lia).
  apply (resolve_inv un p (msg_id msg) i r (count_answer (resp_success r) (stats_ p))); try done.
  destruct (resp_success r); cbn; [|lia]. apply wrap64_id. unfold is_u64. lia.
Qed.

Lemma listener_inv un now sv p sv' p' :
  px_inv un p → (Z.of_nat (length (futures p)) + 2 < two64)%Z →
  listener_iteration now sv p = Ok (Some (sv', p')) → px_inv un p' ∧ extends (futures p) (futures p').
Proof.
  intros Hinv Hlen. unfold listener_iteration, handle_ipc_message.
  destruct (ipc_queue_ p) as [h|]; [|done]. destruct (is_valid h); cbn; [|done].
  destruct (receive (sv_shm sv) h) as [shm [msg|]]; [|by intros [= <- <-]].
  destruct (msg_type msg); cbn; try by intros [= <- <-].
  destruct (handle_response_message p msg) as [p1| |] eqn:E; cbn; try done.
  intros [= <- <-]. by eapply response_inv.
Qed.

Lemma sync_result_inv un p f m :
  px_inv un p →
  px_inv un (execute_sync_result p f m).1 ∧ futures (execute_sync_result p f m).1 = futures p.
Proof.
  intros Hinv. unfold execute_sync_result.
  destruct (futures p !! f) as [[]|]; cbn; try done; (split; [|done]);
    by eapply px_inv_ext; [..|exact Hinv].
Qed.

(** [stop] settles what is filed, and nothing else. *)
Lemma cleanup_promises_spec un p :
  px_inv un p →
  px_inv un (cleanup_pending_promises p) ∧ extends (futures p) (futures (cleanup_pending_promises p)) ∧
  pending_responses_ (cleanup_pending_promises p) = ∅ ∧
  length (futures (cleanup_pending_promises p)) = length (futures p) ∧
  (∀ j, futures (cleanup_pending_promises p) !! j =
     if bool_decide (futures p !! j = Some Waiting ∧ j ∉ un)
     then Some (Ready (error_response EmptyString (instrument_name_ p) "Worker stopped"))
     else futures p !! j).
Proof.
  intros Hinv. destruct (fail_all_spec un p
    (error_response EmptyString (instrument_name_ p) "Worker stopped") Hinv eq_refl)
    as (fs & _ & E & Hi & Hl & Hall).
  unfold cleanup_pending_promises. cbn. rewrite E. split_and!; try done.
  intros j x Hj. by rewrite Hall, bool_decide_eq_false_2 by naive_solver.
Qed.

(** ** All interleavings *)

Lemma execute_finish_length p id cmd b p' :
  execute_finish p id cmd b = Ok p' → length (futures p') = length (futures p).
Proof.
  unfold execute_finish, set_value. intros H.
  repeat (case_match; simplify_eq/=; try done). by rewrite length_insert.
Qed.

Lemma response_length p msg p' :
  handle_response_message p msg = Ok p' → length (futures p') = length (futures p).
Proof.
  unfold handle_response_message, set_value_quietly, set_value. intros H.
  destruct (deserialize_response _); simplify_eq/=.
  destruct (pending_responses_ p !! msg_id msg) as [i|]; simplify_eq/=; [|done].
  destruct (futures p !! i) as [[]|]; cbn; by rewrite ?length_insert.
Qed.

Lemma listener_length now sv p sv' p' :
  listener_iteration now sv p = Ok (Some (sv', p')) → length (futures p') = length (futures p).
Proof.
  unfold listener_iteration, handle_ipc_message.
  destruct (ipc_queue_ p) as [h|]; [|done]. destruct (is_valid h); cbn; [|done].
  destruct (receive (sv_shm sv) h) as [shm [msg|]]; [|by intros [= <- <-]].
  destruct (msg_type msg); cbn; try by intros [= <- <-].
  destruct (handle_response_message p msg) as [p1| |] eqn:E; cbn; try done.
  intros [= <- <-]. by eapply response_length.
Qed.

Lemma set_value_length fs i r :
  length (set_value_quietly fs i r) = length fs ∧
  ∀ fs', set_value fs i r = Ok fs' → length fs' = length fs.
Proof.
  unfold set_value_quietly, set_value. destruct (fs !! i) as [[]|]; cbn; try done.
  split; [|intros fs' [= <-]]; by rewrite length_insert.
Qed.

Lemma set_values_length (kvs : list (Z * nat)) fs r :
  length (foldl (λ fs kv, set_value_quietly fs kv.2 r) fs kvs) = length fs ∧
  ∀ fs', res_foldl (λ fs kv, set_value fs kv.2 r) fs kvs = Ok fs' → length fs' = length fs.
Proof.
  revert fs. induction kvs as [|kv kvs IH]; intros fs; cbn; [split; [done|by intros ? [= ->]]|].
  destruct (set_value_length fs kv.2 r) as [H1 H2]. split.
  - by rewrite (proj1 (IH _)), H1.
  - intros fs' H. destruct (set_value fs kv.2 r) as [fs1| |]; cbn in H; try done.
    by rewrite (proj2 (IH _) _ H), (H2 fs1).
Qed.

Lemma cleanup_length p : length (futures (cleanup_pending_promises p)) = length (futures p).
Proof. apply (proj1 (set_values_length _ _ _)). Qed.

(** The list of futures never shrinks. *)
Lemma pact_length e (s s' : Conc Q W) :
  pact e s s' → length (futures (c_px s)) ≤ length (futures (c_px s')).
Proof.
  destruct 1; cbn [c_px]; try done.
  - unfold execute_number in *. simplify_eq/=. rewrite length_app. lia.
  - unfold execute_file. cbn. case_match; by rewrite ?length_insert.
  - match goal with H : execute_finish _ _ _ _ = _ |- _ => by rewrite (execute_finish_length _ _ _ _ _ H) end.
  - unfold execute_sync_result in *. repeat case_match; by simplify_eq/=.
  - match goal with H : listener_iteration _ _ _ = _ |- _ => by rewrite (listener_length _ _ _ _ _ H) end.
  - by rewrite cleanup_length.
  - unfold cleanup_ipc in *. by simplify_eq.
Qed.

Lemma cact_length e (s s' : Conc Q W) :
  cact e s s' → length (futures (c_px s)) ≤ length (futures (c_px s')).
Proof. destruct 1; [by eapply pact_length|done]. Qed.

Lemma csteps_length (s s' : Conc Q W) :
  rtc cstep s s' → length (futures (c_px s)) ≤ length (futures (c_px s')).
Proof. induction 1 as [|a b c [e He] _ IH]; [done|]. pose proof (cact_length _ _ _ He). lia. Qed.

(** Clients that keep their number keep their place. *)
Lemma elem_of_unfiled (cs : gmap nat client) f :
  f ∈ unfiled cs ↔ ∃ id cmd, cs !! f = Some (Numbered id cmd).
Proof.
  unfold unfiled. rewrite elem_of_dom, lookup_omap. split.
  - destruct (cs !! f) as [[id cmd| |]|]; intros [x Hx]; try done. by eexists _, _.
  - intros (id & cmd & ->). by eexists.
Qed.

Lemma unfiled_keep (cs cs' : gmap nat client) f :
  (∀ id cmd, cs !! f ≠ Some (Numbered id cmd)) → (∀ id cmd, cs' !! f ≠ Some (Numbered id cmd)) →
  (∀ g, g ≠ f → cs' !! g = cs !! g) → unfiled cs' = unfiled cs.
Proof.
  intros H H' Hg. apply set_eq. intros g. rewrite !elem_of_unfiled.
  destruct (decide (g = f)) as [->|Hne]; [naive_solver|by rewrite Hg].
Qed.

Lemma unfiled_file (cs : gmap nat client) f id cmd :
  unfiled (<[f := Registered id cmd]> cs) = unfiled cs ∖ {[f]}.
Proof.
  apply set_eq. intros g. rewrite elem_of_difference, elem_of_singleton, !elem_of_unfiled.
  destruct (decide (g = f)) as [->|Hne]; [rewrite lookup_insert_eq|rewrite lookup_insert_ne by done]; naive_solver.
Qed.

Lemma unfiled_number (cs : gmap nat client) f id cmd :
  unfiled (<[f := Numbered id cmd]> cs) = {[f]} ∪ unfiled cs.
Proof.
  apply set_eq. intros g. rewrite elem_of_union, elem_of_singleton, !elem_of_unfiled.
  destruct (decide (g = f)) as [->|Hne]; [rewrite lookup_insert_eq|rewrite lookup_insert_ne by done]; naive_solver.
Qed.

(** A step that moves one client, and the proxy within its invariant. *)
Lemma conc_inv_move sv sv' p p' cs cs' f l l' st st' :
  conc_inv (mkConc (Q := Q) (W := W) sv p cs l st) →
  px_inv (unfiled cs') p' → length (futures p) ≤ length (futures p') →
  (∀ g, g ≠ f → cs' !! g = cs !! g) →
  (∀ c, cs' !! f = Some c → numbered_ok f c ∧ f < length (futures p')) →
  conc_inv (mkConc sv' p' cs' l' st').
Proof.
  intros [H1 H2 H3] Hp Hl Hg Hf. split; cbn in *; [done|..];
    (intros g c Hc; destruct (decide (g = f)) as [->|Hne]; [destruct (Hf _ Hc); done|rewrite Hg in Hc by done]).
  - by apply H2.
  - pose proof (H3 _ _ Hc). cbn in *. lia.
Qed.

(** The rest of the server is not part of the invariant. *)
Lemma conc_inv_ext (c c' : Conc Q W) :
  c_px c' = c_px c → c_clients c' = c_clients c → conc_inv c → conc_inv c'.
Proof. intros H1 H2 []. split; by rewrite ?H1, ?H2. Qed.

(** A call that has filed its promise goes on, or is over. *)
Lemma conc_inv_client sv p p' cs f c o l st sv' l' st' :
  conc_inv (mkConc sv p cs l st) → cs !! f = Some c → (∀ id cmd, c ≠ Numbered id cmd) →
  (∀ c', o = Some c' → numbered_ok f c' ∧ ∀ id cmd, c' ≠ Numbered id cmd) →
  px_inv (unfiled cs) p' → length (futures p) ≤ length (futures p') →
  conc_inv (mkConc (Q := Q) (W := W) sv' p' (partial_alter (λ _, o) f cs) l' st').
Proof.
  intros Hinv Hf Hc Ho Hp Hl. eapply (conc_inv_move _ _ _ _ _ _ f); [exact Hinv| |done| |].
  - rewrite (unfiled_keep cs _ f); [done|..].
    + intros id cmd. rewrite Hf. intros [= E]. by eapply Hc.
    + intros id cmd. rewrite lookup_partial_alter_eq. intros E. by eapply (proj2 (Ho _ E)).
    + intros g Hg. by apply lookup_partial_alter_ne.
  - intros g Hg. by apply lookup_partial_alter_ne.
  - intros c'. rewrite lookup_partial_alter_eq. intros E. split; [by apply Ho|].
    pose proof (ci_known _ Hinv f c Hf). cbn in *. lia.
Qed.

Lemma pact_inv e (s s' : Conc Q W) :
  pact e s s' → (Z.of_nat (length (futures (c_px s'))) + 2 < two64)%Z → conc_inv s →
  conc_inv s' ∧ extends (futures (c_px s)) (futures (c_px s')).
Proof.
  intros Hs Hlen Hinv. pose proof (pact_length _ _ _ Hs) as Hle.
  pose proof (ci_px _ Hinv) as Hpx. pose proof (ci_clients _ Hinv) as Hcl. pose proof (ci_known _ Hinv) as Hkn.
  destruct Hs as [sv p cs l st cmd p' id cmd' f Hr|sv p cs l st f id cmd Hf|sv p cs l st f id cmd sv' b Hf He
    |sv p cs l st f id cmd sv' e Hf He|sv p cs l st f id cmd b p' Hf Hfin
    |sv p cs l st f m p' r _ _ Hr|sv p cs st now sv' p' Hl|sv p cs st now _|sv p cs l _|sv p cs l|sv p cs l t reads
    |sv p cs l t now _|sv p cs l sv' p' He]; cbn [c_px c_clients] in *.
  - pose proof (number_inv _ p cmd Hpx) as H1. rewrite Hr in H1. cbn [fst] in H1.
    unfold execute_number in Hr. simplify_eq/=. rewrite length_app in Hlen, Hle. split.
    + eapply (conc_inv_move _ _ _ _ _ _ (length (futures p))); [exact Hinv| |cbn; rewrite length_app; lia|..].
      * rewrite unfiled_number. apply H1. cbn in *. lia.
      * intros g Hg. by apply lookup_insert_ne.
      * intros c. rewrite lookup_insert_eq. intros [= <-]. cbn. rewrite length_app. cbn.
        split; [apply (inv_next _ _ Hpx)|lia].
    + intros i r Hi. by apply lookup_app_l_Some.
  - pose proof (Hcl _ _ Hf) as ->. destruct (file_inv _ p f Hpx) as [H1 H2]; [apply elem_of_unfiled; by eexists _, _|].
    rewrite H2. split; [|done].
    eapply (conc_inv_move _ _ _ _ _ _ f); [exact Hinv|by rewrite unfiled_file|by rewrite H2| |].
    + intros g Hg. by apply lookup_insert_ne.
    + intros c. rewrite lookup_insert_eq. intros [= <-]. rewrite H2. split; [done|by eapply Hkn].
  - split; [|done]. eapply (conc_inv_client _ _ _ _ _ _ (Some _)); [exact Hinv|exact Hf|done| |done..].
    intros c' [= <-]. split; [by apply Hcl in Hf|done].
  - split; [|done]. by eapply (conc_inv_client _ _ _ _ _ _ None); [exact Hinv|exact Hf|..].
  - destruct (finish_inv _ p id cmd b Hpx) as (q & Hq & H1 & H2).
    rewrite Hq in Hfin. injection Hfin as <-. split; [|done].
    by eapply (conc_inv_client _ _ _ _ _ _ None); [exact Hinv|exact Hf|..].
  - destruct (sync_result_inv _ p f m Hpx) as [H1 H2]. rewrite Hr in H1, H2. cbn [fst] in *.
    rewrite H2. split; [|done]. split; [done..|]. cbn. by rewrite H2.
  - destruct (listener_inv _ _ _ _ _ _ Hpx ltac:(lia) Hl) as [H1 H2]. split; [|done]. split; [done..|].
    cbn. by rewrite (listener_length _ _ _ _ _ Hl).
  - split; [|done]. by split.
  - split; [|done]. split; [|done..]. by eapply px_inv_ext; [..|exact Hpx].
  - split; [|done]. by split.
  - split; [|done]. by split.
  - destruct (cleanup_promises_spec _ p Hpx) as (H1 & H2 & _ & H4 & _). split; [|done].
    split; [done..|]. cbn [c_px c_clients]. by rewrite H4.
  - unfold cleanup_ipc in He. simplify_eq. split; [|done]. split; [|done..].
    by eapply px_inv_ext; [..|exact Hpx].
Qed.

Lemma cact_inv e (s s' : Conc Q W) :
  cact e s s' → (Z.of_nat (length (futures (c_px s'))) + 2 < two64)%Z → conc_inv s →
  conc_inv s' ∧ extends (futures (c_px s)) (futures (c_px s')).
Proof. destruct 1; [by eapply pact_inv|]. intros _ []. by split. Qed.

Lemma started_inv (s : Conc Q W) : started s → conc_inv s.
Proof. intros (sv & name & plugin & h & pid & ->). by repeat split. Qed.

Lemma csteps_inv (s s' : Conc Q W) :
  rtc cstep s s' → (Z.of_nat (length (futures (c_px s'))) + 2 < two64)%Z → conc_inv s →
  conc_inv s' ∧ extends (futures (c_px s)) (futures (c_px s')).
Proof.
  induction 1 as [s|s s1 s' [e Hs] Hss IH]; intros Hlen Hinv; [done|].
  pose proof (csteps_length _ _ Hss) as Hle.
  destruct (cact_inv _ _ _ Hs) as [H1 H2]; [lia|done|].
  destruct (IH Hlen H1) as [H3 H4]. split; [done|by etrans].
Qed.

Lemma ctrace_steps (s0 s : Conc Q W) tr : ctrace s0 tr s → rtc cstep s0 s.
Proof. induction 1; [done|]. eapply rtc_r; [done|]. by eexists. Qed.

(** ** The log of a run *)

(** What was set in a run, and by whom. *)
Definition settled (tr : list event) : list (settler * (nat * CommandResponse)) :=
  tr ≫= λ e, match e with E_settled who l => pair who <$> l | _ => [] end.

(** Responses of the worker that reached a future, and other events. *)
Definition answered (ok : bool) (tr : list event) : nat :=
  length (filter (λ x, x.1 = ByListener ∧ resp_success x.2.2 = ok) (settled tr)).
Definition occurs (e : event) (tr : list event) : nat := length (filter (λ x, x = e) tr).

(** A 64-bit counter after [n] increments. *)
Definition bump (n : nat) (z : Z) : Z := Nat.iter n (λ z, wrap64 (z + 1)) z.

Lemma bump_add m n z : bump (m + n) z = bump n (bump m z).
Proof. unfold bump. by rewrite Nat.add_comm, Nat.iter_add. Qed.

Lemma bump_0 n : bump n 0 = wrap64 (Z.of_nat n).
Proof.
  induction n as [|n IH]; [done|]. change (bump (S n) 0) with (wrap64 (bump n 0 + 1)).
  rewrite IH. unfold wrap64. rewrite Z.add_mod_idemp_l by done. f_equal. lia.
Qed.

Lemma settled_app tr tr' : settled (tr ++ tr') = settled tr ++ settled tr'.
Proof. apply bind_app. Qed.
Lemma answered_app ok tr tr' : answered ok (tr ++ tr') = answered ok tr + answered ok tr'.
Proof. unfold answered. by rewrite settled_app, filter_app, length_app. Qed.
Lemma occurs_app e tr tr' : occurs e (tr ++ tr') = occurs e tr + occurs e tr'.
Proof. unfold occurs. by rewrite filter_app, length_app. Qed.

(** *** The futures a step sets *)

Lemma elem_of_newly fs fs' i r :
  (i, r) ∈ newly fs fs' ↔ fs !! i = Some Waiting ∧ fs' !! i = Some (Ready r).
Proof.
  unfold newly. rewrite list_elem_of_omap. split.
  - intros (j & _ & Hj). repeat case_match; by simplify_eq.
  - intros [Hi Hr]. exists i. rewrite Hi, Hr. split; [|done].
    apply elem_of_seq. apply lookup_lt_Some in Hi. lia.
Qed.

Lemma NoDup_newly fs fs' : NoDup (newly fs fs').*1.
Proof.
  unfold newly. assert (NoDup (seq 0 (length fs))) as Hnd by apply NoDup_seq. revert Hnd.
  generalize (seq 0 (length fs)). intros l. induction l as [|i l IH]; intros Hnd; cbn; [constructor|].
  apply NoDup_cons in Hnd as [Hi Hl]. specialize (IH Hl).
  destruct (fs !! i) as [[|r0|]|], (fs' !! i) as [[|r|]|]; try done. cbn. apply NoDup_cons. split; [|done].
  intros ([j x] & -> & (k & Hk & Hj)%list_elem_of_omap)%list_elem_of_fmap. repeat case_match; by simplify_eq.
Qed.

Lemma newly_same fs : newly fs fs = [].
Proof.
  destruct (newly fs fs) as [|[i r] l] eqn:E; [done|].
  assert ((i, r) ∈ newly fs fs) as [H1 H2]%elem_of_newly by (rewrite E; left). congruence.
Qed.

Lemma newly_set fs i r : fs !! i = Some Waiting → newly fs (<[i := Ready r]> fs) = [(i, r)].
Proof.
  intros Hi. symmetry. apply Permutation_singleton_l, NoDup_Permutation.
  - apply NoDup_singleton.
  - eapply NoDup_fmap_1, NoDup_newly.
  - intros [j x]. rewrite list_elem_of_singleton, elem_of_newly. split.
    + intros [= -> ->]. split; [done|]. apply list_lookup_insert_eq. by eapply lookup_lt_Some.
    + intros [Hj [(-> & [= ->] & _)|[_ Hx]]%list_lookup_insert_Some]; [done|congruence].
Qed.

(** What one step adds to the log. *)
Record logged (e : event) p p' : Prop := {
  lo_exact i r : futures p' !! i = Some (Ready r) ↔
    futures p !! i = Some (Ready r) ∨ (i, r) ∈ (settled [e]).*2;
  lo_once : NoDup (settled [e]).*2.*1;
  lo_waiting i : i ∈ (settled [e]).*2.*1 → futures p !! i = Some Waiting;
  lo_success who i r : (who, (i, r)) ∈ settled [e] → resp_success r = true → who = ByListener;
  lo_sent : commands_sent (stats_ p') = bump (occurs E_sent [e]) (commands_sent (stats_ p));
  lo_timeout : commands_timeout (stats_ p') = bump (occurs E_timeout [e]) (commands_timeout (stats_ p));
  lo_completed : commands_completed (stats_ p') = bump (answered true [e]) (commands_completed (stats_ p));
  lo_failed : commands_failed (stats_ p') = bump (answered false [e]) (commands_failed (stats_ p))
}.

Lemma logged_quiet p p' :
  stats_ p' = stats_ p → (∀ i r, futures p' !! i = Some (Ready r) ↔ futures p !! i = Some (Ready r)) →
  logged E_quiet p p'.
Proof. intros Hs Hf. split; rewrite ?Hs; try done; [|constructor|set_solver..]. set_solver. Qed.

Lemma settled_one who l : settled [E_settled who l] = pair who <$> l.
Proof. apply app_nil_r. Qed.

Lemma answered_none ok who : answered ok [E_settled who []] = 0.
Proof. done. Qed.

Lemma answered_one i r ok :
  answered ok [E_settled ByListener [(i, r)]] = if bool_decide (resp_success r = ok) then 1 else 0.
Proof.
  unfold answered. rewrite settled_one, fmap_cons, fmap_nil, filter_cons, filter_nil. cbn [fst snd].
  case_bool_decide; case_decide; naive_solver.
Qed.

(** Only responses of the worker are counted. *)
Lemma answered_other ok who l : who ≠ ByListener → answered ok [E_settled who l] = 0.
Proof.
  intros Hw. unfold answered. rewrite settled_one. induction l as [|x l IH]; [done|].
  rewrite fmap_cons. by rewrite filter_cons, decide_False by naive_solver.
Qed.

(** A step that sets futures: [Hc] is about the counters. *)
Lemma logged_settled who p p' :
  (∀ i, futures p !! i ≠ Some Broken) → length (futures p') = length (futures p) →
  extends (futures p) (futures p') →
  (who ≠ ByListener → ∀ i r, (i, r) ∈ newly (futures p) (futures p') → resp_success r = false) →
  let e := E_settled who (newly (futures p) (futures p')) in
  commands_sent (stats_ p') = commands_sent (stats_ p) →
  commands_timeout (stats_ p') = commands_timeout (stats_ p) →
  commands_completed (stats_ p') = bump (answered true [e]) (commands_completed (stats_ p)) →
  commands_failed (stats_ p') = bump (answered false [e]) (commands_failed (stats_ p)) →
  logged e p p'.
Proof.
  intros Hb Hl He Hw e Hsent Htmo Hcomp Hfail. unfold e in *.
  assert ((settled [E_settled who (newly (futures p) (futures p'))]).*2 = newly (futures p) (futures p')) as Hs.
  { rewrite settled_one, <-list_fmap_compose. apply list_fmap_id. }
  split; rewrite ?Hs; try done.
  - intros i r. rewrite elem_of_newly. split; [|intros [?|[_ ?]]; [by apply He|done]].
    intros Hi. destruct (futures p !! i) as [[|x|]|] eqn:E.
    + by right.
    + left. apply He in E. congruence.
    + by apply Hb in E.
    + apply lookup_lt_Some in Hi. apply lookup_ge_None in E. lia.
  - apply NoDup_newly.
  - intros i ([j r] & -> & [? _]%elem_of_newly)%list_elem_of_fmap. done.
  - intros who' i r. rewrite settled_one. intros ([j x] & [= -> -> ->] & Hin)%list_elem_of_fmap Hok.
    destruct (decide (who = ByListener)) as [|Hne]; [done|]. apply Hw in Hin; [congruence|done].
Qed.

Lemma listener_logged un now sv p sv' p' :
  px_inv un p → (Z.of_nat (length (futures p)) + 2 < two64)%Z →
  listener_iteration now sv p = Ok (Some (sv', p')) →
  logged (E_settled ByListener (newly (futures p) (futures p'))) p p'.
Proof.
  intros Hinv Hlen Hli. destruct (listener_inv _ _ _ _ _ _ Hinv Hlen Hli) as [_ He].
  pose proof (listener_length _ _ _ _ _ Hli) as Hl. pose proof (inv_broken _ _ Hinv) as Hb.
  assert (p' = p ∨ ∃ m, handle_response_message p m = Ok p') as [->|[m Hm]].
  { unfold listener_iteration, handle_ipc_message in Hli.
    destruct (ipc_queue_ p) as [h|]; [|done]. destruct (is_valid h); cbn in Hli; [|done].
    destruct (receive (sv_shm sv) h) as [shm [msg|]]; [|simplify_eq; by left].
    destruct (msg_type msg); cbn in Hli; simplify_eq; try by left.
    destruct (handle_response_message p msg) as [p1| |] eqn:E; cbn in Hli; simplify_eq. right. by eexists. }
  { apply logged_settled; try done; by rewrite newly_same. }
  unfold handle_response_message in Hm.
  destruct (deserialize_response (payload_of m)) as [r| |]; cbn in Hm; simplify_eq.
  destruct (pending_responses_ p !! msg_id m) as [i|] eqn:E; simplify_eq.
  2: { apply logged_settled; try done; by rewrite newly_same. }
  destruct (inv_pending _ p Hinv _ _ E) as [Hi _]. destruct (set_value_waiting (futures p) i r Hi) as [_ Hset].
  cbn in Hl, He. rewrite Hset in *.
  apply logged_settled; try done; try (by destruct (resp_success r));
    change (futures (with_stats _ _)) with (<[i := Ready r]> (futures p));
    rewrite newly_set, answered_one by done; by destruct (resp_success r).
Qed.

Lemma finish_logged un p id cmd b p' :
  px_inv un p → execute_finish p id cmd b = Ok p' →
  logged (if b then E_sent else E_settled ByCaller (newly (futures p) (futures p'))) p p'.
Proof.
  intros Hinv Hf. unfold execute_finish in Hf. destruct b.
  { simplify_eq. split; cbn; try done; [set_solver|constructor|set_solver..]. }
  destruct (pending_responses_ p !! id) as [i|] eqn:E; simplify_eq.
  2: { apply logged_settled; try done; [apply (inv_broken _ _ Hinv)|..]; try (by rewrite newly_same).
       intros _ i r. rewrite newly_same. set_solver. }
  destruct (inv_pending _ p Hinv _ _ E) as [Hi _].
  set (err := error_response _ _ _) in Hf. destruct (set_value_waiting (futures p) i err Hi) as [Hset _].
  rewrite Hset in Hf. cbn in Hf. simplify_eq.
  apply logged_settled; try done; [apply (inv_broken _ _ Hinv)|cbn; by rewrite length_insert| | |..].
  - intros j x Hj. cbn. rewrite list_lookup_insert_ne by congruence. done.
  - intros _ j x. cbn. rewrite newly_set by done. intros [= -> ->]%list_elem_of_singleton. done.
  - by rewrite answered_other.
  - by rewrite answered_other.
Qed.

Lemma cleanup_logged un p :
  px_inv un p →
  logged (E_settled ByStop (newly (futures p) (futures (cleanup_pending_promises p)))) p
    (cleanup_pending_promises p).
Proof.
  intros Hinv. destruct (cleanup_promises_spec _ p Hinv) as (_ & He & _ & Hl & Hall).
  apply logged_settled; try done; [apply (inv_broken _ _ Hinv)| |by rewrite answered_other..].
  intros _ i r [Hw Hr]%elem_of_newly. rewrite Hall in Hr. case_bool_decide; [by simplify_eq|congruence].
Qed.

Lemma pact_logged e (s s' : Conc Q W) :
  pact e s s' → (Z.of_nat (length (futures (c_px s'))) + 2 < two64)%Z → conc_inv s →
  logged e (c_px s) (c_px s').
Proof.
  intros Hs Hlen Hinv. pose proof (pact_length _ _ _ Hs) as Hle.
  pose proof (ci_px _ Hinv) as Hpx. pose proof (ci_clients _ Hinv) as Hcl.
  destruct Hs as [sv p cs l st cmd p' id cmd' f Hr|sv p cs l st f id cmd Hf| | |sv p cs l st f id cmd b p' Hf Hfin
    |sv p cs l st f m p' r _ Hlt Hr|sv p cs st now sv' p' Hl| | | | |sv p cs l t now _|sv p cs l sv' p' He];
    cbn [c_px c_clients] in *; try (by apply logged_quiet).
  - unfold execute_number in Hr. simplify_eq/=. apply logged_quiet; [done|]. intros i r. cbn.
    rewrite lookup_app_Some. split; [|by left]. intros [?|[_ [_ ?]%list_lookup_singleton_Some]]; done.
  - pose proof (Hcl _ _ Hf) as ->. destruct (file_inv _ p f Hpx) as [_ H2]; [apply elem_of_unfiled; by eexists _, _|].
    apply logged_quiet; [done|]. by rewrite H2.
  - by eapply finish_logged.
  - unfold execute_sync_result in Hr. destruct (futures p !! f) as [[|x|]|] eqn:E; simplify_eq.
    + rewrite bool_decide_eq_true_2 by done. split; cbn; try done; [set_solver|constructor|set_solver..].
    + rewrite bool_decide_eq_false_2 by done. by apply logged_quiet.
    + rewrite bool_decide_eq_false_2 by done. by apply logged_quiet.
    + apply lookup_ge_None in E. lia.
  - eapply listener_logged; [done|lia|done].
  - by eapply cleanup_logged.
  - unfold cleanup_ipc in He. simplify_eq. by apply logged_quiet.
Qed.

(** The log of a whole run. *)
Record log_ok (tr : list event) p : Prop := {
  lg_once : NoDup (settled tr).*2.*1;
  lg_exact i r : futures p !! i = Some (Ready r) ↔ (i, r) ∈ (settled tr).*2;
  lg_success who i r : (who, (i, r)) ∈ settled tr → resp_success r = true → who = ByListener;
  lg_sent : commands_sent (stats_ p) = bump (occurs E_sent tr) 0;
  lg_timeout : commands_timeout (stats_ p) = bump (occurs E_timeout tr) 0;
  lg_completed : commands_completed (stats_ p) = bump (answered true tr) 0;
  lg_failed : commands_failed (stats_ p) = bump (answered false tr) 0
}.

Lemma log_ok_step tr e p p' : log_ok tr p → logged e p p' → log_ok (tr ++ [e]) p'.
Proof.
  intros [H1 H2 H3 H4 H5 H6 H7] [G1 G2 G3 G4 G5 G6 G7 G8].
  split; rewrite ?settled_app, ?fmap_app, ?occurs_app, ?answered_app, ?bump_add; try congruence.
  - apply NoDup_app. split_and!; [done| |done]. intros i Hi Hn. apply G3 in Hn.
    apply list_elem_of_fmap in Hi as ([j r] & -> & Hr%H2). cbn in Hn. congruence.
  - intros i r. by rewrite G1, H2, elem_of_app.
  - intros who i r [?|?]%elem_of_app; eauto.
Qed.

Lemma run_logged (s0 s : Conc Q W) tr :
  started s0 → ctrace s0 tr s → (Z.of_nat (length (futures (c_px s))) + 2 < two64)%Z →
  conc_inv s ∧ log_ok tr (c_px s).
Proof.
  intros H0. induction 1 as [|tr e s s' Hr IH Hs]; intros Hlen.
  { split; [by apply started_inv|]. destruct H0 as (sv & name & plugin & h & pid & ->).
    split; cbn; try done; [constructor|set_solver..]. }
  pose proof (cact_length _ _ _ Hs). destruct IH as [Hi Hl]; [lia|].
  split; [by eapply cact_inv|]. eapply log_ok_step; [done|].
  destruct Hs; [by eapply pact_logged|by apply logged_quiet].
Qed.

(** ** Properties *)

(** C13. The promise protocol, for every interleaving of client threads, the
    listener and [stop], and any traffic from the worker (fewer than 2^64 - 2
    commands): a future that is set keeps its answer for ever; one that is not
    has its promise filed under its message number, unless the calling thread
    has not filed it yet; no promise is abandoned or set twice, and only the
    worker's responses succeed.  The four statistics count exactly: commands
    accepted by the queue, waits that ran out, and responses of the worker that
    reached a future, successful or not; errors made by the server itself are
    not counted as failures. *)
Theorem promise_protocol (s0 s s' : Conc Q W) tr :
  started s0 → ctrace s0 tr s → rtc cstep s s' →
  (Z.of_nat (length (futures (c_px s'))) + 2 < two64)%Z →
  (∀ i f, futures (c_px s) !! i = Some f →
     match f with
     | Waiting => pending_responses_ (c_px s) !! (1 + Z.of_nat i)%Z = Some i ∨
                  ∃ id cmd, c_clients s !! i = Some (Numbered id cmd)
     | Ready r => futures (c_px s') !! i = Some (Ready r)
     | Broken => False
     end) ∧
  NoDup (settled tr).*2.*1 ∧
  (∀ i r, futures (c_px s) !! i = Some (Ready r) ↔ ∃ who, (who, (i, r)) ∈ settled tr) ∧
  (∀ who i r, (who, (i, r)) ∈ settled tr → resp_success r = true → who = ByListener) ∧
  commands_sent (stats_ (c_px s)) = wrap64 (Z.of_nat (occurs E_sent tr)) ∧
  commands_timeout (stats_ (c_px s)) = wrap64 (Z.of_nat (occurs E_timeout tr)) ∧
  commands_completed (stats_ (c_px s)) = wrap64 (Z.of_nat (answered true tr)) ∧
  commands_failed (stats_ (c_px s)) = wrap64 (Z.of_nat (answered false tr)).
Proof.
  intros H0 H1 H2 Hlen. pose proof (csteps_length _ _ H2) as Hle.
  destruct (run_logged _ _ _ H0 H1) as [Hi [L1 L2 L3 L4 L5 L6 L7]]; [lia|].
  destruct (csteps_inv _ _ H2 Hlen Hi) as [_ He]. destruct Hi as [[_ _ Hw _ Hb _] _ _].
  rewrite <-!bump_0. split_and!; try done.
  - intros i [|r|] Hf; [|by apply He|by eapply Hb].
    destruct (Hw i Hf) as [Hu|?]; [right; by apply elem_of_unfiled|by left].
  - intros i r. rewrite L2, list_elem_of_fmap. split.
    + intros ([who x] & [= <-] & ?). by eexists.
    + intros [who ?]. by exists (who, (i, r)).
Qed.

(** No thread ever sees [std::future_error] from a promise: in every
    reachable state, a client whose send has returned can finish its call, and
    [handle_worker_death], if it were called, would succeed and settle every
    filed future. *)
Theorem promises_never_throw (s0 s : Conc Q W) :
  started s0 → rtc cstep s0 s → (Z.of_nat (length (futures (c_px s))) + 2 < two64)%Z →
  (∀ f id cmd b, c_clients s !! f = Some (SendDone id cmd b) →
     ∃ p', execute_finish (c_px s) id cmd b = Ok p') ∧
  ∃ p', handle_worker_death (c_px s) = Ok p' ∧
    ∀ i f, futures p' !! i = Some f →
      (∃ r, f = Ready r) ∨ ∃ id cmd, c_clients s !! i = Some (Numbered id cmd).
Proof.
  intros H0 H1 Hlen. destruct (csteps_inv _ _ H1 Hlen (started_inv _ H0)) as [[Hi _ _] _]. split.
  - intros f id cmd b _. destruct (finish_inv _ (c_px s) id cmd b Hi) as (p' & ? & _). by exists p'.
  - destruct (fail_all_spec _ (c_px s)
      (error_response EmptyString (instrument_name_ (c_px s)) "Worker process died") Hi eq_refl)
      as (fs & E & _ & Hi' & _ & _).
    unfold handle_worker_death. rewrite E. cbn. eexists. split; [done|]. cbn. intros i [|r|] Hf.
    + right. apply elem_of_unfiled. by destruct (inv_waiting _ _ Hi' _ Hf).
    + left. by eexists.
    + by apply (inv_broken _ _ Hi') in Hf.
Qed.

(** C14. What [stop] leaves behind, whatever clients, listener and worker do
    meanwhile: when it has failed the pending promises nothing is filed any
    more, and when it returns every future that was handed out before is set,
    except those of calls that had taken their number and not yet filed their
    promise at that moment; the queues' names are gone, and a command sent
    afterwards meets a null queue pointer.  Here [s] to [s1] is the step that
    fails the promises, [s2] to [s3] the one that removes the queues. *)
Theorem stop_settles_all (s0 s s1 s2 s3 : Conc Q W) cmd id :
  started s0 → rtc cstep s0 s → cstep s s1 → c_stop s = Joining → c_stop s1 = PromisesFailed →
  rtc cstep s1 s2 → cstep s2 s3 → c_stop s2 = PromisesFailed → c_stop s3 = Stopped →
  (Z.of_nat (length (futures (c_px s3))) + 2 < two64)%Z →
  pending_responses_ (c_px s1) = ∅ ∧
  (∀ i f, futures (c_px s3) !! i = Some f → i < length (futures (c_px s1)) →
     (∃ r, f = Ready r) ∨ ∃ id cmd, c_clients s1 !! i = Some (Numbered id cmd)) ∧
  create_worker_queue (sv_shm (c_sv s3)) (instrument_name_ (c_px s3)) =
    Exn "boost::interprocess_exception" ∧
  (∀ text, serialize_command cmd = Ok text → (execute_send (c_sv s3) (c_px s3) id cmd).2 = Undef).
Proof.
  intros H0 H1 [e1 Ha] Hj Hpf H2 [e2 Hb] Hpf2 Hst Hlen.
  pose proof (csteps_length _ _ H2). pose proof (cact_length _ _ _ Ha). pose proof (cact_length _ _ _ Hb).
  destruct (csteps_inv _ _ H1) as [Hi _]; [lia|by apply started_inv|].
  destruct (cact_inv _ _ _ Ha) as [Hi1 _]; [lia|done|].
  destruct (csteps_inv s1 s3) as [_ He]; [eapply rtc_r; [done|by eexists]|done|done|].
  destruct Ha as [? ? ? Ha|]; [|cbn in *; congruence]. destruct Hb as [? ? ? Hb|]; [|cbn in *; congruence].
  destruct Ha; cbn in Hj, Hpf; try congruence. destruct Hb as [| | | | | | | | | | | |sv' p' cs' l' sv3 p3 Hc];
    cbn in Hpf2, Hst; try congruence.
  destruct (cleanup_promises_spec _ p (ci_px _ Hi)) as (_ & _ & Hnone & Hl & Hall). cbn [c_px c_sv c_clients] in *.
  unfold cleanup_ipc in Hc. simplify_eq. split_and!; [done| | |].
  - intros i f Hf Hlt. apply lookup_lt_is_Some in Hlt as [g Hg].
    destruct g as [|r|]; [right|left|by apply (inv_broken _ _ (ci_px _ Hi1)) in Hg].
    + apply elem_of_unfiled. destruct (inv_waiting _ _ (ci_px _ Hi1) _ Hg) as [?|Hp]; [done|].
      cbn [c_px] in Hp. by rewrite Hnone in Hp.
    + apply He in Hg. cbn in Hg, Hf. exists r. congruence.
  - unfold create_worker_queue, mq_open_only, cleanup, mq_remove. cbn.
    pose proof (req_name_ne_resp_name (instrument_name_ p') (instrument_name_ p')).
    rewrite (lookup_delete_ne _ (make_queue_name (instrument_name_ p') "resp")
      (make_queue_name (instrument_name_ p') "req")), !lookup_delete_eq by congruence. done.
  - intros text Ht. unfold execute_send, command_message. by rewrite Ht.
Qed.

End Invariant.

(** ** A concrete run: a command is registered, then the proxy is stopped *)

Definition sample_server : Server ListQueue.listq ListPosix.world :=
  mkServer (create_server_queue (true, true) empty_shm "DAC1").1 ListPosix.empty new_manager
    init_coordinator.

Definition sample_handle : SharedQueue :=
  mkSharedQueue (Some 1%positive) (Some 2%positive) "instrument_DAC1_req" "instrument_DAC1_resp" true.

Definition sample_proxy : Proxy :=
  with_running (with_pid (with_queue (new_proxy "DAC1" "dac.so") (Some sample_handle)) 0) true.

Definition sample_start : Conc ListQueue.listq ListPosix.world :=
  mkConc sample_server sample_proxy ∅ true NotStopping.

Definition sample_numbered : Conc ListQueue.listq ListPosix.world :=
  let '(p, (id, cmd, f)) := execute_number sample_proxy sample_command in
  mkConc sample_server p {[f := Numbered id cmd]} true NotStopping.

Definition sample_file (s : Conc ListQueue.listq ListPosix.world) (f : nat) : Conc ListQueue.listq ListPosix.world :=
  match c_clients s !! f with
  | Some (Numbered id cmd) =>
      mkConc (c_sv s) (execute_file (c_px s) id f) (<[f := Registered id cmd]> (c_clients s))
        (c_listener s) (c_stop s)
  | _ => s
  end.

Definition sample_registered : Conc ListQueue.listq ListPosix.world := sample_file sample_numbered 0.

(** [stop] up to the join, with the listener gone. *)
Definition sample_joining (s : Conc ListQueue.listq ListPosix.world) : Conc ListQueue.listq ListPosix.world :=
  let p := with_running (c_px s) false in
  mkConc (stop_worker_process (OS := ListPosix.list_posix) (send_shutdown_message (c_sv s) p) p 0 []) p
    (c_clients s) false Joining.

Definition sample_failed (s : Conc ListQueue.listq ListPosix.world) : Conc ListQueue.listq ListPosix.world :=
  mkConc (c_sv s) (cleanup_pending_promises (c_px s)) (c_clients s) false PromisesFailed.

Definition sample_stopped (s : Conc ListQueue.listq ListPosix.world) : Conc ListQueue.listq ListPosix.world :=
  let '(sv, p) := cleanup_ipc (c_sv s) (c_px s) in mkConc sv p (c_clients s) false Stopped.

Section Samples.
#[local] Existing Instance SampleText.sample_text.
#[local] Existing Instance ListPosix.list_posix.

Lemma sample_connected : connected (sv_shm sample_server) sample_handle.
Proof.
  do 4 eexists. split_and!; try reflexivity; [discriminate|..]; (split_and!; [reflexivity..|constructor]).
Qed.

Lemma sample_started : started sample_start.
Proof. by do 5 eexists. Qed.

Lemma sample_step_number : cact E_quiet sample_start sample_numbered.
Proof. apply C_own. by eapply C_number. Qed.

Lemma sample_step_file : cact E_quiet sample_numbered sample_registered.
Proof. apply C_own. by eapply (C_file _ _ _ _ _ 0). Qed.

Lemma sample_trace : ctrace sample_start [E_quiet; E_quiet] sample_registered.
Proof.
  eapply (T_step _ [E_quiet]); [eapply (T_step _ []); [constructor|]|].
  - exact sample_step_number.
  - exact sample_step_file.
Qed.

Lemma sample_steps_joining sv p cs :
  running_ p = true →
  rtc cstep (mkConc sv p cs true NotStopping) (sample_joining (mkConc sv p cs true NotStopping)).
Proof.
  intros Hr. eapply rtc_l; [eexists; apply C_own, C_stop_signal, Hr|].
  eapply rtc_l; [eexists; apply C_own, C_stop_shutdown|].
  eapply rtc_l; [eexists; apply C_own, (C_stop_worker _ _ _ _ 0 [])|].
  apply rtc_once. eexists. apply C_own, (C_listener_exit _ _ _ _ 0). by left.
Qed.

Lemma sample_step_failed s :
  c_stop s = Joining → c_listener s = false → cstep s (sample_failed s).
Proof.
  destruct s. cbn. intros -> ->. eexists. apply C_own. by apply (C_stop_promises _ _ _ _ 0 0).
Qed.

Lemma sample_step_stopped s :
  c_stop s = PromisesFailed → c_listener s = false → cstep s (sample_stopped s).
Proof. destruct s. cbn. intros -> ->. eexists. apply C_own. by apply C_stop_ipc. Qed.

Lemma promise_protocol_witness :
  pending_responses_ (c_px sample_registered) !! 1%Z = Some 0 ∧
  commands_sent (stats_ (c_px sample_registered)) = 0%Z.
Proof.
  destruct (promise_protocol sample_start sample_registered sample_registered [E_quiet; E_quiet]
    sample_started sample_trace (rtc_refl _ _) ltac:(vm_compute; reflexivity)) as (H & _ & _ & _ & Hsent & _).
  split; [|exact Hsent].
  destruct (H 0 Waiting eq_refl) as [Hp|(id & cmd & Hc)]; [exact Hp|vm_compute in Hc; discriminate Hc].
Defined.

Lemma promises_never_throw_witness :
  ∃ p', handle_worker_death (c_px sample_registered) = Ok p' ∧
        ∀ i f, futures p' !! i = Some f →
          (∃ r, f = Ready r) ∨ ∃ id cmd, c_clients sample_registered !! i = Some (Numbered id cmd).
Proof.
  refine (proj2 (promises_never_throw sample_start sample_registered sample_started
    (ctrace_steps _ _ _ sample_trace) _)).
  vm_compute. reflexivity.
Defined.

Lemma stop_settles_all_witness :
  ∃ r, futures (c_px (sample_stopped (sample_failed (sample_joining sample_registered)))) !! 0 = Some (Ready r).
Proof.
  destruct (stop_settles_all sample_start (sample_joining sample_registered)
    (sample_failed (sample_joining sample_registered)) (sample_failed (sample_joining sample_registered))
    (sample_stopped (sample_failed (sample_joining sample_registered))) sample_command 2) as (_ & H & _);
    try reflexivity.
  - exact sample_started.
  - etrans; [exact (ctrace_steps _ _ _ sample_trace)|]. by apply sample_steps_joining.
  - by apply sample_step_failed.
  - by apply sample_step_stopped.
  - destruct (H 0 _ eq_refl) as [[r Hr]|(id & cmd & Hc)].
    + vm_compute. lia.
    + exists r. rewrite <-Hr. reflexivity.
    + vm_compute in Hc. discriminate Hc.
Defined.

(** A call that files its promise after [stop] has failed the others, and whose
    message the queue still accepts, waits for ever: the listener is gone. *)
Definition late_filed : Conc ListQueue.listq ListPosix.world :=
  sample_file (sample_failed (sample_joining sample_numbered)) 0.

Definition late_sent : Conc ListQueue.listq ListPosix.world :=
  match c_clients late_filed !! 0 with
  | Some (Registered id cmd) =>
      mkConc (execute_send (c_sv late_filed) (c_px late_filed) id cmd).1 (c_px late_filed)
        {[0 := SendDone id cmd true]} false PromisesFailed
  | _ => late_filed
  end.

Definition late_finished : Conc ListQueue.listq ListPosix.world :=
  mkConc (c_sv late_sent) (with_stats (c_px late_sent) (count_sent (stats_ (c_px late_sent)))) ∅ false PromisesFailed.

Theorem late_call_unsettled :
  rtc cstep sample_start (sample_stopped late_finished) ∧
  c_stop (sample_stopped late_finished) = Stopped ∧ c_clients (sample_stopped late_finished) = ∅ ∧
  futures (c_px (sample_stopped late_finished)) = [Waiting].
Proof.
  split; [|by vm_compute].
  eapply rtc_l; [eexists; exact sample_step_number|].
  etrans; [by apply (sample_steps_joining (c_sv sample_numbered) (c_px sample_numbered) (c_clients sample_numbered))|].
  eapply rtc_l; [by apply sample_step_failed|].
  eapply rtc_l; [eexists; apply C_own; by eapply (C_file _ _ _ _ _ 0)|].
  eapply rtc_l; [eexists; apply C_own; eapply (C_send _ _ _ _ _ 0 _ _ _ true); vm_compute; reflexivity|].
  eapply rtc_l; [eexists; apply C_own; eapply (C_finish _ _ _ _ _ 0 _ _ true); vm_compute; reflexivity|].
  apply rtc_once. apply (sample_step_stopped late_finished); reflexivity.
Qed.

End Samples.
