(* ===== verification/System.v ===== *)
(** * A command's journey

    The composition of the proxy ([InstrumentWorkerProxy]), the two queues and
    the worker process: [exchange] runs one command from [execute] in the
    server through the worker's main loop and back to the response listener. *)

From S2P Require Import Prelude Json SerializedCommand Ipc SyncCoordinator ProcessManager Plugin Worker Proxy.
From Stdlib Require Import Lia.

Section System.
Context `{JT : JsonText} `{MQ : MessageQueue Q} `{OS : Posix W}.
Context {P : Type}.
Context (plugin : P → PluginCommand → PluginResponse → Z * PluginResponse * P).
Context (iter : gmap string ParamValue → list (string * ParamValue)).
Implicit Types (sv : Server Q W) (p : Proxy) (w : Worker P) (cmd : SerializedCommand).

(** [now]: the worker's clock; [t]: the listener's.  [None] where a part does
    not get its turn. *)
Definition exchange (now t : Z) sv p w cmd (h : SharedQueue)
  : res (Server Q W * Proxy * Worker P * nat) :=
  let '(sv, p, future) := Proxy.execute sv p cmd in
  future ← future;
  let '(shm, msg) := receive (sv_shm sv) (peer h) in
  match msg with
  | None => Exn "nothing to receive"
  | Some msg =>
      r ← process_message plugin iter now w msg;
      let '(w, out) := r in
      let '(shm, _) := send_all shm (peer h) out in
      r ← response_listener_loop (with_shm sv shm) p [t];
      let '(sv, p) := r in
      Ok (sv, p, w, future)
  end.

(** The command as [execute] numbers it. *)
Definition numbered p cmd : SerializedCommand := (execute_register p cmd).2.1.2.

(** What the worker computes for a command that reached it. *)
Definition answer w (cmd : SerializedCommand) : PluginResponse * P :=
  Worker.execute plugin iter (plugin_ w) cmd.

Lemma execute_sends sv p cmd h text :
  ipc_queue_ p = Some h → connected (sv_shm sv) h → contents (sv_shm sv) (send_target h) = [] →
  serialize_command (numbered p cmd) = Ok text →
  let msg := set_payload (mkIPCMessage COMMAND (next_message_id_ p)
               (default 0%Z (cmd_sync_token cmd)) 0 zero_payload) text in
  ∃ shm, Proxy.execute sv p cmd =
    (with_shm sv shm, with_stats (execute_register p cmd).1 (count_sent (stats_ p)),
     Ok (length (futures p))) ∧
    connected shm h ∧ contents shm (send_target h) = [msg] ∧
    contents shm (recv_source h) = contents (sv_shm sv) (recv_source h).
Proof.
  intros Hq Hc Hempty Ht. cbn zeta. unfold Proxy.execute, numbered in *.
  unfold execute_register, execute_number in *. cbn [fst snd] in Ht |- *.
  unfold execute_send, command_message. rewrite Ht. cbn [mbind res_bind execute_file with_pending ipc_queue_]. rewrite Hq.
  match goal with |- context [send (sv_shm sv) h ?m] => set (msg := m) end.
  destruct (send_spec (sv_shm sv) h msg Hc) as (Hc' & Hr & Hok & Hs).
  destruct (send (sv_shm sv) h msg) as [shm ok]. cbn [fst snd] in *.
  rewrite Hempty in Hok, Hs. cbn in Hok. subst ok.
  exists shm. split; [|done]. done.
Qed.

Lemma worker_step w msg cmd now text r pl' :
  waiting_sync_token_ w = None → msg_type msg = COMMAND →
  deserialize_command now (payload_of msg) = Ok cmd → answer w cmd = (r, pl') →
  serialize_response (from_plugin_response r) = Ok text →
  ∃ w' acks, process_message plugin iter now w msg = Ok (w',
      set_payload (mkIPCMessage RESPONSE (msg_id msg) (default 0%Z (cmd_sync_token cmd)) 0
                     zero_payload) text :: acks) ∧
    plugin_ w' = pl' ∧ length acks ≤ 1.
Proof.
  intros Hw Ht Hd Ha Hs. unfold process_message, handle_command, deserialize_command_from_msg.
  rewrite Ht, Hw, Hd. cbn [mbind res_bind]. unfold answer in Ha. rewrite Ha.
  unfold send_command_response. rewrite Hs. cbn [mbind res_bind].
  destruct (cmd_sync_token cmd) as [tok|]; cbn [default]; do 2 eexists; (split; [done|]);
    [destruct (cmd_is_sync_barrier cmd)|]; cbn; auto.
Qed.

Lemma listener_step t sv p h msg rest r i :
  running_ p = true → ipc_queue_ p = Some h → connected (sv_shm sv) h →
  contents (sv_shm sv) (recv_source h) = msg :: rest → msg_type msg = RESPONSE →
  deserialize_response (payload_of msg) = Ok r → pending_responses_ p !! msg_id msg = Some i →
  futures p !! i = Some Waiting →
  ∃ sv' p', response_listener_loop sv p [t] = Ok (sv', p') ∧ futures p' !! i = Some (Ready r) ∧
    connected (sv_shm sv') h ∧ contents (sv_shm sv') (recv_source h) = rest.
Proof.
  intros Hrun Hq Hc Hm Ht Hd Hp Hf. cbn [response_listener_loop]. rewrite Hrun. cbn [negb].
  unfold listener_iteration. rewrite Hq, (connected_valid _ _ Hc). cbn [negb].
  destruct (receive_spec (sv_shm sv) h Hc) as (Hc' & _ & Hr & Hrest).
  destruct (receive (sv_shm sv) h) as [shm om]. cbn [fst snd] in *. rewrite Hm in Hr, Hrest.
  cbn in Hr, Hrest. subst om. unfold handle_ipc_message. rewrite Ht. unfold handle_response_message.
  rewrite Hd. cbn [mbind res_bind]. rewrite Hp. cbn [mbind res_bind].
  destruct (set_value_waiting (futures p) i r Hf) as [_ ->].
  do 2 eexists. split; [done|]. cbn. split_and!; [|done|done].
  apply list_lookup_insert_eq. by eapply lookup_lt_Some.
Qed.

(** ** Properties *)

(** A command comes back with the plugin's answer: on a connected, idle
    channel, a command whose text fits a message is carried to the worker,
    executed once by the plugin with the parameters the client gave (except
    non-finite doubles), and the future that [execute] returned is set to the
    plugin's response.  The response must be serialisable and fit as well. *)
Theorem exchange_answers now t sv p w cmd h text rtext r plug' :
  px_inv ∅ p → (Z.of_nat (length (futures p)) + 2 < two64)%Z →
  running_ p = true → ipc_queue_ p = Some h → connected (sv_shm sv) h →
  contents (sv_shm sv) (send_target h) = [] → contents (sv_shm sv) (recv_source h) = [] →
  waiting_sync_token_ w = None → command_ok (numbered p cmd) = true →
  serialize_command (numbered p cmd) = Ok text → length (chars text) ≤ IPC_MAX_PAYLOAD →
  answer w (wire_command now (numbered p cmd)) = (r, plug') →
  response_ok (from_plugin_response r) = true →
  serialize_response (from_plugin_response r) = Ok rtext → length (chars rtext) ≤ IPC_MAX_PAYLOAD →
  ∃ sv' p' w' f, exchange now t sv p w cmd h = Ok (sv', p', w', f) ∧
    futures p' !! f = Some (Ready (wire_response (from_plugin_response r))) ∧ plugin_ w' = plug'.
Proof.
  intros Hinv Hlen Hrun Hq Hc Hs0 Hr0 Hw Hok Ht Hfit Ha Hrok Hrt Hrfit.
  destruct (execute_sends sv p cmd h text Hq Hc Hs0 Ht) as (shm & He & Hc1 & Hs1 & Hr1).
  unfold exchange. rewrite He. cbn [mbind res_bind]. clear He.
  destruct (receive_spec shm (peer h)) as (Hc2 & Hsnd & Hm & Htl); [done|].
  rewrite peer_recv_source, Hs1 in Hm, Htl. rewrite peer_send_target in Hsnd.
  cbn [sv_shm with_shm]. destruct (receive shm (peer h)) as [shm2 om]. cbn [fst snd head tail] in *. subst om.
  edestruct (worker_step w) as (w' & acks & -> & Hplug & Hacks); [done|done| |exact Ha|exact Hrt|].
  { rewrite payload_fits by done. exact (command_received now _ text Hok Ht). }
  cbn [mbind res_bind]. cbn [msg_id set_payload].
  match goal with |- context [send_all shm2 (peer h) (?m :: acks)] => set (msg := m) end.
  destruct (send_all_spec shm2 (peer h) (msg :: acks)) as (Hc3 & _ & Hs3 & _); [done| |].
  { rewrite peer_send_target, Hsnd, Hr1, Hr0. cbn. lia. }
  destruct (send_all shm2 (peer h) (msg :: acks)) as [shm3 oks]. cbn [fst snd] in *.
  rewrite peer_send_target, Hsnd, Hr1, Hr0 in Hs3.
  destruct (register_inv p cmd Hinv Hlen) as [Hinv1 Hfs].
  assert (futures (execute_register p cmd).1 !! length (futures p) = Some Waiting) as Hwait.
  { rewrite Hfs, lookup_app_r, Nat.sub_diag; done. }
  edestruct (listener_step t (with_shm (with_shm sv shm) shm3)
    (with_stats (execute_register p cmd).1 (count_sent (stats_ p))) h msg acks)
    as (sv' & p' & -> & Hres & _); [done|done|done|done|done| | |exact Hwait|].
  { unfold msg. rewrite payload_fits by done. by apply response_received. }
  { apply lookup_insert_eq. }
  cbn [mbind res_bind]. by do 4 eexists.
Qed.

(** A text that does not fit the payload of a message. *)
Definition oversize (text : string) : bool := (IPC_MAX_PAYLOAD <? length (chars text))%nat.

(** A command that does not fit a message kills its worker: the text is
    cut to 4096 bytes, the worker cannot parse it, and the exception ends the
    process with exit code 1, without a response. *)
Theorem oversize_command_kills_worker initialize shutdown name now start d d' cmd text id inputs h :
  initialize d (worker_config name) = (0%Z, d') → serialize_command cmd = Ok text →
  oversize text = true → is_valid h = true →
  ∃ msg, command_message id cmd = Ok msg ∧
    let '(_, out, code) := run plugin iter initialize shutdown name true (Ok h) start d ((now, Some msg) :: inputs) in
    ids_of RESPONSE out = [] ∧ code = Some 1%Z.
Proof.
  intros Hi Hs Hlong%Nat.ltb_lt Hv. unfold command_message. rewrite Hs. cbn [mbind res_bind].
  eexists. split; [done|]. set (w := mkWorker name None true start d').
  set (m := mkIPCMessage _ _ _ _ _).
  pose proof (run_serves plugin iter initialize shutdown name h start d d'
    ((now, Some (set_payload m text)) :: inputs) Hi Hv) as Hr. fold w in Hr. cbn [main_loop] in Hr.
  change (negb (g_running w)) with false in Hr. cbn beta iota in Hr.
  pose proof (heartbeat_waiting now w) as [Hhb _]. pose proof (heartbeat_ids now w) as Hnone.
  destruct (send_heartbeat_if_needed now w) as [w1 hb]. cbn [fst snd] in *.
  destruct (payload_cut m text Hlong) as (pre & Hpre & Hprefix & Hne).
  destruct (command_cut now cmd text pre Hs Hprefix Hne) as [e He].
  unfold process_message in Hr. cbn [msg_type set_payload m] in Hr. rewrite Hhb in Hr.
  change (waiting_sync_token_ w) with (@None Z) in Hr.
  unfold handle_command, deserialize_command_from_msg in Hr.
  change (mkIPCMessage COMMAND _ _ _ _) with (set_payload m text) in Hr. rewrite Hpre, He in Hr.
  cbn [mbind res_bind] in Hr. by rewrite Hr.
Qed.

(** C15. A response that does not fit a message ends the server: the worker
    sends it cut to 4096 bytes, deserialising it throws in the listener thread,
    and no handler catches the exception. *)
Theorem oversize_response_throws now sv p msg cmd r text :
  serialize_response (from_plugin_response r) = Ok text → oversize text = true →
  ∃ resp_msg e, send_command_response msg cmd r = Ok resp_msg ∧
    handle_ipc_message (Q := Q) (W := W) now sv p resp_msg = Exn e.
Proof.
  intros Hs Hlong%Nat.ltb_lt. unfold send_command_response. rewrite Hs. cbn [mbind res_bind].
  set (m := mkIPCMessage _ _ _ _ _).
  destruct (payload_cut m text Hlong) as (pre & Hpre & Hprefix & Hne).
  destruct (response_cut _ text pre Hs Hprefix Hne) as [e He].
  eexists _, e. split; [done|]. unfold handle_ipc_message. cbn [msg_type set_payload m].
  unfold handle_response_message.
  match goal with |- context [payload_of ?x] => change (payload_of x) with (payload_of (set_payload m text)) end.
  by rewrite Hpre, He.
Qed.

End System.

(** ** Concrete runs *)

Section Samples.
#[local] Existing Instance SampleText.sample_text.
#[local] Existing Instance ListPosix.list_posix.

Definition text_of (r : res string) : string := match r with Ok s => s | _ => EmptyString end.

Definition sent_as : SerializedCommand := numbered sample_proxy sample_command.
Definition sample_answer : PluginResponse * nat :=
  answer counting_plugin map_to_list sample_worker (wire_command 600 sent_as).

Lemma exchange_answers_witness :
  ∃ sv' p' w' f,
    exchange counting_plugin map_to_list 600 700 sample_server sample_proxy sample_worker
      sample_command sample_handle = Ok (sv', p', w', f) ∧
    futures p' !! f = Some (Ready (wire_response (from_plugin_response sample_answer.1))) ∧
    plugin_ w' = 1.
Proof.
  apply (exchange_answers counting_plugin map_to_list 600 700 sample_server sample_proxy
    sample_worker sample_command sample_handle
    (text_of (serialize_command sent_as))
    (text_of (serialize_response (from_plugin_response sample_answer.1)))
    sample_answer.1 1).
  - apply (started_inv sample_start sample_started).
  - vm_compute. reflexivity.
  - reflexivity.
  - reflexivity.
  - apply sample_connected.
  - reflexivity.
  - reflexivity.
  - reflexivity.
  - vm_compute. reflexivity.
  - vm_compute. reflexivity.
  - apply (bool_decide_unpack _). vm_compute. exact I.
  - vm_compute. reflexivity.
  - vm_compute. reflexivity.
  - vm_compute. reflexivity.
  - apply (bool_decide_unpack _). vm_compute. exact I.
Defined.

(** A text of 1024 characters, more than a message holds in this format. *)
Definition long_text : string := of_chars (replicate 1024 "a"%char).

Definition long_command : SerializedCommand :=
  mkCommand "DAC1-1" "DAC1" "SET" {["waveform" := PString long_text]} false 5000 0 None false.

(** A plugin without anything to initialise. *)
Definition ready (d : nat) (_ : PluginConfig) : Z * nat := (0%Z, d).

Lemma oversize_command_kills_worker_witness :
  ∃ msg, command_message 1 long_command = Ok msg ∧
    let '(_, out, code) := run counting_plugin map_to_list ready (λ d, d) "DAC1" true (Ok sample_handle) 0 0
                             [(600%Z, Some msg)] in
    ids_of RESPONSE out = [] ∧ code = Some 1%Z.
Proof.
  apply (oversize_command_kills_worker counting_plugin map_to_list ready (λ d, d) "DAC1" 600 0 0 0 long_command
    (text_of (serialize_command long_command)) 1 [] sample_handle).
  - reflexivity.
  - vm_compute. reflexivity.
  - vm_compute. reflexivity.
  - reflexivity.
Defined.

Definition long_response : PluginResponse :=
  mkPluginResponse "DAC1-1" "DAC1" true PARAM_TYPE_NONE long_text 0 EmptyString false EmptyString 0 0.

Lemma oversize_response_throws_witness :
  ∃ resp_msg e, send_command_response new_message sample_command long_response = Ok resp_msg ∧
    handle_ipc_message 0 sample_server sample_proxy resp_msg = Exn e.
Proof.
  apply (oversize_response_throws 0 sample_server sample_proxy
    new_message sample_command long_response
    (text_of (serialize_response (from_plugin_response long_response)))).
  - vm_compute. reflexivity.
  - vm_compute. reflexivity.
Defined.

End Samples.
