(* ===== verification/Pipeline.v ===== *)
(** * Pipelined commands

    The whole path of a command with everything running at once: client threads
    in [execute] (src/src/server/InstrumentWorkerProxy.cpp) at the granularity
    of its critical sections, the response listener, [stop], the two queues,
    and the worker's main loop (src/src/workers/generic_worker_main.cpp) at the
    granularity of its queue operations.  [yact] is one step of any of them, with
    who takes it.

    [Service] is what a client may expect of all this: calls are numbered in
    the order they are made, the device serves the accepted calls one at a time
    in the order they were accepted, and a call ends with the device's answer
    to that very call or with an error.  [pipeline_refines_service] shows that
    every run of the system is a run of the service. *)

From S2P Require Import Prelude Json SerializedCommand Ipc SyncCoordinator ProcessManager Plugin Worker Proxy.
From Stdlib Require Import Lia.

#[local] Arguments ids_of : simpl never.
#[local] Arguments contents : simpl never.

(** ** The abstract service *)

(** [calls] and [outcome] are indexed by future; [order] lists the accepted
    calls; [answers] belongs to a prefix of [order]. *)
Record Service (P : Type) := mkService {
  calls : list SerializedCommand;
  order : list nat;
  answers : list PluginResponse;
  device : P;
  outcome : list fut
}.
Arguments mkService {P}. Arguments calls {P}. Arguments order {P}. Arguments answers {P}.
Arguments device {P}. Arguments outcome {P}.

(** Messages that are commands. *)
Definition commands (ms : list IPCMessage) : list IPCMessage :=
  filter (λ m, msg_type m = COMMAND) ms.

Lemma commands_app l1 l2 : commands (l1 ++ l2) = commands l1 ++ commands l2.
Proof. apply filter_app. Qed.

Lemma commands_other m : msg_type m ≠ COMMAND → commands [m] = [].
Proof. intros H. unfold commands. by rewrite filter_cons, decide_False. Qed.

Section Pipeline.
Context `{JT : JsonText} `{MQ : MessageQueue Q} `{OS : Posix W}.
Context {P : Type}.
Context (plugin : P → PluginCommand → PluginResponse → Z * PluginResponse * P).
Context (iter : gmap string ParamValue → list (string * ParamValue)).
Implicit Types (sv : Server Q W) (p : Proxy) (w : Worker P) (cmd : SerializedCommand).
Implicit Types (svc : Service P) (m : IPCMessage).

(** [c] is what the worker reads when [cmd] was written. *)
Definition received cmd (c : SerializedCommand) : Prop :=
  ∃ now text, serialize_command cmd = Ok text ∧ deserialize_command now text = Ok c.

(** [resp] is what the server reads when the plugin's [r] was written. *)
Definition delivered (r : PluginResponse) (resp : CommandResponse) : Prop :=
  ∃ text, serialize_response (from_plugin_response r) = Ok text ∧
          deserialize_response text = Ok resp.

Inductive sstep : Service P → Service P → Prop :=
| S_call cs ord ans d out cmd :
    sstep (mkService cs ord ans d out) (mkService (cs ++ [cmd]) ord ans d (out ++ [Waiting]))
| S_accept cs ord ans d out i :
    i < length cs → i ∉ ord →
    sstep (mkService cs ord ans d out) (mkService cs (ord ++ [i]) ans d out)
| S_serve cs ord ans d out i cmd c r d' :
    ord !! length ans = Some i → cs !! i = Some cmd → received cmd c →
    Worker.execute plugin iter d c = (r, d') →
    sstep (mkService cs ord ans d out) (mkService cs ord (ans ++ [r]) d' out)
| S_reply cs ord ans d out k i r resp :
    ord !! k = Some i → ans !! k = Some r → delivered r resp → out !! i = Some Waiting →
    sstep (mkService cs ord ans d out) (mkService cs ord ans d (<[i := Ready resp]> out))
| S_fail cs ord ans d out i e :
    out !! i = Some Waiting → resp_success e = false →
    sstep (mkService cs ord ans d out) (mkService cs ord ans d (<[i := Ready e]> out)).

Definition init_service (d : P) : Service P := mkService [] [] [] d [].

(** ** The system *)

(** History that the code does not keep: the commands by future, the worker's
    messages that a full queue refused, and the calls whose [execute] threw. *)
Record History := mkHistory {
  called : gmap nat SerializedCommand;
  refused : list IPCMessage;
  threw : gset nat
}.

(** [y_todo] are the messages the worker still has to send in this round of its
    loop, [y_at_receive] says that it will receive after them. *)
Record Sys := mkSys {
  y_conc : Conc Q W;
  y_worker : Worker P;
  y_todo : list IPCMessage;
  y_at_receive : bool;
  y_alive : bool;
  y_hist : History
}.

Definition y_shm (s : Sys) : Shm Q := sv_shm (c_sv (y_conc s)).
Definition y_px (s : Sys) : Proxy := c_px (y_conc s).

Definition put_shm (c : Conc Q W) (shm : Shm Q) : Conc Q W :=
  mkConc (with_shm (c_sv c) shm) (c_px c) (c_clients c) (c_listener c) (c_stop c).

(** The commands of the calls that are numbered and not sent. *)
Definition unsent (c : Conc Q W) : gmap nat SerializedCommand :=
  omap (λ cl, match cl with Numbered _ cmd | Registered _ cmd => Some cmd | _ => None end) (c_clients c).

(** A call that is no longer registered and not past its send left [execute] by
    an exception. *)
Definition record_proxy (c c' : Conc Q W) (hi : History) : History :=
  mkHistory (unsent c' ∪ called hi) (refused hi) (threw hi ∪ (dom (unsent c) ∖ dom (c_clients c'))).

Definition record_send m (ok : bool) (hi : History) : History :=
  mkHistory (called hi) (if ok then refused hi else refused hi ++ [m]) (threw hi).

(** The server's end of the channel; the worker has [peer h]. *)
Context (h : SharedQueue).

(** Who takes a step: a thread of the server, the worker, the worker as it
    ends, or the rest of the system. *)
Inductive actor := Server_does (e : event) | Worker_works | Worker_ends | Others.

Inductive yact : actor → Sys → Sys → Prop :=
| Y_proxy e c c' w td ar al hi :
    pact e c c' →
    yact (Server_does e) (mkSys c w td ar al hi) (mkSys c' w td ar al (record_proxy c c' hi))
| Y_heartbeat c w hi now w' hb :
    g_running w = true → send_heartbeat_if_needed now w = (w', hb) →
    yact Worker_works (mkSys c w [] false true hi) (mkSys c w' hb true true hi)
| Y_send c w m td ar hi shm ok :
    send (sv_shm (c_sv c)) (peer h) m = (shm, ok) →
    yact Worker_works (mkSys c w (m :: td) ar true hi)
          (mkSys (put_shm c shm) w td ar true (record_send m ok hi))
| Y_receive c w hi shm m now w' out :
    receive (sv_shm (c_sv c)) (peer h) = (shm, Some m) →
    process_message plugin iter now w m = Ok (w', out) →
    yact Worker_works (mkSys c w [] true true hi) (mkSys (put_shm c shm) w' out false true hi)
| Y_idle c w hi shm :
    receive (sv_shm (c_sv c)) (peer h) = (shm, None) →
    yact Worker_works (mkSys c w [] true true hi) (mkSys (put_shm c shm) w [] false true hi)
| Y_crash c w hi shm m now :
    receive (sv_shm (c_sv c)) (peer h) = (shm, Some m) →
    (∀ r, process_message plugin iter now w m ≠ Ok r) →
    yact Worker_ends (mkSys c w [] true true hi) (mkSys (put_shm c shm) w [] true false hi)
| Y_exit c w td ar hi :
    yact Worker_ends (mkSys c w td ar true hi) (mkSys c w td ar false hi)
| Y_environment c w td ar al hi sv' :
    connected (sv_shm sv') h →
    contents (sv_shm sv') (send_target h) = contents (sv_shm (c_sv c)) (send_target h) →
    contents (sv_shm sv') (recv_source h) = contents (sv_shm (c_sv c)) (recv_source h) →
    yact Others (mkSys c w td ar al hi)
          (mkSys (mkConc sv' (c_px c) (c_clients c) (c_listener c) (c_stop c)) w td ar al hi).

Definition ystep (s s' : Sys) : Prop := ∃ a, yact a s s'.

(** A proxy that has just started, its worker at the top of its loop. *)
Definition y_started (s : Sys) : Prop :=
  started (y_conc s) ∧ ipc_queue_ (y_px s) = Some h ∧ connected (y_shm s) h ∧
  contents (y_shm s) (send_target h) = [] ∧ contents (y_shm s) (recv_source h) = [] ∧
  waiting_sync_token_ (y_worker s) = None ∧ y_todo s = [] ∧ y_hist s = mkHistory ∅ [] ∅.

(** What is in the channel. *)
Definition requests (s : Sys) : list IPCMessage := contents (y_shm s) (send_target h).
Definition replies (s : Sys) : list IPCMessage := contents (y_shm s) (recv_source h).

(** ** The channel under the proxy's steps *)

Lemma send_requests shm m :
  connected shm h →
  let r := send shm h m in
  connected r.1 h ∧ contents r.1 (recv_source h) = contents shm (recv_source h) ∧
  contents r.1 (send_target h) = contents shm (send_target h) ++ (if r.2 then [m] else []).
Proof. intros Hc. destruct (send_spec shm h m Hc) as (H1 & H2 & _ & H4). done. Qed.

(** A message that is no command leaves the commands of the channel alone. *)
Lemma send_other shm m :
  connected shm h → msg_type m ≠ COMMAND →
  connected (send shm h m).1 h ∧
  contents (send shm h m).1 (recv_source h) = contents shm (recv_source h) ∧
  commands (contents (send shm h m).1 (send_target h)) = commands (contents shm (send_target h)).
Proof.
  intros Hc Ht. destruct (send_requests shm m Hc) as (H1 & H2 & H3). split_and!; [done|done|].
  rewrite H3, commands_app. destruct (send shm h m).2; [rewrite commands_other by done|]; apply app_nil_r.
Qed.

(** What one step of the listener does: it takes the oldest reply, and the
    proxy changes only if that is a response. *)
Definition listened (shm : Shm Q) p (shm' : Shm Q) p' : Prop :=
  connected shm' h ∧ contents shm' (recv_source h) = tail (contents shm (recv_source h)) ∧
  commands (contents shm' (send_target h)) = commands (contents shm (send_target h)) ∧
  match head (contents shm (recv_source h)) with
  | Some m => if bool_decide (msg_type m = RESPONSE) then handle_response_message p m = Ok p' else p' = p
  | None => p' = p
  end.

Lemma sync_ack_channel sv p m :
  ipc_queue_ p = Some h → connected (sv_shm sv) h →
  let sv' := handle_sync_ack_message sv p m in
  connected (sv_shm sv') h ∧
  contents (sv_shm sv') (recv_source h) = contents (sv_shm sv) (recv_source h) ∧
  commands (contents (sv_shm sv') (send_target h)) = commands (contents (sv_shm sv) (send_target h)).
Proof.
  intros Hq Hc. cbn zeta. unfold handle_sync_ack_message.
  destruct (handle_ack _ _ _) as [c []]; [|done]. unfold send_sync_continue.
  rewrite Hq, (connected_valid _ _ Hc). by apply (send_other (sv_shm sv)).
Qed.

Lemma listener_channel now sv p sv' p' :
  ipc_queue_ p = Some h → connected (sv_shm sv) h →
  listener_iteration now sv p = Ok (Some (sv', p')) → listened (sv_shm sv) p (sv_shm sv') p'.
Proof.
  intros Hq Hc. unfold listener_iteration. rewrite Hq, (connected_valid _ _ Hc). cbn [negb].
  destruct (receive_spec (sv_shm sv) h Hc) as (H1 & H2 & H3 & H4).
  destruct (receive (sv_shm sv) h) as [shm om]. cbn [fst snd] in *. unfold listened.
  rewrite <-H3, <-H4, <-H2. destruct om as [m|]; [|by intros [= <- <-]].
  unfold handle_ipc_message. destruct (msg_type m); try by intros [= <- <-].
  - destruct (handle_response_message p m) as [p1| |]; cbn; try done. by intros [= <- <-].
  - intros [= <- <-]. destruct (sync_ack_channel (with_shm sv shm) p m Hq H1) as (? & ? & ?). done.
Qed.

Lemma stop_worker_shm sv p t reads : sv_shm (stop_worker_process sv p t reads) = sv_shm sv.
Proof.
  unfold stop_worker_process. case_bool_decide; [done|].
  destruct (wait_for_exit _ _ _ _ _ _) as [os [[]|]]; try done. by destruct (kill_process _ _ _ _) as [[]].
Qed.

Lemma shutdown_channel sv p :
  ipc_queue_ p = Some h ∨ ipc_queue_ p = None → connected (sv_shm sv) h →
  let sv' := send_shutdown_message sv p in
  connected (sv_shm sv') h ∧
  contents (sv_shm sv') (recv_source h) = contents (sv_shm sv) (recv_source h) ∧
  commands (contents (sv_shm sv') (send_target h)) = commands (contents (sv_shm sv) (send_target h)).
Proof.
  intros Hq Hc. unfold send_shutdown_message. cbn. destruct Hq as [Hq|Hq]; rewrite Hq; [|done].
  rewrite (connected_valid _ _ Hc). by apply (send_other (sv_shm sv)).
Qed.

(** ** The simulation relation *)

(** [m] carries the command of call [i]. *)
Definition carries (cs : list SerializedCommand) (i : nat) m : Prop :=
  ∃ cmd, cs !! i = Some cmd ∧ command_message (1 + Z.of_nat i) cmd = Ok m.

(** [m], if it is a response, is the answer to the call whose number it has. *)
Definition answering svc m : Prop :=
  msg_type m = RESPONSE → ∃ k i r text m0,
    order svc !! k = Some i ∧ answers svc !! k = Some r ∧
    serialize_response (from_plugin_response r) = Ok text ∧
    m = set_payload m0 text ∧ msg_id m0 = (1 + Z.of_nat i)%Z.

Definition client_ok svc (f : nat) (c : client) : Prop :=
  match c with
  | Numbered id cmd | Registered id cmd =>
      id = (1 + Z.of_nat f)%Z ∧ calls svc !! f = Some cmd ∧ f ∉ order svc
  | SendDone id cmd b => id = (1 + Z.of_nat f)%Z
  end.

Definition with_outcome svc (fs : list fut) : Service P :=
  mkService (calls svc) (order svc) (answers svc) (device svc) fs.

Record linked (c : Conc Q W) w (td : list IPCMessage) (al : bool) svc : Prop := {
  ln_px : conc_inv c;
  ln_queue : ipc_queue_ (c_px c) = Some h ∨ ipc_queue_ (c_px c) = None;
  ln_conn : connected (sv_shm (c_sv c)) h;
  ln_outcome : outcome svc = futures (c_px c);
  ln_calls : length (calls svc) = length (outcome svc);
  ln_order : NoDup (order svc) ∧ Forall (λ i, i < length (calls svc)) (order svc);
  ln_answers : length (answers svc) ≤ length (order svc);
  ln_clients : map_Forall (client_ok svc) (c_clients c);
  ln_requests : al = true →
    waiting_sync_token_ w = None ∧ device svc = plugin_ w ∧
    Forall2 (carries (calls svc)) (drop (length (answers svc)) (order svc))
      (commands (contents (sv_shm (c_sv c)) (send_target h)));
  ln_replies : Forall (answering svc) (td ++ contents (sv_shm (c_sv c)) (recv_source h))
}.

(** A step that changes neither the calls nor what the device did. *)
Lemma linked_frame c c' w td td' al svc fs :
  linked c w td al svc → conc_inv c' →
  ipc_queue_ (c_px c') = Some h ∨ ipc_queue_ (c_px c') = None → connected (sv_shm (c_sv c')) h →
  futures (c_px c') = fs → length fs = length (futures (c_px c)) →
  map_Forall (client_ok svc) (c_clients c') →
  commands (contents (sv_shm (c_sv c')) (send_target h)) =
    commands (contents (sv_shm (c_sv c)) (send_target h)) →
  td' ++ contents (sv_shm (c_sv c')) (recv_source h) ⊆ td ++ contents (sv_shm (c_sv c)) (recv_source h) →
  linked c' w td' al (with_outcome svc fs).
Proof.
  intros [H1 H2 H3 H4 H5 H6 Ha H7 H8 H9] Hi Hq Hc Hf Hl Hcl Hr Hrep. split; cbn; try done; try congruence.
  - intros Hal. rewrite Hr. by apply H8.
  - apply Forall_forall. intros m Hm%Hrep. rewrite Forall_forall in H9. by apply H9.
Qed.

Lemma with_outcome_id svc : with_outcome svc (outcome svc) = svc.
Proof. by destruct svc. Qed.

(** Failing waiting calls, one after the other. *)
Lemma fail_steps svc e (kvs : list (Z * nat)) fs :
  resp_success e = false →
  rtc (sstep) (with_outcome svc fs)
    (with_outcome svc (foldl (λ fs kv, set_value_quietly fs kv.2 e) fs kvs)).
Proof.
  intros He. revert fs. induction kvs as [|kv kvs IH]; intros fs; cbn [foldl]; [done|].
  etrans; [|apply IH]. unfold set_value_quietly, set_value.
  destruct (fs !! kv.2) as [[| |]|] eqn:E; try done. apply rtc_once. by constructor.
Qed.

(** More calls, acceptances and answers keep what the messages mean. *)
Lemma answering_mono svc svc' m :
  order svc `prefix_of` order svc' → answers svc `prefix_of` answers svc' →
  answering svc m → answering svc' m.
Proof.
  intros Ho Ha H Ht. destruct (H Ht) as (k & i & r & text & m0 & Hk & Hr & Hrest).
  exists k, i, r, text, m0. split_and!; [by eapply prefix_lookup_Some|by eapply prefix_lookup_Some|..]; naive_solver.
Qed.

Lemma carries_mono cs cs' i m : cs `prefix_of` cs' → carries cs i m → carries cs' i m.
Proof. intros Hp (cmd & Hi & Hm). exists cmd. split; [by eapply prefix_lookup_Some|done]. Qed.

(** ** Simulating the proxy *)

Lemma sim_number sv p cs l st w td al svc cmd p' id cmd' f :
  linked (mkConc sv p cs l st) w td al svc → (Z.of_nat (length (futures p')) + 2 < two64)%Z →
  execute_number p cmd = (p', (id, cmd', f)) →
  linked (mkConc sv p' (<[f := Numbered id cmd']> cs) l st) w td al
    (mkService (calls svc ++ [cmd']) (order svc) (answers svc) (device svc) (outcome svc ++ [Waiting])).
Proof.
  intros [H1 H2 H3 H4 H5 [H6 H6'] Ha H7 H8 H9] Hlen He. cbn [c_px c_sv c_clients] in *.
  destruct (pact_inv _ _ _ (C_number sv _ cs l st _ _ _ _ _ He)) as [Hi _]; [done|done|].
  pose proof (inv_next _ _ (ci_px _ H1)) as Hn. unfold execute_number in He. simplify_eq/=.
  assert (length (futures p) = length (calls svc)) as Hf by congruence. rewrite Hf in *.
  assert (∀ i, i ∈ order svc → i < length (calls svc)) as Hlt by (by apply Forall_forall).
  split; cbn; try done.
  - by rewrite H4.
  - rewrite !length_app. cbn. lia.
  - split; [done|]. eapply Forall_impl; [done|]. cbn. intros i Hi'. rewrite length_app. lia.
  - apply map_Forall_insert_2.
    + cbn. split_and!; [done|by rewrite lookup_app_r, Nat.sub_diag|]. intros Hin%Hlt. lia.
    + intros g [i c|i c|i c b] Hg%H7; cbn in *; [..|done];
        destruct Hg as (-> & Hg & ?); (split_and!; [done|by apply lookup_app_l_Some|done]).
  - intros Hal. destruct (H8 Hal) as (? & ? & HF). split_and!; [done|done|].
    eapply Forall2_impl; [exact HF|]. intros i m. apply carries_mono. by apply prefix_app_r.
Qed.

Lemma sim_send sv p cs l st w td al svc f id cmd sv' b :
  linked (mkConc sv p cs l st) w td al svc → (Z.of_nat (length (futures p)) + 2 < two64)%Z →
  cs !! f = Some (Registered id cmd) → execute_send sv p id cmd = (sv', Ok b) →
  linked (mkConc sv' p (<[f := SendDone id cmd b]> cs) l st) w td al
    (mkService (calls svc) (if b then order svc ++ [f] else order svc) (answers svc) (device svc) (outcome svc))
  ∧ (b = true → f < length (calls svc) ∧ f ∉ order svc).
Proof.
  intros [H1 H2 H3 H4 H5 [H6 H6'] Ha H7 H8 H9] Hlen Hf He. cbn [c_px c_sv c_clients] in *.
  destruct (pact_inv _ _ _ (C_send sv _ cs l st _ _ _ _ _ Hf He)) as [Hi _]; [done|done|].
  pose proof (H7 _ _ Hf) as (-> & Hcall & Hnew). pose proof (lookup_lt_Some _ _ _ Hcall) as Hlt.
  unfold execute_send in He. destruct (command_message _ cmd) as [m| |] eqn:Hm; try done.
  destruct (ipc_queue_ p) as [h'|] eqn:Hq; [|done]. destruct H2 as [[= ->]|]; [|done].
  destruct (send_requests (sv_shm sv) m H3) as (Hc & Hrep & Hreq).
  destruct (send (sv_shm sv) h m) as [shm b']. cbn [fst snd] in *. simplify_eq. split; [|done].
  assert (order svc `prefix_of` if b then order svc ++ [f] else order svc) as Hpre.
  { destruct b; [by apply prefix_app_r|done]. }
  split; cbn; try done; try congruence.
  - left. congruence.
  - destruct b; [|done]. rewrite NoDup_app, Forall_app. repeat split; try done; [set_solver| |by constructor].
    apply NoDup_singleton.
  - pose proof (prefix_length _ _ Hpre). lia.
  - intros g c. rewrite lookup_insert. case_decide as Hg; [by intros [= <-]; subst|].
    destruct c as [i c|i c|i c b']; intros Hin%H7; cbn in *; [..|done];
      destruct Hin as (-> & ? & ?); (split_and!; [done|done|]); destruct b; set_solver.
  - intros Hal. destruct (H8 Hal) as (? & ? & HF). split_and!; [done|done|].
    rewrite Hreq, commands_app. destruct b; [|by rewrite app_nil_r].
    assert (msg_type m = COMMAND) as Ht.
    { unfold command_message in Hm. destruct (serialize_command cmd); by simplify_eq/=. }
    unfold commands at 2. rewrite filter_cons, decide_True by done.
    rewrite drop_app_le by done.
    apply Forall2_app; [done|]. constructor; [|done]. by exists cmd.
  - rewrite Hrep. eapply Forall_impl; [exact H9|]. intros x. by apply answering_mono.
Qed.

(** A response that can be read was not cut. *)
Lemma answering_read svc m resp :
  answering svc m → msg_type m = RESPONSE → deserialize_response (payload_of m) = Ok resp →
  ∃ k i r, order svc !! k = Some i ∧ answers svc !! k = Some r ∧
    msg_id m = (1 + Z.of_nat i)%Z ∧ delivered r resp.
Proof.
  intros Ha Ht Hd. destruct (Ha Ht) as (k & i & r & text & m0 & Hk & Hr & Hs & -> & Hid).
  exists k, i, r. split_and!; [done|done|done|]. exists text. split; [done|].
  destruct (decide (length (chars text) ≤ IPC_MAX_PAYLOAD)) as [Hle|Hgt].
  - by rewrite payload_fits in Hd.
  - destruct (payload_cut m0 text) as (pre & Hpre & Hp & Hne); [lia|].
    destruct (response_cut _ _ _ Hs Hp Hne) as [e He]. rewrite Hpre in Hd. congruence.
Qed.

(** Reading a response fulfils at most the call it answers. *)
Lemma sim_response c w td al svc m p' :
  linked c w td al svc → answering svc m → msg_type m = RESPONSE →
  handle_response_message (c_px c) m = Ok p' →
  rtc sstep svc (with_outcome svc (futures p')) ∧ ipc_queue_ p' = ipc_queue_ (c_px c).
Proof.
  intros Hl Ha Ht. pose proof (ci_px _ (ln_px _ _ _ _ _ Hl)) as Hpx. unfold handle_response_message.
  destruct (deserialize_response (payload_of m)) as [resp| |] eqn:Hd; cbn; try done.
  destruct (answering_read _ _ _ Ha Ht Hd) as (k & i & r & Hk & Hr & Hid & Hdel).
  destruct (pending_responses_ (c_px c) !! msg_id m) as [j|] eqn:Hp; intros [= <-].
  2: { rewrite <-(ln_outcome _ _ _ _ _ Hl), with_outcome_id. done. }
  destruct (inv_pending _ _ Hpx _ _ Hp) as (Hj & Hid' & _). assert (j = i) as -> by lia.
  destruct (set_value_waiting _ _ resp Hj) as [_ ->]. cbn. split; [|done].
  rewrite <-(ln_outcome _ _ _ _ _ Hl) in *. destruct svc. by eapply rtc_once, S_reply.
Qed.

Lemma sim_listen sv p cs st w td al svc now sv' p' :
  linked (mkConc sv p cs true st) w td al svc → (Z.of_nat (length (futures p)) + 2 < two64)%Z →
  listener_iteration now sv p = Ok (Some (sv', p')) →
  rtc sstep svc (with_outcome svc (futures p')) ∧
  linked (mkConc sv' p' cs true st) w td al (with_outcome svc (futures p')).
Proof.
  intros Hl Hlen Hi. pose proof (listener_length _ _ _ _ _ Hi) as Hlen'.
  destruct (pact_inv _ _ _ (C_listen sv _ cs st _ _ _ Hi)) as [Hpx _]; [cbn; by rewrite Hlen'|apply (ln_px _ _ _ _ _ Hl)|].
  destruct (ln_queue _ _ _ _ _ Hl) as [Hq|Hq]; cbn in Hq; [|unfold listener_iteration in Hi; by rewrite Hq in Hi].
  destruct (listener_channel _ _ _ _ _ Hq (ln_conn _ _ _ _ _ Hl) Hi) as (Hc & Hrep & Hreq & Hp').
  cbn [c_sv] in *.
  assert (rtc sstep svc (with_outcome svc (futures p')) ∧ ipc_queue_ p' = ipc_queue_ p) as [Hs Hq'].
  { assert (p' = p → rtc sstep svc (with_outcome svc (futures p')) ∧ ipc_queue_ p' = ipc_queue_ p) as Hsame.
    { intros ->. pose proof (ln_outcome _ _ _ _ _ Hl) as Ho. cbn in Ho. by rewrite <-Ho, with_outcome_id. }
    destruct (contents (sv_shm sv) (recv_source h)) as [|m ms] eqn:Hms; cbn in Hp'; [by apply Hsame|].
    case_bool_decide as Ht; [|by apply Hsame].
    eapply (sim_response _ _ _ _ _ m p' Hl); [|done|done].
    pose proof (ln_replies _ _ _ _ _ Hl) as HF. cbn in HF. rewrite Hms in HF.
    rewrite Forall_forall in HF. apply HF. set_solver. }
  split; [done|]. eapply linked_frame; [exact Hl|done|left; cbn; congruence|done|done|done| |done|].
  - apply (ln_clients _ _ _ _ _ Hl).
  - cbn. rewrite Hrep. destruct (contents (sv_shm sv) (recv_source h)); set_solver.
Qed.

Lemma sim_finish c w td al svc id cmd b p' :
  linked c w td al svc → execute_finish (c_px c) id cmd b = Ok p' →
  rtc sstep svc (with_outcome svc (futures p')) ∧ ipc_queue_ p' = ipc_queue_ (c_px c).
Proof.
  intros Hl. pose proof (ln_outcome _ _ _ _ _ Hl) as Ho. unfold execute_finish. destruct b.
  { intros [= <-]. cbn. by rewrite <-Ho, with_outcome_id. }
  destruct (pending_responses_ (c_px c) !! id) as [i|] eqn:Hp.
  2: { intros [= <-]. by rewrite <-Ho, with_outcome_id. }
  destruct (inv_pending _ _ (ci_px _ (ln_px _ _ _ _ _ Hl)) _ _ Hp) as [Hi _].
  match goal with |- context [set_value _ i ?e] => destruct (set_value_waiting _ _ e Hi) as [-> _] end.
  cbn. intros [= <-]. cbn. split; [|done]. rewrite <-Ho in *. destruct svc. by eapply rtc_once, S_fail.
Qed.

(** [stop] fails every call that waits and is filed. *)
Lemma sim_fail_all c w td al svc e :
  linked c w td al svc → resp_success e = false →
  rtc sstep svc (with_outcome svc (foldl (λ fs kv, set_value_quietly fs kv.2 e) (futures (c_px c))
                                     (map_to_list (pending_responses_ (c_px c))))).
Proof.
  intros Hl He. etrans; [|by apply fail_steps]. by rewrite <-(ln_outcome _ _ _ _ _ Hl), with_outcome_id.
Qed.

(** The steps that touch neither futures nor the commands in the channel. *)
Lemma sim_same c c' w td al svc :
  linked c w td al svc → conc_inv c' → futures (c_px c') = futures (c_px c) →
  ipc_queue_ (c_px c') = Some h ∨ ipc_queue_ (c_px c') = None →
  map_Forall (client_ok svc) (c_clients c') →
  connected (sv_shm (c_sv c')) h →
  contents (sv_shm (c_sv c')) (recv_source h) = contents (sv_shm (c_sv c)) (recv_source h) →
  commands (contents (sv_shm (c_sv c')) (send_target h)) =
    commands (contents (sv_shm (c_sv c)) (send_target h)) →
  ∃ svc', rtc sstep svc svc' ∧ linked c' w td al svc'.
Proof.
  intros Hl Hi Hf Hq Hcl Hc Hrep Hreq. exists (with_outcome svc (futures (c_px c))). split.
  - by rewrite <-(ln_outcome _ _ _ _ _ Hl), with_outcome_id.
  - eapply linked_frame; try done. by rewrite Hrep.
Qed.

(** A filed promise is still that of its call. *)
Lemma client_ok_file c w td al svc f id cmd :
  linked c w td al svc → c_clients c !! f = Some (Numbered id cmd) →
  map_Forall (client_ok svc) (<[f := Registered id cmd]> (c_clients c)).
Proof.
  intros Hl Hf. pose proof (ln_clients _ _ _ _ _ Hl) as Hcl. apply map_Forall_insert_2; [|done].
  by apply Hcl in Hf.
Qed.

Lemma file_futures (c : Conc Q W) f id cmd :
  conc_inv c → c_clients c !! f = Some (Numbered id cmd) →
  futures (execute_file (c_px c) id f) = futures (c_px c).
Proof.
  intros Hi Hf. pose proof (ci_clients _ Hi _ _ Hf) as ->.
  apply (file_inv (unfiled (c_clients c))); [apply (ci_px _ Hi)|]. apply elem_of_unfiled. by eexists _, _.
Qed.

Lemma sim_proxy e c c' w td al svc :
  linked c w td al svc → pact e c c' → (Z.of_nat (length (futures (c_px c'))) + 2 < two64)%Z →
  ∃ svc', rtc sstep svc svc' ∧ linked c' w td al svc'.
Proof.
  intros Hl Hs Hlen. pose proof (pact_length _ _ _ Hs) as Hle.
  destruct (pact_inv _ _ _ Hs Hlen (ln_px _ _ _ _ _ Hl)) as [Hpx _].
  pose proof (ln_outcome _ _ _ _ _ Hl) as Ho. pose proof (ln_clients _ _ _ _ _ Hl) as Hcl.
  pose proof (ln_queue _ _ _ _ _ Hl) as Hq. pose proof (ln_conn _ _ _ _ _ Hl) as Hc.
  destruct Hs as [sv p cs l st cmd p' id cmd' f Hr|sv p cs l st f id cmd Hf|sv p cs l st f id cmd sv' b Hf He
    |sv p cs l st f id cmd sv' e Hf He|sv p cs l st f id cmd b p' Hf Hfin
    |sv p cs l st f m p' r _ _ Hr|sv p cs st now sv' p' Hli|sv p cs st now _|sv p cs l _|sv p cs l|sv p cs l t reads
    |sv p cs l t now _|sv p cs l sv' p' He]; cbn [c_px c_sv c_clients] in *.
  - eexists. split; [|by eapply (sim_number _ _ _ _ _ _ _ _ _ cmd)]. destruct svc. apply rtc_once, S_call.
  - eapply sim_same; try done; [by apply (file_futures _ _ _ _ (ln_px _ _ _ _ _ Hl) Hf)|].
    exact (client_ok_file _ _ _ _ _ _ _ _ Hl Hf).
  - destruct (sim_send _ _ _ _ _ _ _ _ _ _ _ _ _ _ Hl Hlen Hf He) as [Hl' Hnew]. eexists. split; [|exact Hl'].
    destruct svc, b; [|done]. apply rtc_once, S_accept; by apply Hnew.
  - assert (sv' = sv) as -> by (unfold execute_send in He; repeat case_match; by simplify_eq).
    eapply sim_same; try done. by apply map_Forall_delete.
  - destruct (sim_finish _ _ _ _ _ _ _ _ _ Hl Hfin) as [Hss Hq']. eexists. split; [exact Hss|].
    eapply linked_frame; try done; cbn [c_px c_clients]; [by rewrite Hq'| |by apply map_Forall_delete].
    by eapply execute_finish_length.
  - destruct (sync_result_inv _ p f m (ci_px _ (ln_px _ _ _ _ _ Hl))) as [_ Hf]. rewrite Hr in Hf. cbn in Hf.
    eapply sim_same; try done. cbn. unfold execute_sync_result in Hr. by repeat case_match; simplify_eq.
  - eexists. eapply sim_listen; [done|lia|done].
  - by eapply sim_same.
  - by eapply sim_same.
  - destruct (shutdown_channel sv p Hq Hc) as (? & ? & ?). by eapply sim_same.
  - eapply sim_same; try done; cbn [c_sv]; by rewrite stop_worker_shm.
  - eexists. split; [exact (sim_fail_all _ _ _ _ _ (error_response EmptyString (instrument_name_ p) "Worker stopped") Hl eq_refl)|].
    eapply linked_frame; try done. apply cleanup_length.
  - unfold cleanup_ipc in He. simplify_eq. eapply sim_same; try done. by right.
Qed.

(** ** Simulating the worker *)

(** A command that can be read was not cut. *)
Lemma carries_read cs i m now c :
  carries cs i m → deserialize_command now (payload_of m) = Ok c →
  ∃ cmd, cs !! i = Some cmd ∧ received cmd c ∧ msg_id m = (1 + Z.of_nat i)%Z.
Proof.
  intros (cmd & Hi & Hm) Hd. exists cmd. unfold command_message in Hm.
  destruct (serialize_command cmd) as [text| |] eqn:Hs; try done. cbn in Hm. injection Hm as <-.
  split_and!; [done| |done]. exists now, text. split; [done|].
  destruct (decide (length (chars text) ≤ IPC_MAX_PAYLOAD)) as [Hle|Hgt].
  - by rewrite payload_fits in Hd.
  - match type of Hd with context [set_payload ?m0 text] =>
      destruct (payload_cut m0 text) as (pre & Hpre & Hp & Hne); [lia|] end.
    destruct (command_cut now _ _ _ Hs Hp Hne) as [e He]. rewrite Hpre in Hd. congruence.
Qed.

(** What the worker sends for a command it could run. *)
Lemma handle_command_spec now w m w' out :
  handle_command plugin iter now w m = Ok (w', out) →
  ∃ c r text m0 acks, deserialize_command now (payload_of m) = Ok c ∧
    Worker.execute plugin iter (plugin_ w) c = (r, plugin_ w') ∧
    serialize_response (from_plugin_response r) = Ok text ∧
    out = set_payload m0 text :: acks ∧ msg_id m0 = msg_id m ∧ msg_type m0 = RESPONSE ∧
    Forall (λ a, msg_type a = SYNC_ACK) acks.
Proof.
  unfold handle_command, deserialize_command_from_msg. intros H.
  destruct (deserialize_command now (payload_of m)) as [c| |]; try done. cbn in H.
  destruct (Worker.execute plugin iter (plugin_ w) c) as [r d'] eqn:He.
  unfold send_command_response in H.
  destruct (serialize_response (from_plugin_response r)) as [text| |] eqn:Hs; try done. cbn in H.
  exists c, r, text, (mkIPCMessage RESPONSE (msg_id m) (default 0%Z (cmd_sync_token c)) 0 zero_payload).
  destruct (cmd_sync_token c) as [t|]; [destruct (cmd_is_sync_barrier c)|]; injection H as <- <-;
    (eexists; split_and!; [done|exact He|done..|]); repeat constructor.
Qed.

Lemma answering_other svc m : msg_type m ≠ RESPONSE → answering svc m.
Proof. by intros ? ?. Qed.

Lemma sim_command c w svc now m rest w' out shm :
  linked c w [] true svc → msg_type m = COMMAND →
  connected shm h → contents shm (recv_source h) = contents (sv_shm (c_sv c)) (recv_source h) →
  contents (sv_shm (c_sv c)) (send_target h) = m :: rest → contents shm (send_target h) = rest →
  handle_command plugin iter now w m = Ok (w', out) →
  ∃ svc', sstep svc svc' ∧ linked (put_shm c shm) w' out true svc'.
Proof.
  intros [H1 H2 H3 H4 H5 H6 Ha H7 H8 H9] Ht Hc Hrep Hreq Hrest Hh.
  destruct (H8 eq_refl) as (Hw & Hdev & HF). rewrite Hreq in HF. unfold commands in HF.
  rewrite filter_cons, decide_True in HF by done. apply Forall2_cons_inv_r in HF as (i & l & Hi & HF & Hdrop).
  pose proof (handle_command_waiting _ _ _ _ _ _ _ Hh) as Hwait.
  destruct (handle_command_spec _ _ _ _ _ Hh) as (cc & r & text & m0 & acks & Hd & He & Hs & -> & Hid & Hrt & Hacks).
  destruct (carries_read _ _ _ _ _ Hi Hd) as (cmd & Hcall & Hrcv & Hmid).
  assert (order svc !! length (answers svc) = Some i) as Hk.
  { by rewrite <-(Nat.add_0_r (length _)), <-lookup_drop, Hdrop. }
  exists (mkService (calls svc) (order svc) (answers svc ++ [r]) (plugin_ w') (outcome svc)). split.
  { destruct svc. eapply S_serve; [exact Hk|exact Hcall|exact Hrcv|]. cbn in *. by rewrite Hdev. }
  split; cbn; try done.
  - by eapply conc_inv_ext; [..|exact H1].
  - rewrite length_app. apply lookup_lt_Some in Hk. cbn. lia.
  - intros _. rewrite Hwait, Hrest. split_and!; [done|done|]. rewrite length_app. cbn.
    rewrite <-drop_drop, Hdrop. done.
  - constructor; [|apply Forall_app; split].
    + intros _. exists (length (answers svc)), i, r, text, m0. cbn.
      rewrite lookup_app_r, Nat.sub_diag by done. rewrite Hid, Hmid. done.
    + eapply Forall_impl; [exact Hacks|]. intros a Hack. apply answering_other. by rewrite Hack.
    + rewrite Hrep. eapply Forall_impl; [exact H9|]. intros a. apply answering_mono; cbn; [done|by apply prefix_app_r].
Qed.

(** The worker's end of the channel. *)
Lemma worker_receive shm shm' om :
  connected shm h → receive shm (peer h) = (shm', om) →
  connected shm' h ∧ contents shm' (recv_source h) = contents shm (recv_source h) ∧
  om = head (contents shm (send_target h)) ∧
  contents shm' (send_target h) = tail (contents shm (send_target h)).
Proof.
  intros Hc Hr. destruct (receive_spec shm (peer h)) as (H1 & H2 & H3 & H4); [done|].
  rewrite Hr in H1, H2, H3, H4. rewrite peer_send_target in H2. rewrite peer_recv_source in H3, H4. done.
Qed.

Lemma worker_send shm shm' m ok :
  connected shm h → send shm (peer h) m = (shm', ok) →
  connected shm' h ∧ contents shm' (send_target h) = contents shm (send_target h) ∧
  contents shm' (recv_source h) = contents shm (recv_source h) ++ (if ok then [m] else []).
Proof.
  intros Hc Hs. destruct (send_spec shm (peer h) m) as (H1 & H2 & _ & H3); [done|].
  rewrite Hs in H1, H2, H3. rewrite peer_recv_source in H2. rewrite peer_send_target in H3. done.
Qed.

(** The relation only looks at the worker's plugin and at its token. *)
Lemma linked_worker c w w' td td' al al' svc :
  linked c w td al svc → (al' = true → al = true) →
  waiting_sync_token_ w' = waiting_sync_token_ w → plugin_ w' = plugin_ w →
  Forall (answering svc) td' → linked c w' td' al' svc.
Proof.
  intros [H1 H2 H3 H4 H5 H6 Ha H7 H8 H9] Hal Hw Hp Ht. split; try done.
  - intros E. rewrite Hw, Hp. auto.
  - apply Forall_app in H9 as [_ H9]. by apply Forall_app.
Qed.

Lemma linked_shm c w td al al' svc shm td' :
  linked c w td al svc → connected shm h → (al' = true → al = true) →
  (al' = true → commands (contents shm (send_target h)) =
     commands (contents (sv_shm (c_sv c)) (send_target h))) →
  (∀ m, m ∈ td' ++ contents shm (recv_source h) → m ∈ td ++ contents (sv_shm (c_sv c)) (recv_source h)) →
  linked (put_shm c shm) w td' al' svc.
Proof.
  intros [H1 H2 H3 H4 H5 H6 Ha H7 H8 H9] Hc Hal Hreq Hrep. split; try done; cbn.
  - by eapply conc_inv_ext; [..|exact H1].
  - intros E. rewrite Hreq by done. auto.
  - apply Forall_forall. intros m Hm%Hrep. by eapply Forall_forall in H9.
Qed.

(** A message that is no command changes neither plugin nor queue. *)
Lemma process_other now w m w' out :
  msg_type m ≠ COMMAND → waiting_sync_token_ w = None →
  process_message plugin iter now w m = Ok (w', out) →
  out = [] ∧ waiting_sync_token_ w' = None ∧ plugin_ w' = plugin_ w.
Proof.
  intros Ht Hw. unfold process_message, handle_sync_continue. rewrite Hw.
  destruct (msg_type m); try done; by intros [= <- <-].
Qed.

Lemma sim_receive c w svc shm m now w' out :
  linked c w [] true svc → receive (sv_shm (c_sv c)) (peer h) = (shm, Some m) →
  process_message plugin iter now w m = Ok (w', out) →
  ∃ svc', rtc sstep svc svc' ∧ linked (put_shm c shm) w' out true svc'.
Proof.
  intros Hl Hr Hp. destruct (worker_receive _ _ _ (ln_conn _ _ _ _ _ Hl) Hr) as (Hc & Hrep & Hm & Hreq).
  destruct (contents (sv_shm (c_sv c)) (send_target h)) as [|m' ms] eqn:Hms; [done|].
  cbn in Hm, Hreq. injection Hm as <-. destruct (ln_requests _ _ _ _ _ Hl eq_refl) as (Hw & _).
  destruct (decide (msg_type m = COMMAND)) as [Ht|Ht].
  - unfold process_message in Hp. rewrite Ht, Hw in Hp.
    edestruct sim_command as (svc' & Hs & Hl'); [exact Hl|done..|]. exists svc'. split; [by apply rtc_once|done].
  - destruct (process_other _ _ _ _ _ Ht Hw Hp) as (-> & Hw' & Hpl).
    exists svc. split; [done|]. apply (linked_worker _ w w' [] [] true true); [|done|congruence|done|done].
    eapply linked_shm; [exact Hl|done|done| |by rewrite Hrep].
    intros _. rewrite Hms, Hreq. unfold commands. by rewrite filter_cons, decide_False.
Qed.

Lemma sim_step s s' svc :
  ystep s s' → linked (y_conc s) (y_worker s) (y_todo s) (y_alive s) svc →
  (Z.of_nat (length (futures (y_px s'))) + 2 < two64)%Z →
  ∃ svc', rtc sstep svc svc' ∧ linked (y_conc s') (y_worker s') (y_todo s') (y_alive s') svc'.
Proof.
  intros Hs Hl Hlen. pose proof (ln_conn _ _ _ _ _ Hl) as Hc.
  destruct Hs as [a Hs]. destruct Hs as [e c c' w td ar al hi Hp|c w hi now w' hb Hg Hb|c w m td ar hi shm ok Hsd
    |c w hi shm m now w' out Hr Hp|c w hi shm Hr|c w hi shm m now Hr Hp|c w td ar hi
    |c w td ar al hi sv' Hc' Hreq Hrep]; cbn [y_conc y_worker y_todo y_alive] in *.
  - by eapply sim_proxy.
  - exists svc. split; [done|]. unfold send_heartbeat_if_needed in Hb.
    case_bool_decide; injection Hb as <- <-; [|done]. eapply linked_worker; [exact Hl|done..|].
    constructor; [by apply answering_other|done].
  - destruct (worker_send _ _ _ _ Hc Hsd) as (Hc' & Hreq & Hrep). exists svc. split; [done|].
    eapply linked_shm; [exact Hl|done|done|by rewrite Hreq|]. rewrite Hrep. destruct ok; set_solver.
  - by eapply sim_receive.
  - destruct (worker_receive _ _ _ Hc Hr) as (Hc' & Hrep & Hm & Hreq). exists svc. split; [done|].
    eapply linked_shm; [exact Hl|done|done| |by rewrite Hrep]. intros _. rewrite Hreq.
    by destruct (contents _ (send_target h)).
  - destruct (worker_receive _ _ _ Hc Hr) as (Hc' & Hrep & _). exists svc. split; [done|].
    eapply linked_shm; [exact Hl|done|done|done|by rewrite Hrep].
  - exists svc. split; [done|]. destruct Hl. by split.
  - exists svc. split; [done|]. destruct Hl as [H1]. split; cbn in *; try done; [|by rewrite Hreq|by rewrite Hrep].
    by eapply conc_inv_ext; [..|exact H1].
Qed.

(** ** The calls of the service are the calls of the clients *)

Lemma sstep_calls svc svc' : sstep svc svc' → calls svc `prefix_of` calls svc'.
Proof. destruct 1; cbn; [by apply prefix_app_r|done..]. Qed.

Lemma ssteps_calls svc svc' : rtc sstep svc svc' → calls svc `prefix_of` calls svc'.
Proof. induction 1 as [|? ? ? H _ IH]; [done|]. etrans; [by apply sstep_calls|done]. Qed.

(** Only taking a number makes a new future, and it notes its client. *)
Lemma pact_grows e (c c' : Conc Q W) :
  pact e c c' →
  length (futures (c_px c')) = length (futures (c_px c)) ∨
  length (futures (c_px c')) = S (length (futures (c_px c))) ∧
  is_Some (unsent c' !! length (futures (c_px c))).
Proof.
  destruct 1; cbn [c_px]; try by left.
  - right. unfold execute_number in *. simplify_eq/=. split.
    + rewrite length_app. cbn. lia.
    + unfold unsent. cbn. rewrite lookup_omap, lookup_insert_eq. by eexists.
  - left. unfold execute_file. cbn. case_match; by rewrite ?length_insert.
  - left. by eapply execute_finish_length.
  - left. unfold execute_sync_result in *. repeat case_match; by simplify_eq/=.
  - left. by eapply listener_length.
  - left. apply cleanup_length.
  - left. unfold cleanup_ipc in *. by simplify_eq.
Qed.

Lemma unsent_calls c w td al svc i cmd :
  linked c w td al svc → unsent c !! i = Some cmd → calls svc !! i = Some cmd.
Proof.
  intros Hl. unfold unsent. rewrite lookup_omap.
  destruct (c_clients c !! i) as [[id cmd'|id cmd'|]|] eqn:E; cbn; [..|done|done]; intros [= ->];
    apply (ln_clients _ _ _ _ _ Hl) in E; by destruct E as (_ & ? & _).
Qed.

Lemma called_step s s' svc svc' :
  ystep s s' → rtc sstep svc svc' →
  linked (y_conc s) (y_worker s) (y_todo s) (y_alive s) svc →
  linked (y_conc s') (y_worker s') (y_todo s') (y_alive s') svc' →
  (∀ i, called (y_hist s) !! i = calls svc !! i) →
  ∀ i, called (y_hist s') !! i = calls svc' !! i.
Proof.
  intros Hs Hss Hl Hl' Hc i. pose proof (ssteps_calls _ _ Hss) as Hpre.
  assert (length (futures (c_px (y_conc s'))) = length (futures (c_px (y_conc s))) → calls svc' = calls svc) as Heq.
  { intros Hlen. pose proof (ln_calls _ _ _ _ _ Hl) as H1. pose proof (ln_calls _ _ _ _ _ Hl') as H2.
    rewrite (ln_outcome _ _ _ _ _ Hl) in H1. rewrite (ln_outcome _ _ _ _ _ Hl') in H2.
    symmetry. apply prefix_length_eq; [done|lia]. }
  destruct Hs as [a Hs]. destruct Hs as [e c c' w td ar al hi Hp| | | | | | |]; try (rewrite Heq by done; apply Hc).
  cbn in *. rewrite lookup_union, Hc.
  destruct (unsent c' !! i) as [cmd|] eqn:E.
  { rewrite (unsent_calls _ _ _ _ _ _ _ Hl' E). by destruct (calls svc !! i). }
  rewrite left_id_L by apply _. destruct (pact_grows _ _ _ Hp) as [Hlen|[Hlen Hn]]; [by rewrite Heq|].
  destruct (calls svc !! i) as [cmd|] eqn:Ei; [by symmetry; eapply prefix_lookup_Some|].
  symmetry. apply lookup_ge_None. apply lookup_ge_None in Ei.
  pose proof (ln_calls _ _ _ _ _ Hl) as H1. pose proof (ln_calls _ _ _ _ _ Hl') as H2.
  rewrite (ln_outcome _ _ _ _ _ Hl) in H1. rewrite (ln_outcome _ _ _ _ _ Hl') in H2. cbn in *.
  destruct (decide (i = length (futures (c_px c)))) as [->|]; [rewrite E in Hn; by destruct Hn|]. lia.
Qed.

(** ** Runs *)

Lemma ystep_length s s' : ystep s s' → length (futures (y_px s)) ≤ length (futures (y_px s')).
Proof. intros [a Hs]. destruct Hs; cbn; try done. by eapply pact_length. Qed.

Lemma ysteps_length s s' : rtc ystep s s' → length (futures (y_px s)) ≤ length (futures (y_px s')).
Proof. induction 1 as [|? ? ? H _ IH]; [done|]. pose proof (ystep_length _ _ H). lia. Qed.

Lemma started_linked s :
  y_started s → linked (y_conc s) (y_worker s) (y_todo s) (y_alive s) (init_service (plugin_ (y_worker s))).
Proof.
  intros (Hst & Hq & Hc & Hreq & Hrep & Hw & Ht & _). pose proof (started_inv _ Hst) as Hpx.
  destruct Hst as (sv & name & plg & h' & pid & E). rewrite E in *.
  unfold y_px, y_shm in *. rewrite E in *. cbn in *.
  split; cbn; try done.
  - by left.
  - repeat constructor.
  - by rewrite Hreq.
  - by rewrite Ht, Hrep.
Qed.

(** The invariant of every run. *)
Lemma run_linked s0 s :
  y_started s0 → rtc ystep s0 s → (Z.of_nat (length (futures (y_px s))) + 2 < two64)%Z →
  ∃ svc, rtc sstep (init_service (plugin_ (y_worker s0))) svc ∧
    linked (y_conc s) (y_worker s) (y_todo s) (y_alive s) svc ∧
    ∀ i, called (y_hist s) !! i = calls svc !! i.
Proof.
  intros H0. revert s. refine (rtc_ind_r _ _ _ _); [intros _|intros s s1 _ Hs IH Hlen].
  { eexists. split; [done|]. split; [by apply started_linked|]. intros i.
    destruct H0 as (_ & _ & _ & _ & _ & _ & _ & ->). done. }
  destruct IH as (svc & Hss & Hl & Hc); [pose proof (ystep_length _ _ Hs); lia|].
  destruct (sim_step _ _ _ Hs Hl Hlen) as (svc' & Hss' & Hl').
  exists svc'. split_and!; [by etrans|done|]. by eapply called_step.
Qed.

(** ** What the service promises *)

(** The device alone, serving commands one after the other. *)
Fixpoint serve (d : P) (cs : list SerializedCommand) : list PluginResponse * P :=
  match cs with
  | [] => ([], d)
  | c :: cs => let '(r, d) := Worker.execute plugin iter d c in
               let '(rs, d) := serve d cs in (r :: rs, d)
  end.

Lemma serve_snoc d cs c :
  serve d (cs ++ [c]) =
  let '(rs, d1) := serve d cs in
  let '(r, d2) := Worker.execute plugin iter d1 c in (rs ++ [r], d2).
Proof.
  revert d. induction cs as [|c' cs IH]; intros d; cbn; [by destruct (Worker.execute plugin iter d c)|].
  destruct (Worker.execute plugin iter d c') as [r' d']. rewrite IH.
  destruct (serve d' cs) as [rs d1]. by destruct (Worker.execute plugin iter d1 c).
Qed.

Lemma serve_length d cs : length (serve d cs).1 = length cs.
Proof.
  revert d. induction cs as [|c cs IH]; intros d; cbn; [done|].
  destruct (Worker.execute plugin iter d c) as [r d1]. specialize (IH d1).
  destruct (serve d1 cs). cbn in *. lia.
Qed.

(** A settled call holds the device's answer to it, or an error. *)
Definition settled_well svc (i : nat) (resp : CommandResponse) : Prop :=
  (∃ k r, order svc !! k = Some i ∧ answers svc !! k = Some r ∧ delivered r resp) ∨
  resp_success resp = false.

Record service_inv (d0 : P) svc : Prop := {
  sv_nodup : NoDup (order svc);
  sv_served : ∃ cs, serve d0 cs = (answers svc, device svc) ∧
    Forall2 (λ i c, ∃ cmd, calls svc !! i = Some cmd ∧ received cmd c)
      (take (length (answers svc)) (order svc)) cs;
  sv_settled i resp : outcome svc !! i = Some (Ready resp) → settled_well svc i resp
}.

Lemma settle_inv d0 svc i resp :
  service_inv d0 svc → settled_well svc i resp →
  service_inv d0 (with_outcome svc (<[i := Ready resp]> (outcome svc))).
Proof.
  intros [H1 H2 H3] Hs. split; [done|done|]. intros j r Hj. cbn in Hj.
  apply list_lookup_insert_Some in Hj as [(<- & [= ->] & _)|[_ Hj]]; [done|by apply H3].
Qed.

Lemma service_step_inv d0 svc svc' : sstep svc svc' → service_inv d0 svc → service_inv d0 svc'.
Proof.
  intros Hs Hi. destruct Hs as [cs ord ans d out cmd|cs ord ans d out i Hlt Hnew
    |cs ord ans d out i cmd c r d' Hk Hc Hr He|cs ord ans d out k i r resp Hk Hr Hd _|cs ord ans d out i e _ He].
  4: { apply (settle_inv _ _ _ _ Hi). left. by exists k, r. }
  4: { apply (settle_inv _ _ _ _ Hi). by right. }
  all: destruct Hi as [H1 (xs & H2 & HF) H3]; cbn in *; split; cbn.
  - done.
  - exists xs. split; [done|]. eapply Forall2_impl; [exact HF|].
    intros j c (cm & Hj & ?). exists cm. split; [by apply lookup_app_l_Some|done].
  - intros i resp [Hi|[_ Hi]]%lookup_app_Some; [by apply H3 in Hi|].
    by apply list_lookup_singleton_Some in Hi as [_ ?].
  - apply NoDup_app. repeat split; [done|set_solver|apply NoDup_singleton].
  - exists xs. split; [done|]. rewrite take_app_le; [done|].
    apply Forall2_length in HF. rewrite length_take in HF. pose proof (serve_length d0 xs). rewrite H2 in *. cbn in *. lia.
  - intros j resp [(k & r & Hk & Hr)|He]%H3; [left|by right].
    exists k, r. split; [by apply lookup_app_l_Some|done].
  - done.
  - exists (xs ++ [c]). rewrite serve_snoc, H2, He. split; [done|].
    rewrite length_app. cbn. rewrite Nat.add_1_r, (take_S_r _ _ _ Hk). apply Forall2_app; [done|].
    constructor; [by exists cmd|done].
  - intros j resp [(k & x & Hk' & Hr' & Hd)|He']%H3; [left|by right].
    exists k, x. split_and!; [done|by apply lookup_app_l_Some|done].
Qed.

Lemma service_runs d0 svc : rtc sstep (init_service d0) svc → service_inv d0 svc.
Proof.
  revert svc. refine (rtc_ind_r _ _ _ _); [|intros ? ? _ Hs; by eapply service_step_inv].
  split; [constructor| |done]. exists []. by repeat constructor.
Qed.

(** ** Where a waiting call is *)

(** The numbers of the calls in the channel, in the worker's hands, or refused. *)
Definition in_flight (s : Sys) : list Z :=
  ids_of COMMAND (requests s) ++
  ids_of RESPONSE (y_todo s ++ replies s ++ refused (y_hist s)).

(** The client has not sent, or was told that the queue is full; the call threw;
    or its command or response is under way. *)
Definition before_send (c : client) : Prop :=
  match c with Numbered _ _ | Registered _ _ => True | SendDone _ _ sent => sent = false end.

Definition located (cs : gmap nat client) (th : gset nat) (fl : list Z) (i : nat) : Prop :=
  (∃ c, cs !! i = Some c ∧ before_send c) ∨
  i ∈ th ∨ (1 + Z.of_nat i)%Z ∈ fl.

Definition all_located (s : Sys) : Prop :=
  y_alive s = true → ∀ i, futures (y_px s) !! i = Some Waiting →
  located (c_clients (y_conc s)) (threw (y_hist s)) (in_flight s) i.

Lemma located_mono cs cs' th th' fl fl' i :
  located cs th fl i →
  (∀ c, cs !! i = Some c → before_send c → located cs' th' fl' i) →
  th ⊆ th' → fl ⊆ fl' → located cs' th' fl' i.
Proof.
  intros [(c & H & Hb)|[H|H]] Hc Hth Hfl; [by eapply Hc|..]; right; [left|right]; set_solver.
Qed.

Lemma ids_of_cons t m ms : ids_of t (m :: ms) = ids_of t [m] ++ ids_of t ms.
Proof. apply (ids_of_app t [m]). Qed.

Lemma ids_of_commands ms ms' : commands ms = commands ms' → ids_of COMMAND ms = ids_of COMMAND ms'.
Proof. unfold ids_of, commands. by intros ->. Qed.

(** The steps of the proxy that leave the channel alone or only put other
    messages in it. *)
Lemma located_frame s c' hi' :
  all_located s →
  commands (contents (sv_shm (c_sv c')) (send_target h)) = commands (requests s) →
  contents (sv_shm (c_sv c')) (recv_source h) = replies s → refused hi' = refused (y_hist s) →
  threw (y_hist s) ⊆ threw hi' →
  (∀ i, futures (c_px c') !! i = Some Waiting →
     futures (y_px s) !! i = Some Waiting ∧ c_clients c' !! i = c_clients (y_conc s) !! i ∨
     located (c_clients c') (threw hi') (in_flight s) i) →
  all_located (mkSys c' (y_worker s) (y_todo s) (y_at_receive s) (y_alive s) hi').
Proof.
  intros Hall Hreq Hrep Href Hth Hf Hal i Hi.
  assert (in_flight (mkSys c' (y_worker s) (y_todo s) (y_at_receive s) (y_alive s) hi') = in_flight s) as ->.
  { unfold in_flight, requests, replies, y_shm in *. cbn. by rewrite (ids_of_commands _ _ Hreq), Hrep, Href. }
  cbn. destruct (Hf i Hi) as [[Hw Hcl]|Hcl]; [|done]. eapply located_mono; [by apply Hall| |done|done].
  rewrite <-Hcl. intros c H Hb. left. by exists c.
Qed.

Lemma located_number sv p cs l st w td ar al hi cmd p' id cmd' f :
  let s := mkSys (mkConc sv p cs l st) w td ar al hi in
  let c' := mkConc sv p' (<[f := Numbered id cmd']> cs) l st in
  all_located s → execute_number p cmd = (p', (id, cmd', f)) →
  all_located (mkSys c' w td ar al (record_proxy (y_conc s) c' hi)).
Proof.
  intros s c' Hall He. apply (located_frame s c'); try done; [cbn; set_solver|].
  intros i Hi. destruct (decide (i = f)) as [->|Hne].
  - right. left. eexists. split; [apply lookup_insert_eq|done].
  - left. cbn in *. rewrite lookup_insert_ne by done. split; [|done].
    unfold execute_number in He. simplify_eq/=.
    apply lookup_app_Some in Hi as [Hi|[Hge Hi]]; [done|].
    apply list_lookup_singleton_Some in Hi as [Hi _]. lia.
Qed.

Lemma located_file sv p cs l st w td ar al hi f id cmd :
  let s := mkSys (mkConc sv p cs l st) w td ar al hi in
  let c' := mkConc sv (execute_file p id f) (<[f := Registered id cmd]> cs) l st in
  all_located s → conc_inv (mkConc sv p cs l st) → cs !! f = Some (Numbered id cmd) →
  all_located (mkSys c' w td ar al (record_proxy (y_conc s) c' hi)).
Proof.
  intros s c' Hall Hi Hf. apply (located_frame s c'); try done; [cbn; set_solver|].
  pose proof (file_futures _ _ _ _ Hi Hf) as Hfs. cbn [c_px] in Hfs.
  intros i Hw. change (futures (execute_file p id f) !! i = Some Waiting) in Hw. rewrite Hfs in Hw. cbn. destruct (decide (i = f)) as [->|Hne].
  - right. left. eexists. split; [apply lookup_insert_eq|done].
  - left. by rewrite lookup_insert_ne.
Qed.

Lemma located_send sv p cs l st w td ar al hi f id cmd sv' b :
  let s := mkSys (mkConc sv p cs l st) w td ar al hi in
  let c' := mkConc sv' p (<[f := SendDone id cmd b]> cs) l st in
  all_located s → connected (sv_shm sv) h → ipc_queue_ p = Some h ∨ ipc_queue_ p = None →
  id = (1 + Z.of_nat f)%Z → execute_send sv p id cmd = (sv', Ok b) →
  all_located (mkSys c' w td ar al (record_proxy (y_conc s) c' hi)).
Proof.
  intros s c' Hall Hc Hq -> He Hal i Hi. unfold execute_send in He.
  destruct (command_message _ cmd) as [m| |] eqn:Hm; try done.
  destruct (ipc_queue_ p) as [h'|]; [|done]. destruct Hq as [[= ->]|]; [|done].
  destruct (send_requests (sv_shm sv) m Hc) as (_ & Hrep & Hreq).
  destruct (send (sv_shm sv) h m) as [shm b']. cbn [fst snd] in *. simplify_eq.
  unfold in_flight, requests, replies, y_shm. cbn. rewrite Hreq, Hrep, ids_of_app.
  destruct (decide (f = i)) as [->|Hne].
  - destruct b; [|left; eexists; split; [apply lookup_insert_eq|done]]. right. right.
    apply elem_of_app. left. apply elem_of_app. right. unfold command_message in Hm.
    destruct (serialize_command cmd); simplify_eq/=. by left.
  - eapply located_mono; [by apply (Hall Hal i Hi)| |set_solver|].
    + intros c. cbn. intros H Hb. left. exists c. by rewrite lookup_insert_ne.
    + unfold in_flight, requests, replies, y_shm. cbn. set_solver.
Qed.

Lemma located_throws sv p cs l st w td ar al hi f id cmd :
  let s := mkSys (mkConc sv p cs l st) w td ar al hi in
  let c' := mkConc sv p (delete f cs) l st in
  all_located s → cs !! f = Some (Registered id cmd) →
  all_located (mkSys c' w td ar al (record_proxy (y_conc s) c' hi)).
Proof.
  intros s c' Hall Hf. apply (located_frame s c'); try done; [cbn; set_solver|].
  intros i Hi. cbn. destruct (decide (f = i)) as [->|Hne].
  - right. right. left. apply elem_of_union_r, elem_of_difference. split.
    + apply elem_of_dom. exists cmd. unfold unsent. cbn. by rewrite lookup_omap, Hf.
    + rewrite dom_delete. set_solver.
  - left. by rewrite lookup_delete_ne.
Qed.

Lemma located_finish sv p cs l st w td ar al hi f id cmd b p' :
  let s := mkSys (mkConc sv p cs l st) w td ar al hi in
  let c' := mkConc sv p' (delete f cs) l st in
  all_located s → px_inv (unfiled cs) p → cs !! f = Some (SendDone id cmd b) → id = (1 + Z.of_nat f)%Z →
  execute_finish p id cmd b = Ok p' →
  all_located (mkSys c' w td ar al (record_proxy (y_conc s) c' hi)).
Proof.
  intros s c' Hall Hpx Hf -> He Hal i Hi. cbn in Hi, Hal.
  assert (futures p !! i = Some Waiting ∧ (b = false → i ≠ f)) as [Hw Hne].
  { unfold execute_finish in He. destruct b; [by simplify_eq|].
    destruct (pending_responses_ p !! _) as [j|] eqn:Hp.
    - destruct (inv_pending _ _ Hpx _ _ Hp) as (Hj & Hid & _). assert (j = f) as -> by lia.
      match type of He with context [set_value _ f ?e] => destruct (set_value_waiting _ _ e Hj) as [E _] end.
      rewrite E in He. cbn in He. simplify_eq. cbn in Hi.
      apply list_lookup_insert_Some in Hi as [(_ & ? & _)|[? Hi]]; [done|]. auto.
    - injection He as <-. split; [done|]. intros _ ->.
      destruct (inv_waiting _ _ Hpx _ Hi) as [(id & c & Hu)%elem_of_unfiled|Hw]; congruence. }
  eapply located_mono; [by apply (Hall Hal i Hw)| |cbn; set_solver|done].
  intros c H Hb. cbn in H. left. exists c. cbn. rewrite lookup_delete_ne; [done|].
  intros <-. rewrite Hf in H. simplify_eq. cbn in Hb. by apply Hne.
Qed.

(** A response that was read is no longer awaited, if its call is filed. *)
Lemma response_settles un p m p' i :
  px_inv un p → handle_response_message p m = Ok p' → futures p' !! i = Some Waiting →
  futures p !! i = Some Waiting ∧ (msg_id m = (1 + Z.of_nat i)%Z → i ∈ un).
Proof.
  intros Hpx. unfold handle_response_message.
  destruct (deserialize_response (payload_of m)) as [r| |]; cbn; try done.
  destruct (pending_responses_ p !! msg_id m) as [j|] eqn:Hp; intros [= <-] Hi.
  - destruct (inv_pending _ _ Hpx _ _ Hp) as (Hj & -> & _). cbn in Hi.
    destruct (set_value_waiting _ _ r Hj) as [_ E]. rewrite E in Hi.
    apply list_lookup_insert_Some in Hi as [(_ & ? & _)|[? Hi]]; [done|]. split; [done|lia].
  - split; [done|]. intros Hid. destruct (inv_waiting _ _ Hpx _ Hi); [done|congruence].
Qed.

Lemma located_listen sv p cs st w td ar al hi now sv' p' :
  let s := mkSys (mkConc sv p cs true st) w td ar al hi in
  let c' := mkConc sv' p' cs true st in
  all_located s → px_inv (unfiled cs) p → connected (sv_shm sv) h →
  ipc_queue_ p = Some h ∨ ipc_queue_ p = None →
  listener_iteration now sv p = Ok (Some (sv', p')) →
  all_located (mkSys c' w td ar al (record_proxy (y_conc s) c' hi)).
Proof.
  intros s c' Hall Hpx Hc Hq Hli Hal i Hi.
  destruct Hq as [Hq|Hq]; [|unfold listener_iteration in Hli; by rewrite Hq in Hli].
  destruct (listener_channel _ _ _ _ _ Hq Hc Hli) as (_ & Hrep & Hreq & Hp'). cbn in Hi, Hal.
  assert (futures p !! i = Some Waiting ∧ ∀ m, head (replies s) = Some m → msg_type m = RESPONSE →
            msg_id m = (1 + Z.of_nat i)%Z → i ∈ unfiled cs) as [Hw Hne].
  { unfold replies, y_shm. cbn. destruct (head _) as [m|]; [|by subst]. case_bool_decide as Ht.
    - destruct (response_settles _ _ _ _ _ Hpx Hp' Hi) as [? ?]. split; [done|]. by intros ? [= <-].
    - subst. split; [done|]. by intros ? [= <-]. }
  destruct (decide (i ∈ unfiled cs)) as [(id & cmd & Hu)%elem_of_unfiled|Hu]; [left; by eexists|].
  destruct (Hall Hal i Hw) as [H|[H|H]]; [by left|right; left; cbn; set_solver|right; right].
  unfold in_flight, requests, replies, y_shm in *. cbn in *.
  rewrite (ids_of_commands _ _ Hreq), Hrep, !ids_of_app. rewrite !ids_of_app in H.
  destruct (contents (sv_shm sv) (recv_source h)) as [|m ms]; [done|]. cbn [tail head] in *.
  rewrite (ids_of_cons _ m ms) in H.
  assert ((1 + Z.of_nat i)%Z ∉ ids_of RESPONSE [m]); [|set_solver].
  unfold ids_of. rewrite filter_cons. case_decide as Ht; [|apply not_elem_of_nil].
  intros [Heq|[]%not_elem_of_nil]%elem_of_cons. by eapply Hu, Hne.
Qed.

Lemma located_proxy e c c' w td ar al hi svc :
  pact e c c' → linked c w td al svc → all_located (mkSys c w td ar al hi) →
  all_located (mkSys c' w td ar al (record_proxy c c' hi)).
Proof.
  intros Hs Hl Hall. pose proof (ln_px _ _ _ _ _ Hl) as Hci. pose proof (ci_px _ Hci) as Hpx.
  pose proof (ln_queue _ _ _ _ _ Hl) as Hq. pose proof (ln_conn _ _ _ _ _ Hl) as Hc.
  pose proof (ln_clients _ _ _ _ _ Hl) as Hcl.
  assert (∀ c', c_clients c' = c_clients c →
    (∀ i, futures (c_px c') !! i = Some Waiting → futures (c_px c) !! i = Some Waiting) →
    contents (sv_shm (c_sv c')) (recv_source h) = contents (sv_shm (c_sv c)) (recv_source h) →
    commands (contents (sv_shm (c_sv c')) (send_target h)) =
      commands (contents (sv_shm (c_sv c)) (send_target h)) →
    all_located (mkSys c' w td ar al (record_proxy c c' hi))) as Hframe.
  { intros c1 E1 E2 E3 E4. eapply (located_frame (mkSys c w td ar al hi)); try done; [cbn; set_solver|].
    intros i Hi. left. cbn. by rewrite E1; auto. }
  destruct Hs as [sv p cs l st cmd p' id cmd' f Hr|sv p cs l st f id cmd Hf|sv p cs l st f id cmd sv' b Hf He
    |sv p cs l st f id cmd sv' e Hf He|sv p cs l st f id cmd b p' Hf Hfin
    |sv p cs l st f m p' r _ _ Hr|sv p cs st now sv' p' Hli|sv p cs st now _|sv p cs l _|sv p cs l|sv p cs l t reads
    |sv p cs l t now _|sv p cs l sv' p' He]; cbn [c_px c_sv c_clients] in *; try by apply Hframe.
  - by eapply located_number.
  - by eapply located_file.
  - eapply located_send; try done. by apply Hcl in Hf as (-> & _).
  - assert (sv' = sv) as -> by (unfold execute_send in He; repeat case_match; by simplify_eq).
    by eapply located_throws.
  - eapply located_finish; try done. by apply Hcl in Hf.
  - destruct (sync_result_inv _ p f m Hpx) as [_ Hf]. rewrite Hr in Hf. cbn in Hf. apply Hframe; try done.
    cbn. by rewrite Hf.
  - by eapply located_listen.
  - destruct (shutdown_channel sv p Hq Hc) as (? & ? & ?). by apply Hframe.
  - apply Hframe; try done; cbn [c_sv]; by rewrite stop_worker_shm.
  - destruct (cleanup_promises_spec _ p Hpx) as (_ & _ & _ & _ & Hall'). apply Hframe; try done.
    intros i. cbn [c_px]. rewrite Hall'. by case_bool_decide.
  - unfold cleanup_ipc in He. simplify_eq. by apply Hframe.
Qed.

Lemma located_step s s' svc :
  ystep s s' → linked (y_conc s) (y_worker s) (y_todo s) (y_alive s) svc →
  all_located s → all_located s'.
Proof.
  intros Hs Hl Hall. pose proof (ln_conn _ _ _ _ _ Hl) as Hc.
  destruct Hs as [a Hs]. destruct Hs as [e c c' w td ar al hi Hp|c w hi now w' hb Hg Hb|c w m td ar hi shm ok Hsd
    |c w hi shm m now w' out Hr Hp|c w hi shm Hr|c w hi shm m now Hr Hp|c w td ar hi
    |c w td ar al hi sv' Hc' Hreq Hrep]; cbn [y_conc y_worker y_todo y_alive] in *; try (intros Hal; done).
  - by eapply located_proxy.
  - intros Hal i Hi. cbn in Hi. pose proof (Hall Hal i Hi) as H. unfold in_flight in *. cbn in *.
    pose proof (heartbeat_ids now w) as Hids. rewrite Hb in Hids. cbn in Hids.
    by rewrite (ids_of_app _ hb), Hids.
  - destruct (worker_send _ _ _ _ Hc Hsd) as (_ & Hreq & Hrep). intros Hal i Hi.
    eapply located_mono; [by apply (Hall Hal i Hi)| |done|].
    { intros c0 H Hb. left. by exists c0. }
    unfold in_flight, requests, replies, y_shm. cbn. rewrite Hreq, Hrep.
    rewrite (ids_of_cons _ m (td ++ _)), !ids_of_app. intros x.
    destruct ok; rewrite ?ids_of_app, !elem_of_app; tauto.
  - destruct (worker_receive _ _ _ Hc Hr) as (_ & Hrep & Hm & Hreq). intros Hal i Hi.
    destruct (ln_requests _ _ _ _ _ Hl eq_refl) as (Hw & _).
    pose proof (process_message_ids _ _ _ _ _ _ _ Hw Hp) as Hids.
    eapply located_mono; [by apply (Hall Hal i Hi)| |done|].
    { intros c0 H Hb. left. by exists c0. }
    unfold in_flight, requests, replies, y_shm. cbn. rewrite Hreq, Hrep.
    destruct (contents _ (send_target h)) as [|m' ms]; [done|]. cbn in Hm. injection Hm as <-.
    rewrite (ids_of_cons _ m ms), !ids_of_app. cbn. rewrite Hids. intros x.
    rewrite !elem_of_app. tauto.
  - destruct (worker_receive _ _ _ Hc Hr) as (_ & Hrep & Hm & Hreq). intros Hal i Hi.
    pose proof (Hall Hal i Hi) as H. unfold in_flight, requests, replies, y_shm in *. cbn in *.
    rewrite Hreq, Hrep. by destruct (contents _ (send_target h)).
  - intros Hal i Hi. pose proof (Hall Hal i Hi) as H.
    unfold in_flight, requests, replies, y_shm in *. cbn in *. by rewrite Hreq, Hrep.
Qed.

Lemma run_located s0 s :
  y_started s0 → rtc ystep s0 s → (Z.of_nat (length (futures (y_px s))) + 2 < two64)%Z → all_located s.
Proof.
  intros H0. revert s. refine (rtc_ind_r _ _ _ _); [intros _|intros s s1 Hr Hs IH Hlen].
  { destruct H0 as ((sv & name & plg & h' & pid & E) & _). intros _ i. unfold y_px. rewrite E. cbn. done. }
  pose proof (ystep_length _ _ Hs). destruct (run_linked _ _ H0 Hr) as (svc & _ & Hl & _); [lia|].
  eapply located_step; [done|done|]. apply IH. lia.
Qed.

(** ** Properties *)

(** C1. Every run of the system is a run of the service: for all interleavings
    of clients, listener, [stop], worker and environment (fewer than 2^64 - 2
    commands), the futures are the outcomes of a service that serves the
    clients' calls one at a time on the plugin, and while the worker lives its
    plugin is in the state the service's device is in. *)
Theorem pipeline_refines_service s0 s :
  y_started s0 → rtc ystep s0 s → (Z.of_nat (length (futures (y_px s))) + 2 < two64)%Z →
  ∃ svc, rtc sstep (init_service (plugin_ (y_worker s0))) svc ∧
    outcome svc = futures (y_px s) ∧
    (∀ i, calls svc !! i = called (y_hist s) !! i) ∧
    (y_alive s = true → device svc = plugin_ (y_worker s)).
Proof.
  intros H0 Hrun Hlen. destruct (run_linked _ _ H0 Hrun Hlen) as (svc & Hss & Hl & Hc).
  exists svc. split_and!; [done|apply (ln_outcome _ _ _ _ _ Hl)|done|].
  intros Hal. by destruct (ln_requests _ _ _ _ _ Hl Hal) as (_ & ? & _).
Qed.

(** C2. Nobody gets another call's answer: in every reachable state there is an
    order [ord] of the accepted calls, without repetitions, and a list [cs] of
    what the worker read for a prefix of them, such that every settled future
    holds the answer the plugin gives to its own command when it serves [cs] in
    that order, or an error. *)
Theorem futures_hold_own_answers s0 s :
  y_started s0 → rtc ystep s0 s → (Z.of_nat (length (futures (y_px s))) + 2 < two64)%Z →
  ∃ ord cs, NoDup ord ∧
    Forall2 (λ i c, ∃ cmd, called (y_hist s) !! i = Some cmd ∧ received cmd c)
      (take (length cs) ord) cs ∧
    (y_alive s = true → (serve (plugin_ (y_worker s0)) cs).2 = plugin_ (y_worker s)) ∧
    ∀ i resp, futures (y_px s) !! i = Some (Ready resp) →
      (∃ k r, ord !! k = Some i ∧ (serve (plugin_ (y_worker s0)) cs).1 !! k = Some r ∧
              delivered r resp) ∨
      resp_success resp = false.
Proof.
  intros H0 Hrun Hlen. destruct (run_linked _ _ H0 Hrun Hlen) as (svc & Hss & Hl & Hc).
  destruct (service_runs _ _ Hss) as [H1 (cs & H2 & HF) H3].
  exists (order svc), cs. rewrite H2. cbn [fst snd].
  assert (length cs = length (answers svc)) as -> by (by rewrite <-(serve_length (plugin_ (y_worker s0)) cs), H2).
  split_and!; [done| | |].
  - eapply Forall2_impl; [exact HF|]. intros i c. cbn. by rewrite Hc.
  - intros Hal. by destruct (ln_requests _ _ _ _ _ Hl Hal) as (_ & ? & _).
  - intros i resp Hi. apply H3. by rewrite (ln_outcome _ _ _ _ _ Hl).
Qed.

End Pipeline.

(** ** A concrete run: one command there and back *)

Section Turns.
#[local] Existing Instance SampleText.sample_text.
#[local] Existing Instance ListPosix.list_posix.
Context {P : Type}.
Context (plugin : P → PluginCommand → PluginResponse → Z * PluginResponse * P) (d : P).

Abbreviation SampleSys := (Sys (Q := ListQueue.listq) (W := ListPosix.world) (P := P)).
Abbreviation sample_ystep := (ystep plugin map_to_list sample_handle).

Definition SampleConc : Type := Conc ListQueue.listq ListPosix.world.

Definition proxy_turn (f : SampleConc → option SampleConc) (s : SampleSys) : SampleSys :=
  match f (y_conc s) with
  | Some c => mkSys c (y_worker s) (y_todo s) (y_at_receive s) (y_alive s)
                (record_proxy (y_conc s) c (y_hist s))
  | None => s
  end.

Definition number_turn (cmd : SerializedCommand) (c : SampleConc) : option SampleConc :=
  let '(p, (id, cmd, f)) := execute_number (c_px c) cmd in
  Some (mkConc (c_sv c) p (<[f := Numbered id cmd]> (c_clients c)) (c_listener c) (c_stop c)).

Definition file_turn (f : nat) (c : SampleConc) : option SampleConc :=
  match c_clients c !! f with
  | Some (Numbered id cmd) =>
      Some (mkConc (c_sv c) (execute_file (c_px c) id f) (<[f := Registered id cmd]> (c_clients c))
              (c_listener c) (c_stop c))
  | _ => None
  end.

Definition send_turn (f : nat) (c : SampleConc) : option SampleConc :=
  match c_clients c !! f with
  | Some (Registered id cmd) =>
      match execute_send (c_sv c) (c_px c) id cmd with
      | (sv, Ok b) =>
          Some (mkConc sv (c_px c) (<[f := SendDone id cmd b]> (c_clients c)) (c_listener c) (c_stop c))
      | _ => None
      end
  | _ => None
  end.

Definition listen_turn (c : SampleConc) : option SampleConc :=
  match c_listener c, listener_iteration 0 (c_sv c) (c_px c) with
  | true, Ok (Some (sv, p)) => Some (mkConc sv p (c_clients c) true (c_stop c))
  | _, _ => None
  end.

(** A round of the worker's loop that finds a message. *)
Definition worker_turn (s : SampleSys) : SampleSys :=
  match y_todo s, y_at_receive s, y_alive s, g_running (y_worker s) with
  | [], false, true, true =>
      let '(w, hb) := send_heartbeat_if_needed 0 (y_worker s) in
      match hb, receive (sv_shm (c_sv (y_conc s))) (peer sample_handle) with
      | [], (shm, Some m) =>
          match process_message plugin map_to_list 0 w m with
          | Ok (w, out) => mkSys (put_shm (y_conc s) shm) w out false true (y_hist s)
          | _ => s
          end
      | _, _ => s
      end
  | _, _, _, _ => s
  end.

Definition reply_turn (s : SampleSys) : SampleSys :=
  match y_todo s, y_alive s with
  | m :: td, true =>
      let '(shm, ok) := send (sv_shm (c_sv (y_conc s))) (peer sample_handle) m in
      mkSys (put_shm (y_conc s) shm) (y_worker s) td (y_at_receive s) true (record_send m ok (y_hist s))
  | _, _ => s
  end.

Definition sys_start : SampleSys :=
  mkSys sample_start (mkWorker "DAC1" None true 0 d) [] false true (mkHistory ∅ [] ∅).
Definition sys_sent : SampleSys :=
  proxy_turn (send_turn 0) (proxy_turn (file_turn 0) (proxy_turn (number_turn sample_command) sys_start)).
Definition sys_answered : SampleSys :=
  proxy_turn listen_turn (reply_turn (worker_turn sys_sent)).

Lemma sys_started : y_started sample_handle sys_start.
Proof.
  split; [apply sample_started|]. split_and!; try reflexivity. apply sample_connected.
Qed.

(** A turn is a run of the system. *)
Lemma proxy_turn_run f s :
  (∀ c c', f c = Some c' → pstep c c') → rtc sample_ystep s (proxy_turn f s).
Proof.
  intros Hf. unfold proxy_turn. destruct (f (y_conc s)) as [c|] eqn:E; [|done].
  apply rtc_once. destruct s, (Hf _ _ E) as [e He]. eexists. by apply (Y_proxy _ _ _ e).
Qed.

Lemma number_turn_step cmd c c' : number_turn cmd c = Some c' → pstep c c'.
Proof.
  unfold number_turn. destruct (execute_number (c_px c) cmd) as [p [[id cmd'] f]] eqn:E.
  intros [= <-]. destruct c. eexists. by eapply C_number.
Qed.

Lemma file_turn_step f c c' : file_turn f c = Some c' → pstep c c'.
Proof.
  unfold file_turn. destruct (c_clients c !! f) as [[id cmd| |]|] eqn:E; try done.
  intros [= <-]. destruct c. eexists. by eapply C_file.
Qed.

Lemma send_turn_step f c c' : send_turn f c = Some c' → pstep c c'.
Proof.
  unfold send_turn. destruct (c_clients c !! f) as [[|id cmd|]|] eqn:E; try done.
  destruct (execute_send (c_sv c) (c_px c) id cmd) as [sv [b| |]] eqn:Es; try done.
  intros [= <-]. destruct c. eexists. by eapply C_send.
Qed.

Lemma listen_turn_step c c' : listen_turn c = Some c' → pstep c c'.
Proof.
  unfold listen_turn. destruct c as [sv p cs l st]. cbn. destruct l; [|done].
  destruct (listener_iteration 0 sv p) as [[[sv' p']|]| |] eqn:E; try done.
  intros [= <-]. eexists. by eapply C_listen.
Qed.

Lemma worker_turn_run s : rtc sample_ystep s (worker_turn s).
Proof.
  destruct s as [c w td ar al hi]. unfold worker_turn. cbn [y_todo y_at_receive y_alive y_worker y_conc y_hist].
  destruct td; [|done]. destruct ar; [done|]. destruct al; [|done].
  destruct (g_running w) eqn:Hg; [|done].
  destruct (send_heartbeat_if_needed 0 w) as [w1 [|]] eqn:Hb; [|done].
  destruct (receive _ _) as [shm [m|]] eqn:Hr; [|done].
  destruct (process_message _ _ _ _ _) as [[w2 out]| |] eqn:Hp; try done.
  eapply rtc_l; [eexists; by eapply Y_heartbeat|]. apply rtc_once. eexists. by eapply Y_receive.
Qed.

Lemma reply_turn_run s : rtc sample_ystep s (reply_turn s).
Proof.
  destruct s as [c w td ar al hi]. unfold reply_turn. cbn [y_todo y_at_receive y_alive y_worker y_conc y_hist].
  destruct td as [|m td]; [done|]. destruct al; [|done]. destruct (send _ _ m) as [shm ok] eqn:E.
  apply rtc_once. eexists. by apply Y_send.
Qed.

Lemma sys_run_sent : rtc sample_ystep sys_start sys_sent.
Proof.
  etrans; [apply proxy_turn_run, number_turn_step|]. etrans; [apply proxy_turn_run, file_turn_step|].
  apply proxy_turn_run, send_turn_step.
Qed.

Lemma sys_run_answered : rtc sample_ystep sys_start sys_answered.
Proof.
  etrans; [apply sys_run_sent|]. etrans; [apply worker_turn_run|].
  etrans; [apply reply_turn_run|]. apply proxy_turn_run, listen_turn_step.
Qed.

End Turns.

Section Samples.
#[local] Existing Instance SampleText.sample_text.
#[local] Existing Instance ListPosix.list_posix.

Definition counted_start := sys_start 0.
Definition counted_answered := sys_answered counting_plugin 0.

Lemma pipeline_refines_service_witness :
  ∃ svc, rtc (sstep counting_plugin map_to_list) (init_service 0) svc ∧
    outcome svc = futures (y_px counted_answered) ∧
    (∀ i, calls svc !! i = called (y_hist counted_answered) !! i) ∧
    (y_alive counted_answered = true → device svc = plugin_ (y_worker counted_answered)).
Proof.
  apply (pipeline_refines_service counting_plugin map_to_list sample_handle counted_start counted_answered).
  - exact (sys_started 0).
  - exact (sys_run_answered counting_plugin 0).
  - vm_compute. reflexivity.
Defined.

Lemma futures_hold_own_answers_witness :
  (∃ resp, futures (y_px counted_answered) !! 0 = Some (Ready resp) ∧ resp_success resp = true) ∧
  ∃ ord cs, NoDup ord ∧
    Forall2 (λ i c, ∃ cmd, called (y_hist counted_answered) !! i = Some cmd ∧ received cmd c)
      (take (length cs) ord) cs ∧
    (y_alive counted_answered = true → (serve counting_plugin map_to_list 0 cs).2 = plugin_ (y_worker counted_answered)) ∧
    ∀ i resp, futures (y_px counted_answered) !! i = Some (Ready resp) →
      (∃ k r, ord !! k = Some i ∧ (serve counting_plugin map_to_list 0 cs).1 !! k = Some r ∧
              delivered r resp) ∨
      resp_success resp = false.
Proof.
  split; [eexists; vm_compute; split; reflexivity|].
  apply (futures_hold_own_answers counting_plugin map_to_list sample_handle counted_start counted_answered).
  - exact (sys_started 0).
  - exact (sys_run_answered counting_plugin 0).
  - vm_compute. reflexivity.
Defined.

End Samples.
