(* ===== verification/PipelineDrain.v ===== *)
(** * Progress of pipelined commands

    The system of Pipeline.v is never stuck on its own: from every reachable
    state in which the worker and the listener run, they can bring every call
    that is under way to its end, whatever the order the calls were made in.
    [weight] is the measure that bounds how long this takes. *)

From S2P Require Import Prelude Json SerializedCommand Ipc SyncCoordinator ProcessManager Plugin Worker Proxy Pipeline.
From Stdlib Require Import Lia.

#[local] Arguments ids_of : simpl never.
#[local] Arguments contents : simpl never.
#[local] Arguments commands : simpl never.

Section Drain.
Context `{JT : JsonText} `{MQ : MessageQueue Q} `{OS : Posix W}.
Context {P : Type}.
Context (plugin : P → PluginCommand → PluginResponse → Z * PluginResponse * P).
Context (iter : gmap string ParamValue → list (string * ParamValue)).
Context (h : SharedQueue).
Implicit Types (s : Sys (Q := Q) (W := W) (P := P)) (w : Worker P) (m : IPCMessage).

Abbreviation ysteps := (rtc (ystep plugin iter h)).

(** The worker at work and the listener handing out what it sends: no client, no
    [stop] and nothing else in the system takes part. *)
Definition works (a : actor) : Prop :=
  match a with Worker_works | Server_does (E_settled ByListener _) => True | _ => False end.

Definition wstep s s' : Prop := ∃ a, works a ∧ yact plugin iter h a s s'.

Abbreviation wsteps := (rtc wstep).

Lemma wsteps_ysteps s s' : wsteps s s' → ysteps s s'.
Proof. apply rtc_subrel. intros s1 s2 (a & _ & Ha). by exists a. Qed.

(** The listener can read [m]. *)
Definition reply_readable m : Prop :=
  msg_type m = RESPONSE → ∃ r, deserialize_response (payload_of m) = Ok r.

(** The worker can read [m], [m] does not end its loop, and whatever the plugin
    answers can be written, fits a message and can be read. *)
Definition request_readable m : Prop :=
  msg_type m ≠ SHUTDOWN ∧
  (msg_type m = COMMAND → ∀ now, ∃ c, deserialize_command now (payload_of m) = Ok c ∧
     ∀ d, ∃ text r, serialize_response (from_plugin_response (Worker.execute plugin iter d c).1) = Ok text ∧
       length (chars text) ≤ IPC_MAX_PAYLOAD ∧ deserialize_response text = Ok r).

(** Worker and listener run, and what is under way can be read. *)
Record draining s : Prop := {
  dr_alive : y_alive s = true;
  dr_running : g_running (y_worker s) = true;
  dr_waiting : waiting_sync_token_ (y_worker s) = None;
  dr_listener : c_listener (y_conc s) = true;
  dr_queue : ipc_queue_ (y_px s) = Some h;
  dr_conn : connected (y_shm s) h;
  dr_requests : Forall request_readable (requests h s);
  dr_replies : Forall reply_readable (y_todo s ++ replies h s)
}.

(** A command becomes at most two messages of the worker, a message of the
    worker a reply, and a reply at most one SYNC_CONTINUE. *)
Definition request_weight m : nat := if bool_decide (msg_type m = COMMAND) then 7 else 1.
Definition weight s : nat :=
  sum_list (request_weight <$> requests h s) + 3 * length (y_todo s) + 2 * length (replies h s).

(** What a turn of the system leaves alone. *)
Definition same_clients s s' : Prop :=
  c_clients (y_conc s') = c_clients (y_conc s) ∧ refused (y_hist s') = refused (y_hist s) ∧
  threw (y_hist s') = threw (y_hist s) ∧ length (futures (y_px s')) = length (futures (y_px s)).

#[local] Instance same_clients_preorder : PreOrder same_clients.
Proof. split; [done|]. intros s1 s2 s3 (?&?&?&?) (?&?&?&?). split_and!; congruence. Qed.

Lemma sum_weight_app l1 l2 :
  sum_list (request_weight <$> l1 ++ l2) =
  sum_list (request_weight <$> l1) + sum_list (request_weight <$> l2).
Proof. by rewrite fmap_app, sum_list_with_app. Qed.

(** One message that is no command added to the requests, or none. *)
Definition maybe_continue (l l' : list IPCMessage) : Prop :=
  l' = l ∨ ∃ m, l' = l ++ [m] ∧ msg_type m = SYNC_CONTINUE.

Lemma sync_ack_turn (sv : Server Q W) p m :
  ipc_queue_ p = Some h → connected (sv_shm sv) h →
  let sv' := handle_sync_ack_message sv p m in
  connected (sv_shm sv') h ∧
  contents (sv_shm sv') (recv_source h) = contents (sv_shm sv) (recv_source h) ∧
  maybe_continue (contents (sv_shm sv) (send_target h)) (contents (sv_shm sv') (send_target h)).
Proof.
  intros Hq Hc. cbn zeta. unfold handle_sync_ack_message, maybe_continue.
  destruct (handle_ack _ _ _) as [c []]; [|by auto]. unfold send_sync_continue.
  rewrite Hq, (connected_valid _ _ Hc). cbn [negb sv_shm with_coord with_shm].
  match goal with |- context [send _ h ?x] => destruct (send_requests h (sv_shm sv) x Hc) as (H1 & H2 & H3) end.
  split_and!; [done|done|]. rewrite H3. destruct (send _ _ _).2; [right; by eexists|left; by rewrite app_nil_r].
Qed.

(** The listener takes the oldest reply. *)
Lemma listener_turn (sv : Server Q W) p m rest :
  ipc_queue_ p = Some h → connected (sv_shm sv) h →
  contents (sv_shm sv) (recv_source h) = m :: rest → reply_readable m →
  ∃ sv' p', listener_iteration 0 sv p = Ok (Some (sv', p')) ∧ ipc_queue_ p' = Some h ∧
    connected (sv_shm sv') h ∧ contents (sv_shm sv') (recv_source h) = rest ∧
    maybe_continue (contents (sv_shm sv) (send_target h)) (contents (sv_shm sv') (send_target h)).
Proof.
  intros Hq Hc Hrep Hread. unfold listener_iteration. rewrite Hq, (connected_valid _ _ Hc). cbn [negb].
  destruct (receive_spec (sv_shm sv) h Hc) as (H1 & H2 & H3 & H4).
  destruct (receive (sv_shm sv) h) as [shm om]. cbn [fst snd] in *. rewrite Hrep in H3, H4. cbn in H3, H4. subst om.
  unfold handle_ipc_message.
  destruct (msg_type m) eqn:Ht; try (do 2 eexists; split_and!; [done..|by left]).
  - unfold handle_response_message. destruct (Hread Ht) as [r ->]. cbn.
    destruct (pending_responses_ p !! msg_id m); do 2 eexists; (split_and!; [done..|by left]).
  - destruct (sync_ack_turn (with_shm sv shm) p m Hq H1) as (E1 & E2 & E3). cbn [sv_shm with_shm] in *.
    do 2 eexists. split_and!; [done|done|done|congruence|by rewrite <-H2].
Qed.

Lemma maybe_continue_weight l l' :
  maybe_continue l l' →
  sum_list (request_weight <$> l') ≤ S (sum_list (request_weight <$> l)) ∧
  (Forall request_readable l → Forall request_readable l').
Proof.
  intros [->|(m & -> & Hm)]; [split; [lia|done]|]. rewrite sum_weight_app.
  assert (request_weight m = 1) as Hm1 by (unfold request_weight; by rewrite Hm).
  cbn. rewrite Hm1. split; [lia|]. intros Hl. apply Forall_app. split; [done|].
  constructor; [|done]. split; by rewrite Hm.
Qed.

Lemma turn_listen s m rest :
  draining s → replies h s = m :: rest →
  ∃ s', wstep s s' ∧ draining s' ∧ weight s' < weight s ∧ same_clients s s'.
Proof.
  intros [H1 H2 H3 H4 H5 H6 H7 H8] Hrep. pose proof H8 as H8'. rewrite Hrep in H8'.
  apply Forall_app in H8' as [Htd [Hm Hrest]%Forall_cons].
  destruct s as [[sv p cs l st] w td ar al hi]. unfold y_px, y_shm in *. cbn in *. subst l al.
  destruct (listener_turn sv p m rest H5 H6 Hrep Hm) as (sv' & p' & Hli & Hq' & Hc' & Hrep' & Hreq').
  destruct (maybe_continue_weight _ _ Hreq') as [Hw Hread].
  eexists. split_and!; [eexists; split; [|by eapply Y_proxy, C_listen]; done| | |].
  - split; try done; [by apply Hread|]. unfold replies, y_shm. cbn. rewrite Hrep'. by apply Forall_app.
  - unfold weight, requests, replies, y_shm in *. cbn in *. rewrite Hrep, Hrep'. cbn. lia.
  - split_and!; [done|done| |by eapply listener_length]. cbn. unfold unsent. cbn.
    assert (dom (omap (λ cl, match cl with Numbered _ cmd | Registered _ cmd => Some cmd | SendDone _ _ _ => None end) cs)
      ⊆ dom cs) as Hd by apply dom_omap_subseteq. set_solver.
Qed.

Lemma turn_send s m td :
  draining s → replies h s = [] → y_todo s = m :: td →
  ∃ s', wstep s s' ∧ draining s' ∧ weight s' < weight s ∧ same_clients s s'.
Proof.
  intros [H1 H2 H3 H4 H5 H6 H7 H8] Hrep Htd.
  destruct s as [c w td' ar al hi]. cbn in *. subst td' al.
  destruct (send (sv_shm (c_sv c)) (peer h) m) as [shm ok] eqn:E.
  pose proof (send_spec (sv_shm (c_sv c)) (peer h) m H6) as (_ & _ & Hok & _). rewrite E in Hok. cbn in Hok.
  destruct (worker_send h _ _ _ _ H6 E) as (Hc' & Hreq' & Hrep').
  unfold replies, requests, y_shm in *. cbn in *.
  rewrite peer_send_target, Hrep in Hok. rewrite bool_decide_eq_true_2 in Hok by (cbn; lia). subst ok. rewrite Hrep in Hrep'.
  eexists. split_and!; [eexists; split; [|by apply Y_send]; done| | |done].
  - split; try done; unfold requests, replies, y_shm; cbn; [by rewrite Hreq'|]. rewrite Hrep'.
    rewrite Hrep, app_nil_r in H8. apply Forall_cons in H8 as [? ?]. apply Forall_app. by repeat constructor.
  - unfold weight, requests, replies, y_shm. cbn. rewrite Hreq', Hrep', Hrep. cbn. lia.
Qed.

(** A round of the worker's loop: no heartbeat is due, a message is there. *)
Lemma turn_receive_idle s :
  draining s → y_todo s = [] →
  ∃ s', wsteps s s' ∧ draining s' ∧ y_todo s' = [] ∧ y_at_receive s' = true ∧
    weight s' = weight s ∧ same_clients s s' ∧ requests h s' = requests h s.
Proof.
  intros Hd Htd. destruct (y_at_receive s) eqn:Har; [by exists s|].
  destruct Hd as [H1 H2 H3 H4 H5 H6 H7 H8], s as [c w td ar al hi]. cbn in *. subst td al ar.
  assert (send_heartbeat_if_needed (last_heartbeat_ w) w = (w, [])) as Hb.
  { unfold send_heartbeat_if_needed. rewrite bool_decide_eq_false_2; [done|]. unfold HEARTBEAT_INTERVAL. lia. }
  exists (mkSys c w [] true true hi). split_and!; try done. apply rtc_once. eexists. split; [|by eapply Y_heartbeat]. done.
Qed.

(** The worker can run a readable command, and what it sends can be read. *)
Lemma process_readable w m :
  request_readable m → waiting_sync_token_ w = None → g_running w = true →
  ∃ w' out, process_message plugin iter 0 w m = Ok (w', out) ∧ g_running w' = true ∧
    waiting_sync_token_ w' = None ∧ Forall reply_readable out ∧ 3 * length out < request_weight m.
Proof.
  intros [Hns Hc] Hw Hg. unfold request_weight. destruct (decide (msg_type m = COMMAND)) as [Ht|Ht].
  - destruct (Hc Ht 0%Z) as (c & Hd & Hresp). destruct (Hresp (plugin_ w)) as (text & r & Hs & Hfit & Hr).
    assert (∃ w' acks m0, handle_command plugin iter 0 w m = Ok (w', set_payload m0 text :: acks) ∧
      g_running w' = g_running w ∧ length acks ≤ 1 ∧ Forall (λ a, msg_type a = SYNC_ACK) acks)
      as (w' & acks & m0 & Hh & Hg' & Hlen & Hacks).
    { unfold handle_command, deserialize_command_from_msg. rewrite Hd. cbn.
      destruct (Worker.execute plugin iter (plugin_ w) c) as [pr d']. cbn in Hs.
      unfold send_command_response. rewrite Hs. cbn.
      destruct (cmd_sync_token c); [destruct (cmd_is_sync_barrier c)|];
        (do 3 eexists; split_and!; [done|done|cbn; lia|repeat constructor]). }
    exists w', (set_payload m0 text :: acks). unfold process_message. rewrite Ht, Hw.
    rewrite bool_decide_eq_true_2 by done. split_and!; [done|congruence| | |cbn; lia].
    + by rewrite (handle_command_waiting _ _ _ _ _ _ _ Hh).
    + constructor; [intros _; exists r; by rewrite payload_fits|].
      eapply Forall_impl; [exact Hacks|]. intros a Ha. unfold reply_readable. by rewrite Ha.
  - rewrite bool_decide_eq_false_2 by done.
    exists (if bool_decide (msg_type m = SYNC_CONTINUE) then handle_sync_continue w m else w), [].
    unfold process_message, handle_sync_continue. rewrite Hw.
    destruct (msg_type m); try done; cbn; (split_and!; [done..|lia]).
Qed.

Lemma turn_receive s m rest :
  draining s → y_todo s = [] → replies h s = [] → requests h s = m :: rest →
  ∃ s', wsteps s s' ∧ draining s' ∧ weight s' < weight s ∧ same_clients s s'.
Proof.
  intros Hd Htd _ Hreq.
  destruct (turn_receive_idle s Hd Htd) as (s1 & Hs1 & Hd1 & Htd1 & Har1 & Hw1 & Hsame & Hreq1).
  rewrite <-Hw1. rewrite <-Hreq1 in Hreq. clear Hd Htd Hw1.
  destruct Hd1 as [H1 H2 H3 H4 H5 H6 H7 H8]. pose proof H7 as H7'. rewrite Hreq in H7'.
  apply Forall_cons in H7' as [Hm Hrest].
  destruct (process_readable _ m Hm H3 H2) as (w' & out & Hp & Hg' & Hw' & Hout & Hlen).
  destruct s1 as [c w td ar al hi]. cbn in *. subst td ar al.
  destruct (receive (sv_shm (c_sv c)) (peer h)) as [shm om] eqn:E.
  destruct (worker_receive h _ _ _ H6 E) as (Hc' & Hrep' & Hom & Hreq').
  unfold requests, replies, y_shm in *. cbn in *. rewrite Hreq in Hom, Hreq'. cbn in Hom, Hreq'. subst om.
  exists (mkSys (put_shm c shm) w' out false true hi). split_and!.
  - etrans; [exact Hs1|]. apply rtc_once. eexists. split; [|by eapply Y_receive]. done.
  - split; try done; unfold requests, replies, y_shm; cbn; [by rewrite Hreq'|]. rewrite Hrep'.
    by apply Forall_app.
  - unfold weight, requests, replies, y_shm. cbn. rewrite Hreq', Hrep', Hreq. cbn in *. lia.
  - by etrans; [exact Hsame|].
Qed.

Lemma drain_all s :
  draining s →
  ∃ s', wsteps s s' ∧ draining s' ∧ same_clients s s' ∧
    requests h s' = [] ∧ replies h s' = [] ∧ y_todo s' = [].
Proof.
  induction s as [s IH] using (induction_ltof1 _ weight). unfold ltof in IH. intros Hd.
  assert (∀ s1, wsteps s s1 → draining s1 → weight s1 < weight s → same_clients s s1 →
    ∃ s', wsteps s s' ∧ draining s' ∧ same_clients s s' ∧
      requests h s' = [] ∧ replies h s' = [] ∧ y_todo s' = []) as Hnext.
  { intros s1 Hs Hd1 Hw Hsame. destruct (IH s1 Hw Hd1) as (s' & Hs' & Hd' & Hsame' & Hend).
    exists s'. split; [by etrans|]. split; [done|]. split; [by etrans|done]. }
  destruct (replies h s) as [|m rest] eqn:Hrep.
  2: { destruct (turn_listen s m rest Hd Hrep) as (s1 & Hs & ?). apply (Hnext s1); [by apply rtc_once|naive_solver..]. }
  destruct (y_todo s) as [|m td] eqn:Htd.
  2: { destruct (turn_send s m td Hd Hrep Htd) as (s1 & Hs & ?). apply (Hnext s1); [by apply rtc_once|naive_solver..]. }
  destruct (requests h s) as [|m rest] eqn:Hreq; [by exists s|].
  destruct (turn_receive s m rest Hd Htd Hrep Hreq) as (s1 & Hs & Hd1 & Hw & Hsame).
  by apply (Hnext s1).
Qed.

(** ** Properties *)


End Drain.

(** ** A concrete run: a command under way is brought to its end *)

Section Samples.
#[local] Existing Instance SampleText.sample_text.
#[local] Existing Instance ListPosix.list_posix.

Definition counted_sent := sys_sent 0.

Definition sent_message : IPCMessage := default new_message (head (requests sample_handle counted_sent)).

Definition sent_command (now : Z) : SerializedCommand :=
  match deserialize_command now (payload_of sent_message) with Ok c => c | _ => default_command end.

Definition sent_answer : string :=
  match serialize_response (from_plugin_response
          (Worker.execute counting_plugin map_to_list 0 (sent_command 0)).1) with
  | Ok text => text
  | _ => EmptyString
  end.

Lemma sys_sent_draining : draining counting_plugin map_to_list sample_handle counted_sent.
Proof.
  split; [vm_compute; reflexivity..| | |].
  - destruct (run_linked _ _ _ _ _ (sys_started 0) (sys_run_sent counting_plugin 0)) as (svc & _ & Hl & _); [vm_compute; reflexivity|].
    apply (ln_conn _ _ _ _ _ _ Hl).
  - assert (requests sample_handle counted_sent = [sent_message]) as -> by (vm_compute; reflexivity).
    constructor; [|done]. split; [vm_compute; discriminate|]. intros _ now.
    exists (sent_command now). split; [vm_compute; reflexivity|]. intros d.
    exists sent_answer, (match deserialize_response sent_answer with Ok r => r | _ => default_response end).
    split_and!; [vm_compute; reflexivity|apply (bool_decide_unpack _); vm_compute; exact I|vm_compute; reflexivity].
  - assert (y_todo counted_sent ++ replies sample_handle counted_sent = []) as -> by (vm_compute; reflexivity). done.
Qed.


End Samples.
