(* ===== verification/DataBuffer.v ===== *)
(** * Data buffers

    Model of [DataBuffer] and [DataBufferManager]
    (src/src/ipc/DataBufferManager.cpp) and of the C interface over them.  A
    [std::shared_ptr<DataBuffer>] is a number into [objects], which holds each
    buffer with its use count; the object is destroyed when the count reaches
    zero.  [handles] counts the pointers that callers of [get_buffer] still
    hold; it is not part of the program but of the claims about it, as is
    [life], what the calls on one buffer make of it. *)

From S2P Require Import Prelude Plugin.
From Stdlib Require Import Lia.

(** [enum class DataType : uint8_t]; a cast may give any other value. *)
Inductive DataType := FLOAT32 | FLOAT64 | INT32 | INT64 | UINT32 | UINT64 | UINT8 | OtherType (n : Z).

#[export] Instance DataType_eq_dec : EqDecision DataType.
Proof. solve_decision. Defined.

(** [static_cast<DataType>(uint8_t)] *)
Definition data_type_of (n : Z) : DataType :=
  if bool_decide (n = 0%Z) then FLOAT32 else if bool_decide (n = 1%Z) then FLOAT64
  else if bool_decide (n = 2%Z) then INT32 else if bool_decide (n = 3%Z) then INT64
  else if bool_decide (n = 4%Z) then UINT32 else if bool_decide (n = 5%Z) then UINT64
  else if bool_decide (n = 6%Z) then UINT8 else OtherType n.

Definition data_type_to_string (t : DataType) : string :=
  match t with
  | FLOAT32 => "float32" | FLOAT64 => "float64" | INT32 => "int32" | INT64 => "int64"
  | UINT32 => "uint32" | UINT64 => "uint64" | UINT8 => "uint8" | OtherType _ => "unknown"
  end.

Definition data_type_size (t : DataType) : Z :=
  match t with
  | FLOAT32 => 4 | FLOAT64 => 8 | INT32 | UINT32 => 4 | INT64 | UINT64 => 8 | UINT8 => 1
  | OtherType _ => 0
  end.

Record DataBufferMetadata := mkMetadata {
  meta_buffer_id : string;
  meta_instrument_name : string;
  meta_command_id : string;
  meta_data_type : DataType;
  meta_element_count : Z;
  meta_byte_size : Z;
  meta_timestamp_ms : Z
}.

(** [data_] is the allocated block. *)
Record DataBuffer := mkDataBuffer {
  buffer_id_ : string;
  data_ : list ascii;
  byte_size_ : Z;
  element_count_ : Z;
  data_type_ : DataType
}.

Record BufferEntry := mkEntry {
  entry_buffer : positive;
  entry_metadata : DataBufferMetadata;
  ref_count : Z   (* uint32_t *)
}.

Record DataBufferManager := mkManager {
  buffers_ : gmap string BufferEntry;
  next_buffer_id_ : Z;
  objects : gmap positive (DataBuffer * nat);
  next_object : positive;
  handles : gmap positive nat
}.

Definition new_manager : DataBufferManager := mkManager ∅ 1 ∅ 1 ∅.

Implicit Types (mg : DataBufferManager) (o : positive) (id : string).

(** ** Reading a buffer *)

(** [as_float32], ..., [as_uint8]: the block if the type is the one asked for. *)
Definition as_type (t : DataType) (b : DataBuffer) : option (list ascii) :=
  if bool_decide (data_type_ b = t) then Some (data_ b) else None.

(** Element [i] of an array of [t] in a block; outside the block, undefined. *)
Definition element (t : DataType) (block : list ascii) (i : nat) : res (list ascii) :=
  let sz := Z.to_nat (data_type_size t) in
  if bool_decide (i * sz + sz ≤ length block) then Ok (take sz (drop (i * sz) block)) else Undef.

(** Little-endian integers. *)
Fixpoint le_value (bytes : list ascii) : Z :=
  match bytes with
  | [] => 0
  | c :: bytes => Z.of_N (N_of_ascii c) + 256 * le_value bytes
  end.

(** How [operator<<] writes an element; [show_float] is its rendering of a
    floating-point value given its bytes. *)
Definition show_element (show_float : DataType → list ascii → string) (t : DataType)
  (bytes : list ascii) : string :=
  match t with
  | FLOAT32 | FLOAT64 => show_float t bytes
  | INT32 => dec (sint32 (le_value bytes))
  | INT64 => dec (sint64 (le_value bytes))
  | _ => dec (le_value bytes)
  end.

(** The lines written by [export_to_csv], if the file opens; [None]: the
    function returns [false] for the type. *)
Definition export_to_csv (show_float : DataType → list ascii → string) (b : DataBuffer)
  : res (option (list string)) :=
  match data_type_ b with
  | OtherType _ => Ok None
  | t => lines ← res_map (λ i, e ← element t (data_ b) i; Ok (show_element show_float t e))
                   (seq 0 (Z.to_nat (element_count_ b)));
         Ok (Some lines)
  end.

(** The bytes written by [export_to_file]. *)
Definition export_to_file (b : DataBuffer) : res (list ascii) :=
  if bool_decide (Z.to_nat (byte_size_ b) ≤ length (data_ b))
  then Ok (take (Z.to_nat (byte_size_ b)) (data_ b)) else Undef.

(** ** Shared pointers *)

Definition add_ref (objs : gmap positive (DataBuffer * nat)) o : gmap positive (DataBuffer * nat) :=
  alter (λ bn, (bn.1, S bn.2)) o objs.

(** Dropping the last pointer destroys the buffer. *)
Definition drop_ref (objs : gmap positive (DataBuffer * nat)) o : gmap positive (DataBuffer * nat) :=
  match objs !! o with
  | Some (b, S (S n)) => <[o := (b, S n)]> objs
  | Some (b, _) => delete o objs
  | None => objs
  end.

(** ** The manager *)

Definition generate_buffer_id (ms : Z) mg : DataBufferManager * string :=
  (mkManager (buffers_ mg) (wrap64 (next_buffer_id_ mg + 1)) (objects mg) (next_object mg) (handles mg),
   "buffer_" +:+ dec ms +:+ "_" +:+ dec (next_buffer_id_ mg)).

(** [malloc_ok]: whether the allocation succeeds; [data]: the bytes readable at
    the caller's pointer, if it is not null. *)
Definition create_buffer (ms : Z) (malloc_ok : bool) mg (instrument_name command_id : string)
  (t : DataType) (element_count : Z) (data : option (list ascii))
  : res (DataBufferManager * string) :=
  let element_size := data_type_size t in
  if bool_decide (element_size = 0%Z) then Ok (mg, EmptyString)
  else
    let byte_size := wrap64 (element_count * element_size) in
    if negb malloc_ok then Ok (mg, EmptyString)
    else
      block ← match data with
              | Some bytes =>
                  if bool_decide (byte_size ≤ Z.of_nat (length bytes))%Z
                  then Ok (take (Z.to_nat byte_size) bytes) else Undef
              | None => Ok (replicate (Z.to_nat byte_size) "000"%char)
              end;
      let '(mg, id) := generate_buffer_id ms mg in
      let b := mkDataBuffer id block byte_size element_count t in
      let meta := mkMetadata id instrument_name command_id t element_count byte_size ms in
      let o := next_object mg in
      match buffers_ mg !! id with
      | None =>
          Ok (mkManager (<[id := mkEntry o meta 1]> (buffers_ mg)) (next_buffer_id_ mg)
                (<[o := (b, 1)]> (objects mg)) (Pos.succ o) (handles mg), id)
      | Some _ =>   (* [try_emplace] keeps the old entry; the new buffer is dropped *)
          Ok (mkManager (buffers_ mg) (next_buffer_id_ mg) (objects mg) (Pos.succ o) (handles mg), id)
      end.

Definition create_buffer_with_metadata (ms : Z) (malloc_ok : bool) mg (m : DataBufferMetadata)
  (data : option (list ascii)) : res (DataBufferManager * string) :=
  create_buffer ms malloc_ok mg (meta_instrument_name m) (meta_command_id m) (meta_data_type m)
    (meta_element_count m) data.

Definition get_buffer mg id : DataBufferManager * option positive :=
  match buffers_ mg !! id with
  | None => (mg, None)
  | Some e =>
      (mkManager (<[id := mkEntry (entry_buffer e) (entry_metadata e) (wrap32 (ref_count e + 1))]> (buffers_ mg))
         (next_buffer_id_ mg) (add_ref (objects mg) (entry_buffer e)) (next_object mg)
         (<[entry_buffer e := S (default 0 (handles mg !! entry_buffer e))]> (handles mg)),
       Some (entry_buffer e))
  end.

Definition get_metadata mg id : option DataBufferMetadata := entry_metadata <$> buffers_ mg !! id.

Definition release_buffer mg id : DataBufferManager :=
  match buffers_ mg !! id with
  | None => mg
  | Some e =>
      let n := wrap32 (ref_count e - 1) in
      if bool_decide (n = 0%Z) then
        mkManager (delete id (buffers_ mg)) (next_buffer_id_ mg)
          (drop_ref (objects mg) (entry_buffer e)) (next_object mg) (handles mg)
      else
        mkManager (<[id := mkEntry (entry_buffer e) (entry_metadata e) n]> (buffers_ mg))
          (next_buffer_id_ mg) (objects mg) (next_object mg) (handles mg)
  end.

Definition list_buffers mg : list string := (map_to_list (buffers_ mg)).*1.

(** [kvs] is the iteration order of the map. *)
Definition total_over (kvs : list (string * BufferEntry)) : Z :=
  foldl (λ total kv, wrap64 (total + meta_byte_size (entry_metadata kv.2))) 0%Z kvs.
Definition total_memory_usage mg : Z := total_over (map_to_list (buffers_ mg)).

Definition clear_all mg : DataBufferManager :=
  mkManager ∅ (next_buffer_id_ mg)
    (foldl (λ objs kv, drop_ref objs (entry_buffer kv.2)) (objects mg) (map_to_list (buffers_ mg)))
    (next_object mg) (handles mg).

(** A caller lets go of a pointer it got from [get_buffer]. *)
Definition drop_handle mg o : DataBufferManager :=
  match handles mg !! o with
  | Some (S n) =>
      mkManager (buffers_ mg) (next_buffer_id_ mg) (drop_ref (objects mg) o) (next_object mg)
        (<[o := n]> (handles mg))
  | _ => mg
  end.

(** ** The C interface *)

(** Null pointers are [None]; the result code and the bytes put into
    [buffer_id_out] (127 at most, then a zero byte). *)
Definition data_buffer_create (ms : Z) (malloc_ok : bool) mg (instrument_name command_id : option string)
  (data_type : Z) (element_count : Z) (data : option (list ascii)) (out_ok : bool)
  : res (DataBufferManager * (Z * option string)) :=
  match instrument_name, command_id with
  | Some i, Some c =>
      if negb out_ok then Ok (mg, ((-1)%Z, None))
      else
        r ← create_buffer ms malloc_ok mg i c (data_type_of data_type) element_count data;
        let '(mg, id) := r in
        if empty? id then Ok (mg, ((-1)%Z, None)) else Ok (mg, (0%Z, Some (strncpy 127 id)))
  | _, _ => Ok (mg, ((-1)%Z, None))
  end.

Definition data_buffer_total_memory mg : Z := total_memory_usage mg.

(** ** Use counts *)

(** [objs] holds each object that has owners, with their number. *)
Definition counts (objs : gmap positive (DataBuffer * nat)) (owners : positive → nat) : Prop :=
  ∀ o, match objs !! o with Some (_, n) => n = owners o ∧ 0 < n | None => owners o = 0 end.

Definition one_if (P : Prop) `{Decision P} : nat := if decide P then 1 else 0.

Lemma counts_ext objs f g : (∀ o, f o = g o) → counts objs f → counts objs g.
Proof. intros Hfg H o. rewrite <-Hfg. apply H. Qed.

Lemma add_ref_counts objs f o :
  counts objs f → 0 < f o → counts (add_ref objs o) (λ o', f o' + one_if (o' = o)).
Proof.
  intros H Ho o'. unfold add_ref, one_if. pose proof (H o') as Ho'.
  destruct (decide (o' = o)) as [->|Hne].
  - rewrite lookup_alter_eq. destruct (objs !! o) as [[b n]|]; cbn; lia.
  - rewrite lookup_alter_ne by done. destruct (objs !! o') as [[b n]|]; lia.
Qed.

Lemma drop_ref_counts objs f o :
  counts objs f → 0 < f o → counts (drop_ref objs o) (λ o', f o' - one_if (o' = o)).
Proof.
  intros H Ho o'. unfold drop_ref, one_if. pose proof (H o) as Hso. pose proof (H o') as Ho'.
  destruct (objs !! o) as [[b [|[|n]]]|] eqn:E; [lia| | |lia].
  - destruct (decide (o' = o)) as [->|Hne].
    + rewrite lookup_delete_eq. lia.
    + rewrite lookup_delete_ne by done. destruct (objs !! o') as [[? ?]|]; lia.
  - destruct (decide (o' = o)) as [->|Hne].
    + rewrite lookup_insert_eq. lia.
    + rewrite lookup_insert_ne by done. destruct (objs !! o') as [[? ?]|]; lia.
Qed.

Lemma counts_insert objs f o b :
  counts objs f → f o = 0 → counts (<[o := (b, 1)]> objs) (λ o', f o' + one_if (o' = o)).
Proof.
  intros H Ho o'. unfold one_if. pose proof (H o') as Ho'. destruct (decide (o' = o)) as [->|Hne].
  - rewrite lookup_insert_eq. lia.
  - rewrite lookup_insert_ne by done. destruct (objs !! o') as [[? ?]|]; lia.
Qed.

(** Entries that point to an object. *)
Definition pointing (kvs : list (string * BufferEntry)) o : nat :=
  length (filter (λ kv, entry_buffer kv.2 = o) kvs).

#[export] Instance pointing_proper : Proper ((≡ₚ) ==> (=) ==> (=)) pointing.
Proof. intros l l' Hl o _ <-. unfold pointing. by rewrite Hl. Qed.

Lemma pointing_cons kv kvs o : pointing (kv :: kvs) o = one_if (o = entry_buffer kv.2) + pointing kvs o.
Proof.
  unfold pointing, one_if. rewrite filter_cons. by repeat case_decide; cbn; try congruence.
Qed.

Lemma drop_all_counts kvs objs k :
  counts objs (λ o, pointing kvs o + k o) →
  counts (foldl (λ objs kv, drop_ref objs (entry_buffer kv.2)) objs kvs) k.
Proof.
  revert objs. induction kvs as [|kv kvs IH]; intros objs H; cbn; [done|].
  apply IH. eapply counts_ext; [|apply drop_ref_counts; [exact H|]].
  - intros o. cbn beta. rewrite pointing_cons. lia.
  - cbn beta. rewrite pointing_cons. unfold one_if. rewrite decide_True by done. lia.
Qed.

Definition owners mg o : nat :=
  pointing (map_to_list (buffers_ mg)) o + default 0 (handles mg !! o).

(** ** Invariant *)

Definition buffer_name (ms k : Z) : string := "buffer_" +:+ dec ms +:+ "_" +:+ dec k.

Record mg_inv mg : Prop := {
  inv_counts : counts (objects mg) (owners mg);
  inv_fresh o : is_Some (objects mg !! o) → (o < next_object mg)%positive;
  inv_ids id : is_Some (buffers_ mg !! id) →
    ∃ ms k, (0 ≤ ms)%Z ∧ (0 ≤ k < next_buffer_id_ mg)%Z ∧ id = buffer_name ms k
}.

Lemma new_manager_inv : mg_inv new_manager.
Proof. split; cbn; [intros o; done|by intros o [? ?]|by intros id [? ?]]. Qed.

Lemma owner_alive mg o : mg_inv mg → 0 < owners mg o → is_Some (objects mg !! o).
Proof. intros [H _ _] Ho. specialize (H o). destruct (objects mg !! o); [by eexists|lia]. Qed.

Lemma entry_owner mg id e :
  buffers_ mg !! id = Some e → 0 < owners mg (entry_buffer e).
Proof.
  intros He. unfold owners. rewrite <-(map_to_list_delete _ _ _ He). rewrite pointing_cons.
  unfold one_if. rewrite decide_True by done. lia.
Qed.

Lemma buffer_name_fresh mg ms :
  mg_inv mg → (0 ≤ ms)%Z → buffers_ mg !! buffer_name ms (next_buffer_id_ mg) = None.
Proof.
  intros Hinv Hms. destruct (buffers_ mg !! _) as [e|] eqn:E; [|done].
  destruct (inv_ids mg Hinv _ (ex_intro _ e E)) as (ms' & k & H1 & H2 & H3).
  apply (stamped_id_inj "buffer_" "_"%char) in H3 as [_ ?]; [lia|by right|done|done].
Qed.

Lemma entries_replace (m : gmap string BufferEntry) id e e' o :
  m !! id = Some e → entry_buffer e' = entry_buffer e →
  pointing (map_to_list (<[id := e']> m)) o = pointing (map_to_list m) o.
Proof.
  intros He Hb. rewrite <-insert_delete_eq, map_to_list_insert by apply lookup_delete_eq.
  rewrite <-(map_to_list_delete m id e He), !pointing_cons. cbn. by rewrite Hb.
Qed.

(** ** Calls *)

Inductive buf_call :=
| CreateBuffer (ms : Z) (malloc_ok : bool) (instrument command : string) (t : DataType) (n : Z)
    (data : option (list ascii))
| GetBuffer (id : string)
| ReleaseBuffer (id : string)
| ClearAll
| DropHandle (o : positive).

Definition buf_step mg (c : buf_call) : res DataBufferManager :=
  match c with
  | CreateBuffer ms ok i c t n data => r ← create_buffer ms ok mg i c t n data; Ok r.1
  | GetBuffer id => Ok (get_buffer mg id).1
  | ReleaseBuffer id => Ok (release_buffer mg id)
  | ClearAll => Ok (clear_all mg)
  | DropHandle o => Ok (drop_handle mg o)
  end.

Definition buf_run (cs : list buf_call) : res DataBufferManager := res_foldl buf_step new_manager cs.

(** Clocks after 1970. *)
Definition call_ok (c : buf_call) : Prop :=
  match c with CreateBuffer ms _ _ _ _ _ _ => (0 ≤ ms)%Z | _ => True end.

(** What a successful creation does. *)
Lemma create_buffer_spec ms ok mg i c t n data mg' id :
  mg_inv mg → (0 ≤ ms)%Z → create_buffer ms ok mg i c t n data = Ok (mg', id) →
  (mg' = mg ∧ id = EmptyString ∧ (data_type_size t = 0%Z ∨ ok = false)) ∨
  (data_type_size t ≠ 0%Z ∧ ok = true ∧
   let size := wrap64 (n * data_type_size t) in
   ∃ block, id = buffer_name ms (next_buffer_id_ mg) ∧
     (match data with
      | Some bytes => (size ≤ Z.of_nat (length bytes))%Z ∧ block = take (Z.to_nat size) bytes
      | None => block = replicate (Z.to_nat size) "000"%char end) ∧
     mg' = mkManager
       (<[id := mkEntry (next_object mg) (mkMetadata id i c t n size ms) 1]> (buffers_ mg))
       (wrap64 (next_buffer_id_ mg + 1))
       (<[next_object mg := (mkDataBuffer id block size n t, 1)]> (objects mg))
       (Pos.succ (next_object mg)) (handles mg)).
Proof.
  intros Hinv Hms. unfold create_buffer. case_bool_decide as Hsz.
  { intros [= <- <-]. left. tauto. }
  destruct ok; cbn; [|intros [= <- <-]; left; tauto].
  fold (buffer_name ms (next_buffer_id_ mg)). intros H. right. split_and!; [done|done|].
  assert (∃ block, (match data with
      | Some bytes => (wrap64 (n * data_type_size t) ≤ Z.of_nat (length bytes))%Z ∧
                      block = take (Z.to_nat (wrap64 (n * data_type_size t))) bytes
      | None => block = replicate (Z.to_nat (wrap64 (n * data_type_size t))) "000"%char end) ∧
      (match data with
      | Some bytes => if bool_decide (wrap64 (n * data_type_size t) ≤ Z.of_nat (length bytes))%Z
                      then Ok (take (Z.to_nat (wrap64 (n * data_type_size t))) bytes) else Undef
      | None => Ok (replicate (Z.to_nat (wrap64 (n * data_type_size t))) "000"%char)
      end = Ok block)) as (block & Hb & E).
  { destruct data as [bytes|]; [|by eexists]. case_bool_decide; [by eexists|done]. }
  exists block. rewrite E in H. cbn in H.
  rewrite buffer_name_fresh in H by done. by simplify_eq.
Qed.

Lemma owners_insert mg id o e k obj nx h :
  buffers_ mg !! id = None →
  owners (mkManager (<[id := e]> (buffers_ mg)) k obj nx h) o =
  one_if (o = entry_buffer e) + pointing (map_to_list (buffers_ mg)) o + default 0 (h !! o).
Proof.
  intros Hid. unfold owners. cbn [buffers_ handles]. rewrite map_to_list_insert by done.
  by rewrite pointing_cons.
Qed.

Lemma create_buffer_inv ms ok mg i c t n data mg' id :
  mg_inv mg → (0 ≤ ms)%Z → (0 ≤ next_buffer_id_ mg)%Z → (next_buffer_id_ mg + 1 < two64)%Z →
  create_buffer ms ok mg i c t n data = Ok (mg', id) → mg_inv mg'.
Proof.
  intros Hinv Hms H0 Hlt H.
  destruct (create_buffer_spec _ _ _ _ _ _ _ _ _ _ Hinv Hms H) as
    [(-> & _)|(_ & _ & block & Hid & _ & ->)]; [done|].
  pose proof (buffer_name_fresh mg ms Hinv Hms) as Hfresh. rewrite <-Hid in Hfresh.
  destruct Hinv as [Hc Hf Hi].
  assert (owners mg (next_object mg) = 0) as Hz.
  { specialize (Hc (next_object mg)). destruct (objects mg !! next_object mg) as [[? ?]|] eqn:E; [|done].
    pose proof (Hf (next_object mg) ltac:(by eexists)). lia. }
  split; cbn.
  - eapply counts_ext; [|apply counts_insert; [exact Hc|exact Hz]].
    intros o. rewrite owners_insert by done. cbn. unfold owners. lia.
  - intros o. rewrite lookup_insert. case_decide; [intros _; lia|]. intros ?%Hf. lia.
  - rewrite (wrap64_id (next_buffer_id_ mg + 1)) by (unfold is_u64; lia).
    intros j. rewrite lookup_insert. case_decide as Hj.
    + intros _. exists ms, (next_buffer_id_ mg). split_and!; [done|lia..|congruence].
    + intros (ms' & k & ? & ? & ?)%Hi. exists ms', k. split_and!; [done|lia..|done].
Qed.

Lemma owners_get mg id e o :
  buffers_ mg !! id = Some e →
  owners (get_buffer mg id).1 o = owners mg o + one_if (o = entry_buffer e).
Proof.
  intros He. unfold get_buffer. rewrite He. unfold owners. cbn [fst buffers_ handles].
  rewrite (entries_replace _ id e) by done. unfold one_if. destruct (decide (o = entry_buffer e)) as [->|].
  - rewrite lookup_insert_eq. destruct (handles mg !! entry_buffer e); cbn; lia.
  - rewrite lookup_insert_ne by done. lia.
Qed.

Lemma get_inv mg id : mg_inv mg → mg_inv (get_buffer mg id).1.
Proof.
  intros Hinv. destruct (buffers_ mg !! id) as [e|] eqn:He.
  2: { unfold get_buffer. by rewrite He. }
  pose proof (owners_get mg id e) as Hown. pose proof (entry_owner mg id e He) as Ho.
  destruct Hinv as [Hc Hf Hi]. split.
  - unfold get_buffer in *. rewrite He in *. cbn [fst objects] in *.
    eapply counts_ext; [|apply add_ref_counts; [exact Hc|exact Ho]].
    intros o. cbn beta. by rewrite Hown.
  - unfold get_buffer. rewrite He. cbn. intros o. unfold add_ref. rewrite lookup_alter_is_Some. apply Hf.
  - unfold get_buffer. rewrite He. cbn. intros j. rewrite lookup_insert.
    case_decide; subst; [intros _; apply Hi; by eexists|apply Hi].
Qed.

Lemma drop_ref_subset objs o o' : is_Some (drop_ref objs o !! o') → is_Some (objs !! o').
Proof.
  unfold drop_ref. destruct (objs !! o) as [[b [|[|n]]]|] eqn:E; try done.
  1,2: by intros [? [_ ?]%lookup_delete_Some]; eexists.
  rewrite lookup_insert. case_decide; subst; [by eexists|done].
Qed.

Lemma release_inv mg id : mg_inv mg → mg_inv (release_buffer mg id).
Proof.
  intros Hinv. unfold release_buffer. destruct (buffers_ mg !! id) as [e|] eqn:He; [|done].
  pose proof (entry_owner mg id e He) as Ho. destruct Hinv as [Hc Hf Hi].
  case_bool_decide; split; cbn.
  - eapply counts_ext; [|apply drop_ref_counts; [exact Hc|exact Ho]].
    intros o. cbn beta. unfold owners. cbn [buffers_ handles].
    rewrite <-(map_to_list_delete (buffers_ mg) id e He) at 1. rewrite pointing_cons. cbn. lia.
  - intros o Hs%drop_ref_subset. by apply Hf.
  - intros j [x [_ Hx]%lookup_delete_Some]. apply Hi. by eexists.
  - eapply counts_ext; [|exact Hc]. intros o. unfold owners. cbn [buffers_ handles].
    by rewrite (entries_replace _ id e).
  - done.
  - intros j. rewrite lookup_insert. case_decide; subst; [intros _; apply Hi; by eexists|apply Hi].
Qed.

Lemma clear_inv mg : mg_inv mg → mg_inv (clear_all mg).
Proof.
  intros [Hc Hf Hi]. split; cbn.
  - eapply counts_ext; [|apply drop_all_counts; exact Hc].
    intros o. unfold owners. cbn. by rewrite map_to_list_empty.
  - intros o Hs. apply Hf. clear -Hs. revert Hs. generalize (objects mg).
    induction (map_to_list (buffers_ mg)) as [|kv kvs IH]; intros objs Hs; cbn in *; [done|].
    by eapply drop_ref_subset, IH.
  - by intros id [? ?].
Qed.

Lemma drop_handle_inv mg o : mg_inv mg → mg_inv (drop_handle mg o).
Proof.
  intros Hinv. unfold drop_handle. destruct (handles mg !! o) as [[|n]|] eqn:Hh; try done.
  destruct Hinv as [Hc Hf Hi]. split; cbn.
  - eapply counts_ext; [|apply drop_ref_counts; [exact Hc|unfold owners; rewrite Hh; cbn; lia]].
    intros o'. cbn beta. unfold owners, one_if. cbn [buffers_ handles]. rewrite lookup_insert.
    repeat case_decide; subst; rewrite ?Hh; cbn; try congruence; lia.
  - intros o' Hs%drop_ref_subset. by apply Hf.
  - done.
Qed.

Lemma next_id_step mg c mg' :
  buf_step mg c = Ok mg' → (0 ≤ next_buffer_id_ mg)%Z → (next_buffer_id_ mg + 1 < two64)%Z →
  (0 ≤ next_buffer_id_ mg' ≤ next_buffer_id_ mg + 1)%Z.
Proof.
  intros H H0 H1. destruct c; cbn in H; simplify_eq/=.
  - destruct (create_buffer _ _ _ _ _ _ _ _) as [[mg1 id]| |] eqn:E; simplify_eq/=.
    unfold create_buffer, generate_buffer_id in E. revert E.
    repeat (case_bool_decide || case_match); cbn; intros E; simplify_eq/=;
      rewrite ?wrap64_id by (unfold is_u64; lia); lia.
  - unfold get_buffer. case_match; cbn; lia.
  - unfold release_buffer. case_match; [case_bool_decide|]; cbn; lia.
  - lia.
  - unfold drop_handle. repeat case_match; cbn; lia.
Qed.

Lemma step_inv mg c mg' :
  buf_step mg c = Ok mg' → call_ok c → mg_inv mg →
  (0 ≤ next_buffer_id_ mg)%Z → (next_buffer_id_ mg + 1 < two64)%Z → mg_inv mg'.
Proof.
  intros H Hok Hinv H0 H1. destruct c; cbn in H; simplify_eq/=.
  - destruct (create_buffer _ _ _ _ _ _ _ _) as [[mg1 id]| |] eqn:E; simplify_eq/=.
    by apply (create_buffer_inv _ _ _ _ _ _ _ _ _ _ Hinv Hok H0 H1 E).
  - by apply get_inv.
  - by apply release_inv.
  - by apply clear_inv.
  - by apply drop_handle_inv.
Qed.

Lemma run_inv_next cs mg mg' :
  res_foldl buf_step mg cs = Ok mg' → Forall call_ok cs → mg_inv mg →
  (0 ≤ next_buffer_id_ mg)%Z → (next_buffer_id_ mg + Z.of_nat (length cs) < two64)%Z →
  mg_inv mg' ∧ (0 ≤ next_buffer_id_ mg' ≤ next_buffer_id_ mg + Z.of_nat (length cs))%Z.
Proof.
  revert mg. induction cs as [|c cs IH]; intros mg H Hok Hinv H0 H1; cbn in *; [simplify_eq; split; [done|lia]|].
  apply Forall_cons in Hok as [Hc Hcs].
  destruct (buf_step mg c) as [mg1| |] eqn:E; simplify_eq/=.
  pose proof (next_id_step _ _ _ E H0 ltac:(lia)).
  destruct (IH mg1 H Hcs) as [? ?]; [apply (step_inv mg c); [done..|lia]|lia..|]. split; [done|lia].
Qed.

(** ** Specification: named reference counts *)

Module RefCounts.

(** The count of every live buffer, and the number of the next one. *)
Definition state : Type := gmap string Z * Z.

Definition create (s : state) (ms : Z) : state := (<[buffer_name ms s.2 := 1%Z]> s.1, (s.2 + 1)%Z).
Definition get (s : state) (id : string) : state := (alter (λ n, n + 1)%Z id s.1, s.2).
Definition release (s : state) (id : string) : state :=
  match s.1 !! id with
  | Some n => (if bool_decide (n = 1%Z) then delete id s.1 else <[id := (n - 1)%Z]> s.1, s.2)
  | None => s
  end.
Definition clear (s : state) : state := (∅, s.2).

End RefCounts.

Definition spec_step (s : RefCounts.state) (c : buf_call) : RefCounts.state :=
  match c with
  | CreateBuffer ms ok _ _ t _ _ =>
      if bool_decide (data_type_size t = 0%Z) || negb ok then s else RefCounts.create s ms
  | GetBuffer id => RefCounts.get s id
  | ReleaseBuffer id => RefCounts.release s id
  | ClearAll => RefCounts.clear s
  | DropHandle _ => s
  end.

Definition abs_counts mg : RefCounts.state := (ref_count <$> buffers_ mg, next_buffer_id_ mg).

Definition refs_within (bound : Z) mg : Prop :=
  map_Forall (λ _ e, 1 ≤ ref_count e ≤ bound)%Z (buffers_ mg).

Lemma refs_within_insert bound mg k obj nx h id e :
  refs_within bound mg → (1 ≤ ref_count e ≤ bound)%Z →
  refs_within bound (mkManager (<[id := e]> (buffers_ mg)) k obj nx h).
Proof. intros. by apply map_Forall_insert_2. Qed.

Lemma refs_within_mono b b' mg : (b ≤ b')%Z → refs_within b mg → refs_within b' mg.
Proof. intros Hb H. eapply map_Forall_impl; [exact H|]. cbn. lia. Qed.

Lemma get_refines mg id b :
  refs_within b mg → (b + 1 < two32)%Z →
  abs_counts (get_buffer mg id).1 = RefCounts.get (abs_counts mg) id ∧
  refs_within (b + 1) (get_buffer mg id).1.
Proof.
  intros Hr Hb. unfold get_buffer, abs_counts, RefCounts.get. cbn [fst snd].
  destruct (buffers_ mg !! id) as [e|] eqn:He; cbn [fst buffers_ next_buffer_id_].
  - specialize (Hr id e He) as Hre. cbn in Hre.
    rewrite wrap32_id by (unfold is_u32; lia). split.
    + f_equal. rewrite fmap_insert. cbn. apply map_eq. intros j.
      destruct (decide (j = id)) as [->|Hne].
      * by rewrite lookup_insert_eq, lookup_alter_eq, lookup_fmap, He.
      * by rewrite lookup_insert_ne, lookup_alter_ne.
    + apply refs_within_insert; [eapply refs_within_mono; [|exact Hr]; lia|cbn; lia].
  - split; [|eapply refs_within_mono; [|exact Hr]; lia]. f_equal.
    symmetry. apply alter_id. intros n. by rewrite lookup_fmap, He.
Qed.

Lemma release_refines mg id b :
  refs_within b mg → (b < two32)%Z →
  abs_counts (release_buffer mg id) = RefCounts.release (abs_counts mg) id ∧
  refs_within b (release_buffer mg id).
Proof.
  intros Hr Hb. unfold release_buffer, abs_counts, RefCounts.release. cbn [fst snd].
  rewrite lookup_fmap. destruct (buffers_ mg !! id) as [e|] eqn:He; cbn; [|done].
  specialize (Hr id e He) as Hre. cbn in Hre.
  rewrite wrap32_id by (unfold is_u32; lia).
  rewrite (bool_decide_ext (ref_count e - 1 = 0)%Z (ref_count e = 1%Z)) by lia.
  case_bool_decide; cbn; (split; [f_equal|]).
  - apply fmap_delete.
  - by apply map_Forall_delete.
  - by rewrite fmap_insert.
  - apply refs_within_insert; [done|cbn; lia].
Qed.

Lemma step_refines mg c mg' b :
  buf_step mg c = Ok mg' → call_ok c → mg_inv mg → refs_within b mg → (1 ≤ b)%Z → (b + 1 < two32)%Z →
  (0 ≤ next_buffer_id_ mg)%Z → (next_buffer_id_ mg + 1 < two64)%Z →
  abs_counts mg' = spec_step (abs_counts mg) c ∧ refs_within (b + 1) mg'.
Proof.
  intros H Hok Hinv Hr Hb1 Hb H0 H1. destruct c as [ms ok i c t n data|id|id| |o]; cbn in H; simplify_eq/=.
  - destruct (create_buffer _ _ _ _ _ _ _ _) as [[mg1 id]| |] eqn:E; simplify_eq/=.
    destruct (create_buffer_spec _ _ _ _ _ _ _ _ _ _ Hinv Hok E) as
      [(-> & _ & Hor)|(Hsz & -> & block & -> & _ & ->)].
    + destruct (bool_decide (data_type_size t = 0%Z) || negb ok) eqn:Ho.
      2: { exfalso. apply orb_false_iff in Ho as [Ho1 Ho2]. apply bool_decide_eq_false in Ho1.
           destruct ok; naive_solver. }
      split; [done|]. eapply refs_within_mono; [|exact Hr]. lia.
    + rewrite bool_decide_eq_false_2 by done. cbn [orb negb].
      rewrite (wrap64_id (next_buffer_id_ mg + 1)) by (unfold is_u64; lia). split.
      * unfold abs_counts, RefCounts.create. cbn. by rewrite fmap_insert.
      * apply refs_within_insert; [eapply refs_within_mono; [|exact Hr]; lia|cbn; lia].
  - by apply get_refines.
  - destruct (release_refines mg id b Hr ltac:(lia)) as [H2 H3]. split; [done|].
    eapply refs_within_mono; [|exact H3]. lia.
  - split; [|apply map_Forall_empty]. unfold abs_counts, RefCounts.clear. cbn. by rewrite fmap_empty.
  - unfold drop_handle. assert (refs_within (b + 1) mg) by (eapply refs_within_mono; [|exact Hr]; lia).
    repeat case_match; done.
Qed.

Lemma buf_run_refines_from cs mg mg' b :
  res_foldl buf_step mg cs = Ok mg' → Forall call_ok cs → mg_inv mg → refs_within b mg →
  (1 ≤ b)%Z → (b + Z.of_nat (length cs) < two32)%Z →
  (0 ≤ next_buffer_id_ mg)%Z → (next_buffer_id_ mg + Z.of_nat (length cs) < two64)%Z →
  abs_counts mg' = foldl spec_step (abs_counts mg) cs.
Proof.
  revert mg b. induction cs as [|c cs IH]; intros mg b H Hok Hinv Hr Hb1 Hb H0 H1; cbn in *; [by simplify_eq|].
  apply Forall_cons in Hok as [Hc Hcs].
  destruct (buf_step mg c) as [mg1| |] eqn:E; simplify_eq/=.
  destruct (step_refines _ _ _ b E Hc Hinv Hr) as [Ha Hr1]; [lia..|].
  pose proof (next_id_step _ _ _ E H0 ltac:(lia)). rewrite <-Ha.
  apply (IH mg1 (b + 1)%Z); try done; try lia. apply (step_inv mg c); try done. lia.
Qed.

(** ** The life of one buffer *)

(** What is left of a buffer: its count while the manager lists it, and the
    pointers callers hold. *)
Definition life : Type := option Z * nat.

Definition life_step id o (l : life) (c : buf_call) : life :=
  match c with
  | CreateBuffer _ _ _ _ _ _ _ => l
  | GetBuffer id' =>
      if bool_decide (id' = id) then
        match l.1 with Some n => (Some (n + 1)%Z, S l.2) | None => l end
      else l
  | ReleaseBuffer id' =>
      if bool_decide (id' = id) then
        match l.1 with
        | Some n => (if bool_decide (n = 1%Z) then None else Some (n - 1)%Z, l.2)
        | None => l
        end
      else l
  | ClearAll => (None, l.2)
  | DropHandle o' => if bool_decide (o' = o) then (l.1, Nat.pred l.2) else l
  end.

(** The uses a life stands for. *)
Definition uses (l : life) : nat := (if l.1 is Some _ then 1 else 0) + l.2.

(** The manager keeps the buffer [b], made under [id] as object [o] with
    metadata [mt], at the stage [l] of its life. *)
Record tracks id o (b : DataBuffer) (mt : DataBufferMetadata) (bound : Z) mg (l : life) : Prop := {
  tr_entry : buffers_ mg !! id = mkEntry o mt <$> l.1;
  tr_only j e : buffers_ mg !! j = Some e → entry_buffer e = o → j = id;
  tr_held : default 0 (handles mg !! o) = l.2;
  tr_block b' n : objects mg !! o = Some (b', n) → b' = b;
  tr_old : (o < next_object mg)%positive;
  tr_name : ∃ ms k, (0 ≤ ms)%Z ∧ (0 ≤ k < next_buffer_id_ mg)%Z ∧ id = buffer_name ms k;
  tr_count n : l.1 = Some n → (1 ≤ n ≤ bound)%Z
}.

Lemma pointing_none kvs o : (∀ kv, kv ∈ kvs → entry_buffer kv.2 ≠ o) → pointing kvs o = 0.
Proof.
  induction kvs as [|kv kvs IH]; intros H; [done|]. rewrite pointing_cons, IH by set_solver.
  unfold one_if. rewrite decide_False; [done|]. intros ->. apply (H kv); [by left|done].
Qed.

(** The use count of a tracked buffer's object. *)
Lemma tracks_owners id o b mt bound mg l : tracks id o b mt bound mg l → owners mg o = uses l.
Proof.
  intros [He Ho Hh _ _ _ _]. unfold owners, uses. rewrite Hh. f_equal.
  destruct (l.1) as [n|]; cbn in He.
  - rewrite <-(map_to_list_delete _ _ _ He), pointing_cons, pointing_none.
    + unfold one_if. by rewrite decide_True.
    + intros [j e] [Hne Hj]%elem_of_map_to_list%lookup_delete_Some Hb. by eapply Hne, eq_sym, Ho.
  - apply pointing_none. intros [j e] Hj%elem_of_map_to_list Hb. cbn in Hb.
    rewrite (Ho j e Hj Hb) in Hj. congruence.
Qed.

Lemma drop_ref_block objs o o' b n :
  drop_ref objs o !! o' = Some (b, n) → ∃ n', objs !! o' = Some (b, n').
Proof.
  unfold drop_ref. destruct (objs !! o) as [[b0 [|[|k]]]|] eqn:E; [| | |by eexists].
  1,2: by intros [_ ?]%lookup_delete_Some; eexists.
  intros [[-> ?]|[_ ?]]%lookup_insert_Some; simplify_eq; by eexists.
Qed.

Lemma drop_all_block (kvs : list (string * BufferEntry)) objs o' b n :
  foldl (λ objs kv, drop_ref objs (entry_buffer kv.2)) objs kvs !! o' = Some (b, n) →
  ∃ n', objs !! o' = Some (b, n').
Proof.
  revert objs n. induction kvs as [|kv kvs IH]; intros objs n H; cbn in *; [by eexists|].
  destruct (IH _ _ H) as [n' H']. by eapply drop_ref_block.
Qed.

Section Tracking.
Context (id : string) (o : positive) (b : DataBuffer) (mt : DataBufferMetadata) (bound : Z).
Hypothesis small : (bound + 1 < two32)%Z.
Implicit Types (l : life).

Lemma tracks_mono mg l : tracks id o b mt bound mg l → tracks id o b mt (bound + 1) mg l.
Proof. intros [? ? ? ? ? ? Hc]. split; try done. intros n ?%Hc. lia. Qed.

Lemma tracks_get mg l id' :
  tracks id o b mt bound mg l →
  tracks id o b mt (bound + 1) (get_buffer mg id').1 (life_step id o l (GetBuffer id')).
Proof.
  intros Ht. pose proof Ht as [He Ho Hh Hb Hold Hn Hc]. unfold get_buffer. cbn.
  destruct (buffers_ mg !! id') as [e|] eqn:E; last first.
  { apply tracks_mono in Ht. case_bool_decide; subst; [|done].
    by destruct l as [[n|] h]; cbn in *; [congruence|]. }
  case_bool_decide as Hid; subst.
  - destruct l as [[n|] h]; cbn in *; [|congruence]. rewrite He in E. simplify_eq. cbn.
    pose proof (Hc n eq_refl). rewrite wrap32_id by (unfold is_u32; lia).
    split; cbn; try done.
    + by rewrite lookup_insert_eq.
    + intros j e [[<- _]|[_ ?]]%lookup_insert_Some ?; [done|by eapply Ho].
    + by rewrite lookup_insert_eq.
    + unfold add_ref. rewrite lookup_alter_eq. intros b' k [[b0 n0] [? Hob]]%fmap_Some.
      simplify_eq/=. by eapply Hb.
    + intros ? [=]. lia.
  - assert (entry_buffer e ≠ o) as Hne by (intros ?; by eapply Hid, Ho).
    split; cbn; try done.
    + by rewrite lookup_insert_ne.
    + intros j e' [[<- <-]|[_ ?]]%lookup_insert_Some ?; [done|by eapply Ho].
    + by rewrite lookup_insert_ne.
    + unfold add_ref. by rewrite lookup_alter_ne.
    + intros n ?%Hc. lia.
Qed.

Lemma tracks_release mg l id' :
  tracks id o b mt bound mg l →
  tracks id o b mt (bound + 1) (release_buffer mg id') (life_step id o l (ReleaseBuffer id')).
Proof.
  intros Ht. pose proof Ht as [He Ho Hh Hb Hold Hn Hc]. unfold release_buffer. cbn.
  destruct (buffers_ mg !! id') as [e|] eqn:E; last first.
  { apply tracks_mono in Ht. case_bool_decide; subst; [|done].
    by destruct l as [[n|] h]; cbn in *; [congruence|]. }
  destruct (decide (id' = id)) as [->|Hid];
    [rewrite (bool_decide_eq_true_2 (id = id)) by done|rewrite (bool_decide_eq_false_2 (id' = id)) by done].
  - destruct l as [[n|] h]; cbn in *; [|congruence]. rewrite He in E. simplify_eq. cbn.
    pose proof (Hc n eq_refl). rewrite wrap32_id by (unfold is_u32; lia).
    rewrite (bool_decide_ext (n - 1 = 0)%Z (n = 1%Z)) by lia.
    case_bool_decide; split; cbn; try done.
    + by rewrite lookup_delete_eq.
    + intros j e [_ ?]%lookup_delete_Some ?. by eapply Ho.
    + intros b' k [n' ?]%drop_ref_block. by eapply Hb.
    + by rewrite lookup_insert_eq.
    + intros j e [[<- _]|[_ ?]]%lookup_insert_Some ?; [done|by eapply Ho].
    + intros ? [=]. lia.
  - assert (entry_buffer e ≠ o) as Hne by (intros ?; by eapply Hid, Ho).
    case_bool_decide; split; cbn; try done.
    + by rewrite lookup_delete_ne.
    + intros j e' [_ ?]%lookup_delete_Some ?. by eapply Ho.
    + intros b' k [n' ?]%drop_ref_block. by eapply Hb.
    + intros n ?%Hc. lia.
    + by rewrite lookup_insert_ne.
    + intros j e' [[<- <-]|[_ ?]]%lookup_insert_Some ?; [done|by eapply Ho].
    + intros n ?%Hc. lia.
Qed.

Lemma tracks_clear mg l :
  tracks id o b mt bound mg l → tracks id o b mt (bound + 1) (clear_all mg) (life_step id o l ClearAll).
Proof.
  intros [He Ho Hh Hb Hold Hn Hc]. split; cbn; try done.
  intros b' k [n' ?]%drop_all_block. by eapply Hb.
Qed.

Lemma tracks_drop mg l o' :
  tracks id o b mt bound mg l →
  tracks id o b mt (bound + 1) (drop_handle mg o') (life_step id o l (DropHandle o')).
Proof.
  intros Ht%tracks_mono. destruct Ht as [He Ho Hh Hb Hold Hn Hc]. unfold drop_handle. cbn.
  case_bool_decide as Hid; subst.
  - destruct (handles mg !! o) as [[|n]|] eqn:E; cbn in Hh; rewrite <- Hh; cbn.
    1,3: split; cbn; try done; by rewrite E.
    split; cbn; try done; [by rewrite lookup_insert_eq|].
    intros b' k [n' ?]%drop_ref_block. by eapply Hb.
  - destruct (handles mg !! o') as [[|n]|] eqn:E; try by split.
    split; cbn; try done; [by rewrite lookup_insert_ne|].
    intros b' k [n' ?]%drop_ref_block. by eapply Hb.
Qed.

Lemma tracks_create mg mg' l ms ok i c t n data id' :
  mg_inv mg → (0 ≤ ms)%Z → (next_buffer_id_ mg + 1 < two64)%Z →
  create_buffer ms ok mg i c t n data = Ok (mg', id') →
  tracks id o b mt bound mg l → tracks id o b mt (bound + 1) mg' l.
Proof.
  intros Hinv Hms Hlt H [He Ho Hh Hb Hold (ms0 & k & ? & ? & Hk) Hc].
  assert (∀ n, l.1 = Some n → 1 ≤ n ≤ bound + 1)%Z as Hc' by (intros x ?%Hc; lia).
  destruct (create_buffer_spec _ _ _ _ _ _ _ _ _ _ Hinv Hms H) as
    [(-> & _)|(_ & _ & block & Hid & _ & ->)]; [split; eauto|].
  assert (id' ≠ id) as Hne.
  { rewrite Hid, Hk. intros Heq. apply (stamped_id_inj "buffer_" "_"%char) in Heq as [_ ?];
      [lia|by right|lia|lia]. }
  split; cbn; try done.
  - by rewrite lookup_insert_ne.
  - intros j e [[<- <-]|[_ ?]]%lookup_insert_Some Hob; [cbn in Hob; lia|by eapply Ho].
  - intros b' x. rewrite lookup_insert_ne by lia. apply Hb.
  - lia.
  - rewrite (wrap64_id (next_buffer_id_ mg + 1)) by (unfold is_u64; lia).
    exists ms0, k. split_and!; [done|lia..|done].
Qed.

Lemma tracks_step mg c mg' l :
  buf_step mg c = Ok mg' → call_ok c → mg_inv mg → (next_buffer_id_ mg + 1 < two64)%Z →
  tracks id o b mt bound mg l → tracks id o b mt (bound + 1) mg' (life_step id o l c).
Proof.
  intros H Hok Hinv Hlt Ht. destruct c; cbn in H; simplify_eq.
  - destruct (create_buffer _ _ _ _ _ _ _ _) as [[mg1 id']| |] eqn:E; simplify_eq/=.
    by eapply tracks_create.
  - by apply tracks_get.
  - by apply tracks_release.
  - by apply tracks_clear.
  - by apply tracks_drop.
Qed.

End Tracking.

Lemma tracks_run id o b mt cs mg mg' l bound :
  res_foldl buf_step mg cs = Ok mg' → Forall call_ok cs → mg_inv mg →
  tracks id o b mt bound mg l → (bound + Z.of_nat (length cs) < two32)%Z →
  (0 ≤ next_buffer_id_ mg)%Z → (next_buffer_id_ mg + Z.of_nat (length cs) < two64)%Z →
  ∃ bound', tracks id o b mt bound' mg' (foldl (life_step id o) l cs) ∧ mg_inv mg'.
Proof.
  revert mg l bound. induction cs as [|c cs IH]; intros mg l bound H Hok Hinv Ht Hb H0 H1; cbn in *.
  { simplify_eq. by exists bound. }
  apply Forall_cons in Hok as [Hc Hcs].
  destruct (buf_step mg c) as [mg1| |] eqn:E; simplify_eq/=.
  pose proof (next_id_step _ _ _ E H0 ltac:(lia)).
  apply (IH mg1 (life_step id o l c) (bound + 1)%Z); try done; try lia.
  - apply (step_inv mg c); try done. lia.
  - apply (tracks_step id o b mt bound ltac:(lia) mg c mg1); try done. lia.
Qed.

(** A buffer just made is at the beginning of its life. *)
Lemma tracks_new ms mg i c t n data mg' id :
  mg_inv mg → (0 ≤ ms)%Z → (0 ≤ next_buffer_id_ mg)%Z → (next_buffer_id_ mg + 1 < two64)%Z →
  create_buffer ms true mg i c t n data = Ok (mg', id) → id ≠ EmptyString →
  ∃ b, objects mg' !! next_object mg = Some (b, 1) ∧ buffer_id_ b = id ∧ data_type_ b = t ∧
    element_count_ b = n ∧
    tracks id (next_object mg) b (mkMetadata id i c t n (wrap64 (n * data_type_size t)) ms) 1 mg'
      (Some 1%Z, 0).
Proof.
  intros Hinv Hms H0 Hlt H Hid.
  destruct (create_buffer_spec _ _ _ _ _ _ _ _ _ _ Hinv Hms H) as
    [(_ & ? & _)|(_ & _ & block & Hn & _ & ->)]; [done|].
  assert (owners mg (next_object mg) = 0) as Hz.
  { pose proof (inv_counts mg Hinv (next_object mg)) as Hc.
    destruct (objects mg !! next_object mg) as [[? ?]|] eqn:E; [|done].
    pose proof (inv_fresh mg Hinv (next_object mg) ltac:(by eexists)). lia. }
  eexists. cbn. rewrite lookup_insert_eq. split_and!; [done..|].
  split; cbn.
  - by rewrite lookup_insert_eq.
  - intros j e [[<- _]|[_ Hj]]%lookup_insert_Some Hb; [done|].
    pose proof (entry_owner _ _ _ Hj) as Ho. rewrite Hb in Ho. lia.
  - unfold owners in Hz. lia.
  - rewrite lookup_insert_eq. congruence.
  - lia.
  - rewrite (wrap64_id (next_buffer_id_ mg + 1)) by (unfold is_u64; lia).
    exists ms, (next_buffer_id_ mg). split_and!; [done|lia..|done].
  - intros ? [=]. lia.
Qed.

(** ** Properties *)

(** C16. The manager implements named reference counts: after any sequence of
    calls (fewer than 2^32 - 1), the live buffers and their counts are those of
    the specification, in which a buffer starts with count one, [get_buffer]
    adds one, [release_buffer] takes one away and removes the buffer at zero,
    and every creation makes a buffer under a name not used before. *)
Theorem buffers_refine_counts cs mg :
  buf_run cs = Ok mg → Forall call_ok cs → (Z.of_nat (length cs) + 1 < two32)%Z →
  abs_counts mg = foldl spec_step (∅, 1%Z) cs.
Proof.
  intros Hrun Hok Hlen.
  apply (buf_run_refines_from cs new_manager mg 1 Hrun Hok new_manager_inv);
    cbn; unfold two32, two64 in *; try lia. apply map_Forall_empty.
Qed.

(** C17. The life of a buffer is exactly what the calls after its creation
    make it.  The manager lists it from its creation, under the name given
    out and with count one; [get_buffer] of that name adds one and hands out a
    pointer, [release_buffer] takes one away and unlists it at zero,
    [clear_all] unlists it at once.  Its memory is there, with the contents it
    was made with, exactly as long as the manager lists it or a caller holds a
    pointer, and the use count is the number of these; calls on other buffers
    change nothing of it. *)
Theorem buffer_lifetime_exact cs1 mg1 ms i c t n data mg2 id cs2 mg3 :
  buf_run cs1 = Ok mg1 → create_buffer ms true mg1 i c t n data = Ok (mg2, id) → id ≠ EmptyString →
  res_foldl buf_step mg2 cs2 = Ok mg3 →
  Forall call_ok (cs1 ++ cs2) → (0 ≤ ms)%Z → (Z.of_nat (length (cs1 ++ cs2)) + 2 < two32)%Z →
  let o := next_object mg1 in
  let l := foldl (life_step id o) (Some 1%Z, 0) cs2 in
  ∃ b, objects mg2 !! o = Some (b, 1) ∧ buffer_id_ b = id ∧ data_type_ b = t ∧ element_count_ b = n ∧
    ref_count <$> buffers_ mg3 !! id = l.1 ∧
    entry_buffer <$> buffers_ mg3 !! id = (λ _, o) <$> l.1 ∧
    default 0 (handles mg3 !! o) = l.2 ∧
    objects mg3 !! o = if bool_decide (uses l = 0) then None else Some (b, uses l).
Proof.
  intros H1 H2 Hid H3 [Hc1 Hc2]%Forall_app Hms Hlen. rewrite length_app in Hlen. cbn zeta.
  destruct (run_inv_next cs1 new_manager mg1 H1 Hc1 new_manager_inv) as (Hinv & Hlo & Hhi);
    [cbn; unfold two32, two64 in *; lia..|]. cbn in Hhi.
  destruct (tracks_new _ _ _ _ _ _ _ _ _ Hinv Hms Hlo ltac:(unfold two32, two64 in *; lia) H2 Hid)
    as (b & Hb & ? & ? & ? & Ht).
  assert (buf_step mg1 (CreateBuffer ms true i c t n data) = Ok mg2) as Hs by (cbn; by rewrite H2).
  pose proof (next_id_step _ _ _ Hs Hlo ltac:(unfold two32, two64 in *; lia)).
  assert (mg_inv mg2) as Hinv2.
  { apply (step_inv _ _ _ Hs); [done..|]. unfold two32, two64 in *. lia. }
  destruct (tracks_run _ _ _ _ _ _ _ _ _ H3 Hc2 Hinv2 Ht) as (bound & Ht3 & Hinv3);
    [unfold two32, two64 in *; lia..|].
  generalize dependent (foldl (life_step id (next_object mg1)) (Some 1%Z, 0) cs2). intros l Ht3.
  exists b. split_and!; [done..| | | |].
  - rewrite (tr_entry _ _ _ _ _ _ _ Ht3). by destruct l.1.
  - rewrite (tr_entry _ _ _ _ _ _ _ Ht3). by destruct l.1.
  - apply (tr_held _ _ _ _ _ _ _ Ht3).
  - rewrite <- (tracks_owners _ _ _ _ _ _ _ Ht3).
    pose proof (inv_counts _ Hinv3 (next_object mg1)) as Hc.
    destruct (objects mg3 !! next_object mg1) as [[b' k]|] eqn:Eo.
    + rewrite (tr_block _ _ _ _ _ _ _ Ht3 _ _ Eo). destruct Hc as [<- ?].
      by rewrite bool_decide_eq_false_2 by lia.
    + by rewrite Hc.
Qed.

(** A buffer gives back what was put into it: if creating a buffer from the
    caller's bytes succeeds, [get_buffer] under the returned name yields an
    object with exactly these bytes, type and element count, and the metadata
    agrees with it. *)
Theorem create_get_roundtrip ms mg i c t n bytes mg' id :
  mg_inv mg → (0 ≤ ms)%Z → data_type_size t ≠ 0%Z → (0 ≤ n)%Z → (n * data_type_size t < two64)%Z →
  create_buffer ms true mg i c t n (Some bytes) = Ok (mg', id) →
  ∃ o b k, (get_buffer mg' id).2 = Some o ∧ objects (get_buffer mg' id).1 !! o = Some (b, k) ∧
    as_type t b = Some (take (Z.to_nat (n * data_type_size t)) bytes) ∧
    element_count_ b = n ∧ buffer_id_ b = id ∧ byte_size_ b = (n * data_type_size t)%Z ∧
    get_metadata mg' id = Some (mkMetadata id i c t n (n * data_type_size t) ms).
Proof.
  intros Hinv Hms Hsz Hn Hfit H.
  assert (0 ≤ data_type_size t)%Z as Hpos by (destruct t; cbn; lia).
  destruct (create_buffer_spec _ _ _ _ _ _ _ _ _ _ Hinv Hms H) as
    [(_ & _ & [?|?])|(_ & _ & block & Hid & [_ ->] & ->)]; [done..|].
  rewrite wrap64_id by (unfold is_u64; lia).
  unfold get_buffer, get_metadata. cbn [buffers_]. rewrite lookup_insert_eq. cbn [fst snd objects entry_buffer].
  do 3 eexists. split; [done|]. unfold add_ref. rewrite lookup_alter_eq, lookup_insert_eq. cbn.
  split_and!; try done. unfold as_type. cbn. by rewrite bool_decide_eq_true_2.
Qed.

Lemma element_never_throws t block i e : element t block i ≠ Exn e.
Proof. unfold element. by case_bool_decide. Qed.

(** Exporting a buffer as CSV is safe exactly when its size did not wrap:
    for a buffer of [n] elements made by [create_buffer], the export reads only
    its own memory and writes one line per element if [n] times the element
    size fits 64 bits; otherwise the block is smaller than its element count
    says and the export reads past its end. *)
Theorem csv_export_safe_iff show ms mg i c t n mg' id b k :
  mg_inv mg → (0 ≤ ms)%Z → data_type_size t ≠ 0%Z → is_u64 n →
  create_buffer ms true mg i c t n None = Ok (mg', id) →
  objects mg' !! next_object mg = Some (b, k) →
  if bool_decide (n * data_type_size t < two64)%Z
  then ∃ lines, export_to_csv show b = Ok (Some lines) ∧ Z.of_nat (length lines) = n
  else export_to_csv show b = Undef.
Proof.
  intros Hinv Hms Hsz Hn H Hb.
  destruct (create_buffer_spec _ _ _ _ _ _ _ _ _ _ Hinv Hms H) as
    [(_ & _ & [?|?])|(_ & _ & block & Hid & -> & ->)]; [done..|].
  cbn in Hb. rewrite lookup_insert_eq in Hb. simplify_eq.
  assert (0 < data_type_size t ≤ 8)%Z as Hpos by (destruct t; cbn in *; lia).
  set (size := wrap64 (n * data_type_size t)).
  set (blk := replicate (Z.to_nat size) "000"%char).
  assert (export_to_csv show (mkDataBuffer (buffer_name ms (next_buffer_id_ mg)) blk size n t) =
    lines ← res_map (λ i, e ← element t blk i; Ok (show_element show t e)) (seq 0 (Z.to_nat n));
    Ok (Some lines)) as ->.
  { unfold export_to_csv. cbn. by destruct t. }
  assert (is_u64 size) as Hsize by apply wrap64_bound. unfold is_u64 in Hsize, Hn.
  assert (∀ j, element t blk j =
    if bool_decide ((Z.of_nat j + 1) * data_type_size t ≤ size)%Z
    then Ok (take (Z.to_nat (data_type_size t)) (drop (j * Z.to_nat (data_type_size t)) blk)) else Undef) as Hel.
  { intros j. unfold element, blk. rewrite length_replicate.
    assert (j * Z.to_nat (data_type_size t) + Z.to_nat (data_type_size t) ≤ Z.to_nat size ↔
            ((Z.of_nat j + 1) * data_type_size t ≤ size)%Z) as Hiff by nia.
    by rewrite (bool_decide_ext _ _ Hiff). }
  case_bool_decide as Hfit.
  - assert (size = n * data_type_size t)%Z as Hs by (apply wrap64_id; unfold is_u64; nia).
    erewrite res_map_total.
    2: { intros j Hj. rewrite Hel, bool_decide_eq_true_2; [reflexivity|].
         apply elem_of_seq in Hj. nia. }
    cbn. eexists. split; [done|]. rewrite length_fmap, length_seq. lia.
  - rewrite (res_map_Undef _ _ (Z.to_nat n - 1)); [done| | |].
    + intros j e He. destruct (element t blk j) eqn:Ej; try done. by apply element_never_throws in Ej.
    + apply elem_of_seq. unfold two64 in *. nia.
    + rewrite Hel, bool_decide_eq_false_2; [done|]. unfold two64 in *. nia.
Qed.

(** ** Concrete calls *)

Definition sample_bytes : list ascii := chars "abcdefgh".

Definition sample_calls : list buf_call :=
  [CreateBuffer 5 true "DMM1" "DMM1-1" UINT8 8 (Some sample_bytes);
   GetBuffer "buffer_5_1"; ReleaseBuffer "buffer_5_1"; ReleaseBuffer "buffer_5_1"].

Definition managed (r : res DataBufferManager) : DataBufferManager :=
  match r with Ok mg => mg | _ => new_manager end.

Lemma buffers_refine_counts_witness : (abs_counts (managed (buf_run sample_calls))).1 = ∅.
Proof.
  rewrite (buffers_refine_counts sample_calls (managed (buf_run sample_calls))).
  - vm_compute. reflexivity.
  - vm_compute. reflexivity.
  - repeat constructor; cbn; lia.
  - vm_compute. reflexivity.
Defined.

Definition sample_created : DataBufferManager :=
  managed (r ← create_buffer 5 true new_manager "DMM1" "DMM1-1" UINT8 8 (Some sample_bytes); Ok r.1).

(** Released by the manager, the buffer lives on in the caller's pointer. *)
Lemma buffer_lifetime_exact_witness :
  let mg := managed (res_foldl buf_step sample_created (tail sample_calls)) in
  buffers_ mg = ∅ ∧ ∃ b, objects mg !! 1%positive = Some (b, 1) ∧ element_count_ b = 8%Z.
Proof.
  cbn zeta. split; [vm_compute; reflexivity|].
  destruct (buffer_lifetime_exact [] new_manager 5 "DMM1" "DMM1-1" UINT8 8 (Some sample_bytes)
    sample_created "buffer_5_1" (tail sample_calls)
    (managed (res_foldl buf_step sample_created (tail sample_calls)))) as (b & _ & _ & _ & Hn & _ & _ & _ & Ho).
  - vm_compute. reflexivity.
  - vm_compute. reflexivity.
  - discriminate.
  - vm_compute. reflexivity.
  - repeat constructor; cbn; lia.
  - lia.
  - vm_compute. reflexivity.
  - exists b. split; [exact Ho|exact Hn].
Defined.

Lemma create_get_roundtrip_witness :
  ∃ o b k, (get_buffer sample_created "buffer_5_1").2 = Some o ∧
    objects (get_buffer sample_created "buffer_5_1").1 !! o = Some (b, k) ∧
    as_type UINT8 b = Some sample_bytes.
Proof.
  destruct (create_get_roundtrip 5 new_manager "DMM1" "DMM1-1" UINT8 8 sample_bytes
    sample_created "buffer_5_1") as (o & b & k & H1 & H2 & H3 & _).
  - apply new_manager_inv.
  - lia.
  - discriminate.
  - lia.
  - vm_compute. reflexivity.
  - vm_compute. reflexivity.
  - exists o, b, k. split_and!; [exact H1|exact H2|exact H3].
Defined.

(** 2^61 + 1 doubles: the size wraps to 8 bytes. *)
Definition huge_count : Z := 2 ^ 61 + 1.
Definition huge_created : DataBufferManager :=
  managed (r ← create_buffer 5 true new_manager "DMM1" "DMM1-1" FLOAT64 huge_count None; Ok r.1).
Definition huge_buffer : DataBuffer :=
  mkDataBuffer "buffer_5_1" (replicate 8 "000"%char) 8 huge_count FLOAT64.

Lemma csv_export_safe_iff_witness : export_to_csv (λ _ _, EmptyString) huge_buffer = Undef.
Proof.
  refine (csv_export_safe_iff (λ _ _, EmptyString) 5 new_manager "DMM1" "DMM1-1" FLOAT64 huge_count
    huge_created "buffer_5_1" huge_buffer 1 new_manager_inv _ _ _ _ _).
  - lia.
  - discriminate.
  - unfold is_u64, huge_count, two64. lia.
  - vm_compute. reflexivity.
  - vm_compute. reflexivity.
Defined.
