(* ===== verification/JobManager.v ===== *)
(** * The job manager

    Model of [JobManager] (src/src/server/JobManager.cpp): jobs are submitted,
    queried and cancelled by request threads, run one after the other by the
    worker thread, and, for measure jobs, completed by a detached monitor
    thread each.  Every critical section of [mutex_] is a function; a thread that
    submits a job draws its number first ([draw_job]) and then takes the lock
    ([push_job]).  [worker_pc]
    is where the worker thread stands between two of them, and [jstep]
    interleaves the threads.  The Lua script of a measure job and the results
    its monitor collects are outcomes of the environment. *)

From S2P Require Import Prelude Json.
From Stdlib Require Import Lia.

Record JobInfo := mkJobInfo {
  job_id : string;
  job_type : string;
  job_params : json;
  job_status : string;
  job_result : json;
  job_error : string;
  job_created_at : Z;
  job_started_at : Z;
  job_finished_at : Z
}.

#[export] Instance JobInfo_eq_dec : EqDecision JobInfo.
Proof. solve_decision. Defined.

(** Between the critical sections of [worker_loop]. *)
Inductive worker_pc :=
| AtLoopHead                                    (* waiting on [cv_] *)
| WaitMeasure (jid : string)                    (* waiting on [measure_cv_] *)
| Popped (jid : string)                         (* marked running *)
| Sleeping (jid : string) (info : JobInfo) (ms slept : Z)
| Measuring (jid : string) (info : JobInfo)
| Finishing (jid : string) (info : JobInfo) (outcome : json + string)
| LoopLeft.

#[export] Instance worker_pc_eq_dec : EqDecision worker_pc.
Proof. solve_decision. Defined.

Record JobManager := mkJobManager {
  queue_ : list string;
  jobs_ : gmap string JobInfo;
  next_id_ : Z;
  running_ : bool;
  active_measure_jobs_ : gset string;
  worker_ : worker_pc;
  monitors : gset string;   (* the detached monitor threads *)
  submitting : gmap string JobInfo   (* threads in [submit_job] that have drawn an id *)
}.

Definition new_job_manager : JobManager := mkJobManager [] ∅ 1 true ∅ AtLoopHead ∅ ∅.

Implicit Types (st : JobManager) (jid : string).

Definition with_jobs st (js : gmap string JobInfo) : JobManager :=
  mkJobManager (queue_ st) js (next_id_ st) (running_ st) (active_measure_jobs_ st) (worker_ st) (monitors st) (submitting st).
Definition with_worker st (pc : worker_pc) : JobManager :=
  mkJobManager (queue_ st) (jobs_ st) (next_id_ st) (running_ st) (active_measure_jobs_ st) pc (monitors st) (submitting st).

Definition with_submitting st (m : gmap string JobInfo) : JobManager :=
  mkJobManager (queue_ st) (jobs_ st) (next_id_ st) (running_ st) (active_measure_jobs_ st) (worker_ st)
    (monitors st) m.

Definition set_status (s : string) (j : JobInfo) : JobInfo :=
  mkJobInfo (job_id j) (job_type j) (job_params j) s (job_result j) (job_error j)
    (job_created_at j) (job_started_at j) (job_finished_at j).
Definition set_started (t : Z) (j : JobInfo) : JobInfo :=
  mkJobInfo (job_id j) (job_type j) (job_params j) (job_status j) (job_result j) (job_error j)
    (job_created_at j) t (job_finished_at j).
Definition set_finished (t : Z) (j : JobInfo) : JobInfo :=
  mkJobInfo (job_id j) (job_type j) (job_params j) (job_status j) (job_result j) (job_error j)
    (job_created_at j) (job_started_at j) t.
Definition set_result (r : json) (j : JobInfo) : JobInfo :=
  mkJobInfo (job_id j) (job_type j) (job_params j) (job_status j) r (job_error j)
    (job_created_at j) (job_started_at j) (job_finished_at j).
Definition set_error (e : string) (j : JobInfo) : JobInfo :=
  mkJobInfo (job_id j) (job_type j) (job_params j) (job_status j) (job_result j) e
    (job_created_at j) (job_started_at j) (job_finished_at j).

(** ** Requests *)

Definition job_name (ms n : Z) : string := "job-" +:+ dec ms +:+ "-" +:+ dec n.

Definition make_job_id (ms : Z) st : JobManager * string :=
  (mkJobManager (queue_ st) (jobs_ st) (wrap64 (next_id_ st + 1)) (running_ st)
     (active_measure_jobs_ st) (worker_ st) (monitors st) (submitting st),
   job_name ms (next_id_ st)).

(** [submit_job] before it takes the lock: the id is drawn from the atomic
    counter and the record filled in. *)
Definition draw_job (ms : Z) st (type : string) (params : json) : JobManager * JobInfo :=
  let '(st, id) := make_job_id ms st in
  (st, mkJobInfo id type params "queued" JNull EmptyString ms 0 0).

(** Its critical section; [jobs_.emplace] keeps an entry that is already
    there. *)
Definition push_job st (info : JobInfo) : JobManager :=
  let id := job_id info in
  let js := match jobs_ st !! id with Some _ => jobs_ st | None => <[id := info]> (jobs_ st) end in
  mkJobManager (queue_ st ++ [id]) js (next_id_ st) (running_ st) (active_measure_jobs_ st)
    (worker_ st) (monitors st) (submitting st).

Definition submit_job (ms : Z) st (type : string) (params : json) : JobManager * string :=
  let '(st, info) := draw_job ms st type params in (push_job st info, job_id info).

(** [p["script_path"] = script_path] throws unless [params] is an object or null. *)
Definition submit_measure (ms : Z) st (script_path : string) (params : json) : res (JobManager * string) :=
  match params with
  | JObj o => Ok (submit_job ms st "measure" (JObj (obj_set "script_path" (JStr script_path) o)))
  | JNull => Ok (submit_job ms st "measure" (JObj [("script_path", JStr script_path)]))
  | _ => Exn (type_error "cannot use operator[] with a string argument")
  end.

Definition get_job_info st jid : option JobInfo := jobs_ st !! jid.

Definition get_job_result st jid : option json :=
  j ← jobs_ st !! jid;
  if bool_decide (job_status j = "completed") then Some (job_result j) else None.

Definition list_jobs st : list JobInfo := (map_to_list (jobs_ st)).*2.

(** [std::find] and [erase]: the first occurrence. *)
Fixpoint erase_first jid (q : list string) : list string :=
  match q with
  | [] => []
  | x :: q => if bool_decide (x = jid) then q else x :: erase_first jid q
  end.

Definition cancel_job (now : Z) st jid : JobManager * bool :=
  match jobs_ st !! jid with
  | None => (st, false)
  | Some j =>
      if bool_decide (job_status j = "queued") then
        (mkJobManager (erase_first jid (queue_ st))
           (<[jid := set_error "canceled" (set_finished now (set_status "canceled" j))]> (jobs_ st))
           (next_id_ st) (running_ st) (active_measure_jobs_ st) (worker_ st) (monitors st) (submitting st), true)
      else if bool_decide (job_status j = "running") then
        (with_jobs st (<[jid := set_status "canceling" j]> (jobs_ st)), true)
      else (st, false)
  end.

(** The critical section of [stop]; the join is the worker reaching [LoopLeft]. *)
Definition request_stop st : JobManager :=
  mkJobManager (queue_ st) (jobs_ st) (next_id_ st) false (active_measure_jobs_ st) (worker_ st) (monitors st) (submitting st).

(** ** The worker thread *)

Definition out_of_range : string := "std::out_of_range".

(** [queue_.pop_front()] and marking the job [jid] running.  Popping an empty
    deque is undefined. *)
Definition pop_and_run (now : Z) st jid : res JobManager :=
  match queue_ st with
  | [] => Undef
  | _ :: q =>
      match jobs_ st !! jid with
      | None => Exn out_of_range
      | Some j =>
          Ok (mkJobManager q (<[jid := set_started now (set_status "running" j)]> (jobs_ st))
                (next_id_ st) (running_ st) (active_measure_jobs_ st) (Popped jid) (monitors st) (submitting st))
      end
  end.

Definition must_wait st : bool :=
  negb (bool_decide (active_measure_jobs_ st = ∅)) && running_ st.

(** The first critical section, once the wait on [cv_] is over; the worker
    keeps waiting while its condition is false. *)
Definition take_front (now : Z) st : res JobManager :=
  match queue_ st with
  | [] => if running_ st then Ok st else Ok (with_worker st LoopLeft)
  | jid :: _ =>
      match jobs_ st !! jid with
      | None => Exn out_of_range
      | Some jpeek =>
          if negb (bool_decide (job_type jpeek = "measure")) && must_wait st
          then Ok (with_worker st (WaitMeasure jid))
          else pop_and_run now st jid
      end
  end.

(** The worker wakes up from [measure_cv_]. *)
Definition wake (now : Z) st jid : res JobManager :=
  if must_wait st then Ok st else pop_and_run now st jid.

(** [run_info.params.value("duration_ms", 100)] in a [try] block. *)
Definition sleep_duration (info : JobInfo) : res Z :=
  match j_value get_int (job_params info) "duration_ms" 100%Z with
  | Exn _ => Ok 100%Z
  | r => r
  end.

Definition slept_result (ms : Z) : json :=
  JObj (mkobj [("message", JStr "slept"); ("duration_ms", JInt ms)]).

(** Copy the job and look at its type. *)
Definition fetch st jid : res JobManager :=
  match jobs_ st !! jid with
  | None => Exn out_of_range
  | Some info =>
      if bool_decide (job_type info = "sleep") then
        ms ← sleep_duration info; Ok (with_worker st (Sleeping jid info ms 0))
      else if bool_decide (job_type info = "measure") then Ok (with_worker st (Measuring jid info))
      else Ok (with_worker st (Finishing jid info (inr ("unknown job type: " +:+ job_type info))))
  end.

Definition cancel_requested st jid : bool :=
  match jobs_ st !! jid with
  | Some j => bool_decide (job_status j = "canceling") || bool_decide (job_status j = "canceled")
  | None => false
  end.

(** One round of the sleep loop; [slept] is an [int]. *)
Definition sleep_round st jid (info : JobInfo) (ms slept : Z) : res JobManager :=
  if bool_decide (slept < ms)%Z then
    if cancel_requested st jid then Ok (with_worker st (Finishing jid info (inr "canceled")))
    else if bool_decide (is_i32 (slept + 20)) then
      Ok (with_worker st (Sleeping jid info ms (slept + 20)))
    else Undef
  else Ok (with_worker st (Finishing jid info (inl (slept_result ms)))).

(** The body of a measure job; [script] is what running the script gives: no
    value, or the message of the error. *)
Definition measure st jid (info : JobInfo) (script : option string) : res JobManager :=
  match j_value get_string (job_params info) "script_path" EmptyString with
  | Ok path =>
      if empty? path then Ok (with_worker st (Finishing jid info (inr "missing script_path")))
      else
        match script with
        | Some err => Ok (with_worker st (Finishing jid info (inr ("Script error: " +:+ err))))
        | None =>
            Ok (mkJobManager (queue_ st) (jobs_ st) (next_id_ st) (running_ st)
                  ({[jid]} ∪ active_measure_jobs_ st)
                  (Finishing jid info (inl (JObj [("message", JStr "enqueued")])))
                  ({[jid]} ∪ monitors st) (submitting st))
        end
  | Exn e => Ok (with_worker st (Finishing jid info (inr e)))
  | Undef => Undef
  end.

(** The last critical section of a round. *)
Definition finish (now : Z) st jid (info : JobInfo) (outcome : json + string) : JobManager :=
  let st := with_worker st AtLoopHead in
  match jobs_ st !! jid with
  | None => st
  | Some j =>
      if negb (bool_decide (job_type info = "measure")) then
        with_jobs st (<[jid := set_finished now
          match outcome with
          | inl r => set_result r (set_status "completed" j)
          | inr e => set_error e (set_status "failed" j)
          end]> (jobs_ st))
      else
        match outcome with
        | inl _ => st
        | inr e =>
            mkJobManager (queue_ st)
              (<[jid := set_finished now (set_error e (set_status "failed" j))]> (jobs_ st))
              (next_id_ st) (running_ st) (active_measure_jobs_ st ∖ {[jid]}) (worker_ st) (monitors st) (submitting st)
        end
  end.

(** The critical section of the monitor thread of [jid]. *)
Definition monitor_done (now : Z) st jid (r : json) : JobManager :=
  let js := match jobs_ st !! jid with
            | Some j => <[jid := set_finished now (set_status "completed" (set_result r j))]> (jobs_ st)
            | None => jobs_ st
            end in
  mkJobManager (queue_ st) js (next_id_ st) (running_ st) (active_measure_jobs_ st ∖ {[jid]})
    (worker_ st) (monitors st ∖ {[jid]}) (submitting st).

(** The next critical section of the worker thread. *)
Definition worker_round (now : Z) (script : option string) st : res JobManager :=
  match worker_ st with
  | AtLoopHead => take_front now st
  | WaitMeasure jid => wake now st jid
  | Popped jid => fetch st jid
  | Sleeping jid info ms slept => sleep_round st jid info ms slept
  | Measuring jid info => measure st jid info script
  | Finishing jid info outcome => Ok (finish now st jid info outcome)
  | LoopLeft => Ok st
  end.

(** ** All interleavings *)

Inductive jlabel :=
| LDraw (jid : string) | LSubmit (jid : string) | LCancel (jid : string) | LStop | LWorker | LMonitor (jid : string).

(** Any number of threads may be inside [submit_job]: between a thread's two
    steps others may draw ids and push their jobs. *)
Inductive jstep : JobManager → jlabel → JobManager → Prop :=
| J_draw ms st type params st' info :
    (0 ≤ ms)%Z → draw_job ms st type params = (st', info) →
    jstep st (LDraw (job_id info)) (with_submitting st' (<[job_id info := info]> (submitting st')))
| J_submit st jid info :
    submitting st !! jid = Some info →
    jstep st (LSubmit jid) (push_job (with_submitting st (delete jid (submitting st))) info)
| J_cancel now st jid st' b : cancel_job now st jid = (st', b) → jstep st (LCancel jid) st'
| J_stop st : jstep st LStop (request_stop st)
| J_worker now script st st' : worker_round now script st = Ok st' → jstep st LWorker st'
| J_monitor now st jid r :
    jid ∈ monitors st → jstep st (LMonitor jid) (monitor_done now st jid r).

Inductive jsteps : JobManager → list jlabel → JobManager → Prop :=
| jsteps_nil st : jsteps st [] st
| jsteps_cons st l st1 ls st2 : jstep st l st1 → jsteps st1 ls st2 → jsteps st (l :: ls) st2.

(** ** Invariant *)

Definition live (j : JobInfo) : Prop := job_status j = "running" ∨ job_status j = "canceling".

(** Non-measure jobs run alone, unless the manager is shutting down. *)
Definition alone st (type : string) : Prop :=
  type ≠ "measure" → active_measure_jobs_ st = ∅ ∨ running_ st = false.

(** The job the worker thread is executing. *)
Definition executing st jid (type : string) : Prop :=
  ∃ j, jobs_ st !! jid = Some j ∧ job_type j = type ∧ live j ∧ (jid ∉ monitors st) ∧ alone st type.

Definition pc_ok st : Prop :=
  match worker_ st with
  | AtLoopHead | LoopLeft => True
  | WaitMeasure jid =>
      ∃ j, jobs_ st !! jid = Some j ∧ job_type j ≠ "measure" ∧
        ((job_status j = "queued" ∧ head (queue_ st) = Some jid) ∨ job_status j = "canceled")
  | Popped jid => ∃ type, executing st jid type
  | Sleeping jid info _ _ => job_type info ≠ "measure" ∧ executing st jid (job_type info)
  | Measuring jid info => job_type info = "measure" ∧ executing st jid (job_type info)
  | Finishing jid info outcome =>
      (job_type info = "measure" ∧ ∃ r, outcome = inl r) ∨ executing st jid (job_type info)
  end.

Record j_inv st : Prop := {
  ji_queue jid : jid ∈ queue_ st → ∃ j, jobs_ st !! jid = Some j ∧ job_status j = "queued";
  ji_nodup : NoDup (queue_ st);
  ji_ids jid : is_Some (jobs_ st !! jid) →
    ∃ ms n, (0 ≤ ms)%Z ∧ (0 ≤ n < next_id_ st)%Z ∧ jid = job_name ms n;
  ji_active : active_measure_jobs_ st = monitors st;
  ji_monitors jid : jid ∈ monitors st → ∃ j, jobs_ st !! jid = Some j ∧ live j;
  ji_pc : pc_ok st
}.

(** The jobs of the submitting threads are not known to the manager yet. *)
Definition d_inv st : Prop :=
  ∀ jid info, submitting st !! jid = Some info →
    job_id info = jid ∧ job_status info = "queued" ∧ jobs_ st !! jid = None ∧
    ∃ ms n, (0 ≤ ms)%Z ∧ (0 ≤ n < next_id_ st)%Z ∧ jid = job_name ms n.

Lemma live_not_queued j : live j → job_status j ≠ "queued".
Proof. intros [H|H]; by rewrite H. Qed.

Lemma new_job_manager_inv : j_inv new_job_manager.
Proof. split; cbn; try done; try set_solver; try constructor. by intros jid [? ?]. Qed.

Lemma elem_of_erase_first jid q x :
  NoDup q → x ∈ erase_first jid q ↔ x ∈ q ∧ x ≠ jid.
Proof.
  induction 1 as [|y q Hy Hq IH]; cbn; [set_solver|]. case_bool_decide as Heq; set_solver.
Qed.

Lemma NoDup_erase_first jid q : NoDup q → NoDup (erase_first jid q).
Proof.
  induction 1 as [|y q Hy Hq IH]; cbn; [constructor|]. case_bool_decide; [done|].
  constructor; [|done]. rewrite elem_of_erase_first by done. tauto.
Qed.

Lemma head_erase_first jid q x : head q = Some x → x ≠ jid → head (erase_first jid q) = Some x.
Proof. destruct q as [|y q]; [done|]. intros [= ->] Hne. cbn. by rewrite bool_decide_eq_false_2. Qed.

Lemma job_name_fresh st ms : j_inv st → (0 ≤ ms)%Z → jobs_ st !! job_name ms (next_id_ st) = None.
Proof.
  intros Hinv Hms. destruct (jobs_ st !! _) as [j|] eqn:E; [|done].
  destruct (ji_ids st Hinv _ (ex_intro _ j E)) as (ms' & k & H1 & H2 & H3).
  apply (stamped_id_inj "job-" "-"%char) in H3 as [_ ?]; [lia|by left|done|done].
Qed.

(** *** Requests keep the invariant *)

Lemma executing_mono st st' jid type :
  executing st jid type →
  (∀ j, jobs_ st !! jid = Some j → live j →
     ∃ j', jobs_ st' !! jid = Some j' ∧ job_type j' = job_type j ∧ live j') →
  (jid ∉ monitors st → jid ∉ monitors st') → (alone st type → alone st' type) →
  executing st' jid type.
Proof.
  intros (j & Hj & Ht & Hl & Hm & Ha) Hjobs Hmon Hal.
  destruct (Hjobs j Hj Hl) as (j' & Hj' & Ht' & Hl'). exists j'. split_and!; try done; auto. congruence.
Qed.

(** What a step of another thread may do to the worker's job. *)
Definition job_evolves st st' jid : Prop :=
  ∀ j, jobs_ st !! jid = Some j →
  ∃ j', jobs_ st' !! jid = Some j' ∧ job_type j' = job_type j ∧ (live j → live j') ∧
    (job_status j = "queued" → head (queue_ st) = Some jid →
       (job_status j' = "queued" ∧ head (queue_ st') = Some jid) ∨ job_status j' = "canceled") ∧
    (job_status j = "canceled" → job_status j' = "canceled").

Lemma pc_ok_other st st' :
  j_inv st → worker_ st' = worker_ st →
  (∀ jid, jid ∉ monitors st → job_evolves st st' jid) →
  monitors st' ⊆ monitors st → active_measure_jobs_ st' ⊆ active_measure_jobs_ st →
  (running_ st = false → running_ st' = false) → pc_ok st'.
Proof.
  intros Hinv Hw Hjobs Hm Ha Hr. pose proof (ji_pc st Hinv) as Hpc.
  assert (∀ type, alone st type → alone st' type) as Hal.
  { intros type H Ht. destruct (H Ht) as [He|]; [left; set_solver|right; auto]. }
  assert (∀ jid type, executing st jid type → executing st' jid type) as Hex.
  { intros jid type He. pose proof He as (_ & _ & _ & _ & Hn & _).
    eapply executing_mono; [exact He| |set_solver|auto].
    intros j Hj Hl. destruct (Hjobs jid Hn j Hj) as (j' & ? & ? & ? & _). by exists j'; auto. }
  unfold pc_ok in *. rewrite Hw. destruct (worker_ st) as [|jid|jid|jid info ms sl|jid info|jid info o|].
  - done.
  - destruct Hpc as (j & Hj & Ht & Hor).
    assert (jid ∉ monitors st) as Hn.
    { intros (j1 & Hj1 & [Hl|Hl])%(ji_monitors st Hinv); simplify_eq; naive_solver congruence. }
    destruct (Hjobs jid Hn j Hj) as (j' & Hj' & Ht' & _ & Hq & Hc).
    exists j'. split_and!; [done|congruence|]. destruct Hor as [[H1 H2]|H1]; [auto|right; auto].
  - destruct Hpc as [type He]. by exists type; auto.
  - naive_solver.
  - naive_solver.
  - naive_solver.
  - done.
Qed.

Lemma job_evolves_same st st' jid :
  jobs_ st' !! jid = jobs_ st !! jid → (head (queue_ st) = Some jid → head (queue_ st') = Some jid) →
  job_evolves st st' jid.
Proof. intros Hj Hq j E. exists j. rewrite Hj. split_and!; auto. Qed.

Lemma draw_inv ms st type params st' info :
  j_inv st → d_inv st → (0 ≤ ms)%Z → (0 ≤ next_id_ st)%Z → (next_id_ st + 1 < two64)%Z →
  draw_job ms st type params = (st', info) →
  let st1 := with_submitting st' (<[job_id info := info]> (submitting st')) in
  j_inv st1 ∧ d_inv st1.
Proof.
  intros Hinv Hd Hms H0 H1 E. pose proof (job_name_fresh st ms Hinv Hms) as Hfresh.
  unfold draw_job, make_job_id in E. simplify_eq/=.
  assert (wrap64 (next_id_ st + 1) = next_id_ st + 1)%Z as Hw by (apply wrap64_id; unfold is_u64; lia).
  pose proof Hinv as [? ? Hid ? ? ?]. split; [split; cbn; try done|].
  - rewrite Hw. intros jid (ms' & n & ? & ? & ?)%Hid. exists ms', n. split_and!; [done|lia..|done].
  - intros jid info. cbn. rewrite Hw. intros [[<- <-]|[Hne Hs]]%lookup_insert_Some; cbn.
    + split_and!; [done..|]. exists ms, (next_id_ st). split_and!; [done|lia..|done].
    + destruct (Hd _ _ Hs) as (? & ? & ? & ms' & n & ? & ? & ?). split_and!; [done..|].
      exists ms', n. split_and!; [done|lia..|done].
Qed.

Lemma push_inv st jid info :
  j_inv st → d_inv st → submitting st !! jid = Some info →
  let st1 := push_job (with_submitting st (delete jid (submitting st))) info in
  j_inv st1 ∧ d_inv st1.
Proof.
  intros Hinv Hd Hs. destruct (Hd _ _ Hs) as (<- & Hst & Hfresh & Hname).
  unfold push_job. cbn. rewrite Hfresh.
  assert (job_id info ∉ queue_ st) as Hnq.
  { intros (j & ? & _)%(ji_queue st Hinv). congruence. }
  split; [split; cbn|].
  - intros jid [Hin|Hin]%elem_of_app.
    + rewrite lookup_insert_ne by (intros <-; done). by apply (ji_queue st Hinv).
    + apply list_elem_of_singleton in Hin as ->. rewrite lookup_insert_eq. by eexists.
  - apply NoDup_app. split_and!; [apply (ji_nodup st Hinv)|set_solver|apply NoDup_singleton].
  - intros jid. rewrite lookup_insert. case_decide; subst; [done|]. apply (ji_ids st Hinv).
  - apply (ji_active st Hinv).
  - intros jid (j & Hj & Hl)%(ji_monitors st Hinv). exists j. split; [|done].
    rewrite lookup_insert_ne; [done|]. intros <-. congruence.
  - eapply (pc_ok_other st); try done. cbn. intros jid _ j Hj.
    apply job_evolves_same; [cbn; apply lookup_insert_ne; intros <-; congruence| |done].
    cbn. destruct (queue_ st); [done|]. by intros [= ->].
  - intros jid i. cbn. intros [Hne Hi]%lookup_delete_Some.
    destruct (Hd _ _ Hi) as (? & ? & ? & ?). split_and!; [done..| |done].
    by rewrite lookup_insert_ne.
Qed.

Lemma cancel_inv now st jid : j_inv st → j_inv (cancel_job now st jid).1.
Proof.
  intros Hinv. unfold cancel_job. destruct (jobs_ st !! jid) as [j|] eqn:Hj; [|done].
  case_bool_decide as Hq; [|case_bool_decide as Hr; [|done]]; cbn; split; cbn.
  - intros x [Hx Hne]%elem_of_erase_first; [|apply (ji_nodup st Hinv)].
    rewrite lookup_insert_ne by done. by apply (ji_queue st Hinv).
  - apply NoDup_erase_first, (ji_nodup st Hinv).
  - intros x. rewrite lookup_insert. case_decide; subst; intros ?; apply (ji_ids st Hinv); [by eexists|done].
  - apply (ji_active st Hinv).
  - intros x (jx & Hx & Hl)%(ji_monitors st Hinv). rewrite lookup_insert. case_decide; subst.
    + exfalso. destruct Hl; simplify_eq; congruence.
    + by exists jx.
  - eapply (pc_ok_other st); try done. intros x _. destruct (decide (x = jid)) as [->|Hne].
    + intros j0 Hj0. simplify_eq. cbn. rewrite lookup_insert_eq. eexists. split; [done|]. cbn.
      split_and!; [done|intros [?|?]; congruence|by right|congruence].
    + apply job_evolves_same; cbn; [by apply lookup_insert_ne|].
      intros ?. by apply head_erase_first.
  - intros x Hx. destruct (ji_queue st Hinv x Hx) as (jx & Hjx & ?). rewrite lookup_insert.
    case_decide; subst; [simplify_eq; congruence|by exists jx].
  - apply (ji_nodup st Hinv).
  - intros x. rewrite lookup_insert. case_decide; subst; intros ?; apply (ji_ids st Hinv); [by eexists|done].
  - apply (ji_active st Hinv).
  - intros x (jx & Hx & Hl)%(ji_monitors st Hinv). rewrite lookup_insert. case_decide; subst.
    + eexists. split; [done|]. by right.
    + by exists jx.
  - eapply (pc_ok_other st); try done. intros x _. destruct (decide (x = jid)) as [->|Hne].
    + intros j0 Hj0. simplify_eq. cbn. rewrite lookup_insert_eq. eexists. split; [done|]. cbn.
      split_and!; [done|by right|congruence..].
    + apply job_evolves_same; cbn; [by apply lookup_insert_ne|done].
Qed.

Lemma stop_inv st : j_inv st → j_inv (request_stop st).
Proof.
  intros Hinv. pose proof Hinv as [? ? ? ? ? ?]. split; cbn; try done.
  eapply (pc_ok_other st); try done. intros x _. by apply job_evolves_same.
Qed.

Lemma monitor_inv now st jid r : j_inv st → jid ∈ monitors st → j_inv (monitor_done now st jid r).
Proof.
  intros Hinv Hm. destruct (ji_monitors st Hinv jid Hm) as (j & Hj & Hl).
  unfold monitor_done. rewrite Hj. split; cbn.
  - intros x Hx. destruct (ji_queue st Hinv x Hx) as (jx & Hjx & Hs). rewrite lookup_insert.
    case_decide; subst; [exfalso; destruct Hl; simplify_eq; congruence|by exists jx].
  - apply (ji_nodup st Hinv).
  - intros x. rewrite lookup_insert. case_decide; subst; intros ?; apply (ji_ids st Hinv); [by eexists|done].
  - by rewrite (ji_active st Hinv).
  - intros x [Hx Hne]%elem_of_difference. rewrite lookup_insert_ne by set_solver.
    by apply (ji_monitors st Hinv).
  - eapply (pc_ok_other st); try done; cbn; [|set_solver..].
    intros x Hx. apply job_evolves_same; cbn; [|done]. apply lookup_insert_ne. by intros <-.
Qed.

(** *** The worker keeps the invariant *)

(** A step that only moves the worker thread. *)
Lemma with_worker_inv st pc : j_inv st → pc_ok (with_worker st pc) → j_inv (with_worker st pc).
Proof. intros [] ?. by split. Qed.

Lemma not_live_not_monitored st jid j :
  j_inv st → jobs_ st !! jid = Some j → ¬ live j → jid ∉ monitors st.
Proof. intros Hinv Hj Hl (j' & ? & ?)%(ji_monitors st Hinv). by simplify_eq. Qed.

Lemma pop_inv now st jid j st' :
  j_inv st → jobs_ st !! jid = Some j →
  (job_status j = "queued" ∧ head (queue_ st) = Some jid) ∨ job_status j = "canceled" →
  alone st (job_type j) → pop_and_run now st jid = Ok st' → j_inv st'.
Proof.
  intros Hinv Hj Hor Hal. unfold pop_and_run. destruct (queue_ st) as [|y q] eqn:Hq; [done|].
  rewrite Hj. intros [= <-].
  pose proof (ji_nodup st Hinv) as Hnd. rewrite Hq in Hnd. apply NoDup_cons in Hnd as [Hy Hnd].
  assert (¬ live j) as Hnl by (intros [?|?]; naive_solver congruence).
  assert (jid ∉ q) as Hnq.
  { intros Hin. destruct Hor as [[_ [= ->]]|Hc]; [done|].
    destruct (ji_queue st Hinv jid) as (j1 & ? & ?); [rewrite Hq; by right|]. simplify_eq. congruence. }
  pose proof (not_live_not_monitored st jid j Hinv Hj Hnl) as Hnm.
  split; cbn.
  - intros x Hx. rewrite lookup_insert_ne by (intros <-; done). apply (ji_queue st Hinv).
    rewrite Hq. by right.
  - done.
  - intros x. rewrite lookup_insert. case_decide; subst; intros ?; apply (ji_ids st Hinv); [by eexists|done].
  - apply (ji_active st Hinv).
  - intros x Hx. rewrite lookup_insert_ne by (intros <-; done). by apply (ji_monitors st Hinv).
  - exists (job_type j). eexists. cbn. rewrite lookup_insert_eq. split_and!; try done. by left.
Qed.

Lemma must_wait_false st type : must_wait st = false → alone st type.
Proof.
  unfold must_wait, alone. intros [H|H]%andb_false_iff _.
  - apply negb_false_iff in H. left. by apply bool_decide_eq_true in H.
  - by right.
Qed.

Lemma take_inv now st st' : j_inv st → take_front now st = Ok st' → j_inv st'.
Proof.
  intros Hinv. unfold take_front. destruct (queue_ st) as [|jid q] eqn:Hq.
  { destruct (running_ st); intros [= <-]; [done|]. by apply with_worker_inv. }
  destruct (ji_queue st Hinv jid) as (j & Hj & Hs); [rewrite Hq; left|]. rewrite Hj.
  case_bool_decide as Ht; cbn.
  - apply (pop_inv now st jid j); [done|done|left; by rewrite Hq|by intros ?].
  - destruct (must_wait st) eqn:Hw.
    + intros [= <-]. apply with_worker_inv; [done|]. exists j. cbn. rewrite Hq. by auto.
    + apply (pop_inv now st jid j); [done|done|left; by rewrite Hq|by apply must_wait_false].
Qed.

Lemma wake_inv now st jid st' :
  j_inv st → worker_ st = WaitMeasure jid → wake now st jid = Ok st' → j_inv st'.
Proof.
  intros Hinv Hw. unfold wake. destruct (must_wait st) eqn:Hm; [by intros [= <-]|].
  pose proof (ji_pc st Hinv) as Hpc. unfold pc_ok in Hpc. rewrite Hw in Hpc.
  destruct Hpc as (j & Hj & _ & Hor). apply (pop_inv now st jid j); [done..|by apply must_wait_false].
Qed.

Lemma fetch_inv st jid st' :
  j_inv st → worker_ st = Popped jid → fetch st jid = Ok st' → j_inv st'.
Proof.
  intros Hinv Hw. unfold fetch.
  pose proof (ji_pc st Hinv) as Hpc. unfold pc_ok in Hpc. rewrite Hw in Hpc.
  destruct Hpc as (type & He). pose proof He as (j & Hj & Ht & _). rewrite Hj, Ht.
  case_bool_decide as Hs; [|case_bool_decide].
  - destruct (sleep_duration j); cbn; intros [= <-]. apply with_worker_inv; [done|]. cbn.
    rewrite Ht. split; [by rewrite Hs|done].
  - intros [= <-]. apply with_worker_inv; [done|]. cbn. by rewrite Ht.
  - intros [= <-]. apply with_worker_inv; [done|]. cbn. right. by rewrite Ht.
Qed.

Lemma sleep_inv st jid info ms sl st' :
  j_inv st → worker_ st = Sleeping jid info ms sl → sleep_round st jid info ms sl = Ok st' → j_inv st'.
Proof.
  intros Hinv Hw. unfold sleep_round.
  pose proof (ji_pc st Hinv) as Hpc. unfold pc_ok in Hpc. rewrite Hw in Hpc. destruct Hpc as [Ht He].
  repeat case_bool_decide; try destruct (cancel_requested st jid); intros [= <-];
    apply with_worker_inv; try done; by right.
Qed.

Lemma measure_inv st jid info script st' :
  j_inv st → worker_ st = Measuring jid info → measure st jid info script = Ok st' → j_inv st'.
Proof.
  intros Hinv Hw. unfold measure.
  pose proof (ji_pc st Hinv) as Hpc. unfold pc_ok in Hpc. rewrite Hw in Hpc. destruct Hpc as [Ht He].
  destruct (j_value _ _ _ _) as [path|e|]; [|intros [= <-]; apply with_worker_inv; [done|by right]|done].
  case_bool_decide; [intros [= <-]; apply with_worker_inv; [done|by right]|].
  destruct script; intros [= <-]; [apply with_worker_inv; [done|by right]|].
  pose proof Hinv as [? ? ? Ha Hm ?]. split; cbn; try done.
  - by rewrite Ha.
  - intros x [->%elem_of_singleton|Hx]%elem_of_union; [|by apply Hm].
    destruct He as (j & Hj & _ & Hl & _). by exists j.
  - left. split; [done|]. by eexists.
Qed.

Lemma finish_job_inv now st jid info outcome :
  j_inv st → worker_ st = Finishing jid info outcome → j_inv (finish now st jid info outcome).
Proof.
  intros Hinv Hw. unfold finish.
  pose proof (ji_pc st Hinv) as Hpc. unfold pc_ok in Hpc. rewrite Hw in Hpc.
  assert (j_inv (with_worker st AtLoopHead)) as Hhead by by apply with_worker_inv.
  cbn [jobs_ with_worker]. destruct (jobs_ st !! jid) as [j|] eqn:Hj; [|done].
  destruct (bool_decide (job_type info = "measure")) eqn:Ht; cbn [negb].
  - apply bool_decide_eq_true in Ht. destruct outcome as [r|e]; [done|]. destruct Hpc as [[_ [? [=]]]|(j1 & ? & _ & Hl & Hnm & _)].
    simplify_eq. pose proof Hinv as [Hq Hnd Hid Ha Hm _]. split; cbn; try done.
    + intros x Hx. destruct (Hq x Hx) as (jx & Hjx & Hs). rewrite lookup_insert.
      case_decide; subst; [|by exists jx].
      exfalso. apply (live_not_queued j1); [done|congruence].
    + intros x. rewrite lookup_insert. case_decide; subst; intros ?; apply Hid; [by eexists|done].
    + rewrite Ha. set_solver.
    + intros x Hx. rewrite lookup_insert_ne by (intros <-; done). by apply Hm.
  - apply bool_decide_eq_false in Ht. destruct Hpc as [[? _]|(j1 & ? & _ & Hl & Hnm & _)]; [done|].
    simplify_eq. pose proof Hinv as [Hq Hnd Hid Ha Hm _]. split; cbn; try done.
    + intros x Hx. destruct (Hq x Hx) as (jx & Hjx & Hs). rewrite lookup_insert.
      case_decide; subst; [|by exists jx].
      exfalso. apply (live_not_queued j1); [done|congruence].
    + intros x. rewrite lookup_insert. case_decide; subst; intros ?; apply Hid; [by eexists|done].
    + intros x Hx. rewrite lookup_insert_ne by (intros <-; done). by apply Hm.
Qed.

Lemma worker_round_inv now script st st' :
  j_inv st → worker_round now script st = Ok st' → j_inv st'.
Proof.
  intros Hinv. unfold worker_round. destruct (worker_ st) eqn:Hw.
  - by apply take_inv.
  - by apply wake_inv.
  - by apply fetch_inv.
  - by apply sleep_inv.
  - by apply measure_inv.
  - intros [= <-]. by apply finish_job_inv.
  - by intros [= <-].
Qed.

(** ** Whole runs *)

(** What a step other than those of [submit_job] leaves alone. *)
Definition same_jobs st st' : Prop :=
  next_id_ st' = next_id_ st ∧ submitting st' = submitting st ∧ dom (jobs_ st') = dom (jobs_ st).

Lemma dom_update st jid j j' : jobs_ st !! jid = Some j → dom (<[jid := j']> (jobs_ st)) = dom (jobs_ st).
Proof. intros H. apply dom_insert_lookup_L. by eexists. Qed.
#[local] Hint Resolve dom_update : core.

Lemma same_jobs_round now script st st' :
  worker_round now script st = Ok st' → same_jobs st st'.
Proof.
  unfold worker_round, take_front, wake, pop_and_run, fetch, sleep_round, measure, finish, same_jobs.
  destruct (worker_ st); intros H; simplify_eq/=; try done;
    repeat (case_match; simplify_eq/=; try by (split_and!; eauto)).
  all: try destruct (sleep_duration _); by simplify_eq/=.
Qed.

Lemma same_jobs_cancel now st jid : same_jobs st (cancel_job now st jid).1.
Proof. unfold cancel_job, same_jobs. repeat case_match; cbn; split_and!; eauto. Qed.

Lemma same_jobs_monitor now st jid r : same_jobs st (monitor_done now st jid r).
Proof. unfold monitor_done, same_jobs. cbn. case_match; split_and!; eauto. Qed.

Lemma same_jobs_inv st st' :
  same_jobs st st' → d_inv st → d_inv st' ∧ (next_id_ st' ≤ next_id_ st + 1)%Z ∧
  ((0 ≤ next_id_ st)%Z → (0 ≤ next_id_ st')%Z).
Proof.
  intros (Hn & Hs & Hdom) Hd. split; [|lia]. intros jid info. rewrite Hn, Hs. intros Hi.
  destruct (Hd _ _ Hi) as (? & ? & Hnone & ?). split_and!; [done..| |done].
  apply not_elem_of_dom. rewrite Hdom. by apply not_elem_of_dom.
Qed.

Lemma jstep_inv st l st' :
  jstep st l st' → j_inv st → d_inv st → (0 ≤ next_id_ st)%Z → (next_id_ st + 1 < two64)%Z →
  (j_inv st' ∧ d_inv st') ∧ (0 ≤ next_id_ st' ≤ next_id_ st + 1)%Z.
Proof.
  intros Hs Hinv Hd H0 H1.
  destruct Hs as [ms st type params st' info Hms Hs|st jid info Hs|now st jid st' b Hs|st|now script st st' Hs
                 |now st jid r Hm].
  - split; [apply (draw_inv ms st type params _ _ Hinv Hd Hms H0 H1 Hs)|]. unfold draw_job, make_job_id in Hs. simplify_eq/=.
    rewrite wrap64_id by (unfold is_u64; lia). lia.
  - split; [apply (push_inv st jid info Hinv Hd Hs)|cbn; lia].
  - pose proof (cancel_inv now st jid Hinv) as Hi. pose proof (same_jobs_cancel now st jid) as Hsame.
    rewrite Hs in Hi, Hsame. destruct (same_jobs_inv _ _ Hsame Hd) as (? & ? & ?). cbn in *. auto.
  - split; [|cbn; lia]. split; [by apply stop_inv|done].
  - pose proof (worker_round_inv _ _ _ _ Hinv Hs). apply same_jobs_round in Hs.
    destruct (same_jobs_inv _ _ Hs Hd) as (? & ? & ?). auto.
  - pose proof (monitor_inv now st jid r Hinv Hm).
    destruct (same_jobs_inv _ _ (same_jobs_monitor now st jid r) Hd) as (? & ? & ?). auto.
Qed.

Lemma jsteps_inv st ls st' :
  jsteps st ls st' → j_inv st → d_inv st → (0 ≤ next_id_ st)%Z →
  (next_id_ st + Z.of_nat (length ls) < two64)%Z → j_inv st' ∧ d_inv st'.
Proof.
  induction 1 as [st|st l st1 ls st2 Hs Hss IH]; intros Hinv Hd H0 H1; [done|]. cbn in H1.
  destruct (jstep_inv _ _ _ Hs Hinv Hd H0) as [[Hi Hdi] Hn]; [lia|]. apply IH; [done|done|lia|lia].
Qed.

(** States the server can reach with fewer than 2^64 - 1 steps. *)
Definition reachable st : Prop :=
  ∃ ls, jsteps new_job_manager ls st ∧ (Z.of_nat (length ls) + 1 < two64)%Z.

Lemma reachable_invs st : reachable st → j_inv st ∧ d_inv st.
Proof.
  intros (ls & Hs & Hlen). apply (jsteps_inv _ _ _ Hs new_job_manager_inv); cbn; try lia. by intros ? ?.
Qed.

Lemma reachable_inv st : reachable st → j_inv st.
Proof. intros H. apply (reachable_invs st H). Qed.

(** The type of the job the worker thread has in hand. *)
Definition type_in_hand st : option string :=
  match worker_ st with
  | Popped jid => job_type <$> jobs_ st !! jid
  | Sleeping _ info _ _ | Measuring _ info | Finishing _ info _ => Some (job_type info)
  | _ => None
  end.

(** C18. Non-measure jobs run alone: in every reachable state, while the
    manager is not stopping, no measure job is active and no monitor thread runs
    as long as the worker has a job of another type in hand. *)
Theorem measure_exclusion st type :
  reachable st → running_ st = true → type_in_hand st = Some type → type ≠ "measure" →
  active_measure_jobs_ st = ∅ ∧ monitors st = ∅.
Proof.
  intros Hr%reachable_inv Hrun Hty Hne. pose proof (ji_active st Hr) as Ha.
  assert (alone st type) as Hal.
  { pose proof (ji_pc st Hr) as Hpc. unfold pc_ok, type_in_hand in *.
    destruct (worker_ st) as [| | jid| | | |]; simplify_eq/=.
    - destruct Hpc as (t & j & Hj & <- & _ & _ & H). rewrite Hj in Hty. by simplify_eq/=.
    - by destruct Hpc as (_ & j & _ & _ & _ & _ & H).
    - by destruct Hpc as (_ & j & _ & _ & _ & _ & H).
    - destruct Hpc as [[? _]|(j & _ & _ & _ & _ & H)]; done. }
  destruct (Hal Hne) as [He|He]; [|congruence]. by rewrite <-Ha.
Qed.

Lemma executing_status st jid type j :
  executing st jid type → jobs_ st !! jid = Some j → live j.
Proof. intros (j' & ? & _ & ? & _) ?. by simplify_eq. Qed.

Definition finished (j : JobInfo) : Prop := job_status j = "completed" ∨ job_status j = "failed".

Lemma live_not_finished j : live j → ¬ finished j.
Proof. unfold live, finished. intros [H|H] [H'|H']; congruence. Qed.

(** The worker only touches the job it has in hand or is about to start. *)
Lemma worker_round_finished now script st st' jid j :
  j_inv st → worker_round now script st = Ok st' → jobs_ st !! jid = Some j → finished j →
  jobs_ st' !! jid = Some j.
Proof.
  intros Hinv H Hj Hf. pose proof (ji_pc st Hinv) as Hpc. unfold pc_ok in Hpc.
  assert (∀ now st' x jx, pop_and_run now st x = Ok st' → jobs_ st !! x = Some jx → ¬ finished jx →
            jobs_ st' !! jid = Some j) as Hpop.
  { intros n s x jx Hp Hx Hn. unfold pop_and_run in Hp. rewrite Hx in Hp.
    destruct (queue_ st); simplify_eq/=. rewrite lookup_insert_ne; [done|]. intros <-. by simplify_eq. }
  unfold worker_round in H. destruct (worker_ st) as [|x|x|x info ms sl|x info|x info o|].
  - unfold take_front in H. destruct (queue_ st) as [|x q] eqn:Hq.
    { destruct (running_ st); by simplify_eq. }
    destruct (ji_queue st Hinv x) as (jx & Hx & Hs); [rewrite Hq; left|]. rewrite Hx in H.
    case_match; simplify_eq/=; [done|]. eapply Hpop; [done|done|]. unfold finished. rewrite Hs. naive_solver.
  - unfold wake in H. destruct (must_wait st); simplify_eq/=; [done|].
    destruct Hpc as (jx & Hx & _ & Hor). eapply Hpop; [done|done|]. unfold finished.
    destruct Hor as [[Hs _]|Hs]; rewrite Hs; naive_solver.
  - unfold fetch in H. destruct (jobs_ st !! x) as [jx|]; [|done].
    repeat (case_match; simplify_eq/=; try done). by destruct (sleep_duration jx); simplify_eq/=.
  - unfold sleep_round in H. repeat (case_match; simplify_eq/=; try done).
  - unfold measure in H. repeat (case_match; simplify_eq/=; try done).
  - injection H as <-. unfold finish. cbn [jobs_ with_worker].
    destruct (jobs_ st !! x) as [jx|] eqn:Hx; [|done].
    destruct (decide (x = jid)) as [->|Hne].
    + destruct Hpc as [[Ht [r ->]]|He].
      * by rewrite bool_decide_eq_true_2 by done.
      * exfalso. simplify_eq. by apply (live_not_finished j); [eapply executing_status|].
    + repeat case_match; cbn; by rewrite ?lookup_insert_ne.
  - by simplify_eq.
Qed.

(** C19. A finished job is never touched again: once its status is "completed"
    or "failed", no step of any thread changes any field of it. *)
Theorem finished_jobs_final st l st' jid j :
  reachable st → jstep st l st' → jobs_ st !! jid = Some j → finished j → jobs_ st' !! jid = Some j.
Proof.
  intros [Hr Hd]%reachable_invs Hs Hj Hf.
  destruct Hs as [ms st type params st' x Hms Hs|st x info Hs|now st x st' b Hs|st|now script st st' Hs
                 |now st x r Hm].
  - unfold draw_job, make_job_id in Hs. by simplify_eq/=.
  - destruct (Hd _ _ Hs) as (<- & _ & Hfresh & _). unfold push_job. cbn. rewrite Hfresh.
    rewrite lookup_insert_ne; [done|]. intros <-. congruence.
  - unfold cancel_job in Hs. destruct (jobs_ st !! x) as [jx|] eqn:Hx; simplify_eq; [|done].
    destruct (decide (x = jid)) as [->|Hne]; [|repeat (case_match; simplify_eq/=); by rewrite ?lookup_insert_ne].
    simplify_eq. rewrite !bool_decide_eq_false_2 in Hs by (destruct Hf; congruence). by simplify_eq.
  - done.
  - by eapply worker_round_finished.
  - unfold monitor_done. destruct (ji_monitors st Hr x Hm) as (jx & Hx & Hl). rewrite Hx. cbn.
    rewrite lookup_insert_ne; [done|]. intros <-. simplify_eq. by eapply live_not_finished.
Qed.

(** ** Runs in which nobody cancels the job the worker is waiting to start *)

Inductive clean_steps : JobManager → list jlabel → JobManager → Prop :=
| clean_nil st : clean_steps st [] st
| clean_cons st l st1 ls st2 :
    jstep st l st1 → (∀ jid, l = LCancel jid → worker_ st ≠ WaitMeasure jid) →
    clean_steps st1 ls st2 → clean_steps st (l :: ls) st2.

(** The jobs that were queued, in the order in which the threads came through
    the critical section of [submit_job]. *)
Definition pushed (ls : list jlabel) : list string :=
  omap (λ l, match l with LSubmit jid => Some jid | _ => None end) ls.

Record k_inv (h : list string) st : Prop := {
  k_base : j_inv st;
  k_drawn : d_inv st;
  k_queued jid j : jobs_ st !! jid = Some j → job_status j = "queued" → jid ∈ queue_ st;
  k_wait jid : worker_ st = WaitMeasure jid → head (queue_ st) = Some jid;
  k_order : queue_ st `sublist_of` h;
  k_once : NoDup h;
  k_known jid : jid ∈ h → is_Some (jobs_ st !! jid)
}.

Lemma erase_first_sublist jid q : erase_first jid q `sublist_of` q.
Proof.
  induction q as [|x q IH]; cbn; [constructor|]. case_bool_decide; by constructor.
Qed.

(** A worker section either pops the head or leaves the queue alone, and never
    makes a job queued. *)
Lemma worker_round_queue h now script st st' :
  k_inv h st → worker_round now script st = Ok st' →
  (queue_ st' = queue_ st ∧ (∀ jid, worker_ st' ≠ Popped jid ∨ worker_ st = Popped jid) ∧
   (∀ jid, worker_ st' = WaitMeasure jid → head (queue_ st) = Some jid) ∧
   ∀ jid j', jobs_ st' !! jid = Some j' → job_status j' = "queued" →
     ∃ j, jobs_ st !! jid = Some j ∧ job_status j = "queued") ∨
  (∃ jid j, queue_ st = jid :: queue_ st' ∧ worker_ st' = Popped jid ∧
   jobs_ st' = <[jid := set_started now (set_status "running" j)]> (jobs_ st)).
Proof.
  intros Hk H. pose proof (k_base h st Hk) as Hinv.
  assert (∀ jid, head (queue_ st) = Some jid → pop_and_run now st jid = Ok st' →
    ∃ jid j, queue_ st = jid :: queue_ st' ∧ worker_ st' = Popped jid ∧
      jobs_ st' = <[jid := set_started now (set_status "running" j)]> (jobs_ st)) as Hpop.
  { intros jid Hh Hp. unfold pop_and_run in Hp. destruct (queue_ st) as [|y q]; [done|].
    cbn in Hh. simplify_eq. destruct (jobs_ st !! jid) as [j|]; simplify_eq/=. by exists jid, j. }
  unfold worker_round in H. destruct (worker_ st) as [|x|x|x info ms sl|x info|x info o|] eqn:Hw.
  - unfold take_front in H. destruct (queue_ st) as [|x q] eqn:Hq.
    { left. destruct (running_ st); simplify_eq/=; split_and!; try done; rewrite ?Hw; auto; by eauto. }
    destruct (jobs_ st !! x) as [jx|] eqn:Hx; [|done].
    destruct (negb _ && must_wait st); simplify_eq/=; [left; split_and!; naive_solver|].
    right. by eapply Hpop.
  - unfold wake in H. pose proof (k_wait h st Hk x Hw) as Hh.
    destruct (must_wait st); simplify_eq/=; [left; split_and!; rewrite ?Hw; naive_solver|].
    right. by eapply Hpop.
  - left. unfold fetch in H. destruct (jobs_ st !! x) as [jx|] eqn:Hx; [|done].
    repeat (case_match; simplify_eq/=; try (split_and!; naive_solver)).
    destruct (sleep_duration jx); simplify_eq/=. split_and!; naive_solver.
  - left. unfold sleep_round in H. repeat (case_match; simplify_eq/=); split_and!; naive_solver.
  - left. unfold measure in H. repeat (case_match; simplify_eq/=); split_and!; naive_solver.
  - left. injection H as <-. unfold finish. cbn [jobs_ with_worker].
    destruct (jobs_ st !! x) as [jx|] eqn:Hx; [|split_and!; cbn; naive_solver].
    assert (∀ jf, job_status jf ≠ "queued" → ∀ y j', <[x := jf]> (jobs_ st) !! y = Some j' →
      job_status j' = "queued" → ∃ j, jobs_ st !! y = Some j ∧ job_status j = "queued") as Hset.
    { intros jf Hf y j' Hy Hs. rewrite lookup_insert in Hy. case_decide; [by simplify_eq|by eauto]. }
    destruct (negb _); [|destruct o]; cbn; split_and!; try done; try naive_solver;
      apply Hset; by try destruct o.
  - simplify_eq. left. rewrite Hw. split_and!; naive_solver.
Qed.

Lemma known_dom (h : list string) st st' :
  same_jobs st st' → (∀ jid, jid ∈ h → is_Some (jobs_ st !! jid)) →
  ∀ jid, jid ∈ h → is_Some (jobs_ st' !! jid).
Proof.
  intros (_ & _ & Hd) Hk jid Hin. apply elem_of_dom. rewrite Hd. by apply elem_of_dom, Hk.
Qed.

Lemma k_push h st jid info :
  k_inv h st → submitting st !! jid = Some info →
  k_inv (h ++ [jid]) (push_job (with_submitting st (delete jid (submitting st))) info).
Proof.
  intros Hk Hs. destruct Hk as [Hinv Hd Hq Hw Ho Hn Hkn].
  destruct (push_inv _ _ _ Hinv Hd Hs) as [Hinv' Hd'].
  destruct (Hd _ _ Hs) as (<- & Hst & Hfresh & _).
  unfold push_job in *. cbn in *. rewrite Hfresh in *. split; [done|done|..]; cbn.
  - intros jid j. rewrite lookup_insert. case_decide; subst; [set_solver|].
    intros Hj Hqd. apply elem_of_app. left. by eapply Hq.
  - intros jid Hwj. specialize (Hw jid Hwj). by destruct (queue_ st).
  - by apply sublist_app.
  - apply NoDup_app. split_and!; [done| |apply NoDup_singleton].
    intros x Hx Heq. apply list_elem_of_singleton in Heq as ->. destruct (Hkn _ Hx). congruence.
  - intros jid [Hin|Hin]%elem_of_app; [|apply list_elem_of_singleton in Hin as ->; rewrite lookup_insert_eq; by eexists].
    rewrite lookup_insert_is_Some. right. split; [|by apply Hkn].
    intros <-. destruct (Hkn _ Hin). congruence.
Qed.

Lemma k_cancel h now st x :
  k_inv h st → worker_ st ≠ WaitMeasure x → k_inv h (cancel_job now st x).1.
Proof.
  intros Hk Hclean. pose proof (cancel_inv now st x (k_base h st Hk)) as Hinv'.
  pose proof (same_jobs_cancel now st x) as Hsame.
  destruct (same_jobs_inv _ _ Hsame (k_drawn h st Hk)) as [Hd' _].
  pose proof (known_dom _ _ _ Hsame (k_known h st Hk)) as Hkn.
  pose proof Hk as [Hinv _ Hqd Hw Ho Hn _]. unfold cancel_job in *.
  destruct (jobs_ st !! x) as [jx|] eqn:Hx; [|done].
  case_bool_decide as Hq; [|case_bool_decide; [|done]]; (split; [done|done|..]); cbn; try done.
  - intros jid j. rewrite lookup_insert. case_decide; [intros ? Hst; simplify_eq|].
    intros Hj Hs. apply elem_of_erase_first; [apply (ji_nodup st Hinv)|]. split; [|done]. by eapply Hqd.
  - intros jid Hwj. apply head_erase_first; [by apply Hw|]. by intros ->.
  - etrans; [apply erase_first_sublist|done].
  - intros jid j. rewrite lookup_insert. case_decide; [intros ? Hst; simplify_eq|]. apply Hqd.
Qed.

Lemma k_worker h now script st st' :
  k_inv h st → worker_round now script st = Ok st' → k_inv h st'.
Proof.
  intros Hk Hs. pose proof (worker_round_inv _ _ _ _ (k_base h st Hk) Hs) as Hinv'.
  pose proof (same_jobs_round _ _ _ _ Hs) as Hsame.
  destruct (same_jobs_inv _ _ Hsame (k_drawn h st Hk)) as [Hd' _].
  pose proof (known_dom _ _ _ Hsame (k_known h st Hk)) as Hkn. pose proof Hk as [_ _ Hqd _ Ho Hn _].
  destruct (worker_round_queue _ _ _ _ _ Hk Hs) as [(Hq & _ & Hw & Hj)|(jid & j & Hq & Hw & Hj)].
  - split; rewrite ?Hq; try done.
    intros jid j' Hj' Hs'. destruct (Hj jid j' Hj' Hs') as (j & ? & ?). by eapply Hqd.
  - rewrite Hq in Ho. split; [done|done| |congruence| |done|done].
    + intros x jx. rewrite Hj, lookup_insert. case_decide; [intros ? Hst; simplify_eq|].
      intros Hx Hst. pose proof (Hqd x jx Hx Hst) as Hin. rewrite Hq in Hin. set_solver.
    + etrans; [|exact Ho]. by apply sublist_cons.
Qed.

Lemma k_step h st l st' :
  jstep st l st' → k_inv h st → (∀ jid, l = LCancel jid → worker_ st ≠ WaitMeasure jid) →
  (0 ≤ next_id_ st)%Z → (next_id_ st + 1 < two64)%Z → k_inv (h ++ pushed [l]) st'.
Proof.
  intros Hs Hk Hclean H0 H1.
  destruct (jstep_inv _ _ _ Hs (k_base h st Hk) (k_drawn h st Hk) H0 H1) as [[Hinv' Hd'] _].
  destruct Hs as [ms st type params st' info Hms Hs|st jid info Hs|now st x st' b Hs|st|now script st st' Hs
                 |now st x r Hm]; cbn; rewrite ?app_nil_r.
  - unfold draw_job, make_job_id in Hs. simplify_eq/=. by destruct Hk.
  - by apply k_push.
  - pose proof (k_cancel h now st x Hk (Hclean x eq_refl)) as Hc. by rewrite Hs in Hc.
  - by destruct Hk.
  - by eapply k_worker.
  - pose proof (known_dom _ _ _ (same_jobs_monitor now st x r) (k_known h st Hk)) as Hkn.
    destruct Hk as [_ _ Hqd ? ? ? _]. split; cbn; try done.
    intros jid j. unfold monitor_done. cbn. destruct (jobs_ st !! x) as [jx|] eqn:Hx; [|apply Hqd].
    rewrite lookup_insert. case_decide; [intros ? Hst; simplify_eq|]. apply Hqd.
Qed.

Lemma k_steps h st ls st' :
  clean_steps st ls st' → k_inv h st → (0 ≤ next_id_ st)%Z →
  (next_id_ st + Z.of_nat (length ls) < two64)%Z → k_inv (h ++ pushed ls) st'.
Proof.
  intros Hss. revert h. induction Hss as [st|st l st1 ls st2 Hs Hc Hss IH]; intros h Hk H0 H1.
  { by rewrite app_nil_r. }
  cbn [length] in H1.
  destruct (jstep_inv _ _ _ Hs (k_base h st Hk) (k_drawn h st Hk) H0) as [_ Hn]; [lia|].
  replace (h ++ pushed (l :: ls)) with ((h ++ pushed [l]) ++ pushed ls)
    by (rewrite <- app_assoc; f_equal; by destruct l).
  apply IH; [|lia|lia]. apply (k_step h st l); try done. lia.
Qed.

Lemma new_k_inv : k_inv [] new_job_manager.
Proof.
  split; [apply new_job_manager_inv|by intros ? ?|done..|apply sublist_nil_l|constructor|by intros ? ?%elem_of_nil].
Qed.

(** C20. The queue is faithful and fair: in every run in which nobody cancels
    the very job the worker thread is waiting to start, the queue holds exactly
    the jobs whose status is "queued", each once, in the order in which the
    submitting threads pushed them, no job is pushed twice, and the job the
    worker starts is always the one at the front.  The threads draw the
    numbers of their jobs before they take the lock, so the order of the queue
    need not be that of the numbers. *)
Theorem queue_faithful ls st :
  clean_steps new_job_manager ls st → (Z.of_nat (length ls) + 1 < two64)%Z →
  (∀ jid, jid ∈ queue_ st ↔ ∃ j, jobs_ st !! jid = Some j ∧ job_status j = "queued") ∧
  NoDup (queue_ st) ∧ queue_ st `sublist_of` pushed ls ∧ NoDup (pushed ls) ∧
  (∀ st' jid, jstep st LWorker st' → worker_ st' = Popped jid → worker_ st ≠ Popped jid →
     queue_ st = jid :: queue_ st').
Proof.
  intros Hs Hlen.
  assert (k_inv (pushed ls) st) as Hk by (apply (k_steps [] _ _ _ Hs new_k_inv); cbn; lia).
  pose proof (k_base _ st Hk) as Hinv. split_and!.
  - intros jid. split; [apply (ji_queue st Hinv)|]. intros (j & Hj & Hst). by eapply k_queued.
  - apply (ji_nodup st Hinv).
  - apply (k_order _ st Hk).
  - apply (k_once _ st Hk).
  - intros st' jid Hstep Hw Hw'. inversion Hstep as [| | | |now script ? ? Hr|]; subst.
    destruct (worker_round_queue _ _ _ _ _ Hk Hr) as [(_ & H & _)|(x & j & Hq & Hx & _)].
    + by destruct (H jid).
    + congruence.
Qed.

(** ** Jobs that are lost *)

(** A queued job that is not in the queue and that the worker is not about to
    start. *)
Definition lost st jid : Prop :=
  (jid ∉ queue_ st) ∧ worker_ st ≠ WaitMeasure jid ∧
  ∃ j, jobs_ st !! jid = Some j ∧ job_status j = "queued".

Definition canceled_for_good st jid : Prop :=
  (jid ∉ queue_ st) ∧ worker_ st ≠ WaitMeasure jid ∧
  ∃ j, jobs_ st !! jid = Some j ∧ job_status j = "canceled".

(** A worker section leaves a job alone that is neither queued up nor in its
    hands. *)
Lemma worker_round_other now script st st' jid j :
  j_inv st → worker_round now script st = Ok st' → jid ∉ queue_ st → worker_ st ≠ WaitMeasure jid →
  jobs_ st !! jid = Some j → job_status j = "queued" ∨ job_status j = "canceled" →
  jobs_ st' !! jid = Some j ∧ (jid ∉ queue_ st') ∧ worker_ st' ≠ WaitMeasure jid.
Proof.
  intros Hinv H Hq Hw Hj Hs. pose proof (ji_pc st Hinv) as Hpc. unfold pc_ok in Hpc.
  assert (¬ live j) as Hnl by (intros [?|?]; naive_solver congruence).
  assert (∀ x, pop_and_run now st x = Ok st' → x ≠ jid →
    jobs_ st' !! jid = Some j ∧ (jid ∉ queue_ st') ∧ worker_ st' ≠ WaitMeasure jid) as Hpop.
  { intros x Hp Hx. unfold pop_and_run in Hp. destruct (queue_ st) as [|y q]; [done|].
    destruct (jobs_ st !! x); simplify_eq/=. rewrite lookup_insert_ne by done. split_and!; set_solver. }
  unfold worker_round in H. destruct (worker_ st) as [|x|x|x info ms sl|x info|x info o|] eqn:Hpcs.
  - unfold take_front in H. destruct (queue_ st) as [|x q] eqn:Hqs.
    { destruct (running_ st); simplify_eq/=; rewrite ?Hpcs, ?Hqs; done. }
    assert (x ≠ jid) as Hx by set_solver. destruct (jobs_ st !! x); [|done].
    case_match; simplify_eq/=; [|by apply (Hpop x)]. rewrite Hqs. split_and!; [done|set_solver|congruence].
  - unfold wake in H. destruct (must_wait st); simplify_eq/=; [by rewrite Hpcs|].
    apply (Hpop x); [done|congruence].
  - unfold fetch in H. destruct (jobs_ st !! x) as [jx|]; [|done].
    repeat (case_match; simplify_eq/=; try done). by destruct (sleep_duration jx); simplify_eq/=.
  - unfold sleep_round in H. repeat (case_match; simplify_eq/=; try done).
  - unfold measure in H. repeat (case_match; simplify_eq/=; try done).
  - injection H as <-. unfold finish. cbn [jobs_ with_worker].
    destruct (jobs_ st !! x) as [jx|] eqn:Hx; [|done].
    destruct (decide (x = jid)) as [->|Hne].
    + destruct Hpc as [[Ht [r ->]]|He].
      * by rewrite bool_decide_eq_true_2 by done.
      * exfalso. simplify_eq. apply Hnl. by eapply executing_status.
    + repeat case_match; cbn; by rewrite ?lookup_insert_ne.
  - simplify_eq. by rewrite Hpcs.
Qed.

Lemma lost_step st l st' jid :
  jstep st l st' → j_inv st → d_inv st → lost st jid ∨ canceled_for_good st jid →
  lost st' jid ∨ canceled_for_good st' jid.
Proof.
  intros Hs Hinv Hd Hl.
  assert (∃ j, (jid ∉ queue_ st) ∧ worker_ st ≠ WaitMeasure jid ∧ jobs_ st !! jid = Some j ∧
            (job_status j = "queued" ∨ job_status j = "canceled")) as (j & Hq & Hw & Hj & Hst).
  { destruct Hl as [(? & ? & j & ? & ?)|(? & ? & j & ? & ?)]; exists j; auto. }
  assert ((jid ∉ queue_ st') ∧ worker_ st' ≠ WaitMeasure jid ∧
          ∃ j', jobs_ st' !! jid = Some j' ∧ (job_status j' = "queued" ∨ job_status j' = "canceled"))
    as (H1 & H2 & j' & H3 & [H4|H4]); [|left; by repeat (split || exists j')..|right; by repeat (split || exists j')].
  destruct Hs as [ms st type params st' x Hms Hs|st x info Hs|now st x st' b Hs|st|now script st st' Hs
                 |now st x r Hm].
  - unfold draw_job, make_job_id in Hs. simplify_eq/=. by eauto.
  - destruct (Hd _ _ Hs) as (<- & _ & Hfresh & _). unfold push_job. cbn. rewrite Hfresh.
    assert (job_id info ≠ jid) by congruence.
    split_and!; [set_solver|done|]. rewrite lookup_insert_ne by done. by exists j.
  - unfold cancel_job in Hs. destruct (jobs_ st !! x) as [jx|] eqn:Hx; simplify_eq; [|by eauto].
    destruct (decide (x = jid)) as [->|Hne].
    + simplify_eq. case_bool_decide; [|rewrite bool_decide_eq_false_2 in Hs by naive_solver congruence];
        simplify_eq/=; [|by eauto].
      rewrite lookup_insert_eq. split_and!; [|done|by eexists; split; [done|right]].
      intros [??]%elem_of_erase_first; [done|apply (ji_nodup st Hinv)].
    + repeat case_bool_decide; simplify_eq/=; rewrite ?lookup_insert_ne by done; try by eauto.
      split_and!; [|done|by eauto]. intros [??]%elem_of_erase_first; [done|apply (ji_nodup st Hinv)].
  - by eauto.
  - destruct (worker_round_other _ _ _ _ _ _ Hinv Hs Hq Hw Hj Hst) as (? & ? & ?). by eauto.
  - unfold monitor_done. destruct (ji_monitors st Hinv x Hm) as (jx & Hx & Hlx). rewrite Hx. cbn.
    split_and!; [done|done|]. rewrite lookup_insert_ne; [by eauto|]. intros <-. simplify_eq.
    destruct Hlx; naive_solver congruence.
Qed.

Lemma lost_steps st ls st' jid :
  jsteps st ls st' → j_inv st → d_inv st → (0 ≤ next_id_ st)%Z →
  (next_id_ st + Z.of_nat (length ls) < two64)%Z →
  lost st jid ∨ canceled_for_good st jid → lost st' jid ∨ canceled_for_good st' jid.
Proof.
  induction 1 as [st|st l st1 ls st2 Hs Hss IH]; intros Hinv Hd H0 H1 Hl; [done|]. cbn in H1.
  destruct (jstep_inv _ _ _ Hs Hinv Hd H0) as [[Hi Hdi] Hn]; [lia|].
  apply IH; [done|done|lia|lia|]. by eapply lost_step.
Qed.

(** ** Executable runs *)

Inductive jevent :=
| EDraw (ms : Z) (type : string) (params : json) | EPush (jid : string) | ECancel (jid : string) | EStop
| EWorker (script : option string) | EMonitor (jid : string) (r : json).

Definition jexec st (e : jevent) : res JobManager :=
  match e with
  | EDraw ms type params =>
      let '(st', info) := draw_job ms st type params in
      if bool_decide (0 ≤ ms)%Z
      then Ok (with_submitting st' (<[job_id info := info]> (submitting st'))) else Undef
  | EPush jid =>
      match submitting st !! jid with
      | Some info => Ok (push_job (with_submitting st (delete jid (submitting st))) info)
      | None => Undef
      end
  | ECancel jid => Ok (cancel_job 0 st jid).1
  | EStop => Ok (request_stop st)
  | EWorker script => worker_round 0 script st
  | EMonitor jid r => if bool_decide (jid ∈ monitors st) then Ok (monitor_done 0 st jid r) else Undef
  end.

Lemma jexec_step st e st' : jexec st e = Ok st' →
  ∃ l, jstep st l st' ∧ (∀ jid, l = LCancel jid → e = ECancel jid).
Proof.
  destruct e as [ms type params|jid|jid| |script|jid r]; unfold jexec; intros H.
  - destruct (draw_job ms st type params) as [s info] eqn:E. case_bool_decide; [|done]. injection H as <-.
    exists (LDraw (job_id info)). split; [by apply (J_draw ms st type params)|done].
  - destruct (submitting st !! jid) as [info|] eqn:E; [|done]. injection H as <-.
    exists (LSubmit jid). split; [by apply J_submit|done].
  - destruct (cancel_job 0 st jid) as [s b] eqn:E. injection H as <-. exists (LCancel jid).
    split; [by apply (J_cancel 0 st jid s b)|by intros ? [= ->]].
  - simplify_eq. exists LStop. split; [constructor|done].
  - exists LWorker. split; [by eapply J_worker|done].
  - case_bool_decide; simplify_eq. exists (LMonitor jid). split; [by constructor|done].
Qed.

Lemma jexec_run st es st' :
  res_foldl jexec st es = Ok st' → ∃ ls, jsteps st ls st' ∧ length ls = length es.
Proof.
  revert st. induction es as [|e es IH]; intros st H; cbn in H.
  { simplify_eq. exists []. by split; [constructor|]. }
  destruct (jexec st e) as [st1| |] eqn:E; simplify_eq/=.
  destruct (jexec_step _ _ _ E) as (l & Hl & _). destruct (IH _ H) as (ls & Hls & Hlen).
  exists (l :: ls). split; [by econstructor|cbn; by f_equal].
Qed.

Lemma run_reachable es st :
  res_foldl jexec new_job_manager es = Ok st → (Z.of_nat (length es) + 1 < two64)%Z → reachable st.
Proof. intros (ls & Hls & Hlen)%jexec_run H. exists ls. by rewrite Hlen. Qed.

(** Events of a run in which no waited-for job is cancelled. *)
Definition jexec_clean st (e : jevent) : res JobManager :=
  match e with
  | ECancel jid => if bool_decide (worker_ st = WaitMeasure jid) then Undef else jexec st e
  | _ => jexec st e
  end.

Lemma jexec_clean_run st es st' :
  res_foldl jexec_clean st es = Ok st' → ∃ ls, clean_steps st ls st' ∧ length ls = length es.
Proof.
  revert st. induction es as [|e es IH]; intros st H; cbn in H.
  { simplify_eq. exists []. by split; [constructor|]. }
  destruct (jexec_clean st e) as [st1| |] eqn:E; simplify_eq/=.
  assert (jexec st e = Ok st1 ∧ ∀ jid, e = ECancel jid → worker_ st ≠ WaitMeasure jid) as [E1 Hc].
  { destruct e as [| |jid| | |]; try done. cbn in E. case_bool_decide; [done|].
    split; [done|]. by intros ? [= <-]. }
  destruct (jexec_step _ _ _ E1) as (l & Hl & Hlc). destruct (IH _ H) as (ls & Hls & Hlen).
  exists (l :: ls). split; [|cbn; by f_equal]. econstructor; [done| |done].
  intros jid ->. by apply Hc, Hlc.
Qed.

(** One thread submits a job. *)
Definition ESubmit (ms : Z) (type : string) (params : json) (jid : string) : list jevent :=
  [EDraw ms type params; EPush jid].

(** A measure job is active; a sleep job waits for it and is cancelled while a
    second one is queued behind it. *)
Definition race_events : list jevent :=
  ESubmit 5 "measure" (JObj [("script_path", JStr "scan.lua")]) "job-5-1" ++
  [EWorker None; EWorker None; EWorker None; EWorker None] ++   (* enqueued, monitored *)
  ESubmit 5 "sleep" (JObj []) "job-5-2" ++ [EWorker None] ++    (* job 2 waits *)
  ESubmit 5 "sleep" (JObj []) "job-5-3" ++                      (* job 3 *)
  [ECancel "job-5-2"; EMonitor "job-5-1" JNull; EWorker None].

Definition managed (r : res JobManager) : JobManager :=
  match r with Ok st => st | _ => new_job_manager end.
Definition race_end : JobManager := managed (res_foldl jexec new_job_manager race_events).

(** Cancelling the job that the worker is waiting to start breaks the
    queue: there is a run in which the cancelled job is started nevertheless and
    another job is popped in its place; that job then keeps the status "queued"
    and is never run, however the run goes on, unless it is cancelled. *)
Theorem cancel_race_loses_job :
  reachable race_end ∧
  (∃ j, jobs_ race_end !! "job-5-2" = Some j ∧ job_status j = "running" ∧ job_error j = "canceled") ∧
  lost race_end "job-5-3" ∧
  ∀ ls st, jsteps race_end ls st → (Z.of_nat (length ls) + 4 < two64)%Z →
    lost st "job-5-3" ∨ canceled_for_good st "job-5-3".
Proof.
  assert (reachable race_end) as Hr.
  { apply (run_reachable race_events); vm_compute; reflexivity. }
  assert (lost race_end "job-5-3") as Hlost.
  { split_and!; [|by vm_compute|eexists; split; [vm_compute; reflexivity|reflexivity]].
    apply (bool_decide_unpack _). vm_compute. exact I. }
  split_and!; [done|by eexists; split; [vm_compute; reflexivity|]|done|].
  intros ls st Hs Hlen. eapply lost_steps; [done|by apply reachable_inv|by apply reachable_invs| | |by left].
  - vm_compute. done.
  - change (next_id_ race_end) with 4%Z. lia.
Qed.

(** Cancelling a running sleep job ends it as "failed" with the error
    "canceled": the request succeeds, the worker notices it at its next check,
    and the final status is not "canceled". *)
Theorem cancel_running_sleep now script st jid j info ms slept :
  worker_ st = Sleeping jid info ms slept → (slept < ms)%Z → job_type info ≠ "measure" →
  jobs_ st !! jid = Some j → job_status j = "running" →
  ∃ st1 st2 st3 j3, cancel_job now st jid = (st1, true) ∧
    worker_round now script st1 = Ok st2 ∧ worker_round now script st2 = Ok st3 ∧
    jobs_ st3 !! jid = Some j3 ∧ job_status j3 = "failed" ∧ job_error j3 = "canceled".
Proof.
  intros Hw Hlt Ht Hj Hs. unfold cancel_job. rewrite Hj, Hs. cbn.
  eexists _, _, _, _. split; [done|]. unfold worker_round at 1. cbn. rewrite Hw.
  unfold sleep_round, cancel_requested. cbn. rewrite lookup_insert_eq. cbn.
  rewrite bool_decide_eq_true_2 by done. split; [done|]. cbn.
  unfold finish. cbn. rewrite lookup_insert_eq. rewrite bool_decide_eq_false_2 by done. cbn.
  split; [done|]. cbn. rewrite lookup_insert_eq. done.
Qed.

(** ** Concrete runs *)

(** A sleep job of 100 ms is running, a second one waits behind it. *)
Definition sleep_events : list jevent :=
  ESubmit 5 "sleep" (JObj []) "job-5-1" ++ ESubmit 6 "sleep" (JObj []) "job-6-2" ++ [EWorker None; EWorker None].
Definition sleep_state : JobManager := managed (res_foldl jexec new_job_manager sleep_events).

Lemma sleep_reachable : reachable sleep_state.
Proof. apply (run_reachable sleep_events); vm_compute; reflexivity. Qed.

Lemma measure_exclusion_witness :
  active_measure_jobs_ sleep_state = ∅ ∧ monitors sleep_state = ∅.
Proof.
  apply (measure_exclusion sleep_state "sleep" sleep_reachable);
    [vm_compute; reflexivity|vm_compute; reflexivity|discriminate].
Defined.

(** A job of an unknown type fails; cancelling it then changes nothing. *)
Definition failed_events : list jevent :=
  ESubmit 5 "scan" (JObj []) "job-5-1" ++ [EWorker None; EWorker None; EWorker None].
Definition failed_state : JobManager := managed (res_foldl jexec new_job_manager failed_events).
Definition failed_job : JobInfo :=
  mkJobInfo "job-5-1" "scan" (JObj []) "failed" JNull "unknown job type: scan" 5 0 0.

Lemma finished_jobs_final_witness :
  jobs_ (cancel_job 9 failed_state "job-5-1").1 !! "job-5-1" = Some failed_job.
Proof.
  apply (finished_jobs_final failed_state (LCancel "job-5-1")).
  - apply (run_reachable failed_events); vm_compute; reflexivity.
  - apply (J_cancel 9 failed_state "job-5-1" _ (cancel_job 9 failed_state "job-5-1").2), surjective_pairing.
  - vm_compute. reflexivity.
  - by right.
Defined.

(** Two threads draw numbers; the one with the higher number pushes first.  A
    third job is cancelled. *)
Definition clean_events : list jevent :=
  [EDraw 5 "sleep" (JObj []); EDraw 6 "sleep" (JObj []); EPush "job-6-2"] ++
  ESubmit 6 "sleep" (JObj []) "job-6-3" ++ [EPush "job-5-1"; ECancel "job-6-3"].
Definition clean_state : JobManager := managed (res_foldl jexec_clean new_job_manager clean_events).

Lemma queue_faithful_witness :
  queue_ clean_state = ["job-6-2"; "job-5-1"] ∧
  ∃ j, jobs_ clean_state !! "job-5-1" = Some j ∧ job_status j = "queued".
Proof.
  split; [vm_compute; reflexivity|].
  destruct (jexec_clean_run new_job_manager clean_events clean_state) as (ls & Hls & Hlen);
    [vm_compute; reflexivity|].
  refine (proj1 (proj1 (queue_faithful ls clean_state Hls _) "job-5-1") _).
  - rewrite Hlen. vm_compute. reflexivity.
  - apply (bool_decide_unpack _). vm_compute. exact I.
Defined.

Lemma cancel_running_sleep_witness :
  ∃ st1 st2 st3 j3, cancel_job 9 sleep_state "job-5-1" = (st1, true) ∧
    worker_round 9 None st1 = Ok st2 ∧ worker_round 9 None st2 = Ok st3 ∧
    jobs_ st3 !! "job-5-1" = Some j3 ∧ job_status j3 = "failed" ∧ job_error j3 = "canceled".
Proof.
  eapply (cancel_running_sleep 9 None sleep_state "job-5-1"); [vm_compute; reflexivity|lia| | |].
  - discriminate.
  - vm_compute. reflexivity.
  - reflexivity.
Defined.
