(* ===== verification/PluginRegistry.v ===== *)
(** * Plugins

    Model of [PluginLoader] (src/src/plugin/PluginLoader.cpp) and
    [PluginRegistry] (src/src/plugin/PluginRegistry.cpp, the POSIX branches).
    Shared libraries are a parameter: [library] says what [dlopen] finds at a
    path and which of the four symbols it exports.  [dl_refs] counts the open
    handles of each library, as [dlopen] and [dlclose] do; [shutdowns] counts
    the calls of [plugin_shutdown]. *)

From S2P Require Import Prelude Plugin.
From Stdlib Require Import Lia.

Record PluginMetadata := mkPluginMetadata {
  pm_api_version : Z;
  pm_name : string;
  pm_version : string;
  pm_protocol_type : string;
  pm_description : string
}.

(** What a library exports; [lib_metadata] is the value [plugin_get_metadata]
    returns, if the symbol is there. *)
Record Library := mkLibrary {
  lib_metadata : option PluginMetadata;
  lib_initialize : bool;
  lib_execute_command : bool;
  lib_shutdown : bool
}.

Record Loader := mkLoader {
  handle_ : bool;
  loader_path_ : string;
  fn_get_metadata_ : option PluginMetadata;
  fn_initialize_ : bool;
  fn_execute_command_ : bool;
  fn_shutdown_ : bool
}.

Record Dl := mkDl { dl_refs : gmap string nat; shutdowns : gmap string nat }.

Definition empty_dl : Dl := mkDl ∅ ∅.

Definition refs (dl : Dl) (path : string) : nat := default 0 (dl_refs dl !! path).

Definition dlopen_ref (dl : Dl) (path : string) : Dl :=
  mkDl (<[path := S (refs dl path)]> (dl_refs dl)) (shutdowns dl).
Definition dlclose_ref (dl : Dl) (path : string) : Dl :=
  mkDl (<[path := pred (refs dl path)]> (dl_refs dl)) (shutdowns dl).

(** ** The loader *)

Definition unload (dl : Dl) (l : Loader) : Dl * Loader :=
  if handle_ l then
    (dlclose_ref dl (loader_path_ l),
     mkLoader false (loader_path_ l) (fn_get_metadata_ l) (fn_initialize_ l) (fn_execute_command_ l)
       (fn_shutdown_ l))
  else (dl, l).

Definition shutdown (dl : Dl) (l : Loader) : Dl :=
  if fn_shutdown_ l then
    mkDl (dl_refs dl) (<[loader_path_ l := S (default 0 (shutdowns dl !! loader_path_ l))]> (shutdowns dl))
  else dl.

(** The destructor. *)
Definition destroy (dl : Dl) (l : Loader) : Dl :=
  let dl := if fn_shutdown_ l && handle_ l then shutdown dl l else dl in (unload dl l).1.

Definition is_loaded (l : Loader) : bool := handle_ l.

Definition get_metadata (l : Loader) : res PluginMetadata :=
  match fn_get_metadata_ l with Some m => Ok m | None => Exn "Plugin not loaded" end.

(** [plugin_initialize] and [plugin_execute_command] are the plugin's. *)
Definition initialize (fn : Z) (l : Loader) : Z := if fn_initialize_ l then fn else -1.
Definition execute_command {A} (fn : Z * A) (l : Loader) (response : A) : Z * A :=
  if fn_execute_command_ l then fn else ((-1)%Z, response).

Section PluginRegistry.
Context (library : string → option Library).

Definition load_symbols (path : string) (lib : Library) : Loader :=
  mkLoader true path (lib_metadata lib) (lib_initialize lib) (lib_execute_command lib) (lib_shutdown lib).

Definition new_loader (dl : Dl) (path : string) : Dl * res Loader :=
  match library path with
  | None => (dl, Exn "Failed to load library: ")
  | Some lib =>
      let dl := dlopen_ref dl path in
      let l := load_symbols path lib in
      if bool_decide (is_Some (fn_get_metadata_ l)) && fn_initialize_ l && fn_execute_command_ l &&
         fn_shutdown_ l
      then (dl, Ok l)
      else ((unload dl l).1, Exn "Failed to load required plugin symbols")
  end.

(** ** The registry *)

Record PluginRegistry := mkPluginRegistry {
  plugins_ : gmap string Loader;
  plugin_paths_ : gmap string string
}.

Definition empty_registry : PluginRegistry := mkPluginRegistry ∅ ∅.

Implicit Types (rg : PluginRegistry) (dl : Dl).

Definition has_plugin rg (protocol : string) : bool := bool_decide (is_Some (plugins_ rg !! protocol)).
Definition get_plugin rg (protocol : string) : option Loader := plugins_ rg !! protocol.
Definition get_plugin_path rg (protocol : string) : string := default EmptyString (plugin_paths_ rg !! protocol).
Definition list_protocols rg : list string := (map_to_list (plugins_ rg)).*1.

Definition load_plugin dl rg (protocol path : string) : Dl * PluginRegistry * bool :=
  if has_plugin rg protocol then (dl, rg, false)
  else
    match new_loader dl path with
    | (dl, Ok l) =>
        if negb (is_loaded l) then (destroy dl l, rg, false)
        else
          match get_metadata l with
          | Ok m =>
              if negb (bool_decide (pm_api_version m = INSTRUMENT_PLUGIN_API_VERSION))
              then (destroy dl l, rg, false)
              else
                (dl, mkPluginRegistry (<[protocol := l]> (plugins_ rg))
                       (<[protocol := path]> (plugin_paths_ rg)), true)
          | _ => (destroy dl l, rg, false)
          end
    | (dl, _) => (dl, rg, false)
    end.

Definition unload_plugin dl rg (protocol : string) : Dl * PluginRegistry :=
  (match plugins_ rg !! protocol with Some l => destroy dl l | None => dl end,
   mkPluginRegistry (delete protocol (plugins_ rg)) (delete protocol (plugin_paths_ rg))).

(** Try each path that exists until one loads. *)
Fixpoint try_paths (exists_ : string → bool) dl rg (protocol : string) (paths : list string)
  : Dl * PluginRegistry :=
  match paths with
  | [] => (dl, rg)
  | path :: paths =>
      if exists_ path then
        let '(dl, rg, ok) := load_plugin dl rg protocol path in
        if ok then (dl, rg) else try_paths exists_ dl rg protocol paths
      else try_paths exists_ dl rg protocol paths
  end.

Definition builtins : list (string * list string) :=
  [("VISA", ["/usr/local/lib/instrument-plugins/visa_plugin.so";
             "/usr/lib/instrument-plugins/visa_plugin.so";
             "./plugins/visa/visa_plugin. so"; "./build/plugins/visa/visa_plugin.so"])].

Definition load_builtin_plugins (exists_ : string → bool) dl rg : Dl * PluginRegistry :=
  foldl (λ acc b,
    if has_plugin acc.2 b.1 then acc else try_paths exists_ acc.1 acc.2 b.1 b.2) (dl, rg) builtins.

(** [filename.length() >= 3] and its last three characters are [.so]. *)
Definition is_shared_object (filename : string) : bool :=
  let n := length (chars filename) in
  negb (bool_decide (n < 3)) && bool_decide (drop (n - 3) (chars filename) = chars ".so").

(** A directory entry: its path, its file name, whether it is a regular file. *)
Definition discover_entry (acc : Dl * PluginRegistry) (e : string * string * bool) : Dl * PluginRegistry :=
  let '(path, filename, regular) := e in
  if negb regular || negb (is_shared_object filename) then acc
  else
    match new_loader acc.1 path with
    | (dl, Ok temp) =>
        match get_metadata temp with
        | Ok m =>
            let '(dl, rg) := if has_plugin acc.2 (pm_protocol_type m) then (dl, acc.2)
                             else (load_plugin dl acc.2 (pm_protocol_type m) path).1 in
            (destroy dl temp, rg)
        | _ => (destroy dl temp, acc.2)
        end
    | (dl, _) => (dl, acc.2)
    end.

(** [listing] gives the entries of a search path that is a directory. *)
Definition discover_plugins (listing : string → option (list (string * string * bool))) dl rg
  (search_paths : list string) : Dl * PluginRegistry :=
  foldl (λ acc p, match listing p with Some es => foldl discover_entry acc es | None => acc end)
    (dl, rg) search_paths.

(** ** Invariant *)

(** Registered plugins that hold a handle of [path]. *)
Definition users rg (path : string) : nat :=
  length (filter (λ kv, loader_path_ kv.2 = path) (map_to_list (plugins_ rg))).

Definition usable (l : Loader) : Prop :=
  handle_ l = true ∧ ∃ lib m, library (loader_path_ l) = Some lib ∧ l = load_symbols (loader_path_ l) lib ∧
    lib_metadata lib = Some m ∧ pm_api_version m = INSTRUMENT_PLUGIN_API_VERSION ∧
    lib_initialize lib = true ∧ lib_execute_command lib = true ∧ lib_shutdown lib = true.

Record pr_inv dl rg : Prop := {
  pr_paths protocol : plugin_paths_ rg !! protocol = loader_path_ <$> plugins_ rg !! protocol;
  pr_usable protocol l : plugins_ rg !! protocol = Some l → usable l;
  pr_refs path : refs dl path = users rg path
}.

Lemma empty_registry_inv : pr_inv empty_dl empty_registry.
Proof. split; [done|done|]. intros path. unfold refs, users. cbn. by rewrite map_to_list_empty. Qed.

Lemma refs_open dl path q : refs (dlopen_ref dl path) q = refs dl q + if decide (path = q) then 1 else 0.
Proof.
  unfold refs, dlopen_ref. cbn [dl_refs]. destruct (decide (path = q)) as [->|].
  - rewrite lookup_insert_eq. unfold refs. destruct (dl_refs dl !! q); cbn; lia.
  - rewrite lookup_insert_ne by done. lia.
Qed.

Lemma refs_close dl path q :
  refs (dlclose_ref dl path) q = refs dl q - if decide (path = q) then 1 else 0.
Proof.
  unfold refs, dlclose_ref. cbn [dl_refs]. destruct (decide (path = q)) as [->|].
  - rewrite lookup_insert_eq. unfold refs. destruct (dl_refs dl !! q); cbn; lia.
  - rewrite lookup_insert_ne by done. lia.
Qed.

Lemma refs_shutdown dl l q : refs (shutdown dl l) q = refs dl q.
Proof. unfold shutdown. by destruct (fn_shutdown_ l). Qed.

Lemma refs_destroy dl l q :
  handle_ l = true → refs (destroy dl l) q = refs dl q - if decide (loader_path_ l = q) then 1 else 0.
Proof.
  intros Hh. unfold destroy, unload. rewrite Hh. cbn. rewrite refs_close.
  destruct (fn_shutdown_ l); cbn; by rewrite ?refs_shutdown.
Qed.

(** A loader that is made and destroyed again leaves no handle behind. *)
Lemma new_loader_spec dl path :
  match new_loader dl path with
  | (dl', Ok l) =>
      handle_ l = true ∧ loader_path_ l = path ∧ fn_shutdown_ l = true ∧
      (∀ q, refs dl' q = refs dl q + if decide (path = q) then 1 else 0) ∧
      ∃ lib m, library path = Some lib ∧ l = load_symbols path lib ∧ lib_metadata lib = Some m ∧
        get_metadata l = Ok m ∧
        lib_initialize lib = true ∧ lib_execute_command lib = true ∧ lib_shutdown lib = true
  | (dl', _) => ∀ q, refs dl' q = refs dl q
  end.
Proof.
  unfold new_loader. destruct (library path) as [lib|] eqn:Hlib; [|done]. cbn.
  destruct (bool_decide (is_Some (lib_metadata lib))) eqn:Hm, (lib_initialize lib) eqn:Hi,
    (lib_execute_command lib) eqn:He, (lib_shutdown lib) eqn:Hs; cbn;
    try (intros q; rewrite refs_close, refs_open; destruct (decide (path = q)); lia).
  apply bool_decide_eq_true in Hm as [m Hm]. split_and!; try done; [apply refs_open|].
  exists lib, m. unfold get_metadata. cbn. by rewrite Hm.
Qed.

Lemma users_insert rg protocol l paths q :
  plugins_ rg !! protocol = None →
  users (mkPluginRegistry (<[protocol := l]> (plugins_ rg)) paths) q =
  users rg q + if decide (loader_path_ l = q) then 1 else 0.
Proof.
  intros Hn. unfold users. cbn. rewrite map_to_list_insert by done. rewrite filter_cons. cbn.
  destruct (decide (loader_path_ l = q)); cbn; lia.
Qed.

Lemma users_delete rg protocol l paths q :
  plugins_ rg !! protocol = Some l →
  users rg q = users (mkPluginRegistry (delete protocol (plugins_ rg)) paths) q +
               if decide (loader_path_ l = q) then 1 else 0.
Proof.
  intros Hn. unfold users. cbn. rewrite <-(map_to_list_delete _ _ _ Hn) at 1. rewrite filter_cons. cbn.
  destruct (decide (loader_path_ l = q)); cbn; lia.
Qed.

(** Loading keeps the invariant, for a counter that is ahead by [k]. *)
Lemma load_plugin_refs dl rg protocol path k :
  (∀ q, refs dl q = users rg q + k q) →
  (∀ p, plugin_paths_ rg !! p = loader_path_ <$> plugins_ rg !! p) →
  (∀ p l, plugins_ rg !! p = Some l → usable l) →
  let '(dl', rg', _) := load_plugin dl rg protocol path in
  (∀ q, refs dl' q = users rg' q + k q) ∧
  (∀ p, plugin_paths_ rg' !! p = loader_path_ <$> plugins_ rg' !! p) ∧
  (∀ p l, plugins_ rg' !! p = Some l → usable l).
Proof.
  intros Hr Hp Hu. unfold load_plugin, has_plugin. case_bool_decide as Hhas; [done|].
  rewrite <-eq_None_not_Some in Hhas.
  pose proof (new_loader_spec dl path) as Hl.
  destruct (new_loader dl path) as [dl' [l|e|]]; [|split_and!; try done; intros q; rewrite Hl; apply Hr..].
  destruct Hl as (Hh & Hpath & Hsh & Hrefs & lib & m & Hlib & Hlo & Hm & Hmd & Hi & He & Hs).
  unfold is_loaded. rewrite Hh. cbn. rewrite Hmd. case_bool_decide as Hv; cbn.
  - split_and!.
    + intros q. rewrite Hrefs, users_insert, Hr, Hpath by done. lia.
    + intros p. rewrite !lookup_insert. case_decide; cbn; [by rewrite Hpath|apply Hp].
    + intros p l'. rewrite lookup_insert. case_decide; [|apply Hu]. intros [= <-].
      split; [done|]. exists lib, m. by rewrite Hpath.
  - split_and!; try done. intros q. rewrite refs_destroy, Hrefs, Hpath, Hr by done. lia.
Qed.

Lemma load_plugin_inv dl rg protocol path :
  pr_inv dl rg → pr_inv (load_plugin dl rg protocol path).1.1 (load_plugin dl rg protocol path).1.2.
Proof.
  intros [Hp Hu Hr]. pose proof (load_plugin_refs dl rg protocol path (λ _, 0)) as H.
  destruct (load_plugin dl rg protocol path) as [[dl' rg'] ok].
  destruct H as (H1 & H2 & H3); [intros q; rewrite Hr; lia|done|done|].
  split; [done|done|]. intros q. cbn. rewrite H1. lia.
Qed.

Lemma unload_plugin_inv dl rg protocol :
  pr_inv dl rg → pr_inv (unload_plugin dl rg protocol).1 (unload_plugin dl rg protocol).2.
Proof.
  intros [Hp Hu Hr]. unfold unload_plugin. split; cbn.
  - intros p. rewrite !lookup_delete. case_decide; [done|apply Hp].
  - intros p l [_ Hl]%lookup_delete_Some. by eapply Hu.
  - intros q. destruct (plugins_ rg !! protocol) as [l|] eqn:Hl.
    + destruct (Hu _ _ Hl) as [Hh _]. rewrite refs_destroy, Hr by done.
      rewrite (users_delete rg protocol l (delete protocol (plugin_paths_ rg)) q Hl). lia.
    + rewrite Hr. unfold users. cbn. by rewrite delete_id.
Qed.

Lemma discover_entry_inv acc e :
  pr_inv acc.1 acc.2 → pr_inv (discover_entry acc e).1 (discover_entry acc e).2.
Proof.
  intros Hinv. unfold discover_entry. destruct e as [[path filename] regular].
  destruct (negb regular || negb (is_shared_object filename)); [done|].
  pose proof (new_loader_spec acc.1 path) as Hl.
  destruct (new_loader acc.1 path) as [dl [t|e|]]; cycle 1.
  1,2: destruct Hinv as [Hp Hu Hr]; split; cbn; try done; intros q; by rewrite Hl.
  destruct Hl as (Hh & Hpath & Hsh & Hrefs & lib & m & _ & _ & _ & Hmd & _). rewrite Hmd.
  destruct Hinv as [Hp Hu Hr].
  set (k := λ q, if decide (path = q) then 1 else 0).
  assert (∀ dl2 rg2, (∀ q, refs dl2 q = users rg2 q + k q) →
    (∀ p, plugin_paths_ rg2 !! p = loader_path_ <$> plugins_ rg2 !! p) →
    (∀ p l, plugins_ rg2 !! p = Some l → usable l) → pr_inv (destroy dl2 t) rg2) as Hdone.
  { intros dl2 rg2 H1 H2 H3. split; [done|done|]. intros q. rewrite refs_destroy, H1, Hpath by done.
    unfold k. lia. }
  destruct (has_plugin acc.2 (pm_protocol_type m)).
  - apply Hdone; [|done..]. intros q. by rewrite Hrefs, Hr.
  - pose proof (load_plugin_refs dl acc.2 (pm_protocol_type m) path k) as H.
    destruct (load_plugin dl acc.2 (pm_protocol_type m) path) as [[dl2 rg2] ok]. cbn.
    destruct H as (H1 & H2 & H3); [|done|done|by apply Hdone]. intros q. by rewrite Hrefs, Hr.
Qed.

Lemma try_paths_inv exists_ protocol paths dl rg :
  pr_inv dl rg → pr_inv (try_paths exists_ dl rg protocol paths).1 (try_paths exists_ dl rg protocol paths).2.
Proof.
  revert dl rg. induction paths as [|path paths IH]; intros dl rg Hinv; cbn; [done|].
  destruct (exists_ path); [|by apply IH].
  pose proof (load_plugin_inv dl rg protocol path Hinv) as H.
  destruct (load_plugin dl rg protocol path) as [[dl' rg'] []]; [done|by apply IH].
Qed.

(** ** Properties *)

Inductive plugin_call :=
| LoadPlugin (protocol path : string)
| UnloadPlugin (protocol : string)
| LoadBuiltins (exists_ : string → bool)
| Discover (listing : string → option (list (string * string * bool))) (paths : list string).

Definition plugin_step (acc : Dl * PluginRegistry) (c : plugin_call) : Dl * PluginRegistry :=
  match c with
  | LoadPlugin protocol path => (load_plugin acc.1 acc.2 protocol path).1
  | UnloadPlugin protocol => unload_plugin acc.1 acc.2 protocol
  | LoadBuiltins ex => load_builtin_plugins ex acc.1 acc.2
  | Discover listing paths => discover_plugins listing acc.1 acc.2 paths
  end.

Lemma plugin_step_inv acc c : pr_inv acc.1 acc.2 → pr_inv (plugin_step acc c).1 (plugin_step acc c).2.
Proof.
  intros Hinv. destruct c as [protocol path|protocol|ex|listing paths]; cbn [plugin_step].
  - by apply load_plugin_inv.
  - by apply (unload_plugin_inv acc.1 acc.2).
  - unfold load_builtin_plugins. apply (foldl_inv (λ acc, pr_inv acc.1 acc.2)); [|done]. intros a b Ha.
    destruct (has_plugin a.2 b.1); [done|by apply try_paths_inv].
  - unfold discover_plugins. apply (foldl_inv (λ acc, pr_inv acc.1 acc.2)); [|done]. intros a p Ha.
    destruct (listing p) as [es|]; [|done].
    apply (foldl_inv (λ acc, pr_inv acc.1 acc.2)); [|done]. intros a' e. apply discover_entry_inv.
Qed.

(** C21. The plugin registry only ever offers working plugins and leaks no
    library: after any sequence of loads, unloads and discoveries, a protocol
    has a path just if it has a loaded plugin, the library at that path exports
    all four functions and has the server's API version, and the number of open
    handles of each library is the number of protocols registered for it. *)
Theorem plugin_registry_sound cs protocol path :
  let '(dl, rg) := foldl plugin_step (empty_dl, empty_registry) cs in
  (plugin_paths_ rg !! protocol = Some path ↔
   ∃ l, plugins_ rg !! protocol = Some l ∧ loader_path_ l = path) ∧
  (plugin_paths_ rg !! protocol = Some path →
   ∃ lib m, library path = Some lib ∧ lib_metadata lib = Some m ∧
     pm_api_version m = INSTRUMENT_PLUGIN_API_VERSION ∧
     lib_initialize lib = true ∧ lib_execute_command lib = true ∧ lib_shutdown lib = true) ∧
  refs dl path = users rg path.
Proof.
  pose proof (foldl_inv (λ acc, pr_inv acc.1 acc.2) plugin_step cs (empty_dl, empty_registry)
    (λ a c, plugin_step_inv a c) empty_registry_inv) as Hrun.
  destruct (foldl plugin_step (empty_dl, empty_registry) cs) as [dl rg]. cbn in *.
  destruct Hrun as [Hp Hu Hr]. split_and!; [|intros H|apply Hr].
  - rewrite Hp, fmap_Some. naive_solver.
  - rewrite Hp in H. apply fmap_Some in H as (l & Hl & ->).
    destruct (Hu _ _ Hl) as (_ & lib & m & ? & _ & ? & ? & ? & ? & ?). by exists lib, m.
Qed.

End PluginRegistry.
