(* ===== verification/Ownership.v ===== *)
(** * Objects that own a resource

    Two classes of the server own something that must be given back exactly
    once and can be moved but not copied: [PluginLoader]
    (src/src/plugin/PluginLoader.cpp) the handle of a shared library, and
    [DataBuffer] (src/src/ipc/DataBufferManager.cpp) a block of memory.  The
    objects are variables of a store, so that the two sides of an assignment
    may be the same one.  The class [MoveOnly] states what constructor,
    destructor, move constructor and move assignment promise; [run_balanced] is
    proved against it, for every sequence of these operations on any number of
    variables, the two instances discharge it, and [ownership_exact] is what
    follows for them.  What a [std::string] holds after it was moved from is a
    parameter. *)

From S2P Require Import Prelude Plugin DataBuffer PluginRegistry.
From Stdlib Require Import Lia.

(** One reference to [k], if that is what is held. *)
Definition one {K} `{EqDecision K} (o : option K) (k : K) : nat := if bool_decide (o = Some k) then 1 else 0.

(** The object a reference stands for; a dangling reference is undefined. *)
Definition deref {T} (vs : gmap nat T) (i : nat) : res T :=
  match vs !! i with Some x => Ok x | None => Undef end.

(** [mo_count w k]: how often [k] is open (a library) or whether it is allocated
    (a block) in the world [w].  [mo_args] are the arguments of the
    constructor and [mo_wants] what the object made from them is to hold,
    [None] if the constructor throws. *)
Class MoveOnly (T W K : Type) `{EqDecision K} := {
  mo_args : Type;
  mo_held : T → option K;
  mo_count : W → K → nat;
  mo_wants : mo_args → option (option K);
  mo_new : W → mo_args → res (W * option T);
  mo_destroy : W → T → res W;
  mo_move : T → T * T;                    (* the new object and the old one *)
  mo_assign : W → gmap nat T → nat → nat → res (W * gmap nat T);
  mo_new_spec w a w' r :
    mo_new w a = Ok (w', r) →
    mo_held <$> r = mo_wants a ∧ ∀ k, mo_count w' k = mo_count w k + one (r ≫= mo_held) k;
  mo_destroy_spec w x :
    (∀ k, mo_held x = Some k → 0 < mo_count w k) →
    ∃ w', mo_destroy w x = Ok w' ∧ ∀ k, mo_count w k = mo_count w' k + one (mo_held x) k;
  mo_move_spec x : mo_held (mo_move x).1 = mo_held x ∧ mo_held (mo_move x).2 = None;
  mo_assign_self w vs i : is_Some (vs !! i) → mo_assign w vs i i = Ok (w, vs);
  mo_assign_spec w vs i j x y :
    i ≠ j → vs !! i = Some x → vs !! j = Some y →
    (∀ k, mo_held x = Some k → 0 < mo_count w k) →
    ∃ w' x' y', mo_assign w vs i j = Ok (w', <[i := x']> (<[j := y']> vs)) ∧
      mo_held x' = mo_held y ∧ mo_held y' = None ∧
      ∀ k, mo_count w k = mo_count w' k + one (mo_held x) k
}.
#[global] Arguments mo_args T W K {_} _.

(** Variables come into being by a constructor or by moving. *)
Inductive oop (A : Type) :=
| ONew (i : nat) (a : A)
| OMove (i j : nat)        (* [T i(std::move(j));] *)
| OAssign (i j : nat)      (* [i = std::move(j);] *)
| ODestroy (i : nat).
Arguments ONew {A} _ _. Arguments OMove {A} _ _. Arguments OAssign {A} _ _. Arguments ODestroy {A} _.

Section Ownership.
Context {T W K : Type} `{EqDecision K} `{MO : !MoveOnly T W K}.
Implicit Types (w : W) (x y : T) (vs : gmap nat T) (op : oop (mo_args T W K MO)).

(** One operation; a variable that is there already is not made again. *)
Definition ostep (s : W * gmap nat T) op : res (W * gmap nat T) :=
  let '(w, vs) := s in
  match op with
  | ONew i a =>
      if bool_decide (is_Some (vs !! i)) then Undef
      else
        r ← mo_new w a;
        Ok (r.1, match r.2 with Some x => <[i := x]> vs | None => vs end)
  | OMove i j =>
      if bool_decide (is_Some (vs !! i)) then Undef
      else y ← deref vs j; Ok (w, <[i := (mo_move y).1]> (<[j := (mo_move y).2]> vs))
  | OAssign i j => _ ← deref vs i; _ ← deref vs j; mo_assign w vs i j
  | ODestroy i => x ← deref vs i; w ← mo_destroy w x; Ok (w, delete i vs)
  end.

(** Specification: which variable owns what. *)
Definition own_step (owns : gmap nat (option K)) op : gmap nat (option K) :=
  match op with
  | ONew i a => match mo_wants a with Some o => <[i := o]> owns | None => owns end
  | OMove i j => <[i := owns !! j ≫= id]> (<[j := None]> owns)
  | OAssign i j => if bool_decide (i = j) then owns else <[i := owns !! j ≫= id]> (<[j := None]> owns)
  | ODestroy i => delete i owns
  end.

(** How many variables hold [k]. *)
Definition holders vs (k : K) : nat := map_fold (λ _ x n, one (mo_held x) k + n) 0 vs.

Lemma holders_insert vs i x k :
  vs !! i = None → holders (<[i := x]> vs) k = one (mo_held x) k + holders vs k.
Proof.
  intros Hi. unfold holders. rewrite map_fold_insert_L; [done| |done]. intros. lia.
Qed.

Lemma holders_delete vs i x k :
  vs !! i = Some x → holders vs k = one (mo_held x) k + holders (delete i vs) k.
Proof.
  intros Hi. rewrite <-(insert_delete_id vs i x Hi) at 1. apply holders_insert, lookup_delete_eq.
Qed.

Lemma holders_replace vs i x x' k :
  vs !! i = Some x → holders (<[i := x']> vs) k + one (mo_held x) k = holders vs k + one (mo_held x') k.
Proof.
  intros Hi. rewrite (holders_delete vs i x k Hi), <-insert_delete_eq, holders_insert by apply lookup_delete_eq. lia.
Qed.

Lemma one_None k : one (@None K) k = 0.
Proof. done. Qed.

(** What the two sides of a move hold afterwards. *)
Lemma holders_transfer vs i j x' y y' k :
  i ≠ j → vs !! j = Some y → mo_held x' = mo_held y → mo_held y' = None →
  holders (<[i := x']> (<[j := y']> vs)) k + one (vs !! i ≫= mo_held) k = holders vs k.
Proof.
  intros Hne Hj Hx Hy. pose proof (holders_replace vs j y y' k Hj) as H1. rewrite Hy, one_None in H1.
  destruct (vs !! i) as [x|] eqn:Hi; cbn.
  - pose proof (holders_replace (<[j := y']> vs) i x x' k) as H2.
    rewrite lookup_insert_ne in H2 by done. specialize (H2 Hi). rewrite Hx in H2. lia.
  - rewrite holders_insert, Hx, one_None by (by rewrite lookup_insert_ne). lia.
Qed.

Lemma held_transfer vs i j x' y y' :
  vs !! j = Some y → mo_held x' = mo_held y → mo_held y' = None →
  mo_held <$> <[i := x']> (<[j := y']> vs) =
  <[i := (mo_held <$> vs) !! j ≫= id]> (<[j := None]> (mo_held <$> vs)).
Proof. intros Hj Hx Hy. by rewrite !fmap_insert, Hx, Hy, lookup_fmap, Hj. Qed.

Definition balanced (s : W * gmap nat T) : Prop := ∀ k, mo_count s.1 k = holders s.2 k.

Lemma balanced_held w vs i x :
  balanced (w, vs) → vs !! i = Some x → ∀ k, mo_held x = Some k → 0 < mo_count w k.
Proof.
  intros Hb Hi k Hk. pose proof (Hb k) as Hc. cbn in Hc. rewrite Hc, (holders_delete vs i x k Hi). unfold one.
  rewrite bool_decide_eq_true_2 by done. lia.
Qed.

Lemma deref_ok vs i x : deref vs i = Ok x → vs !! i = Some x.
Proof. unfold deref. by destruct (vs !! i); intros [=->]. Qed.

Lemma ostep_balanced w vs op w' vs' :
  ostep (w, vs) op = Ok (w', vs') → balanced (w, vs) →
  balanced (w', vs') ∧ mo_held <$> vs' = own_step (mo_held <$> vs) op.
Proof.
  intros Hs Hb. assert (∀ k, mo_count w k = holders vs k) as Hb' by exact Hb.
  destruct op as [i a|i j|i j|i]; cbn in Hs.
  - case_bool_decide as Hi; [done|]. apply eq_None_not_Some in Hi.
    destruct (mo_new w a) as [[w1 r]| |] eqn:E; simplify_eq/=.
    destruct (mo_new_spec _ _ _ _ E) as [Hh Hc]. rewrite <- Hh.
    destruct r as [x|]; cbn in *; [|split; [|done]; intros k; cbn; rewrite Hc, one_None, Hb'; lia].
    split; [|apply fmap_insert]. intros k. cbn. rewrite Hc, holders_insert, Hb' by done. lia.
  - case_bool_decide as Hi; [done|]. apply eq_None_not_Some in Hi.
    destruct (deref vs j) as [y| |] eqn:Hj; simplify_eq/=. apply deref_ok in Hj.
    destruct (mo_move_spec y) as [H1 H2]. split; [|by eapply held_transfer]. intros k. cbn.
    pose proof (holders_transfer vs i j (mo_move y).1 y (mo_move y).2 k ltac:(congruence) Hj H1 H2) as H3.
    rewrite Hi, one_None in H3. rewrite Hb'. lia.
  - destruct (deref vs i) as [x| |] eqn:Hi; simplify_eq/=. apply deref_ok in Hi.
    destruct (deref vs j) as [y| |] eqn:Hj; simplify_eq/=. apply deref_ok in Hj.
    case_bool_decide as Hne; [subst; rewrite mo_assign_self in Hs by (by eexists); by simplify_eq|].
    destruct (mo_assign_spec w vs i j x y Hne Hi Hj (balanced_held _ _ _ _ Hb Hi))
      as (w2 & x2 & y2 & E & H1 & H2 & H3).
    rewrite E in Hs. simplify_eq. split; [|by eapply held_transfer]. intros k. cbn.
    pose proof (holders_transfer vs i j x2 y y2 k Hne Hj H1 H2) as H4. rewrite Hi in H4. cbn in H4.
    specialize (H3 k). rewrite Hb' in H3. lia.
  - destruct (deref vs i) as [x| |] eqn:Hi; simplify_eq/=. apply deref_ok in Hi.
    destruct (mo_destroy_spec w x (balanced_held _ _ _ _ Hb Hi)) as (w2 & E & H1).
    rewrite E in Hs. simplify_eq/=. split; [|apply fmap_delete]. intros k. cbn.
    specialize (H1 k). rewrite Hb' in H1. pose proof (holders_delete vs i x k Hi). lia.
Qed.

Lemma osteps_balanced ops s w vs :
  res_foldl ostep s ops = Ok (w, vs) → balanced s →
  balanced (w, vs) ∧ mo_held <$> vs = foldl own_step (mo_held <$> s.2) ops.
Proof.
  revert s. induction ops as [|op ops IH]; intros s H Hb; cbn in H; [by simplify_eq|].
  destruct s as [w0 vs0]. destruct (ostep (w0, vs0) op) as [[w1 vs1]| |] eqn:E; simplify_eq/=.
  destruct (ostep_balanced _ _ _ _ _ E Hb) as [Hb1 Ho]. rewrite <- Ho. by apply (IH (w1, vs1)).
Qed.

(** Every resource is open exactly as often as a variable holds it, the
    variables hold what the specification says, and every variable can be
    destroyed or assigned to. *)
Lemma run_balanced ops w0 w vs :
  (∀ k, mo_count w0 k = 0) → res_foldl ostep (w0, ∅) ops = Ok (w, vs) →
  mo_held <$> vs = foldl own_step ∅ ops ∧
  (∀ k, mo_count w k = holders vs k) ∧
  (∀ i, is_Some (vs !! i) → ∃ s, ostep (w, vs) (ODestroy i) = Ok s) ∧
  (∀ i j, is_Some (vs !! i) → is_Some (vs !! j) → ∃ s, ostep (w, vs) (OAssign i j) = Ok s).
Proof.
  intros H0 Hrun. destruct (osteps_balanced _ _ _ _ Hrun) as [Hb Ho].
  { intros k. cbn. by rewrite H0. }
  cbn in Ho. rewrite fmap_empty in Ho. split_and!; [done|apply Hb| |].
  - intros i [x Hi]. cbn. unfold deref. rewrite Hi. cbn.
    destruct (mo_destroy_spec w x (balanced_held _ _ _ _ Hb Hi)) as (w' & -> & _). by eexists.
  - intros i j [x Hi] [y Hj]. cbn. unfold deref. rewrite Hi, Hj. cbn.
    destruct (decide (i = j)) as [<-|Hne]; [rewrite mo_assign_self by (by eexists); by eexists|].
    destruct (mo_assign_spec w vs i j x y Hne Hi Hj (balanced_held _ _ _ _ Hb Hi)) as (? & ? & ? & -> & _).
    by eexists.
Qed.

End Ownership.

(** ** Plugin loaders *)

Section Loaders.
Context (moved : string → string).   (* a string after it was moved from *)
Context (library : string → option Library).

Definition no_functions (path : string) : Loader := mkLoader false path None false false false.

Definition loader_move (other : Loader) : Loader * Loader :=
  (mkLoader (handle_ other) (loader_path_ other) (fn_get_metadata_ other) (fn_initialize_ other)
     (fn_execute_command_ other) (fn_shutdown_ other),
   no_functions (moved (loader_path_ other))).

(** [this] and [other] are addresses; [other] is read after [this] was
    unloaded.  The target's library is closed without [plugin_shutdown]. *)
Definition loader_assign (dl : Dl) (vs : gmap nat Loader) (this other : nat)
  : res (Dl * gmap nat Loader) :=
  if bool_decide (this ≠ other) then
    t ← deref vs this;
    let '(dl, t) := unload dl t in
    let vs := <[this := t]> vs in
    o ← deref vs other;
    let vs := <[this := mkLoader (handle_ o) (loader_path_ o) (fn_get_metadata_ o) (fn_initialize_ o)
                          (fn_execute_command_ o) (fn_shutdown_ o)]> vs in
    Ok (dl, <[other := no_functions (moved (loader_path_ o))]> vs)
  else Ok (dl, vs).

Definition loader_held (l : Loader) : option string := if handle_ l then Some (loader_path_ l) else None.

Lemma unload_refs dl l k :
  (∀ k, loader_held l = Some k → 0 < refs dl k) →
  refs dl k = refs (unload dl l).1 k + one (loader_held l) k.
Proof.
  unfold loader_held, unload, one. intros H. destruct (handle_ l); cbn; [|rewrite bool_decide_eq_false_2 by done; lia].
  specialize (H _ eq_refl). unfold dlclose_ref, refs in *. cbn [dl_refs].
  destruct (decide (loader_path_ l = k)) as [<-|Hne].
  - rewrite lookup_insert_eq, bool_decide_eq_true_2 by done. cbn. lia.
  - rewrite lookup_insert_ne, bool_decide_eq_false_2 by congruence. lia.
Qed.

Lemma shutdown_refs dl l k : refs (shutdown dl l) k = refs dl k.
Proof. unfold shutdown. by destruct (fn_shutdown_ l). Qed.

(** A library with all four symbols. *)
Definition complete_library (path : string) : bool :=
  match library path with
  | Some lib => bool_decide (is_Some (lib_metadata lib)) && lib_initialize lib && lib_execute_command lib &&
                lib_shutdown lib
  | None => false
  end.

Lemma new_loader_refs dl path :
  let '(dl', r) := new_loader library dl path in
  match r with
  | Ok l => complete_library path = true ∧ loader_held l = Some path
  | _ => complete_library path = false
  end ∧
  ∀ k, refs dl' k = refs dl k + if complete_library path then one (Some path) k else 0.
Proof.
  unfold new_loader, complete_library. destruct (library path) as [lib|]; [|split; [done|intros; lia]].
  assert (∀ k, one (Some path) k = if decide (path = k) then 1 else 0) as Hone.
  { intros k. unfold one. case_decide; [subst; by rewrite bool_decide_eq_true_2|].
    by rewrite bool_decide_eq_false_2 by congruence. }
  cbn. destruct (_ && _); (split; [done|]); intros k; cbn; rewrite ?refs_close, refs_open, ?Hone;
    destruct (decide (path = k)); lia.
Qed.

#[export, refine] Instance loader_move_only : MoveOnly Loader Dl string := {|
  mo_args := string;
  mo_held := loader_held;
  mo_count := refs;
  mo_wants path := if complete_library path then Some (Some path) else None;
  mo_new dl path :=
    let '(dl, r) := new_loader library dl path in
    Ok (dl, match r with Ok l => Some l | _ => None end);
  mo_destroy dl l := Ok (destroy dl l);
  mo_move := loader_move;
  mo_assign := loader_assign
|}.
Proof.
  - intros dl path dl' r. pose proof (new_loader_refs dl path) as Hn.
    destruct (new_loader library dl path) as [dl1 r1]. destruct Hn as [Hr Hc]. intros [= <- <-].
    destruct r1 as [l| |]; [destruct Hr as [Hr Hl]|..]; rewrite Hr in *; cbn; rewrite ?Hl; auto.
  - intros dl l H. eexists. split; [done|]. intros k. unfold destroy.
    destruct (fn_shutdown_ l && handle_ l); [|by apply unload_refs].
    rewrite <-(shutdown_refs dl l k). apply unload_refs. intros k'. rewrite shutdown_refs. apply H.
  - done.
  - intros dl vs i _. unfold loader_assign. by rewrite bool_decide_eq_false_2 by (intros Hx; by apply Hx).
  - intros dl vs i j x y Hne Hi Hj H. unfold loader_assign, deref. rewrite bool_decide_eq_true_2, Hi by done.
    pose proof (λ k, unload_refs dl x k H) as Hr. cbn. destruct (unload dl x) as [dl' x'].
    rewrite lookup_insert_ne, Hj by done. cbn. rewrite insert_insert_eq, insert_insert_ne by done.
    do 3 eexists. split; [reflexivity|]. by split_and!.
Defined.

(** The destructor shuts the plugin down before it closes the library; move
    assignment does not. *)
Lemma assign_skips_shutdown dl vs i j this other dl' vs' :
  i ≠ j → vs !! i = Some this → vs !! j = Some other →
  handle_ this = true → fn_shutdown_ this = true →
  loader_assign dl vs i j = Ok (dl', vs') →
  shutdowns dl' = shutdowns dl ∧
  shutdowns (destroy dl this) !! loader_path_ this =
    Some (S (default 0 (shutdowns dl !! loader_path_ this))).
Proof.
  intros Hne Hi Hj Hh Hs. unfold loader_assign, destroy, unload, shutdown, deref.
  rewrite bool_decide_eq_true_2, Hi by done. cbn. rewrite Hh, Hs. cbn.
  rewrite lookup_insert_ne, Hj by done. intros [= <- <-]. split; [done|]. apply lookup_insert_eq.
Qed.

End Loaders.

(** ** Buffers *)

(** [DataBuffer] with its pointer: the number of a block of the heap. *)
Record BufferObject := mkBufferObject {
  bo_buffer_id : string;
  bo_data : option positive;
  bo_byte_size : Z;
  bo_element_count : Z;
  bo_data_type : DataType;
  bo_owns_memory : bool
}.

Section Buffers.
Context (moved : string → string).

(** The allocated blocks. *)
Definition Heap : Type := gset positive.

(** [free]: undefined for what is not allocated. *)
Definition free (heap : Heap) (p : positive) : res Heap :=
  if bool_decide (p ∈ heap) then Ok (heap ∖ {[p]}) else Undef.

Definition new_buffer (buffer_id : string) (data : option positive) (byte_size : Z) (t : DataType)
  (element_count : Z) : BufferObject :=
  mkBufferObject buffer_id data byte_size element_count t true.

(** [create_buffer] makes a block and hands it to the constructor; [data] is
    the block [malloc] gives, which is not one that is allocated. *)
Record BufferArgs := mkBufferArgs {
  ba_id : string; ba_data : option positive; ba_size : Z; ba_type : DataType; ba_count : Z
}.

Definition malloc_and_construct (heap : Heap) (a : BufferArgs) : res (Heap * option BufferObject) :=
  let b := new_buffer (ba_id a) (ba_data a) (ba_size a) (ba_type a) (ba_count a) in
  match ba_data a with
  | Some p => if bool_decide (p ∈ heap) then Undef else Ok ({[p]} ∪ heap, Some b)
  | None => Ok (heap, Some b)
  end.

Definition buffer_destroy (heap : Heap) (b : BufferObject) : res Heap :=
  match bo_owns_memory b, bo_data b with
  | true, Some p => free heap p
  | _, _ => Ok heap
  end.

Definition moved_buffer (other : BufferObject) : BufferObject :=
  mkBufferObject (moved (bo_buffer_id other)) None (bo_byte_size other) (bo_element_count other)
    (bo_data_type other) false.

Definition buffer_move (other : BufferObject) : BufferObject * BufferObject :=
  (mkBufferObject (bo_buffer_id other) (bo_data other) (bo_byte_size other) (bo_element_count other)
     (bo_data_type other) (bo_owns_memory other), moved_buffer other).

(** [this] and [other] are addresses. *)
Definition buffer_assign (heap : Heap) (vs : gmap nat BufferObject) (this other : nat)
  : res (Heap * gmap nat BufferObject) :=
  if bool_decide (this ≠ other) then
    t ← deref vs this;
    heap ← match bo_owns_memory t, bo_data t with
           | true, Some p => free heap p
           | _, _ => Ok heap
           end;
    o ← deref vs other;
    let vs := <[this := mkBufferObject (bo_buffer_id o) (bo_data o) (bo_byte_size o) (bo_element_count o)
                          (bo_data_type o) (bo_owns_memory o)]> vs in
    Ok (heap, <[other := moved_buffer o]> vs)
  else Ok (heap, vs).

Definition buffer_held (b : BufferObject) : option positive := if bo_owns_memory b then bo_data b else None.

Definition allocated (heap : Heap) (p : positive) : nat := if bool_decide (p ∈ heap) then 1 else 0.

Lemma buffer_destroy_spec heap b :
  (∀ p, buffer_held b = Some p → 0 < allocated heap p) →
  ∃ heap', buffer_destroy heap b = Ok heap' ∧
    ∀ p, allocated heap p = allocated heap' p + one (buffer_held b) p.
Proof.
  unfold buffer_destroy, buffer_held, one, allocated, free. intros H.
  destruct (bo_owns_memory b); [|exists heap; split; [done|]; intros p; rewrite (bool_decide_eq_false_2 (None = _)) by done; lia].
  destruct (bo_data b) as [q|]; [|exists heap; split; [done|]; intros p; rewrite (bool_decide_eq_false_2 (None = _)) by done; lia].
  specialize (H q eq_refl). destruct (decide (q ∈ heap)) as [Hq|Hq].
  2: { rewrite bool_decide_eq_false_2 in H by done. lia. }
  rewrite bool_decide_eq_true_2 by done. eexists. split; [done|]. intros p.
  destruct (decide (p = q)) as [->|Hne].
  - rewrite (bool_decide_eq_true_2 (q ∈ heap)), (bool_decide_eq_false_2 (q ∈ _)) by set_solver.
    by rewrite bool_decide_eq_true_2.
  - rewrite (bool_decide_eq_false_2 (Some q = _)) by congruence.
    rewrite (bool_decide_ext (p ∈ heap ∖ {[q]}) (p ∈ heap)) by set_solver. lia.
Qed.

#[export, refine] Instance buffer_move_only : MoveOnly BufferObject Heap positive := {|
  mo_args := BufferArgs;
  mo_held := buffer_held;
  mo_count := allocated;
  mo_wants a := Some (ba_data a);
  mo_new := malloc_and_construct;
  mo_destroy := buffer_destroy;
  mo_move := buffer_move;
  mo_assign := buffer_assign
|}.
Proof.
  - intros heap a heap' r. unfold malloc_and_construct. destruct (ba_data a) as [p|] eqn:Ep.
    + case_bool_decide as Hp; [done|]. intros [= <- <-]. unfold buffer_held. cbn. split; [done|].
      intros k. unfold allocated, one. destruct (decide (k = p)) as [->|Hne].
      * rewrite (bool_decide_eq_true_2 (p ∈ _)), (bool_decide_eq_false_2 (p ∈ heap)) by set_solver.
        by rewrite bool_decide_eq_true_2.
      * rewrite (bool_decide_eq_false_2 (Some p = _)) by congruence.
        rewrite (bool_decide_ext (k ∈ {[p]} ∪ heap) (k ∈ heap)) by set_solver. lia.
    + intros [= <- <-]. unfold buffer_held. cbn. split; [done|]. intros k. rewrite one_None. lia.
  - apply buffer_destroy_spec.
  - done.
  - intros heap vs i _. unfold buffer_assign. by rewrite bool_decide_eq_false_2 by (intros Hx; by apply Hx).
  - intros heap vs i j x y Hne Hi Hj H. destruct (buffer_destroy_spec heap x H) as (heap' & E & Hc).
    unfold buffer_destroy in E. unfold buffer_assign, deref.
    rewrite bool_decide_eq_true_2, Hi by done. cbn. rewrite E. cbn. rewrite Hj. cbn.
    rewrite insert_insert_ne by done. do 3 eexists. split; [reflexivity|]. by split_and!.
Defined.

End Buffers.

(** ** Properties *)

(** C40. Nothing is given back twice, nothing leaks and nothing is lost: after
    any sequence of constructions, moves, move assignments (to itself too) and
    destructions, each variable holds exactly what the specification says: the
    library or block it was made with or was last moved into it, and nothing
    after it was moved from; assigning a variable to itself changes nothing.
    A library is open exactly as often as a [PluginLoader] variable holds it, a
    block is allocated exactly if a [DataBuffer] variable owns it and no two own
    the same, and every variable can be destroyed or assigned to without
    freeing what is not allocated. *)
Theorem ownership_exact moved library :
  (∀ ops dl vs,
     res_foldl (ostep (MO := loader_move_only moved library)) (empty_dl, ∅) ops = Ok (dl, vs) →
     loader_held <$> vs = foldl (own_step (MO := loader_move_only moved library)) ∅ ops ∧
     ∀ path, refs dl path = holders (MO := loader_move_only moved library) vs path) ∧
  (∀ ops heap vs,
     res_foldl (ostep (MO := buffer_move_only moved)) (∅, ∅) ops = Ok (heap, vs) →
     buffer_held <$> vs = foldl (own_step (MO := buffer_move_only moved)) ∅ ops ∧
     (∀ p, allocated heap p = holders (MO := buffer_move_only moved) vs p) ∧
     (∀ i b, vs !! i = Some b → ∃ heap', buffer_destroy heap b = Ok heap') ∧
     (∀ i j, is_Some (vs !! i) → is_Some (vs !! j) → ∃ r, buffer_assign moved heap vs i j = Ok r)).
Proof.
  split; [intros ops dl vs Hrun|intros ops heap vs Hrun].
  - destruct (run_balanced (MO := loader_move_only moved library) ops empty_dl dl vs) as (? & ? & _); done.
  - destruct (run_balanced (MO := buffer_move_only moved) ops ∅ heap vs) as (H1 & H2 & H3 & H4); [done..|].
    split_and!; [done|done| |].
    + intros i b Hi. destruct (H3 i ltac:(by eexists)) as [r Hr]. cbn in Hr. unfold deref in Hr.
      rewrite Hi in Hr. cbn in Hr. destruct (buffer_destroy heap b); [by eexists|done|done].
    + intros i j Hi Hj. destruct (H4 i j Hi Hj) as [r Hr]. exists r. cbn in Hr. unfold deref in Hr.
      destruct Hi as [? Hi], Hj as [? Hj]. by rewrite Hi, Hj in Hr.
Qed.

(** ** A concrete run: a buffer is made, assigned over and assigned to itself *)

Section Samples.
#[local] Instance moved_out : MoveOnly BufferObject Heap positive := buffer_move_only (λ _, EmptyString).

Definition sample_ops : list (oop BufferArgs) :=
  [ONew 0 (mkBufferArgs "buffer_5_1" (Some 1%positive) 8 FLOAT32 2);
   ONew 1 (mkBufferArgs "buffer_5_2" (Some 2%positive) 4 FLOAT32 1);
   OAssign 1 0; OAssign 1 1].

Definition sample_store : Heap * gmap nat BufferObject :=
  match res_foldl (ostep (MO := moved_out)) (∅, ∅) sample_ops with Ok s => s | _ => (∅, ∅) end.

Lemma ownership_exact_witness :
  buffer_held <$> sample_store.2 = <[0 := None]> (<[1 := Some 1%positive]> ∅) ∧
  ∃ r, buffer_assign (λ _, EmptyString) sample_store.1 sample_store.2 0 1 = Ok r.
Proof.
  destruct (proj2 (ownership_exact (λ _, EmptyString) (λ _, None)) sample_ops sample_store.1 sample_store.2)
    as (H1 & _ & _ & H2).
  - vm_compute. reflexivity.
  - split; [rewrite H1; vm_compute; reflexivity|]. apply H2; eexists; vm_compute; reflexivity.
Defined.

End Samples.
