(* ===== verification/Visa.v ===== *)
(** * The VISA plugins

    Model of the two plugins for VISA instruments: src/plugins/visa/visa_plugin.c
    (module [VisaPlugin]) and src/src/workers/visa_builtin.cpp (module
    [VisaBuiltin]).  The VISA library is the class [VisaLib], the JSON parser
    cJSON the class [CJson], number conversions of the C library [CNumbers].
    What the plugins print on the error stream is left out. *)

From S2P Require Import Prelude Text Json SerializedCommand Plugin DataBuffer PluginRegistry.
From Stdlib Require Import Lia.

(** ** Libraries *)

(** Sessions of the VISA library.  A status below zero is an error; reading
    gives no more bytes than asked for; an open session is not [VI_NULL]. *)
Class VisaLib (W : Type) := {
  vi_open_default_rm : W → W * (Z * Z);
  vi_open : W → Z → string → Z → Z → W * (Z * Z);
  vi_set_timeout : W → Z → Z → W;
  vi_write : W → Z → list ascii → W * Z;
  vi_read : W → Z → nat → W * (Z * list ascii);
  vi_close : W → Z → W;
  vi_read_bound w s n : length (vi_read w s n).2.2 ≤ n;
  vi_rm_session w : (0 ≤ (vi_open_default_rm w).2.1)%Z → (vi_open_default_rm w).2.2 ≠ 0%Z;
  vi_open_session w rm a m t : (0 ≤ (vi_open w rm a m t).2.1)%Z → (vi_open w rm a m t).2.2 ≠ 0%Z
}.

(** [cJSON_Parse], [cJSON_GetObjectItem], and the values of strings, numbers
    ([valueint]) and arrays. *)
Class CJson (J : Type) := {
  cjson_parse : string → option J;
  cjson_item : J → string → option J;
  cjson_string : J → option string;
  cjson_int : J → option Z;
  cjson_array : J → option (list J);
  (** the empty object has no items *)
  cjson_empty j k : cjson_parse "{}" = Some j → cjson_item j k = None
}.

(** ["%f"], [strtod] (the value and how many characters were used, if there is a
    number) and [strtof] (the bytes of the value). *)
Class CNumbers := {
  fmt_f : double → string;
  strtod : list ascii → option (double * nat);
  strtof : list ascii → list ascii;
  strtof_bytes l : length (strtof l) = 4
}.

(** ["0x%08X"] *)
Definition hex_digit (n : Z) : ascii :=
  if bool_decide (n < 10)%Z then ascii_of_N (48 + Z.to_N n) else ascii_of_N (55 + Z.to_N n).
Fixpoint hex_digits (k : nat) (z : Z) (acc : list ascii) : list ascii :=
  match k with 0 => acc | S k => hex_digits k (z / 16) (hex_digit (z `mod` 16) :: acc) end.
Definition hex8 (status : Z) : string := "0x" +:+ of_chars (hex_digits 8 (wrap32 status) []).

(** [snprintf(buf, n, ...)] *)
Definition snprintf (n : nat) (s : string) : string := of_chars (take (n - 1) (chars s)).

(** Responses with some members changed. *)
Definition put_names (r : PluginResponse) (id instrument : string) : PluginResponse :=
  mkPluginResponse (strncpy (PLUGIN_MAX_STRING_LEN - 1) id) (strncpy (PLUGIN_MAX_STRING_LEN - 1) instrument)
    (presp_success r) (presp_return_value r) (presp_text_response r) (presp_error_code r) (presp_error_message r)
    (presp_has_large_data r) (presp_data_buffer_id r) (presp_data_element_count r) (presp_data_type r).
Definition put_success (r : PluginResponse) (b : bool) : PluginResponse :=
  mkPluginResponse (presp_command_id r) (presp_instrument_name r) b (presp_return_value r) (presp_text_response r)
    (presp_error_code r) (presp_error_message r) (presp_has_large_data r) (presp_data_buffer_id r)
    (presp_data_element_count r) (presp_data_type r).
Definition put_error (r : PluginResponse) (code : Z) (msg : string) : PluginResponse :=
  mkPluginResponse (presp_command_id r) (presp_instrument_name r) false (presp_return_value r) (presp_text_response r)
    code msg (presp_has_large_data r) (presp_data_buffer_id r) (presp_data_element_count r) (presp_data_type r).
Definition put_text (r : PluginResponse) (text : string) : PluginResponse :=
  mkPluginResponse (presp_command_id r) (presp_instrument_name r) (presp_success r) (presp_return_value r) text
    (presp_error_code r) (presp_error_message r) (presp_has_large_data r) (presp_data_buffer_id r)
    (presp_data_element_count r) (presp_data_type r).
Definition put_value (r : PluginResponse) (v : PluginParamValue) : PluginResponse :=
  mkPluginResponse (presp_command_id r) (presp_instrument_name r) (presp_success r) v (presp_text_response r)
    (presp_error_code r) (presp_error_message r) (presp_has_large_data r) (presp_data_buffer_id r)
    (presp_data_element_count r) (presp_data_type r).
Definition put_large (r : PluginResponse) (large : bool) (id : string) (count type : Z) : PluginResponse :=
  mkPluginResponse (presp_command_id r) (presp_instrument_name r) (presp_success r) (presp_return_value r)
    (presp_text_response r) (presp_error_code r) (presp_error_message r) large id count type.

(** ** The plugin in C *)

Module VisaPlugin.

Definition LARGE_DATA_THRESHOLD : nat := 1024.
Definition max_read_size : nat := 1024 * 1024.

Record VISAPluginState := mkState {
  default_rm : Z;
  instrument : Z;
  resource_address : string;
  timeout_ms : Z;
  termination_char : string;
  initialized : bool
}.

(** [static VISAPluginState g_state = {0}] *)
Definition g_state_zero : VISAPluginState := mkState 0 0 EmptyString 0 EmptyString false.

Section Plugin.
Context {W J : Type} `{VL : VisaLib W} `{CJ : CJson J} `{CN : CNumbers}.

(** *** Templates *)

(** [value_str], the text of a parameter.  A string fills it by [strncpy] up to
    its last byte, which nothing sets: a string that leaves no room for the
    terminating zero makes [strlen] read on. *)
Definition value_str (v : PluginParamValue) : res (list ascii) :=
  match v with
  | PARAM_TYPE_INT32 i | PARAM_TYPE_INT64 i | PARAM_TYPE_UINT32 i | PARAM_TYPE_UINT64 i =>
      Ok (chars (snprintf PLUGIN_MAX_STRING_LEN (dec i)))
  | PARAM_TYPE_FLOAT d | PARAM_TYPE_DOUBLE d => Ok (chars (snprintf PLUGIN_MAX_STRING_LEN (fmt_f d)))
  | PARAM_TYPE_BOOL b => Ok (if b then ["1"%char] else ["0"%char])
  | PARAM_TYPE_STRING s =>
      let s := until_nul (chars s) in
      if bool_decide (length s < PLUGIN_MAX_STRING_LEN - 1) then Ok s else Undef
  | _ => Ok []
  end.

(** The first parameter of a name. *)
Fixpoint find_param (name : list ascii) (params : list PluginParam) : option PluginParamValue :=
  match params with
  | [] => None
  | p :: params => if bool_decide (chars (param_name p) = name) then Some (param_value p) else find_param name params
  end.

(** What a placeholder becomes: the parameter's text, or the placeholder. *)
Definition placeholder_text (params : list PluginParam) (name : list ascii) : res (list ascii) :=
  if bool_decide (PLUGIN_MAX_STRING_LEN ≤ length name) then Undef   (* [param_name] is too small *)
  else
    match find_param name params with
    | Some v => value_str v
    | None => Ok ("{"%char :: name ++ ["}"%char])
    end.

(** The loop: [src] is what is left of the template, [remaining] (a [size_t]) the
    room in the output.  A text that does not fit is left out.  [fuel] bounds the
    rounds; each consumes a character. *)
Fixpoint substitute_loop (fuel : nat) (params : list PluginParam) (src : list ascii) (remaining : Z)
  : res (list ascii) :=
  match src with
  | [] => Ok []
  | c :: src =>
      if bool_decide (remaining = 0%Z) then Ok []
      else
        match fuel with
        | 0 => Undef
        | S fuel =>
            match (if bool_decide (c = "{"%char) then split_at "}"%char src else None) with
            | Some (name, rest) =>
                t ← placeholder_text params name;
                if bool_decide (Z.of_nat (length t) ≤ remaining)%Z then
                  out ← substitute_loop fuel params rest (remaining - Z.of_nat (length t)); Ok (t ++ out)
                else substitute_loop fuel params rest remaining
            | None => out ← substitute_loop fuel params src (remaining - 1); Ok (c :: out)
            end
        end
  end.

(** [output] has [output_size] bytes: writing the text and its terminating zero
    past them is undefined. *)
Definition substitute_template (template : string) (params : list PluginParam) (output_size : Z)
  : res (list ascii) :=
  let src := until_nul (chars template) in
  out ← substitute_loop (length src) params src (wrap64 (output_size - 1));
  if bool_decide (Z.of_nat (length out) < output_size)%Z then Ok out else Undef.

(** *** Connecting *)

Definition get_json_string (json : J) (key default_val : string) : string :=
  match cjson_item json key with
  | Some item => match cjson_string item with Some s => s | None => default_val end
  | None => default_val
  end.

Definition get_json_int (json : J) (key : string) (default_val : Z) : Z :=
  match cjson_item json key with
  | Some item => match cjson_int item with Some i => i | None => default_val end
  | None => default_val
  end.

Definition plugin_get_metadata : PluginMetadata :=
  mkPluginMetadata INSTRUMENT_PLUGIN_API_VERSION
    (strncpy (PLUGIN_MAX_STRING_LEN - 1) "NI-VISA Plugin") (strncpy (PLUGIN_MAX_STRING_LEN - 1) "1.0.0")
    (strncpy (PLUGIN_MAX_STRING_LEN - 1) "VISA")
    (strncpy (PLUGIN_MAX_STRING_LEN - 1)
       ("Built-in NI-VISA protocol driver supporting GPIB, USB, Ethernet, "
        +:+ "and Serial instruments with large data buffer support")).

(** The spellings of the configuration, with their backslashes. *)
Definition backslash : ascii := "092"%char.
Definition termination_of (term : string) : string :=
  if bool_decide (chars term = [backslash; "n"%char]) then String LF EmptyString
  else if bool_decide (chars term = [backslash; "r"%char]) then String CR EmptyString
  else if bool_decide (chars term = [backslash; "r"%char; backslash; "n"%char])
  then String CR (String LF EmptyString)
  else strncpy 3 term.

Definition default_termination : string := of_chars [backslash; "n"%char].

(** The initialization commands of the API; failures are only logged. *)
Definition run_initialization (w : W) (st : VISAPluginState) (api_definition_json : string) : W :=
  match cjson_parse api_definition_json with
  | None => w
  | Some api =>
      match cjson_item api "initialization" with
      | None => w
      | Some cmds =>
          match cjson_array cmds with
          | None => w
          | Some l =>
              foldl (λ w init_cmd,
                match cjson_string init_cmd with
                | Some s =>
                    (vi_write w (instrument st)
                       (chars (snprintf PLUGIN_MAX_PAYLOAD (s +:+ termination_char st)))).1
                | None => w
                end) w l
          end
      end
  end.

Definition plugin_initialize (w : W) (st : VISAPluginState) (config : PluginConfig)
  : W * VISAPluginState * Z :=
  match cjson_parse (pc_connection_json config) with
  | None => (w, st, (-1)%Z)
  | Some conn =>
      let address := get_json_string conn "address" EmptyString in
      if empty? address then (w, st, (-1)%Z)
      else
        let addr := strncpy (PLUGIN_MAX_STRING_LEN - 1) address in
        let timeout := wrap32 (get_json_int conn "timeout" 5000) in
        let term := termination_of (get_json_string conn "termination" default_termination) in
        let '(w, (status, rm)) := vi_open_default_rm w in
        let st := mkState rm (instrument st) addr timeout term (initialized st) in
        if bool_decide (status < 0)%Z then (w, st, (-1)%Z)
        else
          let '(w, (status, session)) := vi_open w rm addr 0 timeout in
          let st := mkState rm session addr timeout term (initialized st) in
          if bool_decide (status < 0)%Z then (vi_close w rm, st, (-1)%Z)
          else
            let w := vi_set_timeout w session timeout in
            let st := mkState rm session addr timeout term true in
            (run_initialization w st (pc_api_definition_json config), st, 0%Z)
  end.

Definition plugin_shutdown (w : W) (st : VISAPluginState) : W * VISAPluginState :=
  if initialized st then
    let '(w, i) := if bool_decide (instrument st = 0%Z) then (w, instrument st)
                   else (vi_close w (instrument st), 0%Z) in
    let '(w, rm) := if bool_decide (default_rm st = 0%Z) then (w, default_rm st)
                    else (vi_close w (default_rm st), 0%Z) in
    (w, mkState rm i (resource_address st) (timeout_ms st) (termination_char st) false)
  else (w, st).

(** *** Readings *)

Definition is_trailing (c : ascii) : bool :=
  bool_decide (c = LF) || bool_decide (c = CR) || bool_decide (c = " "%char).
Fixpoint drop_trailing (l : list ascii) : list ascii :=
  match l with [] => [] | c :: l' => if is_trailing c then drop_trailing l' else l end.
Definition trim (l : list ascii) : list ascii := reverse (drop_trailing (reverse l)).

(** The characters that are counted, and those [strtok] splits at. *)
Definition is_counted (c : ascii) : bool :=
  bool_decide (c = ","%char) || bool_decide (c = " "%char) || bool_decide (c = LF).
Definition is_separator (c : ascii) : bool := is_counted c || bool_decide (c = CR).

Definition delimiter_count (l : list ascii) : nat := length (List.filter is_counted l).

(** The tokens of [strtok]: the longest runs of other characters. *)
Fixpoint strtok_from (cur : list ascii) (l : list ascii) : list (list ascii) :=
  match l with
  | [] => if bool_decide (cur = []) then [] else [reverse cur]
  | c :: l =>
      if is_separator c then (if bool_decide (cur = []) then [] else [reverse cur]) ++ strtok_from [] l
      else strtok_from (c :: cur) l
  end.
Definition strtok (l : list ascii) : list (list ascii) := strtok_from [] l.

(** What the buffer holds as a string after [strtok]: it ends with the first
    token, whose separator has become a zero byte. *)
Fixpoint after_strtok (in_token : bool) (l : list ascii) : list ascii :=
  match l with
  | [] => []
  | c :: l => if is_separator c then (if in_token then [] else c :: after_strtok false l)
              else c :: after_strtok true l
  end.

(** Allocations of the plugin, and of the buffer manager at time [ms]. *)
Record Memory := mkMemory {
  read_buffer_ok : bool;
  float_array_ok : bool;
  buffer_ok : bool;
  buffer_ms : Z
}.

Definition float_elements (reading : list ascii) : list (list ascii) :=
  strtof <$> take (delimiter_count reading + 1) (strtok (until_nul reading)).

(** A reading above the threshold. *)
Definition store_large (mem : Memory) (mg : DataBufferManager) (cmd : PluginCommand) (resp : PluginResponse)
  (reading : list ascii) : res (DataBufferManager * PluginResponse) :=
  if negb (float_array_ok mem) then Ok (mg, resp)
  else
    let elements := float_elements reading in
    let element_count := Z.of_nat (length elements) in
    r ← data_buffer_create (buffer_ms mem) (buffer_ok mem) mg (Some (pcmd_instrument_name cmd))
          (Some (pcmd_id cmd)) 0 element_count (Some (concat elements)) true;
    match r with
    | (mg, (result, Some buffer_id)) =>
        let resp := put_large resp true (strncpy (PLUGIN_MAX_STRING_LEN - 1) buffer_id) element_count 0 in
        Ok (mg, put_text resp (snprintf PLUGIN_MAX_PAYLOAD
                  ("Large data buffer:  " +:+ buffer_id +:+ " (" +:+ dec element_count +:+ " elements)")))
    | (mg, (_, None)) =>
        Ok (mg, put_text resp (strncpy (PLUGIN_MAX_PAYLOAD - 1)
                                  (of_chars (after_strtok false (until_nul reading)))))
    end.

(** A reading of at most the threshold: its text, and a number if all of it is
    one. *)
Definition store_small (resp : PluginResponse) (reading : list ascii) : PluginResponse :=
  let s := until_nul reading in
  let resp := put_text resp (strncpy (PLUGIN_MAX_PAYLOAD - 1) (of_chars s)) in
  match strtod s with
  | Some (d, n) =>
      if bool_decide (n = length s) then put_value resp (PARAM_TYPE_DOUBLE d)
      else put_value resp (PARAM_TYPE_STRING (strncpy (PLUGIN_MAX_STRING_LEN - 1) (of_chars s)))
  | None => put_value resp (PARAM_TYPE_STRING (strncpy (PLUGIN_MAX_STRING_LEN - 1) (of_chars s)))
  end.

(** *** Commands *)

(** The verb, or the first string parameter called [template]. *)
Fixpoint template_override (params : list PluginParam) : option string :=
  match params with
  | [] => None
  | p :: params =>
      if bool_decide (param_name p = "template") then
        match param_value p with PARAM_TYPE_STRING s => Some s | _ => template_override params end
      else template_override params
  end.

Definition command_str (st : VISAPluginState) (cmd : PluginCommand) : res (list ascii) :=
  let template := default (pcmd_verb cmd) (template_override (pcmd_params cmd)) in
  s ← substitute_template template (pcmd_params cmd) (Z.of_nat PLUGIN_MAX_PAYLOAD);
  Ok (s ++ take (PLUGIN_MAX_PAYLOAD - length s - 1) (chars (termination_char st))).

Definition plugin_execute_command (mem : Memory) (w : W) (mg : DataBufferManager) (st : VISAPluginState)
  (cmd : PluginCommand) (resp : PluginResponse) : res (W * DataBufferManager * PluginResponse * Z) :=
  let resp := put_names resp (pcmd_id cmd) (pcmd_instrument_name cmd) in
  let resp := put_large resp false EmptyString 0 0 in
  if negb (initialized st) then
    Ok (w, mg, put_error resp (presp_error_code resp) "VISA plugin not initialized", (-1)%Z)
  else
    s ← command_str st cmd;
    let '(w, status) := vi_write w (instrument st) s in
    if bool_decide (status < 0)%Z then
      Ok (w, mg, put_error resp status (snprintf PLUGIN_MAX_STRING_LEN ("VISA write failed: " +:+ hex8 status)),
          (-1)%Z)
    else if negb (pcmd_expects_response cmd) then Ok (w, mg, put_success resp true, 0%Z)
    else if negb (read_buffer_ok mem) then
      Ok (w, mg, put_error resp (presp_error_code resp) "Failed to allocate read buffer", (-1)%Z)
    else
      let '(w, (status, bytes)) := vi_read w (instrument st) (max_read_size - 1) in
      if bool_decide (status < 0)%Z then
        Ok (w, mg, put_error resp status (snprintf PLUGIN_MAX_STRING_LEN ("VISA read failed:  " +:+ hex8 status)),
            (-1)%Z)
      else
        let reading := trim bytes in
        if bool_decide (LARGE_DATA_THRESHOLD < length reading) then
          r ← store_large mem mg cmd resp reading;
          Ok (w, r.1, put_success r.2 true, 0%Z)
        else Ok (w, mg, put_success (store_small resp reading) true, 0%Z).

End Plugin.
End VisaPlugin.

(** ** The built-in plugin in C++ *)

Module VisaBuiltin.

Record state := mkState {
  g_default_rm : Z;
  g_instrument : Z;
  g_resource_address : string
}.

Section Plugin.
Context {W : Type} `{VL : VisaLib W} `{CN : CNumbers}.

Definition plugin_get_metadata : PluginMetadata :=
  mkPluginMetadata INSTRUMENT_PLUGIN_API_VERSION
    (strncpy (PLUGIN_MAX_STRING_LEN - 1) "VISA Built-in") (strncpy (PLUGIN_MAX_STRING_LEN - 1) "1.0.0")
    (strncpy (PLUGIN_MAX_STRING_LEN - 1) "VISA")
    (strncpy (PLUGIN_MAX_STRING_LEN - 1) "Built-in VISA/SCPI adapter").

Definition quote : ascii := "034"%char.
Definition addr_key : list ascii := quote :: chars "address" ++ quote :: chars ": " ++ [quote].

(** The text after [addr_key] up to the next quote. *)
Definition find_address (connection_json : list ascii) : option (list ascii) :=
  i ← find addr_key connection_json;
  '(a, _) ← split_at quote (drop (i + length addr_key) connection_json);
  Some a.

Definition plugin_initialize (w : W) (st : state) (config : PluginConfig) : W * state * Z :=
  match find_address (until_nul (chars (pc_connection_json config))) with
  | None => (w, st, (-1)%Z)
  | Some a =>
      let address := of_chars a in
      let '(w, (status, rm)) := vi_open_default_rm w in
      let st := mkState rm (g_instrument st) address in
      if bool_decide (status < 0)%Z then (w, st, status)
      else
        let '(w, (status, session)) := vi_open w rm address 0 0 in
        let st := mkState rm session address in
        if bool_decide (status < 0)%Z then (vi_close w rm, st, status) else (w, st, 0%Z)
  end.

Definition plugin_execute_command (w : W) (st : state) (cmd : PluginCommand) (resp : PluginResponse)
  : W * PluginResponse * Z :=
  let resp := put_names resp (pcmd_id cmd) (pcmd_instrument_name cmd) in
  let scpi_cmd := chars (pcmd_verb cmd) ++ [LF] in
  let '(w, status) := vi_write w (g_instrument st) scpi_cmd in
  if bool_decide (status < 0)%Z then (w, put_error resp status "VISA write failed", status)
  else if negb (pcmd_expects_response cmd) then (w, put_success resp true, 0%Z)
  else
    let '(w, (status, bytes)) := vi_read w (g_instrument st) 1023 in
    if bool_decide (status < 0)%Z then (w, put_error resp status "VISA read failed", status)
    else
      let s := until_nul bytes in
      let resp := put_text resp (strncpy (PLUGIN_MAX_PAYLOAD - 1) (of_chars s)) in
      let resp := match strtod s with Some (d, _) => put_value resp (PARAM_TYPE_DOUBLE d) | None => resp end in
      (w, put_success resp true, 0%Z).

Definition plugin_shutdown (w : W) (st : state) : W * state :=
  let '(w, i) := if bool_decide (g_instrument st = 0%Z) then (w, g_instrument st)
                 else (vi_close w (g_instrument st), 0%Z) in
  let '(w, rm) := if bool_decide (g_default_rm st = 0%Z) then (w, g_default_rm st)
                  else (vi_close w (g_default_rm st), 0%Z) in
  (w, mkState rm i (g_resource_address st)).

End Plugin.
End VisaBuiltin.

(** ** Templates mean what they say

    A template is a sequence of characters and placeholders; what is sent is the
    texts of these one after the other, without those that do not fit. *)

Module VisaTemplates.
Import VisaPlugin.

#[local] Arguments strncpy _ _ : simpl never.
#[local] Arguments value_str {_} _ : simpl never.

Inductive token := Lit (c : ascii) | Hole (name : list ascii).

(** [cur] is what has been read since an opening brace; without a closing one it
    is text. *)
Fixpoint tokens_from (cur : option (list ascii)) (l : list ascii) : list token :=
  match l with
  | [] => match cur with None => [] | Some w => Lit "{"%char :: (Lit <$> reverse w) end
  | c :: l =>
      match cur with
      | None => if bool_decide (c = "{"%char) then tokens_from (Some []) l else Lit c :: tokens_from None l
      | Some w => if bool_decide (c = "}"%char) then Hole (reverse w) :: tokens_from None l
                  else tokens_from (Some (c :: w)) l
      end
  end.
Definition tokens (template : string) : list token := tokens_from None (until_nul (chars template)).

Fixpoint fit (room : nat) (texts : list (list ascii)) : list ascii :=
  match texts with
  | [] => []
  | t :: texts => if bool_decide (length t ≤ room) then t ++ fit (room - length t) texts else fit room texts
  end.

Section Templates.
Context `{CN : CNumbers}.

(** What a value is printed as: [None] for a text without room for its end.  A
    floating-point number has as many digits as it takes, up to 127 characters. *)
Definition printed (v : PluginParamValue) : option (list ascii) :=
  match v with
  | PARAM_TYPE_INT32 i | PARAM_TYPE_INT64 i | PARAM_TYPE_UINT32 i | PARAM_TYPE_UINT64 i => Some (chars (dec i))
  | PARAM_TYPE_FLOAT d | PARAM_TYPE_DOUBLE d => Some (take 127 (chars (fmt_f d)))
  | PARAM_TYPE_BOOL b => Some (chars (if b then "1" else "0"))
  | PARAM_TYPE_STRING s => if decide (length (chars s) < 127) then Some (chars s) else None
  | PARAM_TYPE_NONE | PARAM_TYPE_BINARY _ | PARAM_TYPE_ARRAY_DOUBLE _ | PARAM_TYPE_ARRAY_INT32 _ => Some []
  end.

(** A token: itself, the first parameter of the name, or an unknown placeholder as
    it stands. *)
Definition render (params : list PluginParam) (t : token) : option (list ascii) :=
  match t with
  | Lit c => Some [c]
  | Hole name =>
      if decide (length name < 128) then
        match list_find (λ p, param_name p = of_chars name) params with
        | Some (_, p) => printed (param_value p)
        | None => Some (chars "{" ++ name ++ chars "}")
        end
      else None
  end.

(** What C values and C strings satisfy. *)
Definition value_ok (v : PluginParamValue) : Prop :=
  match v with
  | PARAM_TYPE_INT32 i | PARAM_TYPE_INT64 i | PARAM_TYPE_UINT32 i | PARAM_TYPE_UINT64 i => (- two63 ≤ i < two64)%Z
  | PARAM_TYPE_STRING s => "000"%char ∉ chars s
  | _ => True
  end.
Definition params_ok (params : list PluginParam) : Prop := Forall (λ p, value_ok (param_value p)) params.

Lemma find_param_spec name params :
  find_param name params =
    (λ ip, param_value ip.2) <$> list_find (λ p, param_name p = of_chars name) params.
Proof.
  induction params as [|p params IH]; cbn; [done|]. case_bool_decide as Hc; case_decide as Hd.
  - done.
  - destruct Hd. by rewrite <-Hc, of_chars_chars.
  - destruct Hc. by rewrite Hd, chars_of_chars.
  - rewrite IH. by destruct (list_find _ params) as [[]|].
Qed.

Lemma value_str_printed v :
  value_ok v → value_str v = match printed v with Some t => Ok t | None => Undef end.
Proof.
  unfold value_str, printed, snprintf, PLUGIN_MAX_STRING_LEN.
  destruct v as [|i|i|i|i|d|d|b|s|l|l|l]; cbn [value_ok]; intros Hok; rewrite ?chars_of_chars; try done.
  5: by destruct b.
  5: { rewrite until_nul_id by done. case_bool_decide; case_decide; done || (cbn in *; lia). }
  all: rewrite take_ge; [done|]; pose proof (dec_length i Hok); cbn; lia.
Qed.

Lemma placeholder_render params name :
  params_ok params →
  placeholder_text params name = match render params (Hole name) with Some t => Ok t | None => Undef end.
Proof.
  intros Hok. unfold placeholder_text, render, PLUGIN_MAX_STRING_LEN. rewrite find_param_spec.
  case_bool_decide; case_decide; try lia; [done|].
  destruct (list_find _ params) as [[i p]|] eqn:E; cbn; [|done].
  apply value_str_printed. apply list_find_Some in E as (Hp & _). by eapply Forall_lookup_1 in Hok.
Qed.

Lemma fit_zero texts : fit 0 texts = [].
Proof.
  induction texts as [|t texts IH]; [done|]. cbn. case_bool_decide as Ht; [|done].
  destruct t; [done|cbn in Ht; lia].
Qed.

Lemma fit_bound room texts : length (fit room texts) ≤ room.
Proof.
  revert room. induction texts as [|t texts IH]; intros room; cbn; [lia|]. case_bool_decide; [|done].
  rewrite length_app. specialize (IH (room - length t)). lia.
Qed.

Lemma fit_all room texts : length (concat texts) ≤ room → fit room texts = concat texts.
Proof.
  revert room. induction texts as [|t texts IH]; intros room; cbn; [done|]. rewrite length_app. intros H.
  rewrite bool_decide_true by lia. by rewrite IH by lia.
Qed.

(** A closing brace ends the placeholder; without one there is none. *)
Lemma tokens_closed w name rest :
  "}"%char ∉ name → tokens_from (Some w) (name ++ "}"%char :: rest) = Hole (reverse w ++ name) :: tokens_from None rest.
Proof.
  revert w. induction name as [|c name IH]; intros w H; cbn [tokens_from app].
  - rewrite bool_decide_true by done. by rewrite app_nil_r.
  - rewrite bool_decide_false by set_solver. rewrite IH by set_solver. by rewrite reverse_cons, <-app_assoc.
Qed.

Lemma tokens_open w l : "}"%char ∉ l → tokens_from (Some w) l = Lit "{"%char :: (Lit <$> reverse w ++ l).
Proof.
  revert w. induction l as [|c l IH]; intros w H; cbn [tokens_from].
  - by rewrite app_nil_r.
  - rewrite bool_decide_false by set_solver. rewrite IH by set_solver. by rewrite reverse_cons, <-app_assoc.
Qed.

Lemma tokens_plain l : "}"%char ∉ l → tokens_from None l = Lit <$> l.
Proof.
  induction l as [|c l IH]; intros H; [done|]. cbn [tokens_from]. case_bool_decide as Hc.
  - subst. rewrite tokens_open by set_solver. done.
  - rewrite IH by set_solver. done.
Qed.

Lemma split_at_inv c l a b : split_at c l = Some (a, b) → l = a ++ c :: b ∧ c ∉ a.
Proof.
  revert a. induction l as [|x l IH]; intros a; cbn; [done|]. case_bool_decide as Hx.
  - intros [= <- <-]. subst. split; [done|set_solver].
  - destruct (split_at c l) as [[a' b']|]; cbn; [|done]. intros [= <- <-].
    destruct (IH a' eq_refl) as [-> ?]. split; [done|set_solver].
Qed.

Lemma split_at_None c l : split_at c l = None → c ∉ l.
Proof.
  induction l as [|x l IH]; cbn; [set_solver|]. case_bool_decide; [done|].
  destruct (split_at c l) as [[]|]; [done|]. intros _. specialize (IH eq_refl). set_solver.
Qed.

(** The first step of the loop takes the first token. *)
Lemma tokens_step c src :
  match (if bool_decide (c = "{"%char) then split_at "}"%char src else None) with
  | Some (name, rest) => tokens_from None (c :: src) = Hole name :: tokens_from None rest ∧ length rest < length src
  | None => tokens_from None (c :: src) = Lit c :: tokens_from None src
  end.
Proof.
  cbn [tokens_from]. case_bool_decide as Hc; [subst|done].
  destruct (split_at "}"%char src) as [[name rest]|] eqn:Hs.
  - apply split_at_inv in Hs as [-> Hn]. rewrite tokens_closed by done. split; [done|].
    rewrite length_app. cbn. lia.
  - apply split_at_None in Hs. rewrite tokens_open, tokens_plain by done. done.
Qed.

(** The routine throws nothing. *)
Lemma value_str_no_exn v e : value_str v ≠ Exn e.
Proof. unfold value_str. destruct v; try done. by case_bool_decide. Qed.

Lemma substitute_loop_no_exn fuel params src remaining e :
  substitute_loop fuel params src remaining ≠ Exn e.
Proof.
  revert src remaining. induction fuel as [|fuel IH]; intros [|c src] remaining; cbn [substitute_loop]; try done;
    (case_bool_decide; [done|]); [done|].
  destruct (if bool_decide (c = "{"%char) then split_at "}"%char src else None) as [[name rest]|].
  - assert (placeholder_text params name ≠ Exn e) as Hp.
    { unfold placeholder_text. case_bool_decide; [done|]. destruct (find_param name params); [apply value_str_no_exn|done]. }
    destruct (placeholder_text params name) as [t|e'|]; cbn [mbind res_bind]; [|congruence|done].
    case_bool_decide; [|apply IH]. specialize (IH rest (remaining - Z.of_nat (length t))%Z).
    destruct (substitute_loop fuel params rest _); cbn; congruence.
  - specialize (IH src (remaining - 1)%Z). destruct (substitute_loop fuel params src _); cbn; congruence.
Qed.

Lemma substitute_loop_exact fuel params src remaining texts :
  params_ok params → length src ≤ fuel → mapM (render params) (tokens_from None src) = Some texts →
  (0 ≤ remaining)%Z →
  substitute_loop fuel params src remaining = Ok (fit (Z.to_nat remaining) texts).
Proof.
  intros Hok. revert src remaining texts. induction fuel as [|fuel IH]; intros src remaining texts Hf H Hr;
    (destruct src as [|c src]; [cbn in H; by injection H as <-|]); [cbn in Hf; lia|].
  cbn [substitute_loop]. case_bool_decide as H0; [subst; by rewrite fit_zero|].
  pose proof (tokens_step c src) as Hstep. cbn [length] in Hf.
  destruct (if bool_decide (c = "{"%char) then split_at "}"%char src else None) as [[name rest]|].
  - destruct Hstep as [Hstep Hl]. rewrite Hstep in H. cbn [mapM] in H. rewrite placeholder_render by done.
    destruct (render params (Hole name)) as [t|]; [|done]. cbn [mbind option_bind res_bind] in H |- *.
    destruct (mapM (render params) (tokens_from None rest)) as [ts|] eqn:Hm; [|done]. cbn in H. injection H as <-.
    cbn [fit]. rewrite (bool_decide_ext (Z.of_nat (length t) ≤ remaining)%Z (length t ≤ Z.to_nat remaining)) by lia.
    case_bool_decide; rewrite (IH rest _ ts) by (lia || done); [|done].
    cbn [mbind res_bind]. by rewrite Z2Nat.inj_sub, Nat2Z.id by lia.
  - rewrite Hstep in H. cbn [mapM render mbind option_bind] in H.
    destruct (mapM (render params) (tokens_from None src)) as [ts|] eqn:Hm; [|done]. cbn in H. injection H as <-.
    cbn [fit length]. rewrite bool_decide_true by lia. rewrite (IH src _ ts) by (lia || done).
    cbn [mbind res_bind]. by rewrite Z2Nat.inj_sub by lia.
Qed.

(** Where every placeholder has a text the loop ends within its room. *)
Lemma substitute_loop_bound fuel params src remaining :
  length src ≤ fuel → (∀ name, Hole name ∈ tokens_from None src → ∃ t, placeholder_text params name = Ok t) →
  (0 ≤ remaining)%Z →
  ∃ out, substitute_loop fuel params src remaining = Ok out ∧ (Z.of_nat (length out) ≤ remaining)%Z.
Proof.
  revert src remaining. induction fuel as [|fuel IH]; intros src remaining Hf Hh Hr;
    (destruct src as [|c src]; [by exists []|]); [cbn in Hf; lia|].
  cbn [substitute_loop]. case_bool_decide as H0; [by exists []|].
  pose proof (tokens_step c src) as Hstep. cbn [length] in Hf.
  destruct (if bool_decide (c = "{"%char) then split_at "}"%char src else None) as [[name rest]|].
  - destruct Hstep as [Hstep Hl]. rewrite Hstep in Hh. destruct (Hh name ltac:(left)) as [t ->]. cbn [mbind res_bind].
    assert (∀ n, Hole n ∈ tokens_from None rest → ∃ t, placeholder_text params n = Ok t) as Hrest.
    { intros n Hn. apply Hh. by right. }
    case_bool_decide; [|apply IH; [lia|done|done]].
    destruct (IH rest (remaining - Z.of_nat (length t))%Z) as (out & -> & Ho); [lia|done|lia|].
    cbn [mbind res_bind]. eexists. split; [done|]. rewrite length_app. lia.
  - rewrite Hstep in Hh. destruct (IH src (remaining - 1)%Z) as (out & -> & Ho); [lia| |lia|].
    { intros n Hn. apply Hh. by right. }
    cbn [mbind res_bind]. eexists. split; [done|]. cbn [length]. lia.
Qed.

(** C36. The template routine of the VISA plugin, for C parameters: if the output
    has at least its terminating byte and every placeholder has a text (names
    shorter than 128 characters, string values shorter than 127), it writes the
    texts of the template's characters and placeholders in order, leaving out
    those for which there is no room; the result fits the output with its
    terminating zero, and is the whole expansion if that fits.  An output of size
    zero is always overrun. *)
Theorem substitute_template_exact template params size :
  params_ok params → (0 ≤ size < two64)%Z →
  substitute_template template params 0 = Undef ∧
  (∀ texts, (1 ≤ size)%Z → mapM (render params) (tokens template) = Some texts →
     ∃ out, substitute_template template params size = Ok out ∧ out = fit (Z.to_nat (size - 1)) texts ∧
       (Z.of_nat (length out) < size)%Z ∧
       ((Z.of_nat (length (concat texts)) < size)%Z → out = concat texts)).
Proof.
  intros Hok Hsize. unfold substitute_template. split.
  { destruct (substitute_loop _ _ _ _) as [out|e|] eqn:E; [|by apply substitute_loop_no_exn in E|done].
    cbn [mbind res_bind]. by rewrite bool_decide_false by lia. }
  intros texts H1 H. rewrite wrap64_id by (unfold is_u64; lia).
  rewrite (substitute_loop_exact _ _ _ _ texts) by (done || lia). cbn [mbind res_bind].
  pose proof (fit_bound (Z.to_nat (size - 1)) texts) as Hb.
  rewrite bool_decide_true by lia. eexists. split_and!; [done|done|lia|].
  intros Hall. apply fit_all. lia.
Qed.

(** *** Commands of the worker *)

Definition short_string (v : ParamValue) : Prop :=
  match v with PString s => length (until_nul (chars s)) < PLUGIN_MAX_STRING_LEN - 1 | _ => True end.

Lemma until_nul_take n l : until_nul (take n (until_nul l)) = take n (until_nul l).
Proof. apply until_nul_id. intros H%(subseteq_take n). by apply until_nul_none in H. Qed.

Lemma length_until_nul l : length (until_nul l) ≤ length l.
Proof. induction l as [|c l IH]; cbn; [lia|]. case_bool_decide; cbn; lia. Qed.

Lemma strncpy_until_nul n s : until_nul (chars (strncpy n s)) = take n (until_nul (chars s)).
Proof. unfold strncpy. rewrite chars_of_chars. apply until_nul_take. Qed.

(** Names of placeholders are shorter than the template. *)
Lemma hole_length cur l name :
  Hole name ∈ tokens_from cur l → length name < length l + match cur with Some w => S (length w) | None => 0 end.
Proof.
  revert cur. induction l as [|c l IH]; intros cur; cbn [tokens_from length].
  - destruct cur as [w|]; [|set_solver]. rewrite elem_of_cons, list_elem_of_fmap. intros [?|(? & ? & _)]; done.
  - destruct cur as [w|]; case_bool_decide as Hc.
    + rewrite elem_of_cons. intros [[= ->]|H%IH]; [rewrite length_reverse; lia|lia].
    + intros H%IH. cbn in H. lia.
    + intros H%IH. cbn in H. lia.
    + rewrite elem_of_cons. intros [?|H%IH]; [done|lia].
Qed.

Lemma find_param_worker kvs name v :
  find_param name (to_plugin_param <$> kvs) = Some v → ∃ kv, kv ∈ kvs ∧ v = to_plugin_value kv.2.
Proof.
  induction kvs as [|kv kvs IH]; cbn; [done|]. case_bool_decide.
  - intros [= <-]. exists kv. set_solver.
  - intros (kv' & ? & ?)%IH. exists kv'. set_solver.
Qed.

Lemma template_override_worker kvs s :
  template_override (to_plugin_param <$> kvs) = Some s → length (until_nul (chars s)) < PLUGIN_MAX_STRING_LEN.
Proof.
  induction kvs as [|[k v] kvs IH]; cbn; [done|]. case_bool_decide; [|done].
  destruct v; cbn; [done|done| |done|done]. intros [= <-]. rewrite strncpy_until_nul, length_take.
  unfold PLUGIN_MAX_STRING_LEN. lia.
Qed.

Lemma short_value_str v : short_string v → ∃ t, value_str (to_plugin_value v) = Ok t.
Proof.
  destruct v as [d|i|s|b|l]; intros Hs; try by eexists. cbn in Hs. unfold value_str. cbn [to_plugin_value].
  rewrite strncpy_until_nul, length_take, bool_decide_true; [by eexists|].
  unfold PLUGIN_MAX_STRING_LEN in *. lia.
Qed.

Lemma worker_template_length kvs cmd :
  length (until_nul (chars (default (pcmd_verb (to_plugin_command kvs cmd))
            (template_override (pcmd_params (to_plugin_command kvs cmd)))))) < PLUGIN_MAX_STRING_LEN.
Proof.
  cbn [to_plugin_command pcmd_verb pcmd_params].
  destruct (template_override _) as [s|] eqn:Ho; [by apply template_override_worker in Ho|].
  change (length (until_nul (chars (strncpy (PLUGIN_MAX_STRING_LEN - 1) (cmd_verb cmd)))) < PLUGIN_MAX_STRING_LEN).
  rewrite strncpy_until_nul, length_take. unfold PLUGIN_MAX_STRING_LEN. lia.
Qed.

Lemma worker_placeholders kvs cmd template name :
  Forall (λ kv, short_string kv.2) kvs → length (until_nul (chars template)) < PLUGIN_MAX_STRING_LEN →
  Hole name ∈ tokens template →
  ∃ t, placeholder_text (pcmd_params (to_plugin_command kvs cmd)) name = Ok t.
Proof.
  intros Hs Hl Ht. apply hole_length in Ht.
  unfold placeholder_text. rewrite bool_decide_false by lia. cbn [to_plugin_command pcmd_params].
  destruct (find_param name _) as [v|] eqn:Hf; [|by eexists].
  apply find_param_worker in Hf as (kv & Hkv%subseteq_take & ->). rewrite Forall_forall in Hs.
  by apply short_value_str, Hs.
Qed.

(** The first placeholder is looked at. *)
Lemma first_hole_undefined fuel params pre name rest room :
  length (pre ++ "{"%char :: name ++ "}"%char :: rest) ≤ fuel → (Z.of_nat (length pre) < room)%Z →
  ("{"%char ∉ pre) → ("}"%char ∉ name) → placeholder_text params name = Undef →
  substitute_loop fuel params (pre ++ "{"%char :: name ++ "}"%char :: rest) room = Undef.
Proof.
  revert fuel room. induction pre as [|c pre IH]; intros [|fuel] room Hf Hr Hp Hn Hu;
    cbn [length app] in *; try lia; cbn [substitute_loop]; rewrite (bool_decide_false (room = _)) by lia.
  - rewrite bool_decide_true by done. rewrite split_at_app by done. by rewrite Hu.
  - rewrite bool_decide_false by set_solver. rewrite IH by (lia || set_solver). done.
Qed.

(** C37. What the VISA plugin sends for a command of the worker is defined and
    fits its buffer as long as no string value has 127 characters or more; a
    string of 127 characters in the first placeholder of the verb is undefined
    behaviour: the routine reads a text that has no end. *)
Theorem worker_strings_limit st kvs cmd :
  (Forall (λ kv, short_string kv.2) kvs →
   ∃ out, command_str st (to_plugin_command kvs cmd) = Ok out ∧ length out ≤ PLUGIN_MAX_PAYLOAD - 1) ∧
  (∀ pre name rest s,
     template_override (pcmd_params (to_plugin_command kvs cmd)) = None →
     until_nul (chars (pcmd_verb (to_plugin_command kvs cmd))) = pre ++ "{"%char :: name ++ "}"%char :: rest →
     ("{"%char ∉ pre) → ("}"%char ∉ name) →
     find_param name (pcmd_params (to_plugin_command kvs cmd)) = Some (PARAM_TYPE_STRING s) →
     length (until_nul (chars s)) = PLUGIN_MAX_STRING_LEN - 1 →
     command_str st (to_plugin_command kvs cmd) = Undef).
Proof.
  pose proof (worker_template_length kvs cmd) as Hlen. unfold command_str, substitute_template.
  rewrite wrap64_id by (unfold is_u64, two64, PLUGIN_MAX_PAYLOAD; lia). split.
  - intros Hs. match goal with |- context [substitute_loop ?n ?ps ?src ?r] =>
      destruct (substitute_loop_bound n ps src r) as (out & -> & Ho); [done| |unfold PLUGIN_MAX_PAYLOAD; lia|] end.
    { intros name Hn. by eapply worker_placeholders. }
    cbn [mbind res_bind]. rewrite bool_decide_true by lia. eexists. split; [done|].
    rewrite length_app, length_take. unfold PLUGIN_MAX_PAYLOAD in *. lia.
  - intros pre name rest s Ho Hv Hp Hn Hf Hl. rewrite Ho in Hlen |- *. cbn [default] in *.
    change (default ?x None) with x in *. rewrite Hv in Hlen |- *.
    rewrite first_hole_undefined; [done|done| |done|done|].
    + rewrite length_app in Hlen. unfold PLUGIN_MAX_STRING_LEN, PLUGIN_MAX_PAYLOAD in *. lia.
    + unfold placeholder_text. rewrite Hf. rewrite bool_decide_false.
      * unfold value_str. rewrite bool_decide_false; [done|]. lia.
      * rewrite !length_app in Hlen. cbn in Hlen. rewrite length_app in Hlen. lia.
Qed.

End Templates.
End VisaTemplates.

(** ** Large readings *)

Module VisaReadings.
Import VisaPlugin.

Section Readings.
Context `{CN : CNumbers}.

(** Without carriage returns every separator is counted, so there is room for
    every token. *)
Lemma strtok_count cur l :
  CR ∉ l → length (strtok_from cur l) ≤ delimiter_count l + 1.
Proof.
  unfold delimiter_count. revert cur. induction l as [|c l IH]; intros cur H; cbn [strtok_from List.filter length].
  - case_bool_decide; cbn; lia.
  - unfold is_separator. rewrite (bool_decide_false (c = CR)) by set_solver. rewrite orb_false_r.
    assert (CR ∉ l) as Hl by set_solver. destruct (is_counted c).
    + specialize (IH [] Hl). rewrite length_app. case_bool_decide; cbn in *; lia.
    + apply IH. done.
Qed.

Lemma elements_all reading :
  (CR ∉ reading) → ("000"%char ∉ reading) → float_elements reading = strtof <$> strtok reading.
Proof.
  intros Hcr Hnul. unfold float_elements. rewrite until_nul_id by done. f_equal.
  apply take_ge. unfold strtok. pose proof (strtok_count [] reading Hcr). lia.
Qed.

Lemma length_floats (l : list (list ascii)) : length (concat (strtof <$> l)) = 4 * length l.
Proof. induction l as [|t l IH]; [done|]. cbn. rewrite length_app, strtof_bytes, IH. lia. Qed.

Lemma length_strtok cur l : length (strtok_from cur l) ≤ length l + 1.
Proof.
  revert cur. induction l as [|c l IH]; intros cur; cbn [strtok_from length]; [case_bool_decide; cbn; lia|].
  destruct (is_separator c).
  - specialize (IH []). rewrite length_app. case_bool_decide; cbn; lia.
  - specialize (IH (c :: cur)). lia.
Qed.

Lemma digits_no_nul l : Forall is_digit l → "000"%char ∉ l.
Proof.
  intros H Hin. rewrite Forall_forall in H. destruct (H _ Hin) as (n & Hc & Hn).
  assert (n ∈ [0; 1; 2; 3; 4; 5; 6; 7; 8; 9]%N) as H' by (rewrite !elem_of_cons; lia).
  repeat (apply elem_of_cons in H' as [->|H']; [done|]). by apply elem_of_nil in H'.
Qed.

Lemma buffer_name_no_nul ms k : (0 ≤ ms)%Z → (0 ≤ k)%Z → "000"%char ∉ chars (buffer_name ms k).
Proof.
  intros Hms Hk. unfold buffer_name. rewrite !chars_app, !elem_of_app.
  pose proof (digits_no_nul _ (dec_digits ms Hms)). pose proof (digits_no_nul _ (dec_digits k Hk)).
  intros [H1|[?|[H1|?]]]; [|done| |done]; cbn in H1;
    repeat (apply elem_of_cons in H1 as [H1|H1]; [done|]); by apply elem_of_nil in H1.
Qed.

(** C38. A large reading of numbers separated by commas, spaces or line feeds is
    kept whole: the buffer named in the response holds the value of every token,
    in order, and the response gives their number.  (A carriage return separates
    tokens too but is not counted; see the example below.) *)
Theorem large_reading_stored mem mg cmd resp reading :
  mg_inv mg → (0 ≤ buffer_ms mem)%Z → (0 ≤ next_buffer_id_ mg)%Z →
  length (chars (buffer_name (buffer_ms mem) (next_buffer_id_ mg))) < PLUGIN_MAX_STRING_LEN →
  float_array_ok mem = true → buffer_ok mem = true →
  (Z.of_nat (length reading) < two32)%Z → (CR ∉ reading) → ("000"%char ∉ reading) →
  ∃ mg' resp' o b k,
    store_large mem mg cmd resp reading = Ok (mg', resp') ∧ presp_has_large_data resp' = true ∧
    presp_data_element_count resp' = Z.of_nat (length (strtok reading)) ∧
    (get_buffer mg' (presp_data_buffer_id resp')).2 = Some o ∧ objects mg' !! o = Some (b, k) ∧
    as_type FLOAT32 b = Some (concat (strtof <$> strtok reading)).
Proof.
  intros Hinv Hms Hk Hname Hf Hb Hlen Hcr Hnul. unfold store_large. rewrite Hf, elements_all by done. cbn [negb].
  set (data := concat (strtof <$> strtok reading)). rewrite length_fmap.
  assert (wrap64 (Z.of_nat (length (strtok reading)) * data_type_size FLOAT32) = Z.of_nat (length data)) as Hsize.
  { unfold data. rewrite length_floats. pose proof (length_strtok [] reading). unfold strtok in *. cbn [data_type_size].
    rewrite wrap64_id; [lia|]. unfold is_u64, two64, two32 in *. lia. }
  unfold data_buffer_create. cbn [negb]. change (data_type_of 0) with FLOAT32. rewrite Hb.
  destruct (create_buffer _ _ _ _ _ _ _ _) as [[mg' id]|e|] eqn:Hc.
  2,3: exfalso; unfold create_buffer in Hc; cbn [negb] in Hc; rewrite Hsize in Hc;
       rewrite (bool_decide_true (Z.of_nat _ ≤ _)%Z) in Hc by lia; cbn in Hc;
       by destruct (buffers_ mg !! _).
  pose proof (create_buffer_spec _ _ _ _ _ _ _ _ _ _ Hinv Hms Hc) as
    [(_ & _ & [?|?])|(_ & _ & block & -> & [_ ->] & ->)]; [done..|].
  cbn [mbind res_bind]. rewrite bool_decide_false by (unfold buffer_name; by destruct (dec _)).
  assert (∀ n, n = 127 → strncpy n (buffer_name (buffer_ms mem) (next_buffer_id_ mg)) =
                         buffer_name (buffer_ms mem) (next_buffer_id_ mg)) as Hid.
  { intros n ->. apply strncpy_id; [unfold PLUGIN_MAX_STRING_LEN in Hname; lia|by apply buffer_name_no_nul]. }
  rewrite (Hid 127) by done.
  do 2 eexists. eexists _, _, _. split; [done|]. cbn [put_text put_large presp_has_large_data presp_data_element_count
    presp_data_buffer_id]. rewrite (Hid (PLUGIN_MAX_STRING_LEN - 1)) by done. unfold get_buffer. cbn [buffers_]. rewrite lookup_insert_eq. cbn [snd entry_buffer objects].
  rewrite lookup_insert_eq. split_and!; try done. unfold as_type. cbn [data_type_ data_].
  rewrite bool_decide_true by done. by rewrite Hsize, Nat2Z.id, take_ge.
Qed.

End Readings.
End VisaReadings.

(** ** Examples *)

Module VisaSamples.
Import VisaPlugin VisaTemplates VisaReadings.

(** Numbers printed as zero, and floats kept as the first characters of their
    text. *)
#[export] Instance plain_numbers : CNumbers.
Proof.
  refine {| fmt_f _ := "0.000000"; strtod _ := None; strtof l := take 4 (l ++ replicate 4 "0"%char) |}.
  abstract (intros l; rewrite length_take, length_app, length_replicate; lia).
Defined.

Definition scale_params : list PluginParam :=
  [mkPluginParam "ch" (PARAM_TYPE_INT64 2); mkPluginParam "range" (PARAM_TYPE_STRING "AUTO")].

Lemma scale_params_ok : params_ok scale_params.
Proof.
  apply Forall_cons; split; [cbn; unfold two63, two64; lia|].
  apply Forall_cons; split; [apply (bool_decide_unpack _); exact I|done].
Qed.

Lemma substitute_template_exact_witness :
  substitute_template "CH{ch}:RANGE {range}{x}" scale_params 4096 = Ok (chars "CH2:RANGE AUTO{x}").
Proof.
  destruct (proj2 (substitute_template_exact "CH{ch}:RANGE {range}{x}" scale_params 4096 scale_params_ok
      ltac:(unfold two64; lia))
    [["C"%char]; ["H"%char]; ["2"%char]; [":"%char]; ["R"%char]; ["A"%char]; ["N"%char]; ["G"%char]; ["E"%char];
     [" "%char]; chars "AUTO"; chars "{x}"]) as (out & -> & _ & _ & H).
  - lia.
  - vm_compute. reflexivity.
  - rewrite H; [reflexivity|cbn; lia].
Defined.

(** A script passes 130 characters: the worker cuts them to 127. *)
Definition long_text : string := of_chars (replicate 130 "a"%char).
Definition long_command : SerializedCommand := mkCommand "DMM1-1" "DMM1" "{p}" ∅ true 5000 0 None false.
Definition connected : VISAPluginState := mkState 1 2 "TCPIP::1::INSTR" 5000 (String LF EmptyString) true.

Lemma worker_strings_limit_witness :
  command_str connected (to_plugin_command [("p", PString long_text)] long_command) = Undef ∧
  ∃ out, command_str connected (to_plugin_command [("p", PString "a")] long_command) = Ok out ∧
    length out ≤ PLUGIN_MAX_PAYLOAD - 1.
Proof.
  split.
  - refine (proj2 (worker_strings_limit connected [("p", PString long_text)] long_command)
              [] ["p"%char] [] (of_chars (replicate 127 "a"%char)) eq_refl eq_refl _ _ eq_refl eq_refl);
      apply (bool_decide_unpack _); exact I.
  - apply (proj1 (worker_strings_limit connected [("p", PString "a")] long_command)).
    repeat constructor.
Defined.

Definition all_memory : Memory := mkMemory true true true 5.
Definition read_command : PluginCommand := mkPluginCommand "DMM1-1" "DMM1" "READ?" [] 0 true.

Lemma large_reading_stored_witness :
  ∃ mg' resp' o b k,
    store_large all_memory new_manager read_command zero_response (chars "1.5,2.5, 3") = Ok (mg', resp') ∧
    presp_has_large_data resp' = true ∧
    presp_data_element_count resp' = Z.of_nat (length (strtok (chars "1.5,2.5, 3"))) ∧
    (get_buffer mg' (presp_data_buffer_id resp')).2 = Some o ∧ objects mg' !! o = Some (b, k) ∧
    as_type FLOAT32 b = Some (concat (strtof <$> strtok (chars "1.5,2.5, 3"))).
Proof.
  apply (large_reading_stored all_memory new_manager read_command zero_response (chars "1.5,2.5, 3"));
    [apply new_manager_inv|done|done|vm_compute; lia|reflexivity|reflexivity|reflexivity|..];
    apply (bool_decide_unpack _); exact I.
Defined.

(** Values separated by carriage returns: the array has room for one. *)
Example carriage_returns_lose :
  length (float_elements ("1"%char :: CR :: "2"%char :: CR :: chars "3")) = 1.
Proof. reflexivity. Qed.

(** If no buffer can be made, the text sent instead is the first value only. *)
Example fallback_text :
  (r ← store_large (mkMemory true true false 5) new_manager read_command zero_response (chars "1.5,2.5,3");
   Ok (presp_text_response r.2)) = Ok "1.5".
Proof. reflexivity. Qed.

(** If the array cannot be allocated, the command succeeds without any data. *)
Example no_array_no_data :
  store_large (mkMemory true false true 5) new_manager read_command zero_response (chars "1.5,2.5,3") =
  Ok (new_manager, zero_response).
Proof. reflexivity. Qed.

End VisaSamples.

(** ** Sessions *)

(** A VISA library that also records the sessions it opens and closes. *)
Module VisaSessions.

Record recorded (W : Type) := mkRecorded { world : W; opened : list Z; closed : list Z }.
Arguments mkRecorded {W}. Arguments world {W}. Arguments opened {W}. Arguments closed {W}.

Definition note_open {W} (r : recorded W) (x : W * (Z * Z)) : recorded W * (Z * Z) :=
  (mkRecorded x.1 (if bool_decide (x.2.1 < 0)%Z then opened r else opened r ++ [x.2.2]) (closed r), x.2).

#[export] Instance recorded_lib {W} `{VL : VisaLib W} : VisaLib (recorded W).
Proof.
  refine {|
    vi_open_default_rm r := note_open r (vi_open_default_rm (world r));
    vi_open r rm a m t := note_open r (vi_open (world r) rm a m t);
    vi_set_timeout r s t := mkRecorded (vi_set_timeout (world r) s t) (opened r) (closed r);
    vi_write r s l := let x := vi_write (world r) s l in (mkRecorded x.1 (opened r) (closed r), x.2);
    vi_read r s n := let x := vi_read (world r) s n in (mkRecorded x.1 (opened r) (closed r), x.2);
    vi_close r s := mkRecorded (vi_close (world r) s) (opened r) (closed r ++ [s])
  |}.
  - abstract (intros; apply vi_read_bound).
  - abstract (intros w; apply vi_rm_session).
  - abstract (intros w rm a m t; apply vi_open_session).
Defined.

Section Sessions.
Context {W J : Type} `{VL : VisaLib W} `{CJ : CJson J}.

Definition fresh (w : W) : recorded W := mkRecorded w [] [].

(** Start, stop by the worker, and stop again when the plugin is unloaded. *)
Definition plugin_life (w : W) (config : PluginConfig) : recorded W :=
  let '(r, st, _) := VisaPlugin.plugin_initialize (fresh w) VisaPlugin.g_state_zero config in
  let '(r, st) := VisaPlugin.plugin_shutdown r st in
  (VisaPlugin.plugin_shutdown r st).1.

Definition builtin_life (w : W) (config : PluginConfig) : recorded W :=
  let '(r, st, _) := VisaBuiltin.plugin_initialize (fresh w) (VisaBuiltin.mkState 0 0 EmptyString) config in
  let '(r, st) := VisaBuiltin.plugin_shutdown r st in
  (VisaBuiltin.plugin_shutdown r st).1.

Lemma run_initialization_sessions (r : recorded W) st api :
  opened (VisaPlugin.run_initialization r st api) = opened r ∧
  closed (VisaPlugin.run_initialization r st api) = closed r.
Proof.
  unfold VisaPlugin.run_initialization. destruct (cjson_parse api) as [j|]; [|done].
  destruct (cjson_item j _) as [c|]; [|done]. destruct (cjson_array c) as [l|]; [|done].
  apply (foldl_inv (λ r', opened r' = opened r ∧ closed r' = closed r)); [|done].
  intros r' x H. by destruct (cjson_string x).
Qed.

(** Whether the library opens a resource manager and then the instrument. *)
Definition rm_status (w : W) : Z := (vi_open_default_rm w).2.1.
Definition open_status (w : W) (address : string) (timeout : Z) : Z :=
  (vi_open (vi_open_default_rm w).1 (vi_open_default_rm w).2.2 address 0 timeout).2.1.

(** Over its life the VISA plugin closes every session it opened, once, the
    instrument before the resource manager. *)
Theorem plugin_closes_once (w : W) config :
  closed (plugin_life w config) = reverse (opened (plugin_life w config)).
Proof.
  unfold plugin_life, VisaPlugin.plugin_initialize.
  destruct (cjson_parse _) as [conn|]; [|done]. case_bool_decide; [done|].
  cbn [vi_open_default_rm recorded_lib note_open world fresh].
  pose proof (vi_rm_session w) as Hrm. destruct (vi_open_default_rm w) as [w1 [s1 rm]]. cbn [fst snd] in *.
  case_bool_decide as H1; [done|]. cbn [vi_open recorded_lib note_open world].
  set (addr := strncpy _ _). set (tmo := wrap32 _).
  pose proof (vi_open_session w1 rm addr 0 tmo) as Hs. destruct (vi_open w1 rm addr 0 tmo) as [w2 [s2 i]]. cbn [fst snd] in *.
  case_bool_decide as H2; [done|]. cbn [vi_set_timeout recorded_lib].
  set (st := VisaPlugin.mkState rm i addr tmo _ true). set (r := mkRecorded _ _ _).
  destruct (run_initialization_sessions r st (pc_api_definition_json config)) as [Ho Hc].
  unfold VisaPlugin.plugin_shutdown. subst st. cbn [VisaPlugin.initialized VisaPlugin.instrument VisaPlugin.default_rm].
  rewrite (bool_decide_false (i = 0%Z)), (bool_decide_false (rm = 0%Z)) by (apply Hs || apply Hrm; lia).
  cbn [VisaPlugin.initialized fst vi_close recorded_lib opened closed]. rewrite Ho, Hc. done.
Qed.

(** When the built-in plugin cannot open the instrument, it closes the resource
    manager and keeps its session: unloading the plugin closes it again. *)
Lemma builtin_closes_twice (w : W) config a :
  VisaBuiltin.find_address (until_nul (chars (pc_connection_json config))) = Some a →
  (0 ≤ rm_status w)%Z → (open_status w (of_chars a) 0 < 0)%Z →
  ∃ rm l, opened (builtin_life w config) = [rm] ∧ closed (builtin_life w config) = rm :: l ++ [rm].
Proof.
  intros Ha H1 H2. unfold builtin_life, VisaBuiltin.plugin_initialize. rewrite Ha.
  cbn [vi_open_default_rm recorded_lib note_open world fresh].
  unfold rm_status, open_status in *. pose proof (vi_rm_session w H1) as Hrm.
  destruct (vi_open_default_rm w) as [w1 [s1 rm]]. cbn [fst snd] in *.
  rewrite !bool_decide_false by lia. cbn [vi_open recorded_lib note_open world].
  destruct (vi_open w1 rm (of_chars a) 0 0) as [w2 [s2 i]]. cbn [fst snd] in *. rewrite !bool_decide_true by lia.
  unfold VisaBuiltin.plugin_shutdown. cbn [VisaBuiltin.g_instrument VisaBuiltin.g_default_rm].
  rewrite (bool_decide_false (rm = 0%Z)) by done. exists rm.
  case_bool_decide as Hi; [subst i; exists []|exists [i]]; cbn; split; done.
Qed.

End Sessions.
End VisaSessions.
