(* ===== verification/Instrument.v ===== *)
(** * Workers with the VISA plugins

    The worker process of Worker.v with the plugins of Visa.v.  The worker hands
    every plugin the same configuration, an empty JSON object
    (src/src/workers/generic_worker_main.cpp), while both VISA plugins look for
    the address of the instrument in it: [visa_worker_never_serves].

    The second half is what the rest of the path does for a plugin that has a
    session: the pipeline of Pipeline.v with the built-in VISA plugin at its end,
    from the commands that clients pass to [execute]
    (src/src/server/InstrumentWorkerProxy.cpp) to the lines that
    [plugin_execute_command] of src/src/workers/visa_builtin.cpp writes.  The
    VISA library is any [VisaLib]; [written] keeps the writes as a history. *)

From S2P Require Import Prelude Text Json SerializedCommand Ipc SyncCoordinator ProcessManager Plugin Worker Proxy Pipeline Visa.
From Stdlib Require Import Lia.

(** ** Starting a worker *)

Section Starting.
Context `{JT : JsonText} {V J : Type} `{VL : VisaLib V} `{CJ : CJson J}.
Context (iter : gmap string ParamValue → list (string * ParamValue)).

(** The two plugins as [PluginLoader::initialize] calls them: the library and the
    plugin's globals are their state. *)
Definition builtin_initialize (d : V * VisaBuiltin.state) (config : PluginConfig)
  : Z * (V * VisaBuiltin.state) :=
  let '(w, st, rc) := VisaBuiltin.plugin_initialize d.1 d.2 config in (rc, (w, st)).

Definition c_plugin_initialize (d : V * VisaPlugin.VISAPluginState) (config : PluginConfig)
  : Z * (V * VisaPlugin.VISAPluginState) :=
  let '(w, st, rc) := VisaPlugin.plugin_initialize d.1 d.2 config in (rc, (w, st)).

Lemma builtin_refuses d name : builtin_initialize d (worker_config name) = ((-1)%Z, d).
Proof. by destruct d. Qed.

Lemma c_plugin_refuses d name : c_plugin_initialize d (worker_config name) = ((-1)%Z, d).
Proof.
  destruct d as [w st]. unfold c_plugin_initialize, VisaPlugin.plugin_initialize.
  change (pc_connection_json (worker_config name)) with "{}".
  destruct (cjson_parse "{}") as [j|] eqn:E; [|done].
  unfold VisaPlugin.get_json_string. by rewrite (cjson_empty _ _ E).
Qed.

(** C4. No VISA instrument can be started: whatever the instrument is called and
    whatever messages wait for it, a worker with either VISA plugin ends with
    exit code 1 before it connects to its queue; [run] answers nothing and calls
    no function of the VISA library.  The address the server read from the
    configuration file never reaches the plugin. *)
Theorem visa_worker_never_serves name loaded queue now inputs d e exec_d exec_e shutdown_d shutdown_e :
  run exec_d iter builtin_initialize shutdown_d name loaded queue now d inputs = (d, [], Some 1%Z) ∧
  run exec_e iter c_plugin_initialize shutdown_e name loaded queue now e inputs = (e, [], Some 1%Z).
Proof.
  split.
  - rewrite (run_refused _ _ _ _ _ _ _ _ _ (-1)%Z d); [by destruct loaded|apply builtin_refuses|done].
  - rewrite (run_refused _ _ _ _ _ _ _ _ _ (-1)%Z e); [by destruct loaded|apply c_plugin_refuses|done].
Qed.

End Starting.

(** ** Commands to an open session *)

(** A VISA library that also records what is written to which session. *)
Record written (W : Type) := mkWritten { wr_world : W; wr_lines : list (Z * list ascii) }.
Arguments mkWritten {W}. Arguments wr_world {W}. Arguments wr_lines {W}.

Definition keep {W A} (r : written W) (x : W * A) : written W * A :=
  (mkWritten x.1 (wr_lines r), x.2).

#[export] Instance written_lib {W} `{VL : VisaLib W} : VisaLib (written W).
Proof.
  refine {|
    vi_open_default_rm r := keep r (vi_open_default_rm (wr_world r));
    vi_open r rm a m t := keep r (vi_open (wr_world r) rm a m t);
    vi_set_timeout r s t := mkWritten (vi_set_timeout (wr_world r) s t) (wr_lines r);
    vi_write r s l :=
      let x := vi_write (wr_world r) s l in (mkWritten x.1 (wr_lines r ++ [(s, l)]), x.2);
    vi_read r s n := keep r (vi_read (wr_world r) s n);
    vi_close r s := mkWritten (vi_close (wr_world r) s) (wr_lines r)
  |}.
  - abstract (intros; apply vi_read_bound).
  - abstract (intros w; apply vi_rm_session).
  - abstract (intros w rm a m t; apply vi_open_session).
Defined.

Section Instrument.
Context `{JT : JsonText} `{MQ : MessageQueue Q} `{OS : Posix W}.
Context {V : Type} `{VL : VisaLib V} `{CN : CNumbers}.
Context (iter : gmap string ParamValue → list (string * ParamValue)).
Context (h : SharedQueue).
Implicit Types (cmd c : SerializedCommand).

(** The plugin as the worker calls it: its globals and the library. *)
Definition VisaDevice : Type := written V * VisaBuiltin.state.

Definition visa_plugin (d : VisaDevice) (pc : PluginCommand) (resp : PluginResponse)
  : Z * PluginResponse * VisaDevice :=
  let '(w, resp, rc) := VisaBuiltin.plugin_execute_command d.1 d.2 pc resp in (rc, resp, (w, d.2)).

(** The line for a command: the verb and a line feed; none for the no-op. *)
Definition scpi_line (st : VisaBuiltin.state) cmd : option (Z * list ascii) :=
  if bool_decide (cmd_verb cmd = "__BARRIER_NOP__") then None
  else Some (VisaBuiltin.g_instrument st,
             chars (strncpy (PLUGIN_MAX_STRING_LEN - 1) (cmd_verb cmd)) ++ [LF]).

Lemma visa_plugin_line d pc resp :
  wr_lines (visa_plugin d pc resp).2.1 =
    wr_lines d.1 ++ [(VisaBuiltin.g_instrument d.2, chars (pcmd_verb pc) ++ [LF])] ∧
  (visa_plugin d pc resp).2.2 = d.2.
Proof.
  unfold visa_plugin, VisaBuiltin.plugin_execute_command.
  cbn [vi_write written_lib]. destruct (vi_write (wr_world d.1) _ _) as [v status]. cbn [fst snd].
  case_bool_decide; [done|]. destruct (negb _); [done|]. cbn [vi_read written_lib].
  destruct (vi_read _ _ _) as [v' [status' bytes]]. cbn. by case_bool_decide.
Qed.

Lemma execute_line d c :
  wr_lines (Worker.execute visa_plugin iter d c).2.1 = wr_lines d.1 ++ option_list (scpi_line d.2 c) ∧
  (Worker.execute visa_plugin iter d c).2.2 = d.2.
Proof.
  unfold Worker.execute, scpi_line. case_bool_decide; [by rewrite app_nil_r|].
  destruct (visa_plugin_line d (to_plugin_command (iter (cmd_params c)) c) zero_response) as [H1 H2].
  destruct (visa_plugin d _ _) as [[rc r] d']. done.
Qed.

(** Serving commands writes their lines, in order. *)
Lemma serve_lines d cs :
  wr_lines (serve visa_plugin iter d cs).2.1 = wr_lines d.1 ++ omap (scpi_line d.2) cs.
Proof.
  revert d. induction cs as [|c cs IH]; intros d; cbn [serve]; [by rewrite app_nil_r|].
  destruct (execute_line d c) as [H1 H2].
  destruct (Worker.execute visa_plugin iter d c) as [r d1]. cbn [fst snd] in *.
  specialize (IH d1). destruct (serve visa_plugin iter d1 cs) as [rs d2]. cbn [fst snd] in *.
  rewrite IH, H1, H2, <-app_assoc. f_equal. cbn. by destruct (scpi_line d.2 c).
Qed.

(** A command of C++ values is read as it was written. *)
Lemma received_line st cmd c : command_ok cmd = true → received cmd c → scpi_line st c = scpi_line st cmd.
Proof.
  intros Hok (now & text & Hs & Hd). rewrite (command_received now _ _ Hok Hs) in Hd.
  injection Hd as <-. done.
Qed.

Lemma received_lines (calls : gmap nat SerializedCommand) st ord cs :
  map_Forall (λ _ cmd, command_ok cmd = true) calls →
  Forall2 (λ i c, ∃ cmd, calls !! i = Some cmd ∧ received cmd c) ord cs →
  omap (scpi_line st) cs = omap (λ i, calls !! i ≫= scpi_line st) ord.
Proof.
  intros Hok. induction 1 as [|i c ord cs (cmd & Hi & Hr) _ IH]; [done|]. cbn.
  rewrite Hi. cbn. rewrite (received_line _ _ _ (Hok _ _ Hi) Hr). by rewrite IH.
Qed.

(** The instrument hears every command that was answered, once, in the order
    the queue accepted them, if its session is open: in every reachable state with a live worker, the
    lines written to the session since the start are the verbs of the calls
    [served], each with a line feed (the no-ops of barriers left out), and
    every future that holds a success belongs to one of them. *)
Theorem instrument_hears_calls (s0 s : Sys (Q := Q) (W := W) (P := VisaDevice)) :
  y_started h s0 → rtc (ystep visa_plugin iter h) s0 s →
  (Z.of_nat (length (futures (y_px s))) + 2 < two64)%Z → y_alive s = true →
  map_Forall (λ _ cmd, command_ok cmd = true) (called (y_hist s)) →
  ∃ served, NoDup served ∧
    wr_lines (plugin_ (y_worker s)).1 =
      wr_lines (plugin_ (y_worker s0)).1 ++
      omap (λ i, called (y_hist s) !! i ≫= scpi_line (plugin_ (y_worker s0)).2) served ∧
    ∀ i resp, futures (y_px s) !! i = Some (Ready resp) → resp_success resp = true → i ∈ served.
Proof.
  intros H0 Hrun Hlen Hal Hok.
  destruct (run_linked visa_plugin iter h _ _ H0 Hrun Hlen) as (svc & Hss & Hl & Hc).
  destruct (service_runs _ _ _ _ Hss) as [Hnd (cs & Hserve & HF) Hset].
  destruct (ln_requests _ _ _ _ _ _ Hl Hal) as (_ & Hdev & _).
  exists (take (length (answers svc)) (order svc)). split_and!.
  - rewrite <-(take_drop (length (answers svc)) (order svc)) in Hnd. by apply NoDup_app in Hnd as [? _].
  - pose proof (serve_lines (plugin_ (y_worker s0)) cs) as Hlines. rewrite Hserve in Hlines. cbn [snd] in Hlines.
    rewrite <-Hdev, Hlines. f_equal. apply received_lines; [done|].
    eapply Forall2_impl; [exact HF|]. intros i c. cbn. by rewrite Hc.
  - intros i resp Hi Hs. unfold y_px in Hi. rewrite <-(ln_outcome _ _ _ _ _ _ Hl) in Hi.
    destruct (Hset _ _ Hi) as [(k & r & Hk & Hr & _)|He]; [|congruence].
    apply list_elem_of_lookup. exists k. rewrite lookup_take_lt; [done|]. by eapply lookup_lt_Some.
Qed.

End Instrument.

(** ** A concrete instrument *)

Section Samples.
#[local] Existing Instance SampleText.sample_text.
#[local] Existing Instance ListPosix.list_posix.
#[local] Existing Instance VisaSamples.plain_numbers.

(** A library whose instrument takes every line and answers with nothing. *)
#[local] Instance quiet_lib : VisaLib unit.
Proof.
  refine {| vi_open_default_rm w := (w, (0, 1)%Z); vi_open w _ _ _ _ := (w, (0, 2)%Z);
            vi_set_timeout w _ _ := w; vi_write w _ _ := (w, 0%Z);
            vi_read w _ _ := (w, (0%Z, [])); vi_close w _ := w |}; abstract (cbn; lia).
Defined.

Definition quiet_device : VisaDevice (V := unit) :=
  (mkWritten () [], VisaBuiltin.mkState 1 2 "TCPIP::1::INSTR").

(** A parser that knows the empty object. *)
#[local] Instance empty_json : CJson unit.
Proof.
  refine {| cjson_parse s := if bool_decide (s = "{}") then Some () else None; cjson_item _ _ := None;
            cjson_string _ := None; cjson_int _ := None; cjson_array _ := None |}.
  abstract done.
Defined.

Lemma visa_worker_never_serves_witness :
  run (λ d _ r, (0%Z, r, d)) map_to_list (builtin_initialize (V := unit)) (λ d, d) "DMM1" true
    (Ok sample_handle) 0 ((), VisaBuiltin.mkState 0 0 EmptyString) [(0%Z, Some heartbeat)]
  = (((), VisaBuiltin.mkState 0 0 EmptyString), [], Some 1%Z).
Proof.
  exact (proj1 (visa_worker_never_serves (J := unit) map_to_list "DMM1" true (Ok sample_handle) 0
    [(0%Z, Some heartbeat)] ((), VisaBuiltin.mkState 0 0 EmptyString) ((), VisaPlugin.g_state_zero)
    (λ d _ r, (0%Z, r, d)) (λ d _ r, (0%Z, r, d)) (λ d, d) (λ d, d))).
Defined.

Definition heard := sys_answered visa_plugin quiet_device.

Lemma instrument_hears_calls_witness :
  wr_lines (plugin_ (y_worker heard)).1 = [(2%Z, chars "SET" ++ [LF])] ∧
  ∃ served, NoDup served ∧
    wr_lines (plugin_ (y_worker heard)).1 =
      [] ++ omap (λ i, called (y_hist heard) !! i ≫= scpi_line quiet_device.2) served ∧
    ∀ i resp, futures (y_px heard) !! i = Some (Ready resp) → resp_success resp = true → i ∈ served.
Proof.
  split; [vm_compute; reflexivity|].
  apply (instrument_hears_calls map_to_list sample_handle (sys_start quiet_device) heard).
  - exact (sys_started quiet_device).
  - exact (sys_run_answered visa_plugin quiet_device).
  - vm_compute. reflexivity.
  - vm_compute. reflexivity.
  - apply (bool_decide_unpack _). vm_compute. exact I.
Defined.

End Samples.
