(* ===== verification/Registry.v ===== *)
(** * Instruments

    Model of [InstrumentRegistry] (src/src/server/InstrumentRegistry.cpp) and of
    [resolve_api_ref] (src/src/server/ApiRefResolver.cpp).  Every public method
    holds the registry's mutex for its whole body and is one function.  The
    files (YAML reader, file system) are parameters.  The coordinator and the
    process manager the proxies share are part of [Server]. *)

From S2P Require Import Prelude Json Yaml SerializedCommand Ipc SyncCoordinator ProcessManager Proxy.
From Stdlib Require Import Lia.

(** ** Paths (POSIX) *)

Definition is_absolute (p : string) : bool :=
  match chars p with c :: _ => bool_decide (c = "/"%char) | [] => false end.

Fixpoint drop_while (P : ascii → bool) (l : list ascii) : list ascii :=
  match l with [] => [] | c :: l' => if P c then drop_while P l' else l end.

(** [path::parent_path] *)
Definition parent_path (p : string) : string :=
  let r := drop_while (λ c, negb (bool_decide (c = "/"%char))) (reverse (chars p)) in
  let r := drop_while (λ c, bool_decide (c = "/"%char)) r in
  if bool_decide (r = []) && is_absolute p then "/" else of_chars (reverse r).

(** [operator/] *)
Definition path_join (a p : string) : string :=
  if is_absolute p then p
  else if empty? a then p
  else if bool_decide (last (chars a) = Some "/"%char) then a +:+ p
  else a +:+ "/" +:+ p.

Definition file_scheme : string := "file://".

Definition strip_file_scheme (s : string) : string :=
  if bool_decide (firstn 7 (chars s) = chars file_scheme) then of_chars (skipn 7 (chars s)) else s.

Section Resolver.
Context (fs_exists : string → bool) (canonical : string → res string) (current_path : string).

Definition resolve_api_ref (api_ref config_path : string) : res string :=
  if empty? api_ref then Exn "Empty api_ref"
  else
    let p := strip_file_scheme api_ref in
    if empty? p then Exn ("Invalid api_ref: '" +:+ api_ref +:+ "'")
    else if is_absolute p then
      if negb (fs_exists p) then Exn ("API definition file not found: " +:+ p) else canonical p
    else
      let cfg_parent := parent_path config_path in
      let cfg_parent := if empty? cfg_parent then current_path else cfg_parent in
      let attempt1 := path_join cfg_parent p in
      if fs_exists attempt1 then canonical attempt1
      else
        let attempt2 := path_join current_path p in
        if fs_exists attempt2 then canonical attempt2
        else Exn ("API definition file not found: " +:+ attempt1).

End Resolver.

(** ** From YAML to JSON *)

Fixpoint yaml_to_json (Y : YamlApi) (node : yaml) : res json :=
  match node with
  | YNull => Ok JNull
  | YScalar s =>
      match as_int64 Y s with
      | Some i => Ok (JInt i)
      | None =>
          match as_double Y s with
          | Some d => Ok (JFloat d)
          | None =>
              match as_bool Y s with
              | Some b => Ok (JBool b)
              | None => t ← as_string Y node; Ok (JStr t)
              end
          end
      end
  | YSeq l =>
      arr ← (fix go (l : list yaml) : res (list json) :=
               match l with
               | [] => Ok []
               | y :: l => j ← yaml_to_json Y y; js ← go l; Ok (j :: js)
               end) l;
      Ok (JArr arr)
  | YMap kvs =>
      obj ← (fix go (o : list (string * json)) (kvs : list (yaml * yaml)) : res (list (string * json)) :=
               match kvs with
               | [] => Ok o
               | (k, v) :: kvs => key ← as_string Y k; j ← yaml_to_json Y v; go (obj_set key j o) kvs
               end) [] kvs;
      Ok (JObj obj)
  end.

(** ** The registry *)

Record InstrumentMetadata := mkInstMetadata {
  im_name : string;
  im_config : json;
  im_api_def : json
}.

Record Registry (Q W : Type) := mkRegistry {
  rg_server : Server Q W;
  instruments_ : gmap string Proxy;
  metadata_ : gmap string InstrumentMetadata
}.
Arguments mkRegistry {Q W}. Arguments rg_server {Q W}. Arguments instruments_ {Q W}. Arguments metadata_ {Q W}.

Section Registry.
Context `{JT : JsonText} `{MQ : MessageQueue Q} `{OS : Posix W}.
Implicit Types (rg : Registry Q W).

Definition with_metadata rg (m : gmap string InstrumentMetadata) : Registry Q W :=
  mkRegistry (rg_server rg) (instruments_ rg) m.

(** [api_def["protocol"]["type"]] as a string. *)
Definition protocol_type_of (api_def : json) : res string :=
  v ← j_index api_def "protocol"; t ← j_index v "type"; get_string t.

(** [get_plugin_path] is [PluginRegistry::get_plugin_path]. *)
Definition create_instrument_from_json (get_plugin_path : string → string) (env : start_env Q W)
  rg (name config_json api_def_json : string) : Registry Q W * res bool :=
  if bool_decide (is_Some (instruments_ rg !! name)) then (rg, Ok false)
  else
    match (config ← parse config_json; api_def ← parse api_def_json; Ok (config, api_def)) with
    | Ok (config, api_def) =>
        let rg := with_metadata rg (<[name := mkInstMetadata name config api_def]> (metadata_ rg)) in
        match protocol_type_of api_def with
        | Ok protocol_type =>
            let plugin_path := get_plugin_path protocol_type in
            if empty? plugin_path then (with_metadata rg (delete name (metadata_ rg)), Ok false)
            else
              let '(sv, proxy, started) := Proxy.start env (rg_server rg) (new_proxy name plugin_path) in
              (* the proxy's destructor, unless it is kept *)
              let dropped := (Proxy.stop sv proxy (se_stop_start env) (se_stop_reads env)).1 in
              match started with
              | Ok true => (mkRegistry sv (<[name := proxy]> (instruments_ rg)) (metadata_ rg), Ok true)
              | Ok false => (mkRegistry dropped (instruments_ rg) (delete name (metadata_ rg)), Ok false)
              | Exn e => (mkRegistry dropped (instruments_ rg) (metadata_ rg), Exn e)
              | Undef => (mkRegistry dropped (instruments_ rg) (metadata_ rg), Undef)
              end
        | Exn e => (rg, Exn e)
        | Undef => (rg, Undef)
        end
    | Exn e => (rg, Exn e)
    | Undef => (rg, Undef)
    end.

(** [load_file]: [YAML::LoadFile]; [resolve]: [resolve_api_ref]. *)
Definition create_instrument (Y : YamlApi) (load_file : string → res yaml)
  (resolve : string → string → res string) (get_plugin_path : string → string) (env : start_env Q W)
  rg (config_path : string) : Registry Q W * res bool :=
  let args :=
    config_yaml ← load_file config_path;
    config ← yaml_to_json Y config_yaml;
    v ← j_index config "api_ref"; api_ref ← get_string v;
    resolved ← resolve api_ref config_path;
    api_yaml ← load_file resolved;
    api_def ← yaml_to_json Y api_yaml;
    n ← j_index config "name"; name ← get_string n;
    config_json ← dump config; api_def_json ← dump api_def;
    Ok (name, config_json, api_def_json) in
  match args with
  | Ok (name, config_json, api_def_json) =>
      match create_instrument_from_json get_plugin_path env rg name config_json api_def_json with
      | (rg, Exn _) => (rg, Ok false)
      | r => r
      end
  | Exn _ => (rg, Ok false)
  | Undef => (rg, Undef)
  end.

Definition get_instrument rg (name : string) : option Proxy := instruments_ rg !! name.

Definition get_instrument_metadata rg (name : string) : option InstrumentMetadata := metadata_ rg !! name.

Definition find_command_def (metadata : gmap string InstrumentMetadata) (instrument_name verb : string)
  : option json :=
  m ← metadata !! instrument_name;
  commands ← match im_api_def m with JObj o => obj_get "commands" o | _ => None end;
  match commands with JObj o => obj_get verb o | _ => None end.

(** The "outputs" array of a command definition, if it has one. *)
Definition outputs_of (cmd_def : json) : option (list json) :=
  match cmd_def with
  | JObj o => match obj_get "outputs" o with Some (JArr l) => Some l | _ => None end
  | _ => None
  end.

Definition command_expects_response rg (instrument_name verb : string) : bool :=
  match find_command_def (metadata_ rg) instrument_name verb with
  | None => false
  | Some cmd_def => match outputs_of cmd_def with Some l => negb (bool_decide (l = [])) | None => false end
  end.

(** The array under a key of an object. *)
Definition array_at (j : json) (k : string) : list json :=
  match j with JObj o => match obj_get k o with Some (JArr l) => l | _ => [] end | _ => [] end.

(** The loop over entries that have the key [k]: the "type" of the first entry
    whose [k] is [name] and that has a "type". *)
Fixpoint find_type (k name : string) (l : list json) : res (option string) :=
  match l with
  | [] => Ok None
  | e :: l =>
      match e with
      | JObj o =>
          match obj_get k o with
          | Some v =>
              s ← get_string v;
              if bool_decide (s = name) then
                match obj_get "type" o with
                | Some t => t ← get_string t; Ok (Some t)
                | None => find_type k name l
                end
              else find_type k name l
          | None => find_type k name l
          end
      | _ => find_type k name l
      end
  end.

Fixpoint find_in_groups (name : string) (groups : list json) : res (option string) :=
  match groups with
  | [] => Ok None
  | g :: groups =>
      r ← find_type "suffix" name (array_at g "io_types");
      match r with Some t => Ok (Some t) | None => find_in_groups name groups end
  end.

Definition get_response_type rg (instrument_name verb : string) : res (option string) :=
  match metadata_ rg !! instrument_name with
  | None => Ok None
  | Some m =>
      match find_command_def (metadata_ rg) instrument_name verb with
      | None => Ok None
      | Some cmd_def =>
          match outputs_of cmd_def with
          | None | Some [] => Ok None
          | Some (out :: _) =>
              output_name ← get_string out;
              r ← find_type "name" output_name (array_at (im_api_def m) "io");
              match r with
              | Some t => Ok (Some t)
              | None => find_in_groups output_name (array_at (im_api_def m) "channel_groups")
              end
          end
      end
  end.

Definition has_instrument rg (name : string) : bool := bool_decide (is_Some (instruments_ rg !! name)).

(** The clock of a proxy's [stop]. *)
Definition stop_env : Type := Z * list (Z * list Z).

Definition remove_instrument (env : stop_env) rg (name : string) : Registry Q W :=
  match instruments_ rg !! name with
  | None => rg
  | Some proxy =>
      let '(sv, _) := Proxy.stop (rg_server rg) proxy env.1 env.2 in
      mkRegistry sv (delete name (instruments_ rg)) (delete name (metadata_ rg))
  end.

Definition stop_all (env : stop_env) rg : Registry Q W :=
  mkRegistry
    (foldl (λ sv name, match instruments_ rg !! name with
                       | Some proxy => (Proxy.stop sv proxy env.1 env.2).1
                       | None => sv
                       end) (rg_server rg) (sorted_keys (instruments_ rg))) ∅ ∅.

(** One round of [start_all]; [None] when the process has ended. *)
Definition start_one (env : start_env Q W) (acc : option (Registry Q W)) (name : string) : option (Registry Q W) :=
  rg ← acc;
  match instruments_ rg !! name with
  | None => Some rg
  | Some proxy =>
      let '(sv, alive) := proxy_is_alive (rg_server rg) proxy in
      if alive then Some (mkRegistry sv (instruments_ rg) (metadata_ rg))
      else
        let '(sv, proxy, r) := Proxy.start env sv proxy in
        match r with
        | Undef => None
        | _ => Some (mkRegistry sv (<[name := proxy]> (instruments_ rg)) (metadata_ rg))
        end
  end.

Definition start_all (env : start_env Q W) rg : option (Registry Q W) :=
  foldl (start_one env) (Some rg) (sorted_keys (instruments_ rg)).

Definition list_instruments rg : list string := sorted_keys (instruments_ rg).

(** ** Invariant *)

Record reg_inv rg : Prop := {
  reg_names name p : instruments_ rg !! name = Some p → Proxy.instrument_name_ p = name;
  reg_meta name p : instruments_ rg !! name = Some p →
    ∃ m, metadata_ rg !! name = Some m ∧ im_name m = name;
  reg_queue name p : instruments_ rg !! name = Some p → is_Some (ipc_queue_ p)
}.

Lemma start_keeps env sv p :
  running_ p = false →
  let '(_, p', r) := Proxy.start env sv p in
  Proxy.instrument_name_ p' = Proxy.instrument_name_ p ∧
  match r with
  | Ok true => is_Some (ipc_queue_ p') ∧ running_ p' = true
  | Ok false => True
  | Exn _ => se_thread env = false
  | Undef => False
  end.
Proof.
  intros Hr. unfold Proxy.start. destruct (create_server_queue _ _ _) as [shm [h|e|]]; [|done..].
  destruct (spawn_worker _ _ _ _ _ _) as [[w pm] pid]. case_bool_decide; [done|].
  cbn [running_ with_pid with_queue]. rewrite Hr.
  destruct (se_thread env); cbn [negb]; [|done].
  destruct (proxy_is_alive _ _) as [sv' []]; [cbn; eauto|].
  unfold Proxy.stop. by cbn.
Qed.

(** Both texts of an instrument, parsed. *)
Definition parsed (cj aj : string) : res (json * json) :=
  config ← parse cj; api_def ← parse aj; Ok (config, api_def).

Lemma create_cases get_path env rg name cj aj :
  let '(rg', r) := create_instrument_from_json get_path env rg name cj aj in
  match r with
  | Ok true =>
      instruments_ rg !! name = None ∧
      ∃ p config api_def, Proxy.instrument_name_ p = name ∧ running_ p = true ∧ is_Some (ipc_queue_ p) ∧
        parsed cj aj = Ok (config, api_def) ∧
        instruments_ rg' = <[name := p]> (instruments_ rg) ∧
        metadata_ rg' = <[name := mkInstMetadata name config api_def]> (metadata_ rg)
  | Ok false =>
      instruments_ rg' = instruments_ rg ∧
      metadata_ rg' = (if has_instrument rg name then metadata_ rg else delete name (metadata_ rg))
  | Exn _ | Undef =>
      instruments_ rg !! name = None ∧ instruments_ rg' = instruments_ rg ∧
      match parsed cj aj with
      | Ok (config, api_def) =>
          ((∀ t, protocol_type_of api_def ≠ Ok t) ∨ se_thread env = false) ∧
          metadata_ rg' = <[name := mkInstMetadata name config api_def]> (metadata_ rg)
      | _ => metadata_ rg' = metadata_ rg
      end
  end.
Proof.
  unfold create_instrument_from_json, has_instrument. fold (parsed cj aj).
  case_bool_decide as Hin; [by auto|]. rewrite <-eq_None_not_Some in Hin.
  destruct (parsed cj aj) as [[config api_def]| |]; [|by auto..].
  destruct (protocol_type_of api_def) as [pt| |] eqn:Hpt; [|by auto..].
  case_bool_decide; cbn.
  { by rewrite delete_insert_eq. }
  pose proof (start_keeps env (rg_server rg) (new_proxy name (get_path pt)) eq_refl) as Hst.
  destruct (Proxy.start env (rg_server rg) (new_proxy name (get_path pt))) as [[sv p] [[]| |]];
    destruct Hst as [Hn Hok]; cbn; [|by rewrite delete_insert_eq|by auto|done].
  split; [done|]. destruct Hok as [Hq Hr]. by exists p, config, api_def.
Qed.

Lemma create_from_json_inv get_path env rg name cj aj :
  reg_inv rg → reg_inv (create_instrument_from_json get_path env rg name cj aj).1.
Proof.
  intros Hinv. pose proof (create_cases get_path env rg name cj aj) as H.
  assert (∀ rg', instruments_ rg' = instruments_ rg →
    (∀ n p, instruments_ rg !! n = Some p → metadata_ rg' !! n = metadata_ rg !! n) → reg_inv rg') as Hsame.
  { intros rg' Hi Hm. destruct Hinv as [H1 H2 H3]. split; rewrite ?Hi; [done| |done].
    intros n p Hp. rewrite (Hm n p Hp). eauto. }
  destruct (create_instrument_from_json get_path env rg name cj aj) as [rg' [[]|e|]]; cbn.
  - destruct H as (Hn & p & c & a & Hp & Hr & Hq & _ & Hi & Hmeta). destruct Hinv as [H1 H2 H3].
    split; rewrite Hi; intros n q; rewrite lookup_insert; case_decide; subst; intros E; simplify_eq; eauto.
    + rewrite Hmeta, lookup_insert_eq. by eauto.
    + rewrite Hmeta, lookup_insert_ne by done. by eauto.
  - destruct H as [Hi Hm]. apply Hsame; [done|]. intros n p Hp. rewrite Hm. unfold has_instrument.
    case_bool_decide as Hn; [done|]. rewrite lookup_delete_ne; [done|]. intros <-. apply Hn. by eexists.
  - destruct H as (Hn & Hi & Hm). apply Hsame; [done|]. intros n p Hp.
    destruct (parsed cj aj) as [[c a]| |]; [destruct Hm as [_ ->]|by rewrite Hm..].
    rewrite lookup_insert_ne; [done|]. intros <-. congruence.
  - destruct H as (Hn & Hi & Hm). apply Hsame; [done|]. intros n p Hp.
    destruct (parsed cj aj) as [[c a]| |]; [destruct Hm as [_ ->]|by rewrite Hm..].
    rewrite lookup_insert_ne; [done|]. intros <-. congruence.
Qed.

Lemma remove_inv env rg name : reg_inv rg → reg_inv (remove_instrument env rg name).
Proof.
  intros [H1 H2 H3]. unfold remove_instrument. destruct (instruments_ rg !! name) as [p|] eqn:Hp; [|done].
  destruct (Proxy.stop _ _ _ _) as [sv p']. split; cbn; intros n q [Hne Hq]%lookup_delete_Some; eauto.
  rewrite lookup_delete_ne by done. eauto.
Qed.

Lemma stop_all_inv env rg : reg_inv (stop_all env rg).
Proof. split; cbn; intros n p Hp; by rewrite lookup_empty in Hp. Qed.

(** ** Sequences of calls *)

Inductive reg_call :=
| Create (get_path : string → string) (env : start_env Q W) (name config_json api_def_json : string)
| Remove (env : stop_env) (name : string)
| StopAll (env : stop_env).

Definition reg_step rg (c : reg_call) : Registry Q W :=
  match c with
  | Create gp env name cj aj => (create_instrument_from_json gp env rg name cj aj).1
  | Remove env name => remove_instrument env rg name
  | StopAll env => stop_all env rg
  end.

Definition empty_registry (sv : Server Q W) : Registry Q W := mkRegistry sv ∅ ∅.

Lemma run_reg_inv sv cs : reg_inv (foldl reg_step (empty_registry sv) cs).
Proof.
  apply foldl_inv; [|by split; cbn; intros n p Hp; rewrite lookup_empty in Hp].
  intros rg [gp env name cj aj|env name|env] Hinv; cbn.
  - by apply create_from_json_inv.
  - by apply remove_inv.
  - apply stop_all_inv.
Qed.

(** ** Properties *)

(** C22. What creating an instrument leaves behind, on every path.  It
    succeeds only for a free name, and then exactly one instrument is added: it
    runs under that name, and its metadata is what the two texts parse to.  If
    it returns [false] no instrument was added, and neither map has changed
    except that a metadata entry left over under that name is gone.  If it
    throws, no instrument was added either: the maps are unchanged when one of
    the texts does not parse, but the new metadata entry stays behind when they
    do, which happens only when the definition has no protocol type or the
    listener thread cannot be started. *)
Theorem create_all_or_nothing get_path env rg name cj aj :
  let '(rg', r) := create_instrument_from_json get_path env rg name cj aj in
  match r with
  | Ok true =>
      has_instrument rg name = false ∧
      ∃ p config api_def, Proxy.instrument_name_ p = name ∧ running_ p = true ∧
        parse cj = Ok config ∧ parse aj = Ok api_def ∧
        instruments_ rg' = <[name := p]> (instruments_ rg) ∧
        metadata_ rg' = <[name := mkInstMetadata name config api_def]> (metadata_ rg)
  | Ok false =>
      instruments_ rg' = instruments_ rg ∧
      metadata_ rg' = (if has_instrument rg name then metadata_ rg else delete name (metadata_ rg))
  | Exn _ | Undef =>
      instruments_ rg' = instruments_ rg ∧
      match parse cj, parse aj with
      | Ok config, Ok api_def =>
          ((∀ t, protocol_type_of api_def ≠ Ok t) ∨ se_thread env = false) ∧
          metadata_ rg' = <[name := mkInstMetadata name config api_def]> (metadata_ rg)
      | _, _ => metadata_ rg' = metadata_ rg
      end
  end.
Proof.
  pose proof (create_cases get_path env rg name cj aj) as H. unfold parsed in H.
  destruct (create_instrument_from_json get_path env rg name cj aj) as [rg' [[]|e|]].
  - destruct H as (Hn & p & c & a & Hp & Hr & _ & Hparse & Hi & Hmeta). split.
    { unfold has_instrument. rewrite Hn. by apply bool_decide_eq_false_2, is_Some_None. }
    destruct (parse cj) as [config| |]; simplify_eq/=. destruct (parse aj) as [api_def| |]; simplify_eq/=.
    by exists p, c, a.
  - done.
  - destruct H as (_ & Hi & Hm). split; [done|]. by destruct (parse cj), (parse aj).
  - destruct H as (_ & Hi & Hm). split; [done|]. by destruct (parse cj), (parse aj).
Qed.

(** C23. The registry stays consistent: after any sequence of creations,
    removals and shutdowns, [list_instruments] names exactly the instruments
    there are, each once and in lexicographic order; the proxy found under a
    name is that instrument's, it has its queues, and its metadata is there. *)
Theorem registry_consistent sv cs name :
  let rg := foldl reg_step (empty_registry sv) cs in
  StronglySorted String.le (list_instruments rg) ∧ NoDup (list_instruments rg) ∧
  (name ∈ list_instruments rg ↔ has_instrument rg name = true) ∧
  (has_instrument rg name = true →
   ∃ p m, get_instrument rg name = Some p ∧ Proxy.instrument_name_ p = name ∧ is_Some (ipc_queue_ p) ∧
     get_instrument_metadata rg name = Some m ∧ im_name m = name).
Proof.
  cbn zeta. pose proof (run_reg_inv sv cs) as [H1 H2 H3].
  generalize dependent (foldl reg_step (empty_registry sv) cs). intros rg H1 H2 H3.
  unfold list_instruments, has_instrument, get_instrument, get_instrument_metadata.
  split_and!; [apply sorted_elements_sorted|apply NoDup_sorted_elements| |].
  - rewrite bool_decide_eq_true. apply elem_of_sorted_keys.
  - intros [p Hp]%bool_decide_eq_true. destruct (H2 _ _ Hp) as (m & Hm & Hmn). rewrite Hp.
    exists p, m. by eauto 10.
Qed.

End Registry.

(** ** A concrete creation *)

Section Samples.
#[local] Existing Instance SampleText.sample_text.
#[local] Existing Instance ListPosix.list_posix.

Definition json_text (j : json) : string := match dump j with Ok s => s | _ => EmptyString end.

Definition sample_api : json :=
  JObj (mkobj [("protocol", JObj [("type", JStr "VISA")]);
               ("commands", JObj [("MEASURE", JObj [("outputs", JArr [JStr "voltage"])])]);
               ("io", JArr [JObj (mkobj [("name", JStr "voltage"); ("type", JStr "float")])])]).

Definition sample_env : start_env ListQueue.listq ListPosix.world :=
  mkStartEnv (true, true) true 0 (λ sv, sv) 0 [].

Definition idle_server : Server ListQueue.listq ListPosix.world :=
  mkServer empty_shm ListPosix.empty new_manager init_coordinator.

Definition sample_created : Registry ListQueue.listq ListPosix.world * res bool :=
  create_instrument_from_json (λ _, "visa_plugin.so") sample_env (empty_registry idle_server) "DMM1"
    (json_text (JObj [("name", JStr "DMM1")])) (json_text sample_api).

Example sample_lookup :
  command_expects_response sample_created.1 "DMM1" "MEASURE" = true ∧
  get_response_type sample_created.1 "DMM1" "MEASURE" = Ok (Some "float").
Proof. vm_compute. done. Qed.

Lemma create_all_or_nothing_witness :
  sample_created.2 = Ok true ∧
  get_instrument_metadata sample_created.1 "DMM1" =
    Some (mkInstMetadata "DMM1" (JObj [("name", JStr "DMM1")]) sample_api).
Proof.
  assert (sample_created.2 = Ok true) as E by (vm_compute; reflexivity). split; [exact E|].
  pose proof (create_all_or_nothing (λ _, "visa_plugin.so") sample_env (empty_registry idle_server) "DMM1"
    (json_text (JObj [("name", JStr "DMM1")])) (json_text sample_api)) as H.
  change (create_instrument_from_json _ _ _ _ _ _) with sample_created in H.
  destruct sample_created as [rg' r]. cbn in E. subst r.
  destruct H as (_ & p & c & a & _ & _ & Hc & Ha & _ & Hm).
  unfold get_instrument_metadata. cbn [fst]. rewrite Hm, lookup_insert_eq.
  vm_compute in Hc. injection Hc as <-. vm_compute in Ha. injection Ha as <-. reflexivity.
Defined.

End Samples.
