(* ===== verification/RuntimeContext.v ===== *)
(** * The script context

    Model of [RuntimeContext] (src/src/server/RuntimeContext.cpp), the object Lua
    scripts use to call instruments.  What it needs of the registry and of the
    proxies is the class [Workers]; RegistryWorkers.v gives the instance for the
    real registry.  Lua values are those of a [LuaApi], the part of the sol
    library the code uses; a Lua block is a state transformer.  Waiting for a
    future is an oracle [get]: what [std::future::get] returns or throws.  The
    coordinator is a reference, [coord_ref], into the coordinators there are;
    using one that is gone is undefined.  Other threads take their turns
    ([w_others]) where the context looks an instrument up, so that an
    instrument may disappear between [list_instruments] and [get_instrument].
    The clock readings of one operation are one argument [now], except where
    identifiers are made from them. *)

From S2P Require Import Prelude Text Json SerializedCommand SyncCoordinator.
From Stdlib Require Import Lia.

(** ** Instruments as the context sees them *)

(** The coordinators a reference can stand for: the registry's, or a local
    variable of the function that made the context. *)
Inductive coord_ref := RegistryCoord | LocalCoord (k : nat).

#[export] Instance coord_ref_eq_dec : EqDecision coord_ref.
Proof. solve_decision. Defined.

(** [R] is the state of the registry and everything behind it, and of the
    coordinators; [F] are the futures.  [w_execute] is [get_instrument] followed
    by [execute] ([None]: null).  [w_coord] is the coordinator a reference stands
    for, [None] if it is gone; neither workers nor other threads end the life of
    one. *)
Class Workers (R F : Type) := {
  w_list : R → list string;
  w_expects : R → string → string → bool;
  w_execute : R → string → SerializedCommand → option (R * res F);
  w_execute_sync : R → string → SerializedCommand → option (R * res CommandResponse);
  w_continue : R → string → Z → R;
  w_others : R → R;
  w_coord : R → coord_ref → option SyncCoordinator;
  w_set_coord : R → coord_ref → SyncCoordinator → R;
  w_list_nodup r : NoDup (w_list r);
  w_found r n c : is_Some (w_execute r n c) ↔ n ∈ w_list r;
  w_execute_list r n c r' f : w_execute r n c = Some (r', f) → w_list r' = w_list r;
  w_set_coord_list r k s : w_list (w_set_coord r k s) = w_list r;
  w_set_coord_same r k s : is_Some (w_coord r k) → w_coord (w_set_coord r k s) k = Some s;
  w_execute_live r n c r' f k :
    w_execute r n c = Some (r', f) → is_Some (w_coord r k) → is_Some (w_coord r' k);
  w_continue_live r n t k : is_Some (w_coord r k) → is_Some (w_coord (w_continue r n t) k);
  w_others_live r k : is_Some (w_coord r k) → is_Some (w_coord (w_others r) k)
}.

(** ** Lua values *)

Record LuaApi := mkLuaApi {
  lua_object : Type;
  is_double : lua_object → bool;  as_double : lua_object → double;
  is_int : lua_object → bool;     as_int : lua_object → Z;
  is_string : lua_object → bool;  as_string : lua_object → string;
  is_bool : lua_object → bool;    as_bool : lua_object → bool;
  is_table : lua_object → bool;   table_pairs : lua_object → list (lua_object * lua_object)
}.

(** The chain of type tests; other values are skipped. *)
Definition lua_param (L : LuaApi) (v : lua_object L) : option ParamValue :=
  if is_double L v then Some (PDouble (as_double L v))
  else if is_int L v then Some (PInt (as_int L v))
  else if is_string L v then Some (PString (as_string L v))
  else if is_bool L v then Some (PBool (as_bool L v))
  else None.

Definition set_param (L : LuaApi) (m : gmap string ParamValue) (kv : string * lua_object L)
  : gmap string ParamValue :=
  match lua_param L kv.2 with Some p => <[kv.1 := p]> m | None => m end.

(** The parameters of a call: the entries of a single table, or the arguments
    as [arg0], [arg1], ... *)
Definition call_params (L : LuaApi) (args : list (lua_object L)) : gmap string ParamValue :=
  match args with
  | [a] => if is_table L a
           then foldl (set_param L) ∅ ((λ kv, (as_string L kv.1, kv.2)) <$> table_pairs L a)
           else foldl (set_param L) ∅ [("arg" +:+ dec 0, a)]
  | _ => foldl (set_param L) ∅ (imap (λ i a, ("arg" +:+ dec (Z.of_nat i), a)) args)
  end.

(** ** Names of functions *)

(** [InstrumentID:Channel.Verb]: the part before the dot, the instrument, the
    channel and the verb; [None] where [call] gives up. *)
Definition parse_call_name (func_name : string) : option (string * string * option Z * string) :=
  '(spec, verb) ← split_at "."%char (chars func_name);
  match split_at ":"%char spec with
  | None => Some (of_chars spec, of_chars spec, None, of_chars verb)
  | Some (id, ch) =>
      match stoi (of_chars ch) with
      | Ok c => Some (of_chars spec, of_chars id, Some c, of_chars verb)
      | _ => None
      end
  end.

(** ** Results *)

Record CallResult := mkCallResult {
  cr_command_id : string;
  cr_instrument_name : string;
  cr_verb : string;
  cr_params : gmap string ParamValue;
  cr_executed_at : Z;
  cr_return_value : option ParamValue;
  cr_return_type : string;
  cr_has_large_data : bool;
  cr_buffer_id : string;
  cr_element_count : Z;
  cr_data_type : string;
  cr_success : bool;
  cr_error_message : string
}.

Definition empty_result : CallResult :=
  mkCallResult EmptyString EmptyString EmptyString ∅ 0 None EmptyString false EmptyString 0 EmptyString
    false EmptyString.

Definition placeholder (name verb : string) (params : gmap string ParamValue) (now : Z) : CallResult :=
  mkCallResult EmptyString name verb params now None EmptyString false EmptyString 0 EmptyString false
    EmptyString.

Definition set_executed_at (now : Z) (cr : CallResult) : CallResult :=
  mkCallResult (cr_command_id cr) (cr_instrument_name cr) (cr_verb cr) (cr_params cr) now
    (cr_return_value cr) (cr_return_type cr) (cr_has_large_data cr) (cr_buffer_id cr)
    (cr_element_count cr) (cr_data_type cr) (cr_success cr) (cr_error_message cr).

Definition set_origin (name verb : string) (params : gmap string ParamValue) (cr : CallResult) : CallResult :=
  mkCallResult (cr_command_id cr) name verb params (cr_executed_at cr)
    (cr_return_value cr) (cr_return_type cr) (cr_has_large_data cr) (cr_buffer_id cr)
    (cr_element_count cr) (cr_data_type cr) (cr_success cr) (cr_error_message cr).

Definition return_type_name (v : ParamValue) : string :=
  match v with
  | PDouble _ => "float" | PInt _ => "integer" | PString _ => "string" | PBool _ => "boolean"
  | PArray _ => "array"
  end.

Definition populate_callresult_from_response (cr : CallResult) (resp : CommandResponse) : CallResult :=
  if resp_has_large_data resp then
    mkCallResult (resp_command_id resp) (cr_instrument_name cr) (cr_verb cr) (cr_params cr)
      (cr_executed_at cr) (cr_return_value cr) "buffer" true (resp_buffer_id resp)
      (resp_element_count resp) (resp_data_type resp) (resp_success resp) (resp_error_message resp)
  else
    match resp_return_value resp with
    | Some v =>
        let '(n, dt) := match v with
                        | PArray l => (Z.of_nat (length l), "float")
                        | _ => (cr_element_count cr, cr_data_type cr)
                        end in
        mkCallResult (resp_command_id resp) (cr_instrument_name cr) (cr_verb cr) (cr_params cr)
          (cr_executed_at cr) (Some v) (return_type_name v) (cr_has_large_data cr) (cr_buffer_id cr)
          n dt (resp_success resp) (resp_error_message resp)
    | None =>
        mkCallResult (resp_command_id resp) (cr_instrument_name cr) (cr_verb cr) (cr_params cr)
          (cr_executed_at cr) (cr_return_value cr) "void" (cr_has_large_data cr) (cr_buffer_id cr)
          (cr_element_count cr) (cr_data_type cr) (resp_success resp) (resp_error_message resp)
    end.

(** The "return" member of a row. *)
Definition return_json (cr : CallResult) : json :=
  if cr_has_large_data cr then
    JObj (mkobj [("type", JStr "buffer"); ("buffer_id", JStr (cr_buffer_id cr));
                 ("element_count", JInt (cr_element_count cr)); ("data_type", JStr (cr_data_type cr))])
  else
    match cr_return_value cr with
    | Some (PDouble d) => JObj (mkobj [("type", JStr "float"); ("value", JFloat d)])
    | Some (PInt i) => JObj (mkobj [("type", JStr "integer"); ("value", JInt i)])
    | Some (PString s) => JObj (mkobj [("type", JStr "string"); ("value", JStr s)])
    | Some (PBool b) => JObj (mkobj [("type", JStr "boolean"); ("value", JBool b)])
    | Some (PArray _) | None => JObj [("type", JStr "void")]
    end.

(** [executed_at_ms] of a clock in nanoseconds. *)
Definition row_json (cr : CallResult) : json :=
  JObj (mkobj ([("command_id", JStr (cr_command_id cr)); ("instrument", JStr (cr_instrument_name cr));
                ("verb", JStr (cr_verb cr));
                ("executed_at_ms", JInt (Z.quot (cr_executed_at cr) 1000000));
                ("return", return_json cr)] ++
               if cr_success cr then [] else [("error", JStr (cr_error_message cr))])).

(** ** The context *)

Record Ctx (F : Type) := mkCtx {
  in_parallel_block_ : bool;
  parallel_buffer_ : list SerializedCommand;
  next_sync_token_ : Z;
  collected_results_ : list CallResult;
  enqueue_mode_ : bool;
  token_order_ : list Z;
  token_instruments_ : gmap Z (gset string);
  token_futures_ : gmap Z (list F);
  token_result_indices_ : gmap Z (list nat);
  sync_coordinator_ : coord_ref
}.
Arguments mkCtx {F}. Arguments in_parallel_block_ {F}. Arguments parallel_buffer_ {F}.
Arguments next_sync_token_ {F}. Arguments collected_results_ {F}. Arguments enqueue_mode_ {F}.
Arguments token_order_ {F}. Arguments token_instruments_ {F}. Arguments token_futures_ {F}.
Arguments token_result_indices_ {F}. Arguments sync_coordinator_ {F}.

Definition new_context {F} (coord : coord_ref) (enqueue_mode : bool) : Ctx F :=
  mkCtx false [] 1 [] enqueue_mode [] ∅ ∅ ∅ coord.

Section Context.
Context `{WK : Workers R F}.
Implicit Types (c : Ctx F) (r : R).

Definition with_parallel c (b : bool) (buf : list SerializedCommand) : Ctx F :=
  mkCtx b buf (next_sync_token_ c) (collected_results_ c) (enqueue_mode_ c) (token_order_ c)
    (token_instruments_ c) (token_futures_ c) (token_result_indices_ c) (sync_coordinator_ c).
Definition with_results c (rs : list CallResult) : Ctx F :=
  mkCtx (in_parallel_block_ c) (parallel_buffer_ c) (next_sync_token_ c) rs (enqueue_mode_ c) (token_order_ c)
    (token_instruments_ c) (token_futures_ c) (token_result_indices_ c) (sync_coordinator_ c).
Definition push_future c (token : Z) (f : F) : Ctx F :=
  mkCtx (in_parallel_block_ c) (parallel_buffer_ c) (next_sync_token_ c) (collected_results_ c)
    (enqueue_mode_ c) (token_order_ c) (token_instruments_ c)
    (<[token := default [] (token_futures_ c !! token) ++ [f]]> (token_futures_ c))
    (token_result_indices_ c) (sync_coordinator_ c).

(** A placeholder row and its index under the token. *)
Definition push_row c (token : Z) (cr : CallResult) : Ctx F :=
  mkCtx (in_parallel_block_ c) (parallel_buffer_ c) (next_sync_token_ c) (collected_results_ c ++ [cr])
    (enqueue_mode_ c) (token_order_ c) (token_instruments_ c) (token_futures_ c)
    (<[token := default [] (token_result_indices_ c !! token) ++ [length (collected_results_ c)]]>
       (token_result_indices_ c)) (sync_coordinator_ c).

(** A call of a method of the coordinator. *)
Definition on_coordinator c r (f : SyncCoordinator → SyncCoordinator) : res R :=
  match w_coord r (sync_coordinator_ c) with
  | Some s => Ok (w_set_coord r (sync_coordinator_ c) (f s))
  | None => Undef
  end.

(** A token for all the instruments: barrier, order and participants. *)
Definition open_token (now : Z) c r (instruments : list string) : res (Ctx F * R * Z) :=
  let token := next_sync_token_ c in
  r ← on_coordinator c r (λ s, register_barrier now s token instruments);
  Ok (mkCtx (in_parallel_block_ c) (parallel_buffer_ c) (wrap64 (token + 1)) (collected_results_ c)
        (enqueue_mode_ c) (token_order_ c ++ [token])
        (match instruments with
         | [] => token_instruments_ c
         | _ => <[token := default ∅ (token_instruments_ c !! token) ∪ list_to_set instruments]> (token_instruments_ c)
         end)
        (token_futures_ c) (token_result_indices_ c) (sync_coordinator_ c), r, token).

(** [SYNC_CONTINUE] to each instrument that is still there. *)
Definition continue_all r (token : Z) (instruments : list string) : R :=
  foldl (λ r n, w_continue (w_others r) n token) r instruments.

Definition make_command (name verb : string) (params : gmap string ParamValue) (expects : bool) (now : Z)
  : SerializedCommand := mkCommand EmptyString name verb params expects 5000 now None false.

Definition tag (token : Z) (barrier : bool) (cmd : SerializedCommand) : SerializedCommand :=
  mkCommand (cmd_id cmd) (cmd_instrument_name cmd) (cmd_verb cmd) (cmd_params cmd)
    (cmd_expects_response cmd) (cmd_timeout cmd) (cmd_created_at cmd) (Some token) barrier.

Definition with_id (id : string) (cmd : SerializedCommand) : SerializedCommand :=
  mkCommand id (cmd_instrument_name cmd) (cmd_verb cmd) (cmd_params cmd)
    (cmd_expects_response cmd) (cmd_timeout cmd) (cmd_created_at cmd) (cmd_sync_token cmd)
    (cmd_is_sync_barrier cmd).

Definition send_command (now : Z) r (instrument_id verb : string) (params : gmap string ParamValue)
  (expects : bool) : R * res CommandResponse :=
  let cmd := with_id (instrument_id +:+ "-" +:+ dec now)
               (make_command instrument_id verb params expects now) in
  let r := w_others r in
  match w_execute_sync r instrument_id cmd with
  | None => (r, Ok (mkResponse EmptyString EmptyString false 0 ("Instrument not found: " +:+ instrument_id)
                      EmptyString None false EmptyString 0 EmptyString))
  | Some (r, resp) => (r, resp)
  end.

(** What the script gets back: [None] is nil. *)
Definition lua_return (resp : CommandResponse) : option ParamValue :=
  if negb (resp_success resp) then None
  else if resp_has_large_data resp then None
  else match resp_return_value resp with
       | Some (PArray _) => None
       | v => v
       end.

Definition call (L : LuaApi) (now : Z) c r (func_name : string) (args : list (lua_object L))
  : Ctx F * R * res (option ParamValue) :=
  match parse_call_name func_name with
  | None => (c, r, Ok None)
  | Some (spec, instrument_id, channel, verb) =>
      let params := call_params L args in
      let params := match channel with Some ch => <["channel" := PInt ch]> params | None => params end in
      let expects := w_expects r instrument_id verb in
      if in_parallel_block_ c then
        (with_parallel c true (parallel_buffer_ c ++ [make_command instrument_id verb params expects now]),
         r, Ok None)
      else if enqueue_mode_ c then
        let r := w_others r in
        if bool_decide (instrument_id ∈ w_list r) then
          match open_token now c r (w_list r) with
          | Ok (c, r, token) =>
              let cmd := tag token true (make_command instrument_id verb params expects now) in
              let c := push_row c token (placeholder spec verb params now) in
              match w_execute r instrument_id cmd with
              | Some (r, Ok f) => (push_future c token f, r, Ok None)
              | Some (r, Exn e) => (c, r, Exn e)
              | Some (r, Undef) => (c, r, Undef)
              | None => (c, r, Undef)
              end
          | Exn e => (c, r, Exn e)
          | Undef => (c, r, Undef)
          end
        else (c, r, Ok None)
      else
        match send_command now r instrument_id verb params expects with
        | (r, Ok resp) =>
            let cr := set_executed_at now (set_origin spec verb params
                        (populate_callresult_from_response empty_result resp)) in
            (with_results c (collected_results_ c ++ [cr]), r, Ok (lua_return resp))
        | (r, Exn e) => (c, r, Exn e)
        | (r, Undef) => (c, r, Undef)
        end
  end.

(** ** Parallel blocks *)

Definition nop_command (token : Z) (inst : string) (now : Z) : SerializedCommand :=
  mkCommand EmptyString inst "__BARRIER_NOP__" ∅ true 5000 now (Some token) true.

(** The name shown for a buffered command. *)
Definition display_name (cmd : SerializedCommand) : string :=
  match cmd_params cmd !! "channel" with
  | Some (PInt ch) => cmd_instrument_name cmd +:+ ":" +:+ dec ch
  | _ => cmd_instrument_name cmd
  end.

(** One command of a token: its row, then the worker, if there is one. *)
Definition dispatch (now : Z) (token : Z) (shown : string) (st : Ctx F * R) (cmd : SerializedCommand)
  : Ctx F * R * res unit :=
  let c := push_row st.1 token (placeholder shown (cmd_verb cmd) (cmd_params cmd) now) in
  let r := w_others st.2 in
  match w_execute r (cmd_instrument_name cmd) cmd with
  | Some (r, Ok f) => (push_future c token f, r, Ok ())
  | Some (r, Exn e) => (c, r, Exn e)
  | Some (r, Undef) => (c, r, Undef)
  | None => (c, r, Ok ())
  end.

(** The commands of one instrument in order, the last marked as barrier. *)
Fixpoint dispatch_own (now token : Z) (st : Ctx F * R) (cmds : list SerializedCommand) : Ctx F * R * res unit :=
  match cmds with
  | [] => (st, Ok ())
  | cmd :: cmds =>
      let cmd := tag token (bool_decide (cmds = [])) cmd in
      match dispatch now token (display_name cmd) st cmd with
      | (st, Ok _) => dispatch_own now token st cmds
      | r => r
      end
  end.

Fixpoint dispatch_all (now token : Z) (buffer : list SerializedCommand) (st : Ctx F * R) (insts : list string)
  : Ctx F * R * res unit :=
  match insts with
  | [] => (st, Ok ())
  | inst :: insts =>
      match (match filter (λ cmd, cmd_instrument_name cmd = inst) buffer with
             | [] => dispatch now token inst st (nop_command token inst now)
             | own => dispatch_own now token st own
             end) with
      | (st, Ok _) => dispatch_all now token buffer st insts
      | r => r
      end
  end.

(** First occurrences. *)
Fixpoint unique_names (seen : gset string) (l : list string) : list string :=
  match l with
  | [] => []
  | n :: l => if bool_decide (n ∈ seen) then unique_names seen l else n :: unique_names ({[n]} ∪ seen) l
  end.

(** The loop that sends the buffered commands; unknown instruments are skipped.
    [clock i] is the time read for the [i]-th command. *)
Fixpoint send_buffer (clock : nat → Z) (i : nat) (token : Z) r (buffer : list SerializedCommand) : R * res (list F) :=
  match buffer with
  | [] => (r, Ok [])
  | cmd :: buffer =>
      let cmd := with_id (cmd_instrument_name cmd +:+ "-" +:+ dec (clock i))
                   (tag token (cmd_is_sync_barrier cmd) cmd) in
      let r := w_others r in
      match w_execute r (cmd_instrument_name cmd) cmd with
      | None => send_buffer clock (S i) token r buffer
      | Some (r, Ok f) => let '(r, fs) := send_buffer clock (S i) token r buffer in (r, fs ← fs; Ok (f :: fs))
      | Some (r, Exn e) => (r, Exn e)
      | Some (r, Undef) => (r, Undef)
      end
  end.

(** The loop that waits: a row per answer, none for a future that throws. *)
Fixpoint gather (get : F → res CommandResponse) (now : Z) (fs : list F) : res (list CallResult) :=
  match fs with
  | [] => Ok []
  | f :: fs =>
      match get f with
      | Ok resp =>
          rows ← gather get now fs;
          Ok (set_executed_at now (populate_callresult_from_response empty_result resp) :: rows)
      | Exn _ => gather get now fs
      | Undef => Undef
      end
  end.

(** Without enqueueing: send, wait for each future, release everybody.  The rows
    carry no instrument and verb. *)
Definition execute_parallel_buffer (get : F → res CommandResponse) (now : Z) (clock : nat → Z) c r : Ctx F * R * res unit :=
  match parallel_buffer_ c with
  | [] => (c, r, Ok ())
  | buffer =>
      let token := next_sync_token_ c in
      let instruments := unique_names ∅ (cmd_instrument_name <$> buffer) in
      let c := mkCtx (in_parallel_block_ c) (parallel_buffer_ c) (wrap64 (token + 1)) (collected_results_ c)
                 (enqueue_mode_ c) (token_order_ c) (token_instruments_ c) (token_futures_ c)
                 (token_result_indices_ c) (sync_coordinator_ c) in
      match on_coordinator c r (λ s, register_barrier now s token instruments) with
      | Ok r =>
          match send_buffer clock 0 token r buffer with
          | (r, Ok fs) =>
              match gather get now fs with
              | Ok rows =>
                  let r := continue_all r token instruments in
                  let c := with_results c (collected_results_ c ++ rows) in
                  match on_coordinator c r (λ s, clear_barrier s token) with
                  | Ok r => (c, r, Ok ())
                  | Exn e => (c, r, Exn e)
                  | Undef => (c, r, Undef)
                  end
              | Exn e => (c, r, Exn e)
              | Undef => (c, r, Undef)
              end
          | (r, Exn e) => (c, r, Exn e)
          | (r, Undef) => (c, r, Undef)
          end
      | Exn e => (c, r, Exn e)
      | Undef => (c, r, Undef)
      end
  end.

(** [block] is the Lua function: it may call the context and may raise. *)
Definition parallel (get : F → res CommandResponse) (now : Z) (clock : nat → Z)
  (block : Ctx F → R → Ctx F * R * res unit) c r : Ctx F * R * res unit :=
  if in_parallel_block_ c then (c, r, Ok ())
  else
    match block (with_parallel c true []) r with
    | (c, r, Exn e) => (with_parallel c false [], r, Exn e)
    | (c, r, Undef) => (c, r, Undef)
    | (c, r, Ok _) =>
        let c := with_parallel c false (parallel_buffer_ c) in
        match parallel_buffer_ c with
        | [] => (c, r, Ok ())
        | buffer =>
            if enqueue_mode_ c then
              let insts := w_list r in
              match open_token now c r insts with
              | Ok (c, r, token) => dispatch_all now token buffer (c, r) insts
              | Exn e => (c, r, Exn e)
              | Undef => (c, r, Undef)
              end
            else execute_parallel_buffer get now clock c r
        end
    end.

(** ** Waiting *)

(** Answer [i] of a token goes to the row at index [i] of the token, or to a new
    row. *)
Definition store_answer (now : Z) (inds : option (list nat)) (rows : list CallResult) (i : nat)
  (resp : CommandResponse) : res (list CallResult) :=
  let '(rows, idx) := match inds ≫= (.!! i) with
                      | Some k => (rows, k)
                      | None => (rows ++ [empty_result], length rows)
                      end in
  match rows !! idx with
  | Some cr => Ok (<[idx := set_executed_at now (populate_callresult_from_response cr resp)]> rows)
  | None => Undef
  end.

Fixpoint store_answers (get : F → res CommandResponse) (now : Z) (inds : option (list nat))
  (rows : list CallResult) (i : nat) (futs : list F) : res (list CallResult) :=
  match futs with
  | [] => Ok rows
  | f :: futs =>
      rows ← match get f with
             | Ok resp => store_answer now inds rows i resp
             | Exn _ => Ok rows
             | Undef => Undef
             end;
      store_answers get now inds rows (S i) futs
  end.

Definition process_token (get : F → res CommandResponse) (now : Z) (st : Ctx F * R) (token : Z)
  : res (Ctx F * R) :=
  let '(c, r) := st in
  rows ← match token_futures_ c !! token with
         | Some futs => store_answers get now (token_result_indices_ c !! token) (collected_results_ c) 0 futs
         | None => Ok (collected_results_ c)
         end;
  let r := continue_all r token (sorted_elements (default ∅ (token_instruments_ c !! token))) in
  r ← on_coordinator c r (λ s, clear_barrier s token);
  Ok (with_results c rows, r).

Definition process_tokens_and_wait (get : F → res CommandResponse) (now : Z) c r : res (Ctx F * R) :=
  st ← res_foldl (process_token get now) (c, r) (token_order_ c);
  let '(c, r) := st in
  Ok (mkCtx (in_parallel_block_ c) (parallel_buffer_ c) (next_sync_token_ c) (collected_results_ c)
        (enqueue_mode_ c) [] ∅ ∅ ∅ (sync_coordinator_ c), r).

Definition collect_results_json c : json := JArr (row_json <$> collected_results_ c).

End Context.

(** ** Names *)

(** The addressing syntax of scripts is read back as written: for an
    instrument name without dots and colons, "name.verb" is that instrument and
    verb, and "name:channel.verb" also gives the channel, for every
    non-negative [int] and every verb, dots in it included. *)
Theorem call_name_roundtrip inst verb ch :
  ("."%char ∉ chars inst) → (":"%char ∉ chars inst) → (0 ≤ ch)%Z → is_i32 ch →
  parse_call_name (inst +:+ "." +:+ verb) = Some (inst, inst, None, verb) ∧
  parse_call_name (inst +:+ ":" +:+ dec ch +:+ "." +:+ verb) =
    Some (inst +:+ ":" +:+ dec ch, inst, Some ch, verb).
Proof.
  intros Hdot Hcolon Hch Hi. unfold parse_call_name. rewrite !chars_app. cbn [chars].
  change (chars ".") with ["."%char]. change (chars ":") with [":"%char]. cbn [app].
  assert (∀ c, c = "."%char ∨ c = ":"%char → c ∉ chars (dec ch)) as Hdec.
  { intros c Hc Hin. pose proof (dec_digits ch Hch) as Hd. rewrite Forall_forall in Hd.
    apply Hd, digit_not_sep in Hin. naive_solver. }
  rewrite split_at_app by done. cbn. rewrite split_at_none by done. rewrite !of_chars_chars. split; [done|].
  replace (chars inst ++ ":"%char :: chars (dec ch) ++ "."%char :: chars verb)
    with ((chars inst ++ ":"%char :: chars (dec ch)) ++ "."%char :: chars verb) by by rewrite <-app_assoc.
  rewrite split_at_app.
  2: { rewrite not_elem_of_app, not_elem_of_cons. split_and!; [done|done|by apply Hdec; left]. }
  cbn. rewrite split_at_app by done. rewrite !of_chars_chars, stoi_dec by done.
  do 4 f_equal. apply chars_inj. by rewrite chars_of_chars, !chars_app.
Qed.

(** ** What a parallel block sends *)

Fixpoint tag_own (token : Z) (cmds : list SerializedCommand) : list SerializedCommand :=
  match cmds with
  | [] => []
  | cmd :: cmds => tag token (bool_decide (cmds = [])) cmd :: tag_own token cmds
  end.

(** The commands of one instrument: its own, or the no-op. *)
Definition share (now token : Z) (buffer : list SerializedCommand) (inst : string) : list SerializedCommand :=
  match filter (λ cmd, cmd_instrument_name cmd = inst) buffer with
  | [] => [nop_command token inst now]
  | own => tag_own token own
  end.

Definition plan (now token : Z) (buffer : list SerializedCommand) (insts : list string) : list SerializedCommand :=
  concat (share now token buffer <$> insts).

Lemma tag_own_names token cmds inst :
  Forall (λ cmd, cmd_instrument_name cmd = inst) cmds →
  Forall (λ cmd, cmd_instrument_name cmd = inst) (tag_own token cmds).
Proof. induction 1 as [|cmd cmds H _ IH]; cbn; by constructor. Qed.

Lemma share_names now token buffer inst :
  Forall (λ cmd, cmd_instrument_name cmd = inst) (share now token buffer inst).
Proof.
  unfold share. destruct (filter _ buffer) as [|x own] eqn:E; [by repeat constructor|].
  apply tag_own_names. rewrite <-E. apply Forall_forall. by intros y [? _]%list_elem_of_filter.
Qed.

Lemma filter_all {A} (P : A → Prop) `{∀ x, Decision (P x)} l : Forall P l → filter P l = l.
Proof. induction 1 as [|x l Hx _ IH]; [done|]. by rewrite filter_cons_True, IH. Qed.

Lemma tag_own_barriers token cmds :
  cmds ≠ [] → length (filter (λ cmd, cmd_is_sync_barrier cmd = true) (tag_own token cmds)) = 1.
Proof.
  induction cmds as [|cmd cmds IH]; [done|]. intros _. cbn [tag_own].
  destruct cmds as [|cmd' cmds]; [done|]. rewrite filter_cons_False; [by apply IH|done].
Qed.

Lemma share_barriers now token buffer inst :
  length (filter (λ cmd, cmd_is_sync_barrier cmd = true) (share now token buffer inst)) = 1.
Proof. unfold share. destruct (filter _ buffer) eqn:E; [done|]. by apply tag_own_barriers. Qed.

Lemma plan_share now token buffer insts inst :
  NoDup insts → inst ∈ insts →
  filter (λ cmd, cmd_instrument_name cmd = inst) (plan now token buffer insts) = share now token buffer inst.
Proof.
  assert (∀ l, inst ∉ l →
    filter (λ cmd, cmd_instrument_name cmd = inst) (plan now token buffer l) = []) as Hout.
  { intros l Hl. apply filter_none, Forall_concat, Forall_fmap, Forall_forall. intros n Hn.
    eapply Forall_impl; [apply share_names|]. cbn. intros cmd ->. by intros ->. }
  induction 1 as [|n l Hn Hl IH]; intros Hin; [by apply elem_of_nil in Hin|].
  unfold plan in *. cbn. rewrite filter_app. apply elem_of_cons in Hin as [->|Hin].
  - rewrite (Hout l Hn), app_nil_r. apply filter_all, share_names.
  - rewrite IH by done. rewrite filter_none; [done|]. eapply Forall_impl; [apply share_names|].
    cbn. intros cmd -> ->. done.
Qed.

Section Dispatch.
Context `{WK : Workers R F}.
Implicit Types (c : Ctx F) (r : R).

(** Executing commands one after the other; [None] for a command whose
    instrument is gone when its turn comes. *)
Fixpoint exec_all r (cmds : list SerializedCommand) : R * res (list (option F)) :=
  match cmds with
  | [] => (r, Ok [])
  | cmd :: cmds =>
      let r := w_others r in
      match w_execute r (cmd_instrument_name cmd) cmd with
      | Some (r, Ok f) => let '(r, fs) := exec_all r cmds in (r, fs ← fs; Ok (Some f :: fs))
      | Some (r, Exn e) => (r, Exn e)
      | Some (r, Undef) => (r, Undef)
      | None => let '(r, fs) := exec_all r cmds in (r, fs ← fs; Ok (None :: fs))
      end
  end.

Fixpoint dispatch_list (now token : Z) (st : Ctx F * R) (cmds : list SerializedCommand) : Ctx F * R * res unit :=
  match cmds with
  | [] => (st, Ok ())
  | cmd :: cmds =>
      match dispatch now token (display_name cmd) st cmd with
      | (st, Ok _) => dispatch_list now token st cmds
      | r => r
      end
  end.

Lemma dispatch_own_list now token st cmds :
  dispatch_own now token st cmds = dispatch_list now token st (tag_own token cmds).
Proof.
  revert st. induction cmds as [|cmd cmds IH]; intros st; cbn; [done|].
  destruct (dispatch _ _ _ _ _) as [st' [[]| |]]; [apply IH|done..].
Qed.

Lemma dispatch_list_app now token st l1 l2 :
  dispatch_list now token st (l1 ++ l2) =
  match dispatch_list now token st l1 with
  | (st, Ok _) => dispatch_list now token st l2
  | r => r
  end.
Proof.
  revert st. induction l1 as [|cmd l1 IH]; intros st; cbn; [done|].
  destruct (dispatch _ _ _ _ _) as [st' [[]| |]]; [apply IH|done..].
Qed.

Lemma dispatch_all_plan now token buffer st insts :
  dispatch_all now token buffer st insts = dispatch_list now token st (plan now token buffer insts).
Proof.
  revert st. induction insts as [|inst insts IH]; intros st; cbn [dispatch_all]; [done|].
  unfold plan. cbn. rewrite dispatch_list_app. unfold share at 1.
  destruct (filter (λ cmd, cmd_instrument_name cmd = inst) buffer) as [|x own].
  - cbn. change (display_name (nop_command token inst now)) with inst.
    destruct (dispatch now token inst st (nop_command token inst now)) as [st' [[]| |]]; [|done..].
    apply IH.
  - rewrite <-dispatch_own_list. cbn [dispatch_own].
    destruct (dispatch _ _ _ _ _) as [st1 [[]| |]]; [|done..].
    destruct (dispatch_own _ _ _ _) as [st2 [[]| |]]; [apply IH|done..].
Qed.

Definition row_of (now : Z) (cmd : SerializedCommand) : CallResult :=
  placeholder (display_name cmd) (cmd_verb cmd) (cmd_params cmd) now.

(** Everything but the rows, futures and indices of the token. *)
Definition same_frame c c' : Prop :=
  token_order_ c' = token_order_ c ∧ token_instruments_ c' = token_instruments_ c ∧
  sync_coordinator_ c' = sync_coordinator_ c ∧ enqueue_mode_ c' = enqueue_mode_ c.

Lemma dispatch_list_spec now token cmds c r c' r' :
  dispatch_list now token (c, r) cmds = (c', r', Ok ()) →
  ∃ fs, exec_all r cmds = (r', Ok fs) ∧ length fs = length cmds ∧ same_frame c c' ∧
    collected_results_ c' = collected_results_ c ++ (row_of now <$> cmds) ∧
    default [] (token_futures_ c' !! token) = default [] (token_futures_ c !! token) ++ omap id fs ∧
    default [] (token_result_indices_ c' !! token) =
      default [] (token_result_indices_ c !! token) ++ seq (length (collected_results_ c)) (length cmds).
Proof.
  revert c r. induction cmds as [|cmd cmds IH]; intros c r H; cbn [dispatch_list] in H.
  { injection H as <- <-. exists []. cbn. rewrite !app_nil_r. done. }
  cbn [exec_all]. cbn zeta. unfold dispatch in H. cbn [fst snd] in H.
  destruct (w_execute (w_others r) (cmd_instrument_name cmd) cmd) as [[r1 rf]|] eqn:Hex.
  - destruct rf as [f| |]; [|done..].
    destruct (IH _ r1 H) as (fs & Hfs & Hlen & Hframe & Hrows & Hfut & Hidx).
    rewrite Hfs. exists (Some f :: fs). cbn. split_and!; [done|by rewrite Hlen|..].
    + destruct Hframe as (? & ? & ? & ?). done.
    + rewrite Hrows. cbn. by rewrite <-app_assoc.
    + rewrite Hfut. cbn. rewrite lookup_insert_eq. cbn. by rewrite <-app_assoc.
    + rewrite Hidx. cbn. rewrite lookup_insert_eq. cbn. rewrite length_app, <-app_assoc. cbn.
      by rewrite Nat.add_comm.
  - destruct (IH _ (w_others r) H) as (fs & Hfs & Hlen & Hframe & Hrows & Hfut & Hidx).
    rewrite Hfs. exists (None :: fs). cbn. split_and!; [done|by rewrite Hlen|..].
    + destruct Hframe as (? & ? & ? & ?). done.
    + rewrite Hrows. cbn. by rewrite <-app_assoc.
    + by rewrite Hfut.
    + rewrite Hidx. cbn. rewrite lookup_insert_eq. cbn. rewrite length_app, <-app_assoc. cbn.
      by rewrite Nat.add_comm.
Qed.

(** While no other thread interferes, no instrument disappears. *)
Lemma exec_all_present cmds r r' fs :
  (∀ r, w_others r = r) → Forall (λ cmd, cmd_instrument_name cmd ∈ w_list r) cmds →
  exec_all r cmds = (r', Ok fs) → Forall is_Some fs.
Proof.
  intros Hno. revert r r' fs. induction cmds as [|cmd cmds IH]; intros r r' fs Hin H; cbn in H.
  { injection H as _ <-. constructor. }
  apply Forall_cons in Hin as [Hcmd Hin]. rewrite Hno in H.
  destruct (proj2 (w_found r (cmd_instrument_name cmd) cmd) Hcmd) as [[r1 rf] Hex]. rewrite Hex in H.
  destruct rf as [f| |]; [|done..]. destruct (exec_all r1 cmds) as [r2 [fs2| |]] eqn:E; [|done..].
  injection H as _ <-. constructor; [by eexists|]. apply (IH r1 r2 fs2); [|done].
  by rewrite (w_execute_list _ _ _ _ _ Hex).
Qed.

Lemma exec_all_live cmds r r' fs k :
  exec_all r cmds = (r', fs) → is_Some (w_coord r k) → is_Some (w_coord r' k).
Proof.
  revert r r' fs. induction cmds as [|cmd cmds IH]; intros r r' fs H Hl; cbn in H; [by simplify_eq|].
  pose proof (w_others_live r k Hl) as Hl'.
  destruct (w_execute (w_others r) (cmd_instrument_name cmd) cmd) as [[r1 [f| |]]|] eqn:Hex;
    [|simplify_eq; by eapply w_execute_live..|];
    (destruct (exec_all _ cmds) as [r2 fs2] eqn:E; injection H as <- _; eapply IH; [exact E|]);
    [by eapply w_execute_live|done].
Qed.

Lemma continue_all_live r token l k : is_Some (w_coord r k) → is_Some (w_coord (continue_all r token l) k).
Proof.
  unfold continue_all. revert r. induction l as [|n l IH]; intros r Hl; cbn; [done|].
  by apply IH, w_continue_live, w_others_live.
Qed.

(** The row of a command once its future has answered. *)
Definition answered (get : F → res CommandResponse) (now : Z) (cr : CallResult) (f : F) : CallResult :=
  match get f with
  | Ok resp => set_executed_at now (populate_callresult_from_response cr resp)
  | _ => cr
  end.

(** Answers fill the rows of a token from the first on. *)
Definition fill (get : F → res CommandResponse) (now : Z) (rows : list CallResult) (fs : list F)
  : list CallResult :=
  zip_with (answered get now) rows fs ++ drop (length fs) rows.

Lemma store_answers_spec get now old done todo futs :
  (∀ f, get f ≠ Undef) → length futs ≤ length todo →
  store_answers get now (Some (seq (length old) (length done + length todo))) (old ++ done ++ todo)
    (length done) futs =
  Ok (old ++ done ++ fill get now todo futs).
Proof.
  intros Hget. revert done todo. induction futs as [|f futs IH]; intros done todo Hlen.
  { unfold fill. cbn. rewrite drop_0. by destruct todo. }
  destruct todo as [|cr todo]; [cbn in Hlen; lia|]. cbn [store_answers].
  assert ((match get f with
           | Ok resp => store_answer now (Some (seq (length old) (length done + length (cr :: todo))))
                          (old ++ done ++ cr :: todo) (length done) resp
           | Exn _ => Ok (old ++ done ++ cr :: todo)
           | Undef => Undef
           end) = Ok (old ++ (done ++ [answered get now cr f]) ++ todo)) as ->.
  { unfold answered. destruct (get f) as [resp|e|] eqn:Hf; [| |by apply Hget in Hf].
    - unfold store_answer. cbn [mbind option_bind].
      rewrite lookup_seq_lt by (cbn; lia). rewrite app_assoc.
      rewrite lookup_app_r by (rewrite length_app; lia). rewrite length_app, Nat.sub_diag. cbn.
      rewrite insert_app_r_alt by (rewrite length_app; lia). rewrite length_app, Nat.sub_diag. cbn.
      by rewrite <-!app_assoc.
    - by rewrite <-app_assoc. }
  cbn [mbind res_bind]. specialize (IH (done ++ [answered get now cr f]) todo).
  rewrite length_app in IH. cbn in IH |- *.
  replace (length done + S (length todo)) with (length done + 1 + length todo) by lia.
  replace (S (length done)) with (length done + 1) by lia.
  rewrite IH by (cbn in Hlen; lia). unfold fill. cbn. by rewrite <-!app_assoc.
Qed.

Lemma omap_id_length {A} (l : list (option A)) : length (omap id l) ≤ length l.
Proof. induction l as [|[x|] l IH]; cbn; lia. Qed.

Lemma omap_id_all {A} (l : list (option A)) : Forall is_Some l → Some <$> omap id l = l.
Proof. induction 1 as [|? l [x ->] _ IH]; cbn; [done|]. by rewrite IH. Qed.

(** ** Properties *)

Section Parallel.
Context (get : F → res CommandResponse) (now : Z) (clock : nat → Z).
Context (block : Ctx F → R → Ctx F * R * res unit).

(** What [parallel] does in enqueue mode once the block has run. *)
Lemma parallel_enqueue c r c1 r1 c' r' :
  in_parallel_block_ c = false → block (with_parallel c true []) r = (c1, r1, Ok ()) →
  enqueue_mode_ c1 = true → parallel_buffer_ c1 ≠ [] →
  parallel get now clock block c r = (c', r', Ok ()) →
  ∃ c2 r2, open_token now (with_parallel c1 false (parallel_buffer_ c1)) r1 (w_list r1) =
             Ok (c2, r2, next_sync_token_ c1) ∧
    dispatch_list now (next_sync_token_ c1) (c2, r2)
      (plan now (next_sync_token_ c1) (parallel_buffer_ c1) (w_list r1)) = (c', r', Ok ()).
Proof.
  intros Hp Hb Hm Hne H. unfold parallel in H. rewrite Hp, Hb in H. cbn in H. rewrite Hm in H.
  unfold open_token in *. cbn in *. rewrite Hm.
  destruct (on_coordinator _ r1 _) as [r2| |]; cbn in *;
    destruct (parallel_buffer_ c1) as [|x buf] eqn:Ebuf; try done.
  rewrite dispatch_all_plan in H. do 2 eexists. split; [reflexivity|]. rewrite <- H. unfold with_parallel. by rewrite Hm.
Qed.

(** The barrier is registered before anything is sent. *)
Lemma open_token_coord c1 r1 insts c2 r2 token :
  open_token now c1 r1 insts = Ok (c2, r2, token) →
  token = next_sync_token_ c1 ∧ sync_coordinator_ c2 = sync_coordinator_ c1 ∧ w_list r2 = w_list r1 ∧
  collected_results_ c2 = collected_results_ c1 ∧ token_futures_ c2 = token_futures_ c1 ∧
  token_result_indices_ c2 = token_result_indices_ c1 ∧
  ∃ s, w_coord r1 (sync_coordinator_ c1) = Some s ∧
    r2 = w_set_coord r1 (sync_coordinator_ c1) (register_barrier now s token insts).
Proof.
  unfold open_token, on_coordinator. destruct (w_coord r1 (sync_coordinator_ c1)) as [s|] eqn:Es; cbn; [|done].
  intros [= <- <- <-]. cbn. split_and!; try done; [apply w_set_coord_list|by exists s].
Qed.

(** Waiting for a token whose rows are the last ones. *)
Lemma process_filled now' c r token old rows futs :
  (∀ f, get f ≠ Undef) → collected_results_ c = old ++ rows → length futs ≤ length rows →
  default [] (token_futures_ c !! token) = futs →
  token_result_indices_ c !! token = Some (seq (length old) (length rows)) →
  is_Some (w_coord r (sync_coordinator_ c)) →
  ∃ c2 r2 s, process_token get now' (c, r) token = Ok (c2, r2) ∧
    collected_results_ c2 = old ++ fill get now' rows futs ∧
    w_coord r2 (sync_coordinator_ c) = Some s ∧ has_barrier s token = false.
Proof.
  intros Hget Hrows Hlen Hfut Hidx Hlive. unfold process_token.
  assert ((match token_futures_ c !! token with
           | Some futs => store_answers get now' (token_result_indices_ c !! token) (collected_results_ c) 0 futs
           | None => Ok (collected_results_ c)
           end) = Ok (old ++ fill get now' rows futs)) as ->.
  { rewrite Hidx, Hrows. destruct (token_futures_ c !! token) as [fs|]; cbn in Hfut; subst.
    - apply (store_answers_spec get now' old [] rows futs Hget Hlen).
    - unfold fill. cbn. rewrite drop_0. by destruct rows. }
  cbn [mbind res_bind]. unfold on_coordinator.
  destruct (continue_all_live r token (sorted_elements (default ∅ (token_instruments_ c !! token)))
              _ Hlive) as [s Hs].
  rewrite Hs. cbn. do 3 eexists. split_and!; [done|done|by apply w_set_coord_same; eexists|].
  unfold has_barrier, clear_barrier. cbn. by rewrite lookup_delete_eq.
Qed.

Lemma fill_lookup now' (sent : list SerializedCommand) fs i cmd f :
  Forall is_Some fs → sent !! i = Some cmd → fs !! i = Some (Some f) →
  fill get now' (row_of now <$> sent) (omap id fs) !! i = Some (answered get now' (row_of now cmd) f).
Proof.
  intros Hall Hc Hf. unfold fill. rewrite lookup_app_l.
  - rewrite lookup_zip_with, list_lookup_fmap, Hc. cbn.
    rewrite <- (omap_id_all fs Hall), list_lookup_fmap in Hf.
    destruct (omap id fs !! i); cbn in Hf; by simplify_eq/=.
  - rewrite length_zip_with, length_fmap. apply lookup_lt_Some in Hc, Hf.
    rewrite <- (omap_id_all fs Hall), length_fmap in Hf. lia.
Qed.

Lemma plan_registered token buffer r :
  Forall (λ cmd, cmd_instrument_name cmd ∈ w_list r) (plan now token buffer (w_list r)).
Proof.
  unfold plan. apply Forall_concat, Forall_fmap, Forall_forall. intros n Hn.
  eapply Forall_impl; [apply share_names|]. cbn. by intros cmd ->.
Qed.

(** C24. A non-empty parallel block in enqueue mode sends every registered
    instrument exactly its share: the commands the block made for it, in order
    and under one token, or one no-op if there are none; exactly one of them,
    the last, is marked as barrier.  Nothing else is sent; in particular commands
    for instruments that are not registered are dropped.  The barrier for all
    the instruments is registered before the first command is sent, and a
    command is skipped only if another thread removed its instrument since. *)
Theorem parallel_sends_shares c r c1 r1 c' r' :
  in_parallel_block_ c = false → block (with_parallel c true []) r = (c1, r1, Ok ()) →
  enqueue_mode_ c1 = true → parallel_buffer_ c1 ≠ [] →
  parallel get now clock block c r = (c', r', Ok ()) →
  let token := next_sync_token_ c1 in
  ∃ s sent fs,
    w_coord r1 (sync_coordinator_ c1) = Some s ∧
    exec_all (w_set_coord r1 (sync_coordinator_ c1) (register_barrier now s token (w_list r1))) sent =
      (r', Ok fs) ∧
    (∀ inst, inst ∈ w_list r1 →
       filter (λ cmd, cmd_instrument_name cmd = inst) sent = share now token (parallel_buffer_ c1) inst ∧
       length (filter (λ cmd, cmd_is_sync_barrier cmd = true)
                 (filter (λ cmd, cmd_instrument_name cmd = inst) sent)) = 1) ∧
    Forall (λ cmd, cmd_instrument_name cmd ∈ w_list r1) sent ∧
    ((∀ r, w_others r = r) → Forall is_Some fs).
Proof.
  intros Hp Hb Hm Hne H. cbn zeta. destruct (parallel_enqueue _ _ _ _ _ _ Hp Hb Hm Hne H) as (c2 & r2 & Ho & Hd).
  destruct (open_token_coord _ _ _ _ _ _ Ho) as (_ & _ & Hl & _ & _ & _ & s & Hs & ->). cbn in Hs, Hl, Hd.
  destruct (dispatch_list_spec _ _ _ _ _ _ _ Hd) as (fs & Hfs & _).
  eexists s, _, fs. split_and!; [done|exact Hfs| |apply plan_registered|].
  - intros inst Hin. rewrite plan_share by (done || apply w_list_nodup). split; [done|].
    apply share_barriers.
  - intros Hno. eapply exec_all_present; [done| |exact Hfs]. rewrite Hl. apply plan_registered.
Qed.

(** C25. Where the answers of a parallel block end up.  After a non-empty block
    in enqueue mode under a token without futures or rows, waiting for that token fills
    the rows the block made from the first on, one row per future, leaves
    earlier rows alone, and clears the barrier.  If every instrument was still
    there when its turn came, which is so unless another thread removed one,
    the i-th answer is in the row of the i-th command sent (instrument, verb and
    parameters of that command).  Otherwise a row was made for a command that
    was never sent, and every later answer is in the row before its own. *)
Theorem answers_reach_their_rows now' c r c1 r1 c' r' :
  in_parallel_block_ c = false → block (with_parallel c true []) r = (c1, r1, Ok ()) →
  enqueue_mode_ c1 = true → parallel_buffer_ c1 ≠ [] → w_list r1 ≠ [] →
  token_futures_ c1 !! next_sync_token_ c1 = None →
  token_result_indices_ c1 !! next_sync_token_ c1 = None →
  (∀ f, get f ≠ Undef) →
  parallel get now clock block c r = (c', r', Ok ()) →
  let token := next_sync_token_ c1 in
  ∃ r2 sent fs c2 r3 s, exec_all r2 sent = (r', Ok fs) ∧ length fs = length sent ∧
    process_token get now' (c', r') token = Ok (c2, r3) ∧
    collected_results_ c2 = collected_results_ c1 ++ fill get now' (row_of now <$> sent) (omap id fs) ∧
    ((∀ r, w_others r = r) → Forall is_Some fs) ∧
    (Forall is_Some fs → ∀ i cmd f, sent !! i = Some cmd → fs !! i = Some (Some f) →
       collected_results_ c2 !! (length (collected_results_ c1) + i) =
         Some (answered get now' (row_of now cmd) f)) ∧
    w_coord r3 (sync_coordinator_ c1) = Some s ∧ has_barrier s token = false.
Proof.
  intros Hp Hb Hm Hne Hlist Hf Hi Hget H. cbn zeta.
  destruct (parallel_enqueue _ _ _ _ _ _ Hp Hb Hm Hne H) as (c2 & r2 & Ho & Hd).
  destruct (open_token_coord _ _ _ _ _ _ Ho) as (_ & Hco & Hl & Hrows2 & Hfut2 & Hidx2 & s & Hs & Hr2).
  cbn in Hco, Hl, Hrows2, Hfut2, Hidx2, Hs, Hr2.
  assert (is_Some (w_coord r2 (sync_coordinator_ c1))) as Hlive
    by (rewrite Hr2, w_set_coord_same by (by eexists); by eexists).
  destruct (dispatch_list_spec _ _ _ _ _ _ _ Hd) as (fs & Hfs & Hlen & Hframe & Hrows & Hfut & Hidx).
  rewrite Hfut2, Hf in Hfut. rewrite Hidx2, Hi in Hidx. rewrite Hrows2 in *. cbn in Hfut, Hidx.
  assert (w_list r2 = w_list r1) as Hl2 by done.
  pose proof (plan_registered (next_sync_token_ c1) (parallel_buffer_ c1) r1) as Hreg.
  assert (plan now (next_sync_token_ c1) (parallel_buffer_ c1) (w_list r1) ≠ []) as Hsent.
  { unfold plan. destruct (w_list r1) as [|n l]; [done|]. cbn. unfold share.
    destruct (filter _ (parallel_buffer_ c1)); done. }
  set (sent := plan now (next_sync_token_ c1) (parallel_buffer_ c1) (w_list r1)) in *.
  assert (sync_coordinator_ c' = sync_coordinator_ c1) as Hco'
    by (destruct Hframe as (_ & _ & -> & _); exact Hco).
  destruct (process_filled now' c' r' (next_sync_token_ c1) (collected_results_ c1) (row_of now <$> sent)
    (omap id fs)) as (c3 & r3 & s3 & Hpt & Hrows3 & Hs3 & Hb3); try done.
  - rewrite length_fmap, <- Hlen. apply omap_id_length.
  - rewrite length_fmap. destruct (token_result_indices_ c' !! next_sync_token_ c1); cbn in Hidx; [by subst|].
    by destruct sent.
  - rewrite Hco'. eapply exec_all_live; [exact Hfs|done].
  - rewrite Hco' in Hs3. exists r2, sent, fs, c3, r3, s3. split_and!; try done.
    + intros Hno. eapply exec_all_present; [done| |exact Hfs]. by rewrite Hl2.
    + intros Hall i cmd f Hc Hfi. rewrite Hrows3, lookup_app_r by lia.
      rewrite Nat.add_comm, Nat.add_sub. by apply fill_lookup.
Qed.

End Parallel.
End Dispatch.

(** ** Example: two instruments that log what they are sent *)

Module Bench.

(** What was sent, the instruments, the coordinator of the context, and what
    the other threads do next: remove an instrument. *)
Record bench := mkBench {
  sent_ : list SerializedCommand;
  names_ : list string;
  coord_ : SyncCoordinator;
  removals_ : list (option string)
}.

Definition execute (r : bench) (n : string) (c : SerializedCommand) : option (bench * res nat) :=
  if bool_decide (n ∈ remove_dups (names_ r))
  then Some (mkBench (sent_ r ++ [c]) (names_ r) (coord_ r) (removals_ r), Ok (length (sent_ r))) else None.

Definition others (r : bench) : bench :=
  match removals_ r with
  | [] => r
  | x :: xs => mkBench (sent_ r) (filter (λ n, Some n ≠ x) (names_ r)) (coord_ r) xs
  end.

#[export, refine] Instance bench_workers : Workers bench nat := {|
  w_list r := remove_dups (names_ r); w_expects _ _ _ := true; w_execute := execute;
  w_execute_sync _ _ _ := None; w_continue r _ _ := r; w_others := others;
  w_coord r k := if bool_decide (k = LocalCoord 0) then Some (coord_ r) else None;
  w_set_coord r k s := mkBench (sent_ r) (names_ r) s (removals_ r)
|}.
Proof.
  - intros r. apply NoDup_remove_dups.
  - intros r n c. unfold execute. case_bool_decide; split; try done; by intros [? ?].
  - intros r n c r' f. unfold execute. case_bool_decide; [|done]. by intros [= <- _].
  - done.
  - intros r k s. cbn. case_bool_decide; [done|]. by intros [? ?].
  - intros r n c r' f k. unfold execute. case_bool_decide; [|done]. intros [= <- _]. by case_bool_decide.
  - done.
  - intros r k. unfold others. destruct (removals_ r); by case_bool_decide.
Defined.

Inductive value := Num (z : Z) | Text (s : string) | Nil.

Definition lua : LuaApi := {|
  lua_object := value;
  is_double _ := false; as_double _ := double_of_int 0;
  is_int v := match v with Num _ => true | _ => false end;
  as_int v := match v with Num z => z | _ => 0%Z end;
  is_string v := match v with Text _ => true | _ => false end;
  as_string v := match v with Text s => s | _ => EmptyString end;
  is_bool _ := false; as_bool _ := false;
  is_table _ := false; table_pairs _ := []
|}.

(** A block of two calls to one instrument and one to an unknown one. *)
Definition block (c : Ctx nat) (r : bench) : Ctx nat * bench * res unit :=
  let '(c, r, _) := call lua 5 c r "cell:2.SET" [Num 7; Text "volt"] in
  let '(c, r, _) := call lua 6 c r "ghost.SET" [Num 1] in
  let '(c, r, _) := call lua 7 c r "cell.READ" [Nil] in
  (c, r, Ok ()).

Definition get (f : nat) : res CommandResponse :=
  match f with
  | 1 => Exn "broken promise"
  | _ => Ok (mkResponse ("id" +:+ dec (Z.of_nat f)) "cell" true 0 EmptyString EmptyString
               (Some (PInt (Z.of_nat f))) false EmptyString 0 EmptyString)
  end.

Definition start : Ctx nat := new_context (LocalCoord 0) true.
Definition idle : bench := mkBench [] ["cell"; "probe"] init_coordinator [].
Definition ready : Ctx nat * bench := (block (with_parallel start true []) idle).1.
Definition finished : Ctx nat * bench := (parallel get 9 (λ _, 9%Z) block start idle).1.

(** Another thread removes the first instrument before its command is sent. *)
Definition raced : Ctx nat * bench :=
  (parallel get 9 (λ _, 9%Z) block start
     (mkBench [] ["cell"; "probe"] init_coordinator [Some "cell"])).1.

End Bench.

#[local] Existing Instance Bench.bench_workers.

(** The state in which the block's commands are sent. *)
Definition bench_registered (st : Ctx nat * Bench.bench) : Bench.bench :=
  w_set_coord st.2 (LocalCoord 0)
    (register_barrier 9 (Bench.coord_ st.2) (next_sync_token_ st.1) (w_list st.2)).

Lemma call_name_roundtrip_witness :
  parse_call_name ("cell" +:+ "." +:+ "a.b") = Some ("cell", "cell", None, "a.b") ∧
  parse_call_name ("cell" +:+ ":" +:+ dec 12 +:+ "." +:+ "a.b") =
    Some ("cell" +:+ ":" +:+ dec 12, "cell", Some 12%Z, "a.b").
Proof.
  apply (call_name_roundtrip "cell" "a.b" 12); [by apply (bool_decide_unpack _); vm_compute..|done|done].
Defined.

Lemma parallel_sends_shares_witness :
  ∃ sent fs,
    exec_all (bench_registered Bench.ready) sent = (Bench.finished.2, Ok fs) ∧
    (∀ inst, inst ∈ w_list Bench.ready.2 →
       filter (λ cmd, cmd_instrument_name cmd = inst) sent =
         share 9 (next_sync_token_ Bench.ready.1) (parallel_buffer_ Bench.ready.1) inst) ∧
    Forall (λ cmd, cmd_instrument_name cmd ∈ w_list Bench.ready.2) sent.
Proof.
  destruct (parallel_sends_shares Bench.get 9 (λ _, 9%Z) Bench.block Bench.start Bench.idle
    Bench.ready.1 Bench.ready.2 Bench.finished.1 Bench.finished.2) as (s & sent & fs & Hs & He & Hsh & Hin & _);
    [by vm_compute..|].
  exists sent, fs. split_and!; [|intros inst Hi; by apply Hsh|exact Hin].
  vm_compute in Hs. injection Hs as <-. exact He.
Defined.

(** Three commands, each with its answer; the second future is broken. *)
Lemma answers_reach_their_rows_witness :
  ∃ c2 r2, process_token Bench.get 20 (Bench.finished.1, Bench.finished.2) (next_sync_token_ Bench.ready.1) =
      Ok (c2, r2) ∧
    cr_return_value <$> collected_results_ c2 = [Some (PInt 0); None; Some (PInt 2)].
Proof.
  destruct (answers_reach_their_rows Bench.get 9 (λ _, 9%Z) Bench.block 20 Bench.start Bench.idle
    Bench.ready.1 Bench.ready.2 Bench.finished.1 Bench.finished.2)
    as (r2 & sent & fs & c2 & r3 & s & _ & _ & Hp & _); try by vm_compute.
  - intros [|[|f]]; by vm_compute.
  - exists c2, r3. split; [exact Hp|]. vm_compute in Hp. injection Hp as <- _. vm_compute. reflexivity.
Defined.

(** The answer of "probe" is shown in a row of "cell". *)
Example answer_in_wrong_row :
  match process_token Bench.get 20 Bench.raced 1%Z with
  | Ok (c, _) => (λ cr, (cr_instrument_name cr, cr_return_value cr)) <$> collected_results_ c
  | _ => []
  end = [("cell:2", Some (PInt 0)); ("cell", None); ("probe", None)].
Proof. vm_compute. reflexivity. Qed.
