(* ===== verification/RegistryWorkers.v ===== *)
(** * Scripts on the real registry

    The instance of [Workers] (RuntimeContext.v) for [InstrumentRegistry] and its
    proxies, and what a whole script does to the server.  [bind_local] is how
    a measure job and the [measure] request wire a context: its coordinator is a
    local variable of the function, while the acknowledgements of the workers go
    to the registry's coordinator. *)

From S2P Require Import Prelude Json SerializedCommand Ipc SyncCoordinator ProcessManager Proxy Registry RuntimeContext.
From Stdlib Require Import Lia.

(** ** What the context keeps of the registry *)

(** A property of the registry that each use of a worker keeps is kept by every
    operation of the context. *)
Section Kept.
Context `{WK : Workers R F} (P : R → Prop) (k : coord_ref).
Context (P_execute : ∀ r n cmd r' f, P r → w_execute r n cmd = Some (r', f) → P r').
Context (P_sync : ∀ r n cmd r' f, P r → w_execute_sync r n cmd = Some (r', f) → P r').
Context (P_continue : ∀ r n t, P r → P (w_continue r n t)).
Context (P_others : ∀ r, P r → P (w_others r)).
Context (P_coord : ∀ r s, P r → P (w_set_coord r k s)).
Implicit Types (c : Ctx F) (r : R).

Lemma on_coordinator_kept c r f r' :
  sync_coordinator_ c = k → P r → on_coordinator c r f = Ok r' → P r'.
Proof.
  unfold on_coordinator. intros -> HP. destruct (w_coord r k); [|done]. intros [= <-]. by apply P_coord.
Qed.

Lemma open_token_kept now c r insts c' r' t :
  sync_coordinator_ c = k → P r → open_token now c r insts = Ok (c', r', t) →
  P r' ∧ sync_coordinator_ c' = k.
Proof.
  intros Hk HP. unfold open_token. destruct (on_coordinator c r _) as [r1| |] eqn:E; [|done..].
  intros [= <- <- _]. cbn. split; [|done]. by eapply on_coordinator_kept.
Qed.

Lemma call_kept L now c r f args :
  sync_coordinator_ c = k → P r →
  P (call L now c r f args).1.2 ∧ sync_coordinator_ (call L now c r f args).1.1 = k.
Proof.
  intros Hk HP. unfold call. destruct (parse_call_name f) as [[[[spec id] ch] verb]|]; [|done]. cbn zeta.
  destruct (in_parallel_block_ c); [done|]. pose proof (P_others _ HP) as HP1. destruct (enqueue_mode_ c).
  - case_bool_decide; [|done]. destruct (open_token _ _ _ _) as [[[c1 r1] t]| |] eqn:Eo; [|done..].
    destruct (open_token_kept _ _ _ _ _ _ _ Hk HP1 Eo) as [HP2 Hk2].
    destruct (w_execute _ _ _) as [[r2 [| |]]|] eqn:E; cbn; (split; [|done]); try done; by eapply P_execute.
  - unfold send_command. destruct (w_execute_sync _ _ _) as [[r1 [| |]]|] eqn:E; cbn; (split; [|done]);
      try done; by eapply P_sync.
Qed.

Lemma dispatch_list_kept now token st cmds :
  sync_coordinator_ st.1 = k → P st.2 →
  P (dispatch_list now token st cmds).1.2 ∧ sync_coordinator_ (dispatch_list now token st cmds).1.1 = k.
Proof.
  revert st. induction cmds as [|cmd cmds IH]; intros st Hk HP; cbn; [done|]. unfold dispatch.
  pose proof (P_others _ HP) as HP1.
  destruct (w_execute _ _ _) as [[r1 [| |]]|] eqn:E; cbn;
    [apply IH; [done|by eapply P_execute]|split; [by eapply P_execute|done]..|by apply IH].
Qed.

Lemma continue_all_kept t l r : P r → P (continue_all r t l).
Proof. unfold continue_all. revert r. induction l as [|n l IH]; intros r HP; cbn; auto. Qed.

Lemma send_buffer_kept clock i token r buffer : P r → P (send_buffer clock i token r buffer).1.
Proof.
  revert i r. induction buffer as [|cmd buffer IH]; intros i r HP; cbn [send_buffer]; [done|].
  cbn zeta. pose proof (P_others _ HP) as HP1.
  destruct (w_execute _ _ _) as [[r1 [f| |]]|] eqn:E; cbn; [|by eapply P_execute..|by apply IH].
  specialize (IH (S i) r1 ltac:(by eapply P_execute)). by destruct (send_buffer _ _ _ _ _).
Qed.

Lemma execute_parallel_buffer_kept get now clock c r :
  sync_coordinator_ c = k → P r →
  P (execute_parallel_buffer get now clock c r).1.2 ∧
  sync_coordinator_ (execute_parallel_buffer get now clock c r).1.1 = k.
Proof.
  intros Hk HP. unfold execute_parallel_buffer. destruct (parallel_buffer_ c) as [|cmd buf] eqn:Hbuf; [done|].
  cbn zeta. destruct (on_coordinator _ r _) as [r1| |] eqn:Er; [|done..].
  apply on_coordinator_kept in Er; [|done..].
  pose proof (send_buffer_kept clock 0 (next_sync_token_ c) r1 (cmd :: buf) Er) as Hs.
  destruct (send_buffer _ _ _ _ _) as [r2 [fs| |]]; [|done..]. cbn in Hs.
  destruct (gather get now fs) as [rows| |]; [|done..].
  pose proof (continue_all_kept (next_sync_token_ c)
    (unique_names ∅ (cmd_instrument_name <$> cmd :: buf)) r2 Hs) as Hc.
  destruct (on_coordinator _ (continue_all _ _ _) _) as [r3| |] eqn:Er3; [|done..].
  apply on_coordinator_kept in Er3; done.
Qed.

Lemma parallel_kept get now clock block c r :
  (∀ c r, sync_coordinator_ c = k → P r → P (block c r).1.2 ∧ sync_coordinator_ (block c r).1.1 = k) →
  sync_coordinator_ c = k → P r →
  P (parallel get now clock block c r).1.2 ∧ sync_coordinator_ (parallel get now clock block c r).1.1 = k.
Proof.
  intros Hblock Hk HP. unfold parallel. destruct (in_parallel_block_ c); [done|].
  specialize (Hblock (with_parallel c true []) r Hk HP).
  destruct (block _ _) as [[c1 r1] [[]| |]]; cbn in Hblock; [|done..]. destruct Hblock as [HP1 Hk1].
  destruct (parallel_buffer_ (with_parallel c1 false _)) as [|cmd buf] eqn:Hbuf; [done|].
  destruct (enqueue_mode_ _).
  - destruct (open_token _ _ _ _) as [[[c2 r2] t]| |] eqn:Eo; [|done..]. rewrite dispatch_all_plan.
    destruct (open_token_kept _ (with_parallel c1 false (parallel_buffer_ c1)) _ _ _ _ _ Hk1 HP1 Eo)
      as [HP2 Hk2].
    by apply dispatch_list_kept.
  - by apply execute_parallel_buffer_kept.
Qed.

End Kept.

Section Instance.
Context `{JT : JsonText} `{MQ : MessageQueue Q} `{OS : Posix W}.

(** What the other threads do to the server and to the proxy while
    [execute_sync] waits, and the [id] of the moved-from command. *)
Context (meanwhile : Server Q W → Proxy → Server Q W * Proxy) (moved_id : string).
Implicit Types (rg : Registry Q W).

(** What there is while a script runs: the registry, the coordinators that are
    local variables of functions still running, and what the other threads do
    to the registry at their next turns. *)
Record World := mkWorld {
  wd_registry : Registry Q W;
  wd_locals : gmap nat SyncCoordinator;
  wd_others : list (Registry Q W → Registry Q W)
}.

Definition set_registry (wd : World) rg : World := mkWorld rg (wd_locals wd) (wd_others wd).

Definition others_turn (wd : World) : World :=
  match wd_others wd with
  | [] => wd
  | f :: fs => mkWorld (f (wd_registry wd)) (wd_locals wd) fs
  end.

Definition coordinator_at (wd : World) (k : coord_ref) : option SyncCoordinator :=
  match k with
  | RegistryCoord => Some (Proxy.sync_coordinator_ (rg_server (wd_registry wd)))
  | LocalCoord k => wd_locals wd !! k
  end.

Definition set_coordinator (wd : World) (k : coord_ref) (s : SyncCoordinator) : World :=
  match k with
  | RegistryCoord =>
      let rg := wd_registry wd in
      let sv := rg_server rg in
      set_registry wd (mkRegistry (mkServer (sv_shm sv) (sv_os sv) (sv_pm sv) s) (instruments_ rg) (metadata_ rg))
  | LocalCoord k => mkWorld (wd_registry wd) (<[k := s]> (wd_locals wd)) (wd_others wd)
  end.

Definition with_proxy rg (sv : Server Q W) (name : string) (p : Proxy) : Registry Q W :=
  mkRegistry sv (<[name := p]> (instruments_ rg)) (metadata_ rg).

(** [registry_.get_instrument(name)->execute(cmd)]; a future is known by its
    instrument and its number there. *)
Definition reg_execute rg (name : string) (cmd : SerializedCommand)
  : option (Registry Q W * res (string * nat)) :=
  match get_instrument rg name with
  | None => None
  | Some p =>
      let '(sv, p, r) := Proxy.execute (rg_server rg) p cmd in
      Some (with_proxy rg sv name p, (λ i, (name, i)) <$> r)
  end.

(** [execute_sync]: [execute], the wait, the answer or the timeout. *)
Definition reg_execute_sync rg (name : string) (cmd : SerializedCommand)
  : option (Registry Q W * res CommandResponse) :=
  match get_instrument rg name with
  | None => None
  | Some p =>
      match Proxy.execute (rg_server rg) p cmd with
      | (sv, p, Ok future) =>
          let '(sv, p) := meanwhile sv p in
          let '(p, r) := execute_sync_result p future moved_id in
          Some (with_proxy rg sv name p, r)
      | (sv, p, Exn e) => Some (with_proxy rg sv name p, Exn e)
      | (sv, p, Undef) => Some (with_proxy rg sv name p, Undef)
      end
  end.

Definition reg_continue rg (name : string) (token : Z) : Registry Q W :=
  match get_instrument rg name with
  | None => rg
  | Some p => mkRegistry (send_sync_continue (rg_server rg) p token) (instruments_ rg) (metadata_ rg)
  end.

Lemma elem_of_instruments rg n : n ∈ list_instruments rg ↔ is_Some (instruments_ rg !! n).
Proof. unfold list_instruments. by rewrite elem_of_sorted_keys. Qed.

Lemma with_proxy_list rg sv n p :
  is_Some (instruments_ rg !! n) → list_instruments (with_proxy rg sv n p) = list_instruments rg.
Proof.
  intros [q Hq]. unfold list_instruments, sorted_keys, with_proxy. cbn. f_equal.
  apply dom_insert_lookup_L. eauto.
Qed.

(** A use of the registry as a use of the world. *)
Definition in_world {A} (wd : World) (r : option (Registry Q W * A)) : option (World * A) :=
  '(rg, a) ← r; Some (set_registry wd rg, a).

#[export, refine] Instance registry_workers : Workers World (string * nat) := {|
  w_list wd := list_instruments (wd_registry wd);
  w_expects wd := command_expects_response (wd_registry wd);
  w_execute wd n cmd := in_world wd (reg_execute (wd_registry wd) n cmd);
  w_execute_sync wd n cmd := in_world wd (reg_execute_sync (wd_registry wd) n cmd);
  w_continue wd n t := set_registry wd (reg_continue (wd_registry wd) n t);
  w_others := others_turn;
  w_coord := coordinator_at;
  w_set_coord := set_coordinator
|}.
Proof.
  - intros wd. apply NoDup_sorted_elements.
  - intros wd n c. rewrite elem_of_instruments. unfold in_world, reg_execute, get_instrument.
    destruct (instruments_ (wd_registry wd) !! n); [|by split; intros []].
    destruct (Proxy.execute _ _ _) as [[? ?] ?]. cbn. split; eauto.
  - intros wd n c wd' f. unfold in_world, reg_execute, get_instrument.
    destruct (instruments_ (wd_registry wd) !! n) eqn:E; [|done]. destruct (Proxy.execute _ _ _) as [[? ?] ?].
    cbn. intros [= <- _]. apply with_proxy_list. eauto.
  - by intros wd [|k] s.
  - intros wd [|k] s _; cbn; [done|]. apply lookup_insert_eq.
  - intros wd n c wd' f k. unfold in_world. destruct (reg_execute _ _ _) as [[rg a]|]; [|done].
    cbn. intros [= <- _]. by destruct k.
  - by intros wd n t [|k].
  - intros wd [|k]; unfold others_turn; by destruct (wd_others wd).
Defined.

(** The function that runs a script declares a coordinator and makes a context
    with a reference to it. *)
Definition bind_local (enqueue_mode : bool) (wd : World) : Ctx (string * nat) * World :=
  let k := fresh (dom (wd_locals wd)) in
  (new_context (LocalCoord k) enqueue_mode,
   mkWorld (wd_registry wd) (<[k := init_coordinator]> (wd_locals wd)) (wd_others wd)).

(** The function's block is left: its coordinator is destroyed, whoever still
    holds the context. *)
Definition leave_scope (c : Ctx (string * nat)) (wd : World) : World :=
  match sync_coordinator_ c with
  | LocalCoord k => mkWorld (wd_registry wd) (delete k (wd_locals wd)) (wd_others wd)
  | RegistryCoord => wd
  end.

(** ** Scripts *)

(** The calls a script makes, in order; the Lua program around them is not
    modelled. *)
Inductive script_op (L : LuaApi) :=
| SCall (func_name : string) (args : list (lua_object L))
| SParallel (calls : list (string * list (lua_object L))).
Arguments SCall {L}. Arguments SParallel {L}.

Abbreviation state := (Ctx (string * nat) * World)%type.

(** The body of a parallel block: calls until one raises. *)
Fixpoint run_block (L : LuaApi) (now : Z) (calls : list (string * list (lua_object L)))
  (c : Ctx (string * nat)) (wd : World) : state * res unit :=
  match calls with
  | [] => ((c, wd), Ok ())
  | (f, args) :: calls =>
      match call L now c wd f args with
      | (c, wd, Ok _) => run_block L now calls c wd
      | (c, wd, Exn e) => ((c, wd), Exn e)
      | (c, wd, Undef) => ((c, wd), Undef)
      end
  end.

Definition run_op (L : LuaApi) (get : string * nat → res CommandResponse) (now : Z) (clock : nat → Z)
  (st : state) (op : script_op L) : state * res unit :=
  match op with
  | SCall f args => run_block L now [(f, args)] st.1 st.2
  | SParallel calls => parallel get now clock (run_block L now calls) st.1 st.2
  end.

Fixpoint run_script (L : LuaApi) (get : string * nat → res CommandResponse) (now : Z) (clock : nat → Z)
  (st : state) (ops : list (script_op L)) : state * res unit :=
  match ops with
  | [] => (st, Ok ())
  | op :: ops =>
      match run_op L get now clock st op with
      | (st, Ok _) => run_script L get now clock st ops
      | r => r
      end
  end.

(** ** The two coordinators *)

(** The registry's coordinator has no barriers. *)
Definition quiet rg : Prop := Proxy.sync_coordinator_ (rg_server rg) = init_coordinator.

Lemma execute_coord (sv : Server Q W) p cmd :
  let '(sv', _, _) := Proxy.execute sv p cmd in Proxy.sync_coordinator_ sv' = Proxy.sync_coordinator_ sv.
Proof.
  unfold Proxy.execute. destruct (execute_register p cmd) as [p' [[id cmd'] f]]. unfold execute_send.
  destruct (command_message id cmd') as [msg|e|]; [|done..].
  destruct (ipc_queue_ p') as [h|]; [|done]. destruct (send _ h msg) as [shm b].
  by destruct (execute_finish p' id cmd' b).
Qed.

Lemma reg_execute_quiet rg n cmd rg' r :
  quiet rg → reg_execute rg n cmd = Some (rg', r) → quiet rg'.
Proof.
  unfold quiet, reg_execute. destruct (get_instrument rg n) as [p|]; [|done].
  pose proof (execute_coord (rg_server rg) p cmd) as He.
  destruct (Proxy.execute _ _ _) as [[sv p'] r']. intros Hq [= <- _]. cbn. congruence.
Qed.

Lemma reg_continue_quiet rg n t : quiet rg → quiet (reg_continue rg n t).
Proof.
  unfold quiet, reg_continue, send_sync_continue. destruct (get_instrument rg n) as [p|]; [|done]. cbn.
  destruct (ipc_queue_ p) as [h|]; [|done]. by destruct (is_valid h).
Qed.

(** No acknowledgement changes a quiet server. *)
Lemma quiet_ack rg p msg : quiet rg → handle_sync_ack_message (rg_server rg) p msg = rg_server rg.
Proof.
  unfold quiet, handle_sync_ack_message, handle_ack. intros Hq. rewrite Hq. cbn.
  rewrite lookup_empty. cbn.   by destruct (rg_server rg) as [shm w pm c]; cbn in Hq; subst.
Qed.

Context (meanwhile_quiet : ∀ sv p, Proxy.sync_coordinator_ sv = init_coordinator →
  Proxy.sync_coordinator_ (meanwhile sv p).1 = init_coordinator).

Lemma reg_execute_sync_quiet rg n cmd rg' r :
  quiet rg → reg_execute_sync rg n cmd = Some (rg', r) → quiet rg'.
Proof.
  unfold quiet, reg_execute_sync. destruct (get_instrument rg n) as [p|]; [|done].
  pose proof (execute_coord (rg_server rg) p cmd) as He.
  destruct (Proxy.execute _ _ _) as [[sv p'] [f| |]]; intros Hq; [|intros [= <- _]; cbn; congruence..].
  pose proof (meanwhile_quiet sv p' ltac:(congruence)) as Hm. destruct (meanwhile sv p') as [sv' p2].
  destruct (execute_sync_result p2 f moved_id) as [p3 r3]. by intros [= <- _].
Qed.

(** Neither the registry nor what the other threads are about to do has a
    barrier in the registry's coordinator. *)
Definition quiet_world (wd : World) : Prop :=
  quiet (wd_registry wd) ∧ Forall (λ f, ∀ rg, quiet rg → quiet (f rg)) (wd_others wd).

Lemma quiet_execute wd n cmd wd' r :
  quiet_world wd → in_world wd (reg_execute (wd_registry wd) n cmd) = Some (wd', r) → quiet_world wd'.
Proof.
  intros [Hq Ho]. unfold in_world. destruct (reg_execute _ _ _) as [[rg a]|] eqn:E; [|done]. cbn.
  intros [= <- _]. split; [|done]. cbn. by eapply reg_execute_quiet.
Qed.

Lemma quiet_execute_sync wd n cmd wd' r :
  quiet_world wd → in_world wd (reg_execute_sync (wd_registry wd) n cmd) = Some (wd', r) → quiet_world wd'.
Proof.
  intros [Hq Ho]. unfold in_world. destruct (reg_execute_sync _ _ _) as [[rg a]|] eqn:E; [|done]. cbn.
  intros [= <- _]. split; [|done]. cbn. by eapply reg_execute_sync_quiet.
Qed.

Lemma quiet_others wd : quiet_world wd → quiet_world (others_turn wd).
Proof.
  intros [Hq Ho]. unfold others_turn. destruct (wd_others wd) as [|f fs] eqn:E; [by split; [|rewrite E]|].
  apply Forall_cons in Ho as [Hf Ho]. split; cbn; auto.
Qed.

Lemma quiet_continue wd n t : quiet_world wd → quiet_world (set_registry wd (reg_continue (wd_registry wd) n t)).
Proof. intros [Hq Ho]. split; [by apply reg_continue_quiet|done]. Qed.

(** A context with a coordinator of its own does not touch the registry's. *)
Lemma quiet_local k wd s : quiet_world wd → quiet_world (set_coordinator wd (LocalCoord k) s).
Proof. by intros [Hq Ho]. Qed.

Lemma call_quiet k L now c wd f args :
  sync_coordinator_ c = LocalCoord k → quiet_world wd →
  quiet_world (call L now c wd f args).1.2 ∧ sync_coordinator_ (call L now c wd f args).1.1 = LocalCoord k.
Proof.
  apply (call_kept (WK := registry_workers) quiet_world (LocalCoord k) quiet_execute quiet_execute_sync quiet_others (quiet_local k)).
Qed.

Lemma run_block_quiet k L now calls c wd :
  sync_coordinator_ c = LocalCoord k → quiet_world wd →
  quiet_world (run_block L now calls c wd).1.2 ∧
  sync_coordinator_ (run_block L now calls c wd).1.1 = LocalCoord k.
Proof.
  revert c wd. induction calls as [|[f args] calls IH]; intros c wd Hk Hq; cbn; [done|].
  pose proof (call_quiet k L now c wd f args Hk Hq) as [Hc Hk'].
  destruct (call L now c wd f args) as [[c1 wd1] [v| |]]; cbn in Hc, Hk'; [by apply IH|done..].
Qed.

Lemma run_op_quiet k L get now clock st op :
  sync_coordinator_ st.1 = LocalCoord k → quiet_world st.2 →
  quiet_world (run_op L get now clock st op).1.2 ∧
  sync_coordinator_ (run_op L get now clock st op).1.1 = LocalCoord k.
Proof.
  intros Hk Hq. destruct op as [f args|calls]; cbn [run_op]; [by apply run_block_quiet|].
  apply (parallel_kept (WK := registry_workers) quiet_world (LocalCoord k) quiet_execute quiet_continue quiet_others (quiet_local k));
    [|done..]. intros c wd. apply run_block_quiet.
Qed.

(** In enqueue mode, every open token has its barrier in the context's
    coordinator. *)
Definition tokens_registered (st : state) : Prop :=
  enqueue_mode_ st.1 = true ∧
  ∃ s, coordinator_at st.2 (sync_coordinator_ st.1) = Some s ∧
    ∀ t, t ∈ token_order_ st.1 → has_barrier s t = true.

(** Steps that leave tokens, mode and the context's coordinator alone. *)
Definition same_tokens (st st' : state) : Prop :=
  same_frame st.1 st'.1 ∧
  coordinator_at st'.2 (sync_coordinator_ st.1) = coordinator_at st.2 (sync_coordinator_ st.1).

Lemma same_tokens_registered st st' : same_tokens st st' → tokens_registered st → tokens_registered st'.
Proof.
  intros [(Ho & _ & Hc & Hm) Hs] (Hm' & s & Hs' & Ht). split; [congruence|].
  exists s. rewrite Ho, Hc, Hs. by split.
Qed.

Lemma local_execute k wd n cmd wd' r :
  in_world wd (reg_execute (wd_registry wd) n cmd) = Some (wd', r) →
  coordinator_at wd' (LocalCoord k) = coordinator_at wd (LocalCoord k).
Proof. unfold in_world. destruct (reg_execute _ _ _) as [[rg a]|]; [|done]. by intros [= <- _]. Qed.

Lemma local_others k wd :
  coordinator_at (others_turn wd) (LocalCoord k) = coordinator_at wd (LocalCoord k).
Proof. unfold others_turn. by destruct (wd_others wd). Qed.

Lemma open_token_registered now c wd insts c' wd' t :
  tokens_registered (c, wd) → open_token now c wd insts = Ok (c', wd', t) → tokens_registered (c', wd').
Proof.
  intros (Hm & s & Hs & Ht). unfold open_token, on_coordinator. cbn [w_coord registry_workers] in *.
  cbn in Hs, Ht. rewrite Hs. cbn. intros [= <- <- _]. split; [done|].
  eexists. split; [apply (w_set_coord_same (Workers := registry_workers)); by eexists|].
  intros t'. cbn. rewrite elem_of_app, list_elem_of_singleton.
  unfold has_barrier, register_barrier. cbn. intros Hin. apply bool_decide_eq_true_2.
  destruct (decide (t' = next_sync_token_ c)) as [->|Hne]; [by rewrite lookup_insert_eq|].
  rewrite lookup_insert_ne by done. destruct Hin as [Hin|Hin]; [|done].
  apply Ht in Hin. by apply bool_decide_eq_true_1 in Hin.
Qed.

Lemma call_registered k L now c wd f args :
  sync_coordinator_ c = LocalCoord k →
  tokens_registered (c, wd) → tokens_registered (call L now c wd f args).1.
Proof.
  intros Hk HT. unfold call. destruct (parse_call_name f) as [[[[spec id] ch] verb]|]; [|done]. cbn zeta.
  destruct (in_parallel_block_ c); [done|]. pose proof (proj1 HT) as Hm. cbn in Hm. rewrite Hm.
  assert (tokens_registered (c, others_turn wd)) as HT1.
  { apply (same_tokens_registered (c, wd)); [|done]. split; [done|]. cbn. rewrite Hk. apply local_others. }
  case_bool_decide; [|done].
  destruct (open_token _ _ _ _) as [[[c1 wd1] t]| |] eqn:Eo; [|done..].
  pose proof (open_token_registered _ _ _ _ _ _ _ HT1 Eo) as Ho.
  assert (sync_coordinator_ c1 = LocalCoord k) as Hk1.
  { unfold open_token in Eo. destruct (on_coordinator _ _ _); [|done..]. injection Eo as <- _ _. exact Hk. }
  destruct (w_execute _ _ _) as [[r1 [| |]]|] eqn:E; [..|exact Ho];
    (apply (same_tokens_registered (c1, wd1)); [split; [done|]|exact Ho]); cbn [fst snd]; rewrite Hk1;
    exact (local_execute k _ _ _ _ _ E).
Qed.

Lemma run_block_registered k L now calls c wd :
  sync_coordinator_ c = LocalCoord k → quiet_world wd → tokens_registered (c, wd) →
  tokens_registered (run_block L now calls c wd).1.
Proof.
  revert c wd. induction calls as [|[f args] calls IH]; intros c wd Hk Hq HT; cbn; [done|].
  pose proof (call_registered k L now c wd f args Hk HT) as Hc.
  pose proof (call_quiet k L now c wd f args Hk Hq) as [Hq' Hk'].
  destruct (call L now c wd f args) as [[c1 wd1] [v| |]]; cbn in Hc, Hk'; [by apply IH|done..].
Qed.

Lemma dispatch_list_tokens k now token (st : state) cmds :
  sync_coordinator_ st.1 = LocalCoord k → same_tokens st (dispatch_list now token st cmds).1.
Proof.
  revert st. induction cmds as [|cmd cmds IH]; intros st Hk; cbn [dispatch_list]; [done|]. unfold dispatch.
  cbn zeta. pose proof (local_others k st.2) as Hlo.
  destruct (w_execute _ _ _) as [[r1 [f| |]]|] eqn:E;
    [|split; [done|cbn [fst snd]; rewrite Hk, <- Hlo; exact (local_execute k _ _ _ _ _ E)]..|].
  - destruct (IH (push_future (push_row st.1 token (placeholder (display_name cmd) (cmd_verb cmd)
      (cmd_params cmd) now)) token f, r1) Hk) as [Hf Hc]. cbn in Hf, Hc.
    split; [exact Hf|]. cbn [fst snd]. rewrite Hc, Hk, <- Hlo. exact (local_execute k _ _ _ _ _ E).
  - destruct (IH (push_row st.1 token (placeholder (display_name cmd) (cmd_verb cmd)
      (cmd_params cmd) now), w_others st.2) Hk) as [Hf Hc]. cbn in Hf, Hc.
    split; [exact Hf|]. cbn. rewrite Hc, Hk. exact Hlo.
Qed.

Lemma run_op_registered k L get now clock st op :
  sync_coordinator_ st.1 = LocalCoord k → quiet_world st.2 → tokens_registered st →
  tokens_registered (run_op L get now clock st op).1.
Proof.
  intros Hk Hq HT. destruct st as [c0 wd0]. cbn in Hk, Hq.
  destruct op as [f args|calls]; cbn [run_op fst snd]; [by eapply run_block_registered|].
  unfold parallel. destruct (in_parallel_block_ c0); [done|].
  assert (tokens_registered (with_parallel c0 true [], wd0)) as HT0 by exact HT.
  pose proof (run_block_registered k L now calls (with_parallel c0 true []) wd0 Hk Hq HT0) as Hb.
  pose proof (run_block_quiet k L now calls (with_parallel c0 true []) wd0 Hk Hq) as [_ Hkb].
  destruct (run_block _ _ _ _ _) as [[c1 wd1] [[]| |]]; cbn in Hkb; cbn [fst] in Hb; [|exact Hb..]. cbn zeta.
  destruct (parallel_buffer_ (with_parallel c1 false _)) as [|cmd buf]; [exact Hb|].
  change (enqueue_mode_ (with_parallel c1 false (parallel_buffer_ c1))) with (enqueue_mode_ c1).
  pose proof (proj1 Hb) as Hm. cbn in Hm. rewrite Hm.
  destruct (open_token _ _ _ _) as [[[c2 wd2] t]| |] eqn:Eo; [|exact Hb..].
  assert (tokens_registered (with_parallel c1 false (parallel_buffer_ c1), wd1)) as Hb' by exact Hb.
  pose proof (open_token_registered _ _ _ _ _ _ _ Hb' Eo) as Ho. rewrite dispatch_all_plan.
  eapply same_tokens_registered; [apply (dispatch_list_tokens k)|exact Ho].
  unfold open_token in Eo. destruct (on_coordinator _ _ _); [|done..]. injection Eo as <- _ _. exact Hkb.
Qed.

Lemma run_script_inv k L get now clock st ops :
  sync_coordinator_ st.1 = LocalCoord k → tokens_registered st → quiet_world st.2 →
  let st' := (run_script L get now clock st ops).1 in
  tokens_registered st' ∧ quiet_world st'.2 ∧ sync_coordinator_ st'.1 = LocalCoord k.
Proof.
  revert st. induction ops as [|op ops IH]; intros st Hk HT Hq; cbn; [done|].
  pose proof (run_op_registered k L get now clock st op Hk Hq HT) as HT'.
  pose proof (run_op_quiet k L get now clock st op Hk Hq) as [Hq' Hk'].
  destruct (run_op L get now clock st op) as [st' [[]| |]]; [by apply IH|done..].
Qed.

(** A script that runs on a context of its own. *)
Definition measure_script (L : LuaApi) (get : string * nat → res CommandResponse) (now : Z)
  (clock : nat → Z) (wd : World) (ops : list (script_op L)) : state * res unit :=
  run_script L get now clock (bind_local true wd) ops.

Lemma measure_script_inv L get now clock wd ops :
  quiet_world wd →
  let st := (measure_script L get now clock wd ops).1 in
  tokens_registered st ∧ quiet_world st.2 ∧
  sync_coordinator_ st.1 = LocalCoord (fresh (dom (wd_locals wd))).
Proof.
  intros Hq. apply run_script_inv; [done| |done]. split; [done|].
  exists init_coordinator. split; [cbn; apply lookup_insert_eq|]. intros t Ht. by apply elem_of_nil in Ht.
Qed.

(** C26. The barriers of scripts hear no acknowledgement.  A measure job wires
    its context to a coordinator of its own; whatever calls and parallel blocks
    the script makes, every token it opened has its barrier in that
    coordinator, and the registry's coordinator, to which the proxies report
    [SYNC_ACK]s, still has none, so no acknowledgement of any instrument
    changes anything or sends a [SYNC_CONTINUE]. *)
Theorem script_barriers_unheard L get now clock wd ops :
  quiet_world wd →
  let st := (measure_script L get now clock wd ops).1 in
  (∃ s, coordinator_at st.2 (sync_coordinator_ st.1) = Some s ∧
     ∀ token, token ∈ token_order_ st.1 → has_barrier s token = true) ∧
  ∀ p msg, handle_sync_ack_message (rg_server (wd_registry st.2)) p msg = rg_server (wd_registry st.2).
Proof.
  intros Hq st. destruct (measure_script_inv L get now clock wd ops Hq) as ((_ & HT) & Hq' & _).
  split; [exact HT|]. intros p msg. apply quiet_ack, Hq'.
Qed.

Lemma continue_all_local k t l wd :
  coordinator_at (continue_all wd t l) (LocalCoord k) = coordinator_at wd (LocalCoord k).
Proof.
  unfold continue_all. revert wd. induction l as [|n l IH]; intros wd; cbn [foldl]; [done|].
  rewrite IH. apply (local_others k wd).
Qed.

Lemma process_token_dead k get now c wd t :
  sync_coordinator_ c = LocalCoord k → wd_locals wd !! k = None →
  ∀ r, process_token get now (c, wd) t ≠ Ok r.
Proof.
  intros Hk Hdead r. unfold process_token, on_coordinator. rewrite Hk.
  assert (∀ l, w_coord (continue_all wd t l) (LocalCoord k) = None) as Hnone
    by (intros l; by rewrite <- Hdead; apply (continue_all_local k t l wd)).
  destruct (token_futures_ c !! t) as [fs|]; [destruct (store_answers _ _ _ _ _ _)|];
    cbn [mbind res_bind]; by rewrite ?Hnone.
Qed.

(** The monitor thread of a measure job outlives the coordinator: the worker
    thread leaves the block that declares it as soon as the thread is started,
    and the monitor, which then waits for the tokens, never comes to a proper
    end, whatever the script did, if it opened a token: it calls a method of
    an object that is gone. *)
Theorem monitor_uses_dead_coordinator L get now clock wd ops now' :
  quiet_world wd →
  let st := (measure_script L get now clock wd ops).1 in
  token_order_ st.1 ≠ [] →
  ∀ r, process_tokens_and_wait get now' st.1 (leave_scope st.1 st.2) ≠ Ok r.
Proof.
  intros Hq. destruct (measure_script_inv L get now clock wd ops Hq) as (_ & _ & Hk). cbn zeta in *.
  destruct (measure_script L get now clock wd ops).1 as [c wd']. cbn [fst snd] in *.
  intros Ht r. unfold process_tokens_and_wait. destruct (token_order_ c) as [|t ts]; [done|].
  cbn [res_foldl]. unfold leave_scope. rewrite Hk.
  pose proof (process_token_dead (fresh (dom (wd_locals wd))) get now' c
    (mkWorld (wd_registry wd') (delete (fresh (dom (wd_locals wd))) (wd_locals wd')) (wd_others wd')) t Hk
    ltac:(apply lookup_delete_eq)) as Hdead.
  by destruct (process_token _ _ _ _) as [st| |]; [destruct (Hdead st)|..].
Qed.

End Instance.
Arguments SCall {L}. Arguments SParallel {L}.
Arguments mkWorld {Q W}. Arguments wd_registry {Q W}. Arguments wd_locals {Q W}. Arguments wd_others {Q W}.

(** ** A script on one instrument *)

Section Samples.
#[local] Existing Instance SampleText.sample_text.
#[local] Existing Instance ListPosix.list_posix.

Definition sample_ops : list (script_op Bench.lua) :=
  [SCall "DMM1:2.MEASURE" []; SParallel (L := Bench.lua) [("DMM1.SET", [Bench.Num 3]); ("DMM1.MEASURE", [])]].

Definition no_answer (f : string * nat) : res CommandResponse := Exn "std::future_error".

Definition sample_world : World (Q := ListQueue.listq) (W := ListPosix.world) :=
  mkWorld sample_created.1 ∅ [].

Definition sample_run : Ctx (string * nat) * World (Q := ListQueue.listq) (W := ListPosix.world) :=
  (measure_script (λ sv p, (sv, p)) EmptyString Bench.lua no_answer 5 (λ _, 5%Z) sample_world sample_ops).1.

(** The script opens two tokens and sends three commands. *)
Example sample_run_tokens :
  token_order_ sample_run.1 = [1; 2]%Z ∧
  (length <$> (token_futures_ sample_run.1 !! 2%Z)) = Some 2 ∧ length (collected_results_ sample_run.1) = 3.
Proof. vm_compute. done. Qed.

Lemma sample_world_quiet : quiet_world sample_world.
Proof. split; [vm_compute; reflexivity|constructor]. Qed.

Lemma script_barriers_unheard_witness :
  (∃ s, coordinator_at sample_run.2 (sync_coordinator_ sample_run.1) = Some s ∧
     ∀ token, token ∈ token_order_ sample_run.1 → has_barrier s token = true) ∧
  ∀ p msg, handle_sync_ack_message (rg_server (wd_registry sample_run.2)) p msg =
           rg_server (wd_registry sample_run.2).
Proof.
  apply (script_barriers_unheard (λ sv p, (sv, p)) EmptyString (λ sv p H, H) Bench.lua no_answer 5
    (λ _, 5%Z) sample_world sample_ops sample_world_quiet).
Defined.

Lemma monitor_uses_dead_coordinator_witness :
  process_tokens_and_wait (WK := registry_workers (λ sv p, (sv, p)) EmptyString) no_answer 9 sample_run.1
    (leave_scope sample_run.1 sample_run.2) = Undef.
Proof.
  pose proof (monitor_uses_dead_coordinator (λ sv p, (sv, p)) EmptyString (λ sv p H, H) Bench.lua no_answer 5
    (λ _, 5%Z) sample_world sample_ops 9 sample_world_quiet) as H.
  destruct (process_tokens_and_wait _ _ _ _) as [r|e|] eqn:E; [|by vm_compute in E|done].
  exfalso. refine (H _ r E). by vm_compute.
Defined.

End Samples.
