(* ===== verification/Daemon.v ===== *)
(** * The daemon and its RPC server

    Models of the life of [ServerDaemon] (src/src/server/ServerDaemon.cpp) and of
    [HttpRpcServer] (src/src/server/HttpRpcServer.cpp; its requests are in Http.v),
    with the threads they own and the PID file that keeps a second server from
    starting.  The POSIX branches are modelled. *)

From S2P Require Import Prelude Text.
From Stdlib Require Import Lia.

(** ** Threads *)

(** [std::thread]: assigning to a joinable one, or destroying it, ends the
    process; joining oneself throws. *)
Inductive thread := NoThread | Joinable.

Definition resource_deadlock : string := "Resource deadlock avoided".

Definition assign_thread (t : thread) : res thread :=
  match t with Joinable => Undef | NoThread => Ok Joinable end.

Definition join_if_joinable (self : bool) (t : thread) : res thread :=
  match t with
  | NoThread => Ok NoThread
  | Joinable => if self then Exn resource_deadlock else Ok NoThread
  end.

Definition destroy_thread (t : thread) : res unit :=
  match t with Joinable => Undef | NoThread => Ok () end.

(** ** The RPC server *)

Record HttpRpcServer := mkRpc {
  rpc_running_ : bool;
  server_thread_ : thread;
  bound_port_ : Z;
  listen_fd_ : Z
}.

Definition new_rpc : HttpRpcServer := mkRpc false NoThread 0 (-1).

(** How the sockets of [run_loop] turn out; [Listening fd assigned] has the port
    the system assigns ([None]: [getsockname] failed). *)
Inductive startup :=
| SocketFailed
| AddressFailed (fd : Z)
| BindFailed
| ListenFailed
| Listening (fd : Z) (assigned : option Z).

(** [run_loop] up to the accept loop. *)
Definition run_loop_begin (port : Z) (out : startup) (s : HttpRpcServer) : HttpRpcServer :=
  match out with
  | SocketFailed => mkRpc false (server_thread_ s) 0 (-1)
  | AddressFailed fd => mkRpc false (server_thread_ s) 0 fd
  | BindFailed | ListenFailed => mkRpc false (server_thread_ s) 0 (-1)
  | Listening fd assigned =>
      mkRpc (rpc_running_ s) (server_thread_ s)
        (if bool_decide (port = 0%Z) then default 0%Z assigned else port) fd
  end.

(** The end of [run_loop]. *)
Definition run_loop_end (s : HttpRpcServer) : HttpRpcServer :=
  mkRpc false (server_thread_ s) (bound_port_ s) (listen_fd_ s).

Definition rpc_start (s : HttpRpcServer) : HttpRpcServer * res bool :=
  if rpc_running_ s then (s, Ok true)
  else
    match assign_thread (server_thread_ s) with
    | Ok t => (mkRpc true t (bound_port_ s) (listen_fd_ s), Ok true)
    | _ => (mkRpc true (server_thread_ s) (bound_port_ s) (listen_fd_ s), Undef)
    end.

(** [self]: the caller is the server thread.  Joining waits for [run_loop_end]. *)
Definition rpc_stop (self : bool) (s : HttpRpcServer) : HttpRpcServer * res unit :=
  if negb (rpc_running_ s) then (s, Ok ())
  else
    let fd := if bool_decide (0 ≤ listen_fd_ s)%Z then (-1)%Z else listen_fd_ s in
    let s := mkRpc false (server_thread_ s) (bound_port_ s) fd in
    match join_if_joinable self (server_thread_ s) with
    | Ok t => (mkRpc false t (bound_port_ s) (listen_fd_ s), Ok ())
    | Exn e => (s, Exn e)
    | Undef => (s, Undef)
    end.

(** [delete rpc_server_]: the destructor stops the server and destroys the
    thread.  A destructor that throws ends the process. *)
Definition rpc_delete (self : bool) (s : HttpRpcServer) : res unit :=
  match rpc_stop self s with
  | (s, Ok _) => destroy_thread (server_thread_ s)
  | _ => Undef
  end.

(** ** The PID file *)

(** [get_runtime_dir], with the environment as a function. *)
Definition get_runtime_dir (getenv : string → option string) : string :=
  match getenv "XDG_RUNTIME_DIR" with
  | Some xdg_runtime => xdg_runtime +:+ "/instrument-server"
  | None => "/tmp/instrument-server-" +:+ default "unknown" (getenv "USER")
  end.

Definition get_pid_file_path (getenv : string → option string) : string :=
  get_runtime_dir getenv +:+ "/server.pid".
Definition get_lock_file_path (getenv : string → option string) : string :=
  get_runtime_dir getenv +:+ "/server.lock".

(** What the daemon sees of the system: its own PID, the living processes, and
    the PID file ([None]: no such file). *)
Record System := mkSystem {
  sys_getpid : Z;
  sys_alive : gset Z;
  sys_pid_file : option string
}.

Definition with_pid_file (y : System) (f : option string) : System :=
  mkSystem (sys_getpid y) (sys_alive y) f.

(** [ifs >> pid] *)
Definition read_pid (content : string) : option Z :=
  match stoi content with Ok pid => Some pid | _ => None end.

Definition is_already_running (y : System) : bool :=
  match sys_pid_file y ≫= read_pid with
  | Some pid => bool_decide (pid ∈ sys_alive y)
  | None => false
  end.

Definition get_daemon_pid (y : System) : Z := default (-1)%Z (sys_pid_file y ≫= read_pid).

(** [dirs_ok], [file_ok]: whether the directory and the file can be created. *)
Definition create_pid_file (dirs_ok file_ok : bool) (y : System) : System * bool :=
  if negb dirs_ok then (y, false)
  else if negb file_ok then (y, false)
  else (with_pid_file y (Some (dec (sys_getpid y) +:+ of_chars [LF])), true).

(** [remove_ok]: whether [std::filesystem::remove] succeeds. *)
Definition remove_pid_file (remove_ok : bool) (y : System) : System :=
  match sys_pid_file y with
  | Some _ => if remove_ok then with_pid_file y None else y
  | None => y
  end.

(** ** The daemon *)

Record ServerDaemon := mkDaemon {
  running_ : bool;
  daemon_thread_ : thread;
  registry_ : bool;
  sync_coordinator_ : bool;
  rpc_server_ : option HttpRpcServer;
  rpc_port_ : Z
}.

Definition new_daemon : ServerDaemon := mkDaemon false NoThread false false None 0.

Definition set_rpc_port (d : ServerDaemon) (port : Z) : ServerDaemon :=
  mkDaemon (running_ d) (daemon_thread_ d) (registry_ d) (sync_coordinator_ d) (rpc_server_ d) port.

Definition with_rpc (d : ServerDaemon) (s : option HttpRpcServer) : ServerDaemon :=
  mkDaemon (running_ d) (daemon_thread_ d) (registry_ d) (sync_coordinator_ d) s (rpc_port_ d).

Record daemon_env := mkDaemonEnv {
  dirs_ok : bool;
  file_ok : bool;
  remove_ok : bool;
  rpc_startup : option startup   (* what [run_loop] does before the wait for the port ends *)
}.

(** The RPC part of [start]; the wait for the port only delays. *)
Definition start_rpc (env : daemon_env) (d : ServerDaemon) : ServerDaemon * res bool :=
  if bool_decide (0 < rpc_port_ d)%Z then
    match rpc_start new_rpc with
    | (s, Ok true) =>
        let s := match rpc_startup env with
                 | Some out => run_loop_begin (rpc_port_ d) out s
                 | None => s
                 end in
        (with_rpc d (Some s), Ok true)
    | (s, Ok false) =>
        match rpc_delete false s with
        | Ok _ => (with_rpc d None, Ok false)
        | _ => (d, Undef)
        end
    | (_, _) => (d, Undef)
    end
  else (d, Ok true).

Definition daemon_start (env : daemon_env) (d : ServerDaemon) (y : System) : ServerDaemon * System * res bool :=
  if running_ d then (d, y, Ok true)
  else if is_already_running y then (d, y, Ok false)
  else
    let '(y, created) := create_pid_file (dirs_ok env) (file_ok env) y in
    if negb created then (d, y, Ok false)
    else
      let d := mkDaemon (running_ d) (daemon_thread_ d) true true (rpc_server_ d) (rpc_port_ d) in
      match start_rpc env d with
      | (d, Ok true) =>
          match assign_thread (daemon_thread_ d) with
          | Ok t => (mkDaemon true t (registry_ d) (sync_coordinator_ d) (rpc_server_ d) (rpc_port_ d), y, Ok true)
          | _ => (mkDaemon true (daemon_thread_ d) (registry_ d) (sync_coordinator_ d) (rpc_server_ d)
                    (rpc_port_ d), y, Undef)
          end
      | (d, Ok false) =>
          (mkDaemon (running_ d) (daemon_thread_ d) false false (rpc_server_ d) (rpc_port_ d),
           remove_pid_file (remove_ok env) y, Ok false)
      | (d, _) => (d, y, Undef)
      end.

(** Who calls [stop]. *)
Inductive caller := ByRpcThread | ByOtherThread.

Definition is_rpc_thread (c : caller) : bool := match c with ByRpcThread => true | ByOtherThread => false end.

Section Stop.
(** [stop_all] of the registry. *)
Context {R : Type} (stop_all : R → R).

(** [delete rpc_server_] after its [stop]. *)
Definition stop_rpc (who : caller) (d : ServerDaemon) : ServerDaemon * res unit :=
  match rpc_server_ d with
  | None => (d, Ok ())
  | Some s =>
      match rpc_stop (is_rpc_thread who) s with
      | (s, Ok _) =>
          match rpc_delete (is_rpc_thread who) s with
          | Ok _ => (with_rpc d None, Ok ())
          | _ => (with_rpc d (Some s), Undef)
          end
      | (s, Exn e) => (with_rpc d (Some s), Exn e)
      | (s, Undef) => (with_rpc d (Some s), Undef)
      end
  end.

Definition daemon_stop (who : caller) (remove_ok : bool) (d : ServerDaemon) (y : System) (r : R)
  : ServerDaemon * System * R * res unit :=
  if negb (running_ d) then (d, y, r, Ok ())
  else
    let d := mkDaemon false (daemon_thread_ d) (registry_ d) (sync_coordinator_ d) (rpc_server_ d) (rpc_port_ d) in
    let r := if registry_ d then stop_all r else r in
    match stop_rpc who d with
    | (d, Ok _) =>
        match join_if_joinable false (daemon_thread_ d) with
        | Ok t => (mkDaemon false t (registry_ d) false (rpc_server_ d) (rpc_port_ d),
                   remove_pid_file remove_ok y, r, Ok ())
        | Exn e => (d, y, r, Exn e)
        | Undef => (d, y, r, Undef)
        end
    | (d, Exn e) => (d, y, r, Exn e)
    | (d, Undef) => (d, y, r, Undef)
    end.

End Stop.

(** ** The life of a server process *)

Inductive event :=
| EStart (env : daemon_env)
| EStop (who : caller) (remove_ok : bool)
| EStartup (out : startup)        (* [run_loop] comes up after the wait for its port *)
| ESetPort (port : Z)
| EProcesses (alive : gset Z).    (* other processes come and go *)

(** An event in its place: only a listening server has a thread that can call
    [stop], and the server's own process lives. *)
Definition event_ok (d : ServerDaemon) (y : System) (e : event) : Prop :=
  match e with
  | EStop ByRpcThread _ => ∃ s, rpc_server_ d = Some s ∧ rpc_running_ s = true
  | EStartup _ => ∃ s, rpc_server_ d = Some s ∧ bound_port_ s = 0%Z
  | EProcesses alive => sys_getpid y ∈ alive
  | _ => True
  end.

(** [None]: the process has ended. *)
Definition life_step (d : ServerDaemon) (y : System) (e : event) : option (ServerDaemon * System) :=
  match e with
  | EStart env => match daemon_start env d y with (_, _, Undef) => None | (d, y, _) => Some (d, y) end
  | EStop who ok =>
      match daemon_stop (λ r : unit, r) who ok d y () with (_, _, _, Undef) => None | (d, y, _, _) => Some (d, y) end
  | EStartup out =>
      Some (with_rpc d (run_loop_begin (rpc_port_ d) out <$> rpc_server_ d), y)
  | ESetPort port => Some (set_rpc_port d port, y)
  | EProcesses alive => Some (d, mkSystem (sys_getpid y) alive (sys_pid_file y))
  end.

(** A PID as systems give them, of a living process. *)
Definition sane (y : System) : Prop :=
  (0 ≤ sys_getpid y)%Z ∧ is_i32 (sys_getpid y) ∧ sys_getpid y ∈ sys_alive y.

Inductive lives : ServerDaemon → System → Prop :=
| lives_new y : sane y → lives new_daemon y
| lives_step d y e d' y' : lives d y → event_ok d y e → life_step d y e = Some (d', y') → lives d' y'.

(** ** Invariant *)

Definition own_pid_file (y : System) : Prop := sys_pid_file y = Some (dec (sys_getpid y) +:+ of_chars [LF]).

Record d_inv (d : ServerDaemon) (y : System) : Prop := {
  inv_sane : sane y;
  inv_rpc s : rpc_server_ d = Some s → server_thread_ s = Joinable;
  inv_running : running_ d = true →
    daemon_thread_ d = Joinable ∧ registry_ d = true ∧ sync_coordinator_ d = true;
  inv_owner : daemon_thread_ d = Joinable → own_pid_file y;
  inv_idle : daemon_thread_ d = NoThread → rpc_server_ d = None
}.

Lemma own_pid_running y : sane y → own_pid_file y → is_already_running y = true.
Proof.
  intros (Hn & Hi & Ha) Hf. unfold is_already_running, read_pid. rewrite Hf. cbn.
  rewrite stoi_dec_app by done. by apply bool_decide_eq_true_2.
Qed.

(** A process that has not given up its daemon refuses a second start. *)
Lemma start_refused env d y :
  d_inv d y → running_ d = false → daemon_thread_ d = Joinable → daemon_start env d y = (d, y, Ok false).
Proof.
  intros Hinv Hr Ht. unfold daemon_start. rewrite Hr.
  by rewrite (own_pid_running y (inv_sane _ _ Hinv) (inv_owner _ _ Hinv Ht)).
Qed.

Lemma run_loop_begin_thread port out s : server_thread_ (run_loop_begin port out s) = server_thread_ s.
Proof. by destruct out. Qed.

Lemma start_rpc_spec env d :
  rpc_server_ d = None → ∃ o, start_rpc env d = (with_rpc d o, Ok true) ∧
    ∀ s, o = Some s → server_thread_ s = Joinable.
Proof.
  intros Hn. unfold start_rpc. case_bool_decide; cbn.
  - eexists. split; [done|]. intros s [= <-]. destruct (rpc_startup env); [|done].
    by rewrite run_loop_begin_thread.
  - exists None. split; [|done]. destruct d; cbn in *; by subst.
Qed.

Lemma daemon_start_inv env d y :
  d_inv d y → let '(d', y', r) := daemon_start env d y in r ≠ Undef ∧ d_inv d' y'.
Proof.
  intros Hinv. unfold daemon_start. destruct (running_ d) eqn:Hr; [done|].
  destruct (is_already_running y) eqn:Ha; [done|]. unfold create_pid_file.
  destruct (dirs_ok env); [|done]. destruct (file_ok env); [|done]. cbn [negb].
  destruct (daemon_thread_ d) eqn:Ht.
  2: { rewrite (own_pid_running y (inv_sane _ _ Hinv) (inv_owner _ _ Hinv Ht)) in Ha. done. }
  edestruct (start_rpc_spec env) as (o & -> & Ho); [exact (inv_idle _ _ Hinv Ht)|]. cbn.
  split; [done|]. split; cbn; [exact (inv_sane _ _ Hinv)|exact Ho|done|done|done].
Qed.

(** What [stop] leaves in each case. *)
Lemma daemon_stop_cases {R} (stop_all : R → R) who ok d y r :
  d_inv d y → running_ d = true → event_ok d y (EStop who ok) →
  let '(d', y', r', out) := daemon_stop stop_all who ok d y r in
  r' = stop_all r ∧ running_ d' = false ∧
  match rpc_server_ d with
  | Some s =>
      if rpc_running_ s then
        match who with
        | ByOtherThread => out = Ok () ∧ daemon_thread_ d' = NoThread ∧ rpc_server_ d' = None ∧
            sync_coordinator_ d' = false ∧ y' = remove_pid_file ok y
        | ByRpcThread => out = Exn resource_deadlock ∧ daemon_thread_ d' = Joinable ∧ y' = y ∧
            ∃ s', rpc_server_ d' = Some s' ∧ server_thread_ s' = Joinable
        end
      else out = Undef ∧ y' = y
  | None => out = Ok () ∧ daemon_thread_ d' = NoThread ∧ rpc_server_ d' = None ∧
      sync_coordinator_ d' = false ∧ y' = remove_pid_file ok y
  end.
Proof.
  intros Hinv Hr Hok. unfold daemon_stop. rewrite Hr. cbn [negb].
  destruct (inv_running _ _ Hinv Hr) as (Ht & Hreg & Hc). cbn [registry_]. rewrite Hreg. unfold stop_rpc. cbn.
  destruct (rpc_server_ d) as [s|] eqn:Hs; [|by rewrite Ht].
  pose proof (inv_rpc _ _ Hinv s Hs) as Hj. unfold rpc_stop, rpc_delete, rpc_stop.
  destruct (rpc_running_ s) eqn:Hrun; cbn [negb].
  - cbn. rewrite Hj. destruct who; cbn; rewrite Ht; [|done]. split_and!; try done. by eexists.
  - rewrite Hrun. cbn. by rewrite Hj.
Qed.

Lemma remove_pid_sane ok y : sane y → sane (remove_pid_file ok y).
Proof. intros Hs. unfold remove_pid_file. by destruct (sys_pid_file y), ok. Qed.

Lemma daemon_stop_inv who ok d y :
  d_inv d y → event_ok d y (EStop who ok) →
  let '(d', y', _, out) := daemon_stop (λ r : unit, r) who ok d y () in out ≠ Undef → d_inv d' y'.
Proof.
  intros Hinv Hok. destruct (running_ d) eqn:Hr.
  2: { unfold daemon_stop. rewrite Hr. cbn. by intros _. }
  pose proof (daemon_stop_cases (λ r : unit, r) who ok d y () Hinv Hr Hok) as H.
  destruct (daemon_stop _ who ok d y ()) as [[[d' y'] r'] out]. destruct H as (_ & Hr' & H). intros Hout.
  assert (∀ (Hc : daemon_thread_ d' = NoThread ∧ rpc_server_ d' = None ∧ y' = remove_pid_file ok y),
    d_inv d' y') as Hclean.
  { intros (Ht & Hs & ->). split; [apply remove_pid_sane, Hinv|..]; congruence. }
  destruct (rpc_server_ d) as [s|]; [|by apply Hclean; naive_solver].
  destruct (rpc_running_ s); [|naive_solver]. destruct who; [|by apply Hclean; naive_solver].
  destruct H as (_ & Ht & -> & s' & Hs' & Hj).
  split; [apply Hinv|congruence|congruence| |congruence].
  intros _. apply (inv_owner _ _ Hinv), (inv_running _ _ Hinv Hr).
Qed.

Lemma lives_inv d y : lives d y → d_inv d y.
Proof.
  induction 1 as [y Hy|d y e d' y' _ IH Hok H]; [by split|].
  destruct e as [env|who ok|out|port|alive]; cbn in H.
  - pose proof (daemon_start_inv env d y IH) as Hs. destruct (daemon_start env d y) as [[d1 y1] [b| |]];
      [..|done]; injection H as <- <-; apply Hs.
  - pose proof (daemon_stop_inv who ok d y IH Hok) as Hs.
    destruct (daemon_stop _ who ok d y ()) as [[[d1 y1] r1] [b| |]]; [..|done];
      injection H as <- <-; by apply Hs.
  - injection H as <- <-. destruct IH as [? Hrpc ? ? Hidle]. split; cbn; [done| |done|done|].
    + intros s. destruct (rpc_server_ d) as [s0|]; cbn; [|done]. intros [= <-].
      rewrite run_loop_begin_thread. by apply Hrpc.
    + intros Ht. by rewrite Hidle.
  - injection H as <- <-. by destruct IH.
  - injection H as <- <-. destruct IH as [(? & ? & ?) ? ? ? ?]. by split.
Qed.

(** C28. How stopping the daemon ends, in every state a server process can reach.
    All instruments are stopped first.  If there is no RPC server, or its loop is
    running and another thread calls [stop], everything is released: threads
    joined, coordinator and RPC server deleted, PID file removed (if the system
    lets it), and the process may start again.  If the call comes through the
    RPC server itself, joining its own thread throws: the PID file stays and
    every later start is refused.  If the RPC server could not bind its port,
    its unjoined thread ends the process and the PID file stays. *)
Theorem daemon_stop_outcome {R} (stop_all : R → R) who ok d y r :
  lives d y → running_ d = true → event_ok d y (EStop who ok) →
  let '(d', y', r', out) := daemon_stop stop_all who ok d y r in
  r' = stop_all r ∧ running_ d' = false ∧
  let released := out = Ok () ∧ daemon_thread_ d' = NoThread ∧ rpc_server_ d' = None ∧
                  sync_coordinator_ d' = false ∧ (ok = true → sys_pid_file y' = None) in
  match rpc_server_ d with
  | None => released
  | Some s =>
      if rpc_running_ s then
        match who with
        | ByOtherThread => released
        | ByRpcThread => out = Exn resource_deadlock ∧ own_pid_file y' ∧
            ∀ env, daemon_start env d' y' = (d', y', Ok false)
        end
      else out = Undef ∧ own_pid_file y'
  end.
Proof.
  intros Hl Hr Hok. pose proof (lives_inv _ _ Hl) as Hinv.
  pose proof (daemon_stop_cases stop_all who ok d y r Hinv Hr Hok) as H.
  assert (ok = true → sys_pid_file (remove_pid_file ok y) = None) as Hfile.
  { intros ->. unfold remove_pid_file. by destruct (sys_pid_file y) eqn:E. }
  assert (own_pid_file y) as Hown by (apply (inv_owner _ _ Hinv), (inv_running _ _ Hinv Hr)).
  destruct (daemon_stop stop_all who ok d y r) as [[[d' y'] r'] out]. destruct H as (-> & Hr' & H).
  split_and!; [done..|]. cbn zeta. destruct (rpc_server_ d) as [s|].
  2: { destruct H as (-> & -> & -> & -> & ->). auto. }
  destruct (rpc_running_ s); [|by destruct H as [-> ->]].
  destruct who; [|destruct H as (-> & -> & -> & -> & ->); auto].
  destruct H as (-> & Ht & -> & s' & Hs' & Hj). split_and!; [done..|]. intros env. unfold daemon_start.
  by rewrite Hr', (own_pid_running y (inv_sane _ _ Hinv) Hown).
Qed.

(** ** A server whose port is taken *)

Definition sample_system : System := mkSystem 4242 {[4242]}%Z None.
Definition taken_port : daemon_env := mkDaemonEnv true true true (Some BindFailed).
Definition with_port : ServerDaemon := set_rpc_port new_daemon 8555.
Definition port_taken : ServerDaemon * System := (daemon_start taken_port with_port sample_system).1.

Lemma daemon_stop_outcome_witness :
  let '(d', y', r', out) :=
    daemon_stop (λ n : nat, n + 1) ByOtherThread true port_taken.1 port_taken.2 0 in
  r' = 1 ∧ out = Undef ∧ own_pid_file y'.
Proof.
  assert (sane sample_system) as Hs by (split_and!; [done..|cbn; set_solver]).
  assert (lives port_taken.1 port_taken.2) as Hl.
  { apply (lives_step with_port sample_system (EStart taken_port)); [|done|reflexivity].
    apply (lives_step new_daemon sample_system (ESetPort 8555)); [by constructor|done|reflexivity]. }
  pose proof (daemon_stop_outcome (λ n : nat, n + 1) ByOtherThread true port_taken.1 port_taken.2 0 Hl
    eq_refl I) as H.
  change (rpc_server_ port_taken.1) with (Some (mkRpc false Joinable 0 (-1))) in H. cbn [rpc_running_] in H.
  destruct (daemon_stop _ _ _ _ _ _) as [[[d' y'] r'] out]. destruct H as (-> & _ & Hout & Hf).
  split_and!; [reflexivity|exact Hout|exact Hf].
Defined.

(** ** Two servers

    The PID file is read by [is_already_running] and written later by
    [create_pid_file]; nothing locks in between ([get_lock_file_path] is not
    used).  Processes that start at the same time are interleaved here at these
    two points. *)

Inductive start_phase := Passed | Serving.

Record Machine := mkMachine {
  mc_file : option string;
  mc_alive : gset Z;
  mc_phase : gmap Z start_phase
}.

Definition as_seen_by (pid : Z) (m : Machine) : System := mkSystem pid (mc_alive m) (mc_file m).

Inductive mstep : Machine → Machine → Prop :=
| M_check pid f al ph :
    pid ∈ al → ph !! pid = None → is_already_running (as_seen_by pid (mkMachine f al ph)) = false →
    mstep (mkMachine f al ph) (mkMachine f al (<[pid := Passed]> ph))
| M_create pid f al ph y :
    ph !! pid = Some Passed → create_pid_file true true (as_seen_by pid (mkMachine f al ph)) = (y, true) →
    mstep (mkMachine f al ph) (mkMachine (sys_pid_file y) al (<[pid := Serving]> ph))
| M_stop pid f al ph :
    ph !! pid = Some Serving →
    mstep (mkMachine f al ph)
      (mkMachine (sys_pid_file (remove_pid_file true (as_seen_by pid (mkMachine f al ph)))) al (delete pid ph))
| M_die pid f al ph :
    mstep (mkMachine f al ph) (mkMachine f (al ∖ {[pid]}) (delete pid ph))
| M_born pid f al ph :
    (0 ≤ pid)%Z → is_i32 pid → mstep (mkMachine f al ph) (mkMachine f ({[pid]} ∪ al) ph).

(** A step after which at most one process is between its check and its file. *)
Definition mstep_alone (m m' : Machine) : Prop :=
  mstep m m' ∧ ∀ p q, mc_phase m' !! p = Some Passed → mc_phase m' !! q = Some Passed → p = q.

(** The file names the one server, who lives, and nobody starts beside it. *)
Record guarded (m : Machine) : Prop := {
  gd_pids : set_Forall (λ pid, (0 ≤ pid)%Z ∧ is_i32 pid) (mc_alive m);
  gd_alive pid : is_Some (mc_phase m !! pid) → pid ∈ mc_alive m;
  gd_file pid : mc_phase m !! pid = Some Serving → mc_file m = Some (dec pid +:+ of_chars [LF]);
  gd_one p q : mc_phase m !! p = Some Passed → is_Some (mc_phase m !! q) → p = q
}.

Lemma guarded_unique m p q :
  guarded m → mc_phase m !! p = Some Serving → mc_phase m !! q = Some Serving → p = q.
Proof.
  intros Hg Hp Hq. pose proof (gd_file _ Hg _ Hp) as Hf. rewrite (gd_file _ Hg _ Hq) in Hf.
  injection Hf as Hf. apply (f_equal chars) in Hf. rewrite !chars_app in Hf. apply app_inv_tail in Hf.
  symmetry. by apply dec_inj, chars_inj.
Qed.

(** A live server is seen. *)
Lemma server_seen m p q : guarded m → mc_phase m !! p = Some Serving → is_already_running (as_seen_by q m) = true.
Proof.
  intros Hg Hp. unfold is_already_running, read_pid, as_seen_by. cbn. rewrite (gd_file _ Hg _ Hp). cbn.
  assert (p ∈ mc_alive m) as Hal by (apply (gd_alive _ Hg); by eexists).
  destruct (gd_pids _ Hg _ Hal) as [H1 H2]. rewrite stoi_dec_app by done. by apply bool_decide_eq_true_2.
Qed.

Lemma guarded_create pid f al ph :
  guarded (mkMachine f al ph) → ph !! pid = Some Passed →
  guarded (mkMachine (Some (dec pid +:+ of_chars [LF])) al (<[pid := Serving]> ph)).
Proof.
  intros Hg Hp. pose proof (gd_one _ Hg pid) as Hone. cbn in Hone. specialize (λ q, Hone q Hp).
  split; cbn; [apply (gd_pids _ Hg)| | |].
  - intros p. rewrite lookup_insert. case_decide as E; [|apply (gd_alive _ Hg)].
    subst. intros _. apply (gd_alive _ Hg). by eexists.
  - intros p. rewrite lookup_insert. case_decide as E; [by subst|]. intros Hs. destruct E. apply Hone. by eexists.
  - intros p q. rewrite lookup_insert. case_decide as E; [done|]. intros Hs. destruct E. apply Hone. by eexists.
Qed.

Lemma guarded_fewer f f' al al' pid ph :
  guarded (mkMachine f al ph) → set_Forall (λ p, (0 ≤ p)%Z ∧ is_i32 p) al' →
  (∀ p, p ≠ pid → p ∈ al → p ∈ al') → (∀ p, delete pid ph !! p = Some Serving → f' = f) →
  guarded (mkMachine f' al' (delete pid ph)).
Proof.
  intros Hg Hpids Hal Hf. split; cbn; [done| | |].
  - intros p [x [Hne Hx]%lookup_delete_Some]. apply Hal; [done|]. apply (gd_alive _ Hg). by eexists.
  - intros p Hs. rewrite (Hf p Hs). apply lookup_delete_Some in Hs as [_ Hs]. by apply (gd_file _ Hg).
  - intros p q [_ Hp]%lookup_delete_Some [x [_ Hx]%lookup_delete_Some]. apply (gd_one _ Hg p q Hp). by eexists.
Qed.

Lemma mstep_guarded m m' : guarded m → mstep_alone m m' → guarded m'.
Proof.
  intros Hg [Hs Halone]. destruct Hs as [pid f al ph Hal Hn Hr|pid f al ph y Hp Hc|pid f al ph Hp|pid f al ph|pid f al ph H1 H2].
  - split; cbn; [apply (gd_pids _ Hg)| | |].
    + intros p. rewrite lookup_insert. case_decide as E; [by subst|]. apply (gd_alive _ Hg).
    + intros p. rewrite lookup_insert. case_decide as E; [done|]. apply (gd_file _ Hg).
    + intros p q Hp [[|] Hq]; [by apply Halone|]. exfalso.
      rewrite lookup_insert in Hq. case_decide as E; [done|].
      pose proof (server_seen _ q pid Hg Hq). congruence.
  - injection Hc as <-. exact (guarded_create pid f al ph Hg Hp).
  - apply (guarded_fewer f _ al); [done|apply (gd_pids _ Hg)|done|].
    intros p [Hne Hs]%lookup_delete_Some. destruct Hne. by eapply (guarded_unique (mkMachine f al ph)).
  - apply (guarded_fewer f _ al); [done| |set_solver|done].
    intros p [Hpal _]%elem_of_difference. by apply (gd_pids _ Hg).
  - split; cbn; [|intros p Hp; apply elem_of_union_r; by apply (gd_alive _ Hg)|apply (gd_file _ Hg)|apply (gd_one _ Hg)].
    intros p [->%elem_of_singleton|Hp]%elem_of_union; [done|by apply (gd_pids _ Hg)].
Qed.

(** C27. The PID file keeps a second server out, unless both start together: as
    long as no two processes are between the check and the writing of the file
    at the same time, at most one process serves, whatever processes come, die
    or stop.  Two that are there together both serve, and when one of them stops
    the file is gone although the other goes on. *)
Theorem pid_file_guard :
  (∀ al m p q, set_Forall (λ pid, (0 ≤ pid)%Z ∧ is_i32 pid) al →
     rtc mstep_alone (mkMachine None al ∅) m →
     mc_phase m !! p = Some Serving → mc_phase m !! q = Some Serving → p = q) ∧
  ∀ al a b, a ≠ b → a ∈ al → b ∈ al →
    ∃ m m', rtc mstep (mkMachine None al ∅) m ∧
      mc_phase m !! a = Some Serving ∧ mc_phase m !! b = Some Serving ∧
      mstep m m' ∧ mc_phase m' !! a = Some Serving ∧ mc_file m' = None.
Proof.
  split.
  - intros al m p q Hpids Hrun. apply (guarded_unique m).
    revert m Hrun. refine (rtc_ind_r _ _ _ _); [|intros ? ? _ ? ?; by eapply mstep_guarded].
    split; cbn; [done| |done|done]. intros pid [x Hx]. done.
  - intros al a b Hne Ha Hb.
    exists (mkMachine (Some (dec b +:+ of_chars [LF])) al
              (<[b := Serving]> (<[a := Serving]> (<[b := Passed]> (<[a := Passed]> ∅))))).
    eexists. split_and!.
    + eapply rtc_l; [by apply (M_check a)|].
      eapply rtc_l; [apply (M_check b); [done|by rewrite lookup_insert_ne|done]|].
      eapply rtc_l; [eapply (M_create a); [|done]; by rewrite lookup_insert_ne, lookup_insert_eq|].
      apply rtc_once. apply (M_create b _ _ _ (mkSystem b al (Some (dec b +:+ of_chars [LF])))); [|done]. by rewrite lookup_insert_ne, lookup_insert_eq.
    + cbn. by rewrite lookup_insert_ne, lookup_insert_eq.
    + apply lookup_insert_eq.
    + eapply (M_stop b). apply lookup_insert_eq.
    + cbn. by rewrite lookup_delete_ne, lookup_insert_ne, lookup_insert_eq.
    + done.
Qed.

Lemma pid_file_guard_witness :
  ∃ m m', rtc mstep (mkMachine None {[101; 102]}%Z ∅) m ∧
    mc_phase m !! 101%Z = Some Serving ∧ mc_phase m !! 102%Z = Some Serving ∧
    mstep m m' ∧ mc_phase m' !! 101%Z = Some Serving ∧ mc_file m' = None.
Proof.
  apply (proj2 pid_file_guard {[101; 102]}%Z 101%Z 102%Z); [lia|set_solver|set_solver].
Defined.
