(* ===== verification/CommandHandlers.v ===== *)
(** * Request handlers

    Model of src/src/server/CommandHandlers.cpp: one function per handler, on the
    state of the whole server.  A handler fills a JSON object and returns a code;
    an exception it does not catch is the [Exn] the RPC server turns into a
    response (Http.v).  Logging is left out.  Times of jobs are milliseconds. *)

From S2P Require Import Prelude Text Json Yaml SerializedCommand Ipc SyncCoordinator ProcessManager Proxy PluginRegistry Registry JobManager RuntimeContext RegistryWorkers Daemon.
From Stdlib Require Import Lia.

(** ** The server *)

Record App (Q W : Type) := mkApp {
  ap_daemon : ServerDaemon;
  ap_system : System;
  ap_registry : Registry Q W;
  ap_dl : Dl;
  ap_plugins : PluginRegistry;
  ap_jobs : JobManager;
  ap_discovered : bool;    (* the [once_flag]s of [handle_discover] and [handle_plugins] *)
  ap_builtin : bool
}.
Arguments mkApp {Q W}. Arguments ap_daemon {Q W}. Arguments ap_system {Q W}. Arguments ap_registry {Q W}.
Arguments ap_dl {Q W}. Arguments ap_plugins {Q W}. Arguments ap_jobs {Q W}. Arguments ap_discovered {Q W}.
Arguments ap_builtin {Q W}.

Definition with_daemon {Q W} (a : App Q W) (d : ServerDaemon) (y : System) : App Q W :=
  mkApp d y (ap_registry a) (ap_dl a) (ap_plugins a) (ap_jobs a) (ap_discovered a) (ap_builtin a).
Definition with_registry {Q W} (a : App Q W) (r : Registry Q W) : App Q W :=
  mkApp (ap_daemon a) (ap_system a) r (ap_dl a) (ap_plugins a) (ap_jobs a) (ap_discovered a) (ap_builtin a).
Definition with_plugins {Q W} (a : App Q W) (dl : Dl) (pr : PluginRegistry) : App Q W :=
  mkApp (ap_daemon a) (ap_system a) (ap_registry a) dl pr (ap_jobs a) (ap_discovered a) (ap_builtin a).
Definition with_job_manager {Q W} (a : App Q W) (jm : JobManager) : App Q W :=
  mkApp (ap_daemon a) (ap_system a) (ap_registry a) (ap_dl a) (ap_plugins a) jm (ap_discovered a) (ap_builtin a).
Definition with_flags {Q W} (a : App Q W) (d b : bool) : App Q W :=
  mkApp (ap_daemon a) (ap_system a) (ap_registry a) (ap_dl a) (ap_plugins a) (ap_jobs a) d b.

(** How running a script ends. *)
Inductive lua_outcome := LuaValid | LuaInvalid (what : string) | LuaThrew (what : string).

(** What the handlers meet outside the server. *)
Record Outside (Q W : Type) := mkOutside {
  os_now : Z;
  os_daemon : daemon_env;
  os_caller : caller;
  os_port_env : option string;
  os_exists : string → bool;
  os_library : string → option Library;
  os_listing : string → option (list (string * string * bool));
  os_yaml : YamlApi;
  os_load_file : string → res yaml;
  os_resolve : string → string → res string;
  os_start : start_env Q W;
  os_stop : stop_env;
  os_meanwhile : Server Q W → Proxy → Server Q W * Proxy;
  os_moved_id : string;
  os_script : string → Ctx (string * nat) → World (Q := Q) (W := W) →
    Ctx (string * nat) * World (Q := Q) (W := W) * lua_outcome;
  os_blocked : App Q W → App Q W    (* what happens until the daemon stops *)
}.
Arguments os_now {Q W}. Arguments os_daemon {Q W}. Arguments os_caller {Q W}. Arguments os_port_env {Q W}.
Arguments os_exists {Q W}. Arguments os_library {Q W}. Arguments os_listing {Q W}. Arguments os_yaml {Q W}.
Arguments os_load_file {Q W}. Arguments os_resolve {Q W}. Arguments os_start {Q W}. Arguments os_stop {Q W}.
Arguments os_meanwhile {Q W}. Arguments os_moved_id {Q W}. Arguments os_script {Q W}. Arguments os_blocked {Q W}.

Section Handlers.
Context `{JT : JsonText} `{MQ : MessageQueue Q} `{OS : Posix W}.
Context (o : Outside Q W).
Implicit Types (a : App Q W) (params : json).

Abbreviation reply := (App Q W * res (Z * json))%type.

Definition answer a (rc : Z) (fields : list (string * json)) : reply := (a, Ok (rc, JObj (mkobj fields))).
Definition fail_with a (what : string) : reply := answer a 1 [("ok", JBool false); ("error", JStr what)].

(** [params.value(key, "")] and the rest of the handler. *)
Definition with_string a params (key dflt : string) (k : string → reply) : reply :=
  match j_value get_string params key dflt with Ok s => k s | Exn e => (a, Exn e) | Undef => (a, Undef) end.
Definition with_value {A} (get : json → res A) a params (key : string) (dflt : A) (k : A → reply) : reply :=
  match j_value get params key dflt with Ok s => k s | Exn e => (a, Exn e) | Undef => (a, Undef) end.

Definition strings (l : list string) : json := JArr (JStr <$> l).

(** ** The daemon *)

Definition DEFAULT_PORT : Z := 8555.

(** The port of the environment variable. *)
Definition configure_port (d : ServerDaemon) : ServerDaemon :=
  match os_port_env o with
  | None => d
  | Some v =>
      if empty? v then d
      else match stoi v with
           | Ok port => if bool_decide (0 < port)%Z && bool_decide (port ≤ 65535)%Z then set_rpc_port d port else d
           | _ => set_rpc_port d DEFAULT_PORT
           end
  end.

Definition handle_daemon a params : reply :=
  with_string a params "action" EmptyString (λ action,
  with_string a params "log_level" "info" (λ _,
  with_value get_bool a params "block" true (λ block,
    if bool_decide (action = "start") then
      match daemon_start (os_daemon o) (configure_port (ap_daemon a)) (ap_system a) with
      | (d, y, Ok true) =>
          let a := with_daemon a d y in
          let pid := get_daemon_pid y in
          answer (if block : bool then os_blocked o a else a) 0 [("ok", JBool true); ("pid", JInt pid)]
      | (d, y, Ok false) => fail_with (with_daemon a d y) "Failed to start daemon"
      | (d, y, Exn e) => (with_daemon a d y, Exn e)
      | (d, y, Undef) => (with_daemon a d y, Undef)
      end
    else if bool_decide (action = "stop") then
      if negb (is_already_running (ap_system a)) then
        answer a 0 [("ok", JBool true); ("message", JStr "daemon not running")]
      else
        let '(d, y, r, out) := daemon_stop (stop_all (os_stop o)) (os_caller o) (remove_ok (os_daemon o))
                                 (ap_daemon a) (ap_system a) (ap_registry a) in
        let a := with_registry (with_daemon a d y) r in
        match out with
        | Ok _ => answer a 0 [("ok", JBool true)]
        | Exn e => (a, Exn e)
        | Undef => (a, Undef)
        end
    else if bool_decide (action = "status") then
      let running := is_already_running (ap_system a) in
      answer a 0 ([("ok", JBool true); ("running", JBool running)] ++
        if running then
          let pid := get_daemon_pid (ap_system a) in
          [("pid", JInt pid); ("message", JStr ("daemon running (pid=" +:+ dec pid +:+ ")"))]
        else [("message", JStr "daemon not running")])
    else fail_with a "Unknown daemon action"))).

(** ** Instruments *)

(** The custom plugin of [handle_start] and [handle_test]: [inl] is the error
    they report, [inr] what was thrown. *)
Definition load_custom a (path : string) : App Q W * option (string + string) :=
  if empty? path then (a, None)
  else if negb (os_exists o path) then (a, Some (inl "plugin file not found"))
  else
    match new_loader (os_library o) (ap_dl a) path with
    | (dl, Ok loader) =>
        if negb (is_loaded loader) then
          (with_plugins a (destroy dl loader) (ap_plugins a), Some (inl "failed to load plugin"))
        else
          match PluginRegistry.get_metadata loader with
          | Ok m =>
              let '(dl, pr, _) := load_plugin (os_library o) dl (ap_plugins a) (pm_protocol_type m) path in
              (with_plugins a (destroy dl loader) pr, None)
          | Exn e => (with_plugins a (destroy dl loader) (ap_plugins a), Some (inr e))
          | Undef => (with_plugins a (destroy dl loader) (ap_plugins a), Some (inr EmptyString))
          end
    | (dl, Exn e) => (with_plugins a dl (ap_plugins a), Some (inr e))
    | (dl, Undef) => (with_plugins a dl (ap_plugins a), Some (inr EmptyString))
    end.

Definition exception_text (e : string) : string := "exception: " +:+ e.

Definition create a (config_path : string) : App Q W * res bool :=
  let '(r, ok) := create_instrument (os_yaml o) (os_load_file o) (os_resolve o)
                    (get_plugin_path (ap_plugins a)) (os_start o) (ap_registry a) config_path in
  (with_registry a r, ok).

(** The two handlers that create an instrument, from the plugin on; [k] is what
    they do with it. *)
Definition after_create a (plugin config_path : string) (k : App Q W → reply) : reply :=
  match load_custom a plugin with
  | (a, Some (inl e)) => fail_with a e
  | (a, Some (inr e)) => fail_with a (exception_text e)
  | (a, None) =>
      match create a config_path with
      | (a, Ok true) => k a
      | (a, Ok false) => fail_with a "failed to create instrument"
      | (a, Exn e) => fail_with a (exception_text e)
      | (a, Undef) => (a, Undef)
      end
  end.

Definition handle_start a params : reply :=
  with_string a params "config_path" EmptyString (λ config_path,
  with_string a params "plugin" EmptyString (λ custom_plugin,
  with_string a params "log_level" "info" (λ _,
    if empty? config_path then fail_with a "missing config_path"
    else
      after_create a custom_plugin config_path (λ a,
        answer a 0 ([("ok", JBool true)] ++
          match last (list_instruments (ap_registry a)) with
          | Some name => [("instrument", JStr name)]
          | None => []
          end))))).

Definition handle_stop a params : reply :=
  with_string a params "name" EmptyString (λ name,
    if empty? name then fail_with a "missing name"
    else if negb (has_instrument (ap_registry a) name) then fail_with a "instrument not found"
    else answer (with_registry a (remove_instrument (os_stop o) (ap_registry a) name)) 0 [("ok", JBool true)]).

Definition stats_json (s : Stats) : json :=
  JObj (mkobj [("commands_sent", JInt (commands_sent s)); ("commands_completed", JInt (commands_completed s));
               ("commands_failed", JInt (commands_failed s)); ("commands_timeout", JInt (commands_timeout s))]).

Definition handle_status a params : reply :=
  with_string a params "name" EmptyString (λ name,
    if empty? name then fail_with a "missing name"
    else
      match get_instrument (ap_registry a) name with
      | None => fail_with a "instrument not found"
      | Some p =>
          let r := ap_registry a in
          let '(sv, alive) := proxy_is_alive (rg_server r) p in
          answer (with_registry a (mkRegistry sv (instruments_ r) (metadata_ r))) 0
            [("ok", JBool true); ("name", JStr name); ("alive", JBool alive);
             ("stats", stats_json (get_stats p))]
      end).

Definition handle_list a params : reply :=
  answer a 0 [("ok", JBool true); ("instruments", strings (list_instruments (ap_registry a)))].

(** ** Scripts *)

Definition param_value_json (v : ParamValue) : json :=
  match v with
  | PDouble d => JFloat d
  | PInt i => JInt i
  | PString s => JStr s
  | PBool b => JBool b
  | PArray l => JArr (JFloat <$> l)
  end.

(** Stays null without parameters. *)
Definition measure_params (m : gmap string ParamValue) : json :=
  match map_to_list m with
  | [] => JNull
  | kvs => JObj (mkobj ((λ kv, (kv.1, param_value_json kv.2)) <$> kvs))
  end.

Definition measure_return (r : CallResult) : json :=
  if cr_has_large_data r then
    JObj (mkobj [("type", JStr "buffer"); ("buffer_id", JStr (cr_buffer_id r));
                 ("element_count", JInt (cr_element_count r)); ("data_type", JStr (cr_data_type r))])
  else
    match cr_return_value r with
    | None => JNull
    | Some v =>
        JObj (mkobj ([("type", JStr (cr_return_type r))] ++
          match v with PArray _ => [] | _ => [("value", param_value_json v)] end))
    end.

Definition measure_row (i : nat) (r : CallResult) : json :=
  JObj (mkobj [("index", JInt (Z.of_nat i)); ("instrument", JStr (cr_instrument_name r));
               ("verb", JStr (cr_verb r)); ("params", measure_params (cr_params r));
               ("executed_at_ms", JInt (Z.quot (cr_executed_at r) 1000000)); ("return", measure_return r)]).

(** [path::filename]: what follows the last slash. *)
Definition filename (p : string) : string :=
  of_chars (foldl (λ acc c, if bool_decide (c = "/"%char) then [] else acc ++ [c]) [] (chars p)).

Definition handle_measure a params : reply :=
  with_string a params "script_path" EmptyString (λ script_path,
  with_string a params "log_level" "info" (λ _,
  with_value get_bool a params "json" false (λ _,
    if empty? script_path then fail_with a "missing script_path"
    else
      match list_instruments (ap_registry a) with
      | [] => fail_with a "no instruments running"
      | _ =>
          let '(ctx, wd) := bind_local false (mkWorld (ap_registry a) ∅ []) in
          let '(ctx, wd, outcome) := os_script o script_path ctx wd in
          let a := with_registry a (wd_registry wd) in
          match outcome with
          | LuaInvalid what => fail_with a what
          | LuaThrew what => fail_with a (exception_text what)
          | LuaValid =>
              answer a 0 [("ok", JBool true); ("script", JStr (filename script_path));
                          ("results", JArr (imap measure_row (collected_results_ ctx)))]
          end
      end))).

(** ** Trying an instrument *)

Definition test_param (v : json) : res ParamValue :=
  match v with
  | JInt _ => i ← get_int64 v; Ok (PInt i)
  | JFloat d => Ok (PDouble d)
  | JBool b => Ok (PBool b)
  | JStr s => Ok (PString s)
  | _ => s ← dump v; Ok (PString s)
  end.

(** Only objects have keys. *)
Definition test_params (v : json) : res (gmap string ParamValue) :=
  match v with
  | JObj kvs => res_foldl (λ m kv, p ← test_param kv.2; Ok (<[kv.1 := p]> m)) ∅ kvs
  | JNull | JArr [] => Ok ∅
  | _ => Exn "cannot use key() for non-object iterators"
  end.

Definition test_return (resp : CommandResponse) : list (string * json) :=
  if resp_success resp then
    match resp_return_value resp with
    | Some (PArray _) | None => []
    | Some v => [("return_value", param_value_json v)]
    end
  else [].

(** The part of [handle_test] with an instrument in hand. *)
Definition run_test a (name verb : string) (param_values : json) : reply :=
  match get_instrument (ap_registry a) name, test_params param_values with
  | None, _ => fail_with (with_registry a (remove_instrument (os_stop o) (ap_registry a) name))
                 "failed to get instrument proxy"
  | Some _, Ok ps =>
      let cmd := mkCommand "rpc-test-cmd" name verb ps true 5000 0 None false in
      match reg_execute_sync (os_meanwhile o) (os_moved_id o) (ap_registry a) name cmd with
      | Some (r, Ok resp) =>
          answer (with_registry a (remove_instrument (os_stop o) r name))
            (if resp_success resp then 0 else 1)
            ([("ok", JBool (resp_success resp)); ("success", JBool (resp_success resp));
              ("error_message", JStr (resp_error_message resp));
              ("text_response", JStr (resp_text_response resp))] ++ test_return resp)
      | Some (r, Exn e) => fail_with (with_registry a r) (exception_text e)
      | Some (r, Undef) => (with_registry a r, Undef)
      | None => (a, Undef)
      end
  | Some _, Exn e => fail_with a (exception_text e)
  | Some _, Undef => (a, Undef)
  end.

Definition handle_test a params : reply :=
  with_string a params "config_path" EmptyString (λ config_path,
  with_string a params "verb" EmptyString (λ verb,
  with_string a params "plugin" EmptyString (λ custom_plugin,
  with_string a params "log_level" "info" (λ _,
  with_value Ok a params "params" (JObj []) (λ param_values,
    if empty? config_path || empty? verb then fail_with a "missing config_path or verb"
    else
      after_create a custom_plugin config_path (λ a,
        match last (list_instruments (ap_registry a)) with
        | None => fail_with a "no instrument created"
        | Some name => run_test a name verb param_values
        end)))))).

(** ** Plugins *)

Definition plugin_dirs : list string :=
  ["/usr/local/lib/instrument-plugins"; "/usr/lib/instrument-plugins"; "./plugins"; "."].

Definition search_paths_of params : res (list string) :=
  match params with
  | JObj kvs => match obj_get "paths" kvs with Some (JArr l) => res_map get_string l | _ => Ok plugin_dirs end
  | _ => Ok plugin_dirs
  end.

Definition load_builtins a : App Q W :=
  let '(dl, pr) := load_builtin_plugins (os_library o) (os_exists o) (ap_dl a) (ap_plugins a) in
  with_plugins a dl pr.

Definition discover a (paths : list string) : App Q W :=
  let '(dl, pr) := discover_plugins (os_library o) (os_listing o) (ap_dl a) (ap_plugins a) paths in
  with_plugins a dl pr.

Definition handle_discover a params : reply :=
  match search_paths_of params with
  | Ok paths =>
      let a := if ap_discovered a then a
               else with_flags (discover (load_builtins a) paths) true (ap_builtin a) in
      let a := discover a paths in
      answer a 0 [("ok", JBool true); ("protocols", strings (list_protocols (ap_plugins a)));
                  ("paths", strings paths)]
  | Exn e => (a, Exn e)
  | Undef => (a, Undef)
  end.

Definition handle_plugins a params : reply :=
  let a := if ap_builtin a then a else with_flags (load_builtins a) (ap_discovered a) true in
  let a := discover a plugin_dirs in
  let protocols := list_protocols (ap_plugins a) in
  answer a 0 [("ok", JBool true);
    ("plugins", JArr ((λ p, JObj (mkobj [("protocol", JStr p); ("path", JStr (get_plugin_path (ap_plugins a) p))]))
                      <$> protocols));
    ("total", JInt (Z.of_nat (length protocols)))].

(** ** Jobs *)

Definition handle_submit_job a params : reply :=
  with_string a params "job_type" EmptyString (λ job_type,
  with_value Ok a params "params" (JObj []) (λ job_params,
    if empty? job_type then fail_with a "missing job_type"
    else
      let '(jm, jid) := submit_job (os_now o) (ap_jobs a) job_type job_params in
      answer (with_job_manager a jm) 0 [("ok", JBool true); ("job_id", JStr jid)])).

Definition handle_submit_measure a params : reply :=
  with_string a params "script_path" EmptyString (λ script_path,
    if empty? script_path then fail_with a "missing script_path"
    else
      match submit_measure (os_now o) (ap_jobs a) script_path params with
      | Ok (jm, jid) => answer (with_job_manager a jm) 0 [("ok", JBool true); ("job_id", JStr jid)]
      | Exn e => (a, Exn e)
      | Undef => (a, Undef)
      end).

Definition status_in (s : string) (l : list string) : bool := bool_decide (s ∈ l).

Definition handle_job_status a params : reply :=
  with_string a params "job_id" EmptyString (λ jid,
    if empty? jid then fail_with a "missing job_id"
    else
      match get_job_info (ap_jobs a) jid with
      | None => fail_with a "job not found"
      | Some info =>
          answer a 0 ([("ok", JBool true); ("job_id", JStr (job_id info)); ("status", JStr (job_status info));
                       ("created_at", JInt (job_created_at info))] ++
            (if status_in (job_status info) ["running"; "completed"; "failed"; "canceled"]
             then [("started_at", JInt (job_started_at info))] else []) ++
            (if status_in (job_status info) ["completed"; "failed"; "canceled"]
             then [("finished_at", JInt (job_finished_at info))] else []))
      end).

(** The two critical sections see the same table here. *)
Definition handle_job_result a params : reply :=
  with_string a params "job_id" EmptyString (λ jid,
    if empty? jid then fail_with a "missing job_id"
    else
      match get_job_result (ap_jobs a) jid with
      | Some result => answer a 0 [("ok", JBool true); ("result", result)]
      | None =>
          match get_job_info (ap_jobs a) jid with
          | None => fail_with a "job not found"
          | Some info =>
              if negb (bool_decide (job_status info = "completed")) then
                answer a 1 ([("ok", JBool false); ("error", JStr "job not completed");
                             ("status", JStr (job_status info))] ++
                            if empty? (job_error info) then [] else [("error_detail", JStr (job_error info))])
              else fail_with a "no result available"
          end
      end).

Definition handle_job_list a params : reply :=
  answer a 0 [("ok", JBool true);
    ("jobs", JArr ((λ j, JObj (mkobj [("job_id", JStr (job_id j)); ("type", JStr (job_type j));
                                      ("status", JStr (job_status j));
                                      ("created_at", JInt (job_created_at j))])) <$> list_jobs (ap_jobs a)))].

Definition handle_job_cancel a params : reply :=
  with_string a params "job_id" EmptyString (λ jid,
    if empty? jid then fail_with a "missing job_id"
    else
      let '(jm, ok) := cancel_job (os_now o) (ap_jobs a) jid in
      answer (with_job_manager a jm) (if ok then 0 else 1)
        ([("ok", JBool ok)] ++
         if ok then [] else [("error", JStr "failed to cancel job (maybe already finished)")])).

(** ** Which instrument the handlers pick *)

Definition names_of a : gset string := dom (instruments_ (ap_registry a)).

(** The lexicographically greatest of the names. *)
Definition greatest (X : gset string) (m : string) : Prop := m ∈ X ∧ ∀ n, n ∈ X → String.le n m.

Lemma load_custom_registry a path : ap_registry (load_custom a path).1 = ap_registry a.
Proof.
  unfold load_custom. case_bool_decide; [done|]. destruct (os_exists o path); [|done]. cbn [negb].
  destruct (new_loader _ _ _) as [dl [l|e|]]; [|done..]. destruct (is_loaded l); [|done]. cbn [negb].
  destruct (PluginRegistry.get_metadata l); [|done..]. by destruct (load_plugin _ _ _ _ _) as [[? ?] ?].
Qed.

Lemma create_names a path a' :
  create a path = (a', Ok true) → ∃ n, (n ∉ names_of a) ∧ names_of a' = {[n]} ∪ names_of a.
Proof.
  unfold create, create_instrument. intros H.
  destruct (config_yaml ← _; _) as [[[name cj] aj]|e|]; [|done..].
  pose proof (create_cases (get_plugin_path (ap_plugins a)) (os_start o) (ap_registry a) name cj aj) as Hc.
  destruct (create_instrument_from_json _ _ _ _ _ _) as [rg' [[]|e|]]; try done.
  injection H as <-. destruct Hc as (Hn & p & c & d & _ & _ & _ & _ & Hi & _).
  exists name. unfold names_of. cbn. rewrite Hi, dom_insert_L. split; [by apply not_elem_of_dom|done].
Qed.

Lemma last_greatest a m : last (list_instruments (ap_registry a)) = Some m → greatest (names_of a) m.
Proof.
  intros Hl. split.
  - apply elem_of_sorted_elements. apply last_Some in Hl as [l Hl].
    unfold list_instruments, sorted_keys in Hl. unfold names_of. rewrite Hl. set_solver.
  - intros n Hn. by apply (sorted_last_max (names_of a)).
Qed.

Lemma remove_names env r name :
  dom (instruments_ (remove_instrument env r name)) = dom (instruments_ r) ∖ {[name]}.
Proof.
  unfold remove_instrument. destruct (instruments_ r !! name) as [p|] eqn:E.
  - destruct (Proxy.stop _ _ _ _). cbn. apply dom_delete_L.
  - apply not_elem_of_dom in E. set_solver.
Qed.

Lemma reg_execute_sync_names mw mv (r : Registry Q W) name cmd r' out :
  reg_execute_sync mw mv r name cmd = Some (r', out) → dom (instruments_ r') = dom (instruments_ r).
Proof.
  unfold reg_execute_sync, get_instrument. destruct (instruments_ r !! name) as [p|] eqn:E; [|done].
  assert (∀ sv q, dom (instruments_ (with_proxy r sv name q)) = dom (instruments_ r)) as Hd.
  { intros sv q. cbn. apply dom_insert_lookup_L. eauto. }
  destruct (Proxy.execute _ _ _) as [[sv q] [f| |]]; [|by intros [= <- _]..].
  destruct (mw sv q) as [sv' q']. destruct (execute_sync_result q' f mv). by intros [= <- _].
Qed.

Lemma greatest_new X n m :
  (n ∉ X) → greatest ({[n]} ∪ X) m → ((∀ x, x ∈ X → String.le x n) ↔ ({[n]} ∪ X) ∖ {[m]} = X).
Proof.
  intros Hn [Hm Hmax]. split.
  - intros Hle. assert (m = n) as ->; [|set_solver]. apply elem_of_union in Hm as [Hm|Hm]; [set_solver|].
    apply (anti_symm String.le); [by apply Hle|apply Hmax; set_solver].
  - intros Heq x Hx. assert (m = n) as <- by set_solver. apply Hmax. set_solver.
Qed.

(** A reply that is no failure went through the creation. *)
Lemma after_create_inv a plugin path k a' rc out :
  after_create a plugin path k = (a', Ok (rc, out)) → contains out "error" = false →
  ∃ a1 n, (n ∉ names_of a) ∧ names_of a1 = {[n]} ∪ names_of a ∧ k a1 = (a', Ok (rc, out)).
Proof.
  intros H He. assert (∀ a e, fail_with a e ≠ (a', Ok (rc, out))) as Hf.
  { intros a1 e [= _ _ <-]. done. }
  unfold after_create in H. pose proof (load_custom_registry a plugin) as Hr.
  destruct (load_custom a plugin) as [a1 [[e|e]|]]; [by apply Hf in H..|]. cbn in Hr.
  destruct (create a1 path) as [a2 [[]| |]] eqn:Hc; [|by apply Hf in H..|done].
  destruct (create_names a1 path a2 Hc) as (n & Hn & Hdom). unfold names_of in *. rewrite Hr in *.
  by exists a2, n.
Qed.

Lemma with_value_inv {A} (get : json → res A) a params key dflt k a' rc out :
  with_value get a params key dflt k = (a', Ok (rc, out)) → ∃ v, k v = (a', Ok (rc, out)).
Proof. unfold with_value. destruct (j_value get params key dflt); naive_solver. Qed.

Lemma with_string_inv a params key dflt k a' rc out :
  with_string a params key dflt k = (a', Ok (rc, out)) → ∃ v, k v = (a', Ok (rc, out)).
Proof. apply with_value_inv. Qed.

Lemma fail_with_inv a e a' rc out : fail_with a e = (a', Ok (rc, out)) → contains out "error" = false → False.
Proof. by intros [= _ _ <-]. Qed.

Lemma run_test_names a name verb ps a' rc out :
  run_test a name verb ps = (a', Ok (rc, out)) → contains out "error" = false →
  names_of a' = names_of a ∖ {[name]}.
Proof.
  intros H He. unfold run_test in H. destruct (get_instrument _ _); [|by edestruct fail_with_inv].
  destruct (test_params ps) as [m| |]; [|by edestruct fail_with_inv|done].
  destruct (reg_execute_sync _ _ _ _ _) as [[r [resp| |]]|] eqn:Hx; [|by edestruct fail_with_inv|done..].
  injection H as <- _ _. unfold names_of. cbn. rewrite remove_names.
  by rewrite (reg_execute_sync_names _ _ _ _ _ _ _ Hx).
Qed.

(** Starting and testing an instrument through a request pick the
    lexicographically last instrument, not the one just created.  A successful
    start adds one new instrument and reports the greatest name there is.  A test
    that runs to its end adds a new instrument and then removes the greatest
    name: the server is left as it was just if no other instrument's name sorts
    after the new one; otherwise that other one is gone and the new one stays. *)
Theorem handlers_pick_last a params a' rc out :
  contains out "error" = false →
  (handle_start a params = (a', Ok (rc, out)) →
   ∃ n m, (n ∉ names_of a) ∧ names_of a' = {[n]} ∪ names_of a ∧ greatest (names_of a') m ∧
     out = JObj (mkobj [("ok", JBool true); ("instrument", JStr m)])) ∧
  (handle_test a params = (a', Ok (rc, out)) →
   ∃ n m, (n ∉ names_of a) ∧ greatest ({[n]} ∪ names_of a) m ∧
     names_of a' = ({[n]} ∪ names_of a) ∖ {[m]} ∧
     ((∀ x, x ∈ names_of a → String.le x n) ↔ names_of a' = names_of a)).
Proof.
  intros He. split; intros H; unfold handle_start, handle_test in H.
  - apply with_string_inv in H as [path H]. apply with_string_inv in H as [plugin H].
    apply with_string_inv in H as [_ H]. case_bool_decide; [by edestruct fail_with_inv|].
    apply after_create_inv in H as (a1 & n & Hn & Hd & H); [|done].
    destruct (last (list_instruments (ap_registry a1))) as [m|] eqn:Hl.
    + injection H as <- _ <-. exists n, m. split_and!; [done|done|by apply last_greatest|done].
    + exfalso. apply last_None in Hl. apply sorted_elements_nil in Hl. unfold names_of in Hd. set_solver.
  - apply with_string_inv in H as [path H]. apply with_string_inv in H as [verb H].
    apply with_string_inv in H as [plugin H]. apply with_string_inv in H as [_ H].
    apply with_value_inv in H as [ps H].
    destruct (_ || _); [by edestruct fail_with_inv|].
    apply after_create_inv in H as (a1 & n & Hn & Hd & H); [|done].
    destruct (last (list_instruments (ap_registry a1))) as [m|] eqn:Hl; [|by edestruct fail_with_inv].
    apply last_greatest in Hl. rewrite Hd in Hl. apply run_test_names in H; [|done]. rewrite Hd in H.
    exists n, m. split_and!; [done|done|done|]. rewrite H. by apply greatest_new.
Qed.

End Handlers.

(** ** A test beside a running instrument *)

Section Samples.
#[local] Existing Instance SampleText.sample_text.
#[local] Existing Instance ListPosix.list_posix.

(** The configuration of a second instrument, and its API. *)
Definition sample_file (path : string) : res yaml :=
  if bool_decide (path = "afg1.yaml") then
    Ok (YMap [(YScalar "name", YScalar "AFG1"); (YScalar "api_ref", YScalar "afg.yaml")])
  else if bool_decide (path = "/apis/afg.yaml") then
    Ok (YMap [(YScalar "protocol", YMap [(YScalar "type", YScalar "VISA")])])
  else Exn "bad file".

Definition sample_outside : Outside ListQueue.listq ListPosix.world :=
  mkOutside _ _ 0 taken_port ByOtherThread None (λ _, false) (λ _, None) (λ _, None) plain_yaml sample_file
    (λ r _, Ok ("/apis/" +:+ r)) sample_env (0%Z, []) (λ sv p, (sv, p)) EmptyString
    (λ _ c r, (c, r, LuaValid)) (λ a, a).

Definition sample_app : App ListQueue.listq ListPosix.world :=
  mkApp new_daemon sample_system Registry.sample_created.1 empty_dl
    (mkPluginRegistry ∅ {["VISA" := "visa_plugin.so"]}) new_job_manager false false.

Definition sample_request : json := JObj (mkobj [("config_path", JStr "afg1.yaml"); ("verb", JStr "IDN")]).

Definition sample_reply : App ListQueue.listq ListPosix.world * res (Z * json) :=
  handle_test sample_outside sample_app sample_request.
Definition sample_out : Z * json := match sample_reply.2 with Ok r => r | _ => (0%Z, JNull) end.

(** "DMM1" was running; after the test of "AFG1" it is gone and "AFG1" stays. *)
Lemma handlers_pick_last_witness :
  names_of sample_app = {["DMM1"]} ∧ names_of sample_reply.1 = {["AFG1"]} ∧
  ∃ n m, (n ∉ names_of sample_app) ∧ greatest ({[n]} ∪ names_of sample_app) m ∧
    names_of sample_reply.1 = ({[n]} ∪ names_of sample_app) ∖ {[m]}.
Proof.
  split; [vm_compute; reflexivity|]. split; [vm_compute; reflexivity|].
  destruct (handlers_pick_last sample_outside sample_app sample_request sample_reply.1 sample_out.1
    sample_out.2) as [_ H]; [vm_compute; reflexivity|].
  assert (sample_reply.2 = Ok (sample_out.1, sample_out.2)) as E by (vm_compute; reflexivity).
  destruct H as (n & m & H1 & H2 & H3 & _); [rewrite <-E; apply surjective_pairing|].
  exists n, m. exact (conj H1 (conj H2 H3)).
Defined.

End Samples.
