(* ===== verification/Http.v ===== *)
(** * Requests over HTTP

    Model of the request handling of [HttpRpcServer] (src/src/server/HttpRpcServer.cpp;
    the life of the server is in Daemon.v).  A connection is the bytes the client
    sends before it closes or fails, with the number of bytes each [recv] hands
    over: the network may split them anywhere. *)

From S2P Require Import Prelude Text Json SerializedCommand Ipc ProcessManager Proxy Registry CommandHandlers.
From Stdlib Require Import Lia.

(** ** Sockets *)

Record Conn := mkConn {
  incoming : list ascii;
  grants : list nat
}.

(** [recv] of up to [n] bytes: at least one while there are any; nothing stands
    for a result of zero or less. *)
Definition recv (n : nat) (c : Conn) : list ascii * Conn :=
  let k := Nat.min n (Nat.max 1 (default n (head (grants c)))) in
  (take k (incoming c), mkConn (drop k (incoming c)) (tail (grants c))).

(** Every round reads a byte or ends the loop: [n] rounds are enough. *)
Fixpoint read_loop (fuel n : nat) (c : Conn) : Conn * option (list ascii) :=
  match n with
  | 0 => (c, Some [])
  | _ =>
      match fuel with
      | 0 => (c, None)
      | S fuel =>
          match recv n c with
          | ([], c) => (c, None)
          | (got, c) => let '(c, r) := read_loop fuel (n - length got) c in (c, (got ++.) <$> r)
          end
      end
  end.
Definition read_n (n : nat) (c : Conn) : Conn * option (list ascii) := read_loop n n c.

Definition MAX_HEADER_READ : Z := 64 * 1024.
Definition BLANK_LINE : list ascii := [CR; LF; CR; LF].

(** The headers with their blank line, and what was read beyond them. *)
Fixpoint headers_loop (fuel : nat) (acc : list ascii) (c : Conn) : Conn * option (list ascii * list ascii) :=
  if bool_decide (Z.of_nat (length acc) < MAX_HEADER_READ)%Z then
    match fuel with
    | 0 => (c, None)
    | S fuel =>
        match recv 1024 c with
        | ([], c) => (c, None)
        | (got, c) =>
            let acc := acc ++ got in
            match find BLANK_LINE acc with
            | Some pos => (c, Some (take (pos + 4) acc, drop (pos + 4) acc))
            | None => headers_loop fuel acc c
            end
        end
    end
  else (c, None).
Definition read_http_headers (c : Conn) : Conn * option (list ascii * list ascii) :=
  headers_loop (S (length (incoming c))) [] c.

(** ** Parsing *)

Definition CONTENT_LENGTH : list ascii := chars "content-length:".

Fixpoint length_in_lines (lines : list (list ascii)) : Z :=
  match lines with
  | [] => -1
  | line :: lines =>
      let line := strip_cr line in
      match find CONTENT_LENGTH (lower <$> line) with
      | Some pos =>
          match stoi (of_chars (skip_spaces (drop (pos + length CONTENT_LENGTH) line))) with
          | Ok v => v
          | _ => -1
          end
      | None => length_in_lines lines
      end
  end.
Definition parse_content_length (headers : list ascii) : Z := length_in_lines (getlines headers).

Record Request := mkRequest {
  rq_method : string;
  rq_path : string;
  rq_body : string
}.

(** The first two words of the request line. *)
Definition method_and_path (headers : list ascii) : string * string :=
  let line := strip_cr (default [] (head (getlines headers))) in
  let '(method, rest) := next_word line in
  let '(path, _) := next_word rest in
  (of_chars method, of_chars path).

(** [Ok None]: the connection is closed without an answer.  The subtraction is
    unsigned; storing past the end of the resized body is undefined. *)
Definition read_request (c : Conn) : Conn * res (option Request) :=
  match read_http_headers c with
  | (c, None) => (c, Ok None)
  | (c, Some (headers, extra_data)) =>
      let '(method, path) := method_and_path headers in
      let content_len := parse_content_length headers in
      if bool_decide (0 < content_len)%Z then
        let size := Z.of_nat (length extra_data) in
        let remaining := wrap64 (content_len - size) in
        if bool_decide (0 < remaining)%Z then
          if bool_decide (content_len < size)%Z then (c, Undef)
          else
            match read_n (Z.to_nat remaining) c with
            | (c, Some rest) => (c, Ok (Some (mkRequest method path (of_chars (extra_data ++ rest)))))
            | (c, None) => (c, Ok None)
            end
        else (c, Ok (Some (mkRequest method path (of_chars extra_data))))
      else (c, Ok (Some (mkRequest method path EmptyString)))
  end.

(** ** Answering *)

Definition crlf : string := of_chars [CR; LF].

Definition response_text (status : Z) (body : string) : string :=
  "HTTP/1.0 " +:+ dec status +:+ " " +:+ crlf +:+
  "Content-Type: application/json" +:+ crlf +:+
  "Content-Length: " +:+ dec (Z.of_nat (length (chars body))) +:+ crlf +:+
  "Connection: close" +:+ crlf +:+ crlf +:+ body.

(** The bytes that get out; [ws] are the results of [send], all the rest when
    the list ends. *)
Fixpoint send_loop (ws : list Z) (s : list ascii) : list ascii :=
  match s, ws with
  | [], _ => []
  | _, [] => s
  | _, w :: ws =>
      if bool_decide (w ≤ 0)%Z then [] else take (Z.to_nat w) s ++ send_loop ws (drop (Z.to_nat w) s)
  end.
Definition send_http_response (ws : list Z) (status : Z) (body : string) : list ascii :=
  send_loop ws (chars (response_text status body)).

Section Rpc.
Context `{JT : JsonText} `{MQ : MessageQueue Q} `{OS : Posix W}.
Context (o : Outside Q W).
Implicit Types (a : App Q W).

Definition unknown_command a (params : json) : App Q W * res (Z * json) := fail_with a "unknown command".

Definition handlers : list (string * (App Q W → json → App Q W * res (Z * json))) :=
  [("list", handle_list); ("status", handle_status); ("start", handle_start o); ("stop", handle_stop o);
   ("daemon", handle_daemon o); ("measure", handle_measure o); ("test", handle_test o);
   ("discover", handle_discover o); ("plugins", handle_plugins o); ("submit_job", handle_submit_job o);
   ("submit_measure", handle_submit_measure o); ("job_status", handle_job_status);
   ("job_result", handle_job_result); ("job_list", handle_job_list); ("job_cancel", handle_job_cancel o)].

(** The [else if] chain. *)
Fixpoint handler_for (command : string)
  (hs : list (string * (App Q W → json → App Q W * res (Z * json))))
  : App Q W → json → App Q W * res (Z * json) :=
  match hs with
  | [] => unknown_command
  | (name, h) :: hs => if bool_decide (command = name) then h else handler_for command hs
  end.

Definition not_supported : json :=
  JObj (mkobj [("ok", JBool false); ("error", JStr "Only POST /rpc is supported")]).

Definition error_json (what : string) : json :=
  JObj (mkobj [("ok", JBool false); ("error", JStr ("exception: " +:+ what))]).

(** Status and body; an exception out of the [catch] block ends the server. *)
Definition error_reply a (what : string) : App Q W * res (Z * string) :=
  match dump (error_json what) with Ok s => (a, Ok (500%Z, s)) | _ => (a, Undef) end.

Definition answer_request a (rq : Request) : App Q W * res (Z * string) :=
  if negb (bool_decide (rq_method rq = "POST") &&
           (bool_decide (rq_path rq = "/rpc") || bool_decide (rq_path rq = "/rpc/"))) then
    match dump not_supported with Ok s => (a, Ok (404%Z, s)) | _ => (a, Undef) end
  else
    match (req ← parse (rq_body rq);
           command ← j_value get_string req "command" EmptyString;
           params ← j_value Ok req "params" (JObj []); Ok (command, params)) with
    | Ok (command, params) =>
        match handler_for command handlers a params with
        | (a, Ok (rc, resp)) =>
            match dump resp with
            | Ok s => (a, Ok (if bool_decide (rc = 0%Z) then 200%Z else 500%Z, s))
            | Exn e => error_reply a e
            | Undef => (a, Undef)
            end
        | (a, Exn e) => error_reply a e
        | (a, Undef) => (a, Undef)
        end
    | Exn e => error_reply a e
    | Undef => (a, Undef)
    end.

(** One round of the accept loop with a client: what the client gets. *)
Definition serve_client a (c : Conn) (ws : list Z) : App Q W * res (list ascii) :=
  match (read_request c).2 with
  | Ok None => (a, Ok [])
  | Ok (Some rq) =>
      match answer_request a rq with
      | (a, Ok (status, body)) => (a, Ok (send_http_response ws status body))
      | (a, Exn e) => (a, Exn e)
      | (a, Undef) => (a, Undef)
      end
  | Exn e => (a, Exn e)
  | Undef => (a, Undef)
  end.

(** A round of the accept loop: what the loop test reads of [running_], what
    [accept] gives (a client, with how [send] will take the bytes, or an error),
    and what [running_] is after an error. *)
Record round := mkRound {
  rd_running : bool;
  rd_client : option (Conn * list Z);
  rd_still_running : bool
}.

(** Whether the loop goes on, has ended, or took the process with it. *)
Inductive accept_status := Accepting | AcceptEnded | AcceptCrashed.

(** The loop, for the rounds given: what each client got, in order. *)
Fixpoint accept_loop a (rounds : list round) : App Q W * list (list ascii) * accept_status :=
  match rounds with
  | [] => (a, [], Accepting)
  | rd :: rounds =>
      if negb (rd_running rd) then (a, [], AcceptEnded)
      else
        match rd_client rd with
        | None => if negb (rd_still_running rd) then (a, [], AcceptEnded) else accept_loop a rounds
        | Some (c, ws) =>
            match serve_client a c ws with
            | (a, Ok out) => let '(a, outs, st) := accept_loop a rounds in (a, out :: outs, st)
            | (a, _) => (a, [], AcceptCrashed)
            end
        end
  end.

End Rpc.

(** ** Facts about finding *)

Lemma starts_with_app p l m : starts_with p l = true → starts_with p (l ++ m) = true.
Proof.
  revert l. induction p as [|x p IH]; intros [|y l]; cbn; try done.
  intros [-> H]%andb_true_iff. by apply IH.
Qed.

Lemma starts_with_length p l : starts_with p l = true → length p ≤ length l.
Proof.
  revert l. induction p as [|x p IH]; intros [|y l]; cbn; try done; [lia|].
  intros [_ H]%andb_true_iff. apply IH in H. lia.
Qed.

(** An occurrence in a text is one in every prefix that covers it, and in no
    shorter one. *)
Lemma find_bound p l n : find p l = Some n → n + length p ≤ length l.
Proof.
  revert n. induction l as [|c l IH]; intros n; cbn [find].
  - destruct (starts_with p []) eqn:E; [|done]. intros [= <-]. by apply starts_with_length in E.
  - destruct (starts_with p (c :: l)) eqn:E.
    + intros [= <-]. by apply starts_with_length in E.
    + destruct (find p l) as [k|]; [|done]. intros [= <-]. specialize (IH k eq_refl). cbn. lia.
Qed.

Lemma starts_with_prefix p l m :
  length p ≤ length l → starts_with p (l ++ m) = true → starts_with p l = true.
Proof.
  revert l. induction p as [|x p IH]; intros [|y l]; cbn; try done; [lia|].
  intros Hl [-> H]%andb_true_iff. apply IH; [lia|done].
Qed.

Lemma find_prefix p l m n :
  find p (l ++ m) = Some n → find p l = if bool_decide (n + length p ≤ length l) then Some n else None.
Proof.
  revert n. induction l as [|c l IH]; intros n H.
  - cbn. case_bool_decide as Hn.
    + destruct p; [|cbn in Hn; lia]. cbn in *. assert (n = 0) as -> by lia. done.
    + destruct p; [|done]. destruct m; cbn in *; naive_solver lia.
  - cbn [find app] in *. destruct (starts_with p (c :: l ++ m)) eqn:E.
    + injection H as <-. case_bool_decide as Hn.
      * by rewrite (starts_with_prefix p (c :: l) m) by done.
      * destruct (starts_with p (c :: l)) eqn:E2; [by apply starts_with_length in E2|].
        destruct (find p l) as [k|] eqn:E3; [|done]. apply find_bound in E3. cbn in Hn. lia.
    + destruct (find p (l ++ m)) as [k|] eqn:E3; [|done]. injection H as <-. rewrite (IH k eq_refl).
      destruct (starts_with p (c :: l)) eqn:E2; [apply (starts_with_app _ _ m) in E2; cbn in E2; congruence|].
      repeat case_bool_decide; cbn in *; done || lia.
Qed.

Lemma find_extend p l m n : find p l = Some n → find p (l ++ m) = Some n.
Proof.
  revert n. induction l as [|c l IH]; intros n; cbn [find app].
  - destruct p; [|done]. by destruct m.
  - destruct (starts_with p (c :: l)) eqn:E.
    + intros [= <-]. apply (starts_with_app _ _ m) in E. cbn [app] in E. by rewrite E.
    + destruct (find p l) as [k|] eqn:Hk; [|done]. intros [= <-]. rewrite (IH k) by done.
      destruct (starts_with p (c :: l ++ m)) eqn:E2; [|done]. exfalso.
      apply find_bound in Hk. apply (starts_with_prefix p (c :: l) m) in E2; [congruence|cbn; lia].
Qed.

(** ** Facts about reading *)

Lemma recv_spec n c :
  0 < n → incoming c ≠ [] →
  ∃ x got, recv n c = (x :: got, mkConn (drop (S (length got)) (incoming c)) (tail (grants c))) ∧
    incoming c = (x :: got) ++ drop (S (length got)) (incoming c) ∧ S (length got) ≤ n.
Proof.
  intros Hn Hne. unfold recv. set (k := Nat.min n _).
  assert (0 < k ≤ n) as Hk by (unfold k; lia). destruct k as [|k]; [lia|].
  destruct (incoming c) as [|x l] eqn:E; [done|]. cbn [take drop]. exists x, (take k l).
  rewrite length_take. cbn [drop app].
  assert (drop (Nat.min k (length l)) l = drop k l) as ->.
  { destruct (decide (k ≤ length l)); [by rewrite Nat.min_l|].
    rewrite Nat.min_r by lia. rewrite !drop_ge by lia. done. }
  rewrite take_drop. split_and!; [done|done|lia].
Qed.

Lemma read_loop_spec fuel x y c :
  length x ≤ fuel → incoming c = x ++ y → ∃ c', read_loop fuel (length x) c = (c', Some x) ∧ incoming c' = y.
Proof.
  revert x c. induction fuel as [|fuel IH]; intros x c Hf Hi.
  { destruct x; [|cbn in Hf; lia]. by exists c. }
  destruct x as [|x0 x]; [by exists c|].
  destruct (recv_spec (length (x0 :: x)) c) as (z & got & Hr & Hsplit & Hlen); [cbn; lia|by rewrite Hi|].
  cbn [read_loop length]. cbn [length] in Hr. rewrite Hr.
  assert (x0 :: x = z :: got ++ drop (length got) x) as Hx.
  { rewrite Hi in Hsplit. cbn in Hsplit. injection Hsplit as <- Hs. f_equal.
    apply (f_equal (take (length got))) in Hs. rewrite take_app_length, take_app_le in Hs by (cbn in Hlen; lia).
    rewrite <-Hs at 1. symmetry. apply take_drop. }
  destruct (IH (drop (length got) x) (mkConn (drop (S (length got)) (incoming c)) (tail (grants c))))
    as (c' & Hc' & Hy).
  - rewrite length_drop. cbn in Hf. lia.
  - cbn. rewrite Hi. cbn. rewrite drop_app_le by (cbn in Hlen; lia). done.
  - rewrite length_drop in Hc'. cbn [length Nat.sub]. rewrite Hc'. exists c'. cbn. split; [|done]. by rewrite Hx.
Qed.

Lemma headers_loop_spec fuel acc h t c :
  find BLANK_LINE h = Some (length h - 4) → (Z.of_nat (length h) ≤ MAX_HEADER_READ)%Z →
  acc ++ incoming c = h ++ t → length acc < length h → length (incoming c) < fuel →
  ∃ c' e, headers_loop fuel acc c = (c', Some (h, e)) ∧ e ++ incoming c' = t.
Proof.
  intros Hh Hmax. pose proof (find_bound _ _ _ Hh) as Hb. cbn in Hb.
  revert acc c. induction fuel as [|fuel IH]; intros acc c Heq Hacc Hf; [lia|].
  cbn [headers_loop]. rewrite bool_decide_eq_true_2 by lia.
  assert (incoming c ≠ []) as Hne.
  { intros E. rewrite E, app_nil_r in Heq. subst acc. rewrite length_app in Hacc. lia. }
  destruct (recv_spec 1024 c) as (x & got & -> & Hsplit & _); [lia|done|].
  assert (length (incoming c) = S (length got) + length (drop (S (length got)) (incoming c))) as Hl.
  { rewrite Hsplit at 1. by rewrite length_app. }
  set (rest := drop (S (length got)) (incoming c)) in *. cbn zeta.
  assert ((acc ++ x :: got) ++ rest = h ++ t) as Heq'.
  { rewrite <-app_assoc, <-Heq. f_equal. symmetry. exact Hsplit. }
  assert (find BLANK_LINE ((acc ++ x :: got) ++ rest) = Some (length h - 4)) as Hfind
    by (rewrite Heq'; by apply find_extend).
  rewrite (find_prefix _ _ _ _ Hfind). case_bool_decide as Hlen; cbn [length BLANK_LINE] in Hlen.
  - replace (length h - 4 + 4) with (length h) by lia.
    exists (mkConn rest (tail (grants c))), (drop (length h) (acc ++ x :: got)). cbn [incoming].
    assert (take (length h) (acc ++ x :: got) = h) as ->.
    { apply (f_equal (take (length h))) in Heq'. by rewrite take_app_length, take_app_le in Heq' by lia. }
    split; [done|]. apply (f_equal (drop (length h))) in Heq'.
    by rewrite drop_app_length, drop_app_le in Heq' by lia.
  - destruct (IH (acc ++ x :: got) (mkConn rest (tail (grants c)))) as (c' & e & -> & He);
      [done|cbn; lia|cbn; lia|]. by exists c', e.
Qed.

Lemma stoi_i32 s v : stoi s = Ok v → is_i32 v.
Proof.
  unfold stoi, string_to_integer. intros H. repeat case_match; simplify_eq;
    match goal with Hb : bool_decide (is_i32 _) = true |- _ => by apply bool_decide_eq_true_1 in Hb end.
Qed.

Lemma content_length_i32 h : is_i32 (parse_content_length h).
Proof.
  unfold parse_content_length. induction (getlines h) as [|line lines IH]; cbn [length_in_lines]; [done|].
  destruct (find _ _) as [pos|]; [|done]. destruct (stoi _) eqn:E; [by eapply stoi_i32|done..].
Qed.

Definition request_of (h b : list ascii) : Request :=
  mkRequest (method_and_path h).1 (method_and_path h).2 (of_chars b).

(** Headers that end with their first blank line and announce [n] bytes. *)
Definition announces (h : list ascii) (n : nat) : Prop :=
  find BLANK_LINE h = Some (length h - 4) ∧ (Z.of_nat (length h) ≤ MAX_HEADER_READ)%Z ∧
  (parse_content_length h = Z.of_nat n ∨ (n = 0 ∧ (parse_content_length h ≤ 0)%Z)).

Lemma read_headers_spec h t g :
  find BLANK_LINE h = Some (length h - 4) → (Z.of_nat (length h) ≤ MAX_HEADER_READ)%Z →
  ∃ c e, read_http_headers (mkConn (h ++ t) g) = (c, Some (h, e)) ∧ e ++ incoming c = t.
Proof.
  intros Hh Hmax. pose proof (find_bound _ _ _ Hh) as Hb. cbn in Hb.
  apply headers_loop_spec; [done..| |cbn; lia].
  destruct h; [done|]. cbn. lia.
Qed.

Lemma read_request_spec h b g :
  announces h (length b) → (read_request (mkConn (h ++ b) g)).2 = Ok (Some (request_of h b)).
Proof.
  intros (Hh & Hmax & Hlen). destruct (read_headers_spec h b g Hh Hmax) as (c & e & Hr & He).
  unfold read_request, request_of. rewrite Hr. destruct (method_and_path h) as [mth pth]. cbn [fst snd].
  pose proof (content_length_i32 h) as [_ Hi]. case_bool_decide as Hpos.
  2: { assert (b = []) as -> by (apply nil_length_inv; lia). done. }
  destruct Hlen as [Hlen|[? ?]]; [|lia]. rewrite Hlen in *.
  assert (length e + length (incoming c) = length b) as Hsum by (by rewrite <-length_app, He).
  rewrite wrap64_id by (unfold is_u64, two64; lia). rewrite (bool_decide_eq_false_2 (_ < Z.of_nat (length e))%Z) by lia.
  case_bool_decide as Hrem.
  - destruct (read_loop_spec (length (incoming c)) (incoming c) [] c) as (c' & Hc' & _);
      [done|by rewrite app_nil_r|].
    unfold read_n. replace (Z.to_nat _) with (length (incoming c)) by lia. rewrite Hc'. cbn. by rewrite He.
  - assert (incoming c = []) as Hi0 by (apply nil_length_inv; lia).
    rewrite Hi0, app_nil_r in He. by subst e.
Qed.

Lemma send_loop_all ws s : Forall (λ w, 0 < w)%Z ws → send_loop ws s = s.
Proof.
  intros Hws. revert s. induction Hws as [|w ws Hw _ IH]; intros s; cbn; [by destruct s|].
  destruct s as [|x s]; [done|]. rewrite bool_decide_eq_false_2 by lia. rewrite IH. apply take_drop.
Qed.

Section Properties.
Context `{JT : JsonText} `{MQ : MessageQueue Q} `{OS : Posix W}.
Context (o : Outside Q W).
Implicit Types (a : App Q W).

(** The answer to a request, sent completely. *)
Definition full_answer a (rq : Request) : App Q W * res (list ascii) :=
  match answer_request o a rq with
  | (a, Ok (status, body)) => (a, Ok (chars (response_text status body)))
  | (a, Exn e) => (a, Exn e)
  | (a, Undef) => (a, Undef)
  end.

(** Bytes received after the announced body make the length still to be read
    wrap around. *)
Lemma trailing_bytes_undefined a h b rest ws :
  announces h (length b) → b ≠ [] → rest ≠ [] → length (h ++ b ++ rest) ≤ 1024 →
  serve_client o a (mkConn (h ++ b ++ rest) [1024]) ws = (a, Undef).
Proof.
  intros (Hh & Hmax & Hlen) Hb Hrest Hsmall.
  assert (0 < length b) as Hb0 by (destruct b; [done|cbn; lia]).
  assert (0 < length rest) as Hr0 by (destruct rest; [done|cbn; lia]).
  destruct Hlen as [Hlen|[? ?]]; [|lia].
  assert (read_http_headers (mkConn (h ++ b ++ rest) [1024]) = (mkConn [] [], Some (h, b ++ rest))) as Hr.
  { unfold read_http_headers. cbn [headers_loop incoming]. rewrite bool_decide_eq_true_2 by done.
    unfold recv. cbn [grants incoming head tail default].
    rewrite take_ge, drop_ge by (change (Nat.min _ _) with 1024; lia).
    pose proof (find_bound _ _ _ Hh) as Hbd. cbn in Hbd.
    destruct (h ++ b ++ rest) as [|x l] eqn:E; [by destruct h, b|].
    rewrite <-E in *. cbn [app]. rewrite (find_extend _ _ (b ++ rest) _ Hh).
    replace (length h - 4 + 4) with (length h) by lia. by rewrite take_app_length, drop_app_length. }
  unfold serve_client, read_request. rewrite Hr. destruct (method_and_path h) as [mth pth].
  rewrite Hlen, length_app, !bool_decide_eq_true_2; try lia; [done|].
  assert (Z.of_nat (length b) - Z.of_nat (length b + length rest) = - Z.of_nat (length rest))%Z as -> by lia.
  unfold wrap64. pose proof (Z_mod_nz_opp_full (Z.of_nat (length rest)) two64) as Hz.
  rewrite !length_app in Hsmall. rewrite Hz; rewrite Z.mod_small; unfold two64; lia.
Qed.

(** The requests of a sequence of clients, answered one after the other. *)
Fixpoint answer_all a (rqs : list (list ascii * list ascii)) : App Q W * list (list ascii) * accept_status :=
  match rqs with
  | [] => (a, [], Accepting)
  | (h, b) :: rqs =>
      match full_answer a (request_of h b) with
      | (a, Ok out) => let '(a, outs, st) := answer_all a rqs in (a, out :: outs, st)
      | (a, _) => (a, [], AcceptCrashed)
      end
  end.

(** The client of a round sends the request, in some pieces. *)
Definition sends (rq : list ascii * list ascii) (c : Conn * list Z) : Prop :=
  announces rq.1 (length rq.2) ∧ incoming c.1 = rq.1 ++ rq.2 ∧ Forall (λ w, 0 < w)%Z c.2.

Lemma clients_served_in_order a rounds rqs :
  Forall (λ rd, rd_running rd && rd_still_running rd = true) rounds →
  Forall2 sends rqs (omap rd_client rounds) →
  accept_loop o a rounds = answer_all a rqs.
Proof.
  revert a rqs. induction rounds as [|rd rounds IH]; intros a rqs Hrun Hs; cbn in *.
  { by inversion Hs. }
  apply Forall_cons in Hrun as [[H1 H2]%andb_true_iff Hrun]. rewrite H1, H2. cbn [negb].
  destruct (rd_client rd) as [[[inc g] ws]|]; [|by apply IH].
  apply Forall2_cons_inv_r in Hs as ([h b] & rqs' & (Ha & Hi & Hw) & Hs & ->). cbn in Ha, Hi, Hw. subst inc.
  unfold serve_client. rewrite read_request_spec by done. cbn [answer_all]. unfold full_answer.
  destruct (answer_request o a (request_of h b)) as [a' [[st body]| |]]; [|done..].
  unfold send_http_response. rewrite send_loop_all by done. by rewrite (IH a' rqs').
Qed.

(** C29. However the network splits requests, every client gets the answer to
    its own: while the server runs, the accept loop answers the clients in the
    order they connect, whatever connections fail in between, and for headers of
    at most 64 KiB that announce their body, every way in which [recv] may hand
    over the bytes (and [send] may take them) gives the client the whole answer
    to exactly that method, path and body.  But bytes after the announced body,
    received together with it, are undefined behaviour and end the loop. *)
Theorem request_any_split a rounds rqs :
  Forall (λ rd, rd_running rd && rd_still_running rd = true) rounds →
  Forall2 sends rqs (omap rd_client rounds) →
  accept_loop o a rounds = answer_all a rqs ∧
  (∀ h b rest ws rounds', announces h (length b) → b ≠ [] → rest ≠ [] → length (h ++ b ++ rest) ≤ 1024 →
     (accept_loop o a (mkRound true (Some (mkConn (h ++ b ++ rest) [1024], ws)) true :: rounds')).2 = AcceptCrashed).
Proof.
  intros Hrun Hs. split; [by apply clients_served_in_order|].
  intros h b rest ws rounds' Ha Hb Hr Hsmall. cbn. by rewrite trailing_bytes_undefined.
Qed.

End Properties.

(** ** A request in pieces *)

Section Samples.
#[local] Existing Instance SampleText.sample_text.
#[local] Existing Instance ListPosix.list_posix.

Definition sample_headers : list ascii :=
  chars ("POST /rpc HTTP/1.1" +:+ crlf +:+ "content-Length:  2" +:+ crlf +:+ crlf).

(** A client in five pieces, a failed connection, and a client in one piece. *)
Definition sample_rounds : list round :=
  [mkRound true (Some (mkConn (sample_headers ++ chars "{}") [3; 30; 5; 1; 1], [7; 1]%Z)) true;
   mkRound true None true;
   mkRound true (Some (mkConn (sample_headers ++ chars "[]") [], [])) true].

Lemma request_any_split_witness :
  accept_loop sample_outside sample_app sample_rounds =
    answer_all sample_outside sample_app [(sample_headers, chars "{}"); (sample_headers, chars "[]")] ∧
  request_of sample_headers (chars "{}") = mkRequest "POST" "/rpc" "{}".
Proof.
  split; [|vm_compute; reflexivity].
  apply (request_any_split sample_outside sample_app sample_rounds
    [(sample_headers, chars "{}"); (sample_headers, chars "[]")]).
  - repeat constructor.
  - assert (announces sample_headers 2) as Ha.
    { split_and!; [vm_compute; reflexivity|by vm_compute|left; vm_compute; reflexivity]. }
    repeat constructor; try done; apply Ha.
Defined.

End Samples.
