(* ===== verification/Cli.v ===== *)
(** * The command line

    Model of src/src/server/instrument_server_main.cpp: [main] dispatches a
    command to the handlers of CommandHandlers.v and prints what they answer.
    Every invocation is a process of its own, with its own registries: [App] is
    the state of that process.  [args] are [argv[1]], [argv[2]], ...; reading an
    argument that is not there makes a string from a null pointer, which is
    undefined. *)

From S2P Require Import Prelude Text Json Yaml SerializedCommand Ipc SyncCoordinator ProcessManager Proxy PluginRegistry Registry JobManager RuntimeContext RegistryWorkers Daemon CommandHandlers.
From Stdlib Require Import Lia.

(** ** Output *)

Inductive stream := Stdout | Stderr.
Definition output : Type := list (stream * string).
Definition say (s : string) : output := [(Stdout, s +:+ String LF EmptyString)].
Definition complain (s : string) : output := [(Stderr, s +:+ String LF EmptyString)].

Definition usage_lines : list string :=
  ["Usage: instrument-server <command> [options]"; EmptyString;
   "Daemon Management:";
   "  daemon start                       Start server daemon";
   "  daemon stop                        Stop server daemon";
   "  daemon status                      Check daemon status"; EmptyString;
   "Instrument Commands:";
   "  start <config> [--plugin <path>]   Start instrument";
   "  stop <name>                        Stop instrument";
   "  status <name>                      Query instrument status";
   "  list                               List running instruments"; EmptyString;
   "Measurement:";
   "  measure <script>                   Run Lua measurement script"; EmptyString;
   "Utilities:";
   "  test <config> <verb> [params]      Test command";
   "  discover [paths...]                Discover plugins";
   "  plugins                            List available plugins"; EmptyString;
   "Options:";
   "  --plugin <path>      Custom plugin (. so/. dll)";
   "  --log-level <level>  Log level (default: info)"; EmptyString;
   "Workflow:";
   "  1. Start daemon:";
   "     instrument-server daemon start"; EmptyString;
   "  2. Start instruments:";
   "     instrument-server start dac1.yaml";
   "     instrument-server start dmm1.yaml";
   "     instrument-server start scope1.yaml --plugin ./custom.so"; EmptyString;
   "  3. Run measurement:";
   "     instrument-server measure my_measurement.lua"; EmptyString;
   "  4. Manage:";
   "     instrument-server list";
   "     instrument-server status DAC1";
   "     instrument-server stop DAC1"; EmptyString;
   "  5. Shutdown:";
   "     instrument-server daemon stop"].
Definition print_usage : output := concat (say <$> usage_lines).

(** ** Arguments *)

Abbreviation fields := (list (string * json)).

(** The options of [daemon]. *)
Fixpoint daemon_options (args : list string) (params : fields) : fields :=
  match args with
  | [] => params
  | arg :: rest =>
      match rest with
      | v :: rest' => if bool_decide (arg = "--log-level")
                      then daemon_options rest' (obj_set "log_level" (JStr v) params)
                      else daemon_options rest params
      | [] => params
      end
  end.

(** The options of [start]. *)
Fixpoint start_options (args : list string) (params : fields) : fields :=
  match args with
  | [] => params
  | arg :: rest =>
      match rest with
      | v :: rest' => if bool_decide (arg = "--plugin") then start_options rest' (obj_set "plugin" (JStr v) params)
                      else if bool_decide (arg = "--log-level")
                      then start_options rest' (obj_set "log_level" (JStr v) params)
                      else start_options rest params
      | [] => params
      end
  end.

(** The options of [measure]. *)
Fixpoint measure_options (args : list string) (params : fields) : fields :=
  match args with
  | [] => params
  | arg :: rest =>
      let other := if bool_decide (arg = "--json") then obj_set "json" (JBool true) params else params in
      match rest with
      | v :: rest' => if bool_decide (arg = "--log-level")
                      then measure_options rest' (obj_set "log_level" (JStr v) params)
                      else measure_options rest other
      | [] => other
      end
  end.

Section Main.
Context `{JT : JsonText} `{MQ : MessageQueue Q} `{OS : Posix W}.
Context (o : Outside Q W).
(** [std::stod], and [dump(2)]. *)
Context (stod : string → res double) (dump2 : json → res string).
Implicit Types (a : App Q W).

(** [key=value]: a number if the value starts with one, else a boolean or the
    text. *)
Definition parse_value (val : string) : json :=
  let number := if bool_decide ("."%char ∈ chars val) then d ← stod val; Ok (JFloat d)
                else i ← stoll val; Ok (JInt i) in
  match number with
  | Ok j => j
  | _ => if bool_decide (val = "true") || bool_decide (val = "false") then JBool (bool_decide (val = "true"))
         else JStr val
  end.

(** [params["params"][key] = v] *)
Definition set_test_param (key : string) (v : json) (params : fields) : fields :=
  let inner := match obj_get "params" params with Some (JObj kvs) => kvs | _ => [] end in
  obj_set "params" (JObj (obj_set key v inner)) params.

Definition test_argument (arg : string) (params : fields) : fields :=
  match split_at "="%char (chars arg) with
  | Some (key, val) => set_test_param (of_chars key) (parse_value (of_chars val)) params
  | None => params
  end.

(** The options and parameters of [test]. *)
Fixpoint test_options (args : list string) (params : fields) : fields :=
  match args with
  | [] => params
  | arg :: rest =>
      match rest with
      | v :: rest' => if bool_decide (arg = "--plugin") then test_options rest' (obj_set "plugin" (JStr v) params)
                      else if bool_decide (arg = "--log-level")
                      then test_options rest' (obj_set "log_level" (JStr v) params)
                      else test_options rest (test_argument arg params)
      | [] => test_argument arg params
      end
  end.

(** ** Answers *)

(** [out[key].get<std::string>()] *)
Definition out_string (out : json) (key : string) : res string := v ← j_index out key; get_string v.

Definition print_daemon (out : json) : res output :=
  if contains out "error" then s ← out_string out "error"; Ok (complain s)
  else if contains out "message" then s ← out_string out "message"; Ok (say s)
  else Ok [].

Definition print_start (out : json) : res output :=
  e ← (if contains out "error" then s ← out_string out "error"; Ok (complain s) else Ok []);
  i ← (if contains out "instrument" then s ← out_string out "instrument"; Ok (say ("Started instrument: " +:+ s))
       else Ok []);
  Ok (e ++ i).

Definition print_stop (name : string) (out : json) : res output :=
  if contains out "error" then s ← out_string out "error"; Ok (complain s)
  else Ok (say ("Stopped instrument: " +:+ name)).

Definition print_status (out : json) : res output :=
  if contains out "error" then s ← out_string out "error"; Ok (complain s)
  else
    name ← j_value get_string out "name" EmptyString;
    alive ← j_value get_bool out "alive" false;
    let head := say ("Instrument: " +:+ name) ++
                say ("  Status: " +:+ (if alive : bool then "RUNNING" else "STOPPED")) in
    if contains out "stats" then
      s ← j_index out "stats";
      n ← j_value get_int s "commands_sent" 0%Z;
      Ok (head ++ say ("  Commands sent: " +:+ dec n))
    else Ok head.

Definition print_measure (params : fields) (out : json) : res output :=
  ok ← j_value get_bool out "ok" false;
  if negb ok then s ← j_value get_string out "error" "measure failed"; Ok (complain s)
  else
    json ← j_value get_bool (JObj params) "json" false;
    if json : bool then s ← dump2 out; Ok (say s) else Ok (say "Measurement complete").

Definition print_test (out : json) : res output :=
  ok ← j_value get_bool out "ok" false;
  if negb ok then s ← j_value get_string out "error" "test failed"; Ok (complain s)
  else if contains out "text_response" then s ← out_string out "text_response"; Ok (say s)
  else Ok [].

Definition array_of (j : json) : list json := match j with JArr l => l | _ => [] end.

Definition print_discover (out : json) : res output :=
  if contains out "protocols" then
    p ← j_index out "protocols";
    l ← res_map (λ x, s ← get_string x; Ok (say ("  " +:+ s))) (array_of p);
    Ok (say ("Found " +:+ dec (Z.of_nat (length (array_of p))) +:+ " plugin(s):") ++ concat l)
  else Ok [].

Definition print_plugins (out : json) : res output :=
  if contains out "plugins" then
    p ← j_index out "plugins";
    if bool_decide (array_of p = []) then Ok (say "No plugins found")
    else
      l ← res_map (λ x, pr ← out_string x "protocol"; pa ← out_string x "path";
                        Ok (say ("  " +:+ pr +:+ " -> " +:+ pa))) (array_of p);
      Ok (say "Available plugins:" ++ say EmptyString ++ concat l)
  else Ok [].

(** Call a handler, print its answer unless it is null, and exit with its code. *)
Definition report (r : App Q W * res (Z * json)) (print : json → res output) : App Q W * res (Z * output) :=
  match r with
  | (a, Ok (rc, JNull)) => (a, Ok (rc, []))
  | (a, Ok (rc, out)) => (a, s ← print out; Ok (rc, s))
  | (a, Exn e) => (a, Exn e)
  | (a, Undef) => (a, Undef)
  end.

(** [list] exits with a code of its own. *)
Definition report_list (r : App Q W * res (Z * json)) : App Q W * res (Z * output) :=
  match r with
  | (a, Ok (rc, out)) =>
      if contains out "instruments" then
        (a, arr ← j_index out "instruments";
            if bool_decide (array_of arr = []) then Ok (1%Z, say "No instruments running")
            else l ← res_map (λ x, s ← get_string x; Ok (say ("  " +:+ s))) (array_of arr);
                 Ok (0%Z, say "Running instruments:" ++ concat l))
      else (a, Ok (rc, []))
  | (a, Exn e) => (a, Exn e)
  | (a, Undef) => (a, Undef)
  end.

(** ** [main] *)

Definition main a (args : list string) : App Q W * res (Z * output) :=
  match args with
  | [] => (a, Ok (1%Z, print_usage))
  | command :: args =>
      if bool_decide (command = "daemon") then
        match args with
        | [] => (a, Ok (1%Z, complain "Usage: instrument-server daemon <start|stop|status>"))
        | action :: opts =>
            report (handle_daemon o a (JObj (daemon_options opts (mkobj [("action", JStr action)])))) print_daemon
        end
      else if bool_decide (command = "start") then
        match args with
        | [] => (a, Undef)   (* the check asks for two arguments, not three *)
        | config_path :: opts =>
            report (handle_start o a (JObj (start_options opts (mkobj [("config_path", JStr config_path)]))))
              print_start
        end
      else if bool_decide (command = "stop") then
        match args with
        | [] => (a, Ok (1%Z, complain "Error: stop requires instrument name"
                               ++ complain "Usage: instrument-server stop <name>"))
        | name :: _ => report (handle_stop o a (JObj (mkobj [("name", JStr name)]))) (print_stop name)
        end
      else if bool_decide (command = "status") then
        match args with
        | [] => (a, Ok (1%Z, complain "Error: status requires instrument name"
                               ++ complain "Usage: instrument-server status <name>"))
        | name :: _ => report (handle_status a (JObj (mkobj [("name", JStr name)]))) print_status
        end
      else if bool_decide (command = "list") then report_list (handle_list a JNull)
      else if bool_decide (command = "measure") then
        match args with
        | [] => (a, Ok (1%Z, complain "Error: measure requires script path"
                  ++ complain "Usage: instrument-server measure <script> [--json] [--log-level <level>]"))
        | script :: opts =>
            let params := measure_options opts (mkobj [("script_path", JStr script)]) in
            report (handle_measure o a (JObj params)) (print_measure params)
        end
      else if bool_decide (command = "test") then
        match args with
        | [] => (a, Ok (1%Z, complain "Error: test requires config and verb"
                  ++ complain ("Usage: instrument-server test <config> <verb> [param=value... ] "
                               +:+ "[--plugin <path>] [--log-level <level>]")))
        | [_] => (a, Undef)  (* the check asks for three arguments, not four *)
        | config_path :: verb :: opts =>
            report (handle_test o a (JObj (test_options opts (mkobj [("config_path", JStr config_path);
                                                                     ("verb", JStr verb)])))) print_test
        end
      else if bool_decide (command = "discover") then
        let params := match args with [] => JNull | _ => JObj [("paths", strings args)] end in
        report (handle_discover o a params) print_discover
      else if bool_decide (command = "plugins") then report (handle_plugins o a JNull) print_plugins
      else if bool_decide (command = "--help") || bool_decide (command = "-h") then (a, Ok (0%Z, print_usage))
      else (a, Ok (1%Z, complain ("Unknown command: " +:+ command) ++ complain EmptyString ++ print_usage))
  end.

(** ** What a command sees *)

(** A process that has just started: no instrument, no plugin, no daemon of its
    own. *)
Record fresh_process a : Prop := {
  fp_instruments : instruments_ (ap_registry a) = ∅;
  fp_plugins : ∀ protocol, get_plugin_path (ap_plugins a) protocol = EmptyString;
  fp_daemon : running_ (ap_daemon a) = false
}.

Lemma with_same a : with_registry (with_daemon a (ap_daemon a) (ap_system a)) (ap_registry a) = a.
Proof. by destruct a. Qed.

(** Without a plugin for its protocol no instrument is created. *)
Lemma create_without_plugin a config a' ok :
  (∀ protocol, get_plugin_path (ap_plugins a) protocol = EmptyString) →
  create o a config = (a', Ok ok) → ok = false.
Proof.
  intros Hp. unfold create, create_instrument. destruct (config_yaml ← _; _) as [[[name cj] aj]|e|];
    [|intros H; by simplify_eq/=..].
  unfold create_instrument_from_json. destruct (bool_decide (is_Some _)); [intros H; by simplify_eq/=|].
  destruct (config ← _; _) as [[c d]|e|]; [|intros H; by simplify_eq/=..].
  destruct (protocol_type_of d) as [t|e|]; [|intros H; by simplify_eq/=..].
  rewrite Hp. intros H. by simplify_eq/=.
Qed.

(** The exit code is the handler's. *)
Lemma report_code a rc j print rc' out : (report (a, Ok (rc, j)) print).2 = Ok (rc', out) → rc' = rc.
Proof.
  unfold report. destruct j; cbn [snd]; intros H; try (destruct (print _); cbn in H); congruence.
Qed.

Lemma start_without_plugin a config :
  fresh_process a → ∀ rc out, (main a ["start"; config]).2 = Ok (rc, out) → rc = 1%Z.
Proof.
  intros [_ Hp _] rc out.
  change (main a ["start"; config]) with
    (report (if empty? config then fail_with a "missing config_path"
             else after_create o a EmptyString config (λ a, answer a 0 ([("ok", JBool true)] ++
                    match last (list_instruments (ap_registry a)) with
                    | Some name => [("instrument", JStr name)] | None => [] end))) print_start).
  case_bool_decide as Hc0; [apply report_code|].
  unfold after_create, load_custom. rewrite bool_decide_true by done.
  destruct (create o a config) as [a' [ok|e|]] eqn:Hc.
  - apply create_without_plugin in Hc as ->; [|done]. apply report_code.
  - apply report_code.
  - done.
Qed.

Lemma stop_unknown a name :
  name ≠ EmptyString → instruments_ (ap_registry a) !! name = None →
  handle_stop o a (JObj [("name", JStr name)]) = fail_with a "instrument not found".
Proof.
  intros Hn Hi. change (handle_stop o a (JObj [("name", JStr name)])) with
    (if empty? name then fail_with a "missing name"
     else if negb (has_instrument (ap_registry a) name) then fail_with a "instrument not found"
     else answer (with_registry a (remove_instrument (os_stop o) (ap_registry a) name)) 0 [("ok", JBool true)]).
  rewrite bool_decide_false by done. unfold has_instrument. by rewrite Hi.
Qed.

Lemma status_unknown a name :
  name ≠ EmptyString → instruments_ (ap_registry a) !! name = None →
  handle_status a (JObj [("name", JStr name)]) = fail_with a "instrument not found".
Proof.
  intros Hn Hi. unfold handle_status, with_string.
  change (j_value get_string (JObj [("name", JStr name)]) "name" EmptyString) with (Ok name). cbv iota.
  rewrite bool_decide_false by done. unfold get_instrument. by rewrite Hi.
Qed.

Lemma measure_nothing a script :
  script ≠ EmptyString → list_instruments (ap_registry a) = [] →
  handle_measure o a (JObj [("script_path", JStr script)]) = fail_with a "no instruments running".
Proof.
  intros Hs Hl. unfold handle_measure, with_string, with_value.
  change (j_value get_string (JObj [("script_path", JStr script)]) "script_path" EmptyString) with (Ok script).
  change (j_value get_string (JObj [("script_path", JStr script)]) "log_level" "info") with (Ok "info").
  change (j_value get_bool (JObj [("script_path", JStr script)]) "json" false) with (Ok false). cbv iota.
  rewrite bool_decide_false by done. by rewrite Hl.
Qed.

(** The handler finds the PID file of the running daemon, but stops the daemon
    object of its own process, which does not run. *)
Lemma stop_other_daemon a :
  running_ (ap_daemon a) = false → is_already_running (ap_system a) = true →
  handle_daemon o a (JObj [("action", JStr "stop")]) = answer a 0 [("ok", JBool true)].
Proof.
  intros Hd Hr. unfold handle_daemon, with_string, with_value.
  change (j_value get_string (JObj [("action", JStr "stop")]) "action" EmptyString) with (Ok "stop").
  change (j_value get_string (JObj [("action", JStr "stop")]) "log_level" "info") with (Ok "info").
  change (j_value get_bool (JObj [("action", JStr "stop")]) "block" true) with (Ok true). cbv iota.
  change (bool_decide ("stop" = "start")) with false. change (bool_decide ("stop" = "stop")) with true. cbv iota.
  rewrite Hr. cbn [negb]. unfold daemon_stop. rewrite Hd. cbn [negb]. by rewrite with_same.
Qed.

(** C39. A command line invocation works on the instruments of its own process,
    and has none: in a process that has just started, [stop] and [status] find no
    instrument, [list] shows none, [measure] refuses, [start] without a plugin
    fails, and [daemon stop] reports success without touching the daemon that
    runs. *)
Theorem cli_sees_own_process a name script config :
  fresh_process a → name ≠ EmptyString → script ≠ EmptyString →
  main a ["stop"; name] = (a, Ok (1%Z, complain "instrument not found")) ∧
  main a ["status"; name] = (a, Ok (1%Z, complain "instrument not found")) ∧
  main a ["list"] = (a, Ok (1%Z, say "No instruments running")) ∧
  main a ["measure"; script] = (a, Ok (1%Z, complain "no instruments running")) ∧
  (∀ rc out, (main a ["start"; config]).2 = Ok (rc, out) → rc = 1%Z) ∧
  (is_already_running (ap_system a) = true → main a ["daemon"; "stop"] = (a, Ok (0%Z, []))).
Proof.
  intros Hf Hname Hscript. pose proof (start_without_plugin a config Hf) as Hstart.
  destruct Hf as [Hi Hp Hd].
  assert (list_instruments (ap_registry a) = []) as Hl.
  { unfold list_instruments. rewrite Hi. done. }
  split_and!; [..|exact Hstart|].
  - change (main a ["stop"; name]) with (report (handle_stop o a (JObj [("name", JStr name)])) (print_stop name)).
    rewrite stop_unknown by (by rewrite ?Hi). reflexivity.
  - change (main a ["status"; name]) with (report (handle_status a (JObj [("name", JStr name)])) print_status).
    rewrite status_unknown by (by rewrite ?Hi). reflexivity.
  - change (main a ["list"]) with (report_list (handle_list a JNull)).
    unfold handle_list. rewrite Hl. reflexivity.
  - change (main a ["measure"; script]) with
      (report (handle_measure o a (JObj [("script_path", JStr script)])) (print_measure [("script_path", JStr script)])).
    rewrite measure_nothing by done. reflexivity.
  - intros Hr. change (main a ["daemon"; "stop"]) with
      (report (handle_daemon o a (JObj [("action", JStr "stop")])) print_daemon).
    rewrite stop_other_daemon by done. reflexivity.
Qed.

End Main.

(** ** Examples *)

Section Samples.
#[local] Existing Instance SampleText.sample_text.
#[local] Existing Instance ListPosix.list_posix.

(** A daemon runs as process 4242; the command line tool is process 5000. *)
Definition cli_app : App ListQueue.listq ListPosix.world :=
  mkApp new_daemon (mkSystem 5000 {[4242; 5000]}%Z (Some ("4242" +:+ String LF EmptyString)))
    (mkRegistry (rg_server Registry.sample_created.1) ∅ ∅) empty_dl PluginRegistry.empty_registry new_job_manager false false.

Definition no_number (s : string) : res double := Exn "stod".
Definition no_dump (j : json) : res string := Exn "dump".
Definition cli_run (args : list string) : App ListQueue.listq ListPosix.world * res (Z * output) :=
  main sample_outside no_number no_dump cli_app args.

Lemma cli_sees_own_process_witness :
  is_already_running (ap_system cli_app) = true ∧
  cli_run ["daemon"; "stop"] = (cli_app, Ok (0%Z, [])) ∧
  cli_run ["list"] = (cli_app, Ok (1%Z, say "No instruments running")).
Proof.
  assert (is_already_running (ap_system cli_app) = true) as Hr by (vm_compute; reflexivity).
  destruct (cli_sees_own_process sample_outside no_number no_dump cli_app "DAC1" "m.lua" "afg1.yaml")
    as (_ & _ & Hl & _ & _ & Hd).
  - split; [reflexivity| |reflexivity]. intros protocol. unfold get_plugin_path. cbn. by rewrite lookup_empty.
  - discriminate.
  - discriminate.
  - split; [exact Hr|]. split; [exact (Hd Hr)|exact Hl].
Defined.

(** [start] without a configuration, and [test] without a verb. *)
Example start_without_argument : (cli_run ["start"]).2 = Undef.
Proof. reflexivity. Qed.
Example test_without_verb : (cli_run ["test"; "dac1.yaml"]).2 = Undef.
Proof. reflexivity. Qed.

(** A value that starts with digits is cut to the number. *)
Example value_cut : parse_value no_number "10V" = JInt 10.
Proof. reflexivity. Qed.

End Samples.
